(* ===== verification/_CoqProject ===== *)
-Q . S2P
Prelude.v
GoErrors.v
Prog.v
ProgLogic.v
GoStrings.v
Sha256.v
GoJson.v
Schema.v
Demo.v
Availability.v
Rewards.v
RewardsTx.v
RewardsSql.v
RewardsDemo.v
RewardsInv.v
RewardsLogic.v
RewardsErrors.v
RewardsSys.v
RewardsSeq.v
RewardsSafety.v
Outbox.v
OutboxFacts.v
Backoff.v
Worker.v
WorkerLogic.v
WorkerSys.v
WorkerSafety.v
GoParse.v
Config.v
JsonDecode.v
Trim.v
Mime.v
Http.v
Metrics.v
HttpCalls.v
Health.v
HttpApi.v
AdminHttp.v
HttpLogic.v
HttpWrites.v
HttpFacts.v
HttpClaims.v
Readiness.v
HttpSafety.v
AdminSafety.v
MetricsFacts.v
Process.v
ApiMain.v
WorkerMain.v
ProcessLogic.v
ProcessSafety.v
Startup.v
WorkerGoroutines.v
WorkerReady.v
WorkerTime.v
WorkerProgress.v
WorkerObserved.v
Service.v
ServiceSafety.v
