(* ===== verification/Prelude.v ===== *)
(** * game-rewards-service: a verification development

    The service grants rewards to players.  An API process accepts reward claims
    over HTTP and stores, in one PostgreSQL transaction, the claim, the response
    under the client's idempotency key, and an event in an outbox table; a worker
    process leases the events and publishes them, with retries and dead letters.
    This library models the Go code of both processes and proves what makes it
    correct.

    ** Parts, files and sources

    Go and its standard library, as far as the code uses them:
    - [GoErrors]: error trees, [errors.Is], [errors.As], contexts;
    - [GoStrings], [Trim]: strings as bytes, UTF-8, [strings.TrimSpace], [hex];
    - [Sha256]; [GoJson]: [json.Marshal], [json.Valid], RFC 3339 times;
    - [GoParse]: [strconv.Atoi] and [time.ParseDuration] with their 64-bit tests;
    - [JsonDecode]: [json.Unmarshal] (v2) of the claim request; [Mime]: the part of
      [mime.ParseMediaType] that is observed; [Http]: headers, response writers,
      panics, the path matching of a [ServeMux].

    Programs.  [Prog] defines a program as a tree of calls to the outside with
    continuations; the same text is run alone, against an environment, or
    interleaved with others.  [ProgLogic] runs programs against environments and
    gives weakest preconditions with a protocol of calls: a program with one
    terminates, whatever the environment answers, and follows the protocol.

    The reward claims (internal/rewards, migrations/):
    - [Schema]: the three tables and their constraints; [Demo]: a PostgreSQL;
    - [Availability]: internal/postgres/availability.go and [mapPostgresError];
    - [Rewards]: claim.go, service.go (validation), uuid.go, response.go, event.go;
    - [RewardsTx]: postgres.go and [CreateClaim], over the statements they send;
      [RewardsSql]: the SQL of each statement on what a READ COMMITTED transaction
      sees, failures and lost acknowledgements included;
    - [RewardsInv], [RewardsLogic]: the invariant of the committed state and the
      program logic of a transaction that others interleave with, which also says
      which errors PostgreSQL can answer a statement with; [RewardsErrors]: a call
      that ends with a context's error ends with its request's;
    - [RewardsSeq]: one call alone (atomicity, refinement of [claim_spec], retry);
      [RewardsSys]: any number of interleaved, possibly crashing calls with the
      worker's updates and the retention procedures of docs/runbook.md, as a step
      relation; [RewardsSafety]: what its reachable states guarantee.

    The outbox (internal/outbox):
    - [Outbox]: event.go, observer.go, store.go, with the SQL of the four
      operations; [OutboxFacts]: order, leases and fencing; [Backoff]: backoff.go;
    - [Worker]: worker.go and publisher.go over the worker's calls; [WorkerLogic]:
      the protocol of a worker; [WorkerSys]: any number of workers sharing the
      table; [WorkerSafety]: delivery, bounds, leases, configuration, composition;
    - [WorkerObserved]: what a worker reports is what its calls call for;
      [WorkerTime]: executions within the timeouts, and that the lease outlasts
      them; [WorkerProgress]: what a worker does when nothing fails.

    The composition: [Service] puts the transactions of the API, the workers, the
    clock, crashes and retention over one database, and projects every step to
    [RewardsSys] and to [WorkerSys]; [ServiceSafety] follows a granted reward to its
    publication, and a publication back to its claim.

    The HTTP API (internal/httpapi, internal/health):
    - [HttpCalls]: the calls of a handler and response.go; [Health]: health.go;
      [HttpApi]: reward_claims.go, request_context.go, middleware.go, routes.go,
      server.go;
    - [HttpLogic], [HttpWrites]: the logic of handlers and of the status recorder;
      [HttpFacts]: the protocol of a request; [HttpClaims]: the response for every
      outcome of the service; [HttpSafety]: the theorems, down to the tables;
      [Readiness]: what the readiness endpoint says.

    The processes (internal/config, internal/observability, internal/adminhttp,
    internal/postgres/pool.go, cmd/):
    - [Config]: config.go over a lookup function;
    - [Metrics]: registry.go, http.go, rewards.go, worker.go, over the calls to
      client_golang; [MetricsFacts]: label bounds, agreement with the responses;
    - [AdminHttp], [AdminSafety]: the worker's admin server;
    - [Process]: what both mains share and pool.go; [ApiMain], [WorkerMain]: the
      two [run] functions; [ProcessLogic], [ProcessSafety]: their protocol and its
      triples; [Startup]: exit codes, resources, and that an accepted configuration
      starts;
    - [WorkerGoroutines]: [run] of cmd/worker, the polling loop and the admin server
      as interleaved goroutines over the flag, the channel and the contexts they
      share; [WorkerReady]: what their reachable states guarantee.

    Record fields, constructors and functions keep the names of the source; a
    function [f] of file x.go is the definition [f] of the file named above.

    ** What the theorems show

    - Claims: a reward is granted at most once per player, campaign and reward;
      every committed claim has its event and stored response; all successful calls
      with one key get the same response; a call is all or nothing whatever
      statement fails, and a retry after any outcome, a lost acknowledgement
      included, repeats the stored response.  No statement is ever refused for a
      constraint of the schema the code would violate.  From the HTTP request to the rows,
      what a client is told agrees with what is committed.
    - Outbox: transitions are fenced by the lease; no two workers handle an event
      under live leases; an event marked published was accepted by the publisher;
      failures are bounded; the backoff is capped and does not overflow.  The lease
      budget of the configuration is enough: while calls respect their timeouts no
      lease is lost.  From any reachable state a worker whose calls do not fail
      publishes every due event within as many turns as the backlog has events.
    - Both together: every reachable state of the service is reachable in each
      system alone; a granted reward's event was accepted, was given up after the
      full number of refusals, or is published as soon as it is due; what is
      published announces a committed claim, and always under one identifier.
    - HTTP: every request to either server ends, panics included, with one
      observation and one log line that carry the status the client got; a request
      clients can write reaches the service as one command with the fields that were
      sent and the key without the white space around it.
    - Configuration: loaded exactly when valid, errors blame a variable that is
      set, a printed configuration is read back.
    - Processes: exit codes, order of release, and start-up for every accepted
      configuration; the worker is ready only while its loop runs or until it clears
      the flag after sending its result, a clean exit leaves no goroutine behind, and a shutdown always ends; metrics have bounded
      labels and count what clients were told and what workers did.

    ** Bounds and fuel

    [createClaim] retries its reservation in a loop bounded by a fuel argument:
    alone, one turn is enough ([createClaim_refines_spec]); the safety theorems
    hold for every fuel.  The worker's [Run] never returns by itself; its theorems
    hold for every fuel, on every trace, and the size of the backlog is fuel enough
    to empty it.  The JSON decoder and the media type parser take the length of
    their input as fuel, which they are proved not to exhaust ([members_fuel],
    [params_fuel]).  Everything else is structural.  Durations,
    integers of the configuration and failure counts are 64-bit with the
    wrap-around written out; hashing is on 32-bit words.

    ** Parameters

    What is not in the repository is a parameter or an effect: [Postgres]
    ([pgconn.Timeout], the text forms of [uuid] and [jsonb], with the law that a text
    beginning with a brace is stored as an object), [PgInterval] (the
    interval made of a number of seconds; the theorems about time assume that it is
    exact to the microsecond, [interval_exact]), [ServeMux] (net/http's own answers to
    unclean paths), and the replies of the environment (database failures, clocks,
    random bytes, the service as seen by a handler, client_golang, the operating
    system).  Theorems that need something of them say so in a hypothesis, and
    their witnesses instantiate it.

    ** Not modelled

    - The effect of indexes, the query planner, deadlocks and isolation anomalies
      below READ COMMITTED: statements read the committed rows and their own.
    - The contents of log messages beyond their level, message and attributes; the
      texts of errors where no code reads them.
    - [main], which installs the signal handler and exits with the code of [run];
      [os.LookupEnv], which is an argument; the serving of connections inside
      net/http: the admin server's goroutine is its return from [Serve].
    - Tests, the down migration, scripts, the OpenAPI document and the build. *)
From stdpp Require Export base tactics numbers list gmap strings.
From Stdlib Require Export Lia ZArith.

#[global] Set Default Goal Selector "!".

(** ** Results

    A Go function returning [(T, error)] is modelled by [result E T]: the code
    under verification never uses the value component when the error is
    non-nil. *)
Inductive result (E A : Type) : Type :=
| Ok (a : A)
| Err (e : E).
Arguments Ok {E A} a.
Arguments Err {E A} e.

Definition rbind {E A B} (m : result E A) (k : A → result E B) : result E B :=
  match m with
  | Ok a => k a
  | Err e => Err e
  end.

(** [if err != nil { return err }] for functions that only return an error. *)
Definition rguard {E} (e : option E) : result E unit :=
  match e with
  | Some e => Err e
  | None => Ok tt
  end.

Declare Scope go_scope.
Delimit Scope go_scope with go.
Notation "'let!' x ':=' m 'in' k" := (rbind m (λ x, k))
  (at level 10, x pattern, m at level 100, k at level 200,
   format "'let!'  x  ':='  m  'in' '//' k") : go_scope.
#[global] Open Scope go_scope.

#[export] Instance result_eq_dec {E A} `{EqDecision E, EqDecision A} :
  EqDecision (result E A).
Proof. solve_decision. Defined.

Lemma rbind_ok {E A B} (m : result E A) (k : A → result E B) b :
  rbind m k = Ok b ↔ ∃ a, m = Ok a ∧ k a = Ok b.
Proof. destruct m; naive_solver. Qed.

Lemma rbind_err {E A B} (m : result E A) (k : A → result E B) e :
  rbind m k = Err e ↔ m = Err e ∨ ∃ a, m = Ok a ∧ k a = Err e.
Proof. destruct m; naive_solver. Qed.

(** ** Machine integers

    Go's [int], [int64] and [time.Duration] are 64-bit two's complement. *)
Local Open Scope Z_scope.

Definition int64_min : Z := -2 ^ 63.
Definition int64_max : Z := 2 ^ 63 - 1.
Definition int64 (z : Z) : Z := (z + 2 ^ 63) `mod` 2 ^ 64 - 2 ^ 63.
Definition is_int64 (z : Z) : Prop := int64_min ≤ z ≤ int64_max.

Lemma int64_id z : is_int64 z → int64 z = z.
Proof.
  unfold is_int64, int64, int64_min, int64_max. intros H.
  rewrite Z.mod_small; lia.
Qed.

Lemma int64_range z : is_int64 (int64 z).
Proof.
  unfold is_int64, int64, int64_min, int64_max.
  pose proof (Z.mod_pos_bound (z + 2 ^ 63) (2 ^ 64)). lia.
Qed.

(** A decidable property of a bounded range, established by evaluating it. *)
Lemma by_enumeration (P : Z → bool) (n : Z) :
  forallb P (seqZ 0 n) = true → ∀ x, 0 ≤ x < n → P x = true.
Proof.
  rewrite List.forallb_forall. intros H x Hx. apply H.
  apply list_elem_of_In, elem_of_seqZ. lia.
Qed.

(** ** Automation *)

(** The database of the development: facts that close the routine side goals. *)
Create HintDb svc.
Create Rewrite HintDb svc.
#[export] Hint Resolve int64_range : svc.

(** Destruct the scrutinee of a [match] or [if] of the goal or of a hypothesis. *)
Ltac break_match :=
  match goal with
  | |- context [match ?x with _ => _ end] => destruct x eqn:?
  end.
Ltac break_match_in H :=
  match type of H with
  | context [match ?x with _ => _ end] => destruct x eqn:?
  end.

(** Break every match of a hypothesis, discarding the impossible branches. *)
Ltac crush_in H := repeat (break_match_in H; simplify_eq/=).
Ltac crush := repeat (break_match; simplify_eq/=).

(** Turn boolean tests into the propositions they decide. *)
Ltac boolean :=
  repeat match goal with
  | H : _ && _ = true |- _ => apply andb_true_iff in H as [??]
  | H : _ || _ = false |- _ => apply orb_false_iff in H as [??]
  | H : (_ <? _)%Z = true |- _ => apply Z.ltb_lt in H
  | H : (_ <? _)%Z = false |- _ => apply Z.ltb_ge in H
  | H : (_ <=? _)%Z = true |- _ => apply Z.leb_le in H
  | H : (_ <=? _)%Z = false |- _ => apply Z.leb_gt in H
  | H : (_ >? _)%Z = true |- _ => rewrite Z.gtb_ltb in H; apply Z.ltb_lt in H
  | H : (_ >? _)%Z = false |- _ => rewrite Z.gtb_ltb in H; apply Z.ltb_ge in H
  | H : (_ =? _)%Z = true |- _ => apply Z.eqb_eq in H
  | H : (_ =? _)%Z = false |- _ => apply Z.eqb_neq in H
  | H : bool_decide _ = true |- _ => apply bool_decide_eq_true in H
  | H : bool_decide _ = false |- _ => apply bool_decide_eq_false in H
  | H : negb _ = true |- _ => apply negb_true_iff in H
  | H : negb _ = false |- _ => apply negb_false_iff in H
  end.
