(* ===== verification/GoErrors.v ===== *)
(** * Go error values: [errors.Is], [errors.AsType] and contexts

    The error values the service creates, wraps and inspects.  An error is a
    tree: a leaf, a wrapper ([fmt.Errorf] with [%w], the service's own error
    types) or a join.  Errors made by code outside the repository are described
    by what the service can observe of them ([foreign]). *)
From S2P Require Import Prelude.

(** The package-level [errors.New] values compared by identity. *)
Inductive sentinel :=
| context_Canceled | context_DeadlineExceeded
| pgx_ErrNoRows | pgconn_ErrConnClosed
| net_ErrClosed | io_EOF | io_ErrUnexpectedEOF | http_ErrServerClosed
| rewards_ErrUnavailable | rewards_ErrInternal | rewards_ErrIdempotencyKeyReused
| rewards_errPostgresQueryTimeout
| outbox_ErrLeaseLost | outbox_errStoreUnavailable | outbox_errStoreInternal
| outbox_errPostgresQueryTimeout | outbox_errWorkerFatal.

#[export] Instance sentinel_eq_dec : EqDecision sentinel.
Proof. solve_decision. Defined.

(** What the service can see of an error built by third-party code: the
    sentinels its own [Is] method accepts, the SQLSTATE when it is a
    [*pgconn.PgError], its [Timeout()] when it is a [net.Error], and whether it
    is a [*net.DNSError] or a [*net.OpError]. *)
Record foreign := Foreign {
  f_is : list sentinel;
  f_pgcode : option string;
  f_net_timeout : option bool;
  f_dns : bool;
  f_op : bool
}.

Definition plain_foreign : foreign := Foreign [] None None false false.
Definition pg_error (code : string) : foreign := Foreign [] (Some code) None false false.

Inductive goerr :=
| ESentinel (s : sentinel)
| ENew (msg : string)
| EWrap (msg : string) (e : goerr)
| EJoin (es : list goerr)
| EInvalidInput (msg : string)                (* *rewards.InvalidInputError *)
| EWorkerOp (operation : string) (e : goerr)  (* *outbox.workerOperationError *)
| EForeign (f : foreign) (es : list goerr).

Fixpoint goerr_ind' (P : goerr → Prop)
    (Hs : ∀ s, P (ESentinel s)) (Hn : ∀ m, P (ENew m))
    (Hw : ∀ m e, P e → P (EWrap m e))
    (Hj : ∀ es, Forall P es → P (EJoin es))
    (Hi : ∀ m, P (EInvalidInput m))
    (Ho : ∀ o e, P e → P (EWorkerOp o e))
    (Hf : ∀ f es, Forall P es → P (EForeign f es)) (e : goerr) : P e :=
  let rec := goerr_ind' P Hs Hn Hw Hj Hi Ho Hf in
  let all := fix all (es : list goerr) : Forall P es :=
    match es with
    | [] => Forall_nil_2 P
    | e :: es => Forall_cons_2 P e es (rec e) (all es)
    end in
  match e with
  | ESentinel s => Hs s
  | ENew m => Hn m
  | EWrap m e => Hw m e (rec e)
  | EJoin es => Hj es (all es)
  | EInvalidInput m => Hi m
  | EWorkerOp o e => Ho o e (rec e)
  | EForeign f es => Hf f es (all es)
  end.

(** [errors.Is(err, target)] for a sentinel target. *)
Fixpoint errors_Is (e : goerr) (t : sentinel) : bool :=
  match e with
  | ESentinel s => bool_decide (s = t)
  | ENew _ | EInvalidInput _ => false
  | EWrap _ e | EWorkerOp _ e => errors_Is e t
  | EJoin es => existsb (λ e, errors_Is e t) es
  | EForeign f es => bool_decide (t ∈ f.(f_is)) || existsb (λ e, errors_Is e t) es
  end.

(** [errors.AsType]: the first error of the tree, in pre-order, that [sel]
    recognises. *)
Fixpoint errors_As {A} (sel : goerr → option A) (e : goerr) : option A :=
  match sel e with
  | Some a => Some a
  | None =>
      match e with
      | EWrap _ e | EWorkerOp _ e => errors_As sel e
      | EJoin es | EForeign _ es =>
          (fix first (es : list goerr) : option A :=
             match es with
             | [] => None
             | e :: es => match errors_As sel e with Some a => Some a | None => first es end
             end) es
      | _ => None
      end
  end.

Definition as_InvalidInput (e : goerr) : option string :=
  match e with EInvalidInput m => Some m | _ => None end.
Definition as_WorkerOp (e : goerr) : option string :=
  match e with EWorkerOp o _ => Some o | _ => None end.
Definition as_PgError (e : goerr) : option string :=
  match e with EForeign f _ => f.(f_pgcode) | _ => None end.

(** [context.DeadlineExceeded] itself implements [net.Error]. *)
Definition as_NetError (e : goerr) : option bool :=
  match e with
  | EForeign f _ => f.(f_net_timeout)
  | ESentinel context_DeadlineExceeded => Some true
  | _ => None
  end.
Definition as_DNSError (e : goerr) : option unit :=
  match e with EForeign f _ => if f.(f_dns) then Some tt else None | _ => None end.
Definition as_OpError (e : goerr) : option unit :=
  match e with EForeign f _ => if f.(f_op) then Some tt else None | _ => None end.

(** ** Contexts

    What [ctx.Err()] and [context.Cause(ctx)] return at the moment they are
    called; [ctx.Err()] is nil, [context.Canceled] or
    [context.DeadlineExceeded]. *)
Inductive ctx_state :=
| CtxLive
| CtxCanceled (cause : goerr)
| CtxDeadline (cause : goerr).

Definition ctx_Err (c : ctx_state) : option sentinel :=
  match c with
  | CtxLive => None
  | CtxCanceled _ => Some context_Canceled
  | CtxDeadline _ => Some context_DeadlineExceeded
  end.

Definition context_Cause (c : ctx_state) : option goerr :=
  match c with
  | CtxLive => None
  | CtxCanceled cause | CtxDeadline cause => Some cause
  end.

(** [ctxErr := ctx.Err(); ctxErr != nil && errors.Is(err, ctxErr)] *)
Definition is_ctx_error (c : ctx_state) (e : goerr) : bool :=
  match ctx_Err c with
  | Some s => errors_Is e s
  | None => false
  end.

(** [errors.Is(e, t)] where [e] may be nil. *)
Definition errors_Is_opt (e : option goerr) (t : sentinel) : bool :=
  match e with Some e => errors_Is e t | None => false end.

(** ** Lemmas *)

Lemma errors_Is_sentinel s : errors_Is (ESentinel s) s = true.
Proof. simpl. by apply bool_decide_eq_true. Qed.

Lemma errors_Is_wrap m e t : errors_Is (EWrap m e) t = errors_Is e t.
Proof. done. Qed.

#[export] Hint Rewrite errors_Is_wrap : svc.
