(* ===== verification/Prog.v ===== *)
(** * Programs over the effects they perform

    A function that calls the outside world is a tree of effects and
    continuations, so that the same text can be run alone or interleaved with
    others.  [resp] gives the type of what each effect returns. *)
From S2P Require Import Prelude.
From S2P Require Import GoErrors.

Inductive prog {E : Type} (resp : E → Type) (A : Type) : Type :=
| Ret (a : A)
| OutOfFuel
| Do (s : E) (k : resp s → prog resp A).
Arguments Ret {E resp A} a.
Arguments OutOfFuel {E resp A}.
Arguments Do {E resp A} s k.

Fixpoint pbind {E} {resp : E → Type} {A B} (m : prog resp A) (k : A → prog resp B) : prog resp B :=
  match m with
  | Ret a => k a
  | OutOfFuel => OutOfFuel
  | Do s c => Do s (λ r, pbind (c r) k)
  end.

(** [x, err := m; if err != nil { return ..., err }] *)
Definition ebind {E} {resp : E → Type} {A B} (m : prog resp (result goerr A))
    (k : A → prog resp (result goerr B)) : prog resp (result goerr B) :=
  pbind m (λ r, match r with Ok a => k a | Err e => Ret (Err e) end).

(** One effect. *)
Definition perform {E} {resp : E → Type} (s : E) : prog resp (resp s) := Do s Ret.

Notation "'do!' x ':=' m 'in' k" := (ebind m (λ x, k))
  (at level 10, x pattern, m at level 100, k at level 200).
Notation "'eff!' x ':=' m 'in' k" := (pbind m (λ x, k))
  (at level 10, x pattern, m at level 100, k at level 200).
