(* ===== verification/ProgLogic.v ===== *)
(** * Running programs against an environment, and a program logic

    An environment answers the calls of a program from the calls made so far.
    [wp] tracks the calls with a protocol, a partial step function on ghost
    states: a program with a [wp] terminates in every environment whose answers
    are as assumed, its calls follow the protocol, and its postcondition holds. *)
From S2P Require Import Prelude.
From S2P Require Import GoErrors.
From S2P Require Import Prog.
Local Open Scope Z_scope.

Module ProgLogic.

Section Running.
Context {E : Type} {reply : E → Type}.

(** ** Running

    An environment answers each call from the calls made so far, latest first. *)
Definition environment := list E → ∀ c : E, reply c.

Fixpoint run {A} (o : environment) (log : list E) (p : Prog.prog reply A)
  : option (A * list E) :=
  match p with
  | Ret a => Some (a, log)
  | OutOfFuel => None
  | Do c k => run o (c :: log) (k (o log c))
  end.

(** What the environment may answer. *)
Definition respects (R : ∀ c : E, reply c → Prop) (o : environment) : Prop :=
  ∀ log c, R c (o log c).
Definition any_reply : ∀ c : E, reply c → Prop := λ _ _, True.

(** ** Protocols and the logic *)

Section Logic.
Context {G : Type} (step : G → E → option G) (R : ∀ c : E, reply c → Prop).

Fixpoint wp {A} (g : G) (p : Prog.prog reply A) (Q : G → A → Prop) : Prop :=
  match p with
  | Ret a => Q g a
  | OutOfFuel => False
  | Do c k => ∃ g', step g c = Some g' ∧ ∀ r, R c r → wp g' (k r) Q
  end.

(** The ghost state after a sequence of calls, latest first. *)
Fixpoint trace (g : G) (calls : list E) : option G :=
  match calls with
  | [] => Some g
  | c :: calls => match trace g calls with Some g' => step g' c | None => None end
  end.

Lemma trace_app g new old g' :
  trace g old = Some g' → trace g (new ++ old) = trace g' new.
Proof. intros H. induction new as [|c new IH]; simpl; [done|]. by rewrite IH. Qed.

(** A program with a [wp] terminates in every environment that respects [R], its
    calls follow the protocol, and the postcondition holds. *)
Lemma wp_run {A} (o : environment) (p : Prog.prog reply A) Q log g :
  respects R o → wp g p Q →
  ∃ a new g', run o log p = Some (a, new ++ log) ∧ trace g new = Some g' ∧ Q g' a.
Proof.
  intros Ho. revert log g. induction p as [a| |c k IH]; intros log g H; simpl in H.
  - by exists a, [], g.
  - done.
  - destruct H as (g1 & Hs & Hk).
    destruct (IH (o log c) (c :: log) g1 (Hk _ (Ho log c))) as (a & new & g' & Hr & Ht & HQ).
    exists a, (new ++ [c]), g'. simpl. rewrite Hr, <-app_assoc. split; [done|]. split; [|done].
    rewrite (trace_app g new [c] g1); [done|]. simpl. done.
Qed.

Lemma wp_mono {A} g (p : Prog.prog reply A) (Q Q' : G → A → Prop) :
  wp g p Q → (∀ g a, Q g a → Q' g a) → wp g p Q'.
Proof.
  intros H HQ. revert g H. induction p as [a| |c k IH]; intros g H; simpl in *; [auto|done|].
  destruct H as (g' & Hs & Hk). exists g'. split; [done|]. intros r Hr. by apply IH, Hk.
Qed.

Lemma wp_pbind {A B} g (m : Prog.prog reply A) (k : A → Prog.prog reply B) Q :
  wp g m (λ g a, wp g (k a) Q) → wp g (pbind m k) Q.
Proof.
  revert g. induction m as [a| |c k' IH]; intros g H; simpl in *; [done..|].
  destruct H as (g' & Hs & Hk). exists g'. split; [done|]. intros r Hr. by apply IH, Hk.
Qed.

End Logic.

(** The calls of one kind, collected as the ghost state, latest first. *)
Definition collect {X} (f : E → option X) (g : list X) (c : E) : option (list X) :=
  Some (match f c with Some x => x :: g | None => g end).

Lemma trace_collect {X} (f : E → option X) calls :
  trace (collect f) [] calls = Some (omap f calls).
Proof.
  induction calls as [|c calls IH]; [done|]. simpl. rewrite IH. unfold collect.
  by destruct (f c).
Qed.

Lemma any_environment (o : environment) : respects any_reply o.
Proof. done. Qed.

Lemma run_pbind {A B} (o : environment) log (m : Prog.prog reply A) (k : A → Prog.prog reply B) :
  run o log (pbind m k)
  = match run o log m with Some (a, log') => run o log' (k a) | None => None end.
Proof. revert log. induction m as [a| |c k' IH]; intros log; simpl; [done|done|]. apply IH. Qed.

(** Calls are only added to the log. *)
Lemma run_log {A} (o : environment) (p : Prog.prog reply A) log a log' :
  run o log p = Some (a, log') → ∃ new, log' = new ++ log.
Proof.
  revert log. induction p as [b| |c k IH]; intros log H; simpl in H; simplify_eq.
  - by exists [].
  - apply IH in H as [new ->]. exists (new ++ [c]). by rewrite <-app_assoc.
Qed.

(** ** Histories

    The same with the replies: a history is the list of the calls made so far with
    their replies, latest first; protocols and assumptions may depend on them. *)
Definition history := list {c : E & reply c}.
Definition reactive := history → ∀ c : E, reply c.

Fixpoint hrun {A} (o : reactive) (h : history) (p : Prog.prog reply A) : option (A * history) :=
  match p with
  | Ret a => Some (a, h)
  | OutOfFuel => None
  | Do c k => let r := o h c in hrun o (existT c r :: h) (k r)
  end.

Section History.
Context {G : Type} (step : G → ∀ c : E, reply c → option G) (R : G → ∀ c : E, reply c → Prop).

Fixpoint follow (g : G) (h : history) : option G :=
  match h with
  | [] => Some g
  | existT c r :: h => match follow g h with Some g' => step g' c r | None => None end
  end.

(** The environment answers as assumed after every history of the protocol. *)
Definition behaves (g : G) (o : reactive) : Prop :=
  ∀ h g' c, follow g h = Some g' → R g' c (o h c).

Fixpoint wph {A} (g : G) (p : Prog.prog reply A) (Q : G → A → Prop) : Prop :=
  match p with
  | Ret a => Q g a
  | OutOfFuel => False
  | Do c k => ∀ r, R g c r → ∃ g', step g c r = Some g' ∧ wph g' (k r) Q
  end.

Lemma wph_hrun {A} (o : reactive) (p : Prog.prog reply A) Q g0 h g :
  behaves g0 o → follow g0 h = Some g → wph g p Q →
  ∃ a h' g', hrun o h p = Some (a, h') ∧ follow g0 h' = Some g' ∧ Q g' a.
Proof.
  intros Ho. revert h g. induction p as [a| |c k IH]; intros h g Hh H; simpl in *.
  - by exists a, h, g.
  - done.
  - destruct (H (o h c)) as (g' & Hs & Hk); [by apply Ho|].
    apply (IH _ _ g'); [|done]. simpl. by rewrite Hh.
Qed.

Lemma wph_mono {A} g (p : Prog.prog reply A) (Q Q' : G → A → Prop) :
  wph g p Q → (∀ g a, Q g a → Q' g a) → wph g p Q'.
Proof.
  intros H HQ. revert g H. induction p as [a| |c k IH]; intros g H; simpl in *; [auto|done|].
  intros r Hr. destruct (H r Hr) as (g' & Hs & Hk). exists g'. split; [done|]. by apply IH.
Qed.

Lemma wph_pbind {A B} g (m : Prog.prog reply A) (k : A → Prog.prog reply B) Q :
  wph g m (λ g a, wph g (k a) Q) → wph g (pbind m k) Q.
Proof.
  revert g. induction m as [a| |c k' IH]; intros g H; simpl in *; [done..|].
  intros r Hr. destruct (H r Hr) as (g' & Hs & Hk). exists g'. split; [done|]. by apply IH.
Qed.

(** What every step preserves holds at the end. *)
Lemma wph_invariant {A} (I : G → Prop) g (p : Prog.prog reply A) (Q : G → A → Prop) :
  (∀ g c r g', I g → step g c r = Some g' → I g') → I g → wph g p Q →
  wph g p (λ g' a, Q g' a ∧ I g').
Proof.
  intros Hstep. revert g. induction p as [a| |c k IH]; intros g Hg H; simpl in *; [done..|].
  intros r Hr. destruct (H r Hr) as (g' & Hs & Hk). exists g'. split; [done|].
  apply IH; [by eapply Hstep|done].
Qed.

Lemma wph_ret {A} g (a : A) (Q : G → A → Prop) : Q g a → wph g (Ret a) Q.
Proof. done. Qed.

Lemma wph_call {A} g c (k : reply c → Prog.prog reply A) Q :
  (∀ r, R g c r → ∃ g', step g c r = Some g' ∧ wph g' (k r) Q) →
  wph g (pbind (perform c) k) Q.
Proof. done. Qed.

End History.

End Running.

End ProgLogic.
