(* ===== verification/GoStrings.v ===== *)
(** * Go strings: bytes, UTF-8 and trimming

    A Go string is a sequence of bytes, here Rocq's [string] of 8-bit
    characters.  This file models what the service uses of the packages
    [unicode/utf8], [unicode], [strings] and [encoding/hex]. *)
From S2P Require Import Prelude.
From Stdlib Require Import Ascii.
From Stdlib Require Strings.String.
Local Open Scope Z_scope.

Abbreviation bytes := (list ascii).

Definition code (a : ascii) : Z := Z.of_N (N_of_ascii a).
Definition chr (z : Z) : ascii := ascii_of_N (Z.to_N z).

Abbreviation to_bytes := Stdlib.Strings.String.list_ascii_of_string.
Abbreviation of_bytes := Stdlib.Strings.String.string_of_list_ascii.
Abbreviation to_of_bytes := Stdlib.Strings.String.list_ascii_of_string_of_list_ascii.
Abbreviation of_to_bytes := Stdlib.Strings.String.string_of_list_ascii_of_string.

Definition in_range (lo hi : Z) (a : ascii) : bool := (lo <=? code a) && (code a <=? hi).

(** ** UTF-8 *)

Definition RuneSelf : Z := 0x80.
Definition RuneError : Z := 0xFFFD.

(** The rune that starts the byte sequence, with its width; [None] when the
    sequence is empty or does not start with a valid encoding. *)
Definition decode_valid (s : bytes) : option (Z * nat) :=
  match s with
  | [] => None
  | a :: s1 =>
      let c := code a in
      if c <? RuneSelf then Some (c, 1%nat)
      else if (0xC2 <=? c) && (c <=? 0xDF) then
        match s1 with
        | b :: _ =>
            if in_range 0x80 0xBF b
            then Some ((c - 0xC0) * 0x40 + (code b - 0x80), 2%nat) else None
        | _ => None
        end
      else if (0xE0 <=? c) && (c <=? 0xEF) then
        match s1 with
        | b :: d :: _ =>
            if in_range (if c =? 0xE0 then 0xA0 else 0x80)
                        (if c =? 0xED then 0x9F else 0xBF) b && in_range 0x80 0xBF d
            then Some ((c - 0xE0) * 0x1000 + (code b - 0x80) * 0x40 + (code d - 0x80), 3%nat)
            else None
        | _ => None
        end
      else if (0xF0 <=? c) && (c <=? 0xF4) then
        match s1 with
        | b :: d :: e :: _ =>
            if in_range (if c =? 0xF0 then 0x90 else 0x80)
                        (if c =? 0xF4 then 0x8F else 0xBF) b
               && in_range 0x80 0xBF d && in_range 0x80 0xBF e
            then Some ((c - 0xF0) * 0x40000 + (code b - 0x80) * 0x1000
                       + (code d - 0x80) * 0x40 + (code e - 0x80), 4%nat)
            else None
        | _ => None
        end
      else None
  end.

(** [utf8.DecodeRune]: an invalid encoding decodes to [RuneError] of width 1. *)
Definition decode_rune (s : bytes) : Z * nat :=
  match s with
  | [] => (RuneError, 0%nat)
  | _ => match decode_valid s with
         | Some rw => rw
         | None => (RuneError, 1%nat)
         end
  end.

(** The runes [for _, r := range s] visits, with their widths: [skip] bytes of
    the rune being left are still to be passed over. *)
Fixpoint runes_from (skip : nat) (s : bytes) : list (Z * nat) :=
  match s with
  | [] => []
  | a :: s' =>
      match skip with
      | S k => runes_from k s'
      | O => let rw := decode_rune s in rw :: runes_from (rw.2 - 1) s'
      end
  end.
Definition runes (s : string) : list Z := fst <$> runes_from 0 (to_bytes s).

Definition utf8_RuneCountInString (s : string) : Z := Z.of_nat (length (runes s)).

(** Every position the decoder stops at starts a valid encoding. *)
Fixpoint valid_from (skip : nat) (s : bytes) : bool :=
  match s with
  | [] => bool_decide (skip = 0%nat)
  | a :: s' =>
      match skip with
      | S k => valid_from k s'
      | O => match decode_valid s with
             | Some (_, w) => valid_from (w - 1) s'
             | None => false
             end
      end
  end.
Definition utf8_ValidString (s : string) : bool := valid_from 0 (to_bytes s).

(** [len(s)], in bytes. *)
Definition len (s : string) : Z := Z.of_nat (String.length s).

(** [strings.ContainsRune(s, '\x00')]: an ASCII rune is searched as a byte. *)
Definition contains_NUL (s : string) : bool :=
  existsb (λ a, code a =? 0) (to_bytes s).

(** ** [strings.TrimSpace] *)

(** [unicode.IsSpace]: the Latin-1 spaces and the other White_Space runes. *)
Definition unicode_IsSpace (r : Z) : bool :=
  ((9 <=? r) && (r <=? 13)) || (r =? 0x20) || (r =? 0x85) || (r =? 0xA0)
  || (r =? 0x1680) || ((0x2000 <=? r) && (r <=? 0x200A))
  || (r =? 0x2028) || (r =? 0x2029) || (r =? 0x202F) || (r =? 0x205F) || (r =? 0x3000).

(** [utf8.RuneStart]: not a continuation byte. *)
Definition rune_start (a : ascii) : bool := negb (in_range 0x80 0xBF a).

(** How many trailing bytes [utf8.DecodeLastRune] hands to [DecodeRune], on the
    reversed byte sequence. *)
Definition last_window (r : bytes) : nat :=
  match r with
  | _ :: b :: r2 =>
      if rune_start b then 2
      else match r2 with
           | c :: r3 =>
               if rune_start c then 3
               else match r3 with
                    | d :: r4 => if rune_start d then 4
                                 else match r4 with [] => 4 | _ => 5 end
                    | [] => 3
                    end
           | [] => 2
           end
  | _ => 1
  end.

(** [utf8.DecodeLastRune] on the reversed byte sequence. *)
Definition decode_last_rune (r : bytes) : Z * nat :=
  match r with
  | [] => (RuneError, 0%nat)
  | a :: _ =>
      if code a <? RuneSelf then (code a, 1%nat)
      else
        let n := last_window r in
        let '(c, w) := decode_rune (rev (take n r)) in
        if (w =? n)%nat then (c, w) else (RuneError, 1%nat)
  end.

(** Drop runes while they are spaces; [dec] decodes the next one. *)
Fixpoint drop_spaces (dec : bytes → Z * nat) (skip : nat) (s : bytes) : bytes :=
  match s with
  | [] => []
  | a :: s' =>
      match skip with
      | S k => drop_spaces dec k s'
      | O => let '(r, w) := dec s in
             if unicode_IsSpace r then drop_spaces dec (w - 1) s' else s
      end
  end.

Definition trim_left (s : bytes) : bytes := drop_spaces decode_rune 0 s.
Definition trim_right (s : bytes) : bytes := rev (drop_spaces decode_last_rune 0 (rev s)).

Definition strings_TrimSpace (s : string) : string :=
  of_bytes (trim_right (trim_left (to_bytes s))).

(** ** [strings.ToLower] *)

(** The ASCII rune that [unicode.ToLower] maps a rune to, if any: the letters
    [A]-[Z], and the dotted capital I (U+0130) and the Kelvin sign (U+212A),
    whose lower case is ASCII.  Every other rune maps to one outside ASCII. *)
Definition lower_ascii (r : Z) : option Z :=
  if (65 <=? r) && (r <=? 90) then Some (r + 32)
  else if r <? RuneSelf then Some r
  else if r =? 0x130 then Some 105
  else if r =? 0x212A then Some 107
  else None.

(** [strings.ToLower(s) == word] for an ASCII word. *)
Definition ToLower_is (s word : string) : bool :=
  bool_decide (lower_ascii <$> runes s = Some <$> (code <$> to_bytes word)).

(** ** [encoding/hex] *)

Definition hex_digit (d : Z) : ascii := if d <? 10 then chr (48 + d) else chr (87 + d).
Definition hex_byte (b : Z) : string :=
  String (hex_digit (Z.shiftr b 4)) (String (hex_digit (Z.land b 0x0f)) "").
Definition hex_EncodeToString (bs : list Z) : string :=
  foldr (λ b s, (hex_byte b ++ s)%string) ""%string bs.

(** ** Lemmas *)

Lemma length_of_bytes (l : bytes) : String.length (of_bytes l) = length l.
Proof. induction l; simpl; congruence. Qed.

Lemma string_app_assoc (s t u : string) : ((s ++ t) ++ u = s ++ (t ++ u))%string.
Proof. induction s as [|a s IH]; [done|]. change (String a ((s ++ t) ++ u) = String a (s ++ (t ++ u)))%string. by f_equal. Qed.

Lemma string_app_nil_r (s : string) : (s ++ "" = s)%string.
Proof. induction s as [|a s IH]; [done|]. change (String a (s ++ "") = String a s)%string. by f_equal. Qed.

Lemma code_range a : 0 ≤ code a < 256.
Proof.
  unfold code. pose proof (N_ascii_bounded a). lia.
Qed.

Lemma code_chr z : 0 ≤ z < 256 → code (chr z) = z.
Proof. intros H. unfold code, chr. rewrite N_ascii_embedding; lia. Qed.

Lemma chr_code a : chr (code a) = a.
Proof. unfold code, chr. rewrite N2Z.id. apply ascii_N_embedding. Qed.

Lemma decode_valid_app s t rw : decode_valid s = Some rw → decode_valid (s ++ t) = Some rw.
Proof.
  unfold decode_valid. destruct s as [|a s1]; [done|]. simpl.
  destruct (_ <? _); [done|].
  repeat (destruct s1 as [|? s1]; simpl;
          repeat (case_match; simplify_eq/=; try done)).
Qed.

Lemma decode_valid_width s r w : decode_valid s = Some (r, w) → (1 ≤ w ≤ length s)%nat.
Proof.
  unfold decode_valid. intros H. repeat (case_match; simplify_eq/=; try lia).
Qed.

Definition starts_space (s : bytes) : bool := unicode_IsSpace (decode_rune s).1.
Definition ends_space (s : bytes) : bool := unicode_IsSpace (decode_last_rune (rev s)).1.

Lemma space_not_error r : unicode_IsSpace r = true → r ≠ RuneError.
Proof. intros H ->. done. Qed.

Lemma starts_space_prefix s t : starts_space s = true → starts_space (s ++ t) = true.
Proof.
  unfold starts_space, decode_rune. destruct s as [|a s]; [done|].
  destruct (decode_valid (a :: s)) as [[r w]|] eqn:Hd; [|done].
  rewrite (decode_valid_app _ t _ Hd). done.
Qed.

Lemma drop_spaces_not_space dec k s :
  dec [] = (RuneError, 0%nat) →
  unicode_IsSpace (dec (drop_spaces dec k s)).1 = false.
Proof.
  intros Hnil. revert k. induction s as [|a s IH]; intros k; simpl; [by rewrite Hnil|].
  destruct k; [|apply IH].
  destruct (dec (a :: s)) as [r w] eqn:Hd.
  destruct (unicode_IsSpace r) eqn:Hr; [apply IH|]. by rewrite Hd.
Qed.

Lemma drop_spaces_id dec s :
  unicode_IsSpace (dec s).1 = false → drop_spaces dec 0 s = s.
Proof.
  destruct s as [|a s]; [done|]. simpl.
  destruct (dec (a :: s)) as [r w]; simpl. by intros ->.
Qed.

Lemma drop_spaces_suffix dec k s : ∃ p, s = p ++ drop_spaces dec k s.
Proof.
  revert k. induction s as [|a s IH]; intros k; simpl; [by exists []|].
  destruct k as [|k].
  - destruct (dec (a :: s)) as [r w]. destruct (unicode_IsSpace r).
    + destruct (IH (w - 1)%nat) as [p Hp]. exists (a :: p). simpl. by rewrite <-Hp.
    + by exists [].
  - destruct (IH k) as [p Hp]. exists (a :: p). simpl. by rewrite <-Hp.
Qed.

Lemma trim_left_not_space s : starts_space (trim_left s) = false.
Proof. by apply drop_spaces_not_space. Qed.

Lemma trim_right_not_space s : ends_space (trim_right s) = false.
Proof.
  unfold ends_space, trim_right. rewrite rev_involutive. by apply drop_spaces_not_space.
Qed.

Lemma trim_right_prefix s : ∃ t, s = trim_right s ++ t.
Proof.
  destruct (drop_spaces_suffix decode_last_rune 0 (rev s)) as [p Hp].
  exists (rev p). unfold trim_right. rewrite <-rev_app_distr, <-Hp. by rewrite rev_involutive.
Qed.

Lemma trim_right_keeps_start s :
  starts_space s = false → starts_space (trim_right s) = false.
Proof.
  intros H. destruct (trim_right_prefix s) as [t Ht].
  apply not_true_iff_false. intros Hs. apply (starts_space_prefix _ t) in Hs.
  rewrite <-Ht in Hs. congruence.
Qed.

Lemma trim_left_id s : starts_space s = false → trim_left s = s.
Proof. apply drop_spaces_id. Qed.

Lemma trim_right_id s : ends_space s = false → trim_right s = s.
Proof.
  intros H. unfold trim_right. rewrite drop_spaces_id by done. apply rev_involutive.
Qed.

(** Trimming reaches a fixed point at once: the HTTP layer and the service both
    trim the idempotency key, and the second pass changes nothing. *)
Lemma TrimSpace_idem s : strings_TrimSpace (strings_TrimSpace s) = strings_TrimSpace s.
Proof.
  unfold strings_TrimSpace. rewrite to_of_bytes. f_equal.
  rewrite (trim_left_id (trim_right _)).
  - apply trim_right_id, trim_right_not_space.
  - apply trim_right_keeps_start, trim_left_not_space.
Qed.

#[export] Hint Rewrite TrimSpace_idem : svc.

(** A string has no more runes than bytes. *)
Lemma rune_count_le s : utf8_RuneCountInString s ≤ len s.
Proof.
  unfold utf8_RuneCountInString, runes, len. rewrite length_fmap.
  assert (∀ k l, (length (runes_from k l) ≤ length l)%nat) as Hle.
  { intros k l. revert k. induction l as [|a l IH]; intros [|k]; simpl; [lia..| |].
    - specialize (IH ((decode_rune (a :: l)).2 - 1)%nat). simpl in IH. lia.
    - specialize (IH k). lia. }
  specialize (Hle 0%nat (to_bytes s)).
  assert (length (to_bytes s) = String.length s) as Hs by (clear; by induction s; simpl; f_equal).
  lia.
Qed.

Lemma string_length_app (s t : string) :
  String.length (s ++ t) = (String.length s + String.length t)%nat.
Proof. induction s as [|a s IH]; [done|]. change (S (String.length (s ++ t)) = S (String.length s + String.length t)). by rewrite IH. Qed.

Lemma hex_length bs : String.length (hex_EncodeToString bs) = (2 * length bs)%nat.
Proof.
  induction bs as [|b bs IH]; [done|]. unfold hex_EncodeToString in *. simpl in *.
  rewrite ?string_length_app, IH. simpl. lia.
Qed.

(** A string of visible ASCII characters is already trimmed. *)
Definition visible (a : ascii) : bool := in_range 33 126 a.

Lemma visible_not_space a : visible a = true → unicode_IsSpace (code a) = false.
Proof.
  unfold visible, in_range, unicode_IsSpace. intros H. boolean.
  apply not_true_iff_false. rewrite !orb_true_iff, !andb_true_iff, !Z.leb_le, !Z.eqb_eq. lia.
Qed.

Lemma TrimSpace_visible s :
  Forall (λ a, visible a = true) (to_bytes s) → strings_TrimSpace s = s.
Proof.
  intros H. unfold strings_TrimSpace. rewrite trim_left_id, trim_right_id.
  - apply of_to_bytes.
  - unfold ends_space. apply List.Forall_rev in H.
    destruct (rev (to_bytes s)) as [|a r]; [done|]. inversion_clear H as [|? ? Ha _].
    unfold decode_last_rune.
    assert ((code a <? RuneSelf) = true) as ->.
    { unfold visible, in_range, RuneSelf in *. boolean. apply Z.ltb_lt. lia. }
    by apply visible_not_space.
  - unfold starts_space. destruct (to_bytes s) as [|a r]; [done|].
    inversion_clear H as [|? ? Ha _]. unfold decode_rune, decode_valid.
    assert ((code a <? RuneSelf) = true) as ->.
    { unfold visible, in_range, RuneSelf in *. boolean. apply Z.ltb_lt. lia. }
    by apply visible_not_space.
Qed.

Lemma ToLower_is_fun s w w' :
  ToLower_is s w = true → ToLower_is s w' = true → code <$> to_bytes w = code <$> to_bytes w'.
Proof.
  unfold ToLower_is. rewrite !bool_decide_eq_true. intros -> H.
  by apply (inj (fmap Some)) in H.
Qed.
