(* ===== verification/Sha256.v ===== *)
(** * [crypto/sha256.Sum256], on 32-bit words with wrap-around (FIPS 180-4)

    The service stores [sha256.Sum256] of the normalised idempotency key.  The
    function is modelled in full so that the hash of a concrete key evaluates. *)
From S2P Require Import Prelude.
From S2P Require Import GoStrings.
Local Open Scope Z_scope.

Module Sha256.

Definition mask32 : Z := 0xFFFFFFFF.
Definition add32 (x y : Z) : Z := Z.land (x + y) mask32.
Definition rotr (n x : Z) : Z :=
  Z.lor (Z.shiftr x n) (Z.land (Z.shiftl x (32 - n)) mask32).

Definition ch (x y z : Z) : Z := Z.lxor (Z.land x y) (Z.land (Z.lxor x mask32) z).
Definition maj (x y z : Z) : Z :=
  Z.lxor (Z.lxor (Z.land x y) (Z.land x z)) (Z.land y z).
Definition Sigma0 (x : Z) : Z := Z.lxor (Z.lxor (rotr 2 x) (rotr 13 x)) (rotr 22 x).
Definition Sigma1 (x : Z) : Z := Z.lxor (Z.lxor (rotr 6 x) (rotr 11 x)) (rotr 25 x).
Definition sigma0 (x : Z) : Z := Z.lxor (Z.lxor (rotr 7 x) (rotr 18 x)) (Z.shiftr x 3).
Definition sigma1 (x : Z) : Z := Z.lxor (Z.lxor (rotr 17 x) (rotr 19 x)) (Z.shiftr x 10).

(** The constants: 32 fractional bits of the roots of the first primes. *)
Fixpoint root_from (bits : nat) (e x r : Z) : Z :=
  match bits with
  | O => r
  | S bits =>
      let r' := r + 2 ^ Z.of_nat bits in
      root_from bits e x (if r' ^ e <=? x then r' else r)
  end.
Definition fraction_of_root (e p : Z) : Z :=
  Z.land (root_from 40 e (p * 2 ^ (32 * e)) 0) mask32.

Definition primes : list Z :=
  filter (λ n, forallb (λ d, negb (n `mod` d =? 0)) (seqZ 2 (n - 2)) = true) (seqZ 2 310).

Definition K : list Z := Eval vm_compute in (fraction_of_root 3 <$> primes).

Record state := State { sa : Z; sb : Z; sc : Z; sd : Z; se : Z; sf : Z; sg : Z; sh : Z }.

Definition init : state := Eval vm_compute in
  match fraction_of_root 2 <$> take 8 primes with
  | [a; b; c; d; e; f; g; h] => State a b c d e f g h
  | _ => State 0 0 0 0 0 0 0 0
  end.

(** The message schedule, most recent word first. *)
Fixpoint extend (n : nat) (w : list Z) : list Z :=
  match n with
  | O => w
  | S n =>
      let at_ i := nth i w 0 in
      let t := add32 (add32 (sigma1 (at_ 1%nat)) (at_ 6%nat))
                     (add32 (sigma0 (at_ 14%nat)) (at_ 15%nat)) in
      extend n (t :: w)
  end.
Definition schedule (block : list Z) : list Z := rev (extend 48 (rev block)).

Definition round (s : state) (kw : Z * Z) : state :=
  let '(k, w) := kw in
  let t1 := add32 (add32 (add32 s.(sh) (Sigma1 s.(se)))
                         (add32 (ch s.(se) s.(sf) s.(sg)) k)) w in
  let t2 := add32 (Sigma0 s.(sa)) (maj s.(sa) s.(sb) s.(sc)) in
  State (add32 t1 t2) s.(sa) s.(sb) s.(sc) (add32 s.(sd) t1) s.(se) s.(sf) s.(sg).

Definition compress (s : state) (block : list Z) : state :=
  let t := foldl round s (combine K (schedule block)) in
  State (add32 s.(sa) t.(sa)) (add32 s.(sb) t.(sb)) (add32 s.(sc) t.(sc))
        (add32 s.(sd) t.(sd)) (add32 s.(se) t.(se)) (add32 s.(sf) t.(sf))
        (add32 s.(sg) t.(sg)) (add32 s.(sh) t.(sh)).

Definition be_bytes (n : nat) (z : Z) : list Z :=
  (λ i, Z.land (Z.shiftr z (8 * Z.of_nat i)) 0xff) <$> rev (seq 0 n).

(** The message, a one bit, zeros and the 64-bit length in bits: a multiple of
    64 bytes. *)
Definition pad (m : list Z) : list Z :=
  let l := Z.of_nat (length m) in
  m ++ [0x80] ++ replicate (Z.to_nat ((55 - l) `mod` 64)) 0 ++ be_bytes 8 (8 * l).

Fixpoint words (m : list Z) : list Z :=
  match m with
  | a :: b :: c :: d :: m =>
      Z.lor (Z.lor (Z.shiftl a 24) (Z.shiftl b 16)) (Z.lor (Z.shiftl c 8) d) :: words m
  | _ => []
  end.

Fixpoint blocks (n : nat) (w : list Z) : list (list Z) :=
  match n with
  | O => []
  | S n => take 16 w :: blocks n (drop 16 w)
  end.

Definition digest (s : state) : list Z :=
  mbind (be_bytes 4) [s.(sa); s.(sb); s.(sc); s.(sd); s.(se); s.(sf); s.(sg); s.(sh)].

Definition Sum256 (s : string) : string :=
  let m := pad (code <$> to_bytes s) in
  let w := words m in
  of_bytes (chr <$> digest (foldl compress init (blocks (length w / 16) w))).

(** The FIPS 180-4 test vectors and a message that spans two blocks. *)
Definition hex (s : string) : string := hex_EncodeToString (code <$> to_bytes s).

Example Sum256_empty :
  hex (Sum256 "") = "e3b0c44298fc1c149afbf4c8996fb92427ae41e4649b934ca495991b7852b855"%string.
Proof. vm_compute. reflexivity. Qed.

Example Sum256_abc :
  hex (Sum256 "abc") = "ba7816bf8f01cfea414140de5dae2223b00361a396177a9cb410ff61f20015ad"%string.
Proof. vm_compute. reflexivity. Qed.

Example Sum256_two_blocks :
  hex (Sum256 "abcdbcdecdefdefgefghfghighijhijkijkljklmklmnlmnomnopnopq")
  = "248d6a61d20638b8e5c026930c3e6039a33ce45964ff2167f6ecedd419db06c1"%string.
Proof. vm_compute. reflexivity. Qed.

Lemma digest_length s : length (digest s) = 32%nat.
Proof. by destruct s. Qed.

Lemma Sum256_length s : String.length (Sum256 s) = 32%nat.
Proof. unfold Sum256. by rewrite length_of_bytes, length_fmap, digest_length. Qed.

Lemma Sum256_len s : len (Sum256 s) = 32.
Proof. unfold len. by rewrite Sum256_length. Qed.

End Sha256.
