(* ===== verification/GoJson.v ===== *)
(** * Decimal and time formatting, JSON encoding and JSON syntax checking

    What the service uses of [strconv], [time] (RFC 3339 formatting of a UTC
    instant) and [encoding/json] ([Marshal] of structs of strings, integers and
    times; [Valid]).  An instant is a number of microseconds since the Unix
    epoch, the resolution of a PostgreSQL [timestamptz]. *)
From S2P Require Import Prelude.
From S2P Require Import GoStrings.
From Stdlib Require Import Ascii.
Local Open Scope Z_scope.

(** ** Decimal integers *)

Fixpoint digits (fuel : nat) (z : Z) (acc : bytes) : bytes :=
  let acc := chr (48 + z `mod` 10) :: acc in
  match fuel with
  | O => acc
  | S fuel => if z <? 10 then acc else digits fuel (z `div` 10) acc
  end.

(** Decimal digits of a non-negative integer; its base-2 logarithm bounds how
    many more than one there are. *)
Definition dec (z : Z) : bytes := digits (Z.to_nat (Z.log2 z)) z [].

Definition strconv_Itoa (z : Z) : string :=
  of_bytes (if z <? 0 then chr 45 :: dec (- z) else dec z).

Definition pad_left (w : nat) (l : bytes) : bytes := replicate (w - length l) (chr 48) ++ l.

(** [time]'s appendInt: a sign, then at least [w] digits. *)
Definition append_int (w : nat) (z : Z) : bytes :=
  (if z <? 0 then [chr 45] else []) ++ pad_left w (dec (Z.abs z)).

(** ** Time *)

Module Time.

(** Proleptic Gregorian date of a day number (days since 1970-01-01), counted
    from March 1st of year 0 in eras of 400 years. *)
Definition civil_of_era_day (doe : Z) : Z * Z * Z :=
  let yoe := (doe - doe `div` 1460 + doe `div` 36524 - doe `div` 146096) `div` 365 in
  let doy := doe - (365 * yoe + yoe `div` 4 - yoe `div` 100) in
  let mp := (5 * doy + 2) `div` 153 in
  let d := doy - (153 * mp + 2) `div` 5 + 1 in
  let m := if mp <? 10 then mp + 3 else mp - 9 in
  (if m <=? 2 then yoe + 1 else yoe, m, d).

Definition civil_of_days (z : Z) : Z * Z * Z :=
  let n := z + 719468 in
  let '(y, m, d) := civil_of_era_day (n `mod` 146097) in
  (y + 400 * (n `div` 146097), m, d).

(** The day number of a date: the reference the conversion is checked against. *)
Definition era_day_of_civil (y m d : Z) : Z :=
  let y := if m <=? 2 then y - 1 else y in
  let mp := if m >? 2 then m - 3 else m + 9 in
  y * 365 + y `div` 4 - y `div` 100 + (153 * mp + 2) `div` 5 + d - 1.

Definition year_of (t : Z) : Z := (civil_of_days (t `div` 86400000000)).1.1.

Fixpoint trim_zeros (l : bytes) : bytes :=   (* on the reversed digits *)
  match l with
  | a :: l' => if code a =? 48 then trim_zeros l' else l
  | [] => []
  end.

(** The fraction of a second: no trailing zeros, nothing when it is zero. *)
Definition fraction (us : Z) : bytes :=
  if us =? 0 then [] else chr 46 :: rev (trim_zeros (rev (pad_left 6 (dec us)))).

(** [t.UTC().Format(time.RFC3339Nano)] *)
Definition Format_RFC3339Nano (t : Z) : string :=
  let '(y, m, d) := civil_of_days (t `div` 86400000000) in
  let us := t `mod` 86400000000 in
  let s := us `div` 1000000 in
  of_bytes
    (append_int 4 y ++ [chr 45] ++ append_int 2 m ++ [chr 45] ++ append_int 2 d ++ [chr 84]
     ++ append_int 2 (s `div` 3600) ++ [chr 58] ++ append_int 2 ((s `div` 60) `mod` 60)
     ++ [chr 58] ++ append_int 2 (s `mod` 60) ++ fraction (us `mod` 1000000) ++ [chr 90]).

(** [Time.MarshalJSON] rejects the years RFC 3339 cannot express. *)
Definition MarshalJSON (t : Z) : option string :=
  if (0 <=? year_of t) && (year_of t <=? 9999) then Some (Format_RFC3339Nano t) else None.

Example format_ex :
  Format_RFC3339Nano 1783427696123456 = "2026-07-07T12:34:56.123456Z"%string
  ∧ Format_RFC3339Nano 951782400000000 = "2000-02-29T00:00:00Z"%string
  ∧ Format_RFC3339Nano (-1000) = "1969-12-31T23:59:59.999Z"%string.
Proof. vm_compute. auto. Qed.

End Time.

(** ** JSON values and [json.Marshal] *)

Inductive json :=
| JString (s : string)
| JInt (z : Z)
| JObject (members : list (string * json)).

Definition hex4 (r : Z) : bytes :=
  (λ i, hex_digit (Z.land (Z.shiftr r (4 * Z.of_nat i)) 15)) <$> [3; 2; 1; 0]%nat.
Definition u_escape (r : Z) : bytes := chr 92 :: chr 117 :: hex4 r.

(** One ASCII character of a string literal; [<], [>] and [&] are escaped for HTML. *)
Definition escape_ascii (a : ascii) : bytes :=
  let c := code a in
  if (c =? 34) || (c =? 92) then [chr 92; a]
  else if c =? 8 then [chr 92; chr 98]
  else if c =? 12 then [chr 92; chr 102]
  else if c =? 10 then [chr 92; chr 110]
  else if c =? 13 then [chr 92; chr 114]
  else if c =? 9 then [chr 92; chr 116]
  else if (c <? 32) || (c =? 60) || (c =? 62) || (c =? 38) then u_escape c
  else [a].

(** The literal's body: [skip] bytes of the current rune remain, copied when
    [emit] and dropped when the rune was written as an escape. *)
Fixpoint escape_from (emit : bool) (skip : nat) (s : bytes) : bytes :=
  match s with
  | [] => []
  | a :: s' =>
      match skip with
      | S k => if emit then a :: escape_from emit k s' else escape_from emit k s'
      | O =>
          match decode_valid s with
          | None => u_escape RuneError ++ escape_from true 0 s'
          | Some (r, w) =>
              if r <? RuneSelf then escape_ascii a ++ escape_from true 0 s'
              else if (r =? 0x2028) || (r =? 0x2029)
              then u_escape r ++ escape_from false (w - 1) s'
              else a :: escape_from true (w - 1) s'
          end
      end
  end.

Definition quote (s : string) : bytes := chr 34 :: escape_from true 0 (to_bytes s) ++ [chr 34].

Fixpoint marshal (v : json) : bytes :=
  match v with
  | JString s => quote s
  | JInt z => to_bytes (strconv_Itoa z)
  | JObject ms =>
      let member (m : string * json) := quote m.1 ++ chr 58 :: marshal m.2 in
      chr 123 ::
      (match ms with
       | [] => []
       | m :: ms => member m ++ flat_map (λ m, chr 44 :: member m) ms
       end) ++ [chr 125]
  end.

Definition json_Marshal (v : json) : string := of_bytes (marshal v).

(** Test notation: a JSON text written with single quotes. *)
Definition dq (s : string) : string :=
  of_bytes ((λ a, if code a =? 39 then chr 34 else a) <$> to_bytes s).

Example marshal_ex :
  json_Marshal (JObject [("error", JObject [("code", JString "a<b"); ("n", JInt (-12))])])%string
  = dq "{'error':{'code':'a\u003cb','n':-12}}".
Proof. vm_compute. reflexivity. Qed.

(** ** [json.Valid] *)

Definition is_digit (a : ascii) : bool := in_range 48 57 a.
Definition is_hex (a : ascii) : bool := is_digit a || in_range 97 102 a || in_range 65 70 a.
Definition is_ws (a : ascii) : bool :=
  (code a =? 32) || (code a =? 9) || (code a =? 10) || (code a =? 13).

Fixpoint skip_ws (s : bytes) : bytes :=
  match s with
  | a :: s' => if is_ws a then skip_ws s' else s
  | [] => []
  end.

Fixpoint drop_digits (s : bytes) : bytes :=
  match s with
  | a :: s' => if is_digit a then drop_digits s' else s
  | [] => []
  end.

(** At least one digit. *)
Definition digits1 (s : bytes) : option bytes :=
  match s with
  | a :: s' => if is_digit a then Some (drop_digits s') else None
  | [] => None
  end.

Definition scan_exponent (s : bytes) : option bytes :=
  match s with
  | e :: s1 =>
      if (code e =? 101) || (code e =? 69) then
        match s1 with
        | g :: s2 => if (code g =? 43) || (code g =? 45) then digits1 s2 else digits1 s1
        | [] => None
        end
      else Some s
  | [] => Some s
  end.

Definition scan_fraction (s : bytes) : option bytes :=
  match s with
  | p :: s1 =>
      if code p =? 46
      then match digits1 s1 with Some s2 => scan_exponent s2 | None => None end
      else scan_exponent s
  | [] => Some s
  end.

(** After the optional minus sign. *)
Definition scan_number (s : bytes) : option bytes :=
  match s with
  | a :: s1 =>
      if code a =? 48 then scan_fraction s1
      else if is_digit a then scan_fraction (drop_digits s1)
      else None
  | [] => None
  end.

(** After the opening quote, up to and including the closing one. *)
Fixpoint scan_string (s : bytes) : option bytes :=
  match s with
  | [] => None
  | a :: s1 =>
      let c := code a in
      if c =? 34 then Some s1
      else if c =? 92 then
        match s1 with
        | b :: s2 =>
            if code b =? 117 then
              match s2 with
              | h1 :: h2 :: h3 :: h4 :: s3 =>
                  if is_hex h1 && is_hex h2 && is_hex h3 && is_hex h4
                  then scan_string s3 else None
              | _ => None
              end
            else if bool_decide (code b ∈ [98; 102; 110; 114; 116; 34; 92; 47])
            then scan_string s2 else None
        | [] => None
        end
      else if c <? 32 then None
      else scan_string s1
  end.

Fixpoint scan_literal (lit s : bytes) : option bytes :=
  match lit, s with
  | [], _ => Some s
  | a :: lit, b :: s => if ascii_dec a b then scan_literal lit s else None
  | _ :: _, [] => None
  end.

Definition maxNestingDepth : Z := 10000.

(** What the scanner expects next: a value, the members of an object from a
    name on, or the elements of an array. *)
Inductive expect := EValue | EMembers | EElements.

Fixpoint scan (fuel : nat) (depth : Z) (e : expect) (s : bytes) : option bytes :=
  match fuel with
  | O => None
  | S fuel =>
      match e with
      | EValue =>
          match skip_ws s with
          | [] => None
          | a :: s1 =>
              let c := code a in
              if c =? 123 then
                if maxNestingDepth <? depth + 1 then None else
                match skip_ws s1 with
                | b :: s2 => if code b =? 125 then Some s2
                             else scan fuel (depth + 1) EMembers (b :: s2)
                | [] => None
                end
              else if c =? 91 then
                if maxNestingDepth <? depth + 1 then None else
                match skip_ws s1 with
                | b :: s2 => if code b =? 93 then Some s2
                             else scan fuel (depth + 1) EElements (b :: s2)
                | [] => None
                end
              else if c =? 34 then scan_string s1
              else if c =? 45 then scan_number s1
              else if is_digit a then scan_number (a :: s1)
              else if c =? 116 then scan_literal (to_bytes "rue") s1
              else if c =? 102 then scan_literal (to_bytes "alse") s1
              else if c =? 110 then scan_literal (to_bytes "ull") s1
              else None
          end
      | EMembers =>
          match skip_ws s with
          | q :: s1 =>
              if code q =? 34 then
                match scan_string s1 with
                | Some s2 =>
                    match skip_ws s2 with
                    | p :: s3 =>
                        if code p =? 58 then
                          match scan fuel depth EValue s3 with
                          | Some s4 =>
                              match skip_ws s4 with
                              | b :: s5 =>
                                  if code b =? 44 then scan fuel depth EMembers s5
                                  else if code b =? 125 then Some s5 else None
                              | [] => None
                              end
                          | None => None
                          end
                        else None
                    | [] => None
                    end
                | None => None
                end
              else None
          | [] => None
          end
      | EElements =>
          match scan fuel depth EValue s with
          | Some s1 =>
              match skip_ws s1 with
              | b :: s2 => if code b =? 44 then scan fuel depth EElements s2
                           else if code b =? 93 then Some s2 else None
              | [] => None
              end
          | None => None
          end
      end
  end.

(** Every recursive call but the one into an element consumes a byte, so twice
    the length is enough fuel. *)
Definition json_Valid (s : string) : bool :=
  let b := to_bytes s in
  match scan (2 * length b + 2) 0 EValue b with
  | Some r => match skip_ws r with [] => true | _ => false end
  | None => false
  end.

Example json_Valid_ex :
  json_Valid (dq " {'a' : [1, -0.5e+3, true, null, {}], 'b':'\u00e9\n'} ") = true
  ∧ json_Valid (dq "{'a':01}") = false ∧ json_Valid (dq "{'a':1,}") = false
  ∧ json_Valid "" = false ∧ json_Valid "1 2" = false ∧ json_Valid "[1,2" = false.
Proof. vm_compute. auto 10. Qed.

(** ** Lemmas *)

Lemma escape_from_skip e k s :
  (k ≤ length s)%nat →
  escape_from e k s = (if e then take k s else []) ++ escape_from true 0 (drop k s).
Proof.
  revert k. induction s as [|a s IH]; intros k Hk.
  { simpl in *. replace k with O by lia. by destruct e. }
  destruct k as [|k].
  - rewrite drop_0, take_0. by destruct e.
  - cbn [escape_from drop take]. rewrite IH by (simpl in Hk; lia). by destruct e.
Qed.

(** The bytes of a multi-byte rune after the first are not ASCII. *)
Lemma decode_valid_tail a s r w :
  decode_valid (a :: s) = Some (r, w) → RuneSelf ≤ r → RuneSelf ≤ code a →
  Forall (λ b, RuneSelf ≤ code b) (take (w - 1) s).
Proof.
  unfold decode_valid, in_range, RuneSelf. intros H Hr Ha.
  repeat (case_match; simplify_eq/=); boolean;
    repeat constructor; repeat case_match; lia.
Qed.

Lemma decode_valid_ascii a s : code a < RuneSelf → decode_valid (a :: s) = Some (code a, 1%nat).
Proof. intros H. unfold decode_valid. by apply Z.ltb_lt in H as ->. Qed.

Lemma decode_valid_big a s r w :
  decode_valid (a :: s) = Some (r, w) → RuneSelf ≤ code a → RuneSelf ≤ r.
Proof.
  unfold decode_valid, in_range, RuneSelf. intros H Ha.
  repeat (case_match; simplify_eq/=); boolean; lia.
Qed.

Lemma decode_valid_take s r w : decode_valid s = Some (r, w) → decode_valid (take w s) = Some (r, w).
Proof.
  unfold decode_valid. intros H.
  repeat (case_match; simplify_eq/=); try done;
    repeat match goal with E : ?x = true |- context [?x] => rewrite E end;
    repeat match goal with E : ?x = false |- context [?x] => rewrite E end; done.
Qed.

Lemma valid_from_skip (s t : bytes) : valid_from (length s) (s ++ t) = valid_from 0 t.
Proof. induction s; simpl; auto. Qed.

Lemma scan_string_raw (l t : bytes) :
  Forall (λ b, RuneSelf ≤ code b) l → scan_string (l ++ t) = scan_string t.
Proof.
  unfold RuneSelf. induction 1 as [|b l Hb _ IH]; [done|]. cbn [scan_string app].
  rewrite IH. repeat case_match; boolean; try lia. done.
Qed.

(** A property of all 256 bytes, decided by evaluation. *)
Ltac by_byte a := destruct a as [[] [] [] [] [] [] [] []]; first [reflexivity | done].

Lemma scan_string_ascii a t :
  code a < RuneSelf → scan_string (escape_ascii a ++ t) = scan_string t.
Proof. intros _. by_byte a. Qed.

Lemma valid_from_ascii a t :
  code a < RuneSelf → valid_from 0 (escape_ascii a ++ t) = valid_from 0 t.
Proof. intros H. by_byte a. Qed.

(** The three ways one rune is escaped. *)
Lemma escape_cases a s :
  (code a < RuneSelf ∧
     escape_from true 0 (a :: s) = escape_ascii a ++ escape_from true 0 s) ∨
  (∃ r, r ∈ [RuneError; 0x2028; 0x2029] ∧ ∃ k,
     escape_from true 0 (a :: s) = u_escape r ++ escape_from true 0 (drop k s)) ∨
  (∃ r w, decode_valid (a :: s) = Some (r, w) ∧ RuneSelf ≤ code a ∧ RuneSelf ≤ r ∧
     escape_from true 0 (a :: s)
     = take w (a :: s) ++ escape_from true 0 (drop (w - 1) s)).
Proof.
  destruct (Z.lt_ge_cases (code a) RuneSelf) as [Ha|Ha].
  { left. split; [done|]. cbn [escape_from]. rewrite decode_valid_ascii by done.
    by apply Z.ltb_lt in Ha as ->. }
  right. cbn [escape_from].
  destruct (decode_valid (a :: s)) as [[r w]|] eqn:Hd; cycle 1.
  { left. exists RuneError. split; [set_solver|]. exists 0%nat. done. }
  pose proof (decode_valid_width _ _ _ Hd) as Hw. simpl in Hw.
  pose proof (decode_valid_big _ _ _ _ Hd Ha) as Hr.
  destruct (Z.ltb_spec r RuneSelf); [lia|].
  destruct (_ || _) eqn:Hsep.
  - left. exists r. split.
    { apply orb_true_iff in Hsep as [?|?]; boolean; set_solver. }
    exists (w - 1)%nat. by rewrite (escape_from_skip false) by lia.
  - right. exists r, w. split_and!; [done..|].
    rewrite (escape_from_skip true) by lia.
    destruct w as [|w]; [lia|]. simpl. by rewrite Nat.sub_0_r.
Qed.

Lemma escape_ind (P : bytes → Prop) :
  P [] →
  (∀ a s, (∀ k, P (drop k s)) → P (a :: s)) →
  ∀ s, P s.
Proof.
  intros Hnil Hcons s. remember (length s) as n eqn:Hn. revert s Hn.
  induction n as [n IH] using lt_wf_ind. intros [|a s] Hn; [done|].
  apply Hcons. intros k. eapply IH; [|done]. rewrite length_drop. simpl in Hn. lia.
Qed.

Lemma scan_string_escape s t :
  scan_string (escape_from true 0 s ++ chr 34 :: t) = Some t.
Proof.
  revert s. apply escape_ind; [done|]. intros a s IH.
  destruct (escape_cases a s) as
    [[Ha ->]|[(r & Hr & k & ->)|(r & w & Hd & Ha & Hr & ->)]]; rewrite <-app_assoc.
  - rewrite scan_string_ascii by done. apply (IH 0%nat).
  - rewrite <-(IH k). rewrite !elem_of_cons, elem_of_nil in Hr.
    by destruct Hr as [->|[->|[->|[]]]].
  - rewrite scan_string_raw; [apply IH|].
    pose proof (decode_valid_width _ _ _ Hd) as Hw.
    destruct w as [|w]; [lia|]. simpl. constructor; [done|].
    pose proof (decode_valid_tail _ _ _ _ Hd Hr Ha) as Ht. simpl in Ht.
    by rewrite Nat.sub_0_r in Ht.
Qed.

Lemma valid_from_escape s t :
  valid_from 0 (escape_from true 0 s ++ t) = valid_from 0 t.
Proof.
  revert s. apply escape_ind; [done|]. intros a s IH.
  destruct (escape_cases a s) as
    [[Ha ->]|[(r & Hr & k & ->)|(r & w & Hd & Ha & Hr & ->)]]; rewrite <-app_assoc.
  - rewrite valid_from_ascii by done. apply (IH 0%nat).
  - rewrite <-(IH k). rewrite !elem_of_cons, elem_of_nil in Hr.
    by destruct Hr as [->|[->|[->|[]]]].
  - pose proof (decode_valid_width _ _ _ Hd) as Hw. simpl in Hw.
    pose proof (decode_valid_take _ _ _ Hd) as Ht.
    destruct w as [|w]; [lia|]. rewrite <-(IH w).
    cbn [take app valid_from] in *. rewrite (decode_valid_app _ _ _ Ht : decode_valid (a :: _ ++ _) = _).
    rewrite Nat.sub_succ, Nat.sub_0_r.
    transitivity (valid_from (length (take w s)) (take w s ++ escape_from true 0 (drop w s) ++ t)).
    + rewrite length_take_le by lia. done.
    + apply valid_from_skip.
Qed.

(** ** Marshalled objects of strings are valid JSON and valid UTF-8 *)

Definition string_object (ms : list (string * string)) : json :=
  JObject ((λ m, (m.1, JString m.2)) <$> ms).

Definition string_member (m : string * string) : bytes := quote m.1 ++ chr 58 :: quote m.2.

Definition string_members (m : string * string) (ms : list (string * string)) : bytes :=
  string_member m ++ flat_map (λ m, chr 44 :: string_member m) ms.

Lemma marshal_string_object m ms :
  marshal (string_object (m :: ms)) = chr 123 :: string_members m ms ++ [chr 125].
Proof.
  assert (Htail : flat_map (λ m0 : string * json, chr 44 :: quote m0.1 ++ chr 58 :: marshal m0.2)
            ((λ m0, (m0.1, JString m0.2)) <$> ms)
          = flat_map (λ m0, chr 44 :: string_member m0) ms).
  { induction ms as [|x ms IH]; [done|]. cbn [flat_map]. rewrite <-IH. done. }
  change (chr 123 :: (string_member m ++
    flat_map (λ m0 : string * json, chr 44 :: quote m0.1 ++ chr 58 :: marshal m0.2)
      ((λ m0, (m0.1, JString m0.2)) <$> ms)) ++ [chr 125]
    = chr 123 :: string_members m ms ++ [chr 125]).
  by rewrite Htail.
Qed.

Lemma scan_value_quote f d s t : scan (S f) d EValue (quote s ++ t) = Some t.
Proof.
  unfold quote. cbn [app scan skip_ws]. rewrite <-app_assoc.
  apply scan_string_escape.
Qed.

(** Scanning one member, then whatever follows its value. *)
Lemma scan_member f d m t :
  scan (S (S f)) d EMembers (string_member m ++ t)
  = match skip_ws t with
    | b :: t' => if code b =? 44 then scan (S f) d EMembers t'
                 else if code b =? 125 then Some t' else None
    | [] => None
    end.
Proof.
  unfold string_member. rewrite <-app_assoc. cbn [app].
  change (scan (S (S f)) d EMembers (quote m.1 ++ ?x)) with
    (match scan_string ((escape_from true 0 (to_bytes m.1) ++ [chr 34]) ++ x) with
     | Some s2 =>
         match skip_ws s2 with
         | p :: s3 =>
             if code p =? 58 then
               match scan (S f) d EValue s3 with
               | Some s4 =>
                   match skip_ws s4 with
                   | b :: s5 => if code b =? 44 then scan (S f) d EMembers s5
                                else if code b =? 125 then Some s5 else None
                   | [] => None
                   end
               | None => None
               end
             else None
         | [] => None
         end
     | None => None
     end).
  rewrite <-app_assoc. cbn [app]. rewrite scan_string_escape.
  change (skip_ws (chr 58 :: ?x)) with (chr 58 :: x). cbv iota beta.
  change (code (chr 58) =? 58) with true. cbv iota. by rewrite scan_value_quote.
Qed.

Lemma scan_members fuel d m ms t :
  (length ms + 1 < fuel)%nat →
  scan fuel d EMembers (string_members m ms ++ chr 125 :: t) = Some t.
Proof.
  revert fuel m. induction ms as [|m' ms IH]; intros [|[|fuel]] m Hf;
    cbn [length] in Hf; try lia;
    unfold string_members; rewrite <-app_assoc, scan_member; [done|].
  cbn [flat_map app skip_ws]. change (is_ws (chr 44)) with false. cbv iota.
  change (code (chr 44) =? 44) with true. cbv iota. apply IH. lia.
Qed.

Lemma length_string_members m ms : (length ms ≤ length (string_members m ms))%nat.
Proof.
  unfold string_members. rewrite length_app.
  assert (length ms ≤ length (flat_map (λ m, chr 44 :: string_member m) ms))%nat; [|lia].
  induction ms as [|x ms IH]; cbn [flat_map length]; [lia|].
  rewrite length_app. cbn [length]. lia.
Qed.

Lemma json_Valid_string_object m ms :
  json_Valid (json_Marshal (string_object (m :: ms))) = true.
Proof.
  unfold json_Valid, json_Marshal. rewrite to_of_bytes, marshal_string_object.
  assert (Hlen : (length ms ≤ length (string_members m ms))%nat) by apply length_string_members.
  set (b := chr 123 :: string_members m ms ++ [chr 125]).
  assert (∃ f, (2 * length b + 2)%nat = S f ∧ (length ms + 1 < f)%nat) as (f & -> & Hf).
  { exists (2 * length b + 1)%nat. subst b. cbn [length]. rewrite length_app. cbn [length]. lia. }
  assert (scan (S f) 0 EValue b = scan f (0 + 1) EMembers (string_members m ms ++ [chr 125])) as ->
    by done.
  by rewrite scan_members.
Qed.

Lemma valid_from_quote s t : valid_from 0 (quote s ++ t) = valid_from 0 t.
Proof.
  unfold quote. cbn [app]. rewrite <-app_assoc.
  transitivity (valid_from 0 (escape_from true 0 (to_bytes s) ++ chr 34 :: t)); [done|].
  by rewrite valid_from_escape.
Qed.

Lemma valid_from_member m t : valid_from 0 (string_member m ++ t) = valid_from 0 t.
Proof.
  unfold string_member. rewrite <-app_assoc, valid_from_quote. cbn [app].
  transitivity (valid_from 0 (quote m.2 ++ t)); [done|]. apply valid_from_quote.
Qed.

Lemma utf8_ValidString_string_object m ms :
  utf8_ValidString (json_Marshal (string_object (m :: ms))) = true.
Proof.
  unfold utf8_ValidString, json_Marshal. rewrite to_of_bytes, marshal_string_object.
  transitivity (valid_from 0 (string_members m ms ++ [chr 125])); [done|].
  unfold string_members. rewrite <-app_assoc, valid_from_member.
  induction ms as [|x ms IH]; [done|]. cbn [flat_map].
  rewrite <-app_assoc. cbn [app].
  transitivity (valid_from 0 (string_member x ++
    flat_map (λ m, chr 44 :: string_member m) ms ++ [chr 125])); [done|].
  by rewrite valid_from_member.
Qed.

#[export] Hint Resolve json_Valid_string_object utf8_ValidString_string_object : svc.
