(* ===== verification/Schema.v ===== *)
(** * The PostgreSQL schema (migrations/000001_create_schema.up.sql)

    The three tables as finite maps keyed by primary key, and their CHECK
    constraints as boolean functions of a row.  PostgreSQL accepts a text value
    when it is valid UTF-8 without NUL, and [length] counts its characters. *)
From S2P Require Import Prelude.
From S2P Require Import GoErrors.
From S2P Require Import GoStrings.
From Stdlib Require Import Ascii.
Local Open Scope Z_scope.

(** Behaviour of PostgreSQL and its driver that the repository relies on but
    does not contain: which errors [pgconn.Timeout] recognises, the [uuid] input
    function (the identity on the canonical form, which is how a value is printed)
    and the cast of a text to [jsonb] ([None]: rejected), given by the text of its
    value, which begins with a brace when the value is an object. *)
Definition uuid_hyphen (i : nat) : bool := bool_decide (i ∈ [8; 13; 18; 23]%nat).
Definition is_lower_hex (a : ascii) : bool := in_range 48 57 a || in_range 97 102 a.

Fixpoint uuid_chars (i : nat) (s : bytes) : bool :=
  match s with
  | [] => bool_decide (i = 36%nat)
  | a :: s => (if uuid_hyphen i then code a =? 45 else is_lower_hex a) && uuid_chars (S i) s
  end.

(** The text PostgreSQL prints for a [uuid]. *)
Definition canonical_uuid (s : string) : bool := uuid_chars 0 (to_bytes s).

(** A JSON text that begins with its brace: an object, when it is valid. *)
Definition object_text (s : string) : bool :=
  match s with String a _ => code a =? 123 | EmptyString => false end.

Class Postgres := {
  pgconn_Timeout : goerr → bool;
  uuid_in : string → option string;
  uuid_in_canonical s : canonical_uuid s = true → uuid_in s = Some s;
  uuid_out_canonical s u : uuid_in s = Some u → canonical_uuid u = true;
  jsonb_in : string → option string;
  jsonb_in_object s d : jsonb_in s = Some d → object_text s = true → object_text d = true
}.

(** The interval PostgreSQL makes of a duration's [Seconds()], in microseconds:
    the conversion to [double precision] and its rounding are not the
    repository's. *)
Class PgInterval := make_interval : Z → Z.

Module Schema.

Definition text_ok (s : string) : bool := utf8_ValidString s && negb (contains_NUL s).

(** [length(s) BETWEEN lo AND hi] *)
Definition length_between (lo hi : Z) (s : string) : bool :=
  (lo <=? utf8_RuneCountInString s) && (utf8_RuneCountInString s <=? hi).

(** ** reward_claims *)

Record claim_row := ClaimRow {
  c_id : string;
  c_player_id : string;
  c_campaign_id : string;
  c_reward_id : string;
  c_created_at : Z
}.

Definition claim_triple (c : claim_row) : string * string * string :=
  (c.(c_player_id), c.(c_campaign_id), c.(c_reward_id)).

Definition claim_check (c : claim_row) : bool :=
  length_between 1 128 c.(c_player_id)
  && length_between 1 128 c.(c_campaign_id)
  && length_between 1 128 c.(c_reward_id).

(** ** reward_claim_idempotency_keys *)

Record idem_row := IdemRow {
  i_key_hash : string;
  i_player_id : string;
  i_campaign_id : string;
  i_reward_id : string;
  i_response_status : option Z;
  i_response_body : option string;
  i_reward_claim_id : option string;
  i_created_at : Z
}.

Definition idem_triple (i : idem_row) : string * string * string :=
  (i.(i_player_id), i.(i_campaign_id), i.(i_reward_id)).

Definition non_empty (b : option string) : bool :=
  match b with Some s => 0 <? len s | None => false end.

(** The CASE of reward_claim_idempotency_keys_response_shape_chk. *)
Definition response_shape_check (i : idem_row) : bool :=
  match i.(i_response_status) with
  | None => bool_decide (i.(i_response_body) = None)
            && bool_decide (i.(i_reward_claim_id) = None)
  | Some st =>
      if st =? 201 then
        non_empty i.(i_response_body) && negb (bool_decide (i.(i_reward_claim_id) = None))
      else if st =? 409 then
        non_empty i.(i_response_body) && bool_decide (i.(i_reward_claim_id) = None)
      else false
  end.

Definition idem_check (i : idem_row) : bool :=
  (len i.(i_key_hash) =? 32)
  && length_between 1 128 i.(i_player_id)
  && length_between 1 128 i.(i_campaign_id)
  && length_between 1 128 i.(i_reward_id)
  && response_shape_check i.

(** ** outbox_events *)

Inductive event_status := pending | processing | published | dead_letter.
#[export] Instance event_status_eq_dec : EqDecision event_status.
Proof. solve_decision. Defined.

Record outbox_row := OutboxRow {
  o_id : string;
  o_aggregate_type : string;
  o_aggregate_id : string;
  o_event_type : string;
  o_payload : string;
  o_status : event_status;
  o_failed_attempts : Z;
  o_available_at : Z;
  o_last_failure_reason : option string;
  o_locked_by : option string;
  o_locked_until : option Z;
  o_created_at : Z;
  o_updated_at : Z;
  o_published_at : option Z;
  o_dead_lettered_at : option Z
}.

Definition is_some {A} (o : option A) : bool := match o with Some _ => true | None => false end.

Definition failure_state_check (o : outbox_row) : bool :=
  match o.(o_status) with
  | dead_letter => (0 <? o.(o_failed_attempts)) && is_some o.(o_last_failure_reason)
  | _ => ((o.(o_failed_attempts) =? 0) && negb (is_some o.(o_last_failure_reason)))
         || ((0 <? o.(o_failed_attempts)) && is_some o.(o_last_failure_reason))
  end.

Definition failure_reason_check (o : outbox_row) : bool :=
  match o.(o_last_failure_reason) with
  | None => true
  | Some r => bool_decide (r ∈ ["failed"; "timeout"; "canceled"]%string)
  end.

Definition locked_by_check (o : outbox_row) : bool :=
  match o.(o_locked_by) with None => true | Some w => length_between 1 128 w end.

Definition published_status_check (o : outbox_row) : bool :=
  Bool.eqb (bool_decide (o.(o_status) = published)) (is_some o.(o_published_at)).

Definition processing_lock_check (o : outbox_row) : bool :=
  if bool_decide (o.(o_status) = processing)
  then is_some o.(o_locked_by) && is_some o.(o_locked_until)
  else negb (is_some o.(o_locked_by)) && negb (is_some o.(o_locked_until)).

Definition dead_letter_status_check (o : outbox_row) : bool :=
  Bool.eqb (bool_decide (o.(o_status) = dead_letter)) (is_some o.(o_dead_lettered_at)).

(** [jsonb_typeof(payload) = 'object'], on the text of the stored value. *)
Definition payload_object_check (o : outbox_row) : bool := object_text o.(o_payload).

(** Every CHECK of the table, the one on [status] being its type;
    [failed_attempts] is a 32-bit [integer] column. *)
Definition outbox_check (o : outbox_row) : bool :=
  length_between 1 64 o.(o_aggregate_type)
  && length_between 1 128 o.(o_event_type)
  && payload_object_check o
  && (0 <=? o.(o_failed_attempts)) && (o.(o_failed_attempts) <? 2 ^ 31)
  && failure_reason_check o
  && failure_state_check o
  && locked_by_check o
  && (o.(o_created_at) <=? o.(o_updated_at))
  && published_status_check o
  && processing_lock_check o
  && dead_letter_status_check o.

(** A new row with the columns' defaults, in a statement whose [now()] is [now]. *)
Definition new_outbox_row (id aggregate_type aggregate_id event_type payload : string)
    (now : Z) : outbox_row :=
  OutboxRow id aggregate_type aggregate_id event_type payload
    pending 0 now None None None now now None None.

(** ** The database *)

Record db := DB {
  claims : gmap string claim_row;
  idem : gmap string idem_row;
  outbox : gmap string outbox_row
}.

Definition empty_db : db := DB ∅ ∅ ∅.

(** The rows a transaction has written, over the committed ones. *)
Definition overlay (w c : db) : db :=
  DB (w.(claims) ∪ c.(claims)) (w.(idem) ∪ c.(idem)) (w.(outbox) ∪ c.(outbox)).

End Schema.
