(* ===== verification/Demo.v ===== *)
(** * A concrete PostgreSQL

    Concrete functions for the parameters of the model, at which the theorems are
    instantiated. *)
From S2P Require Import Prelude.
From S2P Require Import GoErrors.
From S2P Require Import GoStrings.
From S2P Require Import GoJson.
From S2P Require Import Schema.
Local Open Scope Z_scope.

Module Demo.

Definition demo_uuid_in (s : string) : option string :=
  if canonical_uuid s then Some s else None.

Lemma demo_uuid_in_canonical s : canonical_uuid s = true → demo_uuid_in s = Some s.
Proof. unfold demo_uuid_in. by intros ->. Qed.

Lemma demo_uuid_out_canonical s u : demo_uuid_in s = Some u → canonical_uuid u = true.
Proof. unfold demo_uuid_in. by destruct (canonical_uuid s) eqn:E; intros [= <-]. Qed.

Definition demo_jsonb_in (s : string) : option string :=
  if json_Valid s then Some s else None.

Lemma demo_jsonb_in_object s d :
  demo_jsonb_in s = Some d → object_text s = true → object_text d = true.
Proof. unfold demo_jsonb_in. by destruct (json_Valid s); intros [= <-]. Qed.

Definition demo_postgres : Postgres := {|
  pgconn_Timeout _ := false;
  uuid_in := demo_uuid_in;
  uuid_in_canonical := demo_uuid_in_canonical;
  uuid_out_canonical := demo_uuid_out_canonical;
  jsonb_in := demo_jsonb_in;
  jsonb_in_object := demo_jsonb_in_object
|}.

Definition demo_now : Z := 1750000000123000.

(** Durations are nanoseconds, intervals microseconds. *)
Definition demo_interval : PgInterval := λ d, d `div` 1000.

End Demo.
