(* ===== verification/Availability.v ===== *)
(** * Availability classification (internal/postgres/availability.go) *)
From S2P Require Import Prelude.
From S2P Require Import GoErrors.
From S2P Require Import GoStrings.
From S2P Require Import Schema.

Module Availability.

Definition isUnavailableSQLState (code : string) : bool :=
  bool_decide (code ∈
    ["08000"; "08003"; "08006"; "08001"; "08004"; "08007";
     "53300"; "57P01"; "57P02"; "57P03"; "57P05"]%string).

Definition isNetworkUnavailableError (err : goerr) : bool :=
  if errors_Is err net_ErrClosed || errors_Is err io_EOF || errors_Is err io_ErrUnexpectedEOF
  then true
  else if match errors_As as_NetError err with Some timeout => timeout | None => false end
  then true
  else match errors_As as_DNSError err with
       | Some _ => true
       | None => match errors_As as_OpError err with Some _ => true | None => false end
       end.

Section availability.
Context `{Postgres}.

Definition IsUnavailable (err : goerr) : bool :=
  match errors_As as_PgError err with
  | Some code => isUnavailableSQLState code
  | None =>
      if errors_Is err pgconn_ErrConnClosed || pgconn_Timeout err then true
      else if errors_Is err context_Canceled || errors_Is err context_DeadlineExceeded
      then false
      else isNetworkUnavailableError err
  end.

(** [mapPostgresError]: the same function in internal/rewards/postgres.go and
    internal/outbox/store.go, up to the messages and the sentinels.  [ctx] is
    the query context when the error is mapped, [None] the nil context. *)
Definition map_error (no_row operation : string)
    (internal unavailable query_timeout : sentinel)
    (ctx : option ctx_state) (err : goerr) : goerr :=
  if errors_Is err pgx_ErrNoRows then EWrap no_row (ESentinel internal)
  else
    let rest :=
      if IsUnavailable err then EWrap operation (ESentinel unavailable)
      else EWrap operation (ESentinel internal) in
    match ctx with
    | Some c =>
        match ctx_Err c with
        | Some ctxErr =>
            if errors_Is err ctxErr then
              if errors_Is_opt (context_Cause c) query_timeout
              then EWrap operation (ESentinel unavailable)
              else ESentinel ctxErr
            else rest
        | None => rest
        end
    | None => rest
    end.

(** A failing call is mapped to the internal sentinel, to the unavailable one,
    or is the caller's own context error, exactly as the error and the context
    say. *)
Lemma map_error_class no_row op i u q ctx err :
  map_error no_row op i u q ctx err = EWrap no_row (ESentinel i)
  ∨ map_error no_row op i u q ctx err = EWrap op (ESentinel i)
  ∨ map_error no_row op i u q ctx err = EWrap op (ESentinel u)
  ∨ (∃ c s, ctx = Some c ∧ ctx_Err c = Some s ∧ errors_Is err s = true
      ∧ errors_Is_opt (context_Cause c) q = false
      ∧ map_error no_row op i u q ctx err = ESentinel s).
Proof.
  unfold map_error. repeat (case_match; simplify_eq; auto 6).
  all: right; right; right; eauto 10.
Qed.
End availability.

End Availability.
