(* ===== verification/Rewards.v ===== *)
(** * Reward claims: commands, validation, identifiers and stored bodies

    internal/rewards: claim.go, errors.go, event.go, response.go, uuid.go and the
    input validation of service.go. *)
From S2P Require Import Prelude.
From S2P Require Import GoErrors.
From S2P Require Import GoStrings.
From S2P Require Import GoJson.
From S2P Require Import Sha256.
From S2P Require Import Schema.
From Stdlib Require Import Ascii.
Local Open Scope Z_scope.

Module Rewards.

(** ** claim.go *)

Definition maxIDLength : Z := 128.
Definition maxIdempotencyKeyLength : Z := 255.
Definition createClaimStatusCreated : Z := 201.
Definition createClaimStatusConflict : Z := 409.

Record claim := Claim {
  ID : string;
  PlayerID : string;
  CampaignID : string;
  RewardID : string;
  CreatedAt : Z
}.

Record CreateClaimCommand := Command {
  cmd_PlayerID : string;
  cmd_CampaignID : string;
  cmd_RewardID : string;
  cmd_IdempotencyKey : string
}.

Record CreateClaimResult := Result {
  StatusCode : Z;
  ResponseBody : string;
  Replayed : bool
}.

Record createClaimParams := Params {
  p_PlayerID : string;
  p_CampaignID : string;
  p_RewardID : string;
  p_KeyHash : string
}.

(** ** service.go: validation *)

Definition validateClaimID (field value : string) : result goerr unit :=
  if bool_decide (value = "")%string then
    Err (EInvalidInput (field ++ " is required"))
  else if negb (utf8_ValidString value) then
    Err (EInvalidInput (field ++ " must be valid UTF-8"))
  else if contains_NUL value then
    Err (EInvalidInput (field ++ " must not contain NUL characters"))
  else if utf8_RuneCountInString value >? maxIDLength then
    Err (EInvalidInput (field ++ " must be at most " ++ strconv_Itoa maxIDLength ++ " characters"))
  else Ok tt.

Definition validateIdempotencyKey (key : string) : result goerr unit :=
  if bool_decide (key = "")%string then
    Err (EInvalidInput "idempotency key is required")
  else if len key >? maxIdempotencyKeyLength then
    Err (EInvalidInput "idempotency key is invalid")
  else if existsb (λ r, (r <? 0x20) || (r =? 0x7f)) (runes key) then
    Err (EInvalidInput "idempotency key is invalid")
  else Ok tt.

Definition validateCreateClaimCommand (cmd : CreateClaimCommand) : result goerr unit :=
  let! _ := validateClaimID "player_id" cmd.(cmd_PlayerID) in
  let! _ := validateClaimID "campaign_id" cmd.(cmd_CampaignID) in
  let! _ := validateClaimID "reward_id" cmd.(cmd_RewardID) in
  validateIdempotencyKey cmd.(cmd_IdempotencyKey).

Definition trim_command (cmd : CreateClaimCommand) : CreateClaimCommand :=
  Command (strings_TrimSpace cmd.(cmd_PlayerID)) (strings_TrimSpace cmd.(cmd_CampaignID))
    (strings_TrimSpace cmd.(cmd_RewardID)) (strings_TrimSpace cmd.(cmd_IdempotencyKey)).

Definition prepareCreateClaim (cmd : CreateClaimCommand) : result goerr createClaimParams :=
  let cmd := trim_command cmd in
  let! _ := validateCreateClaimCommand cmd in
  Ok (Params cmd.(cmd_PlayerID) cmd.(cmd_CampaignID) cmd.(cmd_RewardID)
        (Sha256.Sum256 cmd.(cmd_IdempotencyKey))).

(** ** service.go: [NewService]

    The pool is given by whether it is non-nil. *)
Record Service := MkService { queryTimeout : Z }.

Definition NewService (pool : bool) (queryTimeout : Z) : result goerr Service :=
  if negb pool then Err (ENew "reward claim pool is required")
  else if queryTimeout <=? 0 then
    Err (ENew "reward claim query timeout must be greater than zero")
  else Ok (MkService queryTimeout).

(** ** uuid.go

    [b] is what [rand.Read] put into the 16-byte array. *)
Definition uuid_version (b : list Z) : list Z :=
  let b := <[6%nat := Z.lor (Z.land (nth 6 b 0) 0x0f) 0x40]> b in
  <[8%nat := Z.lor (Z.land (nth 8 b 0) 0x3f) 0x80]> b.

Definition slice (i j : nat) (b : list Z) : list Z := take (j - i) (drop i b).

Definition newUUIDV4 (b : list Z) : string :=
  let b := uuid_version b in
  (hex_EncodeToString (slice 0 4 b) ++ "-" ++ hex_EncodeToString (slice 4 6 b) ++ "-"
   ++ hex_EncodeToString (slice 6 8 b) ++ "-" ++ hex_EncodeToString (slice 8 10 b) ++ "-"
   ++ hex_EncodeToString (slice 10 16 b))%string.

(** What [rand.Read] fills the array with. *)
Definition bytes16 (b : list Z) : Prop := length b = 16%nat ∧ Forall (λ x, 0 ≤ x < 256) b.

(** ** response.go *)

Definition duplicateClaimErrorCode : string := "reward_already_claimed".
Definition duplicateClaimErrorMessage : string := "Reward has already been claimed".

Definition createClaimResponse (c : claim) : json :=
  string_object [
    ("claim_id", c.(ID)); ("player_id", c.(PlayerID)); ("campaign_id", c.(CampaignID));
    ("reward_id", c.(RewardID)); ("claimed_at", Time.Format_RFC3339Nano c.(CreatedAt))]%string.

Definition errorResponse (code message : string) : json :=
  JObject [("error", JObject [("code", JString code); ("message", JString message)])]%string.

(** [json.Marshal] of a struct of strings does not fail: the error branches of
    these two functions are dead. *)
Definition marshalCreatedClaimResponse (c : claim) : result goerr string :=
  Ok (json_Marshal (createClaimResponse c)).

Definition marshalDuplicateClaimResponse : result goerr string :=
  Ok (json_Marshal (errorResponse duplicateClaimErrorCode duplicateClaimErrorMessage)).

(** ** event.go *)

Definition outboxAggregateTypeRewardClaim : string := "reward_claim".
Definition outboxEventTypeRewardClaimed : string := "RewardClaimed".
Definition rewardClaimedSchemaVersion : Z := 1.

Record rewardClaimedEvent := Event {
  SchemaVersion : Z;
  EventID : string;
  EventType : string;
  OccurredAt : Z;
  EventClaim : claim
}.

Definition newRewardClaimedEvent (eventID : string) (c : claim) : rewardClaimedEvent :=
  Event rewardClaimedSchemaVersion eventID outboxEventTypeRewardClaimed c.(CreatedAt) c.

(** [json.Marshal] of the event: it fails when a timestamp has a year RFC 3339
    cannot express. *)
Definition marshalRewardClaimedEvent (e : rewardClaimedEvent) : option string :=
  match Time.MarshalJSON e.(OccurredAt), Time.MarshalJSON e.(EventClaim).(CreatedAt) with
  | Some occurred_at, Some claimed_at =>
      let c := e.(EventClaim) in
      Some (json_Marshal (JObject [
        ("schema_version", JInt e.(SchemaVersion)); ("event_id", JString e.(EventID));
        ("event_type", JString e.(EventType)); ("occurred_at", JString occurred_at);
        ("claim", string_object [
           ("claim_id", c.(ID)); ("player_id", c.(PlayerID)); ("campaign_id", c.(CampaignID));
           ("reward_id", c.(RewardID)); ("claimed_at", claimed_at)])]))%string
  | _, _ => None
  end.

(** ** Lemmas *)

Lemma validateClaimID_ok field v :
  validateClaimID field v = Ok tt ↔
  utf8_ValidString v = true ∧ contains_NUL v = false ∧
  v ≠ ""%string ∧ utf8_RuneCountInString v ≤ maxIDLength.
Proof.
  unfold validateClaimID. repeat case_match; boolean; intuition (try congruence; try lia).
Qed.

Lemma runes_non_empty s : s ≠ ""%string → 1 ≤ utf8_RuneCountInString s.
Proof.
  unfold utf8_RuneCountInString, runes. destruct s as [|a s]; [done|]. simpl. lia.
Qed.

Lemma validateClaimID_column field v :
  validateClaimID field v = Ok tt →
  Schema.text_ok v = true ∧ Schema.length_between 1 128 v = true.
Proof.
  intros (Hv & Hn & He & Hl)%validateClaimID_ok.
  unfold Schema.text_ok, Schema.length_between. rewrite Hv, Hn. split; [done|].
  pose proof (runes_non_empty v He). unfold maxIDLength in Hl.
  apply andb_true_intro; split; apply Z.leb_le; lia.
Qed.

(** What every accepted command's parameters satisfy. *)
Definition params_ok (p : createClaimParams) : Prop :=
  (∀ v, v ∈ [p.(p_PlayerID); p.(p_CampaignID); p.(p_RewardID)] →
     Schema.text_ok v = true ∧ Schema.length_between 1 128 v = true)
  ∧ len p.(p_KeyHash) = 32.

Lemma prepareCreateClaim_params cmd p :
  prepareCreateClaim cmd = Ok p → params_ok p.
Proof.
  unfold prepareCreateClaim, validateCreateClaimCommand.
  rewrite !rbind_ok. intros ([] & Hv & [= <-]).
  repeat (apply rbind_ok in Hv as ([] & ? & Hv)).
  split.
  - intros v. simpl. rewrite !elem_of_cons, elem_of_nil.
    intros [->|[->|[->|[]]]]; eauto using validateClaimID_column.
  - apply Sha256.Sum256_len.
Qed.

Lemma land_lor_byte x m c :
  0 ≤ x < 256 → (m, c) ∈ [(0x0f, 0x40); (0x3f, 0x80)] → 0 ≤ Z.lor (Z.land x m) c < 256.
Proof.
  intros Hx Hmc.
  assert (forallb (λ mc, (0 <=? Z.lor (Z.land x mc.1) mc.2) && (Z.lor (Z.land x mc.1) mc.2 <? 256))
    [(0x0f, 0x40); (0x3f, 0x80)] = true) as H.
  { revert x Hx. by apply by_enumeration. }
  rewrite List.forallb_forall in H. specialize (H (m, c)).
  rewrite <-list_elem_of_In in H. specialize (H Hmc). simpl in H. boolean. lia.
Qed.

Lemma hex_digit_lower d : 0 ≤ d < 16 → is_lower_hex (hex_digit d) = true.
Proof. revert d. by apply by_enumeration. Qed.

Lemma hex_byte_digits x : 0 ≤ x < 256 →
  ∃ a b, hex_byte x = String a (String b "") ∧ is_lower_hex a = true ∧ is_lower_hex b = true.
Proof.
  intros Hx. unfold hex_byte. eexists _, _. split; [done|].
  apply andb_true_iff. revert x Hx. by apply by_enumeration.
Qed.

Lemma hex_byte_inj x y : 0 ≤ x < 256 → 0 ≤ y < 256 → hex_byte x = hex_byte y → x = y.
Proof.
  intros Hx Hy Heq.
  assert (∀ z, 0 ≤ z < 256 →
    (match hex_byte z with
     | String a (String b _) =>
         let v c := if code c <? 97 then code c - 48 else code c - 87 in
         16 * v a + v b
     | _ => 0
     end =? z) = true) as H by by apply by_enumeration.
  pose proof (H x Hx) as H1. pose proof (H y Hy) as H2.
  rewrite Heq in H1. boolean. lia.
Qed.

(** Sixteen bytes, named. *)
Ltac destruct_bytes16 b :=
  let Hlen := fresh "Hlen" in
  destruct b as [|x0 [|x1 [|x2 [|x3 [|x4 [|x5 [|x6 [|x7 [|x8 [|x9 [|x10 [|x11
    [|x12 [|x13 [|x14 [|x15 [|]]]]]]]]]]]]]]]]]; try discriminate.

Lemma uuid_version_bytes16 b : bytes16 b → bytes16 (uuid_version b).
Proof.
  intros [Hl Hb]. destruct_bytes16 b. split; [done|].
  rewrite !Forall_cons in Hb. unfold uuid_version. cbn [nth].
  repeat constructor; try (apply land_lor_byte; [|set_solver]); naive_solver.
Qed.

Lemma hex_Encode_cons x l : hex_EncodeToString (x :: l) = (hex_byte x ++ hex_EncodeToString l)%string.
Proof. done. Qed.

(** One byte of the identifier is two characters that are not hyphens. *)
Lemma uuid_chars_byte i x s :
  0 ≤ x < 256 → uuid_hyphen i || uuid_hyphen (S i) = false →
  uuid_chars i (to_bytes (hex_byte x ++ s)) = uuid_chars (S (S i)) (to_bytes s).
Proof.
  intros Hx Hi. destruct (hex_byte_digits x Hx) as (a & b & -> & Ha & Hb).
  apply orb_false_iff in Hi as [Hi Hj]. simpl. by rewrite Hi, Hj, Ha, Hb.
Qed.

Lemma uuid_chars_hex i l s :
  Forall (λ x, 0 ≤ x < 256) l →
  forallb (λ j, negb (uuid_hyphen j)) (seq i (2 * length l)) = true →
  uuid_chars i (to_bytes (hex_EncodeToString l ++ s))
  = uuid_chars (i + 2 * length l) (to_bytes s).
Proof.
  revert i. induction l as [|x l IH]; intros i Hl Hi; [by rewrite Nat.add_0_r|].
  apply Forall_cons in Hl as [Hx Hl].
  cbn [length] in Hi. replace (2 * S (length l))%nat with (S (S (2 * length l))) in Hi by lia.
  cbn [seq forallb] in Hi. boolean.
  rewrite hex_Encode_cons, string_app_assoc, uuid_chars_byte, IH; [|done..|].
  - f_equal. cbn [length]. lia.
  - apply orb_false_iff. done.
Qed.

Lemma uuid_chars_hyphen i s :
  uuid_hyphen i = true → uuid_chars i (to_bytes ("-" ++ s)) = uuid_chars (S i) (to_bytes s).
Proof. intros Hi. simpl. by rewrite Hi. Qed.

(** The layout of the 36 characters. *)
Lemma newUUIDV4_canonical b : bytes16 b → canonical_uuid (newUUIDV4 b) = true.
Proof.
  intros H. unfold newUUIDV4, canonical_uuid.
  pose proof (uuid_version_bytes16 b H) as [Hl Hb].
  assert (∀ i j, Forall (λ x, 0 ≤ x < 256) (slice i j (uuid_version b))) as Hs.
  { intros i j. by apply Forall_take, Forall_drop. }
  assert (∀ i j, (i ≤ j ≤ 16)%nat → length (slice i j (uuid_version b)) = (j - i)%nat) as Hn.
  { intros i j Hij. unfold slice. rewrite length_take, length_drop, Hl. lia. }
  rewrite <-(string_app_nil_r (hex_EncodeToString (slice 10 16 _))).
  repeat (rewrite uuid_chars_hex by (first [apply Hs | by rewrite Hn by lia]);
          rewrite Hn by lia; cbn [Nat.sub Nat.mul Nat.add];
          try rewrite uuid_chars_hyphen by done).
  done.
Qed.

(** Splitting equal identifiers into equal bytes. *)
Lemma hex_Encode_app_inj l l' s t :
  Forall (λ x, 0 ≤ x < 256) l → Forall (λ x, 0 ≤ x < 256) l' → length l = length l' →
  (hex_EncodeToString l ++ s = hex_EncodeToString l' ++ t)%string → l = l' ∧ s = t.
Proof.
  revert l'. induction l as [|x l IH]; intros [|y l'] Hl Hl' Hlen Heq; try discriminate; [done|].
  apply Forall_cons in Hl as [Hx Hl]. apply Forall_cons in Hl' as [Hy Hl'].
  rewrite !hex_Encode_cons, !string_app_assoc in Heq.
  assert (hex_byte x = hex_byte y ∧
          (hex_EncodeToString l ++ s = hex_EncodeToString l' ++ t)%string) as [Hb Hr].
  { revert Heq. unfold hex_byte. simpl. intros [= -> -> ?]. done. }
  destruct (IH l') as [-> ->]; [done..|by injection Hlen|done|].
  split; [|done]. f_equal. by apply hex_byte_inj.
Qed.

Lemma slices16 b : length b = 16%nat →
  b = slice 0 4 b ++ slice 4 6 b ++ slice 6 8 b ++ slice 8 10 b ++ slice 10 16 b.
Proof. intros Hl. destruct_bytes16 b. done. Qed.

Lemma newUUIDV4_inj b b' :
  bytes16 b → bytes16 b' → newUUIDV4 b = newUUIDV4 b' → uuid_version b = uuid_version b'.
Proof.
  intros H H' Heq. unfold newUUIDV4 in Heq.
  pose proof (uuid_version_bytes16 b H) as [Hl Hb].
  pose proof (uuid_version_bytes16 b' H') as [Hl' Hb'].
  set (v := uuid_version b) in *. set (v' := uuid_version b') in *.
  assert (∀ i j, Forall (λ x, 0 ≤ x < 256) (slice i j v)) as Hs
    by (intros; by apply Forall_take, Forall_drop).
  assert (∀ i j, Forall (λ x, 0 ≤ x < 256) (slice i j v')) as Hs'
    by (intros; by apply Forall_take, Forall_drop).
  assert (∀ i j, length (slice i j v) = length (slice i j v')) as Hn
    by (intros; unfold slice; by rewrite !length_take, !length_drop, Hl, Hl').
  rewrite (slices16 v Hl), (slices16 v' Hl').
  rewrite <-(string_app_nil_r (hex_EncodeToString (slice 10 16 v))),
          <-(string_app_nil_r (hex_EncodeToString (slice 10 16 v'))) in Heq.
  repeat (apply hex_Encode_app_inj in Heq as [-> Heq]; [|apply Hs|apply Hs'|apply Hn];
          try injection Heq as Heq).
  done.
Qed.

(** ** Properties *)

(** The documented acceptance conditions of one identifier and of the key. *)
Definition id_accepted (v : string) : Prop :=
  v ≠ ""%string ∧ utf8_ValidString v = true ∧ contains_NUL v = false
  ∧ utf8_RuneCountInString v ≤ 128.

Definition key_accepted (k : string) : Prop :=
  k ≠ ""%string ∧ len k ≤ 255 ∧ Forall (λ r, 0x20 ≤ r ∧ r ≠ 0x7f) (runes k).

Lemma validateIdempotencyKey_ok k : validateIdempotencyKey k = Ok tt ↔ key_accepted k.
Proof.
  unfold validateIdempotencyKey, key_accepted, maxIdempotencyKeyLength.
  destruct (existsb _ (runes k)) eqn:He.
  - apply existsb_exists in He as (r & Hin & Hr). apply list_elem_of_In in Hin.
    split; [intros H; crush_in H|]. intros (_ & _ & Hall).
    rewrite Forall_forall in Hall. specialize (Hall r Hin).
    apply orb_true_iff in Hr as [?|?]; boolean; lia.
  - assert (Forall (λ r, 0x20 ≤ r ∧ r ≠ 0x7f) (runes k)) as Hall.
    { apply Forall_forall. intros r Hin. apply not_true_iff_false in He.
      rewrite existsb_exists in He.
      destruct (Z.ltb_spec r 0x20); [|destruct (Z.eqb_spec r 0x7f)]; [| |lia];
        exfalso; apply He; exists r; (split; [by apply list_elem_of_In|]);
        apply orb_true_iff; [left; by apply Z.ltb_lt|right; by apply Z.eqb_eq]. }
    repeat case_match; boolean; intuition (try congruence; try lia).
Qed.

Lemma validateClaimID_accepted f v : validateClaimID f v = Ok tt ↔ id_accepted v.
Proof. rewrite validateClaimID_ok. unfold id_accepted, maxIDLength. naive_solver. Qed.

Lemma validate_error f v e : validateClaimID f v = Err e → ∃ m, e = EInvalidInput m.
Proof. unfold validateClaimID. intros H. crush_in H; eauto. Qed.

Lemma validate_key_error k e : validateIdempotencyKey k = Err e → ∃ m, e = EInvalidInput m.
Proof. unfold validateIdempotencyKey. intros H. crush_in H; eauto. Qed.

Lemma prepareCreateClaim_error cmd e : prepareCreateClaim cmd = Err e → ∃ m, e = EInvalidInput m.
Proof.
  unfold prepareCreateClaim, validateCreateClaimCommand. intros He.
  repeat (apply rbind_err in He as [He|([] & _ & He)]);
    eauto using validate_error, validate_key_error. done.
Qed.

(** C25: a command is accepted exactly when its three trimmed identifiers are
    non-empty valid UTF-8 without NUL of at most 128 characters and its trimmed
    key is non-empty, at most 255 bytes and free of control characters; the
    parameters are then the trimmed identifiers and the SHA-256 of the trimmed
    key.  Every other command is rejected with an [InvalidInputError]. *)
Theorem prepareCreateClaim_spec cmd :
  (∀ p, prepareCreateClaim cmd = Ok p ↔
     let t := trim_command cmd in
     id_accepted t.(cmd_PlayerID) ∧ id_accepted t.(cmd_CampaignID)
     ∧ id_accepted t.(cmd_RewardID) ∧ key_accepted t.(cmd_IdempotencyKey)
     ∧ p = Params t.(cmd_PlayerID) t.(cmd_CampaignID) t.(cmd_RewardID)
             (Sha256.Sum256 t.(cmd_IdempotencyKey)))
  ∧ (∀ e, prepareCreateClaim cmd = Err e → ∃ m, e = EInvalidInput m).
Proof.
  split; [|apply prepareCreateClaim_error].
  unfold prepareCreateClaim, validateCreateClaimCommand. intros p. cbv zeta.
  rewrite <-(validateClaimID_accepted "player_id"),
    <-(validateClaimID_accepted "campaign_id" (cmd_CampaignID _)),
    <-(validateClaimID_accepted "reward_id" (cmd_RewardID _)), <-validateIdempotencyKey_ok.
  repeat setoid_rewrite rbind_ok. split.
  - intros ([] & ([] & ? & [] & ? & [] & ? & ?) & [= <-]). done.
  - intros (? & ? & ? & ? & ->). eauto 10.
Qed.

(** An accepted command never violates a constraint of the schema: its texts
    are storable and its rows pass the CHECKs of [reward_claims] and, as a fresh
    reservation, of [reward_claim_idempotency_keys]. *)
Theorem prepareCreateClaim_columns cmd p id now
    (H : prepareCreateClaim cmd = Ok p) :
  Schema.text_ok p.(p_PlayerID) && Schema.text_ok p.(p_CampaignID)
    && Schema.text_ok p.(p_RewardID) = true
  ∧ Schema.claim_check
      (Schema.ClaimRow id p.(p_PlayerID) p.(p_CampaignID) p.(p_RewardID) now) = true
  ∧ Schema.idem_check
      (Schema.IdemRow p.(p_KeyHash) p.(p_PlayerID) p.(p_CampaignID) p.(p_RewardID)
         None None None now) = true.
Proof.
  apply prepareCreateClaim_params in H as [Hv Hk].
  destruct (Hv p.(p_PlayerID)) as [-> Hp]; [set_solver|].
  destruct (Hv p.(p_CampaignID)) as [-> Hc]; [set_solver|].
  destruct (Hv p.(p_RewardID)) as [-> Hr]; [set_solver|].
  unfold Schema.claim_check, Schema.idem_check. simpl. by rewrite Hp, Hc, Hr, Hk.
Qed.

Definition sample_command : CreateClaimCommand :=
  Command " player-123 " "winter-2026" "daily-login" " key-1 ".

Lemma prepareCreateClaim_columns_witness :
  ∃ p, prepareCreateClaim sample_command = Ok p
  ∧ Schema.claim_check
      (Schema.ClaimRow "id" p.(p_PlayerID) p.(p_CampaignID) p.(p_RewardID) 5) = true.
Proof.
  eexists. split; [vm_compute; reflexivity|].
  apply (prepareCreateClaim_columns sample_command _ "id" 5). vm_compute. reflexivity.
Defined.

(** Normalisation happens once: preparing an already trimmed command gives
    the same parameters, so surrounding white space changes neither the identity
    of a request nor the hash of its key. *)
Theorem prepareCreateClaim_normalised cmd :
  prepareCreateClaim (trim_command cmd) = prepareCreateClaim cmd.
Proof.
  unfold prepareCreateClaim. f_equal; unfold trim_command; simpl; by rewrite !TrimSpace_idem.
Qed.

(** C26: whatever sixteen random bytes are drawn, the identifier is a canonical
    lower-case UUID of version 4 and RFC 4122 variant, and two draws collide only
    when their 122 random bits agree. *)
Theorem newUUIDV4_spec b (H : bytes16 b) :
  canonical_uuid (newUUIDV4 b) = true
  ∧ String.get 14 (newUUIDV4 b) = Some (chr 52)
  ∧ (∃ v, String.get 19 (newUUIDV4 b) = Some v ∧ v ∈ [chr 56; chr 57; chr 97; chr 98])
  ∧ (∀ b', bytes16 b' → newUUIDV4 b = newUUIDV4 b' → uuid_version b = uuid_version b').
Proof.
  split_and!; [by apply newUUIDV4_canonical|..|intros; by apply newUUIDV4_inj];
    destruct H as [Hl Hb]; destruct_bytes16 b; rewrite !Forall_cons in Hb.
  - transitivity (Some (hex_digit (Z.shiftr (Z.lor (Z.land x6 0x0f) 0x40) 4))); [done|].
    assert (0 ≤ x6 < 256) as Hx by naive_solver. f_equal.
    apply (bool_decide_eq_true _). clear Hb Hl. revert x6 Hx. by apply by_enumeration.
  - exists (hex_digit (Z.shiftr (Z.lor (Z.land x8 0x3f) 0x80) 4)). split; [done|].
    assert (0 ≤ x8 < 256) as Hx by naive_solver.
    apply (bool_decide_eq_true _). clear Hb Hl. revert x8 Hx. by apply by_enumeration.
Qed.

Lemma newUUIDV4_spec_witness :
  newUUIDV4 (seqZ 0xf0 16) = "f0f1f2f3-f4f5-46f7-b8f9-fafbfcfdfeff"%string
  ∧ canonical_uuid (newUUIDV4 (seqZ 0xf0 16)) = true.
Proof.
  split; [vm_compute; reflexivity|].
  apply newUUIDV4_spec. split; [reflexivity|].
  apply Forall_forall. intros x. rewrite elem_of_seqZ. lia.
Defined.

End Rewards.
