(* ===== verification/RewardsTx.v ===== *)
(** * The reward-claim transaction (internal/rewards/postgres.go)

    [createClaim] as a program over the statements it sends to PostgreSQL.  The
    program is a tree of statements and continuations, so that the same text can
    be run alone ([run]) or interleaved with other transactions (RewardsSys).

    The statements' effects are those of their SQL text on the rows visible to
    the transaction; a statement may also fail with any error the driver
    reports, and a failed commit may or may not have taken effect. *)
From S2P Require Import Prelude.
From S2P Require Import GoErrors.
From S2P Require Import Prog.
From S2P Require Import GoStrings.
From S2P Require Import GoJson.
From S2P Require Import Schema.
From S2P Require Import Availability.
From S2P Require Import Rewards.
Local Open Scope Z_scope.

Module RewardsTx.
Import Schema Rewards.

(** ** Statements *)

(** An error of the driver, with the state of the query context at the moment
    [mapPostgresError] looks at it. *)
Record fail := Fail { fail_ctx : ctx_state; fail_err : goerr }.

Inductive stmt :=
| SRand                                       (* rand.Read, in newUUIDV4 *)
| SBegin
| SCommit
| SRollback
| SReserve (p : createClaimParams)
| SLoad (key_hash : string)
| SInsertClaim (id : string) (p : createClaimParams)
| SInsertOutbox (id aggregate_type aggregate_id event_type payload : string)
| SComplete (p : createClaimParams) (status : Z) (body claim_id : string).

(** The columns of the replay query. *)
Record idem_view := IdemView {
  v_player_id : string;
  v_campaign_id : string;
  v_reward_id : string;
  v_response_status : option Z;
  v_response_body : option string
}.

(** What the program gets back: rows affected, a scanned row, or an error. *)
Definition resp (s : stmt) : Type :=
  match s with
  | SRand => list Z
  | SBegin | SCommit => option fail
  | SRollback => unit
  | SReserve _ => result fail Z
  | SLoad _ => result fail idem_view
  | SInsertClaim _ _ => result fail claim
  | SInsertOutbox _ _ _ _ _ => result fail Z
  | SComplete _ _ _ _ => result fail Z
  end.

(** ** Programs *)

Abbreviation prog := (Prog.prog resp).

(** [defer s.rollbackTransaction(tx)] *)
Definition defer_rollback {A} (m : prog A) : prog A :=
  pbind m (λ a, Do SRollback (λ _, Ret a)).

(** ** The code *)

Section code.
Context `{Postgres}.

Definition mapPostgresError (ctx : option ctx_state) (err : goerr) : goerr :=
  Availability.map_error "postgres reward claim operation returned no row"
    "postgres reward claim operation"
    rewards_ErrInternal rewards_ErrUnavailable rewards_errPostgresQueryTimeout ctx err.

Definition map_fail (f : fail) : goerr := mapPostgresError (Some f.(fail_ctx)) f.(fail_err).

Definition tryReserveIdempotencyKey (params : createClaimParams) : prog (result goerr bool) :=
  Do (SReserve params) (λ r,
    match r with
    | Err f => Ret (Err (map_fail f))
    | Ok rows_affected => Ret (Ok (rows_affected =? 1))
    end).

(** The checks on a loaded row, in the code's order. *)
Definition check_stored (params : createClaimParams) (v : idem_view)
  : result goerr CreateClaimResult :=
  match v.(v_response_status), v.(v_response_body) with
  | Some statusCode, Some responseBody =>
      if len responseBody =? 0 then
        Err (EWrap "committed idempotency key missing stored response" (ESentinel rewards_ErrInternal))
      else if negb (bool_decide (v.(v_player_id) = params.(p_PlayerID)))
              || negb (bool_decide (v.(v_campaign_id) = params.(p_CampaignID)))
              || negb (bool_decide (v.(v_reward_id) = params.(p_RewardID)))
      then Err (ESentinel rewards_ErrIdempotencyKeyReused)
      else if negb (statusCode =? createClaimStatusCreated)
              && negb (statusCode =? createClaimStatusConflict)
      then Err (EWrap ("unexpected stored reward claim response status " ++ strconv_Itoa statusCode)
                  (ESentinel rewards_ErrInternal))
      else if negb (utf8_ValidString responseBody) || negb (json_Valid responseBody)
      then Err (EWrap "invalid stored reward claim response body" (ESentinel rewards_ErrInternal))
      else Ok (Result statusCode responseBody true)
  | _, _ =>
      Err (EWrap "committed idempotency key missing stored response" (ESentinel rewards_ErrInternal))
  end.

(** [None]: the key's row was not found. *)
Definition tryLoadIdempotentClaimResult (params : createClaimParams)
  : prog (result goerr (option CreateClaimResult)) :=
  Do (SLoad params.(p_KeyHash)) (λ r,
    match r with
    | Err f =>
        if errors_Is f.(fail_err) pgx_ErrNoRows then Ret (Ok None)
        else Ret (Err (map_fail f))
    | Ok v =>
        match check_stored params v with
        | Err e => Ret (Err e)
        | Ok result => Ret (Ok (Some result))
        end
    end).

(** [None]: a claim with the same player, campaign and reward exists. *)
Definition tryInsertClaim (params : createClaimParams) : prog (result goerr (option claim)) :=
  Do SRand (λ b, Do (SInsertClaim (newUUIDV4 b) params) (λ r,
    match r with
    | Err f =>
        if errors_Is f.(fail_err) pgx_ErrNoRows then Ret (Ok None)
        else Ret (Err (map_fail f))
    | Ok created => Ret (Ok (Some created))
    end)).

Definition completeIdempotencyKey (params : createClaimParams) (statusCode : Z)
    (responseBody claimID : string) : prog (result goerr unit) :=
  Do (SComplete params statusCode responseBody claimID) (λ r,
    match r with
    | Err f => Ret (Err (map_fail f))
    | Ok rows_affected =>
        if negb (rows_affected =? 1) then
          Ret (Err (EWrap ("complete idempotency key affected " ++ strconv_Itoa rows_affected ++ " rows")
                 (ESentinel rewards_ErrInternal)))
        else Ret (Ok tt)
    end).

Definition insertRewardClaimedOutboxEvent (c : claim) : prog (result goerr unit) :=
  Do SRand (λ b,
    let eventID := newUUIDV4 b in
    match marshalRewardClaimedEvent (newRewardClaimedEvent eventID c) with
    | None =>
        Ret (Err (EWrap "marshal reward claimed outbox payload" (ESentinel rewards_ErrInternal)))
    | Some payload =>
        Do (SInsertOutbox eventID outboxAggregateTypeRewardClaim c.(ID)
              outboxEventTypeRewardClaimed payload) (λ r,
          match r with
          | Err f => Ret (Err (map_fail f))
          | Ok _ => Ret (Ok tt)
          end)
    end).

Definition completeCreatedClaim (params : createClaimParams) (c : claim)
  : prog (result goerr CreateClaimResult) :=
  do! body := Ret (marshalCreatedClaimResponse c) in
  do! _ := insertRewardClaimedOutboxEvent c in
  do! _ := completeIdempotencyKey params createClaimStatusCreated body c.(ID) in
  Ret (Ok (Result createClaimStatusCreated body false)).

Definition completeDuplicateClaim (params : createClaimParams)
  : prog (result goerr CreateClaimResult) :=
  do! body := Ret marshalDuplicateClaimResponse in
  do! _ := completeIdempotencyKey params createClaimStatusConflict body "" in
  Ret (Ok (Result createClaimStatusConflict body false)).

(** [if err := tx.Commit(queryCtx); err != nil { ... }; return result, nil] *)
Definition commit_and_return {A} (a : A) : prog (result goerr A) :=
  Do SCommit (λ e,
    match e with
    | Some f => Ret (Err (map_fail f))
    | None => Ret (Ok a)
    end).

(** The [for] loop: [None] when it is left by [break], [Some result] when the
    function returns from inside it. *)
Fixpoint reserve_loop (fuel : nat) (params : createClaimParams)
  : prog (result goerr (option CreateClaimResult)) :=
  match fuel with
  | O => OutOfFuel
  | S fuel =>
      do! reserved := tryReserveIdempotencyKey params in
      if (reserved : bool) then Ret (Ok None)
      else
        do! found := tryLoadIdempotentClaimResult params in
        match found with
        | None => reserve_loop fuel params
        | Some result => commit_and_return (Some result)
        end
  end.

(** Everything after the deferred rollback is registered. *)
Definition createClaim_body (fuel : nat) (params : createClaimParams)
  : prog (result goerr CreateClaimResult) :=
  do! returned := reserve_loop fuel params in
  match returned with
  | Some result => Ret (Ok result)
  | None =>
      do! inserted := tryInsertClaim params in
      match inserted with
      | None =>
          do! result := completeDuplicateClaim params in
          commit_and_return result
      | Some created =>
          do! result := completeCreatedClaim params created in
          commit_and_return result
      end
  end.

Definition createClaim (fuel : nat) (params : createClaimParams)
  : prog (result goerr CreateClaimResult) :=
  Do SBegin (λ e,
    match e with
    | Some f => Ret (Err (map_fail f))
    | None => defer_rollback (createClaim_body fuel params)
    end).

(** service.go: [CreateClaim] *)
Definition CreateClaim (fuel : nat) (cmd : CreateClaimCommand)
  : prog (result goerr CreateClaimResult) :=
  match prepareCreateClaim cmd with
  | Err e => Ret (Err e)
  | Ok params =>
      pbind (createClaim fuel params) (λ r,
        match r with
        | Err e => Ret (Err (EWrap "create reward claim" e))
        | Ok result => Ret (Ok result)
        end)
  end.
End code.

End RewardsTx.
