(* ===== verification/RewardsSql.v ===== *)
(** * What the statements of a reward-claim transaction do

    The SQL texts of internal/rewards/postgres.go on the rows a READ COMMITTED
    transaction sees (the committed ones, overlaid with its own), with the
    constraints of the schema, and the execution of a whole program against a
    sequence of environment choices. *)
From S2P Require Import Prelude.
From S2P Require Import GoErrors.
From S2P Require Import Prog.
From S2P Require Import GoStrings.
From S2P Require Import GoJson.
From S2P Require Import Schema.
From S2P Require Import Availability.
From S2P Require Import Rewards.
From S2P Require Import RewardsTx.
Local Open Scope Z_scope.

Module RewardsSql.
Import Schema Rewards RewardsTx.

(** ** The state of one transaction *)

Inductive tx_status := TxIdle | TxOpen | TxCommitted | TxAborted.
#[export] Instance tx_status_eq_dec : EqDecision tx_status.
Proof. solve_decision. Defined.

Record local := Local {
  l_status : tx_status;
  l_writes : db;       (* rows written and not yet committed; kept after the commit *)
  l_now : Z;           (* now(): the time the transaction started *)
  l_lost : bool        (* the commit was applied but reported as failed *)
}.

Definition init_local : local := Local TxIdle empty_db 0 false.
Definition begun (now : Z) : local := Local TxOpen empty_db now false.
Definition committed (lost : bool) (l : local) : local :=
  Local TxCommitted l.(l_writes) l.(l_now) lost.
Definition set_writes (w : db) (l : local) : local := Local l.(l_status) w l.(l_now) l.(l_lost).
Definition abort (l : local) : local := Local TxAborted empty_db l.(l_now) false.

(** What the environment decides when a statement runs: the clock, the random
    bytes, the state of the query context, and a failure of the call, with
    whether a failed commit was nevertheless applied. *)
Record choice := Choice {
  ch_now : Z;
  ch_rand : list Z;
  ch_ctx : ctx_state;
  ch_fault : option (fail * bool)
}.

Definition pg_fail (ch : choice) (sqlstate : string) : fail :=
  Fail ch.(ch_ctx) (EForeign (pg_error sqlstate) []).
Definition no_rows (ch : choice) : fail := Fail ch.(ch_ctx) (ESentinel pgx_ErrNoRows).
Definition tx_closed (ch : choice) : fail := Fail ch.(ch_ctx) (ENew "tx is closed").

(** ** The SQL texts

    Each returns its result and the transaction's writes, or the SQLSTATE of
    the error it raises: 22021 for a text PostgreSQL cannot store, 22P02 for a
    malformed uuid or jsonb value, 23514 for a CHECK, 23505 for a UNIQUE or
    PRIMARY KEY constraint, 23503 for the foreign key. *)

Definition add_idem (r : idem_row) (w : db) : db :=
  DB w.(claims) (<[r.(i_key_hash) := r]> w.(idem)) w.(outbox).
Definition add_claim (r : claim_row) (w : db) : db :=
  DB (<[r.(c_id) := r]> w.(claims)) w.(idem) w.(outbox).
Definition add_outbox (r : outbox_row) (w : db) : db :=
  DB w.(claims) w.(idem) (<[r.(o_id) := r]> w.(outbox)).

Definition triple_of (p : createClaimParams) : string * string * string :=
  (p.(p_PlayerID), p.(p_CampaignID), p.(p_RewardID)).

Definition triple_text_ok (p : createClaimParams) : bool :=
  text_ok p.(p_PlayerID) && text_ok p.(p_CampaignID) && text_ok p.(p_RewardID).

(** A row of a table satisfies [P]. *)
Definition any_row {A} (P : A → bool) (m : gmap string A) : bool :=
  existsb (λ kv, P kv.2) (map_to_list m).

Lemma any_row_true {A} (P : A → bool) (m : gmap string A) :
  any_row P m = true ↔ ∃ k v, m !! k = Some v ∧ P v = true.
Proof.
  unfold any_row. rewrite existsb_exists. split.
  - intros ([k v] & Hin & HP). apply list_elem_of_In, elem_of_map_to_list in Hin. eauto.
  - intros (k & v & Hk & HP). exists (k, v). split; [|done].
    by apply list_elem_of_In, elem_of_map_to_list.
Qed.

Definition reserved_row (p : createClaimParams) (now : Z) : idem_row :=
  IdemRow p.(p_KeyHash) p.(p_PlayerID) p.(p_CampaignID) p.(p_RewardID) None None None now.

(** INSERT INTO reward_claim_idempotency_keys ... ON CONFLICT (key_hash) DO NOTHING *)
Definition sql_reserve (vis w : db) (now : Z) (p : createClaimParams) : result string (Z * db) :=
  let row := reserved_row p now in
  if negb (triple_text_ok p) then Err "22021"%string
  else if negb (idem_check row) then Err "23514"%string
  else match vis.(idem) !! p.(p_KeyHash) with
       | Some _ => Ok (0, w)
       | None => Ok (1, add_idem row w)
       end.

(** SELECT ... FROM reward_claim_idempotency_keys WHERE key_hash = $1 *)
Definition sql_load (vis : db) (key_hash : string) : option idem_view :=
  (λ r, IdemView r.(i_player_id) r.(i_campaign_id) r.(i_reward_id)
          r.(i_response_status) r.(i_response_body)) <$> vis.(idem) !! key_hash.

Definition claim_of (r : claim_row) : claim :=
  Claim r.(c_id) r.(c_player_id) r.(c_campaign_id) r.(c_reward_id) r.(c_created_at).

Section sql.
Context `{Postgres}.

(** INSERT INTO reward_claims ... ON CONFLICT (player_id, campaign_id, reward_id)
    DO NOTHING RETURNING ... *)
Definition sql_insert_claim (vis w : db) (now : Z) (id : string) (p : createClaimParams)
  : result string (option claim * db) :=
  if negb (triple_text_ok p) then Err "22021"%string
  else match uuid_in id with
       | None => Err "22P02"%string
       | Some id =>
           let row := ClaimRow id p.(p_PlayerID) p.(p_CampaignID) p.(p_RewardID) now in
           if negb (claim_check row) then Err "23514"%string
           else if any_row (λ r, bool_decide (claim_triple r = triple_of p)) vis.(claims)
           then Ok (None, w)
           else match vis.(claims) !! id with
                | Some _ => Err "23505"%string
                | None => Ok (Some (claim_of row), add_claim row w)
                end
       end.

(** INSERT INTO outbox_events (id, aggregate_type, aggregate_id, event_type, payload) *)
Definition sql_insert_outbox (vis w : db) (now : Z)
    (id aggregate_type aggregate_id event_type payload : string) : result string (Z * db) :=
  match uuid_in id, uuid_in aggregate_id, jsonb_in payload with
  | Some id, Some aggregate_id, Some payload =>
      let row := new_outbox_row id aggregate_type aggregate_id event_type payload now in
      if negb (text_ok aggregate_type && text_ok event_type) then Err "22021"%string
      else if negb (outbox_check row) then Err "23514"%string
      else if any_row (λ r, bool_decide (r.(o_aggregate_type) = aggregate_type)
                            && bool_decide (r.(o_aggregate_id) = aggregate_id)
                            && bool_decide (r.(o_event_type) = event_type)) vis.(outbox)
      then Err "23505"%string
      else match vis.(outbox) !! id with
           | Some _ => Err "23505"%string
           | None => Ok (1, add_outbox row w)
           end
  | _, _, _ => Err "22P02"%string
  end.

(** NULLIF($4, '')::uuid: [None] is an error, [Some None] is NULL. *)
Definition nullif_uuid (s : string) : option (option string) :=
  if bool_decide (s = "")%string then Some None else Some <$> uuid_in s.

(** UPDATE reward_claim_idempotency_keys SET ... WHERE ... *)
Definition sql_complete (vis w : db) (p : createClaimParams) (status : Z)
    (body claim_id : string) : result string (Z * db) :=
  match nullif_uuid claim_id with
  | None => Err "22P02"%string
  | Some claim_id =>
      match vis.(idem) !! p.(p_KeyHash) with
      | Some r =>
          if bool_decide (idem_triple r = triple_of p)
             && bool_decide (r.(i_response_status) = None)
             && bool_decide (r.(i_response_body) = None)
             && bool_decide (r.(i_reward_claim_id) = None)
          then
            let row := IdemRow p.(p_KeyHash) r.(i_player_id) r.(i_campaign_id) r.(i_reward_id)
                         (Some status) (Some body) claim_id r.(i_created_at) in
            if negb (idem_check row) then Err "23514"%string
            else match claim_id with
                 | Some id => if is_some (vis.(claims) !! id) then Ok (1, add_idem row w)
                              else Err "23503"%string
                 | None => Ok (1, add_idem row w)
                 end
          else Ok (0, w)
      | None => Ok (0, w)
      end
  end.

(** ** Executing a statement *)

(** Inside an open transaction: a failure aborts it. *)
Definition in_tx {A} (ch : choice) (l : local) (sem : result string (A * db))
  : local * result fail A :=
  match l.(l_status) with
  | TxOpen =>
      match ch.(ch_fault) with
      | Some (f, _) => (abort l, Err f)
      | None =>
          match sem with
          | Err sqlstate => (abort l, Err (pg_fail ch sqlstate))
          | Ok (a, w) => (set_writes w l, Ok a)
          end
      end
  | _ => (l, Err (tx_closed ch))
  end.

(** [Row.Scan] of a query that may return no row. *)
Definition scan_row {A} (ch : choice) (r : local * result fail (option A))
  : local * result fail A :=
  match r with
  | (l, Ok (Some a)) => (l, Ok a)
  | (l, Ok None) => (l, Err (no_rows ch))
  | (l, Err f) => (l, Err f)
  end.

Definition exec_commit (ch : choice) (c : db) (l : local) : db * local * option fail :=
  match l.(l_status) with
  | TxOpen =>
      match ch.(ch_fault) with
      | Some (f, true) => (overlay l.(l_writes) c, committed true l, Some f)
      | Some (f, false) => (c, abort l, Some f)
      | None => (overlay l.(l_writes) c, committed false l, None)
      end
  | _ => (c, l, Some (tx_closed ch))
  end.

Definition exec (ch : choice) (c : db) (l : local) (s : stmt) : db * local * resp s :=
  let w := l.(l_writes) in
  let vis := overlay w c in
  match s with
  | SRand => (c, l, ch.(ch_rand))
  | SBegin =>
      match l.(l_status), ch.(ch_fault) with
      | TxIdle, None => (c, begun ch.(ch_now), None)
      | TxIdle, Some (f, _) => (c, l, Some f)
      | _, _ => (c, l, Some (tx_closed ch))       (* begun once *)
      end
  | SCommit => exec_commit ch c l
  | SRollback => (c, match l.(l_status) with TxOpen => abort l | _ => l end, tt)
  | SReserve p =>
      let '(l, r) := in_tx ch l (sql_reserve vis w l.(l_now) p) in (c, l, r)
  | SLoad h =>
      let '(l, r) := scan_row ch (in_tx ch l (Ok (sql_load vis h, w))) in (c, l, r)
  | SInsertClaim id p =>
      let '(l, r) := scan_row ch (in_tx ch l (sql_insert_claim vis w l.(l_now) id p)) in (c, l, r)
  | SInsertOutbox id at_ ai et pl =>
      let '(l, r) := in_tx ch l (sql_insert_outbox vis w l.(l_now) id at_ ai et pl) in (c, l, r)
  | SComplete p st body id =>
      let '(l, r) := in_tx ch l (sql_complete vis w p st body id) in (c, l, r)
  end.

(** ** Running a program alone

    [None]: the choices or the program's fuel ran out. *)
Fixpoint run {A} (chs : list choice) (c : db) (l : local) (m : prog A) {struct m}
  : option (db * local * A) :=
  match m with
  | Ret a => Some (c, l, a)
  | OutOfFuel => None
  | Do s k =>
      match chs with
      | [] => None
      | ch :: chs => let '(c, l, r) := exec ch c l s in run chs c l (k r)
      end
  end.
End sql.

End RewardsSql.
