(* ===== verification/RewardsDemo.v ===== *)
(** * A concrete request

    The request and the random bytes at which the theorems about the reward-claim
    transaction are instantiated. *)
From S2P Require Import Prelude.
From S2P Require Import GoErrors.
From S2P Require Import Prog.
From S2P Require Import GoStrings.
From S2P Require Import GoJson.
From S2P Require Import Schema.
From S2P Require Import Availability.
From S2P Require Import Rewards.
From S2P Require Import RewardsTx.
From S2P Require Import RewardsSql.
From S2P Require Export Demo.
Local Open Scope Z_scope.

Module RewardsDemo.
Import Schema Rewards RewardsTx RewardsSql.
Export Demo.

Definition demo_bytes1 : list Z := seqZ 0x10 16.
Definition demo_bytes2 : list Z := seqZ 0xa0 16.

(** Another player, the same key. *)
Definition other_command : CreateClaimCommand :=
  Command "player-456" "winter-2026" "daily-login" "key-1".

Definition params_of (cmd : CreateClaimCommand) : createClaimParams :=
  match prepareCreateClaim cmd with Ok p => p | Err _ => Params "" "" "" "" end.

Lemma bytes16_seqZ x : 0 ≤ x ≤ 240 → bytes16 (seqZ x 16).
Proof.
  intros Hx. split; [by rewrite length_seqZ|].
  apply Forall_forall. intros y. rewrite elem_of_seqZ. lia.
Qed.

(** A failure that is neither an empty result nor a context error. *)
Definition demo_fail : fail := Fail CtxLive (EForeign (pg_error "08006") []).

End RewardsDemo.
