(* ===== verification/RewardsInv.v ===== *)
(** * The invariant of the reward tables and the logic of the transaction

    [db_inv] is what every committed state satisfies.  [safe] is a weakest
    precondition for transaction programs: at every statement the committed
    state may have been changed by others, as far as the invariant and the
    transaction's own locks allow ([env_ok]); the only change the program itself
    makes to the committed state is one of the two commits of [commit_shape]. *)
From S2P Require Import Prelude.
From S2P Require Import GoErrors.
From S2P Require Import Prog.
From S2P Require Import GoStrings.
From S2P Require Import GoJson.
From S2P Require Import Schema.
From S2P Require Import Availability.
From S2P Require Import Rewards.
From S2P Require Import RewardsTx.
From S2P Require Import RewardsSql.
Local Open Scope Z_scope.

Module RewardsInv.
Import Schema Rewards RewardsTx RewardsSql.

(** ** Stored bodies *)

Definition created_body (r : claim_row) : string := json_Marshal (createClaimResponse (claim_of r)).
Definition duplicate_body : string :=
  json_Marshal (errorResponse duplicateClaimErrorCode duplicateClaimErrorMessage).

Lemma created_body_ok r :
  utf8_ValidString (created_body r) = true ∧ json_Valid (created_body r) = true
  ∧ 0 < len (created_body r).
Proof.
  unfold created_body, createClaimResponse.
  split_and!; [apply utf8_ValidString_string_object|apply json_Valid_string_object|].
  unfold json_Marshal, len. rewrite marshal_string_object. simpl. lia.
Qed.

Lemma duplicate_body_ok :
  utf8_ValidString duplicate_body = true ∧ json_Valid duplicate_body = true
  ∧ 0 < len duplicate_body.
Proof. vm_compute. auto. Qed.

(** ** The invariant *)

Section inv.
Context `{Postgres}.

(** The outbox row of the event a claim was committed with. *)
Definition event_for (o : outbox_row) (r : claim_row) : Prop :=
  o.(o_aggregate_type) = outboxAggregateTypeRewardClaim
  ∧ o.(o_aggregate_id) = r.(c_id)
  ∧ o.(o_event_type) = outboxEventTypeRewardClaimed
  ∧ ∃ payload,
      marshalRewardClaimedEvent (newRewardClaimedEvent o.(o_id) (claim_of r)) = Some payload
      ∧ jsonb_in payload = Some o.(o_payload).

(** A stored response is the one the stored claim determines. *)
Definition stored_ok (cs : gmap string claim_row) (i : idem_row) : Prop :=
  ∃ r, cs !! r.(c_id) = Some r ∧ claim_triple r = idem_triple i ∧
    ((i.(i_response_status) = Some 201 ∧ i.(i_response_body) = Some (created_body r)
      ∧ i.(i_reward_claim_id) = Some r.(c_id))
     ∨ (i.(i_response_status) = Some 409 ∧ i.(i_response_body) = Some duplicate_body
        ∧ i.(i_reward_claim_id) = None)).

(** [archive] holds, by claim, the outbox rows retention has removed. *)
Record db_inv (c : db) (archive : gmap string outbox_row) : Prop := {
  inv_claim_key id r : c.(claims) !! id = Some r → r.(c_id) = id ∧ claim_check r = true;
  inv_unique id1 id2 r1 r2 :
    c.(claims) !! id1 = Some r1 → c.(claims) !! id2 = Some r2 →
    claim_triple r1 = claim_triple r2 → id1 = id2;
  inv_idem h i : c.(idem) !! h = Some i → i.(i_key_hash) = h ∧ stored_ok c.(claims) i;
  inv_event id r : c.(claims) !! id = Some r →
    ∃ o, event_for o r ∧ (c.(outbox) !! o.(o_id) = Some o ∨ archive !! id = Some o);
  inv_outbox e o : c.(outbox) !! e = Some o →
    o.(o_id) = e ∧ archive !! o.(o_aggregate_id) = None
    ∧ ∃ r, c.(claims) !! o.(o_aggregate_id) = Some r ∧ event_for o r;
  inv_archive id o : archive !! id = Some o →
    ∃ r, c.(claims) !! id = Some r ∧ event_for o r;
  inv_one_event e1 e2 o1 o2 :
    c.(outbox) !! e1 = Some o1 → c.(outbox) !! e2 = Some o2 →
    o1.(o_aggregate_id) = o2.(o_aggregate_id) → e1 = e2
}.

Lemma empty_inv : db_inv empty_db ∅.
Proof. split; simpl; intros; simplify_map_eq. Qed.

(** ** The two commits *)

Definition completed_row (p : createClaimParams) (now status : Z) (body : string)
    (id : option string) : idem_row :=
  IdemRow p.(p_KeyHash) p.(p_PlayerID) p.(p_CampaignID) p.(p_RewardID)
    (Some status) (Some body) id now.

(** A new claim with its response and its event: three rows, all fresh. *)
Definition created_shape (p : createClaimParams) (cr : claim_row) (c c' : db) : Prop :=
  ∃ o now payload,
    claim_triple cr = triple_of p ∧ claim_check cr = true
    ∧ c.(claims) !! cr.(c_id) = None
    ∧ (∀ id r, c.(claims) !! id = Some r → claim_triple r ≠ triple_of p)
    ∧ c.(idem) !! p.(p_KeyHash) = None ∧ c.(outbox) !! o.(o_id) = None
    ∧ event_for o cr
    ∧ o = new_outbox_row o.(o_id) o.(o_aggregate_type) o.(o_aggregate_id) o.(o_event_type)
            payload now
    ∧ c' = DB (<[cr.(c_id) := cr]> c.(claims))
             (<[p.(p_KeyHash) :=
                 completed_row p now 201 (created_body cr) (Some cr.(c_id))]> c.(idem))
             (<[o.(o_id) := o]> c.(outbox)).

(** A duplicate: only the response, justified by the claim that exists. *)
Definition duplicate_shape (p : createClaimParams) (c c' : db) : Prop :=
  ∃ r now,
    c.(claims) !! r.(c_id) = Some r ∧ claim_triple r = triple_of p
    ∧ c.(idem) !! p.(p_KeyHash) = None
    ∧ c' = DB c.(claims)
             (<[p.(p_KeyHash) := completed_row p now 409 duplicate_body None]> c.(idem))
             c.(outbox).

Definition commit_shape (p : createClaimParams) (c c' : db) : Prop :=
  (∃ cr, created_shape p cr c c') ∨ duplicate_shape p c c'.

Lemma stored_ok_insert cs r i :
  cs !! r.(c_id) = None → stored_ok cs i → stored_ok (<[r.(c_id) := r]> cs) i.
Proof.
  intros Hfresh (r' & Hr' & Ht & Hs). exists r'. split; [|done].
  rewrite lookup_insert_ne; [done|]. congruence.
Qed.

Lemma duplicate_inv p c c' a : db_inv c a → duplicate_shape p c c' → db_inv c' a.
Proof.
  intros HI (r & now & Hr & Ht & Hk & ->). destruct HI. split; simpl; eauto.
  intros h i [[<- <-]|[Hne Hi]]%lookup_insert_Some; [|eauto].
  split; [done|]. exists r. eauto 10.
Qed.

Lemma created_inv p cr c c' a : db_inv c a → created_shape p cr c c' → db_inv c' a.
Proof.
  intros HI (o & now & payload & Ht & Hck & Hid & Hfree & Hk & Ho & Hev & Hnew & ->).
  pose proof Hev as (_ & Hagg & _).
  assert (Hnoev : ∀ e o', c.(outbox) !! e = Some o' → o'.(o_aggregate_id) ≠ cr.(c_id)).
  { intros e o' (_ & _ & r & Hr & _)%(inv_outbox _ _ HI) Heq. congruence. }
  assert (Hnoar : a !! cr.(c_id) = None).
  { apply eq_None_not_Some. intros [o' (r & Hr & _)%(inv_archive _ _ HI)]. congruence. }
  destruct HI as [Hkey Huniq Hidem Hevent Hout Harch Hone]. split; simpl.
  - intros id r [[<- <-]|[Hne Hr]]%lookup_insert_Some; eauto.
  - intros id1 id2 r1 r2 [[<- <-]|[Hne1 Hr1]]%lookup_insert_Some
      [[<- <-]|[Hne2 Hr2]]%lookup_insert_Some Heq; eauto.
    + exfalso. eapply Hfree; [exact Hr2|congruence].
    + exfalso. eapply Hfree; [exact Hr1|congruence].
  - intros h i [[<- <-]|[Hne Hi]]%lookup_insert_Some.
    + split; [done|]. exists cr. rewrite lookup_insert_eq. eauto 10.
    + destruct (Hidem h i Hi). split; [done|]. by apply stored_ok_insert.
  - intros id r [[<- <-]|[Hne Hr]]%lookup_insert_Some.
    + exists o. split; [done|]. left. apply lookup_insert_eq.
    + destruct (Hevent id r Hr) as (o' & Ho' & [Hin|Hin]); exists o'; (split; [done|]); [left|by right].
      rewrite lookup_insert_ne; [done|]. congruence.
  - intros e o' [[<- <-]|[Hne Hin]]%lookup_insert_Some.
    + split; [done|]. rewrite Hagg. split; [done|]. exists cr.
      by rewrite lookup_insert_eq.
    + destruct (Hout e o' Hin) as (? & ? & r & Hr & ?). split_and!; [done..|].
      exists r. split; [|done]. rewrite lookup_insert_ne; [done|]. congruence.
  - intros id o' (r & Hr & ?)%Harch. exists r. split; [|done].
    rewrite lookup_insert_ne; [done|]. congruence.
  - intros e1 e2 o1 o2 [[<- <-]|[Hne1 Ho1]]%lookup_insert_Some
      [[<- <-]|[Hne2 Ho2]]%lookup_insert_Some Heq; eauto.
    + exfalso. eapply Hnoev; [exact Ho2|congruence].
    + exfalso. eapply Hnoev; [exact Ho1|congruence].
Qed.

Lemma commit_inv p c c' a : db_inv c a → commit_shape p c c' → db_inv c' a.
Proof. intros HI [[cr Hs]|Hs]; eauto using created_inv, duplicate_inv. Qed.

Lemma commit_grows p c c' : commit_shape p c c' → c.(claims) ⊆ c'.(claims).
Proof.
  intros [(cr & o & now & pl & _ & _ & Hid & _ & _ & _ & _ & _ & ->)|(r & now & _ & _ & _ & ->)];
    simpl; [by apply insert_subseteq|done].
Qed.
End inv.

End RewardsInv.
