(* ===== verification/RewardsLogic.v ===== *)
(** * A program logic for reward-claim transactions

    [safe m l m0 Φ]: whatever other transactions commit between its statements
    and whichever calls fail, the program [m] run by a transaction in state [l]
    changes the committed state only by a commit of [commit_shape], sends only
    statements PostgreSQL answers as [tolerated] says, and ends in [Φ].  [m0] is what the transaction has learnt of the committed state: the
    claims, which are never deleted, and the idempotency rows it has seen, which
    retention may have deleted since. *)
From S2P Require Import Prelude.
From S2P Require Import GoErrors.
From S2P Require Import Prog.
From S2P Require Import GoStrings.
From S2P Require Import GoJson.
From S2P Require Import Schema.
From S2P Require Import Availability.
From S2P Require Import Rewards.
From S2P Require Import RewardsTx.
From S2P Require Import RewardsSql.
From S2P Require Import RewardsInv.
Local Open Scope Z_scope.

Module RewardsLogic.
Import Schema Rewards RewardsTx RewardsSql RewardsInv.

(** ** What the environment guarantees *)

(** The driver reports [pgx.ErrNoRows] only for a query without rows. *)
Definition choice_ok (ch : choice) : Prop :=
  bytes16 ch.(ch_rand) ∧
  ∀ f b, ch.(ch_fault) = Some (f, b) → errors_Is f.(fail_err) pgx_ErrNoRows = false.

(** The rows an open transaction has written are not in the committed state:
    the unique indexes make a conflicting writer wait for its end. *)
Record compat (c : db) (l : local) : Prop := {
  compat_idem h : is_Some (l.(l_writes).(idem) !! h) → c.(idem) !! h = None;
  compat_claim id r : l.(l_writes).(claims) !! id = Some r →
    c.(claims) !! id = None ∧
    ∀ id' r', c.(claims) !! id' = Some r' → claim_triple r' ≠ claim_triple r;
  compat_outbox e : is_Some (l.(l_writes).(outbox) !! e) → c.(outbox) !! e = None
}.

(** ** Refused statements *)

Definition err_of {E A} (r : result E A) : option E :=
  match r with Err e => Some e | Ok _ => None end.

(** The error a statement is answered with. *)
Definition failure (s : stmt) : resp s → option fail :=
  match s return resp s → option fail with
  | SRand | SRollback => λ _, None
  | SBegin | SCommit => λ e, e
  | SReserve _ | SInsertOutbox _ _ _ _ _ | SComplete _ _ _ _ => err_of
  | SLoad _ => err_of
  | SInsertClaim _ _ => err_of
  end.

(** ** Knowledge *)

Record know := Know { k_claims : gmap string claim_row; k_idem : list idem_row }.

#[export] Instance know_le : SubsetEq know :=
  λ m m', m.(k_claims) ⊆ m'.(k_claims) ∧ ∀ i, i ∈ m.(k_idem) → i ∈ m'.(k_idem).

#[export] Instance know_preorder : PreOrder (⊆@{know}).
Proof.
  split.
  - intros m. by split.
  - intros m1 m2 m3 [H1 H1'] [H2 H2']. split; [by etrans|auto].
Qed.

Definition idem_rows (c : db) : list idem_row := (map_to_list c.(idem)).*2.

(** What the state [c] adds to the knowledge [m]. *)
Definition learn (c : db) (m : know) : know := Know c.(claims) (idem_rows c ++ m.(k_idem)).

Lemma elem_of_idem_rows c i : i ∈ idem_rows c ↔ ∃ h, c.(idem) !! h = Some i.
Proof.
  unfold idem_rows. rewrite list_elem_of_fmap. split.
  - intros ([h i'] & -> & Hin%elem_of_map_to_list). eauto.
  - intros [h Hh]. exists (h, i). split; [done|]. by apply elem_of_map_to_list.
Qed.

Lemma learn_le c m : m.(k_claims) ⊆ c.(claims) → m ⊆ learn c m.
Proof. intros Hm. split; [done|]. intros i Hi. simpl. apply elem_of_app. by right. Qed.

Lemma learn_idem c m h i : c.(idem) !! h = Some i → i ∈ (learn c m).(k_idem).
Proof. intros Hi. apply elem_of_app. left. apply elem_of_idem_rows. eauto. Qed.

Lemma know_claim m m' id r : m ⊆ m' → m.(k_claims) !! id = Some r → m'.(k_claims) !! id = Some r.
Proof. intros [Hc _] Hr. by eapply lookup_weaken. Qed.

Section logic.
Context `{Postgres}.

Definition env_ok (c : db) (l : local) (m0 : know) : Prop :=
  (∃ archive, db_inv c archive) ∧ m0.(k_claims) ⊆ c.(claims)
  ∧ (l.(l_status) = TxOpen → compat c l).

(** The errors PostgreSQL may answer a statement with when the call itself does not
    fail, [vis] being the rows the transaction sees: a missing row, which the code
    asks for, an identifier drawn twice, and a document [jsonb] does not take.  No
    CHECK, foreign key, text or uuid is at fault, no event is a second one for its
    claim, and the transaction is open. *)
Definition tolerated (vis : db) (s : stmt) (e : goerr) : Prop :=
  match s with
  | SLoad h => e = ESentinel pgx_ErrNoRows ∧ vis.(idem) !! h = None
  | SInsertClaim id p =>
      e = ESentinel pgx_ErrNoRows
      ∧ (∃ id' r, vis.(claims) !! id' = Some r ∧ claim_triple r = triple_of p)
      ∨ e = EForeign (pg_error "23505") [] ∧ is_Some (vis.(claims) !! id)
  | SInsertOutbox id _ _ _ payload =>
      e = EForeign (pg_error "23505") [] ∧ is_Some (vis.(outbox) !! id)
      ∨ e = EForeign (pg_error "22P02") [] ∧ jsonb_in payload = None
  | _ => False
  end.

Definition accepted (ch : choice) (vis : db) (s : stmt) (r : resp s) : Prop :=
  ch.(ch_fault) = None → ∀ f, failure s r = Some f → tolerated vis s f.(fail_err).

Context (params : createClaimParams).

Fixpoint safe {A} (m : prog A) (l : local) (m0 : know)
    (Φ : A → local → know → Prop) : Prop :=
  match m with
  | Ret a => Φ a l m0
  | OutOfFuel => True
  | Do s k =>
      ∀ c ch, env_ok c l m0 → choice_ok ch →
        let '(c', l', r) := exec ch c l s in
        (c' = c ∨ (l.(l_status) = TxOpen ∧ c' = overlay l.(l_writes) c
                   ∧ commit_shape params c c'))
        ∧ accepted ch (overlay l.(l_writes) c) s r
        ∧ safe (k r) l' (learn c' m0) Φ
  end.

Lemma safe_weaken {A} (m : prog A) l m0 (Φ Ψ : A → local → know → Prop) :
  (∀ a l m, Φ a l m → Ψ a l m) → safe m l m0 Φ → safe m l m0 Ψ.
Proof.
  intros HΦ. revert l m0. induction m as [a| |s k IH]; intros l m0; simpl; [by auto|done|].
  intros Hs c ch He Hc. specialize (Hs c ch He Hc).
  destruct (exec ch c l s) as [[c' l'] r]. destruct Hs as (? & ? & ?). eauto.
Qed.

Lemma safe_bind {A B} (m : prog A) (k : A → prog B) l m0 Φ :
  safe m l m0 (λ a l m, safe (k a) l m Φ) → safe (pbind m k) l m0 Φ.
Proof.
  revert l m0. induction m as [a| |s c IH]; intros l m0; simpl; [done|done|].
  intros Hs c0 ch He Hc. specialize (Hs c0 ch He Hc).
  destruct (exec ch c0 l s) as [[c' l'] r]. destruct Hs as (? & ? & ?). eauto.
Qed.

Lemma safe_ebind {A B} (m : prog (result goerr A)) (k : A → prog (result goerr B)) l m0 Φ :
  safe m l m0 (λ r l m, match r with
                        | Ok a => safe (k a) l m Φ
                        | Err e => Φ (Err e) l m
                        end) →
  safe (ebind m k) l m0 Φ.
Proof.
  intros Hs. apply safe_bind. eapply safe_weaken; [|exact Hs].
  by intros [a|e] l' m'.
Qed.

Lemma safe_ebind_ok {A B} (a : A) (k : A → prog (result goerr B)) l m0 Φ :
  safe (k a) l m0 Φ → safe (ebind (Ret (Ok a)) k) l m0 Φ.
Proof. done. Qed.

(** ** Errors

    The errors a transaction can end with: a mapped driver error, a reused
    key, or an event that cannot be marshalled.  None of the "invariant
    failure" errors of the code is among them. *)
Definition tx_error (e : goerr) : Prop :=
  (∃ f, e = map_fail f)
  ∨ e = ESentinel rewards_ErrIdempotencyKeyReused
  ∨ e = EWrap "marshal reward claimed outbox payload" (ESentinel rewards_ErrInternal).

(** A result that agrees with the committed claims, and is the response stored
    under the key. *)
Definition result_ok (r : CreateClaimResult) (m : know) : Prop :=
  (∃ cr, m.(k_claims) !! cr.(c_id) = Some cr ∧ claim_triple cr = triple_of params ∧
    ((r.(StatusCode) = 201 ∧ r.(ResponseBody) = created_body cr)
     ∨ (r.(StatusCode) = 409 ∧ r.(ResponseBody) = duplicate_body)))
  ∧ ∃ i, i ∈ m.(k_idem) ∧ i.(i_key_hash) = params.(p_KeyHash)
      ∧ idem_triple i = triple_of params
      ∧ i.(i_response_status) = Some r.(StatusCode)
      ∧ i.(i_response_body) = Some r.(ResponseBody).

Lemma result_ok_mono r m m' : m ⊆ m' → result_ok r m → result_ok r m'.
Proof.
  intros Hm [(cr & Hcr & Hrest) (i & Hi & Hrest')]. split.
  - exists cr. split; [by eapply know_claim|done].
  - exists i. split; [by apply Hm|done].
Qed.

(** What [Φ] must accept from a failed call, uniformly for all statements; only
    a lost acknowledgement leaves the transaction committed. *)
Definition errs {A} (Φ : result goerr A → local → know → Prop)
    (m0 : know) : Prop :=
  ∀ e l m, tx_error e → m0 ⊆ m → (l.(l_status) = TxCommitted → l.(l_lost) = true) →
    Φ (Err e) l m.

Lemma errs_fail {A} (Φ : result goerr A → local → know → Prop) m0 f l m :
  errs Φ m0 → m0 ⊆ m → l.(l_status) ≠ TxCommitted → Φ (Err (map_fail f)) l m.
Proof. intros He Hm Hl. apply He; [left; eauto|done|done]. Qed.

Lemma errs_mono {A} (Φ : result goerr A → local → know → Prop) m0 m1 :
  m0 ⊆ m1 → errs Φ m0 → errs Φ m1.
Proof. intros Hm He e l m ? ? ?. apply He; [done|by etrans|done]. Qed.

(** The fault branch of a statement inside an open transaction. *)
Ltac tx_step c ch Hc :=
  intros c ch (HI & Hm & Hcompat) Hc;
  match goal with Hopen : l_status _ = TxOpen |- _ => specialize (Hcompat Hopen) end;
  pose proof (learn_le _ _ Hm);
  unfold exec, in_tx;
  match goal with Hopen : l_status _ = TxOpen |- _ => rewrite Hopen end;
  destruct ch.(ch_fault) as [[f applied]|] eqn:Hfault.

(** A statement that leaves the committed state alone and is answered without an
    error, or whose call fails. *)
Ltac answered := intros ?? ?; simpl in *; congruence.
Ltac quiet_step := split; [by left|split; [answered|]].

Definition locked_key (l : local) : Prop :=
  l.(l_writes).(idem) !! params.(p_KeyHash) = Some (reserved_row params l.(l_now)).

Lemma reserve_checks now : params_ok params →
  triple_text_ok params = true ∧ idem_check (reserved_row params now) = true
  ∧ (∀ id, claim_check (ClaimRow id params.(p_PlayerID) params.(p_CampaignID)
                          params.(p_RewardID) now) = true)
  ∧ (∀ status body id,
       response_shape_check (completed_row params now status body id) = true →
       idem_check (completed_row params now status body id) = true).
Proof.
  intros [Hv Hk]. unfold triple_text_ok, idem_check, claim_check. simpl.
  destruct (Hv params.(p_PlayerID)) as [-> ->]; [set_solver|].
  destruct (Hv params.(p_CampaignID)) as [-> ->]; [set_solver|].
  destruct (Hv params.(p_RewardID)) as [-> ->]; [set_solver|].
  rewrite Hk. split_and!; [done..|]. by intros ??? ->.
Qed.

Lemma overlay_empty c : overlay empty_db c = c.
Proof. destruct c. unfold overlay. simpl. by rewrite !left_id_L by apply _. Qed.

(** ** The statements *)

Lemma safe_reserve l m0 Φ :
  params_ok params → l.(l_status) = TxOpen → l.(l_writes) = empty_db →
  errs Φ m0 →
  (∀ m, m0 ⊆ m → Φ (Ok true)
     (set_writes (add_idem (reserved_row params l.(l_now)) empty_db) l) m) →
  (∀ m, m0 ⊆ m → Φ (Ok false) l m) →
  safe (tryReserveIdempotencyKey params) l m0 Φ.
Proof.
  intros Hp Hopen Hw Herr Htrue Hfalse. tx_step c ch Hc.
  { quiet_step. simpl. by eapply errs_fail. }
  unfold sql_reserve. destruct (reserve_checks l.(l_now) Hp) as (-> & -> & _). cbn [negb].
  rewrite Hw, overlay_empty.
  destruct (c.(idem) !! params.(p_KeyHash)); simpl; quiet_step; [|auto].
  replace (set_writes empty_db l) with l by (destruct l; simpl in *; by subst). auto.
Qed.

Lemma check_stored_ok a c i :
  db_inv c a → c.(idem) !! params.(p_KeyHash) = Some i →
  let v := IdemView i.(i_player_id) i.(i_campaign_id) i.(i_reward_id)
             i.(i_response_status) i.(i_response_body) in
  (idem_triple i = triple_of params ∧
     ∃ r, check_stored params v = Ok r ∧ r.(Replayed) = true ∧ ∀ m, result_ok r (learn c m))
  ∨ (idem_triple i ≠ triple_of params ∧
     check_stored params v = Err (ESentinel rewards_ErrIdempotencyKeyReused)).
Proof.
  intros HI Hi v. destruct (inv_idem _ _ HI _ _ Hi) as (Hkey & cr & Hcr & Ht & Hs).
  assert (∃ st body, i.(i_response_status) = Some st ∧ i.(i_response_body) = Some body
    ∧ 0 < len body ∧ utf8_ValidString body = true ∧ json_Valid body = true
    ∧ (st = 201 ∧ body = created_body cr ∨ st = 409 ∧ body = duplicate_body))
    as (st & body & Hst & Hbody & Hlen & Hu & Hj & Hcase).
  { destruct (created_body_ok cr) as (? & ? & ?), duplicate_body_ok as (? & ? & ?).
    destruct Hs as [(? & ? & _)|(? & ? & _)]; eauto 15. }
  unfold check_stored. subst v. simpl. rewrite Hst, Hbody.
  destruct (Z.eqb_spec (len body) 0); [lia|].
  unfold idem_triple, triple_of.
  destruct (bool_decide_reflect (i.(i_player_id) = params.(p_PlayerID))) as [E1|]; simpl;
    [|right; split; [congruence|done]].
  destruct (bool_decide_reflect (i.(i_campaign_id) = params.(p_CampaignID))) as [E2|]; simpl;
    [|right; split; [congruence|done]].
  destruct (bool_decide_reflect (i.(i_reward_id) = params.(p_RewardID))) as [E3|]; simpl;
    [|right; split; [congruence|done]].
  left. split; [congruence|]. rewrite Hu, Hj. simpl.
  assert ((negb (st =? createClaimStatusCreated) && negb (st =? createClaimStatusConflict)) = false)
    as -> by (by destruct Hcase as [[-> _]|[-> _]]).
  assert (idem_triple i = triple_of params) as Hti by (unfold idem_triple, triple_of; congruence).
  eexists. split_and!; [done..|]. intros m. split.
  - exists cr. split_and!; [done|congruence|destruct Hcase as [[]|[]]; auto].
  - exists i. split_and!; [by eapply learn_idem|done..].
Qed.

Lemma safe_load l m0 Φ :
  l.(l_status) = TxOpen → l.(l_writes) = empty_db →
  errs Φ m0 →
  (∀ m, m0 ⊆ m → Φ (Ok None) l m) →
  (∀ r m, m0 ⊆ m → r.(Replayed) = true → result_ok r m → Φ (Ok (Some r)) l m) →
  safe (tryLoadIdempotentClaimResult params) l m0 Φ.
Proof.
  intros Hopen Hw Herr Hnone Hsome. tx_step c ch Hc.
  { simpl. quiet_step. destruct Hc as [_ Hc]. rewrite (Hc f applied Hfault). simpl.
    by eapply errs_fail. }
  rewrite Hw, overlay_empty.
  replace (set_writes empty_db l) with l by (destruct l; simpl in *; by subst).
  unfold sql_load. destruct (c.(idem) !! params.(p_KeyHash)) as [i|] eqn:Hi; simpl.
  2: { split; [by left|]. split; [|by apply Hnone]. by intros _ f [= <-]. }
  quiet_step.
  destruct HI as [a HI].
  destruct (check_stored_ok a c i HI Hi) as [(_ & r & -> & Hr & Hok)|[_ ->]]; [by apply Hsome|].
  apply Herr; [right; by left|done|]. by rewrite Hopen.
Qed.

Lemma overlay_claims_empty w c : w.(claims) = ∅ → (overlay w c).(claims) = c.(claims).
Proof. intros Hw. unfold overlay. simpl. by rewrite Hw, left_id_L by apply _. Qed.

Lemma safe_insert_claim l m0 Φ :
  params_ok params → l.(l_status) = TxOpen → l.(l_writes).(claims) = ∅ →
  errs Φ m0 →
  (∀ cr m, m0 ⊆ m → m.(k_claims) !! cr.(c_id) = Some cr → claim_triple cr = triple_of params →
     Φ (Ok None) l m) →
  (∀ cr m, m0 ⊆ m → claim_triple cr = triple_of params → claim_check cr = true →
     canonical_uuid cr.(c_id) = true →
     Φ (Ok (Some (claim_of cr))) (set_writes (add_claim cr l.(l_writes)) l) m) →
  safe (tryInsertClaim params) l m0 Φ.
Proof.
  intros Hp Hopen Hw Herr Hdup Hnew c0 ch0 (_ & Hm0%learn_le & _) [Hrand _]. simpl.
  quiet_step. tx_step c ch Hc.
  { simpl. quiet_step. destruct Hc as [_ Hc]. rewrite (Hc f applied Hfault). simpl.
    eapply errs_fail; [done|by etrans|done]. }
  pose proof (newUUIDV4_canonical _ Hrand) as Hcan.
  unfold sql_insert_claim. destruct (reserve_checks l.(l_now) Hp) as (-> & _ & Hcr & _).
  rewrite (uuid_in_canonical _ Hcan). cbn [negb].
  specialize (Hcr (newUUIDV4 ch0.(ch_rand))). set (cr := ClaimRow _ _ _ _ _) in *.
  rewrite Hcr. cbn [negb]. rewrite overlay_claims_empty by done.
  replace (set_writes l.(l_writes) l) with l by (by destruct l).
  destruct (any_row _ c.(claims)) eqn:Hany; simpl.
  - apply any_row_true in Hany as (id & r & Hr & Ht). boolean.
    split; [by left|]. split.
    { intros _ f [= <-]. left. split; [done|]. exists id, r. by rewrite overlay_claims_empty. }
    replace (set_writes (l_writes l) l) with l by (by destruct l).
    destruct HI as [a HI]. destruct (inv_claim_key _ _ HI id r Hr) as [<- _].
    eapply Hdup; [by etrans|done..].
  - destruct (c.(claims) !! _) eqn:Hid; simpl; (split; [by left|]).
    + split; [|eapply errs_fail; [done|by etrans|done]].
      intros _ f [= <-]. right. split; [done|]. simpl.
      rewrite Hw, (left_id_L ∅ (∪)). eauto.
    + split; [answered|]. apply Hnew; [by etrans|done..].
Qed.

(** ** The event of a new claim *)

Lemma marshalled_object e payload :
  marshalRewardClaimedEvent e = Some payload → object_text payload = true.
Proof.
  unfold marshalRewardClaimedEvent. intros Hp.
  destruct (Time.MarshalJSON (OccurredAt e)); [|discriminate Hp].
  destruct (Time.MarshalJSON _); [|discriminate Hp]. by injection Hp as <-.
Qed.

Lemma new_event_check id aggregate_id payload now :
  object_text payload = true →
  outbox_check (new_outbox_row id outboxAggregateTypeRewardClaim aggregate_id
                  outboxEventTypeRewardClaimed payload now) = true.
Proof.
  intros Hp. unfold outbox_check, payload_object_check, new_outbox_row. simpl.
  rewrite Hp, (Z.leb_refl now). vm_compute. done.
Qed.

(** No event of the outbox is about a claim that does not exist. *)
Lemma no_event c a id :
  db_inv c a → c.(claims) !! id = None →
  any_row (λ r, bool_decide (r.(o_aggregate_type) = outboxAggregateTypeRewardClaim)
                && bool_decide (r.(o_aggregate_id) = id)
                && bool_decide (r.(o_event_type) = outboxEventTypeRewardClaimed)) c.(outbox) = false.
Proof.
  intros HI Hn. apply not_true_iff_false. intros (e & o & Ho & Hb)%any_row_true. boolean.
  destruct (inv_outbox _ _ HI _ _ Ho) as (_ & _ & r & Hr & _). congruence.
Qed.

(** Inserting the first event of a claim fails only on a drawn identifier. *)
Lemma sql_insert_event c a w now id aggregate_id e payload doc :
  db_inv c a → c.(claims) !! aggregate_id = None → w.(outbox) = ∅ →
  canonical_uuid id = true → canonical_uuid aggregate_id = true →
  marshalRewardClaimedEvent e = Some payload → jsonb_in payload = Some doc →
  sql_insert_outbox (overlay w c) w now id outboxAggregateTypeRewardClaim aggregate_id
    outboxEventTypeRewardClaimed payload
  = match c.(outbox) !! id with
    | Some _ => Err "23505"%string
    | None => Ok (1, add_outbox (new_outbox_row id outboxAggregateTypeRewardClaim aggregate_id
                                   outboxEventTypeRewardClaimed doc now) w)
    end.
Proof.
  intros HI Hn Hw Hid Hagg Hpl Hdoc. unfold sql_insert_outbox.
  rewrite (uuid_in_canonical _ Hid), (uuid_in_canonical _ Hagg), Hdoc.
  rewrite new_event_check by (eapply jsonb_in_object; [exact Hdoc|by eapply marshalled_object]).
  change (text_ok outboxAggregateTypeRewardClaim && text_ok outboxEventTypeRewardClaimed) with true.
  cbn [negb overlay outbox]. rewrite Hw, (left_id_L ∅ (∪)). by rewrite (no_event _ _ _ HI Hn).
Qed.

Lemma safe_insert_outbox cr l m0 Φ :
  l.(l_status) = TxOpen → canonical_uuid cr.(c_id) = true →
  l.(l_writes).(claims) !! cr.(c_id) = Some cr → l.(l_writes).(outbox) = ∅ →
  errs Φ m0 →
  (∀ o payload m, m0 ⊆ m → event_for o cr →
     o = new_outbox_row o.(o_id) o.(o_aggregate_type) o.(o_aggregate_id) o.(o_event_type)
           payload l.(l_now) →
     Φ (Ok tt) (set_writes (add_outbox o l.(l_writes)) l) m) →
  safe (insertRewardClaimedOutboxEvent (claim_of cr)) l m0 Φ.
Proof.
  intros Hopen Hcan Hcr Hw Herr Hok c0 ch0 (_ & Hm0%learn_le & _) [Hrand _]. simpl.
  quiet_step.
  destruct (marshalRewardClaimedEvent _) as [payload|] eqn:Hpl; simpl;
    [|apply Herr; [by right; right|done|by rewrite Hopen]].
  tx_step c ch Hc.
  { quiet_step. simpl. eapply errs_fail; [done|by etrans|done]. }
  destruct HI as [a HI]. destruct (compat_claim _ _ Hcompat _ _ Hcr) as [Hn _].
  pose proof (newUUIDV4_canonical _ Hrand) as Hid.
  destruct (jsonb_in payload) as [doc|] eqn:Hdoc.
  2: { unfold sql_insert_outbox. rewrite (uuid_in_canonical _ Hid), (uuid_in_canonical _ Hcan), Hdoc.
       split; [by left|]. split; [|simpl; eapply errs_fail; [done|by etrans|done]].
       intros _ f [= <-]. by right. }
  change (ID (claim_of cr)) with cr.(c_id).
  rewrite (sql_insert_event c a _ _ _ _ _ _ _ HI Hn Hw Hid Hcan Hpl Hdoc).
  destruct (c.(outbox) !! _) eqn:Ho; (split; [by left|]).
  - split; [|simpl; eapply errs_fail; [done|by etrans|done]].
    intros _ f [= <-]. left. split; [done|]. simpl. rewrite Hw, (left_id_L ∅ (∪)). eauto.
  - split; [answered|]. simpl. eapply Hok; [by etrans| |done]. unfold event_for. simpl. eauto 10.
Qed.

(** Completing a key the transaction has reserved itself. *)
Lemma sql_complete_reserved vis w now status body id :
  params_ok params → 0 < len body →
  vis.(idem) !! params.(p_KeyHash) = Some (reserved_row params now) →
  (status = 201 ∧ canonical_uuid id = true ∧ is_Some (vis.(claims) !! id)
   ∨ status = 409 ∧ id = ""%string) →
  sql_complete vis w params status body id
  = Ok (1, add_idem (completed_row params now status body
                       (if status =? 201 then Some id else None)) w).
Proof.
  intros Hp Hlen Hrow Hcase.
  assert (nullif_uuid id = Some (if status =? 201 then Some id else None)) as Hnull.
  { unfold nullif_uuid. destruct Hcase as [(-> & Hcan & _)|[-> ->]]; [|done].
    rewrite (uuid_in_canonical _ Hcan). by rewrite bool_decide_false by (by intros ->). }
  unfold sql_complete. rewrite Hnull, Hrow.
  unfold idem_triple, reserved_row. simpl. rewrite !bool_decide_true by done. simpl.
  fold (completed_row params now status body (if status =? 201 then Some id else None)).
  assert (idem_check (completed_row params now status body
    (if status =? 201 then Some id else None)) = true) as ->.
  { destruct (reserve_checks now Hp) as (_ & _ & _ & Hchk). apply Hchk.
    apply Z.ltb_lt in Hlen. unfold response_shape_check. simpl.
    by destruct Hcase as [(-> & _)|[-> _]]; simpl; rewrite Hlen. }
  by destruct Hcase as [(-> & _ & [r Hr])|[-> ->]]; simpl; rewrite ?Hr.
Qed.

Lemma safe_complete l status body id m0 Φ :
  params_ok params → l.(l_status) = TxOpen → locked_key l → 0 < len body →
  (status = 201 ∧ canonical_uuid id = true ∧ is_Some (l.(l_writes).(claims) !! id)
   ∨ status = 409 ∧ id = ""%string) →
  errs Φ m0 →
  (∀ m, m0 ⊆ m →
     Φ (Ok tt) (set_writes (add_idem (completed_row params l.(l_now) status body
          (if status =? 201 then Some id else None)) l.(l_writes)) l) m) →
  safe (completeIdempotencyKey params status body id) l m0 Φ.
Proof.
  intros Hp Hopen Hlock Hlen Hcase Herr Hok. tx_step c ch Hc.
  { quiet_step. simpl. by eapply errs_fail. }
  rewrite sql_complete_reserved with (now := l.(l_now)); [|done|done| |].
  - quiet_step. by apply Hok.
  - by apply lookup_union_Some_l.
  - destruct Hcase as [(? & ? & [r Hr])|?]; [left|by right]. split_and!; [done..|].
    simpl. rewrite (lookup_union_Some_l _ _ _ _ Hr). eauto.
Qed.

Lemma safe_commit {A} (a : A) l m0 Φ :
  l.(l_status) = TxOpen →
  (∀ c, env_ok c l m0 → commit_shape params c (overlay l.(l_writes) c)
                        ∨ overlay l.(l_writes) c = c) →
  errs Φ m0 →
  (∀ c m, env_ok c l m → m0 ⊆ m →
     Φ (Ok a) (committed false l) (learn (overlay l.(l_writes) c) m)) →
  safe (commit_and_return a) l m0 Φ.
Proof.
  intros Hopen Hshape Herr Hok c ch He Hc. pose proof He as (_ & Hm & _).
  specialize (Hshape c He). simpl. unfold exec_commit. rewrite Hopen.
  assert (m0 ⊆ learn (overlay l.(l_writes) c) m0) as Hm'.
  { apply learn_le. destruct Hshape as [Hs%commit_grows| ->]; [by etrans|done]. }
  assert (∀ c', c' = overlay l.(l_writes) c →
    c' = c ∨ TxOpen = TxOpen ∧ c' = overlay l.(l_writes) c ∧ commit_shape params c c') as Hd.
  { intros c' ->. destruct Hshape; auto. }
  destruct ch.(ch_fault) as [[f []]|] eqn:Hfault; (split; [by auto|split; [answered|]]); simpl.
  - apply Herr; [left; eauto|done|done].
  - apply Herr; [left; eauto|by apply learn_le|done].
  - by apply Hok.
Qed.

(** ** The whole transaction *)

Lemma safe_reserve_loop fuel l m0 Φ :
  params_ok params → l.(l_status) = TxOpen → l.(l_writes) = empty_db →
  errs Φ m0 →
  (∀ m, m0 ⊆ m → Φ (Ok None)
     (set_writes (add_idem (reserved_row params l.(l_now)) empty_db) l) m) →
  (∀ r m, m0 ⊆ m → r.(Replayed) = true → result_ok r m →
     Φ (Ok (Some r)) (committed false l) m) →
  safe (reserve_loop fuel params) l m0 Φ.
Proof.
  intros Hp Hopen Hw. revert m0. induction fuel as [|fuel IH]; intros m0 Herr Hres Hrep; [done|].
  cbn [reserve_loop]. apply safe_ebind, safe_reserve; [done..| |].
  { intros m Hm. by apply Hres. }
  intros m1 Hm1. apply safe_ebind, safe_load; [done|done|by eapply errs_mono|..].
  - intros m2 Hm2. assert (m0 ⊆ m2) by by etrans.
    apply IH; [by eapply errs_mono|..]; intros; (apply Hres || apply Hrep); first [done | by etrans].
  - intros r m2 Hm2 Hr Hok. assert (m0 ⊆ m2) by by etrans.
    apply safe_commit; [done|..].
    + intros c _. right. by rewrite Hw, overlay_empty.
    + by eapply errs_mono.
    + intros c m3 (_ & Hc%learn_le & _) Hm3. rewrite Hw, overlay_empty.
      assert (m2 ⊆ learn c m3) by by etrans.
      apply Hrep; [by etrans|done|by eapply result_ok_mono].
Qed.

(** Committing the rows of a new claim is a [created_shape]. *)
Lemma created_overlay cr o now payload body c m0 :
  claim_triple cr = triple_of params → claim_check cr = true →
  event_for o cr → body = created_body cr →
  o = new_outbox_row o.(o_id) o.(o_aggregate_type) o.(o_aggregate_id) o.(o_event_type)
        payload now →
  let w := add_idem (completed_row params now 201 body (Some cr.(c_id)))
             (add_outbox o (add_claim cr (add_idem (reserved_row params now) empty_db))) in
  env_ok c (Local TxOpen w now false) m0 → created_shape params cr c (overlay w c).
Proof.
  intros Ht Hck Hev -> Ho w (_ & _ & Hcompat). destruct (Hcompat eq_refl) as [Hi Hc Hob].
  simpl in *. destruct (Hc cr.(c_id) cr) as [Hfree Hdiff]; [apply lookup_insert_eq|].
  exists o, now, payload. split_and!; try done.
  - rewrite <-Ht. exact Hdiff.
  - apply Hi. rewrite lookup_insert_eq. eauto.
  - apply Hob. rewrite lookup_insert_eq. eauto.
  - subst w. unfold overlay, add_idem, add_outbox, add_claim. simpl.
    rewrite insert_insert_eq, <-!insert_union_l, !(left_id_L ∅ (∪)). done.
Qed.

Lemma duplicate_overlay cr now c m0 :
  m0.(k_claims) !! cr.(c_id) = Some cr → claim_triple cr = triple_of params →
  let w := add_idem (completed_row params now 409 duplicate_body None)
             (add_idem (reserved_row params now) empty_db) in
  env_ok c (Local TxOpen w now false) m0 → duplicate_shape params c (overlay w c).
Proof.
  intros Hcr Ht w (_ & Hm & Hcompat). destruct (Hcompat eq_refl) as [Hi Hc Hob]. simpl in *.
  exists cr, now. split_and!.
  - by eapply lookup_weaken.
  - done.
  - apply Hi. rewrite lookup_insert_eq. eauto.
  - subst w. unfold overlay, add_idem. simpl.
    by rewrite insert_insert_eq, <-!insert_union_l, !(left_id_L ∅ (∪)).
Qed.

(** What a finished transaction guarantees. *)
Definition tx_post (r : result goerr CreateClaimResult) (l : local)
    (m : know) : Prop :=
  match r with
  | Err e => tx_error e ∧ (l.(l_status) = TxCommitted → l.(l_lost) = true)
  | Ok res =>
      l.(l_status) = TxCommitted ∧ l.(l_lost) = false ∧ result_ok res m
      ∧ (if res.(Replayed) then l.(l_writes) = empty_db
         else if res.(StatusCode) =? 201
         then ∃ cr, l.(l_writes).(claims) = {[cr.(c_id) := cr]}
              ∧ claim_triple cr = triple_of params ∧ res.(ResponseBody) = created_body cr
         else l.(l_writes).(claims) = ∅ ∧ is_Some (l.(l_writes).(idem) !! params.(p_KeyHash)))
  end.

Lemma tx_post_err e l m :
  tx_error e → (l.(l_status) = TxCommitted → l.(l_lost) = true) → tx_post (Err e) l m.
Proof. by split. Qed.

(** [errs Φ] for the continuations [Φ] that propagate an error to [tx_post]. *)
Ltac propagates := intros ??????; by apply tx_post_err.

Lemma safe_created cr now m0 :
  params_ok params →
  claim_triple cr = triple_of params → claim_check cr = true → canonical_uuid cr.(c_id) = true →
  safe (do! result := completeCreatedClaim params (claim_of cr) in commit_and_return result)
    (Local TxOpen (add_claim cr (add_idem (reserved_row params now) empty_db)) now false)
    m0 tx_post.
Proof.
  intros Hp Ht Hck Hcan. apply safe_ebind. unfold completeCreatedClaim.
  apply (safe_ebind_ok (created_body cr)).
  apply safe_ebind, safe_insert_outbox; [done|done|apply lookup_insert_eq|done|propagates|].
  intros o payload m1 Hm1 Hev Ho. cbn [set_writes l_status l_writes l_now l_lost] in *.
  apply safe_ebind, safe_complete;
    [done|done|apply lookup_insert_eq| |left|propagates|].
  - by apply created_body_ok.
  - split_and!; [done..|]. simpl. rewrite lookup_insert_eq. eauto.
  - intros m2 Hm2. cbn [safe set_writes l_status l_writes l_now l_lost].
    apply safe_commit; [done| |propagates|].
    + intros c He. left. left. exists cr. by eapply created_overlay.
    + intros c m3 _ Hm3. split_and!; [done..| |].
      * split.
        -- exists cr. split; [apply lookup_union_Some_l, lookup_insert_eq|]. auto.
        -- eexists. split; [eapply learn_idem, lookup_union_Some_l, lookup_insert_eq|done].
      * exists cr. simpl. by rewrite insert_empty.
Qed.

Lemma safe_duplicate cr now m0 :
  params_ok params → m0.(k_claims) !! cr.(c_id) = Some cr → claim_triple cr = triple_of params →
  safe (do! result := completeDuplicateClaim params in commit_and_return result)
    (Local TxOpen (add_idem (reserved_row params now) empty_db) now false) m0 tx_post.
Proof.
  intros Hp Hcr Ht. apply safe_ebind. unfold completeDuplicateClaim.
  apply (safe_ebind_ok duplicate_body). apply safe_ebind, safe_complete;
    [done|done|apply lookup_insert_eq| |by right|propagates|].
  - by apply duplicate_body_ok.
  - intros m2 Hm2. cbn [safe set_writes l_status l_writes l_now l_lost].
    assert (m2.(k_claims) !! cr.(c_id) = Some cr) as Hcr2 by by eapply know_claim.
    apply safe_commit; [done| |propagates|].
    + intros c He. left. right. by eapply duplicate_overlay.
    + intros c m3 (_ & Hc & _) Hm3. split_and!; [done..| |].
      * split.
        -- exists cr. split; [|auto]. simpl. rewrite (left_id_L ∅ (∪)).
           eapply lookup_weaken; [|exact Hc]. by eapply know_claim.
        -- eexists. split; [eapply learn_idem, lookup_union_Some_l, lookup_insert_eq|done].
      * simpl. split; [done|]. rewrite insert_insert_eq, lookup_insert_eq. eauto.
Qed.

(** The deferred rollback does not undo a commit. *)
Lemma safe_rollback r l m :
  tx_post r l m → safe (Do SRollback (λ _, Ret r)) l m tx_post.
Proof.
  intros Hr c ch (_ & Hm%learn_le & _) _. simpl. quiet_step. destruct r as [res|e]; simpl in *.
  - destruct Hr as (Hs & Hl & Hok & Hw). rewrite Hs. split_and!; [done..| |done].
    by eapply result_ok_mono.
  - destruct Hr as [He Hl]. split; [done|]. by destruct l as [[] ? ? ?].
Qed.

(** The transaction is safe from any idle connection, whatever the others do,
    whichever calls fail, and however often the reservation is retried. *)
Theorem safe_createClaim fuel m0 :
  params_ok params → safe (createClaim fuel params) init_local m0 tx_post.
Proof.
  intros Hp c ch _ _. unfold exec.
  destruct ch.(ch_fault) as [[f applied]|] eqn:Hfault; quiet_step; simpl.
  { split; [left; eauto|done]. }
  unfold defer_rollback. apply safe_bind.
  eapply safe_weaken; [exact safe_rollback|].
  unfold createClaim_body. apply safe_ebind, safe_reserve_loop; [done..|propagates| |].
  - intros m1 Hm1. apply safe_ebind, safe_insert_claim; [done..|propagates| |].
    + intros cr m2 Hm2 Hcr Ht. by eapply safe_duplicate.
    + intros cr m2 Hm2 Ht Hck Hcan. by apply safe_created.
  - intros r m1 Hm1 Hr Hok. simpl. by rewrite Hr.
Qed.
End logic.

End RewardsLogic.
