(* ===== verification/RewardsErrors.v ===== *)
(** * Whose context ended (internal/rewards/postgres.go)

    The query context of a transaction is derived from the context of the request
    with a timeout of its own.  A call that returns the error of a context returns
    that of its request, never the end of its own timeout. *)
From S2P Require Import Prelude.
From S2P Require Import GoErrors.
From S2P Require Import Prog.
From S2P Require Import GoStrings.
From S2P Require Import GoJson.
From S2P Require Import Schema.
From S2P Require Import Availability.
From S2P Require Import Rewards.
From S2P Require Import RewardsTx.
From S2P Require Import RewardsSql.
From S2P Require Import RewardsLogic.
Local Open Scope Z_scope.

Module RewardsErrors.
Import Schema Rewards RewardsTx RewardsSql RewardsLogic.

(** ** Query contexts

    What [queryContext] makes of the request's context [ctx], with
    [context.WithTimeoutCause(ctx, s.queryTimeout, errPostgresQueryTimeout)]: the
    derived context ends with that cause, or because [ctx] has ended, with its error. *)
Definition derived (ctx query : ctx_state) : Prop :=
  ∀ s, ctx_Err query = Some s →
  errors_Is_opt (context_Cause query) rewards_errPostgresQueryTimeout = false →
  ctx_Err ctx = Some s.

(** Whenever the code looks at its query context, it is one of the request's. *)
Definition query_of (ctx : ctx_state) (ch : choice) : Prop :=
  derived ctx ch.(ch_ctx) ∧ ∀ f b, ch.(ch_fault) = Some (f, b) → derived ctx f.(fail_ctx).

(** An error that is a context's is that of [ctx]. *)
Definition own_error (ctx : ctx_state) (e : goerr) : Prop :=
  ∀ s, s = context_Canceled ∨ s = context_DeadlineExceeded →
  errors_Is e s = true → ctx_Err ctx = Some s.

Definition own_result {A} (ctx : ctx_state) (r : result goerr A) : Prop :=
  match r with Ok _ => True | Err e => own_error ctx e end.

Section errors.
Context `{Postgres} (ctx : ctx_state).

(** ** Programs by their answers *)

(** Whatever the statements answer, with failures in contexts derived from [ctx],
    the program ends in [Φ]. *)
Fixpoint responds {A} (m : prog A) (Φ : A → Prop) : Prop :=
  match m with
  | Ret a => Φ a
  | OutOfFuel => True
  | Do s k =>
      ∀ r : resp s, (∀ f, failure s r = Some f → derived ctx f.(fail_ctx)) → responds (k r) Φ
  end.

Lemma responds_mono {A} (m : prog A) (Φ Ψ : A → Prop) :
  (∀ a, Φ a → Ψ a) → responds m Φ → responds m Ψ.
Proof. intros HΦ. induction m as [a| |s k IH]; simpl; eauto. Qed.

Lemma responds_bind {A B} (m : prog A) (k : A → prog B) Φ :
  responds m (λ a, responds (k a) Φ) → responds (pbind m k) Φ.
Proof. induction m as [a| |s c IH]; simpl; eauto. Qed.

Lemma responds_ebind {A B} (m : prog (result goerr A)) (k : A → prog (result goerr B)) :
  responds m (own_result ctx) → (∀ a, responds (k a) (own_result ctx)) →
  responds (ebind m k) (own_result ctx).
Proof.
  intros Hm Hk. apply responds_bind. eapply responds_mono; [|exact Hm]. by intros [a|e].
Qed.

Lemma failure_context ch c l s f :
  failure s (exec ch c l s).2 = Some f →
  f.(fail_ctx) = ch.(ch_ctx) ∨ ∃ b, ch.(ch_fault) = Some (f, b).
Proof.
  assert (∀ A (sem : result string (A * db)) l' r,
    in_tx ch l sem = (l', r) → err_of r = Some f →
    f.(fail_ctx) = ch.(ch_ctx) ∨ ∃ b, ch.(ch_fault) = Some (f, b)) as Hin.
  { intros A sem l' r. unfold in_tx. intros Hx Hr.
    destruct (l_status l); simplify_eq/=; try by left.
    destruct (ch_fault ch) as [[g b]|]; simplify_eq/=; [by right; exists b|].
    destruct sem as [[]|]; simplify_eq/=; by left. }
  assert (∀ A (sem : result string (option A * db)) l' r,
    scan_row ch (in_tx ch l sem) = (l', r) → err_of r = Some f →
    f.(fail_ctx) = ch.(ch_ctx) ∨ ∃ b, ch.(ch_fault) = Some (f, b)) as Hscan.
  { intros A sem l' r. destruct (in_tx ch l sem) as [l1 [[a|]|g]] eqn:Hx; simpl;
      intros Hs Hr; simplify_eq/=; [by left|]. by eapply Hin. }
  destruct s; simpl; intros Hf; try done.
  - destruct (l_status l), (ch_fault ch) as [[g b]|]; simplify_eq/=; eauto.
  - unfold exec_commit in Hf.
    destruct (l_status l), (ch_fault ch) as [[g []]|]; simplify_eq/=; eauto.
  - destruct (in_tx _ _ _) as [l' r] eqn:Hx. by eapply Hin.
  - destruct (scan_row _ _) as [l' r] eqn:Hx. by eapply Hscan.
  - destruct (scan_row _ _) as [l' r] eqn:Hx. by eapply Hscan.
  - destruct (in_tx _ _ _) as [l' r] eqn:Hx. by eapply Hin.
  - destruct (in_tx _ _ _) as [l' r] eqn:Hx. by eapply Hin.
Qed.

Lemma run_responds {A} (m : prog A) Φ chs c l c' l' r :
  Forall (query_of ctx) chs → responds m Φ → run chs c l m = Some (c', l', r) → Φ r.
Proof.
  revert chs c l. induction m as [a| |s k IH]; intros chs c l Hchs Hm Hrun; simpl in *; simplify_eq;
    [done|].
  destruct chs as [|ch chs]; [done|]. apply Forall_cons in Hchs as [[Hc Hf] Hchs].
  destruct (exec ch c l s) as [[c1 l1] r1] eqn:Hex. eapply IH; [exact Hchs| |exact Hrun].
  apply Hm. intros f Hr. pose proof (failure_context ch c l s f) as Hw. rewrite Hex in Hw.
  destruct (Hw Hr) as [->|[b Hb]]; [done|by eapply Hf].
Qed.

(** ** The code *)

Lemma internal_own m : own_error ctx (EWrap m (ESentinel rewards_ErrInternal)).
Proof. by intros s [-> | ->]. Qed.

Lemma map_fail_own f : derived ctx f.(fail_ctx) → own_error ctx (map_fail f).
Proof.
  intros Hf s Hs. unfold map_fail, mapPostgresError.
  destruct (Availability.map_error_class "postgres reward claim operation returned no row"
    "postgres reward claim operation" rewards_ErrInternal rewards_ErrUnavailable
    rewards_errPostgresQueryTimeout (Some f.(fail_ctx)) f.(fail_err))
    as [->|[->|[->|(c & s' & [= <-] & Hs' & _ & Hcause & ->)]]].
  1-3: by destruct Hs as [-> | ->].
  intros ->%bool_decide_eq_true. by apply Hf.
Qed.

Lemma check_stored_own params v : own_result ctx (check_stored params v).
Proof.
  unfold check_stored. repeat case_match; try done; try apply internal_own.
  by intros t [-> | ->].
Qed.

(** The branches of a function: a mapped failure, or an error of its own. *)
Local Ltac branches :=
  repeat (case_match; try done); try (by apply map_fail_own; auto); try apply internal_own.

Lemma reserve_own params : responds (tryReserveIdempotencyKey params) (own_result ctx).
Proof. intros r Hr. branches. Qed.

Lemma load_own params : responds (tryLoadIdempotentClaimResult params) (own_result ctx).
Proof.
  intros r Hr. destruct r as [v|f]; [|branches].
  pose proof (check_stored_own params v). by destruct (check_stored params v).
Qed.

Lemma insert_own params : responds (tryInsertClaim params) (own_result ctx).
Proof. intros b _ r Hr. branches. Qed.

Lemma complete_own params status body id :
  responds (completeIdempotencyKey params status body id) (own_result ctx).
Proof. intros r Hr. branches. Qed.

Lemma outbox_own c : responds (insertRewardClaimedOutboxEvent c) (own_result ctx).
Proof.
  intros b _. simpl. destruct (marshalRewardClaimedEvent _); [|apply internal_own].
  intros r Hr. branches.
Qed.

Lemma commit_own {A} (a : A) : responds (commit_and_return a) (own_result ctx).
Proof. intros r Hr. branches. Qed.

Lemma loop_own fuel params : responds (reserve_loop fuel params) (own_result ctx).
Proof.
  induction fuel as [|fuel IH]; [done|]. cbn [reserve_loop].
  apply responds_ebind; [apply reserve_own|]. intros []; [done|].
  apply responds_ebind; [apply load_own|]. intros [result|]; [apply commit_own|apply IH].
Qed.

Lemma body_own fuel params : responds (createClaim_body fuel params) (own_result ctx).
Proof.
  unfold createClaim_body. apply responds_ebind; [apply loop_own|]. intros [result|]; [done|].
  apply responds_ebind; [apply insert_own|]. intros [created|].
  - apply responds_ebind; [|apply commit_own]. unfold completeCreatedClaim.
    apply responds_ebind; [done|]. intros body. apply responds_ebind; [apply outbox_own|].
    intros _. by apply responds_ebind; [apply complete_own|].
  - apply responds_ebind; [|apply commit_own]. unfold completeDuplicateClaim.
    apply responds_ebind; [done|]. intros body. by apply responds_ebind; [apply complete_own|].
Qed.

Lemma CreateClaim_own fuel cmd : responds (CreateClaim fuel cmd) (own_result ctx).
Proof.
  unfold CreateClaim. destruct (prepareCreateClaim cmd) as [p|e] eqn:Hp.
  - apply responds_bind. eapply responds_mono with (Φ := own_result ctx).
    { by intros [a|e]. }
    intros r Hr. destruct r as [f|]; [apply map_fail_own; auto|].
    unfold defer_rollback. apply responds_bind. eapply responds_mono; [|apply body_own].
    by intros a Ha r _.
  - destruct (prepareCreateClaim_error _ _ Hp) as [m ->]. by intros s [-> | ->].
Qed.

(** The error of a call that ends with a context's error is the request's own. *)
Lemma run_own fuel cmd chs c c' l' r :
  Forall (query_of ctx) chs →
  run chs c init_local (CreateClaim fuel cmd) = Some (c', l', r) → own_result ctx r.
Proof. intros Hchs. eapply run_responds; [exact Hchs|apply CreateClaim_own]. Qed.

End errors.

End RewardsErrors.
