(* ===== verification/RewardsSys.v ===== *)
(** * Concurrent reward-claim transactions

    Any number of [createClaim] transactions, interleaved statement by statement
    and possibly crashing, together with the two other writers of the tables: the
    outbox worker, which updates the state columns of an event, and the retention
    procedures of docs/runbook.md, which delete answered idempotency rows and
    published events.  The invariant of RewardsInv holds in every reachable
    state, and the logic of RewardsLogic gives what every finished call returns. *)
From S2P Require Import Prelude.
From S2P Require Import GoErrors.
From S2P Require Import Prog.
From S2P Require Import GoStrings.
From S2P Require Import GoJson.
From S2P Require Import Schema.
From S2P Require Import Availability.
From S2P Require Import Rewards.
From S2P Require Import RewardsTx.
From S2P Require Import RewardsSql.
From S2P Require Import RewardsInv.
From S2P Require Import RewardsLogic.
Local Open Scope Z_scope.

Module RewardsSys.
Import Schema Rewards RewardsTx RewardsSql RewardsInv RewardsLogic.

Record thread := Thread {
  t_params : createClaimParams;
  t_local : local;
  t_prog : prog (result goerr CreateClaimResult)
}.

(** [s_archive], [s_log] and [s_expired] are history variables: the events
    retention removed, by claim; every idempotency row that was ever committed;
    the keys retention removed. *)
Record sys := Sys {
  s_db : db;
  s_threads : gmap nat thread;
  s_archive : gmap string outbox_row;
  s_log : list idem_row;
  s_expired : gset string
}.

Definition init_sys : sys := Sys empty_db ∅ ∅ [] ∅.

(** The columns of an event the worker never writes. *)
Definition same_event (o o' : outbox_row) : Prop :=
  o'.(o_id) = o.(o_id) ∧ o'.(o_aggregate_type) = o.(o_aggregate_type)
  ∧ o'.(o_aggregate_id) = o.(o_aggregate_id) ∧ o'.(o_event_type) = o.(o_event_type)
  ∧ o'.(o_payload) = o.(o_payload).

Definition set_outbox (f : gmap string outbox_row → gmap string outbox_row) (c : db) : db :=
  DB c.(claims) c.(idem) (f c.(outbox)).
Definition set_idem (f : gmap string idem_row → gmap string idem_row) (c : db) : db :=
  DB c.(claims) (f c.(idem)) c.(outbox).

Section system.
Context `{Postgres}.

(** The unique indexes cover uncommitted rows: a statement whose rows collide
    with those of another open transaction waits for its end. *)
Definition no_conflict (ths : gmap nat thread) (t : nat) (l : local) : Prop :=
  ∀ t' th, t' ≠ t → ths !! t' = Some th → th.(t_local).(l_status) = TxOpen →
    l.(l_status) = TxOpen → compat th.(t_local).(l_writes) l.

Inductive step : sys → sys → Prop :=
| step_start s t cmd p fuel :
    s.(s_threads) !! t = None → prepareCreateClaim cmd = Ok p →
    step s (Sys s.(s_db) (<[t := Thread p init_local (createClaim fuel p)]> s.(s_threads))
              s.(s_archive) s.(s_log) s.(s_expired))
| step_stmt s t p l st k ch c' l' r :
    s.(s_threads) !! t = Some (Thread p l (Do st k)) →
    choice_ok ch → exec ch s.(s_db) l st = (c', l', r) →
    no_conflict s.(s_threads) t l' →
    step s (Sys c' (<[t := Thread p l' (k r)]> s.(s_threads))
              s.(s_archive) (idem_rows c' ++ s.(s_log)) s.(s_expired))
| step_crash s t :
    step s (Sys s.(s_db) (delete t s.(s_threads)) s.(s_archive) s.(s_log) s.(s_expired))
| step_expire_key s h i :
    s.(s_db).(idem) !! h = Some i → i.(i_response_status) ≠ None →
    step s (Sys (set_idem (delete h) s.(s_db)) s.(s_threads)
              s.(s_archive) s.(s_log) ({[h]} ∪ s.(s_expired)))
| step_update_event s e o o' :
    s.(s_db).(outbox) !! e = Some o → same_event o o' →
    step s (Sys (set_outbox <[e := o']> s.(s_db)) s.(s_threads)
              s.(s_archive) s.(s_log) s.(s_expired))
| step_archive_event s e o :
    s.(s_db).(outbox) !! e = Some o → o.(o_status) = published →
    step s (Sys (set_outbox (delete e) s.(s_db)) s.(s_threads)
              (<[o.(o_aggregate_id) := o]> s.(s_archive)) s.(s_log) s.(s_expired)).

Definition reachable (s : sys) : Prop := rtc step init_sys s.

(** ** What a statement does to its own transaction *)

Inductive local_step (c : db) (l : local) : db → local → Prop :=
| ls_same : local_step c l c l
| ls_begin now : l.(l_status) = TxIdle → local_step c l c (begun now)
| ls_abort : l.(l_status) = TxOpen → local_step c l c (abort l)
| ls_write w : l.(l_status) = TxOpen → compat c (set_writes w l) →
    local_step c l c (set_writes w l)
| ls_commit lost : l.(l_status) = TxOpen →
    local_step c l (overlay l.(l_writes) c) (committed lost l).

Lemma set_writes_same l : set_writes l.(l_writes) l = l.
Proof. by destruct l. Qed.

(** Reading through the overlay: a row is missing iff both parts miss it. *)
Lemma union_None_iff {A} (w c : gmap string A) k : (w ∪ c) !! k = None ↔ w !! k = None ∧ c !! k = None.
Proof. apply lookup_union_None. Qed.

Lemma in_tx_step {A} ch c l (sem : result string (A * db)) l' r :
  (l.(l_status) = TxOpen → ∀ a w, sem = Ok (a, w) → w = l.(l_writes) ∨ compat c (set_writes w l)) →
  in_tx ch l sem = (l', r) → local_step c l c l'.
Proof.
  unfold in_tx. intros Hw. destruct l.(l_status) eqn:Hs; intros Heq; simplify_eq; try constructor.
  destruct ch.(ch_fault) as [[??]|]; simplify_eq; [by constructor|].
  destruct sem as [[a w]|]; simplify_eq; [|by constructor].
  destruct (Hw eq_refl a w eq_refl) as [->|?].
  - rewrite set_writes_same. constructor.
  - by constructor.
Qed.

Lemma scan_row_local {A} ch (x : local * result fail (option A)) : (scan_row ch x).1 = x.1.
Proof. by destruct x as [? [[]|]]. Qed.

Lemma compat_add_idem c l r :
  compat c l → c.(idem) !! r.(i_key_hash) = None → compat c (set_writes (add_idem r l.(l_writes)) l).
Proof.
  intros [Hi Hc Ho] Hn. split; simpl; [|done|done].
  intros h. destruct (decide (h = r.(i_key_hash))) as [->|Hne]; [done|].
  rewrite lookup_insert_ne by done. apply Hi.
Qed.

Lemma sql_reserve_writes c l p a w :
  compat c l → sql_reserve (overlay l.(l_writes) c) l.(l_writes) l.(l_now) p = Ok (a, w) →
  w = l.(l_writes) ∨ compat c (set_writes w l).
Proof.
  intros Hcompat. unfold sql_reserve. intros Heq. crush_in Heq; [by left|right].
  apply compat_add_idem; [done|]. simpl.
  match goal with Hn : (_ ∪ _) !! _ = None |- _ =>
    by apply union_None_iff in Hn as [_ ?] end.
Qed.

Lemma sql_insert_claim_writes c l id p a w :
  compat c l →
  sql_insert_claim (overlay l.(l_writes) c) l.(l_writes) l.(l_now) id p = Ok (a, w) →
  w = l.(l_writes) ∨ compat c (set_writes w l).
Proof.
  intros [Hi Hc Ho]. unfold sql_insert_claim. intros Heq. crush_in Heq; [by left|right].
  match goal with
  | Hn : (_ ∪ _) !! _ = None, Ha : any_row _ _ = false |- _ =>
      apply union_None_iff in Hn as [_ Hn]; rename Hn into Hfresh; rename Ha into Hany
  end.
  split; simpl; [done| |done].
  intros id' r [[<- <-]|[Hne Hr]]%lookup_insert_Some; [|eauto]. split; [done|].
  intros id2 r2 Hr2 Heq. apply not_true_iff_false in Hany. apply Hany, any_row_true.
  exists id2, r2. split; [|by apply bool_decide_eq_true].
  simpl. rewrite lookup_union_r; [done|].
  destruct (claims (l_writes l) !! id2) eqn:Hw2; [|done].
  destruct (Hc _ _ Hw2). congruence.
Qed.

Lemma sql_insert_outbox_writes c l id at_ ai et pl a w :
  compat c l →
  sql_insert_outbox (overlay l.(l_writes) c) l.(l_writes) l.(l_now) id at_ ai et pl = Ok (a, w) →
  w = l.(l_writes) ∨ compat c (set_writes w l).
Proof.
  intros [Hi Hc Ho]. unfold sql_insert_outbox. intros Heq. crush_in Heq. right.
  match goal with
  | Hn : (_ ∪ _) !! _ = None |- _ =>
      apply union_None_iff in Hn as [_ Hn]; rename Hn into Hfresh
  end.
  split; simpl; [done|done|].
  intros e. destruct (decide (e = s)) as [->|Hne]; [done|].
  rewrite lookup_insert_ne by done. apply Ho.
Qed.

Lemma sql_complete_writes c a l p st body id x w :
  db_inv c a → compat c l →
  sql_complete (overlay l.(l_writes) c) l.(l_writes) p st body id = Ok (x, w) →
  w = l.(l_writes) ∨ compat c (set_writes w l).
Proof.
  intros HI Hcompat. unfold sql_complete. intros Heq.
  destruct (nullif_uuid id) as [idopt|]; [|done].
  destruct ((overlay _ c).(idem) !! _) as [r|] eqn:Hr; [|by left; simplify_eq].
  destruct (bool_decide (idem_triple r = triple_of p) && _ && _ && _) eqn:Hb;
    [|by left; simplify_eq].
  boolean. simpl in Hr. apply lookup_union_Some_raw in Hr as [Hr|[_ Hr]].
  - right. assert (∃ row, row.(i_key_hash) = p.(p_KeyHash) ∧ w = add_idem row l.(l_writes))
      as (row & Hkey & ->) by (crush_in Heq; (eexists; (split; [|reflexivity]); done)).
    destruct Hcompat as [Hi Hc Ho]. split; simpl; [|done|done].
    intros h. rewrite Hkey. destruct (decide (h = p.(p_KeyHash))) as [->|Hne].
    + intros _. apply Hi. eauto.
    + rewrite lookup_insert_ne by done. apply Hi.
  - destruct (inv_idem _ _ HI _ _ Hr) as (_ & cr & _ & _ & Hs). naive_solver congruence.
Qed.

Lemma exec_local_step ch c a l s c' l' r :
  db_inv c a → (l.(l_status) = TxOpen → compat c l) →
  exec ch c l s = (c', l', r) → local_step c l c' l'.
Proof.
  intros HI Hcompat.
  assert (Hload : ∀ h l1 x, in_tx ch l (Ok (sql_load (overlay l.(l_writes) c) h, l.(l_writes)))
    = (l1, x) → local_step c l c l1).
  { intros h l1 x. apply in_tx_step. intros _ b w [= _ <-]. by left. }
  assert (Hscan : ∀ A (x : local * result fail (option A)) l1 y,
    scan_row ch x = (l1, y) → local_step c l c x.1 → local_step c l c l1).
  { intros A x l1 y Hx. by rewrite <-scan_row_local with (ch := ch), Hx. }
  destruct s; unfold exec; intros Heq.
  - simplify_eq. constructor.
  - destruct l.(l_status) eqn:Hs, ch.(ch_fault) as [[??]|]; simplify_eq; by constructor.
  - unfold exec_commit in Heq. destruct l.(l_status) eqn:Hs; simplify_eq; try constructor.
    destruct ch.(ch_fault) as [[? []]|]; simplify_eq; by constructor.
  - destruct l.(l_status) eqn:Hs; simplify_eq; by constructor.
  - destruct (in_tx _ _ _) as [l1 x] eqn:Hx. simplify_eq. eapply in_tx_step; [|exact Hx].
    intros Ho b w. apply sql_reserve_writes. auto.
  - destruct (scan_row _ _) as [l1 x] eqn:Hx. simplify_eq. eapply Hscan; [exact Hx|].
    destruct (in_tx _ _ _) eqn:Hy. eapply Hload, Hy.
  - destruct (scan_row _ _) as [l1 x] eqn:Hx. simplify_eq. eapply Hscan; [exact Hx|].
    destruct (in_tx _ _ _) eqn:Hy. eapply in_tx_step; [|exact Hy].
    intros Ho b w. apply sql_insert_claim_writes. auto.
  - destruct (in_tx _ _ _) as [l1 x] eqn:Hx. simplify_eq. eapply in_tx_step; [|exact Hx].
    intros Ho b w. apply sql_insert_outbox_writes. auto.
  - destruct (in_tx _ _ _) as [l1 x] eqn:Hx. simplify_eq. eapply in_tx_step; [|exact Hx].
    intros Ho b w. eapply sql_complete_writes; eauto.
Qed.

(** ** Locks *)

Lemma compat_sym l1 l2 : compat l1.(l_writes) l2 → compat l2.(l_writes) l1.
Proof.
  intros [Hi Hc Ho]. split.
  - intros h Hh. destruct (l2.(l_writes).(idem) !! h) eqn:E; [|done].
    destruct Hh as [? Hh]. rewrite Hi in Hh; [done|eauto].
  - intros id r Hr. split.
    + destruct (l2.(l_writes).(claims) !! id) eqn:E; [|done].
      destruct (Hc _ _ E) as [Hn _]. congruence.
    + intros id' r' Hr' Heq. destruct (Hc _ _ Hr') as [_ Hne]. by eapply Hne.
  - intros h Hh. destruct (l2.(l_writes).(outbox) !! h) eqn:E; [|done].
    destruct Hh as [? Hh]. rewrite Ho in Hh; [done|eauto].
Qed.

Lemma compat_overlay w c l : compat w l → compat c l → compat (overlay w c) l.
Proof.
  intros [Hi Hc Ho] [Hi' Hc' Ho']. split; simpl.
  - intros h Hh. apply union_None_iff. auto.
  - intros id r Hr. destruct (Hc _ _ Hr) as [Hn Hd], (Hc' _ _ Hr) as [Hn' Hd'].
    split; [by apply union_None_iff|].
    intros id' r' [?|[_ ?]]%lookup_union_Some_raw; eauto.
  - intros h Hh. apply union_None_iff. auto.
Qed.

Lemma compat_empty c l : l.(l_writes) = empty_db → compat c l.
Proof.
  intros Hw. split; rewrite Hw; simpl; [intros h [? ?]|intros id r ?|intros h [? ?]];
    simplify_map_eq.
Qed.

(** Removing or changing rows in place frees no other transaction's rows. *)
Lemma compat_shrink c c' l :
  c'.(claims) = c.(claims) →
  (∀ h, c.(idem) !! h = None → c'.(idem) !! h = None) →
  (∀ e, c.(outbox) !! e = None → c'.(outbox) !! e = None) →
  compat c l → compat c' l.
Proof. intros Hc Hi Ho [Hi' Hc' Ho']. split; rewrite ?Hc; auto. Qed.

Lemma safe_mono {A} params (m : prog A) l k k' (Φ : A → local → know → Prop) :
  (∀ a l k k', k ⊆ k' → Φ a l k → Φ a l k') →
  k ⊆ k' → safe params m l k Φ → safe params m l k' Φ.
Proof.
  intros HΦ. revert l k k'. induction m as [a| |s c IH]; intros l k k' Hk; simpl; [by apply HΦ|done|].
  intros Hs c0 ch (HI & Hm & Hcompat) Hch.
  assert (env_ok c0 l k) as He by (split_and!; [done|by etrans; [apply Hk|]|done]).
  specialize (Hs c0 ch He Hch). destruct (exec ch c0 l s) as [[c' l'] r].
  destruct Hs as (Hd & Ha & Hs). split; [done|]. split; [done|]. eapply IH; [|exact Hs].
  split; simpl; [done|].
  intros i [?|?]%elem_of_app; apply elem_of_app; [by left|right; by apply Hk].
Qed.

Lemma tx_post_mono p r l k k' : k ⊆ k' → tx_post p r l k → tx_post p r l k'.
Proof.
  intros Hk. destruct r as [res|e]; simpl; [|done].
  intros (? & ? & ? & ?). split_and!; [done..| |done]. by eapply result_ok_mono.
Qed.

(** ** The invariant of the system *)

Record local_ok (c : db) (l : local) : Prop := {
  lo_open : l.(l_status) = TxOpen → compat c l;
  lo_committed : l.(l_status) = TxCommitted → l.(l_writes).(claims) ⊆ c.(claims);
  lo_other : l.(l_status) ≠ TxOpen → l.(l_status) ≠ TxCommitted → l.(l_writes) = empty_db
}.

Record pair_ok (l1 l2 : local) : Prop := {
  po_compat : l1.(l_status) = TxOpen → l2.(l_status) = TxOpen → compat l1.(l_writes) l2;
  po_claims : l1.(l_writes).(claims) ##ₘ l2.(l_writes).(claims)
}.

Definition thread_ok (c : db) (log : list idem_row) (th : thread) : Prop :=
  params_ok th.(t_params)
  ∧ safe th.(t_params) th.(t_prog) th.(t_local) (Know c.(claims) log) (tx_post th.(t_params))
  ∧ local_ok c th.(t_local).

(** The log holds the committed rows, and a logged row stays committed until
    its key is expired. *)
Record log_ok (c : db) (log : list idem_row) (expired : gset string) : Prop := {
  log_row h i : c.(idem) !! h = Some i → i ∈ log;
  log_kept i : i ∈ log → i.(i_key_hash) ∉ expired → c.(idem) !! i.(i_key_hash) = Some i
}.

Record sys_inv (s : sys) : Prop := {
  si_db : db_inv s.(s_db) s.(s_archive);
  si_thread t th : s.(s_threads) !! t = Some th → thread_ok s.(s_db) s.(s_log) th;
  si_pair t1 t2 th1 th2 : t1 ≠ t2 →
    s.(s_threads) !! t1 = Some th1 → s.(s_threads) !! t2 = Some th2 →
    pair_ok th1.(t_local) th2.(t_local);
  si_log : log_ok s.(s_db) s.(s_log) s.(s_expired)
}.

Lemma pair_ok_sym l1 l2 : pair_ok l1 l2 → pair_ok l2 l1.
Proof. intros [Hc Hd]. split; [intros; by apply compat_sym, Hc|done]. Qed.

Lemma local_ok_empty c l : l.(l_writes) = empty_db → local_ok c l.
Proof.
  intros Hw. split; [by intros; apply compat_empty| |done].
  intros _. rewrite Hw. apply map_empty_subseteq.
Qed.

Lemma pair_ok_empty l l2 : l.(l_writes) = empty_db → pair_ok l l2.
Proof.
  intros Hw. split.
  - intros _ _. by apply compat_sym, compat_empty.
  - rewrite Hw. apply map_disjoint_empty_l.
Qed.

Lemma local_step_ok c l c' l' : local_ok c l → local_step c l c' l' → local_ok c' l'.
Proof.
  intros Hok [|now Hidle|Ho|w Ho Hc|lost Ho]; [done|by apply local_ok_empty..| |].
  - split; simpl; [done|by rewrite Ho|by rewrite Ho].
  - split; simpl; [done|intros _; apply map_union_subseteq_l|done].
Qed.

Lemma local_step_other c l c' l' l2 :
  pair_ok l l2 → local_ok c l2 → local_step c l c' l' →
  c.(claims) ⊆ c'.(claims) → local_ok c' l2.
Proof.
  intros [Hp _] [H1 H2 H3] Hs Hle. split; [|intros; etrans; [by apply H2|done]|done].
  intros Ho. destruct Hs; auto using compat_overlay.
Qed.

Lemma local_step_pair c l c' l' l2 :
  pair_ok l l2 → local_ok c l2 → local_step c l c' l' →
  (l2.(l_status) = TxOpen → l'.(l_status) = TxOpen → compat l2.(l_writes) l') →
  pair_ok l' l2.
Proof.
  intros Hp [H1 H2 H3] Hs Hfree. destruct Hs as [|now Hidle|Ho|w Ho Hc|lost Ho]; [done|..].
  - by apply pair_ok_empty.
  - by apply pair_ok_empty.
  - split; [intros; apply compat_sym; auto|].
    apply map_disjoint_spec. intros id r r2 Hr Hr2. simpl in Hr.
    destruct l2.(l_status) eqn:Hs2.
    + rewrite H3 in Hr2 by congruence. simplify_map_eq.
    + destruct (compat_claim _ _ (Hfree eq_refl Ho) id r Hr). congruence.
    + pose proof (lookup_weaken _ _ _ _ Hr2 (H2 eq_refl)).
      destruct (compat_claim _ _ Hc id r Hr). congruence.
    + rewrite H3 in Hr2 by congruence. simplify_map_eq.
  - split; [done|]. apply Hp.
Qed.

Lemma thread_ok_learn c c' log th :
  thread_ok c log th → c.(claims) ⊆ c'.(claims) → local_ok c' th.(t_local) →
  thread_ok c' (idem_rows c' ++ log) th.
Proof.
  intros (Hp & Hs & _) Hle Hl. split_and!; [done| |done].
  eapply safe_mono; [by intros; eapply tx_post_mono| |exact Hs].
  split; simpl; [done|]. intros i Hi. apply elem_of_app. by right.
Qed.

(** A commit adds one row to the log, under a fresh key. *)
Lemma log_ok_commit p c c' a log expired :
  db_inv c' a → log_ok c log expired → c' = c ∨ commit_shape p c c' →
  log_ok c' (idem_rows c' ++ log) expired.
Proof.
  intros HI [Hr Hk] Hc. split.
  - intros h i Hi. apply elem_of_app. left. apply elem_of_idem_rows. eauto.
  - intros i [[h Hh]%elem_of_idem_rows|Hi]%elem_of_app Hne.
    + by destruct (inv_idem _ _ HI _ _ Hh) as [-> _].
    + specialize (Hk i Hi Hne). destruct Hc as [->|Hc]; [done|].
      assert (∃ row, c.(idem) !! p.(p_KeyHash) = None ∧ c'.(idem) = <[p.(p_KeyHash) := row]> c.(idem))
        as (row & Hn & ->).
      { destruct Hc as [(cr & o & now & pl & _ & _ & _ & _ & Hn & _ & _ & _ & ->)
                       |(r & now & _ & _ & Hn & ->)]; eauto. }
      rewrite lookup_insert_ne; [done|]. congruence.
Qed.

Lemma stmt_inv s t p l st k ch c' l' r :
  sys_inv s → s.(s_threads) !! t = Some (Thread p l (Do st k)) →
  choice_ok ch → exec ch s.(s_db) l st = (c', l', r) →
  no_conflict s.(s_threads) t l' →
  sys_inv (Sys c' (<[t := Thread p l' (k r)]> s.(s_threads))
             s.(s_archive) (idem_rows c' ++ s.(s_log)) s.(s_expired)).
Proof.
  intros [HI Hth Hpair Hlog] Ht Hch Hex Hfree.
  destruct (Hth _ _ Ht) as (Hp & Hs & Hl). simpl in *.
  assert (local_step s.(s_db) l c' l') as Hls
    by (eapply exec_local_step; [exact HI|apply Hl|exact Hex]).
  specialize (Hs s.(s_db) ch). rewrite Hex in Hs.
  destruct Hs as (Hd & _ & Hs'); [split_and!; [eauto|done|apply Hl]|done|].
  assert (c' = s.(s_db) ∨ commit_shape p s.(s_db) c') as Hd' by naive_solver.
  assert (s.(s_db).(claims) ⊆ c'.(claims)) as Hle.
  { destruct Hd' as [->|?%commit_grows]; done. }
  assert (db_inv c' s.(s_archive)) as HI'.
  { destruct Hd' as [->|?]; [done|by eapply commit_inv]. }
  split; simpl; [done| | |by eapply log_ok_commit].
  - intros t2 th [[<- <-]|[Hne Ht2]]%lookup_insert_Some.
    + split_and!; [done|done|]. by eapply local_step_ok.
    + apply thread_ok_learn with (c := s.(s_db)); [by eapply Hth|done|].
      eapply local_step_other; [by eapply (Hpair t t2)| |done..]. by eapply Hth.
  - assert (∀ t2 th2, t ≠ t2 → s.(s_threads) !! t2 = Some th2 → pair_ok l' th2.(t_local)) as Hone.
    { intros t2 th2 Hne Ht2. eapply local_step_pair; [by eapply (Hpair t t2)| |done|].
      - by eapply Hth.
      - intros. by eapply Hfree. }
    intros t1 t2 th1 th2 Hne [[<- <-]|[Hne1 Ht1]]%lookup_insert_Some
      [[<- <-]|[Hne2 Ht2]]%lookup_insert_Some; [done|by eauto|apply pair_ok_sym; by eauto|by eauto].
Qed.

(** The steps of the worker and of retention. *)
Lemma env_inv s c' archive expired :
  sys_inv s → db_inv c' archive → c'.(claims) = s.(s_db).(claims) →
  (∀ e, s.(s_db).(outbox) !! e = None → c'.(outbox) !! e = None) →
  (∀ h i, c'.(idem) !! h = Some i → s.(s_db).(idem) !! h = Some i) →
  (∀ h i, s.(s_db).(idem) !! h = Some i → h ∉ expired → c'.(idem) !! h = Some i) →
  s.(s_expired) ⊆ expired →
  sys_inv (Sys c' s.(s_threads) archive s.(s_log) expired).
Proof.
  intros [_ Hth Hpair [Hr Hk]] HI Hc Ho Hi Hi' Hexp. split; simpl; [done| |done|].
  - intros t th Ht. destruct (Hth _ _ Ht) as (Hp & Hs & [H1 H2 H3]).
    split_and!; [done|by rewrite Hc|]. split; [|by rewrite Hc|done].
    intros Hopen. eapply compat_shrink; [done| |done|by apply H1].
    intros h Hn. apply eq_None_not_Some. intros [i Hh%Hi]. congruence.
  - split; [eauto|]. intros i Hin Hne. apply Hi'; [|done].
    apply Hk; [done|set_solver].
Qed.

Lemma same_event_for o o' r : same_event o o' → event_for o r → event_for o' r.
Proof.
  intros (Hi & Ht & Ha & He & Hp). unfold event_for. by rewrite Hi, Ht, Ha, He, Hp.
Qed.

Lemma expire_db_inv c a h : db_inv c a → db_inv (set_idem (delete h) c) a.
Proof.
  intros [H1 H2 H3 H4 H5 H6 H7]. split; simpl; eauto.
  intros h' i [_ Hi]%lookup_delete_Some. eauto.
Qed.

Lemma update_db_inv c a e o o' :
  db_inv c a → c.(outbox) !! e = Some o → same_event o o' →
  db_inv (set_outbox <[e := o']> c) a.
Proof.
  intros [H1 H2 H3 H4 H5 H6 H7] Ho Hsame.
  pose proof Hsame as (Hid & _ & Hagg & _). destruct (H5 e o Ho) as (He & Har & r & Hr & Hev).
  split; simpl; eauto.
  - intros id r' Hr'. destruct (H4 id r' Hr') as (o1 & Hev1 & [Hin|Hin]);
      [|exists o1; split; [done|by right]].
    destruct (decide (o1.(o_id) = e)) as [Heq|Hne].
    + assert (o1 = o) by congruence. subst o1. exists o'. split; [by eapply same_event_for|].
      left. apply lookup_insert_Some. left. split; congruence.
    + exists o1. split; [done|]. left. by rewrite lookup_insert_ne by done.
  - intros e1 o1 [[<- <-]|[Hne Hin]]%lookup_insert_Some; [|eauto].
    rewrite Hid, Hagg. split_and!; [done|done|]. exists r. split; [done|]. by eapply same_event_for.
  - intros e1 e2 o1 o2 [[<- <-]|[Hne1 Hin1]]%lookup_insert_Some
      [[<- <-]|[Hne2 Hin2]]%lookup_insert_Some; rewrite ?Hagg; eauto.
Qed.

Lemma archive_db_inv c a e o :
  db_inv c a → c.(outbox) !! e = Some o →
  db_inv (set_outbox (delete e) c) (<[o.(o_aggregate_id) := o]> a).
Proof.
  intros [H1 H2 H3 H4 H5 H6 H7] Ho. destruct (H5 e o Ho) as (He & Har & r & Hr & Hev).
  split; simpl; eauto.
  - intros id r' Hr'. destruct (decide (id = o.(o_aggregate_id))) as [->|Hne].
    + exists o. simplify_eq. split; [done|]. right. apply lookup_insert_eq.
    + destruct (H4 id r' Hr') as (o1 & Hev1 & Hin). exists o1. split; [done|].
      rewrite lookup_insert_ne by done. destruct Hin as [Hin|]; [left|by right].
      rewrite lookup_delete_ne; [done|]. intros Heq.
      assert (o1 = o) by congruence. subst o1. apply Hne.
      destruct Hev1 as (_ & -> & _). by destruct (H1 _ _ Hr').
  - intros e1 o1 [Hne Hin]%lookup_delete_Some. destruct (H5 e1 o1 Hin) as (? & ? & Hex).
    split_and!; [done| |done]. rewrite lookup_insert_ne; [done|]. intros Heq. by eapply Hne, H7.
  - intros id o1 [[<- <-]|[Hne Hin]]%lookup_insert_Some; eauto.
  - intros e1 e2 o1 o2 [_ Hin1]%lookup_delete_Some [_ Hin2]%lookup_delete_Some. eauto.
Qed.

Lemma init_inv : sys_inv init_sys.
Proof.
  split; simpl; [apply empty_inv|intros; simplify_map_eq..|].
  split; simpl; [intros; simplify_map_eq|set_solver].
Qed.

Lemma step_inv s s' : step s s' → sys_inv s → sys_inv s'.
Proof.
  intros Hstep Hinv. destruct Hstep as
    [s t cmd p fuel Ht Hp|s t p l st k ch c' l' r Ht Hch Hex Hfree|s t|s h i Hi Hst
    |s e o o' Ho Hsame|s e o Ho Hpub].
  - pose proof Hinv as [HI Hth Hpair Hlog]. split; simpl; [done| | |done].
    + intros t2 th [[<- <-]|[Hne Ht2]]%lookup_insert_Some; [|by eapply Hth].
      apply prepareCreateClaim_params in Hp.
      split_and!; [done|by apply safe_createClaim|by apply local_ok_empty].
    + intros t1 t2 th1 th2 Hne [[<- <-]|[Hne1 Ht1]]%lookup_insert_Some
        [[<- <-]|[Hne2 Ht2]]%lookup_insert_Some; [done|by apply pair_ok_empty| |by eauto].
      apply pair_ok_sym. by apply pair_ok_empty.
  - by eapply stmt_inv.
  - pose proof Hinv as [HI Hth Hpair Hlog]. split; simpl; [done| | |done].
    + intros t2 th [_ Ht2]%lookup_delete_Some. by eapply Hth.
    + intros t1 t2 th1 th2 Hne [_ Ht1]%lookup_delete_Some [_ Ht2]%lookup_delete_Some. by eauto.
  - pose proof Hinv as [HI _ _ [_ Hk]].
    apply env_inv; [done|by apply expire_db_inv|done|done| | |set_solver].
    + intros h' i'. simpl. by intros [_ ?]%lookup_delete_Some.
    + intros h' i' Hh Hne. simpl. rewrite lookup_delete_ne; [done|set_solver].
  - apply env_inv; [done|by eapply update_db_inv; [apply Hinv|..]|done| |done..].
    intros e' Hn. simpl. rewrite lookup_insert_ne; [done|]. congruence.
  - apply env_inv; [done|by eapply archive_db_inv; [apply Hinv|..]|done| |done..].
    intros e' Hn. simpl. apply lookup_delete_None. by right.
Qed.

Lemma reachable_inv s : reachable s → sys_inv s.
Proof.
  intros Hr. cut (∀ s0, rtc step s0 s → sys_inv s0 → sys_inv s); [intros Hc; eauto using init_inv|].
  clear Hr. intros s0 Hr. induction Hr; eauto using step_inv.
Qed.
End system.

End RewardsSys.
