(* ===== verification/RewardsSeq.v ===== *)
(** * One reward-claim call, run alone

    What a single [createClaim] does to the committed state when no other
    transaction interferes: it is atomic whatever fails, and without failures it
    computes the reference function [claim_spec]. *)
From S2P Require Import Prelude.
From S2P Require Import GoErrors.
From S2P Require Import Prog.
From S2P Require Import GoStrings.
From S2P Require Import GoJson.
From S2P Require Import Schema.
From S2P Require Import Availability.
From S2P Require Import Rewards.
From S2P Require Import RewardsTx.
From S2P Require Import RewardsSql.
From S2P Require Import RewardsDemo.
From S2P Require Import RewardsInv.
From S2P Require Import RewardsLogic.
From S2P Require Import RewardsSys.
Local Open Scope Z_scope.

Module RewardsSeq.
Import Schema Rewards RewardsTx RewardsSql RewardsDemo RewardsInv RewardsLogic RewardsSys.

Section seq.
Context `{Postgres}.

(** ** Running a safe program *)

(** The committed state of a transaction that started in [c0]. *)
Definition tx_state (c0 c : db) (l : local) : Prop :=
  local_ok c l ∧ (l.(l_status) = TxOpen ∨ l.(l_status) = TxCommitted → compat c0 l)
  ∧ c = (if decide (l.(l_status) = TxCommitted) then overlay l.(l_writes) c0 else c0).

Lemma tx_state_step c0 c l c' l' :
  tx_state c0 c l → local_step c l c' l' → tx_state c0 c' l'.
Proof.
  intros (Hl & Hc & Heq) Hs. pose proof (local_step_ok _ _ _ _ Hl Hs) as Hl'.
  split; [done|]. destruct Hs as [|now Hidle|Ho|w Ho Hw|lost Ho];
    (rewrite decide_False in Heq by congruence) || done; subst c.
  - split; [intros; by apply compat_empty|]. by rewrite decide_False.
  - split; [by intros [?|?]|]. by rewrite decide_False.
  - split; [intros; apply Hw|]. simpl. by rewrite decide_False by congruence.
  - split; [|by rewrite decide_True]. intros _.
    destruct Hc as [? ? ?]; [by left|]. by split.
Qed.

(** Everything a run has learnt is in its last state. *)
Definition known (c : db) (k : know) : Prop :=
  k.(k_claims) ⊆ c.(claims) ∧ ∀ i, i ∈ k.(k_idem) → c.(idem) !! i.(i_key_hash) = Some i.

Lemma commit_keeps p c c' h i :
  commit_shape p c c' → c.(idem) !! h = Some i → c'.(idem) !! h = Some i.
Proof.
  intros [(cr & o & now & pl & _ & _ & _ & _ & Hn & _ & _ & _ & ->)|(r & now & _ & _ & Hn & ->)] Hi.
  all: simpl; rewrite lookup_insert_ne; [done|congruence].
Qed.

Lemma known_learn p c c' a k :
  db_inv c' a → known c k → c' = c ∨ commit_shape p c c' → known c' (learn c' k).
Proof.
  intros HI [Hkc Hki] Hd. split; [done|]. intros i [[h Hh]%elem_of_idem_rows|Hi]%elem_of_app.
  - by destruct (inv_idem _ _ HI _ _ Hh) as [-> _].
  - destruct Hd as [->|Hd]; [auto|]. eapply commit_keeps; eauto.
Qed.

Lemma safe_run {A} p c0 a (m : prog A) Φ :
  db_inv c0 a → ∀ chs c l k c' l' r,
  safe p m l k Φ → Forall choice_ok chs → db_inv c a → tx_state c0 c l → known c k →
  c = c0 ∨ commit_shape p c0 c →
  run chs c l m = Some (c', l', r) →
  tx_state c0 c' l' ∧ db_inv c' a ∧ (c' = c0 ∨ commit_shape p c0 c')
  ∧ ∃ k', known c' k' ∧ Φ r l' k'.
Proof.
  intros HI0. induction m as [x| |s f IH]; intros chs c l k c' l' r Hs Hchs HI Hst Hk Hd Hrun;
    simpl in Hrun; [simplify_eq; split_and!; eauto|done|].
  destruct chs as [|ch chs]; [done|]. apply Forall_cons in Hchs as [Hch Hchs].
  specialize (Hs c ch). destruct (exec ch c l s) as [[c1 l1] r1] eqn:Hex.
  pose proof Hst as (Hl & _ & Hceq).
  destruct Hs as (Hone & _ & Hs); [split_and!; [eauto|apply Hk|apply Hl]|done|].
  assert (local_step c l c1 l1) as Hls by (eapply exec_local_step; [done|apply Hl|done]).
  assert (c1 = c ∨ commit_shape p c c1) as Hd1 by naive_solver.
  assert (db_inv c1 a) by (destruct Hd1 as [->|?]; [done|by eapply commit_inv]).
  eapply IH; [done..|by eapply tx_state_step|by eapply known_learn| |done].
  destruct Hone as [->|(Ho & -> & Hsh)]; [done|]. right.
  rewrite decide_False in Hceq by congruence. by subst c.
Qed.

Lemma createClaim_run fuel chs c a p c' l' r :
  db_inv c a → params_ok p → Forall choice_ok chs →
  run chs c init_local (createClaim fuel p) = Some (c', l', r) →
  tx_state c c' l' ∧ db_inv c' a ∧ (c' = c ∨ commit_shape p c c')
  ∧ ∃ k, known c' k ∧ tx_post p r l' k.
Proof.
  intros HI Hp Hchs Hrun.
  eapply safe_run with (k := Know ∅ []) (Φ := tx_post p); eauto using safe_createClaim.
  - split_and!; [by apply local_ok_empty|by intros [?|?]|done].
  - split; [apply map_empty_subseteq|]. simpl. set_solver.
Qed.

(** A fresh success changed the state. *)
Lemma fresh_changes p c c' a l' k res :
  db_inv c a → tx_state c c' l' → known c' k → tx_post p (Ok res) l' k →
  res.(Replayed) = false → c' ≠ c.
Proof.
  intros HI (Hl & Hcompat & Heq) Hk (Hst & _ & _ & Hw) Hr. rewrite Hr in Hw.
  rewrite decide_True in Heq by done. destruct Hcompat as [Hi Hc _]; [by right|].
  intros ->. destruct (res.(StatusCode) =? 201).
  - destruct Hw as (cr & Hw & _). destruct (Hc cr.(c_id) cr) as [Hn _].
    { rewrite Hw. apply lookup_singleton_eq. }
    assert (c.(claims) !! cr.(c_id) = Some cr) as Hs; [|congruence].
    rewrite Heq. simpl. apply lookup_union_Some_l. rewrite Hw. apply lookup_singleton_eq.
  - destruct Hw as [_ [i Hw]].
    assert (c.(idem) !! p.(p_KeyHash) = Some i) as Hs.
    { rewrite Heq. simpl. by apply lookup_union_Some_l. }
    rewrite Hi in Hs; [done|eauto].
Qed.

(** ** The reference function

    What a call does to the committed state when nothing fails, at time [now],
    with the identifiers [id] and [event_id] drawn for a new claim. *)
Definition new_claim (p : createClaimParams) (now : Z) (id : string) : claim_row :=
  ClaimRow id p.(p_PlayerID) p.(p_CampaignID) p.(p_RewardID) now.

Definition new_event (r : claim_row) (event_id : string) : option outbox_row :=
  payload ← marshalRewardClaimedEvent (newRewardClaimedEvent event_id (claim_of r));
  doc ← jsonb_in payload;
  Some (new_outbox_row event_id outboxAggregateTypeRewardClaim r.(c_id)
          outboxEventTypeRewardClaimed doc r.(c_created_at)).

Definition claim_spec (c : db) (p : createClaimParams) (now : Z) (id : string) (o : outbox_row)
  : db * result goerr CreateClaimResult :=
  match c.(idem) !! p.(p_KeyHash) with
  | Some i =>
      (c, if bool_decide (idem_triple i = triple_of p)
          then Ok (Result (default 0 i.(i_response_status)) (default ""%string i.(i_response_body)) true)
          else Err (ESentinel rewards_ErrIdempotencyKeyReused))
  | None =>
      if any_row (λ r, bool_decide (claim_triple r = triple_of p)) c.(claims) then
        (set_idem <[p.(p_KeyHash) := completed_row p now 409 duplicate_body None]> c,
         Ok (Result 409 duplicate_body false))
      else
        let r := new_claim p now id in
        (DB (<[id := r]> c.(claims))
            (<[p.(p_KeyHash) := completed_row p now 201 (created_body r) (Some id)]> c.(idem))
            (<[o.(o_id) := o]> c.(outbox)),
         Ok (Result 201 (created_body r) false))
  end.

(** The choices of a call during which nothing fails. *)
Definition quiet (now : Z) (b1 b2 : list Z) : list choice :=
  let ch b := Choice now b CtxLive None in
  [ch []; ch []; ch b1; ch []; ch b2; ch []; ch []; ch []; ch []].

Lemma quiet_ok now b1 b2 : Forall (λ ch, ch.(ch_fault) = None) (quiet now b1 b2).
Proof. repeat constructor. Qed.

Local Ltac sim :=
  cbn [run createClaim createClaim_body defer_rollback pbind ebind reserve_loop
       tryReserveIdempotencyKey tryLoadIdempotentClaimResult tryInsertClaim
       insertRewardClaimedOutboxEvent completeIdempotencyKey commit_and_return
       completeCreatedClaim completeDuplicateClaim quiet
       exec exec_commit in_tx scan_row begun set_writes committed abort init_local
       l_status l_writes l_now l_lost ch_fault ch_now ch_rand ch_ctx negb Z.eqb Pos.eqb].

Lemma overlay_add_idem_idem r w c h : r.(i_key_hash) = h →
  (overlay (add_idem r w) c).(idem) !! h = Some r.
Proof. intros <-. simpl. apply lookup_union_Some_l, lookup_insert_eq. Qed.

Lemma run_replay c a fuel p now b1 b2 i :
  db_inv c a → params_ok p → c.(idem) !! p.(p_KeyHash) = Some i →
  ∃ l', run (quiet now b1 b2) c init_local (createClaim (S fuel) p)
    = Some (c, l', if bool_decide (idem_triple i = triple_of p)
          then Ok (Result (default 0 i.(i_response_status)) (default ""%string i.(i_response_body)) true)
          else Err (ESentinel rewards_ErrIdempotencyKeyReused)).
Proof.
  intros HI Hp Hi. destruct (reserve_checks p now Hp) as (Ht & Hc & _ & _).
  sim. unfold sql_reserve. rewrite overlay_empty, Ht, Hc, Hi. sim.
  unfold sql_load. rewrite overlay_empty, Hi. cbn [fmap option_fmap option_map]. sim.
  destruct (check_stored_ok p a c i HI Hi) as [(Htr & r & Hr & Hrep & _)|[Htr ->]].
  - rewrite Hr. sim. rewrite overlay_empty. eexists. rewrite bool_decide_true by done.
    repeat f_equal. revert Hr. unfold check_stored. simpl. intros Hr. by crush_in Hr.
  - sim. eexists. by rewrite bool_decide_false.
Qed.

Lemma run_duplicate c a fuel p now b1 b2 :
  db_inv c a → params_ok p → bytes16 b1 → c.(idem) !! p.(p_KeyHash) = None →
  any_row (λ r, bool_decide (claim_triple r = triple_of p)) c.(claims) = true →
  ∃ l', run (quiet now b1 b2) c init_local (createClaim (S fuel) p)
    = Some (set_idem <[p.(p_KeyHash) := completed_row p now 409 duplicate_body None]> c, l',
            Ok (Result 409 duplicate_body false)).
Proof.
  intros HI Hp Hb1 Hi Hany. destruct (reserve_checks p now Hp) as (Ht & Hc & Hcl & Hst).
  sim. unfold sql_reserve. rewrite overlay_empty, Ht, Hc, Hi. sim.
  unfold sql_insert_claim. rewrite Ht, (uuid_in_canonical _ (newUUIDV4_canonical _ Hb1)), Hcl. sim.
  rewrite overlay_claims_empty, Hany by done. sim.
  change (errors_Is (fail_err (no_rows _)) pgx_ErrNoRows) with true. sim.
  change marshalDuplicateClaimResponse with (@Ok goerr string duplicate_body). sim.
  rewrite (sql_complete_reserved p _ _ now); [|done|by apply duplicate_body_ok| |by right].
  2: { by apply overlay_add_idem_idem. }
  sim. eexists. do 3 f_equal. unfold overlay, add_idem, set_idem. simpl.
  rewrite insert_insert_eq, <-insert_union_l, !(left_id_L ∅ (∪)). done.
Qed.

Lemma run_created c a fuel p now b1 b2 o :
  db_inv c a → params_ok p → bytes16 b1 → bytes16 b2 →
  c.(idem) !! p.(p_KeyHash) = None →
  any_row (λ r, bool_decide (claim_triple r = triple_of p)) c.(claims) = false →
  let r := new_claim p now (newUUIDV4 b1) in
  c.(claims) !! r.(c_id) = None → c.(outbox) !! newUUIDV4 b2 = None →
  new_event r (newUUIDV4 b2) = Some o →
  ∃ l', run (quiet now b1 b2) c init_local (createClaim (S fuel) p)
    = Some (DB (<[r.(c_id) := r]> c.(claims))
              (<[p.(p_KeyHash) := completed_row p now 201 (created_body r) (Some r.(c_id))]> c.(idem))
              (<[o.(o_id) := o]> c.(outbox)), l',
            Ok (Result 201 (created_body r) false)).
Proof.
  intros HI Hp Hb1 Hb2 Hi Hany r Hid Hoid Hev. destruct (reserve_checks p now Hp) as (Ht & Hc & Hcl & Hst).
  pose proof (newUUIDV4_canonical _ Hb1) as Hcan. 
  sim. unfold sql_reserve. rewrite overlay_empty, Ht, Hc, Hi. sim.
  unfold sql_insert_claim. rewrite Ht, (uuid_in_canonical _ Hcan), Hcl. sim.
  rewrite overlay_claims_empty, Hany by done. fold (new_claim p now (newUUIDV4 b1)). fold r.
  change r.(c_id) with (newUUIDV4 b1) in *. rewrite Hid. sim.
  change (marshalCreatedClaimResponse (claim_of r)) with (@Ok goerr string (created_body r)). sim.
  unfold new_event in Hev. apply bind_Some in Hev as (payload & Hpl & Hev).
  apply bind_Some in Hev as (doc & Hdoc & [= <-]). rewrite Hpl. sim.
  change (ID (claim_of r)) with (newUUIDV4 b1).
  pose proof (newUUIDV4_canonical _ Hb2) as Hcan2.
  rewrite (sql_insert_event c a _ _ _ _ (newRewardClaimedEvent (newUUIDV4 b2) (claim_of r)) _ doc)
    by done.
  rewrite Hoid. sim.
  rewrite (sql_complete_reserved p _ _ now);
    [|done|by apply created_body_ok|by apply overlay_add_idem_idem|left; split_and!; [done..|]].
  2: { exists r. apply lookup_union_Some_l, lookup_insert_eq. }
  sim. eexists. do 3 f_equal. unfold overlay, add_idem, add_outbox, add_claim. simpl.
  by rewrite insert_insert_eq, <-!insert_union_l, !(left_id_L ∅ (∪)).
Qed.

(** The identifiers a call draws are unused, and PostgreSQL accepts its event. *)
Definition drawable (c : db) (p : createClaimParams) (now : Z) (b1 b2 : list Z)
    (o : outbox_row) : Prop :=
  bytes16 b1 ∧ bytes16 b2 ∧ c.(claims) !! newUUIDV4 b1 = None ∧ c.(outbox) !! newUUIDV4 b2 = None
  ∧ new_event (new_claim p now (newUUIDV4 b1)) (newUUIDV4 b2) = Some o.

Lemma run_spec c a fuel p now b1 b2 o :
  db_inv c a → params_ok p → drawable c p now b1 b2 o →
  ∃ l', run (quiet now b1 b2) c init_local (createClaim (S fuel) p)
    = Some ((claim_spec c p now (newUUIDV4 b1) o).1, l', (claim_spec c p now (newUUIDV4 b1) o).2).
Proof.
  intros HI Hp (Hb1 & Hb2 & Hid & Hoid & Hev). unfold claim_spec.
  destruct (c.(idem) !! p.(p_KeyHash)) as [i|] eqn:Hi; [by eapply run_replay|].
  destruct (any_row _ _) eqn:Hany; [by eapply run_duplicate|].
  by eapply run_created.
Qed.

(** ** Properties *)

(** C5: a call of [createClaim] with an accepted command, run against any
    consistent database without failures, terminates after one pass of the
    reservation loop and computes [claim_spec]: a retained key replays its
    stored status and bytes or reports the reuse of the key by another request,
    without a change; otherwise an existing claim makes it store and return the
    409 body, and a new one makes it store exactly the claim, its event and the
    201 response. *)
Theorem createClaim_refines_spec cmd p c a fuel now b1 b2 o :
  prepareCreateClaim cmd = Ok p → db_inv c a → drawable c p now b1 b2 o →
  ∃ l', run (quiet now b1 b2) c init_local (createClaim (S fuel) p)
    = Some ((claim_spec c p now (newUUIDV4 b1) o).1, l', (claim_spec c p now (newUUIDV4 b1) o).2).
Proof. intros Hp%prepareCreateClaim_params. eauto using run_spec. Qed.

(** C4: whatever statement fails, a call is all or nothing: an error leaves the
    committed state untouched unless the acknowledgement of the commit was lost;
    a replayed success changes nothing; any other success is exactly one commit
    (claim, event and response together, or the stored duplicate response
    alone); consistency is preserved in every case. *)
Theorem createClaim_atomic cmd p fuel chs c a c' l' r :
  prepareCreateClaim cmd = Ok p → db_inv c a → Forall choice_ok chs →
  run chs c init_local (createClaim fuel p) = Some (c', l', r) →
  db_inv c' a ∧
  match r with
  | Ok res => if res.(Replayed) then c' = c else commit_shape p c c'
  | Err e => tx_error e ∧ (c' = c ∨ (l'.(l_lost) = true ∧ commit_shape p c c'))
  end.
Proof.
  intros Hp%prepareCreateClaim_params HI Hchs Hrun.
  destruct (createClaim_run _ _ _ _ _ _ _ _ HI Hp Hchs Hrun) as (Hst & HI' & Hd & k & Hk & Hpost).
  split; [done|]. destruct r as [res|e].
  - destruct res.(Replayed) eqn:Hr.
    + destruct Hpost as (Hcom & _ & _ & Hw), Hst as (_ & _ & ->). rewrite Hr in Hw.
      by rewrite decide_True, Hw, overlay_empty.
    + destruct Hd as [->|?]; [|done]. by destruct (fresh_changes _ _ _ _ _ _ _ HI Hst Hk Hpost).
  - destruct Hpost as [He Hlost]. split; [done|]. destruct Hst as (_ & _ & Heq).
    destruct (decide (l'.(l_status) = TxCommitted)); [|by left].
    destruct Hd as [->|?]; [by left|right; auto].
Qed.

Lemma retry_run cmd p fuel chs c a c1 l1 r1 fuel2 now b1 b2 :
  prepareCreateClaim cmd = Ok p → db_inv c a → Forall choice_ok chs →
  run chs c init_local (createClaim fuel p) = Some (c1, l1, r1) →
  (∃ res1, r1 = Ok res1) ∨ c1 ≠ c →
  ∃ l2 res, run (quiet now b1 b2) c1 init_local (createClaim (S fuel2) p) = Some (c1, l2, Ok res)
    ∧ res.(Replayed) = true ∧ (res.(StatusCode) = 201 ∨ res.(StatusCode) = 409)
    ∧ ∀ res1, r1 = Ok res1 →
        res.(StatusCode) = res1.(StatusCode) ∧ res.(ResponseBody) = res1.(ResponseBody).
Proof.
  intros Hp%prepareCreateClaim_params HI Hchs Hrun Hor.
  destruct (createClaim_run _ _ _ _ _ _ _ _ HI Hp Hchs Hrun) as (Hst & HI' & Hd & k & Hk & Hpost).
  assert (∃ i, c1.(idem) !! p.(p_KeyHash) = Some i ∧ idem_triple i = triple_of p ∧
    ∀ res1, r1 = Ok res1 → i.(i_response_status) = Some res1.(StatusCode)
                           ∧ i.(i_response_body) = Some res1.(ResponseBody))
    as (i & Hi & Htr & Hres).
  { destruct r1 as [res1|e].
    - destruct Hpost as (_ & _ & [_ (i & Hin & Hkey & Htr & Hs & Hb)] & _).
      exists i. destruct Hk as [_ Hk]. rewrite <-Hkey. split_and!; [by apply Hk|done|].
      by intros ? [= <-].
    - destruct Hor as [[??]|Hne]; [done|]. destruct Hd as [?|Hd]; [done|].
      destruct Hd as [(cr & o & t & pl & _ & _ & _ & _ & _ & _ & _ & _ & ->)|(r & t & _ & _ & _ & ->)];
        (eexists; split_and!; [apply lookup_insert_eq|done|done]). }
  destruct (run_replay c1 a fuel2 p now b1 b2 i HI' Hp Hi) as [l2 Hrun2].
  rewrite bool_decide_true in Hrun2 by done. eexists l2, _. split_and!; [exact Hrun2|done| |].
  { destruct (inv_idem _ _ HI' _ _ Hi) as (_ & cr & _ & _ & Hst2). simpl.
    destruct Hst2 as [(-> & _)|(-> & _)]; [by left|by right]. }
  intros res1 Hr. destruct (Hres res1 Hr) as [-> ->]. done.
Qed.

(** C6: a retry is safe after any outcome.  Suppose a first call, with any
    failures, either succeeded or changed the database (a commit whose
    acknowledgement was lost included); then the same request with the same key
    succeeds as a replay without changing anything, and a first success is
    repeated with the same status and the same bytes. *)
Theorem createClaim_retry cmd p fuel chs c a c1 l1 r1 fuel2 now b1 b2 :
  prepareCreateClaim cmd = Ok p → db_inv c a → Forall choice_ok chs →
  run chs c init_local (createClaim fuel p) = Some (c1, l1, r1) →
  (∃ res1, r1 = Ok res1) ∨ c1 ≠ c →
  ∃ l2 res, run (quiet now b1 b2) c1 init_local (createClaim (S fuel2) p) = Some (c1, l2, Ok res)
    ∧ res.(Replayed) = true
    ∧ ∀ res1, r1 = Ok res1 →
        res.(StatusCode) = res1.(StatusCode) ∧ res.(ResponseBody) = res1.(ResponseBody).
Proof.
  intros Hp HI Hchs Hrun Hor.
  destruct (retry_run _ _ _ _ _ _ _ _ _ fuel2 now b1 b2 Hp HI Hchs Hrun Hor)
    as (l2 & res & Hrun2 & Hrep & _ & Hsame).
  by exists l2, res.
Qed.
End seq.

(** ** The theorems at a concrete request *)

(** The choices of a quiet call, with a failure at position [i]. *)
Definition fault_at (i : nat) (f : fail) (applied : bool) (chs : list choice) : list choice :=
  alter (λ ch, Choice ch.(ch_now) ch.(ch_rand) ch.(ch_ctx) (Some (f, applied))) i chs.

Definition demo_quiet : list choice := quiet demo_now demo_bytes1 demo_bytes2.

(** Every statement draws bytes; the acknowledgement of the commit is lost. *)
Definition demo_lost_commit : list choice :=
  fault_at 7 demo_fail true
    ((λ b, Choice demo_now b CtxLive None) <$> replicate 9 demo_bytes1).

Definition demo_event : outbox_row :=
  match @new_event demo_postgres (new_claim (params_of sample_command) demo_now (newUUIDV4 demo_bytes1))
          (newUUIDV4 demo_bytes2) with
  | Some o => o
  | None => new_outbox_row "" "" "" "" "" 0
  end.

Lemma createClaim_refines_spec_witness :
  ∃ l', @run demo_postgres _ demo_quiet empty_db init_local
          (@createClaim demo_postgres 1 (params_of sample_command))
        = Some ((claim_spec empty_db (params_of sample_command) demo_now (newUUIDV4 demo_bytes1)
                   demo_event).1, l',
                (claim_spec empty_db (params_of sample_command) demo_now (newUUIDV4 demo_bytes1)
                   demo_event).2).
Proof.
  apply (@createClaim_refines_spec demo_postgres sample_command _ _ ∅ 0).
  - vm_compute. reflexivity.
  - apply empty_inv.
  - split_and!; [by apply bytes16_seqZ|by apply bytes16_seqZ|reflexivity|reflexivity|].
    vm_compute. reflexivity.
Defined.

Lemma demo_lost_commit_ok : Forall choice_ok demo_lost_commit.
Proof.
  unfold demo_lost_commit, fault_at. simpl.
  repeat (apply Forall_cons; split;
    [split; [apply bytes16_seqZ; lia|intros f b Hf; simpl in Hf; simplify_eq; reflexivity]|]).
  constructor.
Qed.

(** The outcome of that call: an error, with the claim committed. *)
Definition demo_outcome : option (db * local * result goerr CreateClaimResult) :=
  Eval vm_compute in
    @run demo_postgres _ demo_lost_commit empty_db init_local
      (@createClaim demo_postgres 1 (params_of sample_command)).
Definition demo_db : db := match demo_outcome with Some (c, _, _) => c | None => empty_db end.
Definition demo_local : local :=
  match demo_outcome with Some (_, l, _) => l | None => init_local end.
Definition demo_result : result goerr CreateClaimResult :=
  match demo_outcome with Some (_, _, r) => r | None => Err (ENew "") end.

Lemma demo_outcome_run :
  @run demo_postgres _ demo_lost_commit empty_db init_local
    (@createClaim demo_postgres 1 (params_of sample_command))
  = Some (demo_db, demo_local, demo_result).
Proof. vm_compute. reflexivity. Qed.

Lemma createClaim_atomic_witness :
  demo_local.(l_lost) = true ∧ @db_inv demo_postgres demo_db ∅.
Proof.
  split; [reflexivity|].
  apply (@createClaim_atomic demo_postgres sample_command (params_of sample_command) 1
           demo_lost_commit empty_db ∅ demo_db demo_local demo_result).
  - vm_compute. reflexivity.
  - apply empty_inv.
  - exact demo_lost_commit_ok.
  - exact demo_outcome_run.
Defined.

Lemma createClaim_retry_witness :
  ∃ l2 res, @run demo_postgres _ demo_quiet demo_db init_local
              (@createClaim demo_postgres 1 (params_of sample_command)) = Some (demo_db, l2, Ok res)
            ∧ res.(Replayed) = true.
Proof.
  destruct (@createClaim_retry demo_postgres sample_command (params_of sample_command) 1
              demo_lost_commit empty_db ∅ demo_db demo_local demo_result 0
              demo_now demo_bytes1 demo_bytes2) as (l2 & res & Hrun & Hrep & _).
  - vm_compute. reflexivity.
  - apply empty_inv.
  - exact demo_lost_commit_ok.
  - exact demo_outcome_run.
  - right. intros Heq. apply (f_equal (λ c, size c.(claims))) in Heq. vm_compute in Heq. discriminate.
  - exists l2, res. split; [exact Hrun|exact Hrep].
Defined.

End RewardsSeq.
