(* ===== verification/RewardsSafety.v ===== *)
(** * What concurrent reward-claim requests guarantee

    The theorems about the reachable states of the system of RewardsSys. *)
From S2P Require Import Prelude.
From S2P Require Import GoErrors.
From S2P Require Import Prog.
From S2P Require Import GoStrings.
From S2P Require Import GoJson.
From S2P Require Import Schema.
From S2P Require Import Availability.
From S2P Require Import Rewards.
From S2P Require Import RewardsTx.
From S2P Require Import RewardsSql.
From S2P Require Import RewardsDemo.
From S2P Require Import RewardsInv.
From S2P Require Import RewardsLogic.
From S2P Require Import RewardsSys.
From S2P Require Import RewardsSeq.
Local Open Scope Z_scope.

Module RewardsSafety.
Import Schema Rewards RewardsTx RewardsSql RewardsDemo RewardsInv RewardsLogic RewardsSys RewardsSeq.

Section safety.
Context `{Postgres}.

(** The call of transaction [t] has returned [r]. *)
Definition returned (s : sys) (t : nat) (th : thread) (r : result goerr CreateClaimResult) : Prop :=
  s.(s_threads) !! t = Some th ∧ th.(t_prog) = Ret r.

Lemma returned_post s t th r :
  reachable s → returned s t th r →
  tx_post th.(t_params) r th.(t_local) (Know s.(s_db).(claims) s.(s_log))
  ∧ local_ok s.(s_db) th.(t_local).
Proof.
  intros [_ Hth _ _]%reachable_inv [Ht Hr]. destruct (Hth _ _ Ht) as (_ & Hs & Hl).
  by rewrite Hr in Hs.
Qed.

(** A fresh 201 committed a claim of its own. *)
Lemma fresh_claim s t th res :
  reachable s → returned s t th (Ok res) → res.(Replayed) = false → res.(StatusCode) = 201 →
  ∃ cr, th.(t_local).(l_writes).(claims) = {[cr.(c_id) := cr]}
    ∧ s.(s_db).(claims) !! cr.(c_id) = Some cr
    ∧ claim_triple cr = triple_of th.(t_params) ∧ res.(ResponseBody) = created_body cr.
Proof.
  intros Hs Hr Hrep Hst. destruct (returned_post _ _ _ _ Hs Hr) as [(Hcom & _ & _ & Hw) Hl].
  rewrite Hrep, Hst in Hw. destruct Hw as (cr & Hw & Ht & Hb). exists cr. split_and!; [done| |done..].
  eapply lookup_weaken; [|by apply Hl]. rewrite Hw. apply lookup_singleton_eq.
Qed.

Lemma step_claims s s' : step s s' → sys_inv s → s.(s_db).(claims) ⊆ s'.(s_db).(claims).
Proof.
  intros Hstep Hinv. destruct Hstep as [| s t p l st k ch c' l' r Ht Hch Hex Hfree| | | |]; try done.
  simpl. destruct Hinv as [HI Hth _ _]. destruct (Hth _ _ Ht) as (_ & Hs & Hl). simpl in Hs.
  specialize (Hs s.(s_db) ch). rewrite Hex in Hs.
  destruct Hs as [[->|(_ & _ & ?%commit_grows)] _]; [split_and!; [eauto|done|apply Hl]|done..].
Qed.

Lemma steps_claims s s' :
  rtc step s s' → sys_inv s → s.(s_db).(claims) ⊆ s'.(s_db).(claims) ∧ sys_inv s'.
Proof.
  induction 1 as [|s s1 s' Hstep _ IH]; intros Hinv; [done|].
  destruct IH as [Hle Hinv']; [by eapply step_inv|]. split; [|done].
  etrans; [by apply step_claims|done].
Qed.

(** ** Properties *)

(** C1: a reward is granted at most once: in every interleaving of concurrent
    calls, crashes, failures, worker updates and retention, two calls that both
    returned a fresh 201 for the same player, campaign and reward are the same
    call. *)
Theorem reward_granted_once s t1 t2 th1 th2 res1 res2 :
  reachable s → returned s t1 th1 (Ok res1) → returned s t2 th2 (Ok res2) →
  res1.(Replayed) = false → res1.(StatusCode) = 201 →
  res2.(Replayed) = false → res2.(StatusCode) = 201 →
  triple_of th1.(t_params) = triple_of th2.(t_params) → t1 = t2.
Proof.
  intros Hs H1 H2 Hr1 Hs1 Hr2 Hs2 Htr. destruct (decide (t1 = t2)) as [|Hne]; [done|].
  destruct (fresh_claim _ _ _ _ Hs H1 Hr1 Hs1) as (cr1 & Hw1 & Hc1 & Ht1 & _).
  destruct (fresh_claim _ _ _ _ Hs H2 Hr2 Hs2) as (cr2 & Hw2 & Hc2 & Ht2 & _).
  apply reachable_inv in Hs as [HI _ Hpair _].
  destruct (Hpair t1 t2 th1 th2 Hne (proj1 H1) (proj1 H2)) as [_ Hdisj].
  rewrite Hw1, Hw2 in Hdisj. exfalso.
  assert (cr1.(c_id) = cr2.(c_id)) as Hid by (eapply inv_unique; [exact HI|done..|congruence]).
  rewrite Hid in Hdisj. eapply map_disjoint_spec; [exact Hdisj|apply lookup_singleton_eq..].
Qed.

(** C2: every reachable state of the tables is consistent: a player, campaign
    and reward has at most one claim; every claim has exactly one event, still
    in the outbox or removed after its publication, whose payload announces
    that claim; every stored response is complete and is the one its claim
    determines; no event exists without its claim. *)
Theorem reachable_consistent s : reachable s → db_inv s.(s_db) s.(s_archive).
Proof. intros Hs%reachable_inv. apply Hs. Qed.

(** C11: what a call returns is justified by the committed state: a success is
    the 201 or 409 response of the claim stored for its player, campaign and
    reward, and was stored under its key; an error is a mapped driver error, a
    reused key or an event that cannot be encoded, never one of the invariant
    failures the code guards against, and unless the acknowledgement of its
    commit was lost the call has committed nothing. *)
Theorem returned_justified s t th r :
  reachable s → returned s t th r →
  match r with
  | Ok res => result_ok th.(t_params) res (Know s.(s_db).(claims) s.(s_log))
  | Err e => tx_error e
             ∧ (th.(t_local).(l_lost) = false → th.(t_local).(l_status) ≠ TxCommitted)
  end.
Proof.
  intros Hs Hr. destruct (returned_post _ _ _ _ Hs Hr) as [Hpost _]. destruct r as [res|e].
  - apply Hpost.
  - destruct Hpost as [He Hl]. split; [done|]. intros Hf Hc. specialize (Hl Hc). congruence.
Qed.

(** C10: the code never leaves it to PostgreSQL to reject what it writes: in every
    interleaving, the statement a transaction is about to send is answered without
    an error unless the call itself fails, but for the missing rows the code asks
    for, an identifier that was drawn before, and a document the cast to [jsonb]
    refuses; in particular no CHECK, foreign key, text encoding or uuid is ever at
    fault, no second event is inserted for a claim, and no statement is sent outside
    an open transaction. *)
Theorem statements_accepted s t p l st k ch :
  reachable s → s.(s_threads) !! t = Some (Thread p l (Do st k)) →
  choice_ok ch → ch.(ch_fault) = None →
  ∀ f, failure st (exec ch s.(s_db) l st).2 = Some f →
  tolerated (overlay l.(l_writes) s.(s_db)) st f.(fail_err).
Proof.
  intros [HI Hth _ _]%reachable_inv Ht Hch. destruct (Hth _ _ Ht) as (_ & Hs & Hl). simpl in Hs.
  specialize (Hs s.(s_db) ch). destruct (exec ch s.(s_db) l st) as [[c' l'] r].
  apply Hs; [|done]. split_and!; [eauto|done|apply Hl].
Qed.

(** C3: a key answers one request with one response: while retention has not
    removed the key, all calls that succeeded with it, whatever their order
    and overlap, were for the same player, campaign and reward and returned
    the same status and the same bytes. *)
Theorem same_key_same_response s t1 t2 th1 th2 res1 res2 :
  reachable s → returned s t1 th1 (Ok res1) → returned s t2 th2 (Ok res2) →
  th1.(t_params).(p_KeyHash) = th2.(t_params).(p_KeyHash) →
  th1.(t_params).(p_KeyHash) ∉ s.(s_expired) →
  triple_of th1.(t_params) = triple_of th2.(t_params)
  ∧ res1.(StatusCode) = res2.(StatusCode) ∧ res1.(ResponseBody) = res2.(ResponseBody).
Proof.
  intros Hs H1 H2 Hk Hexp.
  destruct (returned_post _ _ _ _ Hs H1) as [(_ & _ & [_ (i1 & Hi1 & Hk1 & Ht1 & Hs1 & Hb1)] & _) _].
  destruct (returned_post _ _ _ _ Hs H2) as [(_ & _ & [_ (i2 & Hi2 & Hk2 & Ht2 & Hs2 & Hb2)] & _) _].
  apply reachable_inv in Hs as [_ _ _ [_ Hkept]]. simpl in *.
  pose proof (Hkept i1 Hi1 ltac:(congruence)) as E1.
  pose proof (Hkept i2 Hi2 ltac:(congruence)) as E2.
  assert (i1 = i2) as -> by congruence. split_and!; congruence.
Qed.

(** A granted reward is durable: once a call has returned a fresh 201, in
    every later state its claim is stored, and its event is in the outbox or
    was removed after its publication. *)
Theorem granted_durable s s' t th res :
  reachable s → returned s t th (Ok res) → res.(Replayed) = false → res.(StatusCode) = 201 →
  rtc step s s' →
  ∃ cr o, s'.(s_db).(claims) !! cr.(c_id) = Some cr
    ∧ claim_triple cr = triple_of th.(t_params) ∧ res.(ResponseBody) = created_body cr
    ∧ event_for o cr
    ∧ (s'.(s_db).(outbox) !! o.(o_id) = Some o ∨ s'.(s_archive) !! cr.(c_id) = Some o).
Proof.
  intros Hs Hr Hrep Hst Hsteps.
  destruct (fresh_claim _ _ _ _ Hs Hr Hrep Hst) as (cr & _ & Hcr & Ht & Hb).
  apply reachable_inv in Hs. destruct (steps_claims _ _ Hsteps Hs) as [Hle [HI _ _ _]].
  pose proof (lookup_weaken _ _ _ _ Hcr Hle) as Hcr'.
  destruct (inv_event _ _ HI _ _ Hcr') as (o & Hev & Hin). eauto 10.
Qed.

(** ** Reaching a state by running one call *)

(** A program after its first statements, with the given choices. *)
Fixpoint advance {A} (chs : list choice) (c : db) (l : local) (m : prog A)
  : option (db * local * prog A) :=
  match chs with
  | [] => Some (c, l, m)
  | ch :: chs =>
      match m with
      | Do st k => let '(c, l, r) := exec ch c l st in advance chs c l (k r)
      | _ => None
      end
  end.

Lemma run_advance {A} (m : prog A) : ∀ chs c l c' l' r,
  run chs c l m = Some (c', l', r) →
  ∃ chs' rest, chs = chs' ++ rest ∧ advance chs' c l m = Some (c', l', Ret r).
Proof.
  induction m as [x| |st k IH]; intros chs c l c' l' r Hrun; simpl in Hrun; [|done|].
  - simplify_eq. by exists [], chs.
  - destruct chs as [|ch chs]; [done|].
    destruct (exec ch c l st) as [[c1 l1] r1] eqn:Hex. apply IH in Hrun as (chs' & rest & -> & Hadv).
    exists (ch :: chs'), rest. split; [done|]. simpl. by rewrite Hex.
Qed.

(** The system follows while no other transaction is open. *)
Lemma advance_steps t p chs : ∀ s l m c' l' m',
  s.(s_threads) !! t = Some (Thread p l m) →
  (∀ t' th, t' ≠ t → s.(s_threads) !! t' = Some th → th.(t_local).(l_status) ≠ TxOpen) →
  Forall choice_ok chs → advance chs s.(s_db) l m = Some (c', l', m') →
  ∃ log, rtc step s (Sys c' (<[t := Thread p l' m']> s.(s_threads))
                       s.(s_archive) log s.(s_expired)).
Proof.
  induction chs as [|ch chs IH]; intros s l m c' l' m' Ht Hother Hchs Hadv; simpl in Hadv.
  - simplify_eq. exists s.(s_log). rewrite insert_id by done. by destruct s.
  - destruct m as [| |st k]; [done..|]. apply Forall_cons in Hchs as [Hch Hchs].
    destruct (exec ch s.(s_db) l st) as [[c1 l1] r1] eqn:Hex.
    destruct (IH (Sys c1 (<[t := Thread p l1 (k r1)]> s.(s_threads)) s.(s_archive)
                (idem_rows c1 ++ s.(s_log)) s.(s_expired)) l1 (k r1) c' l' m') as [log Hrtc];
      [apply lookup_insert_eq| |done|done|].
    + intros t' th Hne. simpl. rewrite lookup_insert_ne by done. eauto.
    + exists log. simpl in Hrtc. rewrite insert_insert_eq in Hrtc.
      eapply rtc_l; [|exact Hrtc]. eapply step_stmt; [done..|].
      intros t' th Hne Ht' Ho. by destruct (Hother _ _ Hne Ht').
Qed.

(** A call up to some statement, while no other transaction is open. *)
Lemma advance_reachable s t cmd p fuel chs c' l' m' :
  reachable s → s.(s_threads) !! t = None →
  map_Forall (λ _ th, th.(t_local).(l_status) ≠ TxOpen) s.(s_threads) →
  prepareCreateClaim cmd = Ok p → Forall choice_ok chs →
  advance chs s.(s_db) init_local (createClaim fuel p) = Some (c', l', m') →
  ∃ log, reachable (Sys c' (<[t := Thread p l' m']> s.(s_threads))
                      s.(s_archive) log s.(s_expired)).
Proof.
  intros Hs Ht Hothers Hp Hchs Hadv.
  pose proof (step_start s t cmd p fuel Ht Hp) as Hstart.
  match type of Hstart with step _ ?s1 =>
    destruct (advance_steps t p chs s1 init_local (createClaim fuel p) c' l' m') as [log Hrtc];
      [apply lookup_insert_eq| |done|done|]
  end.
  - intros t' th Hne. simpl. rewrite lookup_insert_ne by done. by eapply Hothers.
  - exists log. simpl in Hrtc. rewrite insert_insert_eq in Hrtc.
    eapply (transitivity (R := rtc step)); [exact Hs|]. by eapply rtc_l.
Qed.

(** A whole call, while no other transaction is open. *)
Lemma call_reachable s t cmd p fuel chs c' l' r :
  reachable s → s.(s_threads) !! t = None →
  map_Forall (λ _ th, th.(t_local).(l_status) ≠ TxOpen) s.(s_threads) →
  prepareCreateClaim cmd = Ok p → Forall choice_ok chs →
  run chs s.(s_db) init_local (createClaim fuel p) = Some (c', l', r) →
  ∃ log, reachable (Sys c' (<[t := Thread p l' (Ret r)]> s.(s_threads))
                      s.(s_archive) log s.(s_expired)).
Proof.
  intros Hs Ht Hothers Hp Hchs (chs' & rest & -> & Hadv)%run_advance.
  apply Forall_app in Hchs as [Hchs _]. by eapply advance_reachable.
Qed.
End safety.

(** ** A concrete execution

    A call that creates the sample claim, then a call that repeats it. *)
Definition demo_params : createClaimParams := Eval vm_compute in params_of sample_command.
Definition demo_choices (b : list Z) : list choice :=
  (λ b, Choice demo_now b CtxLive None) <$> replicate 9 b.

Definition demo_call (c : db) : option (db * local * result goerr CreateClaimResult) :=
  @run demo_postgres _ (demo_choices demo_bytes1) c init_local
    (@createClaim demo_postgres 1 demo_params).

Definition demo_first : option (db * local * result goerr CreateClaimResult) :=
  Eval vm_compute in demo_call empty_db.
Definition demo_db : db := match demo_first with Some (c, _, _) => c | None => empty_db end.
Definition demo_second : option (db * local * result goerr CreateClaimResult) :=
  Eval vm_compute in demo_call demo_db.

Definition demo_thread (o : option (db * local * result goerr CreateClaimResult)) : thread :=
  match o with
  | Some (_, l, r) => Thread demo_params l (Ret r)
  | None => Thread demo_params init_local OutOfFuel
  end.
Definition demo_threads : gmap nat thread :=
  <[1%nat := demo_thread demo_second]> (<[0%nat := demo_thread demo_first]> ∅).
Definition demo_sys (log : list idem_row) : sys := Sys demo_db demo_threads ∅ log ∅.

Definition demo_created : CreateClaimResult :=
  match demo_first with Some (_, _, Ok r) => r | _ => Result 0 "" false end.
Definition demo_replayed : CreateClaimResult :=
  match demo_second with Some (_, _, Ok r) => r | _ => Result 0 "" false end.

Lemma demo_choices_ok : Forall choice_ok (demo_choices demo_bytes1).
Proof.
  apply Forall_forall. intros ch Hch. unfold demo_choices in Hch.
  apply list_elem_of_fmap in Hch as (b & -> & Hb). apply elem_of_replicate in Hb as [-> _].
  split; [by apply bytes16_seqZ|done].
Qed.

(** The two calls, with their outcomes named. *)
Lemma demo_first_run :
  @run demo_postgres _ (demo_choices demo_bytes1) empty_db init_local
    (@createClaim demo_postgres 1 demo_params)
  = Some (demo_db, t_local (demo_thread demo_first), Ok demo_created).
Proof. vm_compute. reflexivity. Qed.
Lemma demo_second_run :
  @run demo_postgres _ (demo_choices demo_bytes1) demo_db init_local
    (@createClaim demo_postgres 1 demo_params)
  = Some (demo_db, t_local (demo_thread demo_second), Ok demo_replayed).
Proof. vm_compute. reflexivity. Qed.

Lemma demo_prepared : prepareCreateClaim sample_command = Ok demo_params.
Proof. vm_compute. reflexivity. Qed.

Definition demo_threads1 : gmap nat thread := <[0%nat := demo_thread demo_first]> ∅.

Lemma demo_reachable1 : ∃ log, @reachable demo_postgres (Sys demo_db demo_threads1 ∅ log ∅).
Proof.
  exact (@call_reachable demo_postgres init_sys 0%nat sample_command demo_params 1
           (demo_choices demo_bytes1) demo_db (t_local (demo_thread demo_first)) (Ok demo_created)
           (rtc_refl _ _) (lookup_empty _) (map_Forall_empty _) demo_prepared demo_choices_ok
           demo_first_run).
Qed.

Lemma demo_reachable : ∃ log, @reachable demo_postgres (demo_sys log).
Proof.
  destruct demo_reachable1 as [log H1].
  assert (map_Forall (λ _ th, th.(t_local).(l_status) ≠ TxOpen) demo_threads1) as Hclosed
    by (apply map_Forall_insert_2; [vm_compute; discriminate|apply map_Forall_empty]).
  exact (@call_reachable demo_postgres (Sys demo_db demo_threads1 ∅ log ∅) 1%nat sample_command
           demo_params 1 (demo_choices demo_bytes1) demo_db (t_local (demo_thread demo_second))
           (Ok demo_replayed) H1 eq_refl Hclosed
           demo_prepared demo_choices_ok demo_second_run).
Qed.

Lemma demo_returned_created log :
  returned (demo_sys log) 0%nat (demo_thread demo_first) (Ok demo_created).
Proof. split; reflexivity. Qed.
Lemma demo_returned_replayed log :
  returned (demo_sys log) 1%nat (demo_thread demo_second) (Ok demo_replayed).
Proof. split; reflexivity. Qed.

Lemma reward_granted_once_witness :
  ∃ s th, @reachable demo_postgres s ∧ returned s 0%nat th (Ok demo_created)
          ∧ demo_created.(StatusCode) = 201 ∧ 0%nat = 0%nat.
Proof.
  destruct demo_reachable as [log Hs].
  exists (demo_sys log), (demo_thread demo_first). split_and!; [done..|].
  apply (@reward_granted_once demo_postgres (demo_sys log) 0%nat 0%nat
           (demo_thread demo_first) (demo_thread demo_first) demo_created demo_created);
    [exact Hs|apply demo_returned_created|apply demo_returned_created|reflexivity..].
Defined.

Lemma reachable_consistent_witness :
  ∃ archive, @db_inv demo_postgres demo_db archive ∧ size demo_db.(claims) = 1%nat.
Proof.
  destruct demo_reachable as [log Hs]. exists ∅. split; [|reflexivity].
  exact (@reachable_consistent demo_postgres (demo_sys log) Hs).
Defined.

Lemma returned_justified_witness :
  demo_replayed.(Replayed) = true
  ∧ ∃ log, result_ok demo_params demo_replayed (Know demo_db.(claims) log).
Proof.
  split; [reflexivity|]. destruct demo_reachable as [log Hs]. exists log.
  exact (@returned_justified demo_postgres (demo_sys log) 1%nat (demo_thread demo_second)
           (Ok demo_replayed) Hs (demo_returned_replayed log)).
Defined.

Lemma same_key_same_response_witness :
  demo_created.(Replayed) = false ∧ demo_replayed.(Replayed) = true
  ∧ demo_created.(ResponseBody) = demo_replayed.(ResponseBody).
Proof.
  split_and!; [reflexivity..|]. destruct demo_reachable as [log Hs].
  apply (@same_key_same_response demo_postgres (demo_sys log) 0%nat 1%nat
           (demo_thread demo_first) (demo_thread demo_second) demo_created demo_replayed);
    [exact Hs|apply demo_returned_created|apply demo_returned_replayed|reflexivity|].
  apply not_elem_of_empty.
Defined.

Lemma granted_durable_witness :
  ∃ s cr, @reachable demo_postgres s ∧ s.(s_db).(claims) !! cr.(c_id) = Some cr
          ∧ demo_created.(ResponseBody) = created_body cr.
Proof.
  destruct demo_reachable as [log Hs]. exists (demo_sys log).
  destruct (@granted_durable demo_postgres (demo_sys log) (demo_sys log) 0%nat
              (demo_thread demo_first) demo_created Hs (demo_returned_created log)
              eq_refl eq_refl (rtc_refl _ _)) as (cr & o & Hcr & _ & Hb & _).
  exists cr. done.
Defined.

(** A call that is about to store its response. *)
Definition completing {A} (x : option (db * local * prog A)) : bool :=
  match x with Some (_, _, Do (SComplete _ status _ _) _) => status =? 201 | _ => false end.

Lemma completing_stmt {A} (x : option (db * local * prog A)) :
  completing x = true →
  ∃ c l p body id k, x = Some (c, l, Do (SComplete p 201 body id) k).
Proof.
  destruct x as [[[c l] [| |[] k]]|]; try done. intros Hst%Z.eqb_eq. simpl in Hst.
  subst. eauto 10.
Qed.

Lemma demo_choice_ok : choice_ok (Choice demo_now demo_bytes1 CtxLive None).
Proof. split; [by apply bytes16_seqZ|done]. Qed.

(** The sample call after its claim and its event. *)
Definition demo_completing :=
  @advance demo_postgres _ (take 6 (demo_choices demo_bytes1)) empty_db init_local
    (@createClaim demo_postgres 1 demo_params).

Lemma statements_accepted_witness :
  ∃ s l p body id k, @reachable demo_postgres s
    ∧ s.(s_threads) !! 0%nat = Some (Thread demo_params l (Do (SComplete p 201 body id) k))
    ∧ ∀ f, failure (SComplete p 201 body id)
             (@exec demo_postgres (Choice demo_now demo_bytes1 CtxLive None) s.(s_db) l
                (SComplete p 201 body id)).2 = Some f → False.
Proof.
  destruct (completing_stmt demo_completing) as (c & l & p & body & id & k & Hadv);
    [vm_compute; reflexivity|].
  destruct (@advance_reachable demo_postgres init_sys 0%nat sample_command demo_params 1
              (take 6 (demo_choices demo_bytes1)) c l (Do (SComplete p 201 body id) k)
              (rtc_refl _ _) (lookup_empty _) (map_Forall_empty _) demo_prepared
              (Forall_take _ _ _ demo_choices_ok) Hadv) as [log Hs].
  eexists _, l, p, body, id, k. split; [exact Hs|]. split; [reflexivity|].
  apply (@statements_accepted demo_postgres _ 0%nat demo_params l (SComplete p 201 body id) k
           (Choice demo_now demo_bytes1 CtxLive None) Hs eq_refl demo_choice_ok).
  reflexivity.
Defined.

End RewardsSafety.
