(* ===== verification/Outbox.v ===== *)
(** * The outbox store (internal/outbox/event.go, observer.go, store.go)

    Leasing and the ownership-fenced transitions of an event: the SQL of the
    four operations on the rows of [outbox_events], and the Go functions around
    it.  Every operation is one statement in its own transaction, so it reads
    and writes the committed rows atomically. *)
From S2P Require Import Prelude.
From S2P Require Import GoErrors.
From S2P Require Import Prog.
From S2P Require Import GoStrings.
From S2P Require Import Schema.
From S2P Require Import Availability.
From Stdlib Require Import Ascii.
Local Open Scope Z_scope.

Module Outbox.
Import Schema.

(** ** Data *)

Record Event := MkEvent {
  ID : string;
  AggregateType : string;
  AggregateID : string;
  EventType : string;
  Payload : string;
  FailedAttempts : Z
}.

Inductive ClaimOutcome := ClaimOutcomeClaimed | ClaimOutcomeEmpty | ClaimOutcomeError.
Inductive PublishOutcome :=
| PublishOutcomeSuccess | PublishOutcomeFailed | PublishOutcomeTimeout | PublishOutcomeCanceled.
Inductive Operation :=
| OperationClaim | OperationMarkPublished | OperationScheduleRetry | OperationMarkDeadLetter.

#[export] Instance PublishOutcome_eq_dec : EqDecision PublishOutcome.
Proof. solve_decision. Defined.
#[export] Instance Operation_eq_dec : EqDecision Operation.
Proof. solve_decision. Defined.

Definition claim_outcome_string (o : ClaimOutcome) : string :=
  match o with
  | ClaimOutcomeClaimed => "claimed"
  | ClaimOutcomeEmpty => "empty"
  | ClaimOutcomeError => "error"
  end.

Definition outcome_string (o : PublishOutcome) : string :=
  match o with
  | PublishOutcomeSuccess => "success"
  | PublishOutcomeFailed => "failed"
  | PublishOutcomeTimeout => "timeout"
  | PublishOutcomeCanceled => "canceled"
  end.

Definition operation_string (o : Operation) : string :=
  match o with
  | OperationClaim => "claim"
  | OperationMarkPublished => "mark_published"
  | OperationScheduleRetry => "schedule_retry"
  | OperationMarkDeadLetter => "mark_dead_letter"
  end.

Abbreviation table := (gmap string outbox_row).

(** What the environment decides when an operation runs: the clock, the rows
    other transactions hold locked, the state of the query context, and a failure
    of the call, with whether the statement was nevertheless applied. *)
Record choice := Choice {
  ch_now : Z;
  ch_locked : gset string;
  ch_ctx : ctx_state;
  ch_fault : option (goerr * bool)
}.

(** ** ClaimNext *)

(** The WHERE clause of the due event. *)
Definition due (now : Z) (o : outbox_row) : bool :=
  match o.(o_status) with
  | pending => o.(o_available_at) <=? now
  | processing => match o.(o_locked_until) with Some t => t <=? now | None => false end
  | _ => false
  end.

(** ORDER BY available_at, id *)
Definition before (o1 o2 : outbox_row) : bool :=
  (o1.(o_available_at) <? o2.(o_available_at))
  || ((o1.(o_available_at) =? o2.(o_available_at)) && String.ltb o1.(o_id) o2.(o_id)).

(** LIMIT 1 *)
Definition first (o : outbox_row) (best : option outbox_row) : option outbox_row :=
  match best with
  | Some b => if before b o then Some b else Some o
  | None => Some o
  end.

(** FOR UPDATE SKIP LOCKED *)
Definition due_event (now : Z) (locked : gset string) (m : table) : option outbox_row :=
  foldr first None
    (filter (λ o, due now o = true ∧ o.(o_id) ∉ locked) (map_to_list m).*2).

(** A row with the columns the operations write. *)
Definition set_lease (o : outbox_row) (available_at : Z) (status : event_status)
    (failed_attempts : Z) (reason locked_by : option string) (locked_until : option Z)
    (now : Z) (published_at dead_lettered_at : option Z) : outbox_row :=
  OutboxRow o.(o_id) o.(o_aggregate_type) o.(o_aggregate_id) o.(o_event_type) o.(o_payload)
    status failed_attempts available_at reason locked_by locked_until
    o.(o_created_at) now published_at dead_lettered_at.

Definition event_of (o : outbox_row) : Event :=
  MkEvent o.(o_id) o.(o_aggregate_type) o.(o_aggregate_id) o.(o_event_type) o.(o_payload)
    o.(o_failed_attempts).

(** Storing a changed row: its CHECKs, and the range of [integer]. *)
Definition update_row (o' : outbox_row) (m : table) : result string table :=
  if negb (o'.(o_failed_attempts) <? 2 ^ 31) then Err "22003"%string
  else if negb (outbox_check o') then Err "23514"%string
  else Ok (<[o'.(o_id) := o']> m).

Section store.
Context `{Postgres, PgInterval}.

Definition leased (o : outbox_row) (worker : string) (ttl now : Z) : outbox_row :=
  set_lease o o.(o_available_at) processing o.(o_failed_attempts) o.(o_last_failure_reason)
    (Some worker) (Some (now + make_interval ttl)) now o.(o_published_at) o.(o_dead_lettered_at).

Definition sql_claim (now : Z) (locked : gset string) (worker : string) (ttl : Z) (m : table)
  : result string (option outbox_row * table) :=
  if negb (text_ok worker) then Err "22021"%string
  else match due_event now locked m with
       | None => Ok (None, m)
       | Some o =>
           let o' := leased o worker ttl now in
           let! m' := update_row o' m in Ok (Some o', m')
       end.

(** UPDATE outbox_events SET ... WHERE id = $1 AND status = 'processing' AND locked_by = $2 *)
Definition sql_transition (f : outbox_row → outbox_row) (event_id worker : string) (m : table)
  : result string (Z * table) :=
  if negb (text_ok worker) then Err "22021"%string
  else match uuid_in event_id with
       | None => Err "22P02"%string
       | Some id =>
           match m !! id with
           | Some o =>
               if bool_decide (o.(o_status) = processing)
                  && bool_decide (o.(o_locked_by) = Some worker)
               then let! m' := update_row (f o) m in Ok (1, m')
               else Ok (0, m)
           | None => Ok (0, m)
           end
       end.

Definition set_published (now : Z) (o : outbox_row) : outbox_row :=
  set_lease o o.(o_available_at) published o.(o_failed_attempts) o.(o_last_failure_reason)
    None None now (Some now) o.(o_dead_lettered_at).

Definition set_retry (now delay : Z) (outcome : string) (o : outbox_row) : outbox_row :=
  set_lease o (now + make_interval delay) pending (o.(o_failed_attempts) + 1) (Some outcome)
    None None now o.(o_published_at) o.(o_dead_lettered_at).

Definition set_dead_letter (now : Z) (outcome : string) (o : outbox_row) : outbox_row :=
  set_lease o o.(o_available_at) dead_letter (o.(o_failed_attempts) + 1) (Some outcome)
    None None now o.(o_published_at) (Some now).

(** ** The Go functions *)

(** The pool is given by whether it is non-nil. *)
Record postgresStore := MkStore { queryTimeout : Z }.

Definition NewPostgresStore (pool : bool) (queryTimeout : Z) : result goerr postgresStore :=
  if negb pool then Err (ENew "postgres outbox pool is required")
  else if queryTimeout <=? 0 then
    Err (ENew "postgres outbox query timeout must be greater than zero")
  else Ok (MkStore queryTimeout).

Definition mapPostgresError (ctx : option ctx_state) (err : goerr) : goerr :=
  Availability.map_error "postgres outbox operation returned no row" "postgres outbox operation"
    outbox_errStoreInternal outbox_errStoreUnavailable outbox_errPostgresQueryTimeout ctx err.

(** One statement, committed on its own: a failed call may still have been
    applied. *)
Definition autocommit {A} (ch : choice) (m : table) (sem : result string (A * table))
  : table * result goerr A :=
  match sem with
  | Err sqlstate => (m, Err (match ch.(ch_fault) with
                             | Some (e, _) => e
                             | None => EForeign (pg_error sqlstate) []
                             end))
  | Ok (a, m') =>
      match ch.(ch_fault) with
      | Some (e, true) => (m', Err e)
      | Some (e, false) => (m, Err e)
      | None => (m', Ok a)
      end
  end.

Definition ClaimNext (ch : choice) (m : table) (workerID : string) (lockTTL : Z)
  : table * result goerr (option Event) :=
  if bool_decide (workerID = "")%string then (m, Err (ENew "worker id must not be empty"))
  else if lockTTL <=? 0 then (m, Err (ENew "lock ttl must be greater than zero"))
  else
    let '(m', r) := autocommit ch m (sql_claim ch.(ch_now) ch.(ch_locked) workerID lockTTL m) in
    (m', match r with
         | Ok None => Ok None                        (* pgx.ErrNoRows *)
         | Ok (Some o) => Ok (Some (event_of o))
         | Err err =>
             if errors_Is err pgx_ErrNoRows then Ok None
             else Err (EWrap "claim next outbox event" (mapPostgresError (Some ch.(ch_ctx)) err))
         end).

(** What the three transitions share: the statement and the check of the number
    of rows it affected. *)
Definition transition (ch : choice) (m : table) (message : string) (f : outbox_row → outbox_row)
    (workerID eventID : string) : table * result goerr unit :=
  let '(m', r) := autocommit ch m (sql_transition f eventID workerID m) in
  (m', match r with
       | Err err => Err (EWrap message (mapPostgresError (Some ch.(ch_ctx)) err))
       | Ok rows => if negb (rows =? 1) then Err (EWrap message (ESentinel outbox_ErrLeaseLost))
                    else Ok tt
       end).

Definition MarkPublished (ch : choice) (m : table) (workerID eventID : string)
  : table * result goerr unit :=
  if bool_decide (workerID = "")%string then (m, Err (ENew "worker id must not be empty"))
  else if bool_decide (eventID = "")%string then (m, Err (ENew "event id must not be empty"))
  else transition ch m "mark outbox event published" (set_published ch.(ch_now)) workerID eventID.

Definition ScheduleRetry (ch : choice) (m : table) (workerID eventID : string)
    (retryDelay : Z) (outcome : PublishOutcome) : table * result goerr unit :=
  if bool_decide (workerID = "")%string then (m, Err (ENew "worker id must not be empty"))
  else if bool_decide (eventID = "")%string then (m, Err (ENew "event id must not be empty"))
  else if retryDelay <=? 0 then (m, Err (ENew "retry delay must be greater than zero"))
  else transition ch m "schedule outbox event retry"
         (set_retry ch.(ch_now) retryDelay (outcome_string outcome)) workerID eventID.

Definition MarkDeadLetter (ch : choice) (m : table) (workerID eventID : string)
    (outcome : PublishOutcome) : table * result goerr unit :=
  if bool_decide (workerID = "")%string then (m, Err (ENew "worker id must not be empty"))
  else if bool_decide (eventID = "")%string then (m, Err (ENew "event id must not be empty"))
  else transition ch m "mark outbox event dead letter"
         (set_dead_letter ch.(ch_now) (outcome_string outcome)) workerID eventID.
End store.

End Outbox.
