(* ===== verification/OutboxFacts.v ===== *)
(** * What the outbox store guarantees

    The order of delivery, the preservation of the table's constraints, the
    fencing of transitions by the lease, and the refinement of the operations to
    the two atomic effects on the table that the rest of the system relies on. *)
From S2P Require Import Prelude.
From S2P Require Import GoErrors.
From S2P Require Import Prog.
From S2P Require Import GoStrings.
From S2P Require Import Schema.
From S2P Require Import Demo.
From S2P Require Import Availability.
From S2P Require Import Outbox.
From Stdlib Require Import Ascii OrderedTypeEx.
Local Open Scope Z_scope.

Module OutboxFacts.
Import Schema Demo Outbox.

(** ** The order of due events *)

Lemma ltb_lt s t : String.ltb s t = true ↔ String_as_OT.lt s t.
Proof.
  unfold String.ltb. rewrite <-String_as_OT.cmp_lt. unfold String_as_OT.cmp.
  destruct (String.compare s t); split; congruence.
Qed.

Lemma ltb_total s t : s ≠ t → String.ltb s t = false → String.ltb t s = true.
Proof.
  unfold String.ltb. rewrite (String.compare_antisym t s).
  destruct (String.compare s t) eqn:E; simpl; try done.
  intros Hne _. by apply String.compare_eq_iff in E.
Qed.

Lemma before_trans o1 o2 o3 : before o1 o2 = true → before o2 o3 = true → before o1 o3 = true.
Proof.
  unfold before. rewrite !orb_true_iff, !andb_true_iff, !Z.ltb_lt, !Z.eqb_eq, !ltb_lt.
  intros [?|[? H1]] [?|[? H2]]; try (left; lia).
  right. split; [lia|]. by eapply String_as_OT.lt_trans.
Qed.

Lemma before_total o1 o2 : o1.(o_id) ≠ o2.(o_id) → before o1 o2 = false → before o2 o1 = true.
Proof.
  unfold before. rewrite !orb_false_iff, !andb_false_iff, orb_true_iff, andb_true_iff,
    !Z.ltb_lt, !Z.ltb_ge, !Z.eqb_eq, !Z.eqb_neq.
  intros Hne [Hge [Hz|Hs]]; [left; lia|].
  destruct (Z.eq_dec o1.(o_available_at) o2.(o_available_at)) as [Heq|]; [|left; lia].
  right. split; [lia|]. by apply ltb_total.
Qed.

(** The least event of a list of events with different identifiers. *)
Lemma first_least l :
  (∀ o1 o2, o1 ∈ l → o2 ∈ l → o1.(o_id) = o2.(o_id) → o1 = o2) →
  match foldr first None l with
  | Some o => o ∈ l ∧ ∀ o', o' ∈ l → o' = o ∨ before o o' = true
  | None => l = []
  end.
Proof.
  induction l as [|x l IH]; intros Huniq; simpl; [done|].
  assert (∀ o1 o2, o1 ∈ l → o2 ∈ l → o1.(o_id) = o2.(o_id) → o1 = o2) as Hl
    by (intros; apply Huniq; [by right..|done]).
  specialize (IH Hl). destruct (foldr first None l) as [b|]; simpl.
  - destruct IH as [Hb Hleast]. destruct (before b x) eqn:Hbx.
    + split; [by right|]. intros o' [->|Ho']%elem_of_cons; [by right|auto].
    + split; [by left|]. intros o' [->|Ho']%elem_of_cons; [by left|].
      destruct (decide (x.(o_id) = b.(o_id))) as [Heq|Hne].
      { rewrite (Huniq x b); [auto|by left|by right|done]. }
      assert (before x b = true) as Hxb by (apply before_total; auto).
      destruct (Hleast o' Ho') as [->|Hbo]; [by right|right]. by eapply before_trans.
  - subst l. split; [by left|]. intros o' [->|Ho']%elem_of_cons; [by left|by inversion Ho'].
Qed.

(** ** Well-formed tables *)

Definition table_ok (m : table) : Prop :=
  ∀ id o, m !! id = Some o → o.(o_id) = id ∧ outbox_check o = true.

Lemma due_event_spec now locked m :
  table_ok m →
  match due_event now locked m with
  | Some o => m !! o.(o_id) = Some o ∧ due now o = true ∧ (o.(o_id) ∉ locked)
      ∧ ∀ id o', m !! id = Some o' → due now o' = true → id ∉ locked →
          o' = o ∨ before o o' = true
  | None => ∀ id o', m !! id = Some o' → due now o' = true → id ∈ locked
  end.
Proof.
  intros Hok. unfold due_event.
  assert (∀ o, o ∈ filter (λ o, due now o = true ∧ o.(o_id) ∉ locked) (map_to_list m).*2
    ↔ m !! o.(o_id) = Some o ∧ due now o = true ∧ o.(o_id) ∉ locked) as Hin.
  { intros o. rewrite list_elem_of_filter, list_elem_of_fmap. split.
    - intros ([Hd Hl] & ([id o'] & -> & Hm%elem_of_map_to_list)). simpl in *.
      by destruct (Hok _ _ Hm) as [<- _].
    - intros (Hm & Hd & Hl). split; [done|]. exists (o.(o_id), o). split; [done|].
      by apply elem_of_map_to_list. }
  pose proof (first_least (filter (λ o, due now o = true ∧ o.(o_id) ∉ locked) (map_to_list m).*2))
    as Hf.
  destruct (foldr first None _) as [o|].
  - destruct Hf as [Ho Hleast].
    { intros o1 o2 [H1 _]%Hin [H2 _]%Hin Heq. congruence. }
    apply Hin in Ho as (Hm & Hd & Hl). split_and!; [done..|].
    intros id o' Hm' Hd' Hl'. destruct (Hok _ _ Hm') as [Hid _].
    apply Hleast, Hin. by rewrite Hid.
  - intros id o' Hm' Hd'. destruct (Hok _ _ Hm') as [Hid _].
    destruct (decide (id ∈ locked)) as [|Hl]; [done|].
    assert (o' ∈ filter (λ o, due now o = true ∧ o.(o_id) ∉ locked) (map_to_list m).*2) as Ho'
      by (apply Hin; by rewrite Hid).
    rewrite Hf in Ho'; [by inversion Ho'|].
    intros o1 o2 [H1 _]%Hin [H2 _]%Hin Heq. congruence.
Qed.

Lemma update_row_ok m o' m' :
  update_row o' m = Ok m' → m' = <[o'.(o_id) := o']> m ∧ outbox_check o' = true.
Proof. unfold update_row. intros Hu. crush_in Hu. boolean. done. Qed.

Lemma table_ok_insert m o : table_ok m → outbox_check o = true → table_ok (<[o.(o_id) := o]> m).
Proof. intros Hok Hc id o' [[<- <-]|[_ Hm]]%lookup_insert_Some; [done|auto]. Qed.

Section facts.
Context `{Postgres, PgInterval}.

(** ** The two effects *)

(** A call that may take the lease of a due event. *)
Inductive claim_effect (ch : choice) (worker : string) (ttl : Z) (m : table)
  : table → result goerr (option Event) → Prop :=
| claim_none r : (∀ e, r ≠ Ok (Some e)) → claim_effect ch worker ttl m m r
| claim_lease o r :
    m !! o.(o_id) = Some o → due ch.(ch_now) o = true → o.(o_id) ∉ ch.(ch_locked) →
    outbox_check (leased o worker ttl ch.(ch_now)) = true →
    (r = Ok (Some (event_of o)) ∨ is_Some ch.(ch_fault) ∧ ∀ e, r ≠ Ok (Some e)) →
    claim_effect ch worker ttl m (<[o.(o_id) := leased o worker ttl ch.(ch_now)]> m) r.

(** A call that may end the lease its worker holds on an event. *)
Inductive transition_effect (ch : choice) (f : outbox_row → outbox_row) (worker event_id : string)
    (m : table) : table → result goerr unit → Prop :=
| transition_none e : transition_effect ch f worker event_id m m (Err e)
| transition_done o r :
    uuid_in event_id = Some o.(o_id) → m !! o.(o_id) = Some o →
    o.(o_status) = processing → o.(o_locked_by) = Some worker → outbox_check (f o) = true →
    (r = Ok tt ∨ is_Some ch.(ch_fault) ∧ ∃ e, r = Err e) →
    transition_effect ch f worker event_id m (<[o.(o_id) := f o]> m) r.

Lemma autocommit_cases {A} ch m (sem : result string (A * table)) m' r :
  autocommit ch m sem = (m', r) →
  (m' = m ∧ ∃ e, r = Err e)
  ∨ ∃ a, sem = Ok (a, m') ∧ ((r = Ok a ∧ ch.(ch_fault) = None)
                             ∨ is_Some ch.(ch_fault) ∧ ∃ e, r = Err e).
Proof.
  unfold autocommit. destruct sem as [[a m1]|s]; destruct ch.(ch_fault) as [[e []]|];
    intros [= <- <-]; eauto 10.
Qed.

Lemma ClaimNext_effect ch m worker ttl m' r :
  table_ok m → ClaimNext ch m worker ttl = (m', r) → claim_effect ch worker ttl m m' r.
Proof.
  intros Hok. unfold ClaimNext.
  destruct (bool_decide _); [intros [= <- <-]; by constructor|].
  destruct (ttl <=? 0); [intros [= <- <-]; by constructor|].
  destruct (autocommit _ _ _) as [m1 x] eqn:Ha. intros [= <- Hr].
  apply autocommit_cases in Ha as [[-> [e ->]]|(a & Hsem & Hx)].
  { constructor. subst r. intros o. by destruct (errors_Is e pgx_ErrNoRows). }
  unfold sql_claim in Hsem. destruct (negb _); [done|].
  pose proof (due_event_spec ch.(ch_now) ch.(ch_locked) m Hok) as Hdue.
  destruct (due_event _ _ m) as [o|].
  - destruct Hdue as (Hm & Hd & Hl & _).
    apply rbind_ok in Hsem as (m2 & Hu & [= <- <-]).
    apply update_row_ok in Hu as [-> Hc].
    apply (claim_lease ch worker ttl m o); [done..|].
    destruct Hx as [[-> _]|[Hf [e ->]]]; [by left; subst r|right].
    split; [done|]. subst r. intros ev. by destruct (errors_Is e pgx_ErrNoRows).
  - injection Hsem as <- <-. constructor. intros o.
    destruct Hx as [[-> _]|[_ [e ->]]]; subst r; [done|]. by destruct (errors_Is e pgx_ErrNoRows).
Qed.

Lemma transition_spec ch m message f worker event_id m' r :
  table_ok m → (∀ o, (f o).(o_id) = o.(o_id)) →
  transition ch m message f worker event_id = (m', r) →
  transition_effect ch f worker event_id m m' r.
Proof.
  intros Hok Hf. unfold transition.
  destruct (autocommit _ _ _) as [m1 x] eqn:Ha. intros [= <- Hr].
  apply autocommit_cases in Ha as [[-> [e ->]]|(a & Hsem & Hx)]; [subst r; constructor|].
  unfold sql_transition in Hsem. destruct (negb _); [done|].
  destruct (uuid_in event_id) as [id|] eqn:Hid; [|done].
  assert (a = 0 → m1 = m → transition_effect ch f worker event_id m m1 r) as Hzero.
  { intros -> ->. destruct Hx as [[-> _]|[_ [e ->]]]; subst r; constructor. }
  destruct (m !! id) as [o|] eqn:Hm; [|injection Hsem as <- <-; by apply Hzero].
  destruct (bool_decide _ && _) eqn:Hb; [|injection Hsem as <- <-; by apply Hzero].
  boolean. apply rbind_ok in Hsem as (m2 & Hu & [= <- <-]).
  apply update_row_ok in Hu as [-> Hc]. destruct (Hok _ _ Hm) as [<- _]. rewrite Hf.
  apply transition_done; [done..|].
  destruct Hx as [[-> _]|[Hfault [e ->]]]; subst r; eauto.
Qed.

Ltac transition_op :=
  intros Hok; repeat (case_match; [intros [= <- <-]; constructor|]); by apply transition_spec.

Lemma MarkPublished_effect ch m worker event_id m' r :
  table_ok m → MarkPublished ch m worker event_id = (m', r) →
  transition_effect ch (set_published ch.(ch_now)) worker event_id m m' r.
Proof. unfold MarkPublished. transition_op. Qed.

Lemma ScheduleRetry_effect ch m worker event_id delay outcome m' r :
  table_ok m → ScheduleRetry ch m worker event_id delay outcome = (m', r) →
  transition_effect ch (set_retry ch.(ch_now) delay (outcome_string outcome)) worker event_id m m' r.
Proof. unfold ScheduleRetry. transition_op. Qed.

Lemma MarkDeadLetter_effect ch m worker event_id outcome m' r :
  table_ok m → MarkDeadLetter ch m worker event_id outcome = (m', r) →
  transition_effect ch (set_dead_letter ch.(ch_now) (outcome_string outcome)) worker event_id m m' r.
Proof. unfold MarkDeadLetter. transition_op. Qed.

Lemma claim_effect_ok ch worker ttl m m' r :
  table_ok m → claim_effect ch worker ttl m m' r → table_ok m'.
Proof.
  intros Hok [r' _|o r' _ _ _ Hc _]; [done|].
  by apply (table_ok_insert m (leased o worker ttl ch.(ch_now))).
Qed.

Lemma transition_effect_ok ch f worker id m m' r :
  (∀ o, (f o).(o_id) = o.(o_id)) → table_ok m → transition_effect ch f worker id m m' r → table_ok m'.
Proof.
  intros Hf Hok [e|o r' _ Hm _ _ Hc _]; [done|].
  rewrite <-(Hf o). by apply table_ok_insert.
Qed.

(** ** CHECK constraints *)

(** The constraints of a row, one by one. *)
Lemma outbox_check_true o :
  outbox_check o = true ↔
  length_between 1 64 o.(o_aggregate_type) = true ∧ length_between 1 128 o.(o_event_type) = true
  ∧ payload_object_check o = true ∧ 0 ≤ o.(o_failed_attempts) < 2 ^ 31
  ∧ failure_reason_check o = true ∧ failure_state_check o = true ∧ locked_by_check o = true
  ∧ o.(o_created_at) ≤ o.(o_updated_at)
  ∧ published_status_check o = true ∧ processing_lock_check o = true
  ∧ dead_letter_status_check o = true.
Proof.
  unfold outbox_check. rewrite !andb_true_iff, Z.ltb_lt, !Z.leb_le. naive_solver.
Qed.

(** What a row in [processing] looks like. *)
Lemma processing_row o :
  outbox_check o = true → o.(o_status) = processing →
  o.(o_published_at) = None ∧ o.(o_dead_lettered_at) = None
  ∧ is_Some o.(o_locked_by) ∧ is_Some o.(o_locked_until).
Proof.
  intros (_ & _ & _ & _ & _ & _ & _ & _ & Hp & Hl & Hd)%outbox_check_true Hs.
  unfold published_status_check, processing_lock_check, dead_letter_status_check in *.
  rewrite Hs in *.
  destruct o.(o_published_at), o.(o_dead_lettered_at), o.(o_locked_by), o.(o_locked_until);
    simpl in *; naive_solver.
Qed.

Lemma set_published_check o now :
  outbox_check o = true → o.(o_status) = processing → o.(o_created_at) ≤ now →
  outbox_check (set_published now o) = true.
Proof.
  intros Hc Hs Hnow. destruct (processing_row o Hc Hs) as (Hp & Hd & _).
  apply outbox_check_true in Hc as (? & ? & ? & ? & ? & Hf & _). apply outbox_check_true.
  unfold published_status_check, processing_lock_check, dead_letter_status_check,
    failure_state_check, failure_reason_check in *.
  rewrite Hs in Hf. simpl. rewrite Hd. split_and!; try done; lia.
Qed.

(** The outcomes the [last_failure_reason] constraint admits. *)
Definition failure_outcome (r : PublishOutcome) : Prop := r ≠ PublishOutcomeSuccess.

Lemma failure_check_next o now available status published_at dead_at outcome :
  outbox_check o = true → o.(o_failed_attempts) + 1 < 2 ^ 31 → failure_outcome outcome →
  status ≠ published → status ≠ processing → published_at = None →
  (is_some dead_at = bool_decide (status = dead_letter)) → o.(o_created_at) ≤ now →
  outbox_check (set_lease o available status (o.(o_failed_attempts) + 1)
                  (Some (outcome_string outcome)) None None now published_at dead_at) = true.
Proof.
  intros (? & ? & ? & ? & _)%outbox_check_true Hlt Hout Hp1 Hp2 -> Hdead Hnow.
  apply outbox_check_true.
  assert ((0 <? o.(o_failed_attempts) + 1) = true) as Hpos by (apply Z.ltb_lt; lia).
  unfold published_status_check, processing_lock_check, dead_letter_status_check,
    failure_state_check, failure_reason_check. simpl. rewrite Hpos, Hdead.
  rewrite (bool_decide_false (status = published)), (bool_decide_false (status = processing)) by done.
  split_and!; try done; try lia.
  - by destruct outcome.
  - rewrite andb_false_r. by destruct status.
  - apply eqb_reflx.
Qed.

Lemma leased_check o worker ttl now :
  outbox_check o = true → due now o = true → o.(o_created_at) ≤ now →
  length_between 1 128 worker = true → outbox_check (leased o worker ttl now) = true.
Proof.
  intros Hc Hdue Hnow Hw.
  assert (o.(o_status) = pending ∨ o.(o_status) = processing) as Hs
    by (unfold due in Hdue; destruct o.(o_status); by auto).
  apply outbox_check_true in Hc as (? & ? & ? & ? & ? & Hf & _ & _ & Hp & _ & Hd).
  apply outbox_check_true.
  unfold published_status_check, processing_lock_check, dead_letter_status_check,
    failure_state_check, failure_reason_check, locked_by_check in *. simpl.
  destruct Hs as [Hs|Hs]; rewrite Hs in *; split_and!; done || lia.
Qed.

(** ** The transitions as one operation *)

Inductive final_op :=
| OpPublished
| OpRetry (delay : Z) (outcome : PublishOutcome)
| OpDeadLetter (outcome : PublishOutcome).

Definition run_op (op : final_op) (ch : choice) (m : table) (workerID eventID : string)
  : table * result goerr unit :=
  match op with
  | OpPublished => MarkPublished ch m workerID eventID
  | OpRetry delay outcome => ScheduleRetry ch m workerID eventID delay outcome
  | OpDeadLetter outcome => MarkDeadLetter ch m workerID eventID outcome
  end.

(** The row an operation leaves. *)
Definition op_row (op : final_op) (now : Z) (o : outbox_row) : outbox_row :=
  match op with
  | OpPublished => set_published now o
  | OpRetry delay outcome => set_retry now delay (outcome_string outcome) o
  | OpDeadLetter outcome => set_dead_letter now (outcome_string outcome) o
  end.

(** The arguments the worker passes. *)
Definition op_valid (op : final_op) : Prop :=
  match op with
  | OpPublished => True
  | OpRetry delay outcome => 0 < delay ∧ failure_outcome outcome
  | OpDeadLetter outcome => failure_outcome outcome
  end.

Lemma run_op_effect op ch m worker event_id m' r :
  table_ok m → run_op op ch m worker event_id = (m', r) →
  transition_effect ch (op_row op ch.(ch_now)) worker event_id m m' r.
Proof.
  destruct op; simpl; [apply MarkPublished_effect|apply ScheduleRetry_effect|apply MarkDeadLetter_effect].
Qed.

Lemma op_row_id op now o : (op_row op now o).(o_id) = o.(o_id).
Proof. by destruct op. Qed.

(** An operation with valid arguments is [transition]. *)
Lemma run_op_transition op ch m worker event_id :
  worker ≠ ""%string → event_id ≠ ""%string → op_valid op →
  ∃ message, run_op op ch m worker event_id
             = transition ch m message (op_row op ch.(ch_now)) worker event_id.
Proof.
  intros Hw He Hv. destruct op as [|delay out|out]; simpl;
    unfold MarkPublished, ScheduleRetry, MarkDeadLetter;
    rewrite !bool_decide_false by done; eauto.
  destruct Hv as [Hd _]. apply Z.leb_gt in Hd. rewrite Hd. eauto.
Qed.

Lemma op_row_check op now o :
  outbox_check o = true → o.(o_status) = processing → o.(o_created_at) ≤ now →
  o.(o_failed_attempts) + 1 < 2 ^ 31 → op_valid op → outbox_check (op_row op now o) = true.
Proof.
  intros Hc Hs Hnow Hlt Hv. destruct (processing_row o Hc Hs) as (Hp & Hd & _).
  destruct op as [|delay out|out]; simpl.
  - by apply set_published_check.
  - destruct Hv as [_ Hv]. by apply failure_check_next; rewrite ?Hd.
  - by apply failure_check_next.
Qed.

(** The worker that holds the lease succeeds, when the call does not fail. *)
Lemma run_op_owned op ch m worker event_id id o :
  table_ok m → m !! id = Some o → o.(o_status) = processing → o.(o_locked_by) = Some worker →
  uuid_in event_id = Some id → event_id ≠ ""%string → worker ≠ ""%string →
  text_ok worker = true → op_valid op → ch.(ch_fault) = None → o.(o_created_at) ≤ ch.(ch_now) →
  o.(o_failed_attempts) + 1 < 2 ^ 31 →
  run_op op ch m worker event_id = (<[id := op_row op ch.(ch_now) o]> m, Ok tt).
Proof.
  intros Hok Hm Hs Hl Hu He Hw Ht Hv Hf Hnow Hlt. destruct (Hok _ _ Hm) as [Hid Hc].
  destruct (run_op_transition op ch m worker event_id Hw He Hv) as [msg ->].
  unfold transition, sql_transition. rewrite Ht, Hu, Hm. cbn [negb].
  rewrite !bool_decide_true by done. unfold update_row. rewrite (op_row_check op _ o) by done.
  assert (((op_row op (ch_now ch) o).(o_failed_attempts) <? 2 ^ 31) = true) as ->.
  { apply Z.ltb_lt. destruct op; simpl; lia. }
  simpl. unfold autocommit. by rewrite Hf, op_row_id, Hid.
Qed.

(** ** Properties *)

(** C24: [ClaimNext] leases exactly the first due event, in the order of
    [available_at] and then [id], among those no other transaction has locked;
    it reports an empty queue only when there is none, keeps every constraint
    of the table, and changes nothing else. *)
Theorem ClaimNext_spec ch m worker ttl m' r :
  table_ok m → ClaimNext ch m worker ttl = (m', r) →
  (∀ e b, ch.(ch_fault) = Some (e, b) → errors_Is e pgx_ErrNoRows = false) →
  table_ok m' ∧
  match r with
  | Ok (Some e) => ∃ o, m !! o.(o_id) = Some o ∧ e = event_of o ∧ due ch.(ch_now) o = true
      ∧ (o.(o_id) ∉ ch.(ch_locked))
      ∧ (∀ id o', m !! id = Some o' → due ch.(ch_now) o' = true → id ∉ ch.(ch_locked) →
           o' = o ∨ before o o' = true)
      ∧ m' = <[o.(o_id) := leased o worker ttl ch.(ch_now)]> m
  | Ok None => m' = m ∧ ∀ id o, m !! id = Some o → due ch.(ch_now) o = true → id ∈ ch.(ch_locked)
  | Err _ => m' = m ∨ ∃ e o, ch.(ch_fault) = Some (e, true)
      ∧ m' = <[o.(o_id) := leased o worker ttl ch.(ch_now)]> m
  end.
Proof.
  intros Hok Hrun Hfault. split; [eapply claim_effect_ok, ClaimNext_effect; done|].
  revert Hrun. unfold ClaimNext.
  destruct (bool_decide _); [intros [= <- <-]; by left|].
  destruct (ttl <=? 0); [intros [= <- <-]; by left|].
  unfold autocommit, sql_claim. destruct (negb (text_ok worker)).
  { destruct ch.(ch_fault) as [[e b]|]; simpl; intros [= <- <-]; [|by left].
    rewrite (Hfault e b eq_refl). by left. }
  pose proof (due_event_spec ch.(ch_now) ch.(ch_locked) m Hok) as Hdue.
  destruct (due_event _ _ m) as [o|]; simpl.
  - destruct Hdue as (Hm & Hd & Hl & Hleast).
    destruct (update_row _ m) as [m1|s] eqn:Hu; simpl;
      destruct ch.(ch_fault) as [[e []]|]; simpl; intros [= <- <-];
      rewrite ?(Hfault e _ eq_refl); try (by left);
      apply update_row_ok in Hu as [-> _]; [right; by exists e, o|exists o; by split_and!].
  - destruct ch.(ch_fault) as [[e []]|]; simpl; intros [= <- <-];
      rewrite ?(Hfault e _ eq_refl); by try left.
Qed.

(** C23: final transitions are fenced by the lease: publishing, scheduling a
    retry or dead-lettering an event changes the table only when the event is
    in [processing] and leased to the calling worker, and then changes that row
    only; a success means it did.  Without a failure of the call, the worker
    that holds the lease succeeds and any other gets [ErrLeaseLost] with the
    table unchanged. *)
Theorem transitions_fenced op ch m worker event_id id m' r :
  table_ok m → run_op op ch m worker event_id = (m', r) → uuid_in event_id = Some id →
  table_ok m' ∧
  (m' = m ∨ ∃ o, m !! id = Some o ∧ o.(o_status) = processing ∧ o.(o_locked_by) = Some worker
     ∧ m' = <[id := op_row op ch.(ch_now) o]> m) ∧
  (r = Ok tt → ∃ o, m !! id = Some o ∧ o.(o_status) = processing
     ∧ o.(o_locked_by) = Some worker ∧ m' = <[id := op_row op ch.(ch_now) o]> m) ∧
  (ch.(ch_fault) = None → op_valid op → worker ≠ ""%string → event_id ≠ ""%string →
   text_ok worker = true →
   match m !! id with
   | Some o =>
       if bool_decide (o.(o_status) = processing) && bool_decide (o.(o_locked_by) = Some worker)
       then o.(o_created_at) ≤ ch.(ch_now) → o.(o_failed_attempts) + 1 < 2 ^ 31 → r = Ok tt
       else m' = m ∧ ∃ message, r = Err (EWrap message (ESentinel outbox_ErrLeaseLost))
   | None => m' = m ∧ ∃ message, r = Err (EWrap message (ESentinel outbox_ErrLeaseLost))
   end).
Proof.
  intros Hok Hrun Hid. pose proof (run_op_effect _ _ _ _ _ _ _ Hok Hrun) as Heff.
  split_and!.
  - eapply transition_effect_ok; [apply op_row_id|done..].
  - destruct Heff as [|o r' Ho]; [by left|right]. assert (o.(o_id) = id) as <- by congruence. eauto.
  - intros ->. inversion Heff as [|o r' Ho]; subst. assert (o.(o_id) = id) as <- by congruence. eauto.
  - intros Hf Hv Hw He Ht. destruct (m !! id) as [o|] eqn:Hm;
      [destruct (bool_decide _ && _) eqn:Hb|].
    { boolean. intros Hnow Hlt. by rewrite (run_op_owned op ch m worker event_id id o) in Hrun by done;
        injection Hrun as _ <-. }
    all: destruct (run_op_transition op ch m worker event_id Hw He Hv) as [msg Heq];
      rewrite Heq in Hrun; revert Hrun; unfold transition, autocommit, sql_transition;
      rewrite Ht, Hid, Hf, Hm, ?Hb; intros [= <- <-]; eauto.
Qed.

(** A live lease is exclusive: while a worker's lease on an event has not
    expired, no operation of any other worker, [ClaimNext] included, changes
    the event's row. *)
Theorem live_lease_exclusive m id o owner until ch worker m' :
  table_ok m → m !! id = Some o → o.(o_status) = processing →
  o.(o_locked_by) = Some owner → o.(o_locked_until) = Some until →
  ch.(ch_now) < until → worker ≠ owner →
  (∃ ttl r, ClaimNext ch m worker ttl = (m', r))
  ∨ (∃ op event_id r, run_op op ch m worker event_id = (m', r)) →
  m' !! id = Some o.
Proof.
  intros Hok Hm Hs Hl Hu Hnow Hne [(ttl & r & Hrun)|(op & event_id & r & Hrun)].
  - apply ClaimNext_effect in Hrun; [|done]. destruct Hrun as [|o' r' Hm' Hd]; [done|].
    rewrite lookup_insert_ne; [done|]. intros Heq.
    assert (o' = o) as -> by congruence. unfold due in Hd. rewrite Hs, Hu in Hd. boolean. lia.
  - apply run_op_effect in Hrun; [|done]. destruct Hrun as [|o' r' Hid Hm' Hp Hl']; [done|].
    rewrite lookup_insert_ne; [done|]. intros Heq. assert (o' = o) by congruence. congruence.
Qed.
End facts.

(** ** A concrete table

    Two events due, one of them leased to [worker-a] until later. *)
Definition demo_id1 : string := "00000000-0000-4000-8000-000000000001".
Definition demo_id2 : string := "00000000-0000-4000-8000-000000000002".
Definition demo_row (id : string) (t : Z) : outbox_row :=
  new_outbox_row id "reward_claim" id "RewardClaimed" "{}" t.
Definition demo_leased : outbox_row :=
  @leased demo_interval (demo_row demo_id2 10) "worker-a" 30000000000 20.
Definition demo_table : table :=
  <[demo_id1 := demo_row demo_id1 15]> (<[demo_id2 := demo_leased]> ∅).
Definition demo_choice (now : Z) : choice := Choice now ∅ CtxLive None.

Lemma demo_table_ok : table_ok demo_table.
Proof.
  intros id o Hm. unfold demo_table in Hm.
  apply lookup_insert_Some in Hm as [[<- <-]|[_ [[<- <-]|[_ H]]%lookup_insert_Some]];
    [split; vm_compute; reflexivity..|simplify_map_eq].
Qed.

Definition demo_claim : table * result goerr (option Event) :=
  @ClaimNext demo_postgres demo_interval (demo_choice 100) demo_table "worker-b" 30000000000.
Definition demo_publish : table * result goerr unit :=
  @run_op demo_postgres demo_interval OpPublished (demo_choice 100) demo_table "worker-a" demo_id2.

Lemma demo_claim_result : demo_claim = (demo_claim.1, Ok (Some (event_of (demo_row demo_id1 15)))).
Proof.
  assert (demo_claim.2 = Ok (Some (event_of (demo_row demo_id1 15)))) as E by (vm_compute; reflexivity).
  rewrite <-E. apply surjective_pairing.
Qed.
Lemma demo_publish_result : demo_publish = (demo_publish.1, Ok tt).
Proof.
  assert (demo_publish.2 = Ok tt) as E by (vm_compute; reflexivity).
  rewrite <-E. apply surjective_pairing.
Qed.

Lemma ClaimNext_spec_witness :
  demo_claim.2 = Ok (Some (event_of (demo_row demo_id1 15))) ∧ table_ok demo_claim.1.
Proof.
  split; [exact (f_equal snd demo_claim_result)|].
  apply (@ClaimNext_spec demo_postgres demo_interval (demo_choice 100) demo_table "worker-b"
           30000000000 demo_claim.1 _ demo_table_ok demo_claim_result).
  discriminate.
Defined.

Lemma transitions_fenced_witness : demo_publish.2 = Ok tt ∧ table_ok demo_publish.1.
Proof.
  split; [exact (f_equal snd demo_publish_result)|].
  apply (@transitions_fenced demo_postgres demo_interval OpPublished (demo_choice 100) demo_table
           "worker-a" demo_id2 demo_id2 demo_publish.1 _ demo_table_ok demo_publish_result).
  apply demo_uuid_in_canonical. vm_compute. reflexivity.
Defined.

Lemma demo_table_row : demo_table !! demo_id2 = Some demo_leased.
Proof. vm_compute. reflexivity. Qed.

Lemma live_lease_exclusive_witness : demo_claim.1 !! demo_id2 = Some demo_leased.
Proof.
  apply (@live_lease_exclusive demo_postgres demo_interval demo_table demo_id2 demo_leased
           "worker-a" 30000020 (demo_choice 100) "worker-b" demo_claim.1 demo_table_ok
           demo_table_row eq_refl eq_refl eq_refl).
  - reflexivity.
  - discriminate.
  - left. exists 30000000000. eexists. exact demo_claim_result.
Defined.

End OutboxFacts.
