(* ===== verification/Backoff.v ===== *)
(** * The retry backoff policy of the outbox worker (internal/outbox/backoff.go) *)
From S2P Require Import Prelude.
From S2P Require Import GoErrors.
Local Open Scope Z_scope.

Module Backoff.

Record backoffPolicy := BackoffPolicy { base : Z; max : Z }.

Definition newBackoffPolicy (base max : Z) : result goerr backoffPolicy :=
  if base <=? 0 then
    Err (ENew "base backoff must be greater than zero")
  else if max <=? 0 then
    Err (ENew "max backoff must be greater than zero")
  else if max <? base then
    Err (ENew "max backoff must be greater than or equal to base backoff")
  else Ok {| base := base; max := max |}.

(** The body of the [for remaining := ...] loop, on 64-bit durations; the
    subtraction and the doubling wrap as Go's do. *)
Fixpoint retryDelay_loop (p : backoffPolicy) (remaining : nat) (delay : Z) : Z :=
  match remaining with
  | O => delay
  | S remaining =>
      if delay >? int64 (p.(max) - delay) then p.(max)
      else retryDelay_loop p remaining (int64 (delay * 2))
  end.

Definition retryDelay (p : backoffPolicy) (failedAttempts : Z) : Z :=
  if failedAttempts <=? 1 then p.(base)
  else retryDelay_loop p (Z.to_nat (failedAttempts - 1)) p.(base).

(** The invariant [newBackoffPolicy] establishes, on 64-bit durations. *)
Definition policy_ok (p : backoffPolicy) : Prop :=
  0 < p.(base) ∧ p.(base) ≤ p.(max) ∧ p.(max) ≤ int64_max.

(** ** Properties *)

Lemma loop_spec p n d :
  0 < d → d ≤ p.(max) → p.(max) ≤ int64_max →
  retryDelay_loop p n d = Z.min p.(max) (d * 2 ^ Z.of_nat n).
Proof.
  revert d. induction n as [|n IH]; intros d Hd Hle Hmax; simpl.
  { change (2 ^ Z.of_nat 0) with 1. lia. }
  rewrite int64_id by (unfold is_int64, int64_min, int64_max in *; lia).
  replace (2 ^ Z.of_nat (S n)) with (2 * 2 ^ Z.of_nat n)
    by (rewrite Nat2Z.inj_succ, Z.pow_succ_r; lia).
  pose proof (Z.pow_pos_nonneg 2 (Z.of_nat n)).
  destruct (Z.gtb_spec d (p.(max) - d)); [nia|].
  rewrite int64_id by (unfold is_int64, int64_min, int64_max in *; lia).
  rewrite IH by lia. f_equal. lia.
Qed.

Lemma newBackoffPolicy_ok b m p :
  m ≤ int64_max → newBackoffPolicy b m = Ok p →
  p = BackoffPolicy b m ∧ policy_ok p.
Proof.
  unfold newBackoffPolicy, policy_ok. intros Hm H.
  crush_in H. boolean. split; [done|]. simpl. lia.
Qed.

(** The reference: the base delay doubled once per earlier failure, capped. *)
Definition exponential_delay (p : backoffPolicy) (failedAttempts : Z) : Z :=
  Z.min p.(max) (p.(base) * 2 ^ Z.max 0 (failedAttempts - 1)).

Lemma retryDelay_exponential p n : policy_ok p → retryDelay p n = exponential_delay p n.
Proof.
  intros (Hb & Hbm & Hm). unfold retryDelay, exponential_delay. destruct (Z.leb_spec n 1).
  - rewrite Z.max_l by lia. change (2 ^ 0) with 1. lia.
  - rewrite loop_spec by lia. rewrite Z2Nat.id by lia. by rewrite Z.max_r by lia.
Qed.

Lemma retryDelay_range p n : policy_ok p → p.(base) ≤ retryDelay p n ≤ p.(max).
Proof.
  intros Hp. rewrite retryDelay_exponential by done. destruct Hp as (Hb & Hbm & _).
  unfold exponential_delay. pose proof (Z.pow_pos_nonneg 2 (Z.max 0 (n - 1))). nia.
Qed.

(** C27: for every policy [newBackoffPolicy] accepts and every attempt count,
    [retryDelay] is the capped exponential [min(max, base * 2^(n-1))]; the
    64-bit doubling and subtraction never overflow and the result stays between
    the base and the maximum delay. *)
Theorem retryDelay_spec b m p n
    (Hm : m ≤ int64_max) (Hnew : newBackoffPolicy b m = Ok p) :
  retryDelay p n = exponential_delay p n ∧ b ≤ retryDelay p n ≤ m.
Proof.
  destruct (newBackoffPolicy_ok b m p Hm Hnew) as [-> Hp].
  split; [by apply retryDelay_exponential|by apply (retryDelay_range _ n Hp)].
Qed.

Lemma retryDelay_spec_witness :
  retryDelay (BackoffPolicy 1000 60000) 7 = 60000
  ∧ retryDelay (BackoffPolicy 1000 60000) 3
    = exponential_delay (BackoffPolicy 1000 60000) 3.
Proof.
  split; [vm_compute; reflexivity|].
  apply (retryDelay_spec 1000 60000 (BackoffPolicy 1000 60000) 3).
  - vm_compute. discriminate.
  - vm_compute. reflexivity.
Defined.

End Backoff.
