(* ===== verification/Worker.v ===== *)
(** * The outbox worker (internal/outbox/worker.go, publisher.go)

    Publishing with leases, retries and dead letters, as programs over the calls
    the worker makes: the store, the publisher, its context, the timer, the
    observer and the logger. *)
From S2P Require Import Prelude.
From S2P Require Import GoErrors.
From S2P Require Import Prog.
From S2P Require Import GoStrings.
From S2P Require Import GoJson.
From S2P Require Import Outbox.
From S2P Require Import Backoff.
Local Open Scope Z_scope.

Module Worker.
Import Outbox Backoff.

(** ** Calls *)

(** observer.go: [Observer]. *)
Inductive observation :=
| ObserveClaim (o : ClaimOutcome)
| ObservePublish (eventType : string) (o : PublishOutcome) (duration : Z)
| ObservePublished (eventType : string)
| ObserveRetry (eventType : string) (o : PublishOutcome)
| ObserveDeadLetter (eventType : string) (o : PublishOutcome)
| ObserveLeaseLoss (eventType : string) (op : Operation)
| ObserveOperationError (op : Operation).

Inductive level := LevelInfo | LevelWarn | LevelError.

(** The case of [select] that was taken in [Run]. *)
Inductive wakeup := CtxDone | TimerFired.

Inductive call :=
| CClaimNext (workerID : string) (lockTTL : Z)
| CMarkPublished (workerID eventID : string)
| CScheduleRetry (workerID eventID : string) (retryDelay : Z) (outcome : PublishOutcome)
| CMarkDeadLetter (workerID eventID : string) (outcome : PublishOutcome)
| CPublish (event : Event) (timeout : Z)
| CCtx
| CSelect
| CReset (wait : Z)
| COnStarted
| CObserve (o : observation)
| CLog (l : level) (message : string) (attrs : list (string * string)).

(** What [Publish] returned, the state of its context then, and its duration. *)
Record published_reply := PublishReply {
  pr_err : option goerr;
  pr_ctx : ctx_state;
  pr_duration : Z
}.

Definition reply (c : call) : Type :=
  match c with
  | CClaimNext _ _ => result goerr (option Event)
  | CMarkPublished _ _ | CScheduleRetry _ _ _ _ | CMarkDeadLetter _ _ _ => result goerr unit
  | CPublish _ _ => published_reply
  | CCtx => ctx_state
  | CSelect => wakeup
  | CReset _ | COnStarted | CObserve _ | CLog _ _ _ => unit
  end.

Abbreviation wprog := (Prog.prog reply).

Definition attr (key value : string) : string * string := (key, value).

Definition observe (o : observation) : wprog unit := perform (CObserve o).
Definition log (l : level) (message : string) (attrs : list (string * string)) : wprog unit :=
  perform (CLog l message attrs).

(** ** Errors *)

(** [%q] of a string without characters to escape. *)
Definition fmt_q (s : string) : string :=
  (String (chr 34) s ++ String (chr 34) EmptyString)%string.

Definition wrapWorkerOperationError (operation : Operation) (err : goerr) : goerr :=
  EWorkerOp (operation_string operation) err.

Definition workerErrorOperation (err : goerr) : string :=
  match errors_As as_WorkerOp err with
  | Some operation => operation
  | None => "unknown"
  end.

(** ** Construction *)

Definition maxWorkerIDLength : Z := 128.

Record Worker := MkWorker {
  workerID : string;
  pollInterval : Z;
  lockTTL : Z;
  publishTimeout : Z;
  maxFailures : Z;
  backoff : backoffPolicy
}.

Record WorkerConfig := MkConfig {
  cfg_WorkerID : string;
  cfg_PollInterval : Z;
  cfg_LockTTL : Z;
  cfg_PublishTimeout : Z;
  cfg_MaxFailures : Z;
  cfg_BaseBackoff : Z;
  cfg_MaxBackoff : Z
}.

(** The three interfaces are given by whether they are non-nil; a nil observer is
    replaced by one that does nothing. *)
Definition NewWorker (store publisher logger : bool) (cfg : WorkerConfig) : result goerr Worker :=
  if negb store then Err (ENew "store must not be nil")
  else if negb publisher then Err (ENew "publisher must not be nil")
  else if negb logger then Err (ENew "logger must not be nil")
  else if bool_decide (cfg.(cfg_WorkerID) = "")%string then
    Err (ENew "worker id must not be empty")
  else if maxWorkerIDLength <? utf8_RuneCountInString cfg.(cfg_WorkerID) then
    Err (ENew ("worker id must be at most " ++ strconv_Itoa maxWorkerIDLength ++ " characters"))
  else if cfg.(cfg_PollInterval) <=? 0 then
    Err (ENew "poll interval must be greater than zero")
  else if cfg.(cfg_LockTTL) <=? 0 then Err (ENew "lock ttl must be greater than zero")
  else if cfg.(cfg_PublishTimeout) <=? 0 then
    Err (ENew "publish timeout must be greater than zero")
  else if cfg.(cfg_LockTTL) <=? cfg.(cfg_PublishTimeout) then
    Err (ENew "lock ttl must be greater than publish timeout")
  else if cfg.(cfg_MaxFailures) <=? 0 then Err (ENew "max failures must be greater than zero")
  else match newBackoffPolicy cfg.(cfg_BaseBackoff) cfg.(cfg_MaxBackoff) with
       | Err err => Err (EWrap "invalid backoff policy" err)
       | Ok backoff =>
           Ok (MkWorker cfg.(cfg_WorkerID) cfg.(cfg_PollInterval) cfg.(cfg_LockTTL)
                 cfg.(cfg_PublishTimeout) cfg.(cfg_MaxFailures) backoff)
       end.

(** ** One event *)

Definition classifyPublishOutcome (publishCtx : ctx_state) (err : option goerr) : PublishOutcome :=
  match err with
  | None => PublishOutcomeSuccess
  | Some err =>
      if bool_decide (ctx_Err publishCtx = Some context_DeadlineExceeded) then PublishOutcomeTimeout
      else if errors_Is err context_DeadlineExceeded then PublishOutcomeTimeout
      else if bool_decide (ctx_Err publishCtx = Some context_Canceled) then PublishOutcomeCanceled
      else if errors_Is err context_Canceled then PublishOutcomeCanceled
      else PublishOutcomeFailed
  end.

Definition event_attrs (w : Worker) (e : Event) : list (string * string) :=
  [attr "worker_id" w.(workerID); attr "event_id" e.(ID); attr "event_type" e.(EventType)].

(** [duration.Milliseconds()] *)
Definition duration_ms (d : Z) : string * string :=
  attr "duration_ms" (strconv_Itoa (Z.quot d 1000000)).

(** [ctxErr := ctx.Err(); ctxErr != nil && errors.Is(err, ctxErr)] *)
Definition own_ctx_error (ctx : ctx_state) (err : goerr) : option sentinel :=
  match ctx_Err ctx with
  | Some ctxErr => if errors_Is err ctxErr then Some ctxErr else None
  | None => None
  end.

Definition handleTransitionError (w : Worker) (event : Event) (operation : Operation) (err : goerr)
  : wprog goerr :=
  eff! ctx := perform CCtx in
  match own_ctx_error ctx err with
  | Some ctxErr => Ret (ESentinel ctxErr)
  | None =>
      if errors_Is err outbox_ErrLeaseLost then
        eff! _ := observe (ObserveLeaseLoss event.(EventType) operation) in
        eff! _ := log LevelWarn "outbox_event_lease_lost"
                    (event_attrs w event ++ [attr "operation" (operation_string operation)]) in
        Ret (ESentinel outbox_ErrLeaseLost)
      else
        eff! _ := observe (ObserveOperationError operation) in
        Ret (wrapWorkerOperationError operation err)
  end.

(** The last statement of a failed transition. *)
Definition transition_failed (w : Worker) (event : Event) (operation : Operation)
    (message : string) (err : goerr) : wprog (result goerr unit) :=
  eff! err := handleTransitionError w event operation err in
  Ret (Err (EWrap message err)).

Definition processEvent (w : Worker) (event : Event) : wprog (result goerr unit) :=
  eff! _ := log LevelInfo "outbox_event_publish_started"
              (event_attrs w event
               ++ [attr "aggregate_type" event.(AggregateType);
                   attr "aggregate_id" event.(AggregateID);
                   attr "failed_attempts" (strconv_Itoa event.(FailedAttempts))]) in
  eff! reply := perform (CPublish event w.(publishTimeout)) in
  let publishErr := reply.(pr_err) in
  let duration := reply.(pr_duration) in
  let publishOutcome := classifyPublishOutcome reply.(pr_ctx) publishErr in
  eff! _ := observe (ObservePublish event.(EventType) publishOutcome duration) in
  match publishErr with
  | None =>
      eff! marked := perform (CMarkPublished w.(workerID) event.(ID)) in
      match marked with
      | Err err =>
          transition_failed w event OperationMarkPublished
            ("mark published event " ++ fmt_q event.(ID)) err
      | Ok _ =>
          eff! _ := observe (ObservePublished event.(EventType)) in
          eff! _ := log LevelInfo "outbox_event_published"
                      (event_attrs w event
                       ++ [attr "failed_attempts" (strconv_Itoa event.(FailedAttempts));
                           duration_ms duration]) in
          Ret (Ok tt)
      end
  | Some _ =>
      eff! ctx := perform CCtx in
      match ctx_Err ctx with
      | Some ctxErr => Ret (Err (ESentinel ctxErr))
      | None =>
          let failedAttempts := int64 (event.(FailedAttempts) + 1) in
          if w.(maxFailures) <=? failedAttempts then
            eff! marked := perform (CMarkDeadLetter w.(workerID) event.(ID) publishOutcome) in
            match marked with
            | Err err =>
                transition_failed w event OperationMarkDeadLetter
                  ("mark event " ++ fmt_q event.(ID) ++ " dead letter") err
            | Ok _ =>
                eff! _ := observe (ObserveDeadLetter event.(EventType) publishOutcome) in
                eff! _ := log LevelWarn "outbox_event_dead_lettered"
                            (event_attrs w event
                             ++ [attr "failed_attempts" (strconv_Itoa failedAttempts);
                                 attr "failure_reason" (outcome_string publishOutcome);
                                 duration_ms duration]) in
                Ret (Ok tt)
            end
          else
            let delay := retryDelay w.(backoff) failedAttempts in
            eff! marked := perform (CScheduleRetry w.(workerID) event.(ID) delay publishOutcome) in
            match marked with
            | Err err =>
                transition_failed w event OperationScheduleRetry
                  ("schedule retry for event " ++ fmt_q event.(ID)) err
            | Ok _ =>
                eff! _ := observe (ObserveRetry event.(EventType) publishOutcome) in
                eff! _ := log LevelWarn "outbox_event_retry_scheduled"
                            (event_attrs w event
                             ++ [attr "failed_attempts" (strconv_Itoa failedAttempts);
                                 attr "retry_delay" (strconv_Itoa delay);
                                 attr "failure_reason" (outcome_string publishOutcome);
                                 duration_ms duration]) in
                Ret (Ok tt)
            end
      end
  end.

(** ** The polling loop *)

(** The boolean result is [false] whenever the error is non-nil. *)
Definition runOnce (w : Worker) : wprog (result goerr bool) :=
  eff! claimed := perform (CClaimNext w.(workerID) w.(lockTTL)) in
  match claimed with
  | Err err =>
      eff! ctx := perform CCtx in
      match own_ctx_error ctx err with
      | Some ctxErr => Ret (Err (ESentinel ctxErr))
      | None =>
          eff! _ := observe (ObserveClaim ClaimOutcomeError) in
          eff! _ := observe (ObserveOperationError OperationClaim) in
          Ret (Err (wrapWorkerOperationError OperationClaim err))
      end
  | Ok None =>
      eff! _ := observe (ObserveClaim ClaimOutcomeEmpty) in
      Ret (Ok false)
  | Ok (Some event) =>
      eff! _ := observe (ObserveClaim ClaimOutcomeClaimed) in
      eff! _ := log LevelInfo "outbox_event_claimed" (event_attrs w event) in
      eff! processed := processEvent w event in
      match processed with
      | Err err => if errors_Is err outbox_ErrLeaseLost then Ret (Ok false) else Ret (Err err)
      | Ok _ => Ret (Ok true)
      end
  end.

Definition iteration_attrs (w : Worker) (operation error_class action : string)
  : list (string * string) :=
  [attr "worker_id" w.(workerID); attr "operation" operation; attr "error_class" error_class;
   attr "action" action].

(** One turn of the [for] loop after the timer fired: [Some r] when [Run] returns
    [r] from inside it, [None] when the timer is reset. *)
Definition handle_iteration (w : Worker) (iteration : result goerr bool)
  : wprog (option (result goerr unit)) :=
  match iteration with
  | Err err =>
      eff! ctx := perform CCtx in
      match own_ctx_error ctx err with
      | Some _ => Ret (Some (Ok tt))
      | None =>
          let operation := workerErrorOperation err in
          if errors_Is err outbox_errStoreUnavailable then
            eff! _ := log LevelError "outbox_worker_iteration_failed"
                        (iteration_attrs w operation "store_unavailable" "retry") in
            eff! _ := perform (CReset w.(pollInterval)) in
            Ret None
          else
            eff! _ := log LevelError "outbox_worker_iteration_failed"
                        (iteration_attrs w operation "store_internal" "stop") in
            Ret (Some (Err (EWrap ("outbox worker " ++ operation ++ " operation failed")
                              (ESentinel outbox_errWorkerFatal))))
      end
  | Ok processed =>
      eff! _ := perform (CReset (if processed then 0 else w.(pollInterval))) in
      Ret None
  end.

Fixpoint run_loop (fuel : nat) (w : Worker) : wprog (result goerr unit) :=
  match fuel with
  | O => OutOfFuel
  | S fuel =>
      eff! wakeup := perform CSelect in
      match wakeup with
      | CtxDone => Ret (Ok tt)
      | TimerFired =>
          eff! iteration := runOnce w in
          eff! returned := handle_iteration w iteration in
          match returned with
          | Some r => Ret r
          | None => run_loop fuel w
          end
      end
  end.

Definition worker_attrs (w : Worker) : list (string * string) :=
  [attr "worker_id" w.(workerID)].

(** [timer := time.NewTimer(0)] is the first [CReset]. *)
Definition Run (fuel : nat) (w : Worker) (onStarted : bool) : wprog (result goerr unit) :=
  eff! ctx := perform CCtx in
  match ctx_Err ctx with
  | Some _ => Ret (Ok tt)
  | None =>
      eff! _ := log LevelInfo "outbox_worker_started" (worker_attrs w) in
      eff! r := (
        eff! _ := perform (CReset 0) in
        eff! ctx := perform CCtx in
        match ctx_Err ctx with
        | Some _ => Ret (Ok tt)
        | None =>
            eff! _ := (if onStarted then perform COnStarted else Ret tt) in
            run_loop fuel w
        end) in
      eff! _ := log LevelInfo "outbox_worker_stopped" (worker_attrs w) in   (* defer *)
      Ret r
  end.

(** ** publisher.go *)

Definition NewLoggingPublisher (logger : bool) : result goerr unit :=
  if negb logger then Err (ENew "logger must not be nil") else Ok tt.

Definition loggingPublisher_Publish (event : Event) : wprog (option goerr) :=
  eff! ctx := perform CCtx in
  match ctx_Err ctx with
  | Some err => Ret (Some (ESentinel err))
  | None =>
      eff! _ := log LevelInfo "outbox_event_publish_simulated"
                  [attr "event_id" event.(ID); attr "event_type" event.(EventType);
                   attr "aggregate_type" event.(AggregateType); attr "aggregate_id" event.(AggregateID);
                   attr "failed_attempts" (strconv_Itoa event.(FailedAttempts))] in
      Ret None
  end.

End Worker.
