(* ===== verification/WorkerLogic.v ===== *)
(** * The protocol an outbox worker follows

    Every run of a worker is a trace of calls and replies.  [after] follows what
    the worker holds along a trace, [allowed] says which calls it may make next,
    and [wsafe] is the weakest precondition of a worker program for them, under
    any replies. *)
From S2P Require Import Prelude.
From S2P Require Import GoErrors.
From S2P Require Import Prog.
From S2P Require Import GoStrings.
From S2P Require Import Outbox.
From S2P Require Import OutboxFacts.
From S2P Require Import Backoff.
From S2P Require Import Worker.
Local Open Scope Z_scope.

Module WorkerLogic.
Import Outbox OutboxFacts Backoff Worker.

(** ** What the worker holds *)

Inductive phase := Claimed | Delivered | Refused.
#[export] Instance phase_eq_dec : EqDecision phase.
Proof. solve_decision. Defined.

(** [g_ended]: the worker's context was seen ended.  [g_ctx]: the error [ctx.Err()]
    has returned.  [g_failure]: the error of the last store call, if it failed. *)
Record ghost := Ghost {
  g_held : option (Event * phase);
  g_ended : bool;
  g_ctx : option sentinel;
  g_failure : option goerr
}.

Definition start : ghost := Ghost None false None None.

Definition seen_ctx (c : ctx_state) (g : ghost) : ghost :=
  match ctx_Err c with
  | Some s => Ghost g.(g_held) true (Some s) g.(g_failure)
  | None => g
  end.

(** A context that has ended stays ended, with the same error. *)
Definition possible (g : ghost) (c : call) : reply c → Prop :=
  match c with
  | CCtx => λ r, match g.(g_ctx) with Some s => ctx_Err r = Some s | None => True end
  | _ => λ _, True
  end.

Definition store_reply {A} (r : result goerr A) : option goerr :=
  match r with Ok _ => None | Err e => Some e end.

Definition after (g : ghost) (c : call) : reply c → ghost :=
  match c with
  | CClaimNext _ _ => λ r,
      Ghost (match r with Ok (Some e) => Some (e, Claimed) | _ => None end)
        g.(g_ended) g.(g_ctx) (store_reply r)
  | CPublish e _ => λ r,
      Ghost (Some (e, match r.(pr_err) with None => Delivered | Some _ => Refused end))
        g.(g_ended) g.(g_ctx) g.(g_failure)
  | CMarkPublished _ _ | CScheduleRetry _ _ _ _ | CMarkDeadLetter _ _ _ => λ r,
      Ghost None g.(g_ended) g.(g_ctx) (store_reply r)
  | CCtx => λ r, seen_ctx r g
  | CSelect => λ r,
      Ghost g.(g_held) (match r with CtxDone => true | TimerFired => g.(g_ended) end)
        g.(g_ctx) g.(g_failure)
  | CReset _ | COnStarted | CObserve _ | CLog _ _ _ => λ _, g
  end.

(** Which calls the protocol allows: only a claimed event is published, once per
    claim; only a delivered one is marked published; only a refused one is retried
    or dead-lettered, by its number of failures. *)
Definition allowed (w : Worker) (g : ghost) (c : call) : Prop :=
  match c with
  | CClaimNext worker ttl => worker = w.(workerID) ∧ ttl = w.(lockTTL)
  | CPublish e timeout => g.(g_held) = Some (e, Claimed) ∧ timeout = w.(publishTimeout)
  | CMarkPublished worker id =>
      worker = w.(workerID) ∧ ∃ e, g.(g_held) = Some (e, Delivered) ∧ id = e.(ID)
  | CScheduleRetry worker id delay outcome =>
      worker = w.(workerID) ∧ failure_outcome outcome
      ∧ ∃ e, g.(g_held) = Some (e, Refused) ∧ id = e.(ID)
        ∧ int64 (e.(FailedAttempts) + 1) < w.(maxFailures)
        ∧ delay = retryDelay w.(backoff) (int64 (e.(FailedAttempts) + 1))
  | CMarkDeadLetter worker id outcome =>
      worker = w.(workerID) ∧ failure_outcome outcome
      ∧ ∃ e, g.(g_held) = Some (e, Refused) ∧ id = e.(ID)
        ∧ w.(maxFailures) ≤ int64 (e.(FailedAttempts) + 1)
  | _ => True
  end.

(** ** Traces *)

Definition trace := list { c : call & reply c }.

Fixpoint ghost_after (g : ghost) (tr : trace) : ghost :=
  match tr with
  | [] => g
  | existT c r :: tr => ghost_after (after g c r) tr
  end.

Fixpoint compliant (w : Worker) (g : ghost) (tr : trace) : Prop :=
  match tr with
  | [] => True
  | existT c r :: tr => allowed w g c ∧ compliant w (after g c r) tr
  end.

(** The replies of a trace are those of one context. *)
Fixpoint realistic (g : ghost) (tr : trace) : Prop :=
  match tr with
  | [] => True
  | existT c r :: tr => possible g c r ∧ realistic (after g c r) tr
  end.

(** The traces of a program that returns. *)
Inductive runs {A} : wprog A → trace → A → Prop :=
| runs_ret a : runs (Ret a) [] a
| runs_do c k r tr a : runs (k r) tr a → runs (Do c k) (existT c r :: tr) a.

(** The finite prefixes of the traces of a program. *)
Inductive partial {A} : wprog A → trace → Prop :=
| partial_nil m : partial m []
| partial_do c k r tr : partial (k r) tr → partial (Do c k) (existT c r :: tr).

(** ** The weakest precondition *)

Section wsafe.
Context (w : Worker).

Fixpoint wsafe {A} (m : wprog A) (g : ghost) (Φ : A → ghost → Prop) : Prop :=
  match m with
  | Ret a => Φ a g
  | OutOfFuel => True
  | Do c k => allowed w g c ∧ ∀ r, possible g c r → wsafe (k r) (after g c r) Φ
  end.

Lemma wsafe_weaken {A} (m : wprog A) g (Φ Ψ : A → ghost → Prop) :
  (∀ a g, Φ a g → Ψ a g) → wsafe m g Φ → wsafe m g Ψ.
Proof.
  intros HΦ. revert g. induction m as [a| |c k IH]; intros g; simpl; [by auto|done|].
  intros [Ha Hk]. split; [done|]. eauto.
Qed.

Lemma wsafe_bind {A B} (m : wprog A) (k : A → wprog B) g Φ :
  wsafe m g (λ a g, wsafe (k a) g Φ) → wsafe (pbind m k) g Φ.
Proof.
  revert g. induction m as [a| |c f IH]; intros g; simpl; [done|done|].
  intros [Ha Hk]. split; [done|]. eauto.
Qed.

Lemma wsafe_runs {A} (m : wprog A) g Φ tr a :
  wsafe m g Φ → runs m tr a → realistic g tr → compliant w g tr ∧ Φ a (ghost_after g tr).
Proof.
  intros Hs Hr. revert g Hs. induction Hr as [a|c k r tr a Hr IH]; intros g; simpl; [done|].
  intros [Ha Hk] [Hp Hreal]. by destruct (IH _ (Hk r Hp) Hreal).
Qed.

Lemma wsafe_partial {A} (m : wprog A) g Φ tr :
  wsafe m g Φ → partial m tr → realistic g tr → compliant w g tr.
Proof.
  intros Hs Hr. revert g Hs. induction Hr as [m|c k r tr Hr IH]; intros g; simpl; [done|].
  intros [Ha Hk] [Hp Hreal]. split; [done|]. by apply IH; [apply Hk|].
Qed.

(** Calls that neither ask nor change anything about the protocol. *)
Lemma wsafe_observe o {A} (k : unit → wprog A) g Φ :
  wsafe (k tt) g Φ → wsafe (pbind (observe o) k) g Φ.
Proof. intros Hk. split; [done|]. by intros []. Qed.

Lemma wsafe_log l s attrs {A} (k : unit → wprog A) g Φ :
  wsafe (k tt) g Φ → wsafe (pbind (log l s attrs) k) g Φ.
Proof. intros Hk. split; [done|]. by intros []. Qed.

Lemma wsafe_ctx {A} (k : ctx_state → wprog A) g Φ :
  (∀ c, match g.(g_ctx) with Some s => ctx_Err c = Some s | None => True end →
     wsafe (k c) (seen_ctx c g) Φ) →
  wsafe (pbind (perform CCtx) k) g Φ.
Proof. intros Hk. split; [done|]. exact Hk. Qed.

(** ** Errors *)

(** An iteration ends with the error of the worker's ended context, or with a
    store failure that keeps its identity under the wrapping. *)
Definition iteration_error (e : goerr) (g : ghost) : Prop :=
  (∃ s, g.(g_ctx) = Some s ∧ g.(g_ended) = true ∧ errors_Is e s = true)
  ∨ ∃ e0 op, g.(g_failure) = Some e0 ∧ (∀ t, errors_Is e t = errors_Is e0 t)
      ∧ errors_As as_WorkerOp e = Some (operation_string op).

Lemma own_ctx_error_some c e s : own_ctx_error c e = Some s → ctx_Err c = Some s ∧ errors_Is e s = true.
Proof. unfold own_ctx_error. intros Ho. crush_in Ho. done. Qed.

Lemma ctx_Err_fatal c s : ctx_Err c = Some s → s ≠ outbox_ErrLeaseLost ∧ s ≠ outbox_errStoreUnavailable.
Proof. by destruct c; intros [= <-]. Qed.

Lemma wsafe_transition_failed event op message e0 h d x Φ :
  (∀ e g, (iteration_error e g ∨ errors_Is e outbox_ErrLeaseLost = true) → Φ (Err e) g) →
  wsafe (transition_failed w event op message e0) (Ghost h d x (Some e0)) Φ.
Proof.
  intros HΦ. unfold transition_failed. apply wsafe_bind. unfold handleTransitionError.
  apply wsafe_ctx. intros c _. destruct (own_ctx_error c e0) as [s|] eqn:Ho.
  - apply own_ctx_error_some in Ho as [Hc _]. simpl. apply HΦ. left. left. exists s.
    unfold seen_ctx. rewrite Hc. split_and!; [done..|]. simpl. by apply bool_decide_eq_true.
  - destruct (errors_Is e0 outbox_ErrLeaseLost) eqn:Hl.
    + apply wsafe_observe, wsafe_log. apply HΦ. by right.
    + apply wsafe_observe. apply HΦ. left. right. exists e0, op.
      split_and!; [by unfold seen_ctx; destruct (ctx_Err c)|done|done].
Qed.

Lemma classify_failure c e : failure_outcome (classifyPublishOutcome c (Some e)).
Proof. unfold failure_outcome, classifyPublishOutcome. repeat case_match; done. Qed.

Lemma wsafe_processEvent e d x f Φ :
  (∀ g, Φ (Ok tt) g) →
  (∀ err g, (iteration_error err g ∨ errors_Is err outbox_ErrLeaseLost = true) → Φ (Err err) g) →
  wsafe (processEvent w e) (Ghost (Some (e, Claimed)) d x f) Φ.
Proof.
  intros Hok Herr. unfold processEvent. apply wsafe_log. split; [done|]. intros r _.
  apply wsafe_observe. destruct r as [[err|] pctx dur]; cbn [pr_err pr_ctx pr_duration].
  - apply wsafe_ctx. simpl. intros c Hx. destruct (ctx_Err c) as [s|] eqn:Hc.
    + apply Herr. left. left. exists s. unfold seen_ctx. rewrite Hc. split_and!; [done..|].
      simpl. by apply bool_decide_eq_true.
    + unfold seen_ctx. rewrite Hc. pose proof (classify_failure pctx err) as Hcl.
      destruct (Z.leb_spec w.(maxFailures) (int64 (e.(FailedAttempts) + 1))) as [Hmax|Hmax].
      * split; [simpl; eauto 10|]. intros [[]|e0] _; [|by apply wsafe_transition_failed].
        apply wsafe_observe, wsafe_log. apply Hok.
      * split; [simpl; eauto 10|]. intros [[]|e0] _; [|by apply wsafe_transition_failed].
        apply wsafe_observe, wsafe_log. apply Hok.
  - split; [simpl; eauto 10|]. intros [[]|e0] _; [|by apply wsafe_transition_failed].
    apply wsafe_observe, wsafe_log. apply Hok.
Qed.

Lemma wsafe_runOnce g Φ :
  (∀ b g, Φ (Ok b) g) → (∀ err g, iteration_error err g → Φ (Err err) g) →
  wsafe (runOnce w) g Φ.
Proof.
  intros Hok Herr. unfold runOnce. split; [done|]. intros [[e|]|err] _.
  - apply wsafe_observe, wsafe_log, wsafe_bind, wsafe_processEvent; [intros; apply Hok|].
    intros err g' Hor. simpl. destruct (errors_Is err outbox_ErrLeaseLost) eqn:Hl; [apply Hok|].
    apply Herr. by destruct Hor.
  - apply wsafe_observe. apply Hok.
  - apply wsafe_ctx. intros c Hx. destruct (own_ctx_error c err) as [s|] eqn:Ho.
    + apply own_ctx_error_some in Ho as [Hc _]. apply Herr. left. exists s.
      unfold seen_ctx. rewrite Hc. split_and!; [done..|]. simpl. by apply bool_decide_eq_true.
    + apply wsafe_observe, wsafe_observe. apply Herr. right. exists err, OperationClaim.
      split_and!; [by unfold seen_ctx; destruct (ctx_Err c)|done|done].
Qed.

(** What [Run] returns: nil only when its context has ended; otherwise the fatal
    error, named after the operation whose store call failed with an error that
    does not say the store is unavailable. *)
Definition run_post (r : result goerr unit) (g : ghost) : Prop :=
  match r with
  | Ok _ => g.(g_ended) = true
  | Err e => ∃ e0 op, g.(g_failure) = Some e0 ∧ errors_Is e0 outbox_errStoreUnavailable = false
      ∧ e = EWrap ("outbox worker " ++ operation_string op ++ " operation failed")
              (ESentinel outbox_errWorkerFatal)
  end.

Lemma wsafe_handle_iteration it g Φ :
  (∀ e, it = Err e → iteration_error e g) →
  (∀ g, Φ None g) → (∀ r g, run_post r g → Φ (Some r) g) →
  wsafe (handle_iteration w it) g Φ.
Proof.
  intros Hit Hnone Hsome. destruct it as [b|e]; simpl; [split; [done|]; intros [] _; apply Hnone|].
  specialize (Hit e eq_refl). apply wsafe_ctx. intros c Hx.
  destruct (own_ctx_error c e) as [s|] eqn:Ho.
  - apply own_ctx_error_some in Ho as [Hc _]. apply Hsome. unfold seen_ctx. by rewrite Hc.
  - destruct Hit as [(s & Hs & _ & He)|(e0 & op & Hf & Heq & Hop)].
    { rewrite Hs in Hx. unfold own_ctx_error in Ho. by rewrite Hx, He in Ho. }
    destruct (errors_Is e outbox_errStoreUnavailable) eqn:Hu.
    + apply wsafe_log. split; [done|]. intros [] _. apply Hnone.
    + apply wsafe_log. apply Hsome. exists e0, op. rewrite <-Heq. split_and!; [|done|].
      * by unfold seen_ctx; destruct (ctx_Err c).
      * unfold workerErrorOperation. by rewrite Hop.
Qed.

Lemma wsafe_run_loop fuel g : wsafe (run_loop fuel w) g run_post.
Proof.
  revert g. induction fuel as [|fuel IH]; intros g; [done|].
  split; [done|]. intros [] _; [done|]. apply (wsafe_bind (runOnce w)).
  apply wsafe_runOnce.
  - intros b g'. apply wsafe_bind, wsafe_handle_iteration; [done|by apply IH|done].
  - intros e g' He. apply wsafe_bind, wsafe_handle_iteration; [by intros ? [= <-]|by apply IH|done].
Qed.

Lemma wsafe_Run fuel b : wsafe (Run fuel w b) start run_post.
Proof.
  apply wsafe_ctx. intros c _. destruct (ctx_Err c) as [s|] eqn:Hc.
  { unfold seen_ctx. by rewrite Hc. }
  apply wsafe_log, wsafe_bind.
  assert (∀ (m : wprog (result goerr unit)) g, wsafe m g run_post →
    wsafe m g (λ r g, wsafe (pbind (log LevelInfo "outbox_worker_stopped" (worker_attrs w))
                               (λ _, Ret r)) g run_post)) as Hstop.
  { intros m g Hm. eapply wsafe_weaken; [|exact Hm]. intros r g' Hr. by apply wsafe_log. }
  apply Hstop. split; [done|]. intros [] _. apply wsafe_ctx. intros c' _.
  destruct (ctx_Err c') as [s'|] eqn:Hc'; [unfold seen_ctx; by rewrite Hc'|].
  destruct b; [split; [done|]; intros [] _|]; apply wsafe_run_loop.
Qed.
End wsafe.

End WorkerLogic.
