(* ===== verification/WorkerSys.v ===== *)
(** * Outbox workers sharing the event table

    Any number of workers, interleaved call by call, with a clock, crashes,
    failing calls, new events and retention.  The invariant ties what each worker
    holds (WorkerLogic) to the rows of the table. *)
From S2P Require Import Prelude.
From S2P Require Import GoErrors.
From S2P Require Import Prog.
From S2P Require Import GoStrings.
From S2P Require Import Schema.
From S2P Require Import Outbox.
From S2P Require Import OutboxFacts.
From S2P Require Import Backoff.
From S2P Require Import Worker.
From S2P Require Import WorkerLogic.
Local Open Scope Z_scope.

Module WorkerSys.
Import Schema Outbox OutboxFacts Backoff Worker WorkerLogic.

(** What the environment decides at a call. *)
Record wchoice := WChoice {
  wc_store : choice;
  wc_ctx : ctx_state;
  wc_publish : published_reply;
  wc_wakeup : wakeup
}.

Record wthread := WThread {
  wt_worker : Worker;
  wt_prog : wprog (result goerr unit);
  wt_ghost : ghost;
  wt_until : Z      (* the end of the lease of the held event *)
}.

(** [ws_inserted], [ws_delivered] and [ws_refused] are history variables: the
    events ever inserted, those the publisher accepted at least once, and the
    publications it refused. *)
Record wsys := WSys {
  ws_clock : Z;
  ws_table : table;
  ws_workers : gmap nat wthread;
  ws_inserted : gset string;
  ws_delivered : gset string;
  ws_refused : list string
}.

Definition init_wsys : wsys := WSys 0 ∅ ∅ ∅ ∅ [].

Section wsys.
Context `{Postgres, PgInterval}.
Context (maxF : Z).

(** A call against the shared table. *)
Definition wexec (ch : wchoice) (m : table) (c : call) : table * reply c :=
  match c return table * reply c with
  | CClaimNext worker ttl => ClaimNext ch.(wc_store) m worker ttl
  | CMarkPublished worker id => MarkPublished ch.(wc_store) m worker id
  | CScheduleRetry worker id delay outcome => ScheduleRetry ch.(wc_store) m worker id delay outcome
  | CMarkDeadLetter worker id outcome => MarkDeadLetter ch.(wc_store) m worker id outcome
  | CPublish _ _ => (m, ch.(wc_publish))
  | CCtx => (m, ch.(wc_ctx))
  | CSelect => (m, ch.(wc_wakeup))
  | CReset _ | COnStarted | CObserve _ | CLog _ _ _ => (m, tt)
  end.

(** The history of publications. *)
Definition delivered_by (c : call) : reply c → gset string :=
  match c with
  | CPublish e _ => λ r, match r.(pr_err) with None => {[e.(ID)]} | Some _ => ∅ end
  | _ => λ _, ∅
  end.
Definition refused_by (c : call) : reply c → list string :=
  match c with
  | CPublish e _ => λ r, match r.(pr_err) with None => [] | Some _ => [e.(ID)] end
  | _ => λ _, []
  end.
Definition lease_end (clock until : Z) (c : call) : reply c → Z :=
  match c with
  | CClaimNext _ ttl => λ _, clock + make_interval ttl
  | _ => λ _, until
  end.

(** A new event has the time its transaction started, which is not in the future. *)
Inductive wstep : wsys → wsys → Prop :=
| wstep_start s t cfg w fuel b :
    s.(ws_workers) !! t = None → NewWorker true true true cfg = Ok w → w.(maxFailures) = maxF →
    (∀ t' th, s.(ws_workers) !! t' = Some th → th.(wt_worker).(workerID) ≠ w.(workerID)) →
    wstep s (WSys s.(ws_clock) s.(ws_table) (<[t := WThread w (Run fuel w b) start 0]> s.(ws_workers))
               s.(ws_inserted) s.(ws_delivered) s.(ws_refused))
| wstep_call s t w c k g until ch m' r :
    s.(ws_workers) !! t = Some (WThread w (Do c k) g until) →
    ch.(wc_store).(ch_now) = s.(ws_clock) →
    wexec ch s.(ws_table) c = (m', r) → possible g c r →
    wstep s (WSys s.(ws_clock) m'
               (<[t := WThread w (k r) (after g c r) (lease_end s.(ws_clock) until c r)]> s.(ws_workers))
               s.(ws_inserted) (delivered_by c r ∪ s.(ws_delivered)) (refused_by c r ++ s.(ws_refused)))
| wstep_crash s t :
    wstep s (WSys s.(ws_clock) s.(ws_table) (delete t s.(ws_workers))
               s.(ws_inserted) s.(ws_delivered) s.(ws_refused))
| wstep_tick s clock :
    s.(ws_clock) ≤ clock →
    wstep s (WSys clock s.(ws_table) s.(ws_workers) s.(ws_inserted) s.(ws_delivered) s.(ws_refused))
| wstep_insert s id aggregate_type aggregate_id event_type payload now :
    let o := new_outbox_row id aggregate_type aggregate_id event_type payload now in
    now ≤ s.(ws_clock) → canonical_uuid id = true → s.(ws_table) !! id = None → outbox_check o = true →
    wstep s (WSys s.(ws_clock) (<[id := o]> s.(ws_table)) s.(ws_workers)
               ({[id]} ∪ s.(ws_inserted)) s.(ws_delivered) s.(ws_refused))
| wstep_retention s id o :
    s.(ws_table) !! id = Some o → o.(o_status) = published →
    wstep s (WSys s.(ws_clock) (delete id s.(ws_table)) s.(ws_workers)
               s.(ws_inserted) s.(ws_delivered) s.(ws_refused)).

Definition wreachable (s : wsys) : Prop := rtc wstep init_wsys s.

(** ** The invariant *)

Definition times (id : string) (l : list string) : Z := Z.of_nat (length (filter (λ x, x = id) l)).

(** A row and the history of its event. *)
Definition row_ok (delivered : gset string) (refused : list string) (id : string)
    (o : outbox_row) : Prop :=
  canonical_uuid id = true ∧ o.(o_failed_attempts) ≤ times id refused ∧
  match o.(o_status) with
  | pending | processing => o.(o_failed_attempts) < maxF
  | published => o.(o_failed_attempts) < maxF ∧ id ∈ delivered
  | dead_letter => o.(o_failed_attempts) = maxF
  end.

(** The row is leased to [worker]. *)
Definition owns (worker : string) (o : outbox_row) : Prop :=
  o.(o_status) = processing ∧ o.(o_locked_by) = Some worker.

(** What a worker holds and the row of that event. *)
Definition held_ok (clock : Z) (m : table) (delivered : gset string) (refused : list string)
    (worker : string) (until : Z) (e : Event) (p : phase) : Prop :=
  canonical_uuid e.(ID) = true
  ∧ (p = Delivered → e.(ID) ∈ delivered)
  ∧ e.(FailedAttempts) + (if decide (p = Refused) then 1 else 0) ≤ times e.(ID) refused
  ∧ 0 ≤ e.(FailedAttempts) < 2 ^ 31
  ∧ (∀ o, m !! e.(ID) = Some o → owns worker o → o.(o_failed_attempts) = e.(FailedAttempts))
  ∧ (clock < until →
     ∃ o, m !! e.(ID) = Some o ∧ owns worker o ∧ o.(o_locked_until) = Some until).

Definition wthread_ok (s : wsys) (th : wthread) : Prop :=
  wsafe th.(wt_worker) th.(wt_prog) th.(wt_ghost) run_post
  ∧ th.(wt_worker).(maxFailures) = maxF
  ∧ match th.(wt_ghost).(g_held) with
    | Some (e, p) => held_ok s.(ws_clock) s.(ws_table) s.(ws_delivered) s.(ws_refused)
                       th.(wt_worker).(workerID) th.(wt_until) e p
    | None => True
    end.

Record winv (s : wsys) : Prop := {
  wi_table : table_ok s.(ws_table);
  wi_row id o : s.(ws_table) !! id = Some o → row_ok s.(ws_delivered) s.(ws_refused) id o;
  wi_inserted id : id ∈ s.(ws_inserted) → is_Some (s.(ws_table) !! id) ∨ id ∈ s.(ws_delivered);
  wi_thread t th : s.(ws_workers) !! t = Some th → wthread_ok s th;
  wi_distinct t1 t2 th1 th2 :
    s.(ws_workers) !! t1 = Some th1 → s.(ws_workers) !! t2 = Some th2 →
    th1.(wt_worker).(workerID) = th2.(wt_worker).(workerID) → t1 = t2
}.

Lemma times_app id l l' : times id (l ++ l') = times id l + times id l'.
Proof. unfold times. rewrite filter_app, length_app. lia. Qed.

Lemma times_nonneg id l : 0 ≤ times id l.
Proof. unfold times. lia. Qed.

Lemma times_cons id l : times id (id :: l) = 1 + times id l.
Proof. unfold times. rewrite filter_cons_True by done. simpl. lia. Qed.

Lemma row_ok_mono d d' r r' id o :
  d ⊆ d' → times id r ≤ times id r' → row_ok d r id o → row_ok d' r' id o.
Proof.
  intros Hd Hr (Hcan & Hle & Hs). split_and!; [done|lia|]. destruct o.(o_status); set_solver.
Qed.

(** Time passes, publications are recorded: what a worker holds stays true. *)
Lemma held_ok_mono clock clock' m d d' r r' w u e p :
  clock ≤ clock' → d ⊆ d' → times e.(ID) r ≤ times e.(ID) r' →
  held_ok clock m d r w u e p → held_ok clock' m d' r' w u e p.
Proof.
  intros Hc Hd Hr (Hcan & H1 & H2 & H3 & H4 & H5).
  split_and!; [done|set_solver|lia|lia|lia|done|].
  intros ?. apply H5. lia.
Qed.

(** A row changes that the worker does not own under a live lease, and the
    worker does not own it afterwards. *)
Lemma held_ok_update clock m d r w u e p id o o' :
  m !! id = Some o → (owns w o → ∀ t, o.(o_locked_until) = Some t → t ≤ clock) → ¬ owns w o' →
  held_ok clock m d r w u e p → held_ok clock (<[id := o']> m) d r w u e p.
Proof.
  intros Hm Hlive Hown (Hcan & H1 & H2 & H3 & H4 & H5). split_and!; [done|done|done|lia|lia| |].
  - intros o1 [[Heq <-]|[_ Hin]]%lookup_insert_Some Ho; [done|eauto].
  - intros Hlt. destruct (H5 Hlt) as (o1 & Hin & Ho & Hu). exists o1. split; [|done].
    rewrite lookup_insert_ne; [done|]. intros ->. assert (o1 = o) as -> by congruence.
    specialize (Hlive Ho u Hu). lia.
Qed.

(** ** The calls *)

(** The calls other than those of the store leave the table alone. *)
Lemma wexec_other ch m c m' r :
  wexec ch m c = (m', r) →
  match c with
  | CClaimNext _ _ | CMarkPublished _ _ | CScheduleRetry _ _ _ _ | CMarkDeadLetter _ _ _ => True
  | _ => m' = m
  end.
Proof. destruct c; simpl; intros Heq; simplify_eq; done. Qed.

(** What a call of a worker that follows the protocol does to the table. *)
Inductive table_step (w : Worker) (g : ghost) (clock : Z) (m : table) : table → Prop :=
| ts_none : table_step w g clock m m
| ts_lease o :
    m !! o.(o_id) = Some o → due clock o = true →
    table_step w g clock m (<[o.(o_id) := leased o w.(workerID) w.(lockTTL) clock]> m)
| ts_final o op e p :
    m !! o.(o_id) = Some o → owns w.(workerID) o → g.(g_held) = Some (e, p) →
    uuid_in e.(ID) = Some o.(o_id) →
    match op with
    | OpPublished => p = Delivered
    | OpRetry _ _ => p = Refused ∧ int64 (e.(FailedAttempts) + 1) < maxF
    | OpDeadLetter _ => p = Refused ∧ maxF ≤ int64 (e.(FailedAttempts) + 1)
    end →
    table_step w g clock m (<[o.(o_id) := op_row op clock o]> m).

Lemma wexec_table_step w g ch m c m' r :
  table_ok m → w.(maxFailures) = maxF → allowed w g c → wexec ch m c = (m', r) →
  table_ok m' ∧ table_step w g ch.(wc_store).(ch_now) m m'.
Proof.
  intros Hok Hmax Hal Hex.
  assert (∀ op id, run_op op ch.(wc_store) m w.(workerID) id = (m', match c return reply c → result goerr unit with
     | CMarkPublished _ _ | CScheduleRetry _ _ _ _ | CMarkDeadLetter _ _ _ => λ r, r
     | _ => λ _, Ok tt end r) →
     (∀ o, m !! o.(o_id) = Some o → owns w.(workerID) o → uuid_in id = Some o.(o_id) →
        table_step w g ch.(wc_store).(ch_now) m
          (<[o.(o_id) := op_row op ch.(wc_store).(ch_now) o]> m)) →
     table_ok m' ∧ table_step w g ch.(wc_store).(ch_now) m m') as Hfinal.
  { intros op id Hop Hts. pose proof (run_op_effect _ _ _ _ _ _ _ Hok Hop) as Heff.
    split; [eapply transition_effect_ok; [apply op_row_id|done..]|].
    inversion Heff as [|o r' Hid Hm Hs Hl Hc Hr]; subst; [constructor|].
    apply Hts; [done|by split|done]. }
  destruct c; simpl in Hex, Hal; try (injection Hex as <- _; split; [done|constructor]).
  - destruct Hal as [-> ->]. pose proof (ClaimNext_effect _ _ _ _ _ _ Hok Hex) as Heff.
    split; [by eapply claim_effect_ok|].
    inversion Heff as [|o r' Hm Hd Hl Hc Hr]; subst; [constructor|]. by apply ts_lease.
  - destruct Hal as (-> & e & Hh & ->). eapply (Hfinal OpPublished); [exact Hex|].
    intros o Hm Ho Hid. by eapply ts_final.
  - destruct Hal as (-> & _ & e & Hh & -> & Hlt & ->). eapply (Hfinal (OpRetry _ _)); [exact Hex|].
    intros o Hm Ho Hid. eapply ts_final; [done..|]. rewrite <-Hmax. done.
  - destruct Hal as (-> & _ & e & Hh & -> & Hle). eapply (Hfinal (OpDeadLetter _)); [exact Hex|].
    intros o Hm Ho Hid. eapply ts_final; [done..|]. rewrite <-Hmax. done.
Qed.

(** ** Preservation *)

Lemma due_status clock o : due clock o = true →
  o.(o_status) = pending ∨ (o.(o_status) = processing ∧ ∀ t, o.(o_locked_until) = Some t → t ≤ clock).
Proof.
  unfold due. destruct o.(o_status); try done; [by left|right]. split; [done|].
  intros t Ht. rewrite Ht in *. by boolean.
Qed.

(** The caller's table step keeps every row in agreement with its history. *)
Lemma table_step_rows w g clock m m' d r u :
  (∀ id o, m !! id = Some o → row_ok d r id o) →
  (∀ e p, g.(g_held) = Some (e, p) → held_ok clock m d r w.(workerID) u e p) →
  table_step w g clock m m' →
  ∀ id o, m' !! id = Some o → row_ok d r id o.
Proof.
  intros Hrow Hheld [|o Hm Hd|o op e p Hm Ho Hg Hid Hop]; [done|..].
  - intros id o' [[<- <-]|[_ Hin]]%lookup_insert_Some; [|eauto].
    destruct (Hrow _ _ Hm) as (Hcan & Hle & Hs). split_and!; [done..|]. simpl.
    destruct (due_status _ _ Hd) as [E|[E _]]; by rewrite E in Hs.
  - intros id o' [[<- <-]|[_ Hin]]%lookup_insert_Some; [|eauto].
    destruct (Hrow _ _ Hm) as (Hcan & Hle & Hs).
    destruct (Hheld _ _ Hg) as (Hcan' & Hdel & Htimes & Hrange & Hfa & _).
    rewrite (uuid_in_canonical _ Hcan') in Hid. injection Hid as Hid.
    rewrite <-Hid in Hm. specialize (Hfa o Hm Ho). destruct Ho as [Hp _]. rewrite Hp in Hs.
    rewrite <-Hid in *.
    assert (int64 (e.(FailedAttempts) + 1) = e.(FailedAttempts) + 1) as Hi
      by (apply int64_id; unfold is_int64, int64_min, int64_max; lia).
    destruct op as [|delay out|out]; simpl.
    + unfold row_ok. simpl. split_and!; first [done | lia | by apply Hdel].
    + destruct Hop as [-> Hop]. rewrite Hi in Hop. rewrite decide_True in Htimes by done.
      unfold row_ok. simpl. split_and!; first [done | lia].
    + destruct Hop as [-> Hop]. rewrite Hi in Hop. rewrite decide_True in Htimes by done.
      unfold row_ok. simpl. split_and!; first [done | lia].
Qed.

(** The caller's table step respects what another worker holds. *)
Lemma table_step_other w g clock m m' d r w2 u e p :
  w2 ≠ w.(workerID) → table_step w g clock m m' →
  held_ok clock m d r w2 u e p → held_ok clock m' d r w2 u e p.
Proof.
  intros Hne [|o Hm Hd|o op e' p' Hm [Hp Hl] _ _ _]; [done|..].
  - apply held_ok_update with (o := o); [done| |].
    + intros [Hs _]. destruct (due_status _ _ Hd) as [E|[_ E]]; [congruence|done].
    + intros [_ Hl]. simpl in Hl. congruence.
  - apply held_ok_update with (o := o); [done| |].
    + intros [_ Hl']. congruence.
    + intros [Hs _]. by destruct op.
Qed.

(** What the caller holds after its call. *)
Lemma held_after_call w g u ch m c m' r d rf :
  table_ok m → (∀ id o, m !! id = Some o → row_ok d rf id o) →
  allowed w g c → wexec ch m c = (m', r) →
  (∀ e p, g.(g_held) = Some (e, p) →
     held_ok ch.(wc_store).(ch_now) m d rf w.(workerID) u e p) →
  ∀ e p, (after g c r).(g_held) = Some (e, p) →
    held_ok ch.(wc_store).(ch_now) m' (delivered_by c r ∪ d) (refused_by c r ++ rf)
      w.(workerID) (lease_end ch.(wc_store).(ch_now) u c r) e p.
Proof.
  intros Hok Hrow Hal Hex Hheld e p Hg.
  assert (∀ m1, m1 = m → g.(g_held) = Some (e, p) →
    held_ok ch.(wc_store).(ch_now) m1 (∅ ∪ d) rf w.(workerID) u e p) as Hsame.
  { intros m1 -> Hg'. rewrite (left_id_L ∅ (∪)). by apply Hheld. }
  destruct c; simpl in *; try (injection Hex as Hex _; apply Hsame; [done|]; by try exact Hg); try done.
  - destruct Hal as [-> ->]. destruct (ClaimNext_effect _ _ _ _ _ _ Hok Hex) as [r0 Hr0|o r0 Hm Hd _ _ Hr0].
    { destruct r0 as [[e0|]|]; try done. by destruct (Hr0 e0). }
    destruct Hr0 as [->|[_ Hr0]]; [|destruct r0 as [[e0|]|]; try done; by destruct (Hr0 e0)].
    simpl in Hg. injection Hg as <- <-. destruct (Hrow _ _ Hm) as (Hcan & Hle & _).
    destruct (Hok _ _ Hm) as [_ Hc]. apply outbox_check_true in Hc as (_ & _ & _ & Hrange & _).
    rewrite (left_id_L ∅ (∪)). unfold held_ok. simpl.
    split_and!; [done|done|lia|lia|lia| |].
    + intros o1. rewrite lookup_insert_eq. by intros [= <-].
    + intros _. eexists. rewrite lookup_insert_eq. by split_and!.
  - destruct Hal as [Hh ->]. injection Hex as <- <-. injection Hg as <- <-.
    destruct (Hheld _ _ Hh) as (Hcan & _ & Htimes & Hrange & Hfa & Hlive).
    rewrite decide_False in Htimes by done. rewrite Z.add_0_r in Htimes.
    unfold held_ok. destruct (pr_err (wc_publish ch)); simpl.
    + rewrite times_cons. split_and!; try done; lia.
    + split_and!; try done; try lia. intros _. set_solver.
  - unfold seen_ctx in *. injection Hex as <- <-. apply Hsame; [done|]. by destruct (ctx_Err _).
Qed.

Lemma times_refused_mono c r rf id : times id rf ≤ times id (refused_by c r ++ rf).
Proof. rewrite times_app. pose proof (times_nonneg id (refused_by c r)). lia. Qed.

Lemma table_step_keeps w g clock m m' id :
  table_step w g clock m m' → is_Some (m !! id) → is_Some (m' !! id).
Proof. intros [|o Hm _|o op e p Hm _ _ _ _]; [done|..]; by rewrite lookup_insert_is_Some'; right. Qed.

Lemma call_inv s t w c k g until ch m' r :
  winv s → s.(ws_workers) !! t = Some (WThread w (Do c k) g until) →
  ch.(wc_store).(ch_now) = s.(ws_clock) →
  wexec ch s.(ws_table) c = (m', r) → possible g c r →
  winv (WSys s.(ws_clock) m'
          (<[t := WThread w (k r) (after g c r) (lease_end s.(ws_clock) until c r)]> s.(ws_workers))
          s.(ws_inserted) (delivered_by c r ∪ s.(ws_delivered)) (refused_by c r ++ s.(ws_refused))).
Proof.
  intros [Hok Hrow Hins Hth Hdist] Ht Hnow Hex Hpos.
  destruct (Hth _ _ Ht) as ([Hal Hsafe] & Hmax & Hheld). simpl in *. rewrite <-Hnow in *.
  destruct (wexec_table_step w g ch _ c m' r Hok Hmax Hal Hex) as [Hok' Hts].
  assert (∀ e p, g.(g_held) = Some (e, p) →
    held_ok ch.(wc_store).(ch_now) s.(ws_table) s.(ws_delivered) s.(ws_refused)
      w.(workerID) until e p) as Hheld' by (intros e p Hg; by rewrite Hg in Hheld).
  split; simpl; [done| | | |].
  - intros id o Hin. eapply row_ok_mono; [apply union_subseteq_r|apply times_refused_mono|].
    by eapply table_step_rows.
  - intros id [Hid|Hid]%Hins; [left|right; set_solver]. by eapply table_step_keeps.
  - intros t2 th [[<- <-]|[Hne Ht2]]%lookup_insert_Some.
    + split_and!; simpl; [by apply Hsafe|done|].
      destruct (g_held (after g c r)) as [[e p]|] eqn:Hg; [|done].
      by apply (held_after_call w g until ch s.(ws_table)).
    + destruct (Hth _ _ Ht2) as (Hs2 & Hm2 & Hh2). split_and!; [done..|].
      destruct (g_held (wt_ghost th)) as [[e p]|]; [|done]. simpl. rewrite <-Hnow in Hh2.
      eapply table_step_other; [|exact Hts|].
      * intros Heq. apply Hne. symmetry. by eapply Hdist.
      * eapply held_ok_mono; [reflexivity|apply union_subseteq_r|apply times_refused_mono|exact Hh2].
  - intros t1 t2 th1 th2 [[<- <-]|[Hne1 H1]]%lookup_insert_Some
      [[<- <-]|[Hne2 H2]]%lookup_insert_Some; simpl; intros Heq; [done|..].
    + by eapply (Hdist t t2).
    + by eapply (Hdist t1 t).
    + by eapply (Hdist t1 t2).
Qed.

(** Steps of the environment: rows appear or disappear, time passes. *)
Lemma env_winv s clock m inserted :
  winv s → s.(ws_clock) ≤ clock → table_ok m →
  (∀ id o, m !! id = Some o → row_ok s.(ws_delivered) s.(ws_refused) id o) →
  (∀ id, id ∈ inserted → is_Some (m !! id) ∨ id ∈ s.(ws_delivered)) →
  (∀ id o, o.(o_status) = processing → m !! id = Some o ↔ s.(ws_table) !! id = Some o) →
  winv (WSys clock m s.(ws_workers) inserted s.(ws_delivered) s.(ws_refused)).
Proof.
  intros [Hok Hrow Hins Hth Hdist] Hclock Hok' Hrow' Hins' Hproc. split; simpl; try done.
  intros t th Ht. destruct (Hth _ _ Ht) as (Hs & Hm & Hh). split_and!; [done..|].
  destruct (g_held (wt_ghost th)) as [[e p]|]; [|done]. simpl.
  eapply held_ok_mono with (clock := s.(ws_clock)); [done|reflexivity|reflexivity|].
  destruct Hh as (Hcan & H1 & H2 & H3 & H4 & H5). split_and!; [done|done|done|lia|lia| |].
  - intros o Hin [Hs1 Hl]. apply H4; [|by split]. by apply Hproc.
  - intros Hlt. destruct (H5 Hlt) as (o & Hin & [Hs1 Hl] & Hu). exists o. split_and!; [|by split|done].
    by apply Hproc.
Qed.

Lemma init_winv : winv init_wsys.
Proof. split; simpl; [intros id o ?|..]; intros; simplify_map_eq; set_solver. Qed.

Lemma insert_winv s id aggregate_type aggregate_id event_type payload now :
  0 < maxF → winv s →
  let o := new_outbox_row id aggregate_type aggregate_id event_type payload now in
  canonical_uuid id = true → s.(ws_table) !! id = None → outbox_check o = true →
  winv (WSys s.(ws_clock) (<[id := o]> s.(ws_table)) s.(ws_workers)
          ({[id]} ∪ s.(ws_inserted)) s.(ws_delivered) s.(ws_refused)).
Proof.
  intros HmaxF Hinv o Hcan Hnone Hc. pose proof Hinv as [Hok Hrow Hins _ _].
  apply env_winv; [done|done|by apply (table_ok_insert _ o)|..].
  - intros id' o' [[<- <-]|[_ Hin]]%lookup_insert_Some; [|eauto].
    split_and!; [done|apply times_nonneg|done].
  - intros id' [->%elem_of_singleton|Hid]%elem_of_union; [left; rewrite lookup_insert_eq; eauto|].
    destruct (Hins id' Hid) as [Hsome|]; [left|by right]. by apply lookup_insert_is_Some'; right.
  - intros id' o' Hs. rewrite lookup_insert_Some. split; [|intros Hin; right; split; congruence].
    intros [[<- <-]|[_ ?]]; done.
Qed.

Lemma retention_winv s id o :
  winv s → s.(ws_table) !! id = Some o → o.(o_status) = published →
  winv (WSys s.(ws_clock) (delete id s.(ws_table)) s.(ws_workers)
          s.(ws_inserted) s.(ws_delivered) s.(ws_refused)).
Proof.
  intros Hinv Hin Hs. pose proof Hinv as [Hok Hrow Hins _ _].
  apply env_winv; [done|done| | | |].
  - intros id' o' [_ ?]%lookup_delete_Some. by apply Hok.
  - intros id' o' [_ ?]%lookup_delete_Some. by apply Hrow.
  - intros id' Hid. destruct (decide (id' = id)) as [->|Hne].
    + right. destruct (Hrow _ _ Hin) as (_ & _ & Hst). rewrite Hs in Hst. apply Hst.
    + rewrite lookup_delete_ne by done. by apply Hins.
  - intros id' o' Hs'. rewrite lookup_delete_Some. split; [by intros [_ ?]|].
    intros Hin'. split; [congruence|done].
Qed.

Lemma wstep_inv s s' : 0 < maxF → wstep s s' → winv s → winv s'.
Proof.
  intros HmaxF Hstep Hinv. destruct Hstep as
    [s t cfg w fuel b Ht Hw Hm Hfresh|s t w c k g until ch m' r Ht Hnow Hex Hpos|s t|s clock Hle
    |s id at_ ai et pl now o Hnow Hcan Hnone Hc|s id o Hin Hs].
  - pose proof Hinv as [Hok Hrow Hins Hth Hdist]. split; simpl; try done.
    + intros t2 th [[<- <-]|[Hne Ht2]]%lookup_insert_Some; [|by eapply Hth].
      split_and!; [apply wsafe_Run|done|done].
    + intros t1 t2 th1 th2 [[<- <-]|[Hne1 H1]]%lookup_insert_Some
        [[<- <-]|[Hne2 H2]]%lookup_insert_Some; simpl; intros Heq; [done|..].
      * by destruct (Hfresh _ _ H2).
      * by destruct (Hfresh _ _ H1).
      * by eapply (Hdist t1 t2).
  - by eapply call_inv.
  - pose proof Hinv as [Hok Hrow Hins Hth Hdist]. split; simpl; try done.
    + intros t2 th [_ Ht2]%lookup_delete_Some. by eapply Hth.
    + intros t1 t2 th1 th2 [_ H1]%lookup_delete_Some [_ H2]%lookup_delete_Some. by apply Hdist.
  - pose proof Hinv as [Hok Hrow Hins _ _]. by apply env_winv.
  - by apply insert_winv.
  - by eapply retention_winv.
Qed.

Lemma wreachable_inv s : 0 < maxF → wreachable s → winv s.
Proof.
  intros HmaxF Hr. cut (∀ s0, rtc wstep s0 s → winv s0 → winv s); [intros Hc; eauto using init_winv|].
  clear Hr. intros s0 Hr. induction Hr; eauto using wstep_inv.
Qed.

(** ** Executing the system *)

Definition possible_b (g : ghost) (c : call) : reply c → bool :=
  match c with
  | CCtx => λ r, match g.(g_ctx) with Some s => bool_decide (ctx_Err r = Some s) | None => true end
  | _ => λ _, true
  end.

(** The next call of worker [t]. *)
Definition wcall (t : nat) (s : wsys) (ch : wchoice) : option wsys :=
  match s.(ws_workers) !! t with
  | Some (WThread w (Do c k) g until) =>
      let '(m', r) := wexec ch s.(ws_table) c in
      if (ch.(wc_store).(ch_now) =? s.(ws_clock)) && possible_b g c r then
        Some (WSys s.(ws_clock) m'
                (<[t := WThread w (k r) (after g c r) (lease_end s.(ws_clock) until c r)]> s.(ws_workers))
                s.(ws_inserted) (delivered_by c r ∪ s.(ws_delivered)) (refused_by c r ++ s.(ws_refused)))
      else None
  | _ => None
  end.

Fixpoint wcalls (t : nat) (chs : list wchoice) (s : wsys) : option wsys :=
  match chs with
  | [] => Some s
  | ch :: chs => s' ← wcall t s ch; wcalls t chs s'
  end.

Lemma possible_b_possible g c r : possible_b g c r = true → possible g c r.
Proof. destruct c; simpl; try done. destruct g.(g_ctx); [|done]. intros. by boolean. Qed.

Lemma wcall_step t s ch s' : wcall t s ch = Some s' → wstep s s'.
Proof.
  unfold wcall. destruct (s.(ws_workers) !! t) as [[w [a| |c k] g u]|] eqn:Ht; try done.
  destruct (wexec ch s.(ws_table) c) as [m' r] eqn:Hex.
  destruct (_ && _) eqn:Hb; [|done]. intros [= <-]. boolean.
  eapply wstep_call; [done..|]. by apply possible_b_possible.
Qed.

Lemma wcalls_steps t chs s s' : wcalls t chs s = Some s' → rtc wstep s s'.
Proof.
  revert s. induction chs as [|ch chs IH]; intros s; simpl; [by intros [= <-]|].
  intros (s1 & H1%wcall_step & H2%IH)%bind_Some. by eapply rtc_l.
Qed.

(** The trace of a program run alone. *)
Fixpoint wtrace {A} (chs : list wchoice) (m : table) (p : wprog A) {struct p} : option (trace * A) :=
  match p with
  | Ret a => Some ([], a)
  | OutOfFuel => None
  | Do c k =>
      match chs with
      | [] => None
      | ch :: chs =>
          let '(m', r) := wexec ch m c in
          '(tr, a) ← wtrace chs m' (k r); Some (existT c r :: tr, a)
      end
  end.

Lemma wtrace_runs {A} chs m (p : wprog A) tr a : wtrace chs m p = Some (tr, a) → runs p tr a.
Proof.
  revert chs m tr. induction p as [x| |c k IH]; intros chs m tr; simpl; [intros [= <- <-]; constructor|done|].
  destruct chs as [|ch chs]; [done|]. destruct (wexec ch m c) as [m' r].
  intros ([tr' a'] & H1 & [= <- <-])%bind_Some. constructor. by eapply IH.
Qed.

Lemma runs_partial {A} (p : wprog A) tr a : runs p tr a → partial p tr.
Proof. induction 1; by constructor. Qed.
End wsys.

End WorkerSys.
