(* ===== verification/WorkerSafety.v ===== *)
(** * What the outbox workers guarantee

    Theorems about single workers (the protocol of [Run], what it returns, the
    configurations [NewWorker] accepts), about any number of workers sharing the
    table, and about the composition with the reward-claim transactions. *)
From S2P Require Import Prelude.
From S2P Require Import GoErrors.
From S2P Require Import Prog.
From S2P Require Import GoStrings.
From S2P Require Import Schema.
From S2P Require Import Demo.
From S2P Require Import RewardsInv.
From S2P Require Import RewardsSys.
From S2P Require Import RewardsSafety.
From S2P Require Import Outbox.
From S2P Require Import OutboxFacts.
From S2P Require Import Backoff.
From S2P Require Import Worker.
From S2P Require Import WorkerLogic.
From S2P Require Import WorkerSys.
Local Open Scope Z_scope.

Module WorkerSafety.
Import Schema Demo Outbox OutboxFacts Backoff Worker WorkerLogic WorkerSys.

(** ** One worker *)

(** C18: in every run of a worker, finished or not, whatever the store, the publisher and the
    context reply, an event is published only after this worker claimed it and
    once per claim, is marked published only if the publisher accepted it, and is
    retried (below the failure limit, after the backoff delay) or dead-lettered
    (from the limit on) only if the publisher refused it. *)
Theorem Run_protocol w fuel b tr :
  partial (Run fuel w b) tr → realistic start tr → compliant w start tr.
Proof. intros Hr Hreal. by apply (wsafe_partial w _ _ _ _ (wsafe_Run w fuel b) Hr Hreal). Qed.

(** C19: [Run] returns nil only after its context has ended; it returns an error
    only when a store call failed with an error that does not say the store is
    unavailable, and the error is then the fatal one, named after the operation
    that failed: lost leases, refused publications and an unavailable store never
    stop a worker. *)
Theorem Run_outcome w fuel b tr r :
  runs (Run fuel w b) tr r → realistic start tr → run_post r (ghost_after start tr).
Proof. intros Hr Hreal. by apply (wsafe_runs w _ _ _ _ _ (wsafe_Run w fuel b) Hr Hreal). Qed.

(** The conditions [NewWorker] documents by its messages. *)
Definition config_accepted (cfg : WorkerConfig) : Prop :=
  cfg.(cfg_WorkerID) ≠ ""%string ∧ utf8_RuneCountInString cfg.(cfg_WorkerID) ≤ 128
  ∧ 0 < cfg.(cfg_PollInterval) ∧ 0 < cfg.(cfg_PublishTimeout)
  ∧ cfg.(cfg_PublishTimeout) < cfg.(cfg_LockTTL) ∧ 0 < cfg.(cfg_MaxFailures)
  ∧ 0 < cfg.(cfg_BaseBackoff) ≤ cfg.(cfg_MaxBackoff).

Lemma newBackoffPolicy_accepts b m :
  (∃ p, newBackoffPolicy b m = Ok p) ↔ 0 < b ≤ m.
Proof.
  unfold newBackoffPolicy. split.
  - intros [p Hp]. crush_in Hp. boolean. lia.
  - intros [Hb Hm]. rewrite !(proj2 (Z.leb_gt _ _)), (proj2 (Z.ltb_ge _ _)) by lia. eauto.
Qed.

Lemma rune_count_non_empty s : s ≠ ""%string → 1 ≤ utf8_RuneCountInString s.
Proof. unfold utf8_RuneCountInString, runes. destruct s as [|a s]; [done|]. simpl. lia. Qed.

Lemma NewWorker_accepts cfg : (∃ w, NewWorker true true true cfg = Ok w) ↔ config_accepted cfg.
Proof.
  unfold NewWorker, config_accepted, maxWorkerIDLength. simpl.
  rewrite <-newBackoffPolicy_accepts. split.
  - intros [w Hw]. crush_in Hw. boolean. split_and!; (lia || eauto).
  - intros (Hid & Hlen & Hpoll & Hpub & Httl & Hmax & p & ->).
    rewrite bool_decide_false by done.
    rewrite (proj2 (Z.ltb_ge _ _)), !(proj2 (Z.leb_gt _ _)) by lia. eauto.
Qed.

(** [NewWorker] accepts a configuration exactly when its identifier is
    non-empty with at most 128 characters, its durations and failure limit are
    positive, the lease outlives a publication and the backoff is ordered; the
    identifier of an accepted worker fits the [locked_by] column. *)
Theorem NewWorker_spec cfg :
  ((∃ w, NewWorker true true true cfg = Ok w) ↔ config_accepted cfg)
  ∧ ∀ w, NewWorker true true true cfg = Ok w →
      w.(workerID) = cfg.(cfg_WorkerID) ∧ w.(maxFailures) = cfg.(cfg_MaxFailures)
      ∧ w.(lockTTL) = cfg.(cfg_LockTTL)
      ∧ length_between 1 128 w.(workerID) = true.
Proof.
  split; [apply NewWorker_accepts|]. unfold NewWorker, maxWorkerIDLength.
  intros w Hw. crush_in Hw. boolean. split_and!; [done..|].
  unfold length_between. pose proof (rune_count_non_empty cfg.(cfg_WorkerID)).
  apply andb_true_iff. rewrite !Z.leb_le. naive_solver.
Qed.

Section safety.
Context `{Postgres, PgInterval}.

(** ** Any number of workers *)

(** C15: delivery is at least once and nothing is lost: in every interleaving of
    workers, crashes, failing calls and retention, an event marked published was
    accepted by the publisher, and every event ever inserted is still in the
    table or was accepted by the publisher. *)
Theorem at_least_once maxF s :
  0 < maxF → wreachable maxF s →
  (∀ id o, s.(ws_table) !! id = Some o → o.(o_status) = published → id ∈ s.(ws_delivered))
  ∧ (∀ id, id ∈ s.(ws_inserted) → is_Some (s.(ws_table) !! id) ∨ id ∈ s.(ws_delivered)).
Proof.
  intros HmaxF Hs. destruct (wreachable_inv _ _ HmaxF Hs) as [_ Hrow Hins _ _].
  split; [|done]. intros id o Hin Hst. destruct (Hrow _ _ Hin) as (_ & _ & Hr).
  rewrite Hst in Hr. apply Hr.
Qed.

(** C16: the failure limit is exact: an event that is still to be delivered has
    fewer recorded failures than the limit, a dead letter has exactly as many, and
    no more failures are recorded than publications were refused; every row keeps
    the constraints of the table. *)
Theorem failures_bounded maxF s id o :
  0 < maxF → wreachable maxF s → s.(ws_table) !! id = Some o →
  outbox_check o = true
  ∧ 0 ≤ o.(o_failed_attempts) ≤ times id s.(ws_refused)
  ∧ (o.(o_failed_attempts) < maxF ↔ o.(o_status) ≠ dead_letter)
  ∧ (o.(o_failed_attempts) = maxF ↔ o.(o_status) = dead_letter).
Proof.
  intros HmaxF Hs Hin. destruct (wreachable_inv _ _ HmaxF Hs) as [Hok Hrow _ _ _].
  destruct (Hok _ _ Hin) as [_ Hc], (Hrow _ _ Hin) as (_ & Hle & Hr).
  pose proof Hc as (_ & _ & _ & Hrange & _)%outbox_check_true.
  destruct o.(o_status); split_and!; try done; try lia; intuition (congruence || lia).
Qed.

(** The worker of [th] holds the event [id] under a lease that has not expired. *)
Definition holds_live (s : wsys) (th : wthread) (id : string) : Prop :=
  ∃ e p, th.(wt_ghost).(g_held) = Some (e, p) ∧ e.(ID) = id ∧ s.(ws_clock) < th.(wt_until).

(** C17: a live lease is held by one worker: no two workers are handling the same
    event while both leases they took on it are unexpired. *)
Theorem live_handling_exclusive maxF s t1 t2 th1 th2 id :
  0 < maxF → wreachable maxF s →
  s.(ws_workers) !! t1 = Some th1 → s.(ws_workers) !! t2 = Some th2 →
  holds_live s th1 id → holds_live s th2 id → t1 = t2.
Proof.
  intros HmaxF Hs H1 H2 (e1 & p1 & Hg1 & Hid1 & Hl1) (e2 & p2 & Hg2 & Hid2 & Hl2).
  destruct (wreachable_inv _ _ HmaxF Hs) as [_ _ _ Hth Hdist].
  destruct (Hth _ _ H1) as (_ & _ & Hh1), (Hth _ _ H2) as (_ & _ & Hh2).
  rewrite Hg1 in Hh1. rewrite Hg2 in Hh2.
  destruct Hh1 as (_ & _ & _ & _ & _ & Hh1), Hh2 as (_ & _ & _ & _ & _ & Hh2).
  destruct (Hh1 Hl1) as (o1 & Hin1 & [_ Ho1] & _), (Hh2 Hl2) as (o2 & Hin2 & [_ Ho2] & _).
  eapply Hdist; [done..|]. congruence.
Qed.

(** ** With the reward-claim transactions *)

Definition with_outbox (m : table) (s : RewardsSys.sys) : RewardsSys.sys :=
  RewardsSys.Sys (RewardsSys.set_outbox (λ _, m) s.(RewardsSys.s_db)) s.(RewardsSys.s_threads)
    s.(RewardsSys.s_archive) s.(RewardsSys.s_log) s.(RewardsSys.s_expired).

Lemma op_row_same op now o : RewardsSys.same_event o (op_row op now o).
Proof. by destruct op. Qed.

(** Every call of a worker changes at most one row, and only its state columns. *)
Lemma wexec_same_event ch m c m' r :
  table_ok m → wexec ch m c = (m', r) →
  m' = m ∨ ∃ o o', m !! o.(o_id) = Some o ∧ RewardsSys.same_event o o' ∧ m' = <[o.(o_id) := o']> m.
Proof.
  intros Hok Hex.
  assert (∀ op worker id x, run_op op ch.(wc_store) m worker id = (m', x) →
    m' = m ∨ ∃ o o', m !! o.(o_id) = Some o ∧ RewardsSys.same_event o o'
                     ∧ m' = <[o.(o_id) := o']> m) as Hop.
  { intros op worker id x Hrun. pose proof (run_op_effect _ _ _ _ _ _ _ Hok Hrun) as Heff.
    inversion Heff as [|o r' Hid Hm Hs Hl Hc Hr]; subst; [by left|right].
    eexists o, _. split_and!; [done|apply op_row_same|done]. }
  destruct c; simpl in Hex; try (injection Hex as <- _; by left).
  - pose proof (ClaimNext_effect _ _ _ _ _ _ Hok Hex) as Heff.
    inversion Heff as [|o r' Hm Hd Hl Hc Hr]; subst; [by left|right].
    eexists o, _. split_and!; [done| |reflexivity]. done.
  - by apply (Hop OpPublished _ _ _ Hex).
  - by apply (Hop (OpRetry _ _) _ _ _ Hex).
  - by apply (Hop (OpDeadLetter _) _ _ _ Hex).
Qed.

(** The workers and the claim transactions compose: any call of a worker on
    the outbox of a reachable state of the claim system leads to a reachable state
    of that system, so every guarantee about claims, responses and events holds
    while workers run. *)
Theorem worker_call_composes s ch c m' r :
  RewardsSys.reachable s → table_ok s.(RewardsSys.s_db).(outbox) →
  wexec ch s.(RewardsSys.s_db).(outbox) c = (m', r) →
  RewardsSys.reachable (with_outbox m' s) ∧ RewardsInv.db_inv (with_outbox m' s).(RewardsSys.s_db) s.(RewardsSys.s_archive).
Proof.
  intros Hs Hok Hex.
  assert (RewardsSys.reachable (with_outbox m' s)) as Hs'.
  { destruct (wexec_same_event _ _ _ _ _ Hok Hex) as [->|(o & o' & Ho & Hsame & ->)].
    - by destruct s as [[] ? ? ? ?].
    - eapply rtc_r; [exact Hs|]. by eapply (RewardsSys.step_update_event s). }
  split; [done|]. by apply RewardsSys.reachable_inv in Hs' as [Hinv _ _ _].
Qed.
End safety.

(** ** A concrete worker

    One worker takes the one event that is due, publishes it, and stops when its
    context ends. *)
Definition demo_config : WorkerConfig :=
  MkConfig "worker-a" 1000000000 30000000000 10000000000 5 1000000000 60000000000.
Definition demo_worker : Worker :=
  match NewWorker true true true demo_config with
  | Ok w => w
  | Err _ => MkWorker "" 0 0 0 0 (BackoffPolicy 0 0)
  end.

Definition demo_wchoice (w : wakeup) : wchoice :=
  WChoice (demo_choice 100) CtxLive (PublishReply None CtxLive 1000000) w.
Definition demo_wchoices : list wchoice :=
  replicate 16 (demo_wchoice TimerFired) ++ replicate 2 (demo_wchoice CtxDone).

Definition demo_event_table : table := <[demo_id1 := demo_row demo_id1 100]> ∅.

Definition demo_run : option (trace * result goerr unit) :=
  @wtrace demo_postgres demo_interval _ demo_wchoices demo_event_table (Run 3 demo_worker true).
Definition demo_trace : trace := match demo_run with Some (tr, _) => tr | None => [] end.

Lemma demo_run_trace : demo_run = Some (demo_trace, Ok tt).
Proof.
  assert (match demo_run with Some (_, Ok _) => true | _ => false end = true) as E
    by (vm_compute; reflexivity).
  unfold demo_trace. by destruct demo_run as [[tr [[]|]]|].
Qed.

Lemma demo_trace_runs : runs (Run 3 demo_worker true) demo_trace (Ok tt).
Proof. exact (@wtrace_runs demo_postgres demo_interval _ _ _ _ _ _ demo_run_trace). Qed.

Lemma demo_trace_realistic : realistic start demo_trace.
Proof. vm_compute. repeat split. Qed.

Lemma Run_protocol_witness : length demo_trace = 18%nat ∧ compliant demo_worker start demo_trace.
Proof.
  split; [vm_compute; reflexivity|].
  apply (Run_protocol demo_worker 3 true demo_trace).
  - exact (runs_partial _ _ _ demo_trace_runs).
  - exact demo_trace_realistic.
Defined.

Lemma Run_outcome_witness :
  run_post (Ok tt) (ghost_after start demo_trace).
Proof.
  apply (Run_outcome demo_worker 3 true demo_trace (Ok tt)).
  - exact demo_trace_runs.
  - exact demo_trace_realistic.
Defined.

(** The system in which that worker has just started. *)
Definition demo_wsys0 : wsys :=
  WSys 100 demo_event_table (<[0%nat := WThread demo_worker (Run 3 demo_worker true) start 0]> ∅)
    ({[demo_id1]} ∪ ∅) ∅ [].

Definition demo_ticked : wsys := WSys 100 ∅ ∅ ∅ ∅ [].
Definition demo_inserted : wsys := WSys 100 demo_event_table ∅ ({[demo_id1]} ∪ ∅) ∅ [].

Lemma demo_wsys0_reachable : @wreachable demo_postgres demo_interval 5 demo_wsys0.
Proof.
  assert (@wstep demo_postgres demo_interval 5 init_wsys demo_ticked) as S1
    by (apply (@wstep_tick demo_postgres demo_interval 5 init_wsys 100); simpl; lia).
  assert (@wstep demo_postgres demo_interval 5 demo_ticked demo_inserted) as S2
    by (apply (@wstep_insert demo_postgres demo_interval 5 demo_ticked demo_id1 "reward_claim"
                 demo_id1 "RewardClaimed" "{}" 100); [simpl; lia|vm_compute; reflexivity..]).
  assert (@wstep demo_postgres demo_interval 5 demo_inserted demo_wsys0) as S3.
  { apply (@wstep_start demo_postgres demo_interval 5 demo_inserted 0%nat demo_config demo_worker
             3 true); [reflexivity|vm_compute; reflexivity..|].
    intros t' th Ht'. simpl in Ht'. simplify_map_eq. }
  eapply rtc_l; [exact S1|]. eapply rtc_l; [exact S2|]. by apply rtc_once.
Qed.

(** The state after the first [n] calls. *)
Definition demo_wsys (n : nat) : wsys :=
  default demo_wsys0
    (@wcalls demo_postgres demo_interval 0%nat (take n demo_wchoices) demo_wsys0).

Lemma demo_wsys_reachable n : @wreachable demo_postgres demo_interval 5 (demo_wsys n).
Proof.
  unfold demo_wsys. destruct (wcalls _ _ _) as [s|] eqn:E; simpl; [|exact demo_wsys0_reachable].
  apply (@wcalls_steps demo_postgres demo_interval 5) in E.
  eapply (transitivity (R := rtc _)); [exact demo_wsys0_reachable|exact E].
Qed.

Definition row_status (s : wsys) (id : string) : option event_status :=
  o_status <$> s.(ws_table) !! id.

Lemma at_least_once_witness :
  row_status (demo_wsys 16) demo_id1 = Some published ∧ demo_id1 ∈ ws_delivered (demo_wsys 16).
Proof.
  assert (row_status (demo_wsys 16) demo_id1 = Some published) as E by (vm_compute; reflexivity).
  split; [exact E|].
  destruct (@at_least_once demo_postgres demo_interval 5 (demo_wsys 16) ltac:(done)
              (demo_wsys_reachable 16)) as [Hpub _].
  unfold row_status in E. apply fmap_Some in E as (o & Ho & Hs). by apply (Hpub demo_id1 o).
Defined.

Lemma failures_bounded_witness :
  ∃ o, (demo_wsys 16).(ws_table) !! demo_id1 = Some o ∧ outbox_check o = true
       ∧ o.(o_failed_attempts) < 5.
Proof.
  assert (row_status (demo_wsys 16) demo_id1 = Some published) as E by (vm_compute; reflexivity).
  unfold row_status in E. apply fmap_Some in E as (o & Ho & Hs). exists o.
  destruct (@failures_bounded demo_postgres demo_interval 5 (demo_wsys 16) demo_id1 o ltac:(done)
              (demo_wsys_reachable 16) Ho) as (Hc & _ & Hlt & _).
  split_and!; [exact Ho|exact Hc|]. apply Hlt. congruence.
Defined.

Definition demo_thread (n : nat) : wthread :=
  match (demo_wsys n).(ws_workers) !! 0%nat with
  | Some th => th
  | None => WThread demo_worker OutOfFuel start 0
  end.

Lemma live_handling_exclusive_witness :
  holds_live (demo_wsys 8) (demo_thread 8) demo_id1 ∧ 0%nat = 0%nat.
Proof.
  assert (holds_live (demo_wsys 8) (demo_thread 8) demo_id1) as Hl.
  { eexists _, _. split_and!; vm_compute; reflexivity. }
  assert ((demo_wsys 8).(ws_workers) !! 0%nat = Some (demo_thread 8)) as Ht.
  { assert (match (demo_wsys 8).(ws_workers) !! 0%nat with Some _ => true | None => false end = true)
      as E by (vm_compute; reflexivity).
    unfold demo_thread. by destruct (_ !! _). }
  split; [exact Hl|].
  exact (@live_handling_exclusive demo_postgres demo_interval 5 (demo_wsys 8) 0%nat 0%nat
           (demo_thread 8) (demo_thread 8) demo_id1 ltac:(done) (demo_wsys_reachable 8) Ht Ht Hl Hl).
Defined.

(** The outbox after the sample claim of RewardsSafety, and its lease. *)
Definition demo_outbox : table := RewardsSafety.demo_db.(outbox).
Definition demo_lease : table * result goerr (option Event) :=
  @ClaimNext demo_postgres demo_interval (demo_choice (demo_now + 1)) demo_outbox "worker-a" 30000000000.

Lemma demo_outbox_ok : table_ok demo_outbox.
Proof.
  assert (bool_decide (map_Forall (λ id o, o.(o_id) = id ∧ outbox_check o = true) demo_outbox) = true)
    as E by (vm_compute; reflexivity).
  apply bool_decide_eq_true in E. exact E.
Qed.

Lemma worker_call_composes_witness :
  (∃ e, demo_lease.2 = Ok (Some e)) ∧
  ∃ log, @RewardsInv.db_inv demo_postgres
           (with_outbox demo_lease.1 (RewardsSafety.demo_sys log)).(RewardsSys.s_db) ∅.
Proof.
  split; [eexists; vm_compute; reflexivity|].
  destruct RewardsSafety.demo_reachable as [log Hs]. exists log.
  apply (@worker_call_composes demo_postgres demo_interval (RewardsSafety.demo_sys log)
           (WChoice (demo_choice (demo_now + 1)) CtxLive (PublishReply None CtxLive 0) CtxDone)
           (CClaimNext "worker-a" 30000000000) demo_lease.1 demo_lease.2 Hs demo_outbox_ok).
  exact (surjective_pairing demo_lease).
Defined.

End WorkerSafety.
