(* ===== verification/GoParse.v ===== *)
(** * Parsing numbers and durations: [strconv.Atoi], [time.ParseDuration]

    The standard library's parsers of the configuration values, on bytes, with
    their 64-bit overflow tests; the fraction of a duration is computed in
    IEEE 754 binary64, as Go does, with the Standard Library's [SpecFloat]. *)
From S2P Require Import Prelude.
From S2P Require Import GoErrors.
From S2P Require Import GoStrings.
From S2P Require Import GoJson.
From Stdlib Require Import Ascii Floats.SpecFloat.
Local Open Scope Z_scope.

Module GoParse.

Definition uint64 (z : Z) : Z := z `mod` 2 ^ 64.

Definition is_digit (a : ascii) : bool := (48 <=? code a) && (code a <=? 57).
Definition digit_val (a : ascii) : Z := code a - 48.

(** The number a run of digits denotes, continuing from [x]. *)
Definition digits_val (x : Z) (ds : bytes) : Z :=
  foldl (λ x a, x * 10 + digit_val a) x ds.

(** ** [strconv.Atoi] *)

(** A [*strconv.NumError]; the quoted input is left out of its message. *)
Definition NumError (cause : string) : goerr := EWrap "strconv.Atoi: parsing" (ENew cause).
Definition syntaxError : goerr := NumError "invalid syntax".
Definition rangeError : goerr := NumError "value out of range".

(** The loop of [ParseUint] in base 10; it stops at the first digit that takes
    the number out of 64 bits. *)
Fixpoint ParseUint_loop (n : Z) (s : bytes) : result goerr Z :=
  match s with
  | [] => Ok n
  | a :: s =>
      if negb (is_digit a) then Err syntaxError
      else if (2 ^ 64 - 1) `div` 10 + 1 <=? n then Err rangeError
      else let n1 := n * 10 + digit_val a in
           if 2 ^ 64 - 1 <? n1 then Err rangeError else ParseUint_loop n1 s
  end.

Definition ParseUint (s : bytes) : result goerr Z :=
  match s with [] => Err syntaxError | _ => ParseUint_loop 0 s end.

(** The sign of a number, when it has one. *)
Definition sign (s : bytes) : bool * bytes :=
  match s with
  | a :: s' => if code a =? 45 then (true, s') else if code a =? 43 then (false, s') else (false, s)
  | [] => (false, s)
  end.

(** [strconv.ParseInt(s, 10, 64)], which [Atoi] agrees with. *)
Definition Atoi (s : string) : result goerr Z :=
  let '(neg, ds) := sign (to_bytes s) in
  let! un := ParseUint ds in
  if negb neg && (2 ^ 63 <=? un) then Err rangeError
  else if neg && (2 ^ 63 <? un) then Err rangeError
  else Ok (if neg then - un else un).

(** ** [time.ParseDuration] *)

Definition prec : Z := 53.
Definition emax : Z := 1024.
Definition float64 (z : Z) : spec_float := binary_normalize prec emax z 0 false.

(** [uint64(f)] for a non-negative finite [f]: truncation. *)
Definition float_to_uint64 (f : spec_float) : Z :=
  match f with
  | S754_finite false m e => if 0 <=? e then Z.pos m * 2 ^ e else Z.pos m `div` 2 ^ (- e)
  | _ => 0
  end.

(** time's own [quote] of the input in its error messages. *)
Definition quote_byte (a : ascii) : bytes :=
  let c := code a in
  if (RuneSelf <=? c) || (c <? 32) then
    [chr 92; chr 120; hex_digit (Z.shiftr c 4); hex_digit (Z.land c 0x0f)]
  else if (c =? 34) || (c =? 92) then [chr 92; a]
  else [a].
Definition time_quote (s : bytes) : string :=
  of_bytes (chr 34 :: flat_map quote_byte s ++ [chr 34]).

Fixpoint leadingInt (x : Z) (s : bytes) : option (Z * bytes) :=
  match s with
  | [] => Some (x, s)
  | a :: s' =>
      if negb (is_digit a) then Some (x, s)
      else if 2 ^ 63 `div` 10 <? x then None
      else let x := x * 10 + digit_val a in
           if 2 ^ 63 <? x then None else leadingInt x s'
  end.

Fixpoint leadingFraction (x : Z) (scale : spec_float) (overflow : bool) (s : bytes)
  : Z * spec_float * bytes :=
  match s with
  | [] => (x, scale, s)
  | a :: s' =>
      if negb (is_digit a) then (x, scale, s)
      else if overflow then leadingFraction x scale true s'
      else if (2 ^ 63 - 1) `div` 10 <? x then leadingFraction x scale true s'
      else let y := x * 10 + digit_val a in
           if 2 ^ 63 <? y then leadingFraction x scale true s'
           else leadingFraction y (SFmul prec emax scale (float64 10)) false s'
  end.

(** The bytes of a unit: up to the next digit or period. *)
Definition unit_end (a : ascii) : bool := (code a =? 46) || is_digit a.
Fixpoint span_unit (s : bytes) : bytes * bytes :=
  match s with
  | [] => ([], [])
  | a :: s' => if unit_end a then ([], s)
               else let '(u, r) := span_unit s' in (a :: u, r)
  end.

Definition Nanosecond : Z := 1.
Definition Microsecond : Z := 1000 * Nanosecond.
Definition Millisecond : Z := 1000 * Microsecond.
Definition Second : Z := 1000 * Millisecond.
Definition Minute : Z := 60 * Second.
Definition Hour : Z := 60 * Minute.

(** The two micro signs in UTF-8: U+00B5 and U+03BC. *)
Definition micro_sign : bytes := [chr 0xC2; chr 0xB5].
Definition greek_mu : bytes := [chr 0xCE; chr 0xBC].

Definition unitMap (u : bytes) : option Z :=
  let s := to_bytes "s" in
  if bool_decide (u = to_bytes "ns") then Some Nanosecond
  else if bool_decide (u = to_bytes "us") then Some Microsecond
  else if bool_decide (u = micro_sign ++ s) then Some Microsecond
  else if bool_decide (u = greek_mu ++ s) then Some Microsecond
  else if bool_decide (u = to_bytes "ms") then Some Millisecond
  else if bool_decide (u = s) then Some Second
  else if bool_decide (u = to_bytes "m") then Some Minute
  else if bool_decide (u = to_bytes "h") then Some Hour
  else None.

Definition invalid_duration (orig : bytes) : goerr :=
  ENew ("time: invalid duration " ++ time_quote orig).

(** One round of the loop: a number with its fraction and its unit, in
    nanoseconds, and the rest of the input. *)
Definition component (orig s : bytes) : result goerr (Z * bytes) :=
  match s with
  | [] => Err (invalid_duration orig)
  | a :: _ =>
      if negb (unit_end a) then Err (invalid_duration orig) else
      match leadingInt 0 s with
      | None => Err (invalid_duration orig)
      | Some (v, s1) =>
          let pre := negb (length s =? length s1)%nat in
          let '(f, scale, s2, post) :=
            match s1 with
            | b :: s1' =>
                if code b =? 46 then
                  let '(f, scale, s2) := leadingFraction 0 (float64 1) false s1' in
                  (f, scale, s2, negb (length s1' =? length s2)%nat)
                else (0, float64 1, s1, false)
            | [] => (0, float64 1, s1, false)
            end in
          if negb pre && negb post then Err (invalid_duration orig) else
          let '(u, s3) := span_unit s2 in
          match u with
          | [] => Err (ENew ("time: missing unit in duration " ++ time_quote orig))
          | _ =>
              match unitMap u with
              | None => Err (ENew ("time: unknown unit " ++ time_quote u
                                   ++ " in duration " ++ time_quote orig))
              | Some unit =>
                  if 2 ^ 63 `div` unit <? v then Err (invalid_duration orig) else
                  let v := v * unit in
                  let v :=
                    if 0 <? f then
                      v + float_to_uint64
                            (SFmul prec emax (float64 f) (SFdiv prec emax (float64 unit) scale))
                    else v in
                  if (0 <? f) && (2 ^ 63 <? v) then Err (invalid_duration orig)
                  else Ok (v, s3)
              end
          end
      end
  end.

(** [for s != ""]; every round consumes a byte, so the length of the input is
    fuel enough ([components_fuel]). *)
Fixpoint components (fuel : nat) (orig : bytes) (d : Z) (s : bytes) : result goerr Z :=
  match s, fuel with
  | [], _ => Ok d
  | _, O => Err (invalid_duration orig)
  | _, S fuel =>
      let! (v, s) := component orig s in
      let d := uint64 (d + v) in
      if 2 ^ 63 <? d then Err (invalid_duration orig) else components fuel orig d s
  end.

Definition ParseDuration (str : string) : result goerr Z :=
  let orig := to_bytes str in
  let '(neg, s) := sign orig in
  if bool_decide (s = to_bytes "0") then Ok 0
  else match s with
       | [] => Err (invalid_duration orig)
       | _ =>
           let! d := components (length s) orig 0 s in
           if neg then Ok (int64 (- d))
           else if 2 ^ 63 - 1 <? d then Err (invalid_duration orig) else Ok d
       end.

(** ** Digits *)

Lemma is_digit_range a : is_digit a = true → 0 ≤ digit_val a ≤ 9.
Proof. unfold is_digit, digit_val. intros H. boolean. lia. Qed.

Lemma digits_val_le ds : Forall (λ a, is_digit a = true) ds → ∀ x, 0 ≤ x → x ≤ digits_val x ds.
Proof.
  induction 1 as [|a ds Ha _ IH]; intros x Hx; simpl; [lia|].
  apply is_digit_range in Ha. specialize (IH (x * 10 + digit_val a)). lia.
Qed.

Lemma digits_digits fuel z acc :
  0 ≤ z → Forall (λ a, is_digit a = true) acc →
  Forall (λ a, is_digit a = true) (digits fuel z acc).
Proof.
  assert (∀ z, is_digit (chr (48 + z `mod` 10)) = true) as Hd.
  { intros y. pose proof (Z.mod_pos_bound y 10). unfold is_digit.
    rewrite code_chr by lia. apply andb_true_iff. split; apply Z.leb_le; lia. }
  revert z acc. induction fuel as [|fuel IH]; intros z acc Hz Hacc; simpl; [by constructor|].
  destruct (z <? 10); [by constructor|].
  apply IH; [apply Z.div_pos; lia|by constructor].
Qed.

Lemma digits_value fuel z acc :
  0 ≤ z < 2 ^ (Z.of_nat fuel + 1) → digits_val 0 (digits fuel z acc) = digits_val z acc.
Proof.
  assert (∀ z, digit_val (chr (48 + z `mod` 10)) = z `mod` 10) as Hd.
  { intros y. pose proof (Z.mod_pos_bound y 10). unfold digit_val. rewrite code_chr; lia. }
  revert z acc. induction fuel as [|fuel IH]; intros z acc Hz; simpl.
  { rewrite Hd, Z.mod_small; [done|]. change (2 ^ (Z.of_nat 0 + 1)) with 2 in Hz. lia. }
  destruct (Z.ltb_spec z 10).
  { simpl. by rewrite Hd, Z.mod_small by lia. }
  rewrite IH.
  - simpl. rewrite Hd. f_equal. pose proof (Z.div_mod z 10). lia.
  - split; [apply Z.div_pos; lia|]. apply Z.div_lt_upper_bound; [lia|].
    rewrite Nat2Z.inj_succ, Z.add_succ_l, Z.pow_succ_r in Hz by lia. lia.
Qed.

Lemma dec_digits z : 0 ≤ z → Forall (λ a, is_digit a = true) (dec z).
Proof. intros. by apply digits_digits. Qed.

Lemma dec_value z : 0 ≤ z → digits_val 0 (dec z) = z.
Proof.
  intros Hz. unfold dec. rewrite digits_value; [done|].
  split; [done|]. pose proof (Z.log2_nonneg z). rewrite Z2Nat.id by done.
  destruct (Z.eq_dec z 0) as [->|]; [done|].
  pose proof (Z.log2_spec z ltac:(lia)). lia.
Qed.

Lemma dec_not_nil z : dec z ≠ [].
Proof.
  unfold dec. assert (∀ fuel z acc, digits fuel z acc ≠ []) as H; [|apply H].
  intros fuel. induction fuel as [|fuel IH]; intros y acc; simpl; [done|].
  by destruct (_ <? _).
Qed.

(** ** [Atoi] *)

Lemma ParseUint_loop_digits ds n :
  Forall (λ a, is_digit a = true) ds → 0 ≤ n → digits_val n ds ≤ 2 ^ 64 - 1 →
  ParseUint_loop n ds = Ok (digits_val n ds).
Proof.
  intros Hds. revert n. induction Hds as [|a ds Ha Hds IH]; intros n Hn Hle; simpl; [done|].
  simpl in Hle. pose proof (is_digit_range a Ha).
  pose proof (digits_val_le ds Hds (n * 10 + digit_val a)). rewrite Ha. simpl.
  destruct (Z.leb_spec ((2 ^ 64 - 1) `div` 10 + 1) n) as [Hc|_].
  { change ((2 ^ 64 - 1) `div` 10 + 1) with 1844674407370955162 in Hc. lia. }
  destruct (Z.ltb_spec (2 ^ 64 - 1) (n * 10 + digit_val a)); [lia|]. apply IH; lia.
Qed.

Lemma ParseUint_loop_range s n m :
  0 ≤ n ≤ 2 ^ 64 - 1 → ParseUint_loop n s = Ok m → 0 ≤ m ≤ 2 ^ 64 - 1.
Proof.
  revert n. induction s as [|a s IH]; intros n Hn H; simpl in H; [by simplify_eq|].
  destruct (is_digit a) eqn:Ha; [|done]. apply is_digit_range in Ha. simpl in H.
  crush_in H. boolean. by apply (IH (n * 10 + digit_val a)); [lia|].
Qed.

Lemma Atoi_range s n : Atoi s = Ok n → is_int64 n.
Proof.
  unfold Atoi, is_int64, int64_min, int64_max. intros H.
  destruct (sign (to_bytes s)) as [neg ds].
  apply rbind_ok in H as (un & Hu & H).
  assert (0 ≤ un) as Hun.
  { unfold ParseUint in Hu. destruct ds as [|a ds]; [done|].
    apply (ParseUint_loop_range (a :: ds) 0); [lia|done]. }
  destruct neg; simpl in H; crush_in H; boolean; lia.
Qed.

Lemma sign_digit a s : is_digit a = true → sign (a :: s) = (false, a :: s).
Proof.
  unfold is_digit. intros H. boolean. simpl.
  destruct (Z.eqb_spec (code a) 45); [lia|]. destruct (Z.eqb_spec (code a) 43); [lia|done].
Qed.

Lemma sign_dec z s : 0 ≤ z → sign (dec z ++ s) = (false, dec z ++ s).
Proof.
  intros Hz. pose proof (dec_digits z Hz) as Hd. pose proof (dec_not_nil z) as Hn.
  destruct (dec z) as [|a ds]; [done|]. inversion Hd. by apply sign_digit.
Qed.

Lemma ParseUint_dec z : 0 ≤ z ≤ 2 ^ 64 - 1 → ParseUint (dec z) = Ok z.
Proof.
  intros Hz. unfold ParseUint. pose proof (dec_not_nil z).
  destruct (dec z) as [|a ds] eqn:Hd; [done|]. rewrite <-Hd.
  pose proof (dec_value z ltac:(lia)) as Hv. rewrite ParseUint_loop_digits.
  - by rewrite Hv.
  - apply dec_digits. lia.
  - done.
  - lia.
Qed.

(** Printing an [int] and parsing it again gives it back. *)
Lemma Atoi_Itoa z : is_int64 z → Atoi (strconv_Itoa z) = Ok z.
Proof.
  unfold is_int64, int64_min, int64_max, Atoi, strconv_Itoa. intros Hz. rewrite to_of_bytes.
  destruct (Z.ltb_spec z 0).
  - change (sign (chr 45 :: dec (- z))) with (true, dec (- z)). cbv beta iota.
    rewrite ParseUint_dec by lia. cbn [rbind negb andb].
    destruct (Z.ltb_spec (2 ^ 63) (- z)); [lia|]. f_equal. lia.
  - pose proof (sign_dec z [] ltac:(lia)) as Hs. rewrite app_nil_r in Hs. rewrite Hs.
    rewrite ParseUint_dec by lia. cbn [rbind negb andb].
    destruct (Z.leb_spec (2 ^ 63) z); [lia|done].
Qed.

(** ** [ParseDuration] *)

Lemma components_range fuel orig d s e :
  0 ≤ d ≤ 2 ^ 63 → components fuel orig d s = Ok e → 0 ≤ e ≤ 2 ^ 63.
Proof.
  revert d s. induction fuel as [|fuel IH]; intros d s Hd H;
    destruct s as [|a s]; simpl in H; simplify_eq; try done.
  apply rbind_ok in H as ([v s'] & _ & H).
  crush_in H. boolean. eapply (IH (uint64 (d + v))); [|done].
  split; [|done]. apply Z.mod_pos_bound. lia.
Qed.

Lemma ParseDuration_range s d : ParseDuration s = Ok d → is_int64 d.
Proof.
  unfold ParseDuration. destruct (sign (to_bytes s)) as [neg t]. intros H.
  case_bool_decide; simplify_eq.
  { unfold is_int64, int64_min, int64_max. lia. }
  destruct t as [|a t]; [done|]. apply rbind_ok in H as (e & He & H).
  apply components_range in He; [|lia].
  destruct neg; simplify_eq; [apply int64_range|].
  crush_in H. boolean. unfold is_int64, int64_min, int64_max. lia.
Qed.

Lemma leadingInt_digits ds x rest :
  Forall (λ a, is_digit a = true) ds →
  match rest with a :: _ => is_digit a = false | [] => True end →
  0 ≤ x → digits_val x ds ≤ 2 ^ 63 →
  leadingInt x (ds ++ rest) = Some (digits_val x ds, rest).
Proof.
  intros Hds Hrest. revert x. induction Hds as [|a ds Ha Hds IH]; intros x Hx Hle; simpl.
  { destruct rest as [|b rest]; [done|]. simpl. by rewrite Hrest. }
  simpl in Hle. pose proof (is_digit_range a Ha).
  pose proof (digits_val_le ds Hds (x * 10 + digit_val a)). rewrite Ha. simpl.
  destruct (Z.ltb_spec (2 ^ 63 `div` 10) x) as [Hc|_].
  { change (2 ^ 63 `div` 10) with 922337203685477580 in Hc. lia. }
  destruct (Z.ltb_spec (2 ^ 63) (x * 10 + digit_val a)); [lia|]. apply IH; lia.
Qed.

(** What the parser needs of the bytes of a unit. *)
Lemma unitMap_ok u k :
  unitMap u = Some k →
  0 < k ∧ u ≠ [] ∧ Forall (λ a, unit_end a = false) u.
Proof.
  unfold unitMap. intros H. repeat case_bool_decide; simplify_eq;
    (split; [done|]); (split; [done|]); repeat constructor.
Qed.

Lemma span_unit_app u rest :
  Forall (λ a, unit_end a = false) u →
  match rest with a :: _ => unit_end a = true | [] => True end →
  span_unit (u ++ rest) = (u, rest).
Proof.
  intros Hu Hrest. induction Hu as [|a u Ha _ IH]; simpl.
  - destruct rest as [|b rest]; [done|]. simpl. by rewrite Hrest.
  - by rewrite Ha, IH.
Qed.

Lemma component_whole orig n u k rest :
  0 ≤ n → unitMap u = Some k → n * k ≤ 2 ^ 63 →
  match rest with a :: _ => unit_end a = true | [] => True end →
  component orig (dec n ++ u ++ rest) = Ok (n * k, rest).
Proof.
  intros Hn Hu Hle Hrest. destruct (unitMap_ok u k Hu) as (Hk & Hnil & Hends).
  pose proof (span_unit_app u rest Hends Hrest) as Hspan.
  pose proof (leadingInt_digits (dec n) 0 (u ++ rest)) as Hlead.
  rewrite dec_value in Hlead by done. unfold component.
  pose proof (dec_digits n Hn) as Hd. pose proof (dec_not_nil n).
  destruct (dec n) as [|a ds]; [done|]. inversion_clear Hd as [|? ? Ha Hds].
  rewrite <-app_comm_cons at 1.
  unfold unit_end at 1. rewrite Ha, orb_true_r. cbn [negb].
  destruct u as [|b u]; [done|]. inversion_clear Hends as [|? ? Hb Hends'].
  pose proof Hb as [Hdot Hdig]%orb_false_iff.
  rewrite Hlead; [|by constructor|by simpl|lia|nia].
  assert ((length ((a :: ds) ++ (b :: u) ++ rest) =? length ((b :: u) ++ rest)) = false)%nat as Hpre.
  { apply Nat.eqb_neq. rewrite (length_app (a :: ds)). simpl. lia. }
  rewrite Hpre. cbn [app negb andb]. rewrite Hdot. cbn [app] in Hspan. rewrite Hspan, Hu.
  destruct (Z.ltb_spec (2 ^ 63 `div` k) n) as [Hc|_].
  { pose proof (Z.div_le_lower_bound (2 ^ 63) k n). lia. }
  done.
Qed.

(** ** Durations written as whole numbers of units *)

Definition item (i : Z * bytes) : bytes := dec i.1 ++ i.2.
Definition item_value (i : Z * bytes) : Z := i.1 * default 0 (unitMap i.2).
Definition total (its : list (Z * bytes)) : Z := foldr (λ i t, item_value i + t) 0 its.
Definition item_ok (i : Z * bytes) : Prop := 0 ≤ i.1 ∧ is_Some (unitMap i.2).

Lemma item_value_nonneg i : item_ok i → 0 ≤ item_value i.
Proof.
  intros [Hn [k Hk]]. unfold item_value. rewrite Hk. apply unitMap_ok in Hk. simpl. nia.
Qed.

Lemma total_nonneg its : Forall item_ok its → 0 ≤ total its.
Proof. induction 1 as [|i its Hi _ IH]; simpl; [lia|]. apply item_value_nonneg in Hi. lia. Qed.

Lemma items_start its :
  Forall item_ok its →
  match flat_map item its with a :: _ => unit_end a = true | [] => True end.
Proof.
  destruct 1 as [|i its [Hn _] _]; simpl; [done|].
  unfold item. pose proof (dec_digits i.1 Hn) as Hd. pose proof (dec_not_nil i.1).
  destruct (dec i.1) as [|a ds]; [done|]. inversion_clear Hd as [|? ? Ha Hds]. simpl.
  unfold unit_end. by rewrite Ha, orb_true_r.
Qed.

Lemma components_items fuel orig its d :
  Forall item_ok its → (length (flat_map item its) ≤ fuel)%nat →
  0 ≤ d → d + total its ≤ 2 ^ 63 →
  components fuel orig d (flat_map item its) = Ok (d + total its).
Proof.
  intros His. revert fuel d. induction His as [|i its Hi His IH]; intros fuel d Hf Hd Hle.
  { change (total []) with 0. rewrite Z.add_0_r. by destruct fuel. }
  pose proof (item_value_nonneg i Hi) as Hv. pose proof (total_nonneg its His).
  destruct Hi as [Hn [k Hk]]. simpl in Hle, Hf |- *. unfold item at 1 in Hf.
  rewrite !length_app in Hf. pose proof (dec_not_nil i.1).
  assert (components fuel orig d (item i ++ flat_map item its)
          = let! (v, s) := component orig (item i ++ flat_map item its) in
            if 2 ^ 63 <? uint64 (d + v) then Err (invalid_duration orig)
            else components (pred fuel) orig (uint64 (d + v)) s) as ->.
  { unfold item. destruct (dec i.1) as [|a ds]; [done|]. simpl in Hf.
    destruct fuel; [lia|done]. }
  unfold item_value in *. rewrite Hk in *. simpl in Hv, Hle.
  unfold item at 1. rewrite <-app_assoc.
  rewrite (component_whole orig i.1 i.2 k) by (done || lia || by apply items_start).
  cbn [rbind]. unfold uint64. rewrite Z.mod_small by lia. simpl.
  destruct (Z.ltb_spec (2 ^ 63) (d + i.1 * k)); [lia|].
  rewrite IH; [f_equal; lia| |lia|lia].
  destruct (dec i.1); [done|]. simpl in Hf. lia.
Qed.

Lemma item_not_zero i its : item_ok i → flat_map item (i :: its) ≠ to_bytes "0".
Proof.
  intros [Hn [k Hk]] Heq. apply (f_equal length) in Heq. simpl in Heq.
  unfold item in Heq. rewrite !length_app in Heq. pose proof (dec_not_nil i.1).
  apply unitMap_ok in Hk as (_ & Hu & _).
  destruct (dec i.1); [done|]. destruct i.2; [done|]. simpl in Heq. lia.
Qed.

(** A duration written as whole numbers of units parses to their sum, as long
    as that is a 64-bit number of nanoseconds. *)
Lemma ParseDuration_items its :
  its ≠ [] → Forall item_ok its → total its ≤ int64_max →
  ParseDuration (of_bytes (flat_map item its)) = Ok (total its).
Proof.
  intros Hne His Hle. unfold ParseDuration. rewrite to_of_bytes.
  destruct its as [|i its]; [done|]. pose proof (total_nonneg (i :: its) His).
  assert (item_ok i) as Hi by (by inversion His).
  assert (sign (flat_map item (i :: its)) = (false, flat_map item (i :: its))) as ->.
  { simpl. unfold item at 1 3. rewrite <-app_assoc. apply sign_dec, Hi. }
  rewrite bool_decide_eq_false_2 by (by apply item_not_zero).
  rewrite components_items by (done || unfold int64_max in *; lia).
  destruct (flat_map item (i :: its)) as [|a s] eqn:Hs.
  { simpl in Hs. unfold item in Hs. destruct (dec i.1) eqn:Hd; [by apply dec_not_nil in Hd|done]. }
  cbn [rbind]. destruct (Z.ltb_spec (2 ^ 63 - 1) (0 + total (i :: its))).
  { unfold int64_max in *. lia. }
  by rewrite Z.add_0_l.
Qed.

End GoParse.
