(* ===== verification/JsonDecode.v ===== *)
(** * Decoding the request body (encoding/json/v2)

    [json.Unmarshal(body, &req, json.RejectUnknownMembers(true))] for the request
    of internal/httpapi/reward_claims.go, a pointer to a struct of three strings.
    The decoder reads the input from left to right and returns its first error:
    strings are strict (valid UTF-8, paired surrogates, no control characters),
    member names are case sensitive and may not repeat, [null] leaves the zero
    value.  A value of another type is an error whatever follows, so numbers,
    arrays and nested objects need no parser. *)
From S2P Require Import Prelude.
From S2P Require Import GoStrings.
From S2P Require Import GoJson.
From Stdlib Require Import Ascii.
Local Open Scope Z_scope.

Module JsonDecode.

(** ** Strings *)

(** [utf8.AppendRune] for a rune that is not a surrogate. *)
Definition encode_rune (r : Z) : bytes :=
  if r <? 0x80 then [chr r]
  else if r <? 0x800 then [chr (0xC0 + Z.shiftr r 6); chr (0x80 + Z.land r 0x3F)]
  else if r <? 0x10000 then
    [chr (0xE0 + Z.shiftr r 12); chr (0x80 + Z.land (Z.shiftr r 6) 0x3F);
     chr (0x80 + Z.land r 0x3F)]
  else [chr (0xF0 + Z.shiftr r 18); chr (0x80 + Z.land (Z.shiftr r 12) 0x3F);
        chr (0x80 + Z.land (Z.shiftr r 6) 0x3F); chr (0x80 + Z.land r 0x3F)].

Definition hex_val (a : ascii) : option Z :=
  let c := code a in
  if in_range 48 57 a then Some (c - 48)
  else if in_range 97 102 a then Some (c - 87)
  else if in_range 65 70 a then Some (c - 55)
  else None.

(** jsonwire's [parseHexUint16]. *)
Definition hex4_val (h1 h2 h3 h4 : ascii) : option Z :=
  match hex_val h1, hex_val h2, hex_val h3, hex_val h4 with
  | Some a, Some b, Some c, Some d => Some (((a * 16 + b) * 16 + c) * 16 + d)
  | _, _, _, _ => None
  end.

Definition simple_escape (b : ascii) : option ascii :=
  let c := code b in
  if (c =? 34) || (c =? 92) || (c =? 47) then Some b
  else if c =? 98 then Some (chr 8)
  else if c =? 102 then Some (chr 12)
  else if c =? 110 then Some (chr 10)
  else if c =? 114 then Some (chr 13)
  else if c =? 116 then Some (chr 9)
  else None.

(** Prepend to the content of the literal being read. *)
Definition emit (u : bytes) (m : option (bytes * bytes)) : option (bytes * bytes) :=
  match m with Some (c, r) => Some (u ++ c, r) | None => None end.

(** After the opening quote: the unescaped content and what follows the closing
    quote; [skip] bytes of the current rune remain to be copied. *)
Fixpoint unquote (skip : nat) (s : bytes) : option (bytes * bytes) :=
  match s with
  | [] => None
  | a :: s1 =>
      match skip with
      | S k => emit [a] (unquote k s1)
      | O =>
          let c := code a in
          if c =? 34 then Some ([], s1)
          else if c =? 92 then
            match s1 with
            | [] => None
            | b :: s2 =>
                if code b =? 117 then
                  match s2 with
                  | h1 :: h2 :: h3 :: h4 :: s3 =>
                      match hex4_val h1 h2 h3 h4 with
                      | None => None
                      | Some r =>
                          if (0xD800 <=? r) && (r <=? 0xDFFF) then
                            match s3 with
                            | e :: u :: g1 :: g2 :: g3 :: g4 :: s4 =>
                                match hex4_val g1 g2 g3 g4 with
                                | None => None
                                | Some r2 =>
                                    if (code e =? 92) && (code u =? 117) && (r <? 0xDC00)
                                       && (0xDC00 <=? r2) && (r2 <=? 0xDFFF)
                                    then emit (encode_rune ((r - 0xD800) * 0x400
                                                            + (r2 - 0xDC00) + 0x10000))
                                              (unquote 0 s4)
                                    else None
                                end
                            | _ => None
                            end
                          else emit (encode_rune r) (unquote 0 s3)
                      end
                  | _ => None
                  end
                else match simple_escape b with
                     | Some x => emit [x] (unquote 0 s2)
                     | None => None
                     end
            end
          else if c <? 32 then None
          else match decode_valid s with
               | Some (_, w) => emit [a] (unquote (w - 1) s1)
               | None => None
               end
      end
  end.

(** ** The request *)

(** reward_claims.go: [createRewardClaimRequest]. *)
Record createRewardClaimRequest := Request {
  PlayerID : string;
  CampaignID : string;
  RewardID : string
}.

Inductive decoded :=
| DRequest (req : createRewardClaimRequest)
| DNull                       (* the pointer is left nil *)
| DUnknownName                (* a SemanticError with ErrUnknownName *)
| DInvalid.                   (* any other error *)

Inductive field := FPlayer | FCampaign | FReward.
#[export] Instance field_eq_dec : EqDecision field.
Proof. solve_decision. Defined.

Definition field_name (f : field) : string :=
  match f with
  | FPlayer => "player_id" | FCampaign => "campaign_id" | FReward => "reward_id"
  end.

Definition field_of (name : bytes) : option field :=
  find (λ f, bool_decide (name = to_bytes (field_name f))) [FPlayer; FCampaign; FReward].

Definition set_field (f : field) (v : string) (req : createRewardClaimRequest)
  : createRewardClaimRequest :=
  match f with
  | FPlayer => Request v req.(CampaignID) req.(RewardID)
  | FCampaign => Request req.(PlayerID) v req.(RewardID)
  | FReward => Request req.(PlayerID) req.(CampaignID) v
  end.

Definition zero_request : createRewardClaimRequest := Request "" "" "".

(** A value read into a string. *)
Definition string_value (s : bytes) : option (string * bytes) :=
  match s with
  | a :: s1 =>
      if code a =? 34 then
        match unquote 0 s1 with Some (v, r) => Some (of_bytes v, r) | None => None end
      else if code a =? 110 then
        match scan_literal (to_bytes "ull") s1 with Some r => Some (""%string, r) | None => None end
      else None
  | [] => None
  end.

(** The end of the input after the top-level value. *)
Definition at_eof (s : bytes) (v : decoded) : decoded :=
  match skip_ws s with [] => v | _ => DInvalid end.

(** From a member's name on; every member consumes input, so its length is fuel
    enough ([members_fuel]). *)
Fixpoint members (fuel : nat) (seen : list field) (req : createRewardClaimRequest) (s : bytes)
  : decoded :=
  match fuel, s with
  | S fuel, q :: s1 =>
      if negb (code q =? 34) then DInvalid else
      match unquote 0 s1 with
      | None => DInvalid
      | Some (name, s2) =>
          match field_of name with
          | None => DUnknownName
          | Some f =>
              if bool_decide (f ∈ seen) then DInvalid else
              match skip_ws s2 with
              | p :: s3 =>
                  if negb (code p =? 58) then DInvalid else
                  match string_value (skip_ws s3) with
                  | None => DInvalid
                  | Some (v, s4) =>
                      let req := set_field f v req in
                      match skip_ws s4 with
                      | d :: s5 =>
                          if code d =? 125 then at_eof s5 (DRequest req)
                          else if code d =? 44 then members fuel (f :: seen) req (skip_ws s5)
                          else DInvalid
                      | [] => DInvalid
                      end
                  end
              | [] => DInvalid
              end
          end
      end
  | _, _ => DInvalid
  end.

Definition Unmarshal (body : bytes) : decoded :=
  match skip_ws body with
  | a :: s1 =>
      if code a =? 123 then
        match skip_ws s1 with
        | b :: s2 =>
            if code b =? 125 then at_eof s2 (DRequest zero_request)
            else members (length s1) [] zero_request (b :: s2)
        | [] => DInvalid
        end
      else if code a =? 110 then
        match scan_literal (to_bytes "ull") s1 with
        | Some s2 => at_eof s2 DNull
        | None => DInvalid
        end
      else DInvalid
  | [] => DInvalid
  end.

Example Unmarshal_ex :
  let go s := Unmarshal (to_bytes (dq s)) in
  go " { 'player_id' : 'a\u00e9\ud83d\ude00' , 'reward_id':null}"%string
    = DRequest (Request (of_bytes (chr 97 :: encode_rune 0xe9 ++ encode_rune 0x1f600)) "" "")
  ∧ go "{}"%string = DRequest zero_request
  ∧ go "null "%string = DNull
  ∧ go "{'player_id':'a','extra"%string = DInvalid
  ∧ go "{'player_id':'a','extra'"%string = DUnknownName
  ∧ go "{'Player_ID':'a'}"%string = DUnknownName
  ∧ go "{'player_id':1,'extra':2}"%string = DInvalid
  ∧ go "{'player_id':'a','player_id':'b'}"%string = DInvalid
  ∧ go "{'player_id':'\ud83d'}"%string = DInvalid
  ∧ go "{'player_id':'a',}"%string = DInvalid
  ∧ go "{} {}"%string = DInvalid ∧ go "[]"%string = DInvalid.
Proof. vm_compute. repeat split. Qed.

(** ** Runes *)

Lemma shiftr_div a n : 0 ≤ n → Z.shiftr a n = a `div` 2 ^ n.
Proof. apply Z.shiftr_div_pow2. Qed.

Lemma land_63 a : Z.land a 0x3F = a `mod` 64.
Proof. apply (Z.land_ones a 6). lia. Qed.

Lemma in_range_true lo hi a : lo ≤ code a ≤ hi → in_range lo hi a = true.
Proof. unfold in_range. intros. apply andb_true_iff. rewrite !Z.leb_le. lia. Qed.

(** Linear arithmetic with quotients and remainders. *)
Ltac dlia := Z.to_euclidean_division_equations; lia.

(** The runes of well-formed text. *)
Definition scalar (r : Z) : Prop := 0 ≤ r < 0xD800 ∨ 0xDFFF < r < 0x110000.

Lemma decode_encode r t :
  scalar r → ∃ w, decode_valid (encode_rune r ++ t) = Some (r, w) ∧ w = length (encode_rune r).
Proof.
  intros Hr. unfold scalar in Hr. unfold encode_rune.
  rewrite !shiftr_div, !land_63 by lia.
  change (2 ^ 6) with 64. change (2 ^ 12) with 4096. change (2 ^ 18) with 262144.
  destruct (Z.ltb_spec r 0x80); [|destruct (Z.ltb_spec r 0x800); [|destruct (Z.ltb_spec r 0x10000)]].
  - eexists. split; [|reflexivity]. unfold decode_valid, RuneSelf. simpl.
    rewrite code_chr by dlia. destruct (Z.ltb_spec r 0x80); [done|dlia].
  - eexists. split; [|reflexivity]. unfold decode_valid, RuneSelf. cbn [app length].
    rewrite code_chr by dlia.
    destruct (Z.ltb_spec (0xC0 + r `div` 64) 0x80); [dlia|].
    destruct (Z.leb_spec 0xC2 (0xC0 + r `div` 64)); [|dlia].
    destruct (Z.leb_spec (0xC0 + r `div` 64) 0xDF); [|dlia]. cbn [andb].
    rewrite in_range_true by (rewrite code_chr; dlia). rewrite code_chr by dlia.
    do 2 f_equal. dlia.
  - eexists. split; [|reflexivity]. unfold decode_valid, RuneSelf. cbn [app length].
    rewrite code_chr by dlia.
    destruct (Z.ltb_spec (0xE0 + r `div` 4096) 0x80); [dlia|].
    destruct (Z.leb_spec (0xE0 + r `div` 4096) 0xDF); [dlia|]. rewrite andb_false_r.
    destruct (Z.leb_spec 0xE0 (0xE0 + r `div` 4096)); [|dlia].
    destruct (Z.leb_spec (0xE0 + r `div` 4096) 0xEF); [|dlia]. cbn [andb].
    rewrite !in_range_true; [|rewrite code_chr by dlia; dlia|].
    + cbn [andb]. rewrite !code_chr by dlia. do 2 f_equal. dlia.
    + rewrite code_chr by dlia.
      destruct (Z.eqb_spec (0xE0 + r `div` 4096) 0xE0), (Z.eqb_spec (0xE0 + r `div` 4096) 0xED); dlia.
  - eexists. split; [|reflexivity]. unfold decode_valid, RuneSelf. cbn [app length].
    rewrite code_chr by dlia.
    destruct (Z.ltb_spec (0xF0 + r `div` 262144) 0x80); [dlia|].
    destruct (Z.leb_spec (0xF0 + r `div` 262144) 0xDF); [dlia|]. rewrite andb_false_r.
    destruct (Z.leb_spec (0xF0 + r `div` 262144) 0xEF); [dlia|]. rewrite andb_false_r.
    destruct (Z.leb_spec 0xF0 (0xF0 + r `div` 262144)); [|dlia].
    destruct (Z.leb_spec (0xF0 + r `div` 262144) 0xF4); [|dlia]. cbn [andb].
    rewrite !in_range_true; [|rewrite code_chr by dlia; dlia..|].
    + cbn [andb]. rewrite !code_chr by dlia. do 2 f_equal. dlia.
    + rewrite code_chr by dlia.
      destruct (Z.eqb_spec (0xF0 + r `div` 262144) 0xF0),
        (Z.eqb_spec (0xF0 + r `div` 262144) 0xF4); dlia.
Qed.

(** UTF-8 is canonical: the bytes of a valid rune are its encoding. *)
Lemma encode_decode s r w :
  decode_valid s = Some (r, w) → take w s = encode_rune r ∧ scalar r.
Proof.
  unfold decode_valid, RuneSelf. destruct s as [|a s1]; [done|].
  pose proof (code_range a).
  assert (∀ z b, z = code b → chr z = b) as Hchr by (intros z b ->; apply chr_code).
  unfold encode_rune, scalar.
  rewrite !shiftr_div, !land_63 by lia.
  change (2 ^ 6) with 64. change (2 ^ 12) with 4096. change (2 ^ 18) with 262144.
  destruct (Z.ltb_spec (code a) 0x80).
  { intros [= <- <-]. destruct (Z.ltb_spec (code a) 0x80); [|dlia].
    split; [|dlia]. simpl. by rewrite chr_code. }
  destruct ((0xC2 <=? code a) && (code a <=? 0xDF)) eqn:H2.
  { destruct s1 as [|b s1]; [done|]. destruct (in_range 0x80 0xBF b) eqn:Hb; [|done].
    intros [= <- <-]. unfold in_range in Hb. boolean.
    destruct (Z.ltb_spec ((code a - 0xC0) * 0x40 + (code b - 0x80)) 0x80); [dlia|].
    destruct (Z.ltb_spec ((code a - 0xC0) * 0x40 + (code b - 0x80)) 0x800); [|dlia].
    split; [|dlia]. simpl. f_equal; [symmetry; apply Hchr; dlia|]. f_equal. symmetry; apply Hchr. dlia. }
  destruct ((0xE0 <=? code a) && (code a <=? 0xEF)) eqn:H3.
  { destruct s1 as [|b [|d s1]]; [done..|].
    destruct (in_range _ _ b && _) eqn:Hbd; [|done]. intros [= <- <-].
    apply andb_true_iff in Hbd as [Hb Hd]. unfold in_range in Hb, Hd. boolean.
    destruct (Z.eqb_spec (code a) 0xE0), (Z.eqb_spec (code a) 0xED); try dlia.
    all: match goal with |- context [?r <? 0x80] => set (x := r) in * end.
    all: assert (0x800 ≤ x < 0x10000) as Hx by (unfold x; dlia).
    all: destruct (Z.ltb_spec x 0x80); [dlia|]; destruct (Z.ltb_spec x 0x800); [dlia|];
      destruct (Z.ltb_spec x 0x10000); [|dlia]; split; [|unfold x; dlia]; simpl;
      repeat f_equal; symmetry; apply Hchr; unfold x; dlia. }
  destruct ((0xF0 <=? code a) && (code a <=? 0xF4)) eqn:H4; [|done].
  destruct s1 as [|b [|d [|e s1]]]; [done..|].
  destruct (in_range _ _ b && _ && _) eqn:Hbd; [|done]. intros [= <- <-].
  apply andb_true_iff in Hbd as [[Hb Hd]%andb_true_iff He]. unfold in_range in Hb, Hd, He. boolean.
  destruct (Z.eqb_spec (code a) 0xF0), (Z.eqb_spec (code a) 0xF4); try dlia.
  all: match goal with |- context [?r <? 0x80] => set (x := r) in * end.
  all: assert (0x10000 ≤ x < 0x110000) as Hx by (unfold x; dlia).
  all: destruct (Z.ltb_spec x 0x80); [dlia|]; destruct (Z.ltb_spec x 0x800); [dlia|];
    destruct (Z.ltb_spec x 0x10000); [dlia|]; split; [|unfold x; dlia]; simpl;
    repeat f_equal; symmetry; apply Hchr; unfold x; dlia.
Qed.

(** ** Reading a string literal *)

Lemma emit_Some u m c r :
  emit u m = Some (c, r) ↔ ∃ c', m = Some (c', r) ∧ c = u ++ c'.
Proof. destruct m as [[c' r']|]; simpl; naive_solver. Qed.

Lemma emit_emit u v m : emit u (emit v m) = emit (u ++ v) m.
Proof. destruct m as [[c r]|]; simpl; [|done]. by rewrite app_assoc. Qed.

Lemma emit_nil m : emit [] m = m.
Proof. by destruct m as [[c r]|]. Qed.

Lemma unquote_skip k s :
  (k ≤ length s)%nat → unquote k s = emit (take k s) (unquote 0 (drop k s)).
Proof.
  revert k. induction s as [|a s IH]; intros k Hk; simpl in Hk.
  { by replace k with 0%nat by lia. }
  destruct k as [|k]; [by rewrite take_0, emit_nil, drop_0|].
  cbn [unquote take drop]. rewrite IH by lia. by rewrite emit_emit.
Qed.

(** Every rule reads at least one byte. *)
Lemma unquote_shorter k s c r : unquote k s = Some (c, r) → (length r < length s)%nat.
Proof.
  remember (length s) as n eqn:Hn. assert (length s ≤ n)%nat as Hle by lia. clear Hn.
  revert k s c r Hle. induction n as [|n IH]; intros k s c r Hle H.
  { destruct s; [done|]. simpl in Hle. lia. }
  assert (∀ k' s' u c r, emit u (unquote k' s') = Some (c, r) → (length s' ≤ n)%nat →
                         (length r < S n)%nat) as Hrec.
  { intros k' s' u c' r' (c'' & Hc & _)%emit_Some Hs'. apply IH in Hc; lia. }
  destruct s as [|a s1]; [done|]. simpl in Hle. cbn [unquote] in H.
  repeat (case_match; simplify_eq); try (simpl in *; lia);
    try (eapply Hrec; [exact H|]; simpl in *; lia).
Qed.

(** The escapes of [json.Marshal] are read back as the character they stand
    for, one character at a time. *)
Lemma unquote_escape_ascii a t :
  code a < RuneSelf → unquote 0 (escape_ascii a ++ t) = emit [a] (unquote 0 t).
Proof.
  destruct a as [[] [] [] [] [] [] [] []]; intros H;
    first [vm_compute in H; discriminate H | reflexivity].
Qed.

Lemma escape_skip e k s :
  escape_from e k s = (if e then take k s else []) ++ escape_from true 0 (drop k s).
Proof.
  revert k. induction s as [|a s IH]; intros k.
  { destruct e; rewrite ?take_nil, drop_nil; done. }
  destruct k as [|k].
  { rewrite take_0, drop_0. destruct e; [done|]. cbn [escape_from app].
    by destruct (decode_valid (a :: s)) as [[r w]|]. }
  cbn [escape_from take drop]. rewrite IH. by destruct e.
Qed.

Lemma valid_skip k s : (k ≤ length s)%nat → valid_from k s = valid_from 0 (drop k s).
Proof.
  revert k. induction s as [|a s IH]; intros k Hk; simpl in Hk.
  { by replace k with 0%nat by lia. }
  destruct k as [|k]; [done|]. cbn [valid_from drop]. apply IH. lia.
Qed.

(** The first rune of a valid string. *)
Lemma valid_step a s :
  valid_from 0 (a :: s) = true →
  ∃ r w, decode_valid (a :: s) = Some (r, S w) ∧ (w ≤ length s)%nat
         ∧ valid_from 0 (drop w s) = true ∧ a :: take w s = encode_rune r ∧ scalar r.
Proof.
  cbn [valid_from]. destruct (decode_valid (a :: s)) as [[r w]|] eqn:Hd; [|done].
  pose proof (decode_valid_width _ _ _ Hd) as [Hw1 Hw2]. simpl in Hw2.
  destruct (encode_decode _ _ _ Hd) as [He Hs]. destruct w as [|w]; [lia|]. simpl.
  rewrite Nat.sub_0_r. rewrite valid_skip by lia. intros Hv.
  exists r, w. repeat split; [lia|done|by rewrite <-He|done].
Qed.

Lemma unquote_rune a s r w t :
  decode_valid (a :: s) = Some (r, S w) → RuneSelf ≤ r → (w ≤ length s)%nat →
  unquote 0 (a :: take w s ++ t) = emit (a :: take w s) (unquote 0 t).
Proof.
  intros Hd Hr Hw.
  assert (decode_valid (a :: take w s ++ t) = Some (r, S w)) as Hd'.
  { apply decode_valid_take in Hd. apply (decode_valid_app _ t) in Hd. exact Hd. }
  assert (RuneSelf ≤ code a) as Ha.
  { clear Hd'. unfold decode_valid in Hd. destruct (Z.ltb_spec (code a) RuneSelf); [|done].
    simplify_eq. lia. }
  unfold RuneSelf in *. cbn [unquote].
  destruct (Z.eqb_spec (code a) 34); [lia|]. destruct (Z.eqb_spec (code a) 92); [lia|].
  destruct (Z.ltb_spec (code a) 32); [lia|]. rewrite Hd'. simpl.
  rewrite Nat.sub_0_r, unquote_skip by (rewrite length_app, length_take; lia).
  rewrite take_app_length', drop_app_length' by (rewrite length_take; lia).
  by rewrite emit_emit.
Qed.

Lemma unquote_u_escape r t :
  r = 0x2028 ∨ r = 0x2029 → unquote 0 (u_escape r ++ t) = emit (encode_rune r) (unquote 0 t).
Proof. intros [-> | ->]; reflexivity. Qed.

(** Reading back what [json.Marshal] wrote. *)
Lemma unquote_escape s t :
  valid_from 0 s = true →
  unquote 0 (escape_from true 0 s ++ t) = emit s (unquote 0 t).
Proof.
  remember (length s) as n eqn:Hn. assert (length s ≤ n)%nat as Hle by lia. clear Hn.
  revert s Hle. induction n as [|n IH]; intros s Hle Hv.
  { destruct s; [by rewrite emit_nil|simpl in Hle; lia]. }
  destruct s as [|a s]; [by rewrite emit_nil|]. simpl in Hle.
  destruct (valid_step a s Hv) as (r & w & Hd & Hw & Hv' & He & Hs).
  cbn [escape_from]. rewrite Hd.
  assert (unquote 0 (escape_from true 0 (drop w s) ++ t) = emit (drop w s) (unquote 0 t)) as IH'.
  { apply IH; [rewrite length_drop; lia|done]. }
  assert (a :: s = (a :: take w s) ++ drop w s) as Hsplit by (simpl; by rewrite take_drop).
  destruct (Z.ltb_spec r RuneSelf) as [Hlt|Hge].
  - assert (w = 0%nat ∧ code a < RuneSelf) as [-> Ha].
    { unfold decode_valid in Hd. destruct (Z.ltb_spec (code a) RuneSelf); [by simplify_eq|].
      unfold encode_rune, RuneSelf in *. destruct (Z.ltb_spec r 0x80); [|lia].
      injection He as -> _. unfold scalar in Hs. rewrite code_chr in * by lia. lia. }
    rewrite <-app_assoc, unquote_escape_ascii by done. rewrite drop_0 in IH'.
    rewrite IH', emit_emit. done.
  - replace (S w - 1)%nat with w by lia.
    destruct ((r =? 0x2028) || (r =? 0x2029)) eqn:Hls.
    + rewrite <-app_assoc, unquote_u_escape.
      * rewrite escape_skip. cbn [app]. rewrite IH', emit_emit, <-He. by rewrite <-Hsplit.
      * apply orb_true_iff in Hls as [Hls|Hls]; boolean; lia.
    + rewrite escape_skip. cbn [app]. rewrite <-app_assoc.
      rewrite (unquote_rune a s r w) by done. rewrite IH', emit_emit. by rewrite <-Hsplit.
Qed.

Lemma unquote_quote s t :
  utf8_ValidString s = true →
  unquote 0 (tail (quote s) ++ t) = Some (to_bytes s, t).
Proof.
  intros Hv. unfold quote. cbn [tail]. rewrite <-app_assoc, unquote_escape by done.
  simpl. by rewrite app_nil_r.
Qed.

(** ** What is read is valid UTF-8 *)

Lemma valid_encode r c : scalar r → valid_from 0 (encode_rune r ++ c) = valid_from 0 c.
Proof.
  intros Hr. destruct (decode_encode r c Hr) as (w & Hd & Hw).
  destruct (encode_rune r) as [|a u] eqn:He.
  { exfalso. unfold encode_rune in He. by repeat case_match. }
  cbn [app] in *. cbn [valid_from]. rewrite Hd, Hw. simpl. rewrite Nat.sub_0_r.
  rewrite valid_skip by (rewrite length_app; lia). by rewrite drop_app_length.
Qed.

Lemma valid_rune a s r w c :
  decode_valid (a :: s) = Some (r, S w) → (w ≤ length s)%nat →
  valid_from 0 (a :: take w s ++ c) = valid_from 0 c.
Proof.
  intros Hd Hw. destruct (encode_decode _ _ _ Hd) as [He Hr]. simpl in He.
  rewrite app_comm_cons, He. by apply valid_encode.
Qed.

Lemma hex_val_range a v : hex_val a = Some v → 0 ≤ v < 16.
Proof. unfold hex_val, in_range. intros H. crush_in H; boolean; lia. Qed.

Lemma hex4_range a b c d v : hex4_val a b c d = Some v → 0 ≤ v < 65536.
Proof.
  unfold hex4_val. intros H.
  destruct (hex_val a) eqn:Ha, (hex_val b) eqn:Hb, (hex_val c) eqn:Hc, (hex_val d) eqn:Hd;
    simplify_eq.
  apply hex_val_range in Ha, Hb, Hc, Hd. lia.
Qed.

Lemma valid_ascii a c : code a < RuneSelf → valid_from 0 (a :: c) = valid_from 0 c.
Proof.
  intros Ha. pose proof (code_range a). pose proof (valid_encode (code a) c) as H'.
  unfold encode_rune in H'. unfold RuneSelf in Ha.
  destruct (Z.ltb_spec (code a) 0x80); [|lia]. cbn [app] in H'. rewrite chr_code in H'.
  apply H'. left. lia.
Qed.

Lemma simple_escape_ascii b x : simple_escape b = Some x → code x < RuneSelf.
Proof.
  unfold simple_escape, RuneSelf. intros H. crush_in H;
    repeat match goal with
    | H : _ || _ = true |- _ => apply orb_true_iff in H as [H|H]
    end; boolean; try rewrite code_chr; lia.
Qed.

Lemma unquote_valid s c r : unquote 0 s = Some (c, r) → valid_from 0 c = true.
Proof.
  remember (length s) as n eqn:Hn. assert (length s ≤ n)%nat as Hle by lia. clear Hn.
  revert s c r Hle. induction n as [|n IH]; intros s c r Hle H.
  { destruct s; [done|]. simpl in Hle. lia. }
  assert (∀ s' u c r, emit u (unquote 0 s') = Some (c, r) → (length s' ≤ n)%nat →
                      (∀ c', valid_from 0 (u ++ c') = valid_from 0 c') →
                      valid_from 0 c = true) as Hrec.
  { intros s' u c' r' (c'' & Hc & ->)%emit_Some Hs' Hu. rewrite Hu. by eapply IH. }
  destruct s as [|a s1]; [done|]. simpl in Hle. cbn [unquote] in H.
  destruct (Z.eqb_spec (code a) 34) as [_|_]; [by simplify_eq|].
  destruct (Z.eqb_spec (code a) 92) as [_|_].
  - destruct s1 as [|b s2]; [done|]. simpl in Hle.
    destruct (Z.eqb_spec (code b) 117) as [_|_].
    + destruct s2 as [|h1 [|h2 [|h3 [|h4 s3]]]]; [done..|].
      destruct (hex4_val h1 h2 h3 h4) as [v|] eqn:Hv; [|done]. apply hex4_range in Hv.
      simpl in Hle. destruct ((0xD800 <=? v) && (v <=? 0xDFFF)) eqn:Hsur.
      * destruct s3 as [|e [|u [|g1 [|g2 [|g3 [|g4 s4]]]]]]; [done..|].
        destruct (hex4_val g1 g2 g3 g4) as [v2|] eqn:Hv2; [|done]. apply hex4_range in Hv2.
        destruct (_ && _) eqn:Hlow in H; [|done]. boolean.
        eapply Hrec; [exact H|simpl in *; lia|]. intros c'. apply valid_encode.
        right. lia.
      * eapply Hrec; [exact H|lia|]. intros c'. apply valid_encode.
        apply andb_false_iff in Hsur. unfold scalar. rewrite !Z.leb_gt in Hsur. lia.
    + destruct (simple_escape b) as [x|] eqn:Hx; [|done].
      eapply Hrec; [exact H|lia|]. intros c'. apply valid_ascii. by eapply simple_escape_ascii.
  - destruct (Z.ltb_spec (code a) 32); [done|].
    destruct (decode_valid (a :: s1)) as [[v w]|] eqn:Hd; [|done].
    pose proof (decode_valid_width _ _ _ Hd) as [Hw1 Hw2]. simpl in Hw2.
    destruct w as [|w]; [lia|]. replace (S w - 1)%nat with w in H by lia.
    rewrite unquote_skip in H by lia. rewrite emit_emit in H.
    eapply Hrec; [exact H|rewrite length_drop; lia|]. intros c'. cbn [app].
    by eapply valid_rune; [|lia].
Qed.

(** ** The request *)

Lemma scan_literal_shorter lit s r : scan_literal lit s = Some r → (length r ≤ length s)%nat.
Proof.
  revert s. induction lit as [|a lit IH]; intros s H; [by simplify_eq/=|].
  destruct s as [|b s]; [done|]. simpl in H. destruct (ascii_dec a b); [|done].
  apply IH in H. simpl. lia.
Qed.

Lemma skip_ws_shorter s : (length (skip_ws s) ≤ length s)%nat.
Proof. induction s as [|a s IH]; simpl; [lia|]. destruct (is_ws a); simpl; lia. Qed.

Lemma string_value_shorter s v r : string_value s = Some (v, r) → (length r < length s)%nat.
Proof.
  unfold string_value. destruct s as [|a s1]; [done|]. cbn [length].
  destruct (code a =? 34).
  - destruct (unquote 0 s1) as [[u t]|] eqn:Hu; [|done]. intros [= <- <-].
    apply unquote_shorter in Hu. lia.
  - destruct (code a =? 110); [|done].
    destruct (scan_literal _ s1) as [t|] eqn:Hl; [|done]. intros [= <- <-].
    apply scan_literal_shorter in Hl. lia.
Qed.

(** The loop never runs out of fuel: more of it gives the same result. *)
Lemma members_fuel f1 f2 seen req s :
  (length s ≤ f1)%nat → (length s ≤ f2)%nat → members f1 seen req s = members f2 seen req s.
Proof.
  revert f2 seen req s. induction f1 as [|f1 IH]; intros f2 seen req s H1 H2.
  { destruct s; [by destruct f2|]. simpl in H1. lia. }
  destruct s as [|q s1]; [by destruct f2|]. simpl in H1, H2.
  destruct f2 as [|f2]; [lia|]. cbn [members].
  destruct (negb (code q =? 34)); [done|].
  destruct (unquote 0 s1) as [[name s2]|] eqn:Hu; [|done]. apply unquote_shorter in Hu.
  destruct (field_of name) as [f|]; [|done]. destruct (bool_decide (f ∈ seen)); [done|].
  pose proof (skip_ws_shorter s2). destruct (skip_ws s2) as [|p s3]; [done|].
  destruct (negb (code p =? 58)); [done|].
  destruct (string_value (skip_ws s3)) as [[v s4]|] eqn:Hv; [|done].
  apply string_value_shorter in Hv. pose proof (skip_ws_shorter s3).
  pose proof (skip_ws_shorter s4). destruct (skip_ws s4) as [|d s5]; [done|].
  destruct (code d =? 125); [done|]. destruct (code d =? 44); [|done].
  pose proof (skip_ws_shorter s5). simpl in *. apply IH; lia.
Qed.

Definition request_fields (req : createRewardClaimRequest) : list string :=
  [req.(PlayerID); req.(CampaignID); req.(RewardID)].
Definition valid_request (req : createRewardClaimRequest) : Prop :=
  Forall (λ v, utf8_ValidString v = true) (request_fields req).

Lemma string_value_valid s v r : string_value s = Some (v, r) → utf8_ValidString v = true.
Proof.
  unfold string_value. destruct s as [|a s1]; [done|]. destruct (code a =? 34).
  - destruct (unquote 0 s1) as [[u t]|] eqn:Hu; [|done]. intros [= <- <-].
    apply unquote_valid in Hu. unfold utf8_ValidString. by rewrite to_of_bytes.
  - destruct (code a =? 110); [|done]. destruct (scan_literal _ s1); [|done]. by intros [= <- <-].
Qed.

Lemma set_field_valid f v req :
  utf8_ValidString v = true → valid_request req → valid_request (set_field f v req).
Proof.
  unfold valid_request, request_fields. intros Hv H. inversion_clear H as [|? ? H1 H'].
  inversion_clear H' as [|? ? H2 H'']. inversion_clear H'' as [|? ? H3 _].
  destruct f; simpl; by repeat constructor.
Qed.

Lemma at_eof_request s v req : at_eof s v = DRequest req → v = DRequest req.
Proof. unfold at_eof. by destruct (skip_ws s). Qed.

Lemma members_valid fuel seen req s req' :
  valid_request req → members fuel seen req s = DRequest req' → valid_request req'.
Proof.
  revert seen req s. induction fuel as [|fuel IH]; intros seen req s Hreq H; [done|].
  destruct s as [|q s1]; [done|]. cbn [members] in H.
  destruct (negb (code q =? 34)); [done|].
  destruct (unquote 0 s1) as [[name s2]|]; [|done].
  destruct (field_of name) as [f|]; [|done]. destruct (bool_decide (f ∈ seen)); [done|].
  destruct (skip_ws s2) as [|p s3]; [done|]. destruct (negb (code p =? 58)); [done|].
  destruct (string_value (skip_ws s3)) as [[v s4]|] eqn:Hv; [|done].
  apply string_value_valid in Hv. pose proof (set_field_valid f v req Hv Hreq).
  destruct (skip_ws s4) as [|d s5]; [done|].
  destruct (code d =? 125); [|destruct (code d =? 44); [by eauto|done]].
  apply at_eof_request in H. by simplify_eq.
Qed.

Lemma Unmarshal_valid body req : Unmarshal body = DRequest req → valid_request req.
Proof.
  assert (valid_request zero_request) by (by repeat constructor).
  unfold Unmarshal. destruct (skip_ws body) as [|a s1]; [done|].
  destruct (code a =? 123).
  - destruct (skip_ws s1) as [|b s2]; [done|]. destruct (code b =? 125); intros Hu.
    + apply at_eof_request in Hu. by simplify_eq.
    + by eapply members_valid.
  - destruct (code a =? 110); [|done].
    destruct (scan_literal _ _); [|done]. unfold at_eof. by destruct (skip_ws _).
Qed.

(** ** Round trip *)

Lemma quote_cons s : quote s = chr 34 :: tail (quote s).
Proof. done. Qed.

Lemma field_of_name f : field_of (to_bytes (field_name f)) = Some f.
Proof. by destruct f. Qed.

Lemma skip_ws_solid a s : is_ws a = false → skip_ws (a :: s) = a :: s.
Proof. intros H. simpl. by rewrite H. Qed.

(** Reading one member [json.Marshal] wrote. *)
Lemma members_member fuel seen req f v d rest :
  f ∉ seen → utf8_ValidString v = true → is_ws d = false →
  members (S fuel) seen req (string_member (field_name f, v) ++ d :: rest)
  = if code d =? 125 then at_eof rest (DRequest (set_field f v req))
    else if code d =? 44 then members fuel (f :: seen) (set_field f v req) (skip_ws rest)
    else DInvalid.
Proof.
  intros Hf Hv Hd. unfold string_member. cbn [fst snd]. rewrite <-app_assoc.
  rewrite (quote_cons (field_name f)). cbn [app members].
  change (negb (code (chr 34) =? 34)) with false. cbn [negb].
  rewrite unquote_quote by (by destruct f). rewrite field_of_name.
  rewrite bool_decide_eq_false_2 by done.
  rewrite skip_ws_solid by done. change (negb (code (chr 58) =? 58)) with false. cbn [negb].
  rewrite (quote_cons v). cbn [app]. rewrite skip_ws_solid by done.
  unfold string_value. change (code (chr 34) =? 34) with true. cbn [negb].
  rewrite unquote_quote by done. rewrite of_to_bytes.
  by rewrite skip_ws_solid by done.
Qed.

(** The body a client writes for a request. *)
Definition request_body (req : createRewardClaimRequest) : bytes :=
  marshal (string_object ((λ f, (field_name f,
    match f with FPlayer => req.(PlayerID) | FCampaign => req.(CampaignID)
               | FReward => req.(RewardID) end)) <$> [FPlayer; FCampaign; FReward])).

Lemma string_member_start m : ∃ t, string_member m = chr 34 :: t.
Proof. unfold string_member. rewrite quote_cons. by eexists. Qed.

Lemma Unmarshal_request_body req : valid_request req → Unmarshal (request_body req) = DRequest req.
Proof.
  unfold valid_request, request_fields. rewrite !Forall_cons. intros (Hp & Hc & Hr & _).
  unfold request_body. cbn [fmap list_fmap]. rewrite marshal_string_object.
  unfold string_members. cbn [flat_map]. rewrite app_nil_r, <-!app_assoc.
  set (body := string_member _ ++ _).
  assert (∃ t, body = chr 34 :: t) as [t Ht].
  { unfold body. destruct (string_member_start (field_name FPlayer, PlayerID req)) as [t ->].
    by eexists. }
  unfold Unmarshal. rewrite skip_ws_solid by done. cbn [app].
  change (code (chr 123) =? 123) with true. cbv iota.
  assert (skip_ws body = chr 34 :: t) as -> by (rewrite Ht; by apply skip_ws_solid).
  change (code (chr 34) =? 125) with false. cbv iota. rewrite <-Ht.
  rewrite (members_fuel _ (S (S (S (length body))))) by lia.
  unfold body at 2. cbn [app].
  rewrite members_member; [|set_solver|done|done].
  change (code (chr 44) =? 125) with false. change (code (chr 44) =? 44) with true. cbv iota.
  assert (∀ m u, skip_ws (string_member m ++ u) = string_member m ++ u) as Hws.
  { intros m u. destruct (string_member_start m) as [u' ->]. cbn [app]. by apply skip_ws_solid. }
  rewrite Hws. rewrite members_member; [|set_solver|done|done].
  change (code (chr 44) =? 125) with false. change (code (chr 44) =? 44) with true. cbv iota.
  rewrite Hws. cbn [app]. rewrite members_member; [|set_solver|done|done].
  by destruct req.
Qed.

End JsonDecode.
