(* ===== verification/Trim.v ===== *)
(** * Trimming keeps UTF-8

    [strings.TrimSpace] removes whole runes, so that a valid text stays valid:
    the service's UTF-8 check cannot fail on what the JSON decoder accepted. *)
From S2P Require Import Prelude.
From S2P Require Import GoStrings.
From S2P Require Import GoJson.
From S2P Require Import JsonDecode.
From Stdlib Require Import Ascii.
Local Open Scope Z_scope.

Module Trim.
Import JsonDecode.

(** The first byte of an encoding is not a continuation byte, the others are. *)
Lemma encode_bytes r :
  scalar r →
  ∃ a u, encode_rune r = a :: u ∧ rune_start a = true ∧ Forall (λ b, rune_start b = false) u.
Proof.
  intros Hr. unfold scalar in Hr. unfold encode_rune.
  rewrite !shiftr_div, !land_63 by lia.
  change (2 ^ 6) with 64. change (2 ^ 12) with 4096. change (2 ^ 18) with 262144.
  assert (∀ z, 0 ≤ z < 0x80 ∨ 0xC0 ≤ z < 0x100 → rune_start (chr z) = true) as Hlead.
  { intros z Hz. unfold rune_start, in_range. rewrite code_chr by lia.
    apply negb_true_iff, andb_false_iff. rewrite !Z.leb_gt. lia. }
  assert (∀ z, rune_start (chr (0x80 + z `mod` 64)) = false) as Hcont.
  { intros z. unfold rune_start. rewrite in_range_true; [done|].
    pose proof (Z.mod_pos_bound z 64). rewrite code_chr; lia. }
  destruct (Z.ltb_spec r 0x80); [|destruct (Z.ltb_spec r 0x800); [|destruct (Z.ltb_spec r 0x10000)]];
    (eexists _, _; split; [reflexivity|]); (split; [apply Hlead; dlia|]);
    repeat constructor; apply Hcont.
Qed.

(** Cutting a valid text before a byte that starts a rune leaves valid texts. *)
Lemma valid_prefix p a t :
  rune_start a = true → valid_from 0 (p ++ a :: t) = true → valid_from 0 p = true.
Proof.
  intros Ha. remember (length p) as n eqn:Hn. assert (length p ≤ n)%nat as Hle by lia. clear Hn.
  revert p Hle. induction n as [|n IH]; intros p Hle Hv; (destruct p as [|b p]; [done|]);
    simpl in Hle; [lia|].
  destruct (valid_step b (p ++ a :: t) Hv) as (r & w & Hd & Hw & Hv' & He & Hs).
  destruct (decide (w ≤ length p)%nat) as [Hwp|Hwp].
  - rewrite drop_app_le in Hv' by done. apply IH in Hv'; [|rewrite length_drop; lia].
    rewrite take_app_le in He by done.
    rewrite <-(take_drop w p), app_comm_cons, He, valid_encode by done. done.
  - exfalso. destruct (encode_bytes r Hs) as (c & u & Hc & _ & Hu). rewrite Hc in He.
    injection He as -> <-. rewrite Forall_forall in Hu.
    assert (a ∈ take w (p ++ a :: t)) as Hin; [|apply Hu in Hin; congruence].
    apply list_elem_of_lookup. exists (length p).
    rewrite lookup_take_lt by lia. by rewrite list_lookup_middle.
Qed.

(** Dropping whole runes from the front. *)
Lemma trim_left_valid s : valid_from 0 s = true → valid_from 0 (trim_left s) = true.
Proof.
  unfold trim_left.
  assert (∀ k, (k ≤ length s)%nat → valid_from k s = true →
            valid_from 0 (drop_spaces decode_rune k s) = true) as H; [|intros; apply H; [lia|done]].
  induction s as [|a s IH]; intros k Hk Hv; [done|]. simpl in Hk.
  destruct k as [|k]; [|apply IH; [lia|done]].
  cbn [drop_spaces]. destruct (valid_step a s Hv) as (r & w & Hd & Hw & Hv' & _).
  unfold decode_rune. rewrite Hd. destruct (unicode_IsSpace r); [|done].
  simpl. rewrite Nat.sub_0_r. apply IH; [lia|]. by rewrite valid_skip.
Qed.

(** The rune [decode_last_rune] finds is a suffix of the text, unless it reports
    an error. *)
Lemma decode_last_suffix r c w :
  decode_last_rune r = (c, w) → c ≠ RuneError →
  (1 ≤ w ≤ length r)%nat ∧ ∃ a u, rev (take w r) = a :: u ∧ rune_start a = true.
Proof.
  unfold decode_last_rune. destruct r as [|a r]; [naive_solver|].
  destruct (Z.ltb_spec (code a) RuneSelf) as [Ha|Ha].
  { intros [= <- <-] _. split; [simpl; lia|]. exists a, []. split; [done|].
    pose proof (code_range a). unfold rune_start, in_range, RuneSelf in *.
    apply negb_true_iff, andb_false_iff. rewrite !Z.leb_gt. lia. }
  set (n := last_window (a :: r)). destruct (decode_rune (rev (take n (a :: r)))) as [d m] eqn:Hd.
  destruct (Nat.eqb_spec m n) as [Hm|]; [|intros [= <- <-]; done].
  intros [= <- <-] Hne. unfold decode_rune in Hd.
  destruct (rev (take n (a :: r))) as [|b u] eqn:Hrev; [simplify_eq; done|].
  destruct (decode_valid (b :: u)) as [[d' m']|] eqn:Hdv; [|simplify_eq; done].
  injection Hd as -> ->. clearbody n. subst m.
  pose proof (decode_valid_width _ _ _ Hdv) as Hw. rewrite <-Hrev, length_rev, length_take in Hw.
  split; [lia|]. exists b, u. split; [done|].
  destruct (encode_decode _ _ _ Hdv) as [He Hs].
  destruct (encode_bytes d Hs) as (b' & u' & Hb' & Hstart & _).
  rewrite Hb' in He. destruct n as [|n']; [lia|]. simpl in He. by injection He as -> _.
Qed.

Lemma trim_right_valid s : valid_from 0 s = true → valid_from 0 (trim_right s) = true.
Proof.
  unfold trim_right.
  assert (∀ n r k, (length r ≤ n)%nat → (k ≤ length r)%nat → valid_from 0 (rev (drop k r)) = true →
            valid_from 0 (rev (drop_spaces decode_last_rune k r)) = true) as H.
  2: { intros Hv. apply (H (length (rev s)) (rev s) 0%nat); [lia|lia|].
       by rewrite drop_0, rev_involutive. }
  induction n as [|n IH]; intros r k Hn Hk Hv; (destruct r as [|a r]; [done|]); simpl in Hn; [lia|].
  destruct k as [|k]; [|simpl in *; apply IH; [lia|lia|done]].
  rewrite drop_0 in Hv. cbn [drop_spaces].
  destruct (decode_last_rune (a :: r)) as [c w] eqn:Hd.
  destruct (unicode_IsSpace c) eqn:Hsp; [|done].
  destruct (decode_last_suffix _ _ _ Hd (space_not_error c Hsp)) as (Hw & b & u & Hrev & Hb).
  simpl in Hw. apply IH; [lia|lia|].
  replace (drop (w - 1) r) with (drop w (a :: r)) by (destruct w; [lia|]; simpl; by rewrite Nat.sub_0_r).
  rewrite <-(take_drop w (a :: r)), rev_app_distr, Hrev in Hv. by eapply valid_prefix.
Qed.

Lemma TrimSpace_valid s : utf8_ValidString s = true → utf8_ValidString (strings_TrimSpace s) = true.
Proof.
  unfold utf8_ValidString, strings_TrimSpace. rewrite to_of_bytes. intros H.
  by apply trim_right_valid, trim_left_valid.
Qed.

End Trim.
