(* ===== verification/Mime.v ===== *)
(** * Media types: [mime.ParseMediaType]

    What [isJSONContentType] of internal/httpapi/reward_claims.go observes of it:
    whether the value parses and which media type it names. *)
From S2P Require Import Prelude.
From S2P Require Import GoStrings.
From S2P Require Import GoJson.
From Stdlib Require Import Ascii.
Local Open Scope Z_scope.

Module Mime.

(** The tspecials of RFC 2045: brackets, quotes, separators, backslash. *)
Definition isTSpecial (a : ascii) : bool :=
  bool_decide (code a ∈ [40; 41; 60; 62; 64; 44; 59; 58; 92; 34; 47; 91; 93; 63; 61]).

Definition isTokenChar (a : ascii) : bool := visible a && negb (isTSpecial a).

Fixpoint consumeToken (s : bytes) : bytes * bytes :=
  match s with
  | [] => ([], [])
  | a :: s' => if isTokenChar a then let '(t, r) := consumeToken s' in (a :: t, r) else ([], s)
  end.

(** The rest of a quoted string: its content and what follows, [None] when it is
    not closed or breaks the line.  A backslash escapes only a special. *)
Fixpoint consumeQuoted (s : bytes) : option (bytes * bytes) :=
  match s with
  | [] => None
  | a :: s1 =>
      if code a =? 34 then Some ([], s1)
      else
        let plain :=
          if (code a =? 13) || (code a =? 10) then None
          else match consumeQuoted s1 with Some (c, r) => Some (a :: c, r) | None => None end in
        match s1 with
        | b :: s2 =>
            if (code a =? 92) && isTSpecial b
            then match consumeQuoted s2 with Some (c, r) => Some (b :: c, r) | None => None end
            else plain
        | [] => plain
        end
  end.

(** [None] stands for an empty value that consumed nothing. *)
Definition consumeValue (s : bytes) : option (bytes * bytes) :=
  match s with
  | [] => None
  | a :: s1 =>
      if code a =? 34 then consumeQuoted s1
      else match consumeToken s with ([], _) => None | vr => Some vr end
  end.

(** [strings.TrimLeftFunc(s, unicode.IsSpace)] *)
Definition trim_space_left : bytes → bytes := trim_left.

Definition lower_token (s : bytes) : bytes :=
  (λ a, if in_range 65 90 a then chr (code a + 32) else a) <$> s.

(** One [; key=value]; [None] stands for an empty key. *)
Definition consumeMediaParam (v : bytes) : option (bytes * bytes * bytes) :=
  match trim_space_left v with
  | a :: rest =>
      if negb (code a =? 59) then None else
      let '(param, rest) := consumeToken (trim_space_left rest) in
      match param, trim_space_left rest with
      | _ :: _, e :: rest =>
          if negb (code e =? 61) then None else
          match consumeValue (trim_space_left rest) with
          | Some (value, rest) => Some (lower_token param, value, rest)
          | None => None
          end
      | _, _ => None
      end
  | [] => None
  end.

(** The parameters: whether they parse, a repeated name having one value only.
    Every parameter consumes its semicolon, so the length is fuel enough. *)
Fixpoint params_ok (fuel : nat) (seen : list (bytes * bytes)) (v : bytes) : bool :=
  match trim_space_left v, fuel with
  | [], _ => true
  | _, O => false
  | v, S fuel =>
      match consumeMediaParam v with
      | None => bool_decide (trim_right (trim_left v) = to_bytes ";")
      | Some (key, value, rest) =>
          forallb (λ kv, negb (bool_decide (kv.1 = key)) || bool_decide (kv.2 = value)) seen
          && params_ok fuel ((key, value) :: seen) rest
      end
  end.

(** [strings.Cut(v, ";")]: the part before, and the rest with its semicolon. *)
Fixpoint cut_params (v : bytes) : bytes * bytes :=
  match v with
  | [] => ([], [])
  | a :: v' => if code a =? 59 then ([], v)
               else let '(b, r) := cut_params v' in (a :: b, r)
  end.

(** [ParseMediaType(value)] succeeds with the media type [word], which is of the
    form token "/" token. *)
Definition ParseMediaType_is (value word : string) : bool :=
  let '(base, params) := cut_params (to_bytes value) in
  ToLower_is (strings_TrimSpace (of_bytes base)) word && params_ok (length params) [] params.

(** ** The fuel is enough *)

Lemma trim_space_left_length v : (length (trim_space_left v) ≤ length v)%nat.
Proof.
  unfold trim_space_left, trim_left. destruct (drop_spaces_suffix decode_rune 0 v) as [p Hp].
  rewrite Hp at 2. rewrite length_app. lia.
Qed.

Lemma consumeToken_length s t r : consumeToken s = (t, r) → (length r ≤ length s)%nat.
Proof.
  revert t r. induction s as [|a s IH]; intros t r; simpl; [by intros [= <- <-]|].
  destruct (isTokenChar a); [|by intros [= <- <-]].
  destruct (consumeToken s) as [t' r']. intros [= <- <-]. specialize (IH t' r' eq_refl). lia.
Qed.

Lemma consumeQuoted_length n s c r :
  (length s ≤ n)%nat → consumeQuoted s = Some (c, r) → (length r < length s)%nat.
Proof.
  revert s c r. induction n as [|n IH]; intros s c r Hn Hs; (destruct s as [|a s1]; [done|]); simpl in Hn; [lia|].
  assert (∀ b s2 c' r', (length s2 ≤ length s1)%nat →
    match consumeQuoted s2 with Some (c, r) => Some (b :: c, r) | None => None end = Some (c', r') →
    (length r' < length (a :: s1))%nat) as Hrec.
  { intros b s2 c' r' Hle. destruct (consumeQuoted s2) as [[c2 r2]|] eqn:E; [|done].
    intros [= <- <-]. apply IH in E; simpl; lia. }
  simpl in Hs. destruct (code a =? 34); [by simplify_eq/=; lia|].
  destruct s1 as [|b s2]; [by destruct (_ || _)|].
  destruct ((code a =? 92) && isTSpecial b).
  - eapply Hrec; [|exact Hs]. simpl. lia.
  - destruct (_ || _); [done|]. eapply Hrec; [|exact Hs]. done.
Qed.

Lemma consumeValue_length s v r : consumeValue s = Some (v, r) → (length r ≤ length s)%nat.
Proof.
  unfold consumeValue. destruct s as [|a s1]; [done|]. destruct (code a =? 34).
  - intros E. apply (consumeQuoted_length (length s1)) in E; simpl; lia.
  - destruct (consumeToken (a :: s1)) as [[|b t] r'] eqn:E; [done|]. intros [= _ <-].
    by eapply consumeToken_length.
Qed.

Lemma consumeMediaParam_length v k x r :
  consumeMediaParam v = Some (k, x, r) → (length r < length v)%nat.
Proof.
  unfold consumeMediaParam. pose proof (trim_space_left_length v) as H1.
  destruct (trim_space_left v) as [|a rest]; [done|]. destruct (negb _); [done|].
  pose proof (trim_space_left_length rest) as H2.
  destruct (consumeToken (trim_space_left rest)) as [param rest2] eqn:Ht.
  apply consumeToken_length in Ht. destruct param as [|b param]; [done|].
  pose proof (trim_space_left_length rest2) as H3.
  destruct (trim_space_left rest2) as [|e rest3]; [done|]. destruct (negb _); [done|].
  pose proof (trim_space_left_length rest3) as H4.
  destruct (consumeValue (trim_space_left rest3)) as [[value rest4]|] eqn:Hv; [|done].
  apply consumeValue_length in Hv. intros [= _ _ <-]. simpl in *. lia.
Qed.

(** More fuel than the length of the parameters changes nothing. *)
Lemma params_fuel fuel fuel' seen v :
  (length v ≤ fuel)%nat → (length v ≤ fuel')%nat → params_ok fuel seen v = params_ok fuel' seen v.
Proof.
  revert fuel' seen v. induction fuel as [|fuel IH]; intros fuel' seen v H1 H2.
  { assert (v = []) as -> by (apply length_zero_iff_nil; lia). by destruct fuel'. }
  destruct fuel' as [|fuel'].
  { assert (v = []) as -> by (apply length_zero_iff_nil; lia). done. }
  simpl. pose proof (trim_space_left_length v) as Hv. destruct (trim_space_left v) as [|a u]; [done|].
  destruct (consumeMediaParam (a :: u)) as [[[k x] r]|] eqn:E; [|done].
  apply consumeMediaParam_length in E. f_equal. apply IH; lia.
Qed.

Example ParseMediaType_ex :
  let go v := ParseMediaType_is v "application/json" in
  go "application/json"%string = true ∧ go " Application/JSON ; charset=UTF-8"%string = true
  ∧ go "application/json;"%string = true ∧ go "application/json; charset"%string = false
  ∧ go (dq "application/json; a='x\'y;'; b=c;") = true
  ∧ go (dq "application/json; a='x") = false
  ∧ go "application/json; a=1; A=1"%string = true ∧ go "application/json; a=1; A=2"%string = false
  ∧ go "text/json"%string = false ∧ go ""%string = false.
Proof. vm_compute. repeat split. Qed.

End Mime.
