(* ===== verification/Http.v ===== *)
(** * HTTP: requests, response writers, handlers and routing (net/http)

    What the handlers of internal/httpapi, internal/adminhttp and internal/health
    use of [net/http], [net] and [net/textproto]: header maps, the response
    writer the server gives a handler, panics that unwind a handler, and the
    route patterns of a [ServeMux]. *)
From S2P Require Import Prelude.
From S2P Require Import GoErrors.
From S2P Require Import Prog.
From S2P Require Import GoStrings.
From S2P Require Import GoJson.
From S2P Require Import JsonDecode.
From Stdlib Require Import Ascii.
From stdpp Require Import gmap strings.
Local Open Scope Z_scope.

Module Http.

(** ** Headers *)

Abbreviation headers := (gmap string (list string)).

Definition to_upper (a : ascii) : ascii := if in_range 97 122 a then chr (code a - 32) else a.
Definition to_lower (a : ascii) : ascii := if in_range 65 90 a then chr (code a + 32) else a.

(** The bytes of a header field name (RFC 9110 tokens). *)
Definition header_byte (a : ascii) : bool :=
  in_range 48 57 a || in_range 65 90 a || in_range 97 122 a
  || bool_decide (code a ∈ [33; 35; 36; 37; 38; 39; 42; 43; 45; 46; 94; 95; 96; 124; 126]).

Fixpoint capitalize (upper : bool) (s : bytes) : bytes :=
  match s with
  | [] => []
  | a :: s => (if upper then to_upper a else to_lower a) :: capitalize (code a =? 45) s
  end.

(** [textproto.CanonicalMIMEHeaderKey] *)
Definition CanonicalHeaderKey (k : string) : string :=
  if forallb header_byte (to_bytes k) then of_bytes (capitalize true (to_bytes k)) else k.

Definition header_Values (h : headers) (key : string) : list string :=
  default [] (h !! CanonicalHeaderKey key).
Definition header_Get (h : headers) (key : string) : string :=
  default ""%string (head (header_Values h key)).
Definition header_Set (key value : string) (h : headers) : headers :=
  <[CanonicalHeaderKey key := [value]]> h.
Definition header_Del (key : string) (h : headers) : headers := delete (CanonicalHeaderKey key) h.

(** ** Requests *)

Record Request := MkRequest {
  Method : string;
  Path : string;             (* r.URL.Path *)
  EscapedPath : string;      (* r.URL.EscapedPath() *)
  Header : headers;
  RemoteAddr : string;
  BodyBytes : bytes;         (* what reading the body yields *)
  BodyError : option goerr   (* and the error that ends it, nil for EOF *)
}.

Definition UserAgent (r : Request) : string := header_Get r.(Header) "User-Agent".

(** [io.ReadAll(http.MaxBytesReader(w, r.Body, n))] *)
Inductive read_error := MaxBytesError | ReadError (e : goerr).
Definition read_body (n : Z) (r : Request) : result read_error bytes :=
  if n <? Z.of_nat (length r.(BodyBytes)) then Err MaxBytesError
  else match r.(BodyError) with
       | Some e => Err (ReadError e)
       | None => Ok r.(BodyBytes)
       end.

(** ** Panics *)

(** A panic value: [http.ErrAbortHandler], or any other value of a type. *)
Inductive panic := ErrAbortHandler | PanicValue (type : string).
#[export] Instance panic_eq_dec : EqDecision panic.
Proof. solve_decision. Defined.

(** ** The server's response writer *)

Record ResponseWriter := MkWriter {
  hdr : headers;                       (* w.Header() *)
  sent : option (Z * headers);         (* the status line and headers, once written *)
  body : bytes
}.
Definition new_writer : ResponseWriter := MkWriter ∅ None [].

Definition body_allowed (status : Z) : bool :=
  negb ((100 <=? status) && (status <=? 199)) && negb (status =? 204) && negb (status =? 304).

(** [response.WriteHeader]: the first final status freezes the headers; an
    informational one (other than 101) does not count. *)
Definition w_WriteHeader (status : Z) (w : ResponseWriter) : ResponseWriter * result panic unit :=
  match w.(sent) with
  | Some _ => (w, Ok tt)
  | None =>
      if (status <? 100) || (999 <? status) then (w, Err (PanicValue "string"))
      else if (100 <=? status) && (status <=? 199) && negb (status =? 101) then (w, Ok tt)
      else (MkWriter w.(hdr) (Some (status, w.(hdr))) w.(body), Ok tt)
  end.

(** [response.Write]; the error of a body that is not allowed is not used. *)
Definition w_Write (b : bytes) (w : ResponseWriter) : ResponseWriter :=
  match w.(sent) with
  | Some (status, _) =>
      if body_allowed status then MkWriter w.(hdr) w.(sent) (w.(body) ++ b) else w
  | None => MkWriter w.(hdr) (Some (200, w.(hdr))) (w.(body) ++ b)
  end.

Definition w_Header (f : headers → headers) (w : ResponseWriter) : ResponseWriter :=
  MkWriter (f w.(hdr)) w.(sent) w.(body).

(** What third-party handlers do with the writer they are given. *)
Inductive wop :=
| OSet (key value : string)
| ODel (key : string)
| OWriteHeader (status : Z)
| OWrite (b : bytes).

(** ** The status recorder

    httpapi/middleware.go and adminhttp/server.go each define this type. *)
Record statusRecorder := MkRecorder {
  rw : ResponseWriter;
  status : Z;
  wroteHeader : bool
}.

Definition on_rw (f : ResponseWriter → ResponseWriter) (r : statusRecorder) : statusRecorder :=
  MkRecorder (f r.(rw)) r.(status) r.(wroteHeader).
Definition set_status (s : Z) (r : statusRecorder) : statusRecorder :=
  MkRecorder r.(rw) s r.(wroteHeader).

Definition rec_WriteHeader (s : Z) (r : statusRecorder) : statusRecorder * result panic unit :=
  if r.(wroteHeader) then (r, Ok tt)
  else match w_WriteHeader s r.(rw) with
       | (w, Err p) => (MkRecorder w r.(status) r.(wroteHeader), Err p)
       | (w, Ok _) => (MkRecorder w s true, Ok tt)
       end.

Definition rec_Write (b : bytes) (r : statusRecorder) : statusRecorder * result panic unit :=
  let '(r, res) := if r.(wroteHeader) then (r, Ok tt) else rec_WriteHeader 200 r in
  match res with
  | Err p => (r, Err p)
  | Ok _ => (on_rw (w_Write b) r, Ok tt)
  end.

Definition rec_op (o : wop) (r : statusRecorder) : statusRecorder * result panic unit :=
  match o with
  | OSet k v => (on_rw (w_Header (header_Set k v)) r, Ok tt)
  | ODel k => (on_rw (w_Header (header_Del k)) r, Ok tt)
  | OWriteHeader s => rec_WriteHeader s r
  | OWrite b => rec_Write b r
  end.

(** ** Handlers

    A handler transforms the state of its writer, performs calls and may panic;
    the writer keeps what was done before the panic. *)
Section Handlers.
Context {E : Type} {reply : E → Type}.

Definition handler (S A : Type) : Type := S → Prog.prog reply (S * result panic A).

Definition hret {S A} (a : A) : handler S A := λ s, Ret (s, Ok a).
Definition hpanic {S A} (p : panic) : handler S A := λ s, Ret (s, Err p).
Definition hbind {S A B} (m : handler S A) (k : A → handler S B) : handler S B :=
  λ s, pbind (m s) (λ r, match r with
                         | (s, Ok a) => k a s
                         | (s, Err p) => Ret (s, Err p)
                         end).
Definition hcall {S} (c : E) : handler S (reply c) := λ s, Do c (λ x, Ret (s, Ok x)).
Definition hstep {S A} (f : S → S * result panic A) : handler S A := λ s, Ret (f s).

(** A call that may panic. *)
Definition hlift {S A} (r : result panic A) : handler S A :=
  match r with Ok a => hret a | Err p => hpanic p end.

Fixpoint hops (os : list wop) : handler statusRecorder unit :=
  match os with
  | [] => hret tt
  | o :: os => hbind (hstep (rec_op o)) (λ _, hops os)
  end.

End Handlers.

Notation "'run!' x ':=' m 'in' k" := (hbind m (λ x, k))
  (at level 10, x pattern, m at level 100, k at level 200).

(** ** Routing *)

Fixpoint split_slash (s : bytes) : list bytes :=
  match s with
  | [] => [[]]
  | a :: s =>
      match split_slash s with
      | seg :: segs => if code a =? 47 then [] :: seg :: segs else (a :: seg) :: segs
      | [] => [[a]]
      end
  end.

(** [url.PathUnescape]; [None] for a malformed escape. *)
Fixpoint PathUnescape (s : bytes) : option bytes :=
  match s with
  | [] => Some []
  | a :: s1 =>
      if code a =? 37 then
        match s1 with
        | h :: l :: s2 =>
            match JsonDecode.hex_val h, JsonDecode.hex_val l, PathUnescape s2 with
            | Some h, Some l, Some r => Some (chr (h * 16 + l) :: r)
            | _, _, _ => None
            end
        | _ => None
        end
      else match PathUnescape s1 with Some r => Some (a :: r) | None => None end
  end.
Definition unescape_segment (s : bytes) : bytes := default s (PathUnescape s).

(** The segments after the leading slash; [None] without one. *)
Definition path_segments (p : string) : option (list bytes) :=
  match to_bytes p with
  | a :: s => if code a =? 47 then Some (split_slash s) else None
  | [] => None
  end.

(** No segment is empty, a dot or two dots, but for a trailing slash. *)
Definition clean_segments (segs : list bytes) : bool :=
  let solid (s : bytes) := negb (bool_decide (s = [] ∨ s = to_bytes "." ∨ s = to_bytes "..")) in
  match rev segs with
  | last :: front => (solid last || bool_decide (last = [])) && forallb solid front
  | [] => true
  end.

(** [cleanPath(p) == p] *)
Definition is_clean (p : string) : bool :=
  match path_segments p with Some segs => clean_segments segs | None => false end.

(** A pattern without wildcards and without trailing slash matches the path with
    the same unescaped segments. *)
Definition pattern_matches (pattern p : string) : bool :=
  match path_segments pattern, path_segments p with
  | Some a, Some b => bool_decide (a = unescape_segment <$> b)
  | _, _ => false
  end.

(** The first of the patterns that matches, if any; patterns without wildcards
    exclude each other.  [None] when the mux answers by itself: a path that is
    not clean is redirected (unless the method is CONNECT), and the catch-all
    "/" needs a path that starts with a slash. *)
Definition mux_match (patterns : list string) (r : Request) : option (option string) :=
  if negb (is_clean r.(EscapedPath)) && negb (bool_decide (r.(Method) = "CONNECT")%string)
  then None
  else match path_segments r.(EscapedPath) with
       | None => None
       | Some _ => Some (find (λ p, pattern_matches p r.(EscapedPath)) patterns)
       end.

(** The answers of the mux itself, by net/http's version. *)
Class ServeMux := { mux_answer : Request → list wop }.

(** ** [net.SplitHostPort], the host *)

Fixpoint last_colon (s : bytes) : option (bytes * bytes) :=
  match s with
  | [] => None
  | a :: s =>
      match last_colon s with
      | Some (h, p) => Some (a :: h, p)
      | None => if code a =? 58 then Some ([], s) else None
      end
  end.
Definition has_byte (c : Z) (s : bytes) : bool := existsb (λ a, code a =? c) s.

Definition SplitHostPort (hostport : string) : option string :=
  match last_colon (to_bytes hostport) with
  | None => None
  | Some (before, port) =>
      if has_byte 91 port || has_byte 93 port then None else
      match before with
      | a :: rest =>
          if code a =? 91 then
            match rev rest with
            | z :: host =>
                if (code z =? 93) && negb (has_byte 91 host) && negb (has_byte 93 host)
                then Some (of_bytes (rev host)) else None
            | [] => None
            end
          else if has_byte 58 before || has_byte 91 before || has_byte 93 before then None
          else Some (of_bytes before)
      | [] => Some ""%string
      end
  end.

Example routing_ex :
  let req p m := MkRequest m "" p ∅ "" [] None in
  let pats := ["/livez"; "/v1/reward-claims"]%string in
  mux_match pats (req "/livez" "GET")%string = Some (Some "/livez"%string)
  ∧ mux_match pats (req "/v1/reward%2Dclaims" "GET")%string = Some (Some "/v1/reward-claims"%string)
  ∧ mux_match pats (req "/v1%2Freward-claims" "GET")%string = Some None
  ∧ mux_match pats (req "/livez/" "GET")%string = Some None
  ∧ mux_match pats (req "/" "GET")%string = Some None
  ∧ mux_match pats (req "//livez" "GET")%string = None
  ∧ mux_match pats (req "/a/../livez" "GET")%string = None
  ∧ mux_match pats (req "*" "OPTIONS")%string = None.
Proof. vm_compute. repeat split. Qed.

Example split_host_port_ex :
  SplitHostPort "10.0.0.1:8080" = Some "10.0.0.1"%string
  ∧ SplitHostPort "[::1]:8080" = Some "::1"%string
  ∧ SplitHostPort "::1:8080" = None ∧ SplitHostPort "[::1]" = None
  ∧ SplitHostPort "pipe" = None ∧ SplitHostPort ":80" = Some ""%string.
Proof. vm_compute. repeat split. Qed.

End Http.
