(* ===== verification/Metrics.v ===== *)
(** * Metrics (internal/observability)

    registry.go, http.go, rewards.go and worker.go.  client_golang is a library:
    what the package does is the sequence of calls it makes to it, the collectors
    it declares and registers, and the label values it passes. *)
From S2P Require Import Prelude.
From S2P Require Import GoErrors.
From S2P Require Import Prog.
From S2P Require Import GoStrings.
From S2P Require Import GoJson.
From S2P Require Import Rewards.
From S2P Require Import Outbox.
From S2P Require Import Worker.
From S2P Require Import GoParse.
From S2P Require Import Http.
From Stdlib Require Import Ascii Floats.SpecFloat.
Local Open Scope Z_scope.

Module Metrics.
Import GoParse.

(** ** Calls to client_golang *)

(** The options of a collector; the buckets of a histogram are in thousandths of
    a second. *)
Inductive kind := CounterVec | HistogramVec (buckets : list Z).
Record Collector := MkCollector {
  Kind : kind;
  Namespace : string;
  Subsystem : string;
  Name : string;
  Help : string;
  Labels : list string
}.

Inductive call :=
| CRegisterGoCollector
| CRegisterProcessCollector
| CRegister (c : Collector)
| CInc (c : Collector) (values : list string)       (* c.WithLabelValues(values...).Inc() *)
| CObserve (c : Collector) (values : list string) (seconds : spec_float).

Definition reply (c : call) : Type :=
  match c with
  | CRegisterGoCollector | CRegisterProcessCollector | CRegister _ => option goerr
  | CInc _ _ | CObserve _ _ _ => unit
  end.

Abbreviation mprog := (Prog.prog reply).

(** [duration.Seconds()]: the whole seconds plus the rest, in float64. *)
Definition Duration_Seconds (d : Z) : spec_float :=
  SFadd prec emax (float64 (Z.quot d Second))
    (SFdiv prec emax (float64 (Z.rem d Second)) (float64 1000000000)).

(** ** registry.go *)

Definition namespace : string := "game_rewards".

Definition NewRegistry : mprog (result goerr unit) :=
  eff! err := perform (resp := reply) CRegisterGoCollector in
  match err with
  | Some err => Ret (Err (EWrap "register Go collector" err))
  | None =>
      eff! err := perform (resp := reply) CRegisterProcessCollector in
      match err with
      | Some err => Ret (Err (EWrap "register process collector" err))
      | None => Ret (Ok tt)
      end
  end.

(** [http.Error] and the handler of [promhttp]: the latter answers GET requests. *)
Definition http_Error (message : string) (status : Z) : list Http.wop :=
  [Http.ODel "Content-Length"; Http.OSet "Content-Type" "text/plain; charset=utf-8";
   Http.OSet "X-Content-Type-Options" "nosniff"; Http.OWriteHeader status;
   Http.OWrite (to_bytes message ++ [chr 10])].

Definition Handler (promhttp : Http.Request → list Http.wop * option Http.panic) (r : Http.Request)
  : list Http.wop * option Http.panic :=
  if negb (bool_decide (r.(Http.Method) = "GET")%string)
  then (Http.OSet "Allow" "GET" :: http_Error "Method not allowed" 405, None)
  else promhttp r.

Fixpoint register_all (collectors : list Collector) : mprog (result goerr unit) :=
  match collectors with
  | [] => Ret (Ok tt)
  | collector :: collectors =>
      eff! err := perform (resp := reply) (CRegister collector) in
      match err with
      | Some err => Ret (Err err)
      | None => register_all collectors
      end
  end.

(** The registerer is given by whether it is non-nil. *)
Definition register (registerer : bool) (collectors : list Collector) : mprog (result goerr unit) :=
  if negb registerer then Ret (Err (ENew "metrics registerer must not be nil"))
  else register_all collectors.

(** ** http.go *)

Definition durationBuckets : list Z := [5; 10; 25; 50; 100; 250; 500; 1000; 2500; 5000; 10000].

Record HTTPMetrics := MkHTTPMetrics { requests : Collector; duration : Collector }.

Definition http_metrics : HTTPMetrics := {|
  requests := MkCollector CounterVec namespace "http" "requests_total"
    "Total number of HTTP requests handled." ["route"; "method"; "status_code"];
  duration := MkCollector (HistogramVec durationBuckets) namespace "http"
    "request_duration_seconds" "HTTP request duration in seconds." ["route"; "method"]
|}%string.

Definition NewHTTPMetrics (registerer : bool) : mprog (result goerr HTTPMetrics) :=
  do! _ := register registerer [http_metrics.(requests); http_metrics.(duration)] in
  Ret (Ok http_metrics).

Definition normalizeRoute (route : string) : string :=
  if bool_decide (route ∈ ["/livez"; "/readyz"; "/metrics"; "/v1/reward-claims"; "unknown"])%string
  then route else "unknown".

Definition normalizeMethod (method : string) : string :=
  if bool_decide (method ∈ ["GET"; "POST"])%string then method else "other".

(** The methods observe; on a nil receiver they do nothing. *)
Definition HTTP_ObserveRequest (m : option HTTPMetrics) (route method : string) (status d : Z)
  : list call :=
  match m with
  | None => []
  | Some m =>
      let route := normalizeRoute route in
      let method := normalizeMethod method in
      let statusCode := if (100 <=? status) && (status <=? 599) then strconv_Itoa status
                        else "unknown"%string in
      [CInc m.(requests) [route; method; statusCode];
       CObserve m.(duration) [route; method] (Duration_Seconds d)]
  end.

(** ** rewards.go *)

Record RewardMetrics := MkRewardMetrics { claims : Collector; idempotency : Collector }.

Definition reward_metrics : RewardMetrics := {|
  claims := MkCollector CounterVec namespace "reward_claim" "operations_total"
    "Total reward claim operations by outcome." ["outcome"];
  idempotency := MkCollector CounterVec namespace "idempotency" "operations_total"
    "Total idempotency operations by outcome." ["outcome"]
|}%string.

Definition NewRewardMetrics (registerer : bool) : mprog (result goerr RewardMetrics) :=
  do! _ := register registerer [reward_metrics.(claims); reward_metrics.(idempotency)] in
  Ret (Ok reward_metrics).

Definition mapClaimSuccess (result : Rewards.CreateClaimResult) : string :=
  if result.(Rewards.Replayed) then
    if result.(Rewards.StatusCode) =? 201 then "replayed_created"
    else if result.(Rewards.StatusCode) =? 409 then "replayed_already_claimed"
    else "internal_error"
  else
    if result.(Rewards.StatusCode) =? 201 then "created"
    else if result.(Rewards.StatusCode) =? 409 then "already_claimed"
    else "internal_error".

Definition mapIdempotencySuccess (result : Rewards.CreateClaimResult) : string :=
  if result.(Rewards.Replayed) then "replayed" else "new".

Definition ObserveRewardClaim (m : option RewardMetrics) (result : Rewards.CreateClaimResult)
    (err : option goerr) : list call :=
  match m with
  | None => []
  | Some m =>
      match err with
      | None =>
          [CInc m.(idempotency) [mapIdempotencySuccess result];
           CInc m.(claims) [mapClaimSuccess result]]
      | Some err =>
          if errors_Is err rewards_ErrIdempotencyKeyReused then
            [CInc m.(claims) ["idempotency_key_reused"]; CInc m.(idempotency) ["key_reused"]]%string
          else if errors_Is err context_Canceled || errors_Is err context_DeadlineExceeded then
            [CInc m.(claims) ["canceled"]; CInc m.(idempotency) ["canceled"]]%string
          else if errors_Is err rewards_ErrUnavailable then
            [CInc m.(claims) ["unavailable"]; CInc m.(idempotency) ["failed"]]%string
          else
            [CInc m.(claims) ["internal_error"]; CInc m.(idempotency) ["failed"]]%string
      end
  end.

(** ** worker.go *)

Record WorkerMetrics := MkWorkerMetrics {
  claim_attempts : Collector;
  publishAttempts : Collector;
  publishDuration : Collector;
  published : Collector;
  retries : Collector;
  deadLetters : Collector;
  leaseLosses : Collector;
  operationErrors : Collector
}.

Definition worker_metrics : WorkerMetrics := {|
  claim_attempts := MkCollector CounterVec namespace "outbox" "claim_attempts_total"
    "Total outbox claim attempts by outcome." ["outcome"];
  publishAttempts := MkCollector CounterVec namespace "outbox" "publish_attempts_total"
    "Total outbox publish attempts by event type and outcome." ["event_type"; "outcome"];
  publishDuration := MkCollector (HistogramVec durationBuckets) namespace "outbox"
    "publish_duration_seconds" "Outbox publisher duration in seconds." ["event_type"; "outcome"];
  published := MkCollector CounterVec namespace "outbox" "events_published_total"
    "Total outbox events successfully published and finalized." ["event_type"];
  retries := MkCollector CounterVec namespace "outbox" "retries_scheduled_total"
    "Total outbox retries successfully scheduled." ["event_type"; "failure_reason"];
  deadLetters := MkCollector CounterVec namespace "outbox" "events_dead_lettered_total"
    "Total outbox events successfully moved to dead letter." ["event_type"; "failure_reason"];
  leaseLosses := MkCollector CounterVec namespace "outbox" "lease_losses_total"
    "Total outbox lease ownership losses by operation." ["event_type"; "operation"];
  operationErrors := MkCollector CounterVec namespace "outbox" "operation_errors_total"
    "Total outbox worker operation errors." ["operation"]
|}%string.

Definition worker_collectors (m : WorkerMetrics) : list Collector :=
  [m.(claim_attempts); m.(publishAttempts); m.(publishDuration); m.(published); m.(retries);
   m.(deadLetters); m.(leaseLosses); m.(operationErrors)].

Definition NewWorkerMetrics (registerer : bool) : mprog (result goerr WorkerMetrics) :=
  do! _ := register registerer (worker_collectors worker_metrics) in
  Ret (Ok worker_metrics).

Definition normalizeEventType (eventType : string) : string :=
  if bool_decide (eventType = "RewardClaimed")%string then "reward_claimed" else "unknown".

(** The outcomes and operations of the outbox package are strings in Go; these
    functions take any string. *)
Definition normalizeClaimOutcome (outcome : string) : string :=
  if bool_decide (outcome ∈ ["claimed"; "empty"; "error"])%string then outcome else "error".

Definition normalizePublishOutcome (outcome : string) : string :=
  if bool_decide (outcome ∈ ["success"; "failed"; "timeout"; "canceled"])%string
  then outcome else "failed".

Definition normalizeFailureReason (outcome : string) : string :=
  if bool_decide (outcome ∈ ["failed"; "timeout"; "canceled"])%string then outcome else "unknown".

Definition normalizeOperation (operation : string) : string :=
  if bool_decide (operation ∈ ["claim"; "mark_published"; "schedule_retry"; "mark_dead_letter"])%string
  then operation else "unknown".

Definition ObserveClaim (m : WorkerMetrics) (outcome : string) : list call :=
  [CInc m.(claim_attempts) [normalizeClaimOutcome outcome]].

Definition ObservePublish (m : WorkerMetrics) (eventType outcome : string) (d : Z) : list call :=
  let eventType := normalizeEventType eventType in
  let publishOutcome := normalizePublishOutcome outcome in
  [CInc m.(publishAttempts) [eventType; publishOutcome];
   CObserve m.(publishDuration) [eventType; publishOutcome] (Duration_Seconds d)].

Definition ObservePublished (m : WorkerMetrics) (eventType : string) : list call :=
  [CInc m.(published) [normalizeEventType eventType]].

Definition ObserveRetry (m : WorkerMetrics) (eventType outcome : string) : list call :=
  [CInc m.(retries) [normalizeEventType eventType; normalizeFailureReason outcome]].

Definition ObserveDeadLetter (m : WorkerMetrics) (eventType outcome : string) : list call :=
  [CInc m.(deadLetters) [normalizeEventType eventType; normalizeFailureReason outcome]].

Definition ObserveLeaseLoss (m : WorkerMetrics) (eventType operation : string) : list call :=
  [CInc m.(leaseLosses) [normalizeEventType eventType; normalizeOperation operation]].

Definition ObserveOperationError (m : WorkerMetrics) (operation : string) : list call :=
  [CInc m.(operationErrors) [normalizeOperation operation]].

(** The metrics as the worker's observer; on a nil receiver its methods do
    nothing. *)
Definition worker_observer (m : option WorkerMetrics) (o : Worker.observation) : list call :=
  match m with
  | None => []
  | Some m =>
      match o with
      | Worker.ObserveClaim outcome => ObserveClaim m (Outbox.claim_outcome_string outcome)
      | Worker.ObservePublish et outcome d => ObservePublish m et (Outbox.outcome_string outcome) d
      | Worker.ObservePublished et => ObservePublished m et
      | Worker.ObserveRetry et outcome => ObserveRetry m et (Outbox.outcome_string outcome)
      | Worker.ObserveDeadLetter et outcome => ObserveDeadLetter m et (Outbox.outcome_string outcome)
      | Worker.ObserveLeaseLoss et op => ObserveLeaseLoss m et (Outbox.operation_string op)
      | Worker.ObserveOperationError op => ObserveOperationError m (Outbox.operation_string op)
      end
  end.

End Metrics.
