(* ===== verification/HttpCalls.v ===== *)
(** * The calls an HTTP handler makes, and the JSON responses

    The effects of the handlers of internal/httpapi, internal/adminhttp and
    internal/health, and the response helpers each package defines. *)
From S2P Require Import Prelude.
From S2P Require Import GoErrors.
From S2P Require Import Prog.
From S2P Require Import GoStrings.
From S2P Require Import GoJson.
From S2P Require Import Rewards.
From S2P Require Import Http.
From Stdlib Require Import Ascii.
Local Open Scope Z_scope.

Module HttpCalls.
Import Http.

Inductive level := LevelDebug | LevelInfo | LevelWarn | LevelError.

Inductive call :=
| CCreateClaim (requestID : string) (cmd : Rewards.CreateClaimCommand)
| CCheck (name : string)                    (* a readiness check *)
| CMetrics (r : Request)                    (* the handler promhttp built *)
| CCtx                                      (* r.Context().Err() *)
| CSince                                    (* time.Since(started) *)
| CRand                                     (* rand.Read of 16 bytes *)
| CStack                                    (* debug.Stack() *)
| CObserveRequest (route method : string) (status duration : Z)
| CObserveClaim (result : Rewards.CreateClaimResult) (err : option goerr)
| CLog (l : level) (message : string) (attrs : list (string * string)).

(** The service, the checks and the metrics handler may panic. *)
Definition reply (c : call) : Type :=
  match c with
  | CCreateClaim _ _ => result panic (result goerr Rewards.CreateClaimResult)
  | CCheck _ => result panic (option goerr)
  | CMetrics _ => list wop * option panic
  | CCtx => ctx_state
  | CSince => Z
  | CRand => list Z
  | CStack => string
  | CObserveRequest _ _ _ _ | CObserveClaim _ _ | CLog _ _ _ => unit
  end.

Abbreviation H := (handler (reply := reply)).

(** [http.Server], as the two constructors fill it; its [ErrorLog] only receives
    net/http's own messages. *)
Record http_Server := MkHttpServer {
  srv_Addr : string;
  srv_Handler : Request → H ResponseWriter unit;
  srv_ReadTimeout : Z;
  srv_ReadHeaderTimeout : Z;
  srv_WriteTimeout : Z;
  srv_IdleTimeout : Z;
  srv_MaxHeaderBytes : Z;
  srv_MaxHeaderValueCount : Z
}.

Definition attr (key value : string) : string * string := (key, value).

(** [w.Header().Set], [w.WriteHeader] and [w.Write] on a recorder. *)
Definition set_header (key value : string) : H statusRecorder unit := hstep (rec_op (OSet key value)).
Definition del_header (key : string) : H statusRecorder unit := hstep (rec_op (ODel key)).
Definition write_header (status : Z) : H statusRecorder unit := hstep (rec_WriteHeader status).
Definition write (b : bytes) : H statusRecorder unit := hstep (rec_Write b).

(** [json.NewEncoder(w).Encode(body)]: one write, ended by a newline. *)
Definition encode (v : json) : H statusRecorder unit := write (marshal v ++ [chr 10]).

(** response.go, health.go and adminhttp/server.go: [writeJSON]. *)
Definition writeJSON (status : Z) (v : json) : H statusRecorder unit :=
  run! _ := set_header "Content-Type" "application/json" in
  run! _ := write_header status in
  encode v.

Definition writeRawJSON (status : Z) (b : string) : H statusRecorder unit :=
  run! _ := set_header "Content-Type" "application/json" in
  run! _ := write_header status in
  write (to_bytes b).

(** [errorResponse{Error: errorBody{Code: code, Message: message}}] *)
Definition error_body (code message : string) : json := Rewards.errorResponse code message.

Definition writeError (status : Z) (code message : string) : H statusRecorder unit :=
  writeJSON status (error_body code message).

Definition errorCodeInternal : string := "internal_error".
Definition errorCodeMethodNotAllowed : string := "method_not_allowed".
Definition errorCodeNotFound : string := "not_found".

Definition writeMethodNotAllowed (allowedMethods : list string) : H statusRecorder unit :=
  run! _ := set_header "Allow" (String.concat ", " allowedMethods) in
  writeError 405 errorCodeMethodNotAllowed "Method not allowed".

End HttpCalls.
