(* ===== verification/Health.v ===== *)
(** * Liveness and readiness (internal/health/health.go) *)
From S2P Require Import Prelude.
From S2P Require Import GoErrors.
From S2P Require Import Prog.
From S2P Require Import GoStrings.
From S2P Require Import GoJson.
From S2P Require Import Http.
From S2P Require Import HttpCalls.
From Stdlib Require Import Ascii.
Local Open Scope Z_scope.

Module Health.
Import Http HttpCalls.

Definition statusOK : string := "ok".
Definition statusReady : string := "ready".
Definition statusNotReady : string := "not_ready".

(** A check, by its name and whether its function is set. *)
Record Check := MkCheck { Name : string; HasCheck : bool }.

Definition response (status : string) : json := string_object [("status", status)]%string.

(** A [map[string]string] as the list its JSON is written from: sorted by key,
    assignment overwriting. *)
Fixpoint map_set (k v : string) (m : list (string * string)) : list (string * string) :=
  match m with
  | [] => [(k, v)]
  | (k', v') :: m' =>
      match String.compare k k' with
      | Lt => (k, v) :: m
      | Eq => (k, v) :: m'
      | Gt => (k', v') :: map_set k v m'
      end
  end.

Definition readinessResponse (status : string) (checks : list (string * string)) : json :=
  JObject [("status", JString status); ("checks", string_object checks)]%string.

Definition errorResponse (code message : string) : json :=
  JObject [("error", JObject [("code", JString code); ("message", JString message)])]%string.

Definition writeJSON (status : Z) (v : json) : H statusRecorder unit :=
  run! _ := set_header "Content-Type" "application/json" in
  run! _ := write_header status in
  encode v.

Definition writeMethodNotAllowed (allowedMethods : list string) : H statusRecorder unit :=
  run! _ := set_header "Allow" (String.concat ", " allowedMethods) in
  writeJSON 405 (errorResponse "method_not_allowed" "Method not allowed").

Definition LiveHandler (r : Request) : H statusRecorder unit :=
  if negb (bool_decide (r.(Method) = "GET")%string) then writeMethodNotAllowed ["GET"%string]
  else writeJSON 200 (response statusOK).

(** The loop over the checks: the status code, the status and the results. *)
Fixpoint run_checks (checks : list Check) (acc : Z * string * list (string * string))
  : H statusRecorder (Z * string * list (string * string)) :=
  match checks with
  | [] => hret acc
  | c :: checks =>
      let '(statusCode, status, results) := acc in
      let failed := (503, statusNotReady, map_set c.(Name) "error" results) in
      if negb c.(HasCheck) then run_checks checks failed
      else
        run! reply := hcall (reply := reply) (CCheck c.(Name)) in
        run! err := hlift reply in
        match err with
        | Some _ => run_checks checks failed
        | None => run_checks checks (statusCode, status, map_set c.(Name) statusOK results)
        end
  end.

Definition ReadyHandler (checks : list Check) (r : Request) : H statusRecorder unit :=
  if negb (bool_decide (r.(Method) = "GET")%string) then writeMethodNotAllowed ["GET"%string]
  else
    run! (statusCode, status, results) := run_checks checks (200, statusReady, []) in
    writeJSON statusCode (readinessResponse status results).

End Health.
