(* ===== verification/HttpApi.v ===== *)
(** * The HTTP API (internal/httpapi)

    reward_claims.go, middleware.go, request_context.go, routes.go and server.go,
    as handlers over the calls they make. *)
From S2P Require Import Prelude.
From S2P Require Import GoErrors.
From S2P Require Import Prog.
From S2P Require Import GoStrings.
From S2P Require Import GoJson.
From S2P Require Import Rewards.
From S2P Require Import Config.
From S2P Require Import JsonDecode.
From S2P Require Import Mime.
From S2P Require Import Http.
From S2P Require Import HttpCalls.
From S2P Require Import Health.
From Stdlib Require Import Ascii.
Local Open Scope Z_scope.

Module HttpApi.
Import Http HttpCalls.

(** ** reward_claims.go *)

Definition routeRewardClaims : string := "/v1/reward-claims".
Definition headerIdempotencyKey : string := "Idempotency-Key".
Definition headerIdempotentReplayed : string := "Idempotent-Replayed".
Definition maxIdempotencyKeyLength : Z := 255.
Definition maxRewardClaimBodyBytes : Z := 64 * 1024.

Definition errorCodeInvalidIdempotencyKey : string := "invalid_idempotency_key".
Definition errorCodeIdempotencyKeyRequired : string := "idempotency_key_required".
Definition errorCodeIdempotencyKeyReused : string := "idempotency_key_reused".
Definition errorCodeInvalidJSON : string := "invalid_json".
Definition errorCodeInvalidRequest : string := "invalid_request".
Definition errorCodeRequestBodyTooLarge : string := "request_body_too_large".
Definition errorCodeUnsupportedMediaType : string := "unsupported_media_type".
Definition errorCodeUnavailable : string := "service_unavailable".

(** [rewardClaimValidationError]; the handler only tells the first one apart. *)
Inductive keyError := errMissingIdempotencyKey | rewardClaimValidationError (message : string).

Definition validateIdempotencyKey (value : string) : result keyError unit :=
  if bool_decide (value = "")%string then
    Err (rewardClaimValidationError "idempotency key is empty")
  else if maxIdempotencyKeyLength <? len value then
    Err (rewardClaimValidationError "idempotency key too long")
  else if existsb (λ r, (r <? 0x20) || (r =? 0x7f)) (runes value) then
    Err (rewardClaimValidationError "idempotency key contains control character")
  else Ok tt.

Definition readIdempotencyKey (h : headers) : result keyError string :=
  match header_Values h headerIdempotencyKey with
  | [] => Err errMissingIdempotencyKey
  | [value] =>
      let value := strings_TrimSpace value in
      let! _ := validateIdempotencyKey value in
      Ok value
  | _ => Err (rewardClaimValidationError "multiple idempotency keys")
  end.

Definition isJSONContentType (value : string) : bool :=
  Mime.ParseMediaType_is value "application/json".

Definition isJSONWhitespaceOnly (body : bytes) : bool := forallb is_ws body.

(** The three classes [writeDecodeError] tells apart. *)
Inductive decodeError := BodyTooLarge | UnknownField | OtherDecodeError.

Definition writeDecodeError (err : decodeError) : H statusRecorder unit :=
  match err with
  | BodyTooLarge => writeError 413 errorCodeRequestBodyTooLarge "Request body is too large"
  | UnknownField => writeError 400 errorCodeInvalidRequest "Request body contains an unknown field"
  | OtherDecodeError => writeError 400 errorCodeInvalidJSON "Request body must be valid JSON"
  end.

(** [None] after an error response. *)
Definition decodeCreateRewardClaimRequest (r : Request)
  : H statusRecorder (option JsonDecode.createRewardClaimRequest) :=
  match read_body maxRewardClaimBodyBytes r with
  | Err err =>
      run! _ := writeDecodeError (match err with MaxBytesError => BodyTooLarge
                                               | ReadError _ => OtherDecodeError end) in
      hret None
  | Ok body =>
      if isJSONWhitespaceOnly body then
        run! _ := writeError 400 errorCodeInvalidJSON "Request body is required" in
        hret None
      else
        match JsonDecode.Unmarshal body with
        | JsonDecode.DUnknownName => run! _ := writeDecodeError UnknownField in hret None
        | JsonDecode.DInvalid => run! _ := writeDecodeError OtherDecodeError in hret None
        | JsonDecode.DNull =>
            run! _ := writeError 400 errorCodeInvalidJSON
                        "Request body must contain a JSON object" in
            hret None
        | JsonDecode.DRequest req => hret (Some req)
        end
  end.

Definition isRequestContextError (ctx : ctx_state) (err : goerr) : bool := is_ctx_error ctx err.

Definition logCreateClaimError (requestID : string) (err : goerr) : H statusRecorder unit :=
  let failed l errorClass :=
    hcall (reply := reply)
      (CLog l "reward claim request failed"
         [attr "request_id" requestID; attr "operation" "reward_claim_create";
          attr "error_class" errorClass]) in
  if errors_Is err rewards_ErrUnavailable then failed LevelWarn "unavailable"%string
  else if errors_Is err rewards_ErrInternal then failed LevelError "internal"%string
  else if bool_decide (is_Some (errors_As as_InvalidInput err))
          || errors_Is err rewards_ErrIdempotencyKeyReused then hret tt
  else failed LevelError "unexpected"%string.

Definition writeCreateClaimError (err : goerr) : H statusRecorder unit :=
  if errors_Is err rewards_ErrIdempotencyKeyReused then
    writeError 409 errorCodeIdempotencyKeyReused
      "Idempotency-Key was reused with a different request payload"
  else match errors_As as_InvalidInput err with
       | Some message => writeError 400 errorCodeInvalidRequest message
       | None =>
           if errors_Is err rewards_ErrUnavailable then
             writeError 503 errorCodeUnavailable "Service unavailable"
           else if errors_Is err rewards_ErrInternal then
             writeError 500 errorCodeInternal "Internal server error"
           else writeError 500 errorCodeInternal "Internal server error"
       end.

Definition zero_result : Rewards.CreateClaimResult := Rewards.Result 0 "" false.

(** After the service returned. *)
Definition respondCreateClaim (requestID : string) (observer : bool)
    (res : result goerr Rewards.CreateClaimResult) : H statusRecorder unit :=
  let '(result, err) := match res with Ok result => (result, None)
                                     | Err err => (zero_result, Some err) end in
  let invalid := match err with
                 | Some err => bool_decide (is_Some (errors_As as_InvalidInput err))
                 | None => false
                 end in
  run! _ := (if negb invalid && observer
             then hcall (reply := reply) (CObserveClaim result err) else hret tt) in
  match err with
  | Some err =>
      run! ctx := hcall (reply := reply) CCtx in
      if isRequestContextError ctx err then hret tt
      else
        run! _ := logCreateClaimError requestID err in
        writeCreateClaimError err
  | None =>
      run! _ := (if result.(Rewards.Replayed)
                 then set_header headerIdempotentReplayed "true" else hret tt) in
      writeRawJSON result.(Rewards.StatusCode) result.(Rewards.ResponseBody)
  end.

Definition claim_command (req : JsonDecode.createRewardClaimRequest) (idempotencyKey : string)
  : Rewards.CreateClaimCommand :=
  Rewards.Command req.(JsonDecode.PlayerID) req.(JsonDecode.CampaignID)
    req.(JsonDecode.RewardID) idempotencyKey.

Definition rewardClaimsHandler (observer : bool) (requestID : string) (r : Request)
  : H statusRecorder unit :=
  if negb (bool_decide (r.(Method) = "POST")%string) then writeMethodNotAllowed ["POST"%string]
  else match readIdempotencyKey r.(Header) with
  | Err errMissingIdempotencyKey =>
      writeError 400 errorCodeIdempotencyKeyRequired "Idempotency-Key header is required"
  | Err _ =>
      writeError 400 errorCodeInvalidIdempotencyKey "Idempotency-Key header is invalid"
  | Ok idempotencyKey =>
      if negb (isJSONContentType (header_Get r.(Header) "Content-Type")) then
        writeError 415 errorCodeUnsupportedMediaType "Content-Type must be application/json"
      else
        run! req := decodeCreateRewardClaimRequest r in
        match req with
        | None => hret tt
        | Some req =>
            run! res := hcall (reply := reply)
                          (CCreateClaim requestID (claim_command req idempotencyKey)) in
            run! res := hlift res in
            respondCreateClaim requestID observer res
        end
  end.

(** ** routes.go *)

Definition routeLivez : string := "/livez".
Definition routeReadyz : string := "/readyz".
Definition routeMetrics : string := "/metrics".

(** server.go: [ServerObservability] and the dependencies of [NewServer], by
    whether they are set. *)
Record Server := MkServer {
  metricsHandler : bool;
  requestObserver : bool;
  rewardClaimObserver : bool;
  readinessChecks : list Health.Check
}.

Definition routes (s : Server) : list string :=
  [routeLivez; routeReadyz] ++ (if s.(metricsHandler) then [routeMetrics] else [])
  ++ [routeRewardClaims].

(** A handler outside the repository: what it did to the writer, and its panic. *)
Definition metrics (r : Request) : H statusRecorder unit :=
  run! (ops, p) := hcall (reply := reply) (CMetrics r) in
  run! _ := hops ops in
  match p with Some p => hpanic p | None => hret tt end.

Definition mux {M : ServeMux} (s : Server) (requestID : string) (r : Request)
  : H statusRecorder unit :=
  match mux_match (routes s) r with
  | None => hops (mux_answer r)
  | Some None => writeError 404 errorCodeNotFound "Not found"
  | Some (Some route) =>
      if bool_decide (route = routeLivez) then Health.LiveHandler r
      else if bool_decide (route = routeReadyz) then Health.ReadyHandler s.(readinessChecks) r
      else if bool_decide (route = routeMetrics) then metrics r
      else rewardClaimsHandler s.(rewardClaimObserver) requestID r
  end.

(** ** middleware.go *)

Definition headerRequestID : string := "X-Request-ID".
Definition maxRequestIDLen : Z := 128.
Definition maxUserAgentLogLen : Z := 256.

Definition isAllowedRequestIDRune (r : Z) : bool :=
  ((97 <=? r) && (r <=? 122)) || ((65 <=? r) && (r <=? 90)) || ((48 <=? r) && (r <=? 57))
  || (r =? 45) || (r =? 95) || (r =? 46) || (r =? 58).

Definition sanitizeRequestID (value : string) : string :=
  let value := strings_TrimSpace value in
  if bool_decide (value = "")%string || (maxRequestIDLen <? len value) then ""
  else if forallb isAllowedRequestIDRune (runes value) then value else "".

Definition newRequestID (b : list Z) : string := hex_EncodeToString b.

Definition routeName (r : Request) : string :=
  if bool_decide (r.(Path) ∈ [routeLivez; routeReadyz; routeMetrics; routeRewardClaims])
  then r.(Path) else "unknown".

Definition clientIP (r : Request) : string :=
  match SplitHostPort r.(RemoteAddr) with Some host => host | None => r.(RemoteAddr) end.

Definition truncateString (value : string) (maxLen : Z) : string :=
  if len value <=? maxLen then value
  else of_bytes (take (Z.to_nat maxLen) (to_bytes value)).

Definition isAdminRoute (route : string) : bool :=
  bool_decide (route ∈ [routeLivez; routeReadyz; routeMetrics]).

Definition secureHeaders (next : H statusRecorder unit) : H statusRecorder unit :=
  run! _ := set_header "X-Content-Type-Options" "nosniff" in
  run! _ := set_header "Referrer-Policy" "no-referrer" in
  next.

(** The recovered value is nil when the handler returned. *)
Definition handleRecoveredPanic (requestID : string) (recovered : option panic)
  : H statusRecorder bool :=
  match recovered with
  | None => hret false
  | Some ErrAbortHandler =>
      run! _ := hstep (λ r, (set_status 0 r, Ok tt)) in
      hret true
  | Some (PanicValue type) =>
      run! stack := hcall (reply := reply) CStack in
      run! _ := hcall (reply := reply)
                  (CLog LevelError "panic recovered"
                     [attr "panic_type" type; attr "request_id" requestID;
                      attr "stack" stack]) in
      run! wrote := hstep (λ r, (r, Ok r.(wroteHeader))) in
      if wrote then
        run! _ := hstep (λ r, (set_status 0 r, Ok tt)) in
        hret true
      else
        run! _ := del_header "Content-Length" in
        run! _ := writeError 500 errorCodeInternal "Internal server error" in
        hret false
  end.

Definition duration_ms (d : Z) : string := strconv_Itoa (Z.quot d 1000000).

(** No response was written and the request's context ended: no implicit 200. *)
Definition context_status : H statusRecorder unit :=
  run! wrote := hstep (λ r, (r, Ok r.(wroteHeader))) in
  if wrote then hret tt
  else
    run! ctx := hcall (reply := reply) CCtx in
    match ctx_Err ctx with
    | Some _ => hstep (λ r, (set_status 0 r, Ok tt))
    | None => hret tt
    end.

(** The observation, the log line, and the panic that aborts the connection. *)
Definition record_request (observer : bool) (requestID : string) (r : Request) (abort : bool)
  : H statusRecorder unit :=
  run! duration := hcall (reply := reply) CSince in
  run! st := hstep (λ r, (r, Ok r.(status))) in
  let route := routeName r in
  run! _ := (if observer
             then hcall (reply := reply) (CObserveRequest route r.(Method) st duration)
             else hret tt) in
  let l := if (st <? 400) && isAdminRoute route then LevelDebug else LevelInfo in
  run! _ := hcall (reply := reply)
              (CLog l "http request"
                 [attr "request_id" requestID; attr "method" r.(Method); attr "route" route;
                  attr "status" (strconv_Itoa st); attr "duration_ms" (duration_ms duration);
                  attr "remote_addr" (clientIP r);
                  attr "user_agent" (truncateString (UserAgent r) maxUserAgentLogLen)]) in
  if abort then hpanic ErrAbortHandler else hret tt.

(** The deferred function of [requestLogger]. *)
Definition finish_request (observer : bool) (requestID : string) (r : Request)
    (recovered : option panic) : H statusRecorder unit :=
  run! abort := handleRecoveredPanic requestID recovered in
  run! _ := context_status in
  record_request observer requestID r abort.

(** The recorder wraps the writer for [next]; the deferred function runs on it
    whether [next] returned or panicked. *)
Definition requestLogger (observer : bool) (next : H statusRecorder unit) (requestID : string)
    (r : Request) : H ResponseWriter unit :=
  λ w, pbind (next (MkRecorder w 200 false)) (λ out,
       pbind (finish_request observer requestID r
                (match out.2 with Ok _ => None | Err p => Some p end) out.1) (λ out,
       Ret (out.1.(rw), out.2))).

(** request_context.go: the values of a request's context, latest first, with the
    one key the package stores under. *)
Inductive contextKey := requestIDContextKey.
#[export] Instance contextKey_eq_dec : EqDecision contextKey.
Proof. solve_decision. Defined.

Abbreviation request_context := (list (contextKey * string)).

Definition contextWithRequestID (ctx : request_context) (requestID : string) : request_context :=
  (requestIDContextKey, requestID) :: ctx.

Definition requestIDFromRequest (ctx : request_context) : string :=
  match List.find (λ kv, bool_decide (kv.1 = requestIDContextKey)) ctx with
  | Some (_, requestID) => requestID
  | None => ""
  end.

(** [requestID] of the middleware: the identifier is passed on in the context,
    here that of a request as net/http makes it, without values. *)
Definition with_requestID (next : request_context → Request → H ResponseWriter unit) (r : Request)
  : H ResponseWriter unit :=
  let serve requestID :=
    run! _ := hstep (λ w, (w_Header (header_Set headerRequestID requestID) w, Ok tt)) in
    next (contextWithRequestID [] requestID) r in
  let requestID := sanitizeRequestID (header_Get r.(Header) headerRequestID) in
  if bool_decide (requestID = "")%string then
    run! b := hcall (reply := reply) CRand in
    serve (newRequestID b)
  else serve requestID.

(** Handlers and the logger read the identifier from the context they are given. *)
Definition withMiddleware (handler : string → Request → H statusRecorder unit) (observer : bool)
  : Request → H ResponseWriter unit :=
  with_requestID (λ ctx r,
    requestLogger observer (secureHeaders (handler (requestIDFromRequest ctx) r))
      (requestIDFromRequest ctx) r).

(** routes.go: [newRouter]. *)
Definition newRouter {M : ServeMux} (s : Server) : Request → H ResponseWriter unit :=
  withMiddleware (mux s) s.(requestObserver).

(** server.go: [NewServer] refuses a nil logger or service. *)
Definition maxRequestHeaderBytes : Z := 32 * 1024.
Definition maxRequestHeaderValueCount : Z := 500.

Definition NewServer {M : ServeMux} (cfg : Config.HTTPConfig) (logger rewardClaims : bool)
    (observability : Server) : result goerr http_Server :=
  if negb logger then Err (ENew "http logger is required")
  else if negb rewardClaims then Err (ENew "reward claim service is required")
  else Ok {|
    srv_Addr := cfg.(Config.Addr);
    srv_Handler := newRouter observability;
    srv_ReadTimeout := cfg.(Config.ReadTimeout);
    srv_ReadHeaderTimeout := cfg.(Config.ReadHeaderTimeout);
    srv_WriteTimeout := cfg.(Config.WriteTimeout);
    srv_IdleTimeout := cfg.(Config.IdleTimeout);
    srv_MaxHeaderBytes := maxRequestHeaderBytes;
    srv_MaxHeaderValueCount := maxRequestHeaderValueCount
  |}.

End HttpApi.
