(* ===== verification/AdminHttp.v ===== *)
(** * The worker's admin server (internal/adminhttp/server.go)

    Health and metrics of the worker process, behind the same recorder as the API
    (the package defines its own [statusRecorder], identical to the one of
    internal/httpapi, which Http models) and a middleware of its own. *)
From S2P Require Import Prelude.
From S2P Require Import GoErrors.
From S2P Require Import Prog.
From S2P Require Import GoStrings.
From S2P Require Import GoJson.
From S2P Require Import Config.
From S2P Require Import Http.
From S2P Require Import HttpCalls.
From S2P Require Import Health.
Local Open Scope Z_scope.

Module AdminHttp.
Import Http HttpCalls.

Definition routeLivez : string := "/livez".
Definition routeReadyz : string := "/readyz".
Definition routeMetrics : string := "/metrics".
Definition maxRequestHeaderBytes : Z := 32 * 1024.
Definition maxRequestHeaderValueCount : Z := 500.

(** The dependencies of [NewServer], by whether they are set. *)
Record Server := MkServer {
  metricsHandler : bool;
  observer : bool;
  checks : list Health.Check
}.

Definition routeName (r : Request) : string :=
  if bool_decide (r.(Path) ∈ [routeLivez; routeReadyz; routeMetrics]) then r.(Path) else "unknown".

(** The body is a map of maps, encoded with sorted keys. *)
Definition writeError (status : Z) (code message : string) : H statusRecorder unit :=
  writeJSON status
    (JObject [("error", string_object [("code", code); ("message", message)])]%string).

Definition notFound (r : Request) : H statusRecorder unit :=
  writeError 404 "not_found" "Not found".

(** The handler given to [NewServer]: what it did to the writer, and its panic. *)
Definition metrics (r : Request) : H statusRecorder unit :=
  run! (ops, p) := hcall (reply := reply) (CMetrics r) in
  run! _ := hops ops in
  match p with Some p => hpanic p | None => hret tt end.

Definition routes (s : Server) : list string :=
  [routeLivez; routeReadyz] ++ (if s.(metricsHandler) then [routeMetrics] else []).

Definition mux {M : ServeMux} (s : Server) (r : Request) : H statusRecorder unit :=
  match mux_match (routes s) r with
  | None => hops (mux_answer r)
  | Some None => notFound r
  | Some (Some route) =>
      if bool_decide (route = routeLivez) then Health.LiveHandler r
      else if bool_decide (route = routeReadyz) then Health.ReadyHandler s.(checks) r
      else metrics r
  end.

(** The recovered value is nil when the handler returned. *)
Definition handleRecoveredPanic (recovered : option panic) : H statusRecorder bool :=
  match recovered with
  | None => hret false
  | Some ErrAbortHandler =>
      run! _ := hstep (λ r, (set_status 0 r, Ok tt)) in
      hret true
  | Some (PanicValue type) =>
      run! stack := hcall (reply := reply) CStack in
      run! _ := hcall (reply := reply)
                  (CLog LevelError "worker admin panic recovered"
                     [attr "panic_type" type; attr "stack" stack]) in
      run! wrote := hstep (λ r, (r, Ok r.(wroteHeader))) in
      if wrote then
        run! _ := hstep (λ r, (set_status 0 r, Ok tt)) in
        hret true
      else
        run! _ := del_header "Content-Length" in
        run! _ := writeError 500 "internal_error" "Internal server error" in
        hret false
  end.

(** The deferred function of [requestLogger]. *)
Definition finish_request (s : Server) (r : Request) (recovered : option panic)
  : H statusRecorder unit :=
  run! abort := handleRecoveredPanic recovered in
  run! duration := hcall (reply := reply) CSince in
  run! st := hstep (λ r, (r, Ok r.(status))) in
  let route := routeName r in
  run! _ := (if s.(observer)
             then hcall (reply := reply) (CObserveRequest route r.(Method) st duration)
             else hret tt) in
  let l := if 400 <=? st then LevelWarn else LevelDebug in
  run! _ := hcall (reply := reply)
              (CLog l "worker admin request"
                 [attr "method" r.(Method); attr "route" route; attr "status" (strconv_Itoa st);
                  attr "duration_ms" (strconv_Itoa (Z.quot duration 1000000))]) in
  if abort then hpanic ErrAbortHandler else hret tt.

Definition requestLogger (s : Server) (next : Request → H statusRecorder unit) (r : Request)
  : H ResponseWriter unit :=
  λ w, pbind (next r (MkRecorder w 200 false)) (λ out,
       pbind (finish_request s r (match out.2 with Ok _ => None | Err p => Some p end) out.1) (λ out,
       Ret (out.1.(rw), out.2))).

Definition secureHeaders (next : Request → H ResponseWriter unit) (r : Request)
  : H ResponseWriter unit :=
  run! _ := hstep (λ w, (w_Header (header_Set "X-Content-Type-Options" "nosniff") w, Ok tt)) in
  run! _ := hstep (λ w, (w_Header (header_Set "Referrer-Policy" "no-referrer") w, Ok tt)) in
  next r.

Definition middleware (s : Server) (next : Request → H statusRecorder unit)
  : Request → H ResponseWriter unit := secureHeaders (requestLogger s next).

Definition NewServer {M : ServeMux} (cfg : Config.HTTPConfig) (s : Server) : http_Server :=
  {|
    srv_Addr := cfg.(Config.Addr);
    srv_Handler := middleware s (mux s);
    srv_ReadTimeout := cfg.(Config.ReadTimeout);
    srv_ReadHeaderTimeout := cfg.(Config.ReadHeaderTimeout);
    srv_WriteTimeout := cfg.(Config.WriteTimeout);
    srv_IdleTimeout := cfg.(Config.IdleTimeout);
    srv_MaxHeaderBytes := maxRequestHeaderBytes;
    srv_MaxHeaderValueCount := maxRequestHeaderValueCount
  |}.

End AdminHttp.
