(* ===== verification/HttpLogic.v ===== *)
(** * Reasoning about HTTP handlers

    The program logic of ProgLogic for handlers, which also have a writer, and
    what the status recorder guarantees. *)
From S2P Require Import Prelude.
From S2P Require Import GoErrors.
From S2P Require Import Prog.
From S2P Require Import GoStrings.
From S2P Require Import GoJson.
From S2P Require Import Http.
From S2P Require Import HttpCalls.
From S2P Require Import ProgLogic.
Local Open Scope Z_scope.

Module HttpLogic.
Import Http HttpCalls.

Export ProgLogic.

Abbreviation environment := (ProgLogic.environment (reply := reply)).

(** ** Handlers *)

Section Handlers.
Context {G : Type} (step : G → call → option G) (R : ∀ c : call, reply c → Prop).
Local Abbreviation wp := (ProgLogic.wp step R).

(** Handlers: from a ghost state and a writer. *)
Definition hwp {S A} (g : G) (s : S) (h : H S A) (Q : G → S → result panic A → Prop) : Prop :=
  wp g (h s) (λ g r, Q g r.1 r.2).

Lemma hwp_mono {S A} g s (h : H S A) (Q Q' : G → S → result panic A → Prop) :
  hwp g s h Q → (∀ g s r, Q g s r → Q' g s r) → hwp g s h Q'.
Proof. intros H HQ. eapply wp_mono; [exact H|]. intros ? []. apply HQ. Qed.

Lemma hwp_ret {S A} g (s : S) (a : A) (Q : G → S → result panic A → Prop) :
  Q g s (Ok a) → hwp g s (hret a) Q.
Proof. done. Qed.

Lemma hwp_panic {S A} g (s : S) p (Q : G → S → result panic A → Prop) :
  Q g s (Err p) → hwp g s (hpanic p) Q.
Proof. done. Qed.

Lemma hwp_lift {S A} g (s : S) (r : result panic A) (Q : G → S → result panic A → Prop) :
  Q g s r → hwp g s (hlift r) Q.
Proof. by destruct r. Qed.

Lemma hwp_bind {S A B} g (s : S) (m : H S A) (k : A → H S B) Q :
  hwp g s m (λ g s r, match r with Ok a => hwp g s (k a) Q | Err p => Q g s (Err p) end) →
  hwp g s (hbind m k) Q.
Proof.
  intros Hm. apply wp_pbind. eapply wp_mono; [exact Hm|]. intros g' [s' [a|p]]; done.
Qed.

Lemma hwp_call {S} g (s : S) c (Q : G → S → result panic (reply c) → Prop) g' :
  step g c = Some g' → (∀ r, R c r → Q g' s (Ok r)) → hwp g s (hcall c) Q.
Proof. intros Hs HQ. exists g'. split; [done|]. intros r Hr. by apply HQ. Qed.

Lemma hwp_step {S A} g (s : S) (f : S → S * result panic A) Q :
  Q g (f s).1 (f s).2 → hwp g s (hstep f) Q.
Proof. done. Qed.

End Handlers.

(** The status of a log line. *)
Definition log_status (attrs : list (string * string)) : string :=
  default ""%string (snd <$> find (λ kv, bool_decide (kv.1 = "status")%string) attrs).

(** ** The status recorder *)

(** The headers the middleware sets on every response. *)
Definition protected : list string :=
  ["X-Request-Id"; "X-Content-Type-Options"; "Referrer-Policy"]%string.
Definition unprotected (key : string) : Prop := CanonicalHeaderKey key ∉ protected.

(** Statuses that end the response's header; operations of foreign handlers that
    end it, if at all, with such a status and leave the protected headers, or set
    the one that [http.Error] also sets to the same value. *)
Definition final_status (s : Z) : Prop := 200 ≤ s ≤ 999.
Definition final_op (o : wop) : Prop :=
  match o with
  | OWriteHeader s => final_status s
  | OSet k v => unprotected k ∨ (CanonicalHeaderKey k = "X-Content-Type-Options"
                                 ∧ v = "nosniff")%string
  | ODel k => unprotected k
  | OWrite _ => True
  end.

(** What only depends on the protected headers, and asks for [nosniff]. *)
Class ProtectedOnly (P : headers → Prop) : Prop := {
  protected_only h h' : (∀ k, k ∈ protected → h !! k = h' !! k) → P h → P h';
  protected_nosniff h : P h → P (<["X-Content-Type-Options" := ["nosniff"]]> h)%string
}.

Section Recorder.
Context (P : headers → Prop) `{HP : !ProtectedOnly P}.

(** The recorder knows what was sent, and the headers satisfy [P]. *)
Definition recorder_ok (r : statusRecorder) : Prop :=
  P r.(rw).(hdr)
  ∧ match r.(rw).(sent) with
    | Some (s, h) => r.(wroteHeader) = true ∧ r.(status) = s ∧ P h
    | None => r.(wroteHeader) = false ∧ r.(status) = 200
    end.

Lemma final_WriteHeader s r :
  final_status s → recorder_ok r →
  (rec_WriteHeader s r).2 = Ok tt ∧ recorder_ok (rec_WriteHeader s r).1.
Proof.
  unfold final_status, recorder_ok, rec_WriteHeader, w_WriteHeader. intros Hs [Hh Hr].
  destruct (sent (rw r)) as [[s' h]|] eqn:Hsent.
  - destruct Hr as (Hw & Hst & HPh). rewrite Hw. simpl. by rewrite Hsent.
  - destruct Hr as [-> _].
    destruct (Z.ltb_spec s 100); [lia|]. destruct (Z.ltb_spec 999 s); [lia|]. simpl.
    destruct (Z.leb_spec s 199); [lia|]. rewrite andb_false_r. done.
Qed.

(** Writing a body after the header. *)
Lemma write_body_ok b r :
  recorder_ok r → r.(wroteHeader) = true → recorder_ok (on_rw (w_Write b) r).
Proof.
  unfold recorder_ok, on_rw, w_Write. simpl. intros [Hh Hr] Ht.
  destruct (sent (rw r)) as [[s h]|] eqn:Hsent; [|naive_solver].
  destruct (body_allowed s); simpl; by rewrite ?Hsent.
Qed.

Lemma WriteHeader_wrote s r r' :
  rec_WriteHeader s r = (r', Ok tt) → r'.(wroteHeader) = true.
Proof.
  unfold rec_WriteHeader. destruct (wroteHeader r) eqn:Ht; [by intros [= <-]|].
  destruct (w_WriteHeader s (rw r)) as [w [[]|p]]; by intros [= <-].
Qed.

Lemma recorder_Write b r :
  recorder_ok r → (rec_Write b r).2 = Ok tt ∧ recorder_ok (rec_Write b r).1.
Proof.
  intros Hr. unfold rec_Write. destruct (wroteHeader r) eqn:Ht; [by split; [|apply write_body_ok]|].
  destruct (final_WriteHeader 200 r) as [H1 H2]; [by unfold final_status|done|].
  destruct (rec_WriteHeader 200 r) as [r' res] eqn:Hw'. simpl in *. subst res. split; [done|].
  apply write_body_ok; [done|]. by eapply WriteHeader_wrote.
Qed.

Lemma recorder_header f r :
  (∀ h k, k ∈ protected → f h !! k = h !! k) →
  recorder_ok r → recorder_ok (on_rw (w_Header f) r).
Proof.
  unfold recorder_ok. intros Hf [Hh Hr]. split; [|done]. simpl.
  eapply protected_only; [|exact Hh]. intros k Hk. by rewrite Hf.
Qed.

Lemma recorder_set k v r :
  unprotected k → recorder_ok r → recorder_ok (on_rw (w_Header (header_Set k v)) r).
Proof.
  intros Hk. apply recorder_header. intros h k' Hk'. unfold header_Set.
  rewrite lookup_insert_ne; [done|]. intros Heq. apply Hk. by rewrite Heq.
Qed.

Lemma recorder_del k r :
  unprotected k → recorder_ok r → recorder_ok (on_rw (w_Header (header_Del k)) r).
Proof.
  intros Hk. apply recorder_header. intros h k' Hk'. unfold header_Del.
  rewrite lookup_delete_ne; [done|]. intros Heq. apply Hk. by rewrite Heq.
Qed.

Lemma recorder_nosniff k r :
  CanonicalHeaderKey k = "X-Content-Type-Options"%string → recorder_ok r →
  recorder_ok (on_rw (w_Header (header_Set k "nosniff")) r).
Proof.
  unfold recorder_ok, header_Set. intros Hk [Hh Hr]. split; [|done]. simpl. rewrite Hk.
  by apply protected_nosniff.
Qed.

Lemma rec_op_ok o r :
  final_op o → recorder_ok r → (rec_op o r).2 = Ok tt ∧ recorder_ok (rec_op o r).1.
Proof.
  destruct o as [k v|k|s|b]; simpl; intros Ho Hr.
  - split; [done|]. destruct Ho as [Ho|[Hk ->]]; [by apply recorder_set|by apply recorder_nosniff].
  - by split; [|apply recorder_del].
  - by apply final_WriteHeader.
  - by apply recorder_Write.
Qed.

End Recorder.

End HttpLogic.
