(* ===== verification/HttpWrites.v ===== *)
(** * What writing a response does to the recorder

    Triples for the response helpers and the health handlers, for any protocol of
    calls and any property of the middleware's headers, shared by the two servers
    of the service (internal/httpapi and internal/adminhttp). *)
From S2P Require Import Prelude.
From S2P Require Import GoErrors.
From S2P Require Import Prog.
From S2P Require Import GoStrings.
From S2P Require Import GoJson.
From S2P Require Import Http.
From S2P Require Import HttpCalls.
From S2P Require Import Health.
From S2P Require Import HttpLogic.
Local Open Scope Z_scope.

Module HttpWrites.
Import Http HttpCalls HttpLogic.

Lemma unprotected_dec key : bool_decide (CanonicalHeaderKey key ∉ protected) = true → unprotected key.
Proof. apply bool_decide_eq_true_1. Qed.

(** Setting or deleting a header the middleware does not use. *)
Ltac header_ok_del :=
  apply recorder_del; [apply _|apply unprotected_dec; vm_compute; reflexivity|done].
Ltac header_ok :=
  apply recorder_set; [apply _|apply unprotected_dec; vm_compute; reflexivity|done].

Section Writes.
Context {G : Type} {step : G → call → option G} {R : ∀ c : call, reply c → Prop}.
Context (P : headers → Prop) `{HP : !ProtectedOnly P}.

Local Abbreviation triple := (hwp step R).
Local Abbreviation good := (recorder_ok P).

Implicit Type Q : G → statusRecorder → result panic unit → Prop.

Lemma writeJSON_triple g rec st v Q :
  final_status st → good rec →
  (∀ rec', good rec' → Q g rec' (Ok tt)) → triple g rec (writeJSON st v) Q.
Proof.
  intros Hst Hrec HQ. apply hwp_bind, hwp_step. simpl. apply hwp_bind, hwp_step.
  destruct (final_WriteHeader P st
              (on_rw (w_Header (header_Set "Content-Type" "application/json")) rec))
    as [-> Hr]; [done|header_ok|].
  apply hwp_step.
  match goal with |- Q g (rec_Write ?b ?r').1 _ =>
    destruct (recorder_Write P b r' Hr) as [-> Hr2] end. by apply HQ.
Qed.

Lemma writeRawJSON_triple g rec st b Q :
  final_status st → good rec →
  (∀ rec', good rec' → Q g rec' (Ok tt)) → triple g rec (writeRawJSON st b) Q.
Proof.
  intros Hst Hrec HQ. apply hwp_bind, hwp_step. simpl. apply hwp_bind, hwp_step.
  destruct (final_WriteHeader P st
              (on_rw (w_Header (header_Set "Content-Type" "application/json")) rec))
    as [-> Hr]; [done|header_ok|].
  apply hwp_step.
  match goal with |- Q g (rec_Write ?b ?r').1 _ =>
    destruct (recorder_Write P b r' Hr) as [-> Hr2] end. by apply HQ.
Qed.

Lemma writeError_triple g rec st c m Q :
  final_status st → good rec →
  (∀ rec', good rec' → Q g rec' (Ok tt)) → triple g rec (writeError st c m) Q.
Proof. apply writeJSON_triple. Qed.

Lemma methodNotAllowed_triple g rec ms Q :
  good rec → (∀ rec', good rec' → Q g rec' (Ok tt)) → triple g rec (writeMethodNotAllowed ms) Q.
Proof.
  intros Hrec HQ. apply hwp_bind, hwp_step. simpl.
  apply writeError_triple; [by unfold final_status|header_ok|done].
Qed.

Lemma hops_triple g rec ops Q :
  Forall final_op ops → good rec →
  (∀ rec', good rec' → Q g rec' (Ok tt)) → triple g rec (hops ops) Q.
Proof.
  intros Hops. revert rec. induction Hops as [|o ops Ho _ IH]; intros rec Hrec HQ; simpl.
  { by apply HQ. }
  apply hwp_bind, hwp_step. destruct (rec_op_ok P o rec Ho Hrec) as [-> Hr]. by apply IH.
Qed.

Lemma live_triple g r rec Q :
  good rec → (∀ rec', good rec' → Q g rec' (Ok tt)) → triple g rec (Health.LiveHandler r) Q.
Proof.
  intros Hrec HQ. unfold Health.LiveHandler. case_bool_decide; cbn [negb].
  - by apply writeJSON_triple.
  - by apply methodNotAllowed_triple.
Qed.

(** The checks of a readiness request may panic; otherwise the status is 200 or
    503. *)
Definition quiet_checks (g : G) (checks : list Health.Check) : Prop :=
  Forall (λ c, step g (CCheck c.(Health.Name)) = Some g) checks.

Lemma run_checks_status g rec checks acc
    (Q' : G → statusRecorder → result panic (Z * string * list (string * string)) → Prop) :
  quiet_checks g checks → final_status acc.1.1 →
  (∀ st status results, final_status st → Q' g rec (Ok (st, status, results))) →
  (∀ p, Q' g rec (Err p)) →
  triple g rec (Health.run_checks checks acc) Q'.
Proof.
  intros Hquiet Hacc HQ HQp. revert acc Hacc.
  induction Hquiet as [|c checks Hc _ IH]; intros [[st status] results] Hacc; simpl in *.
  { by apply hwp_ret, HQ. }
  destruct (negb (Health.HasCheck c)); [by apply IH|].
  apply hwp_bind. eapply hwp_call; [exact Hc|]. intros x _.
  apply hwp_bind, hwp_lift. destruct x as [[e|]|p]; [by apply IH|by apply IH|apply HQp].
Qed.

Lemma ready_triple g checks r rec Q :
  quiet_checks g checks → good rec → (∀ rec' out, good rec' → Q g rec' out) →
  triple g rec (Health.ReadyHandler checks r) Q.
Proof.
  intros Hquiet Hrec HQ. unfold Health.ReadyHandler. case_bool_decide; cbn [negb].
  - apply hwp_bind, run_checks_status; [done|done| |intros; by apply HQ].
    intros st status results Hst. apply writeJSON_triple; [done..|]. intros rec' ?. by apply HQ.
  - apply methodNotAllowed_triple; [done|]. intros rec' ?. by apply HQ.
Qed.
(** What was sent has the property. *)
Definition sent_ok (w : ResponseWriter) : Prop :=
  match w.(sent) with Some (_, h) => P h | None => True end.

Lemma recorder_sent rec : good rec → sent_ok rec.(rw).
Proof.
  unfold recorder_ok, sent_ok. intros [_ H]. destruct (sent (rw rec)) as [[]|]; naive_solver.
Qed.

End Writes.

End HttpWrites.
