(* ===== verification/HttpFacts.v ===== *)
(** * What the HTTP API guarantees (internal/httpapi)

    The protocol every request follows, which command reaches the service, and
    how the service's outcome becomes a response. *)
From S2P Require Import Prelude.
From S2P Require Import GoErrors.
From S2P Require Import Prog.
From S2P Require Import GoStrings.
From S2P Require Import GoJson.
From S2P Require Import Rewards.
From S2P Require Import JsonDecode.
From S2P Require Import Http.
From S2P Require Import HttpCalls.
From S2P Require Import Health.
From S2P Require Import HttpApi.
From S2P Require Import HttpLogic.
From S2P Require Import HttpWrites.
From Stdlib Require Import Ascii.
Local Open Scope Z_scope.

Module HttpFacts.
Import Http HttpCalls HttpApi HttpLogic HttpWrites.

#[export] Instance command_eq_dec : EqDecision Rewards.CreateClaimCommand.
Proof. solve_decision. Defined.

(** ** The command of a request *)

(** What a well-formed request asks the service for: a specification over the parts
    of the handler, which [rewardClaimsHandler_triple] and [handler_answers] show the
    handler itself to follow. *)
Definition request_command (r : Request) : option Rewards.CreateClaimCommand :=
  if bool_decide (r.(Method) = "POST")%string
     && isJSONContentType (header_Get r.(Header) "Content-Type")
  then
    match readIdempotencyKey r.(Header), read_body maxRewardClaimBodyBytes r with
    | Ok key, Ok body =>
        match JsonDecode.Unmarshal body with
        | JsonDecode.DRequest req => Some (claim_command req key)
        | _ => None
        end
    | _, _ => None
    end
  else None.

(** ** The protocol of one request *)

(** How many claims were asked for, whether their outcome was observed, the
    status given to the request observer, and the status in the final log line. *)
Record progress := MkProgress {
  claims : nat;
  claim_observed : bool;
  observed : option Z;
  logged : option string
}.
Definition start : progress := MkProgress 0 false None None.

(** At most one claim, with the command of the request; its outcome observed at
    most once and after it; the request observed at most once, under one of the
    fixed route labels; one final log line, after everything else. *)
Definition protocol (s : Server) (r : Request) (g : progress) (c : call) : option progress :=
  match g.(logged) with
  | Some _ => None
  | None =>
      match c with
      | CCreateClaim _ cmd =>
          if bool_decide (g.(claims) = 0%nat) && bool_decide (g.(observed) = None)
             && bool_decide (request_command r = Some cmd)
          then Some (MkProgress 1 false None None) else None
      | CObserveClaim _ _ =>
          if bool_decide (g.(claims) = 1%nat) && negb g.(claim_observed)
          then Some (MkProgress g.(claims) true g.(observed) None) else None
      | CObserveRequest route method st _ =>
          if bool_decide (g.(observed) = None) && s.(requestObserver)
             && bool_decide (route ∈ ["unknown"%string; routeLivez; routeReadyz; routeMetrics;
                                      routeRewardClaims])
          then Some (MkProgress g.(claims) g.(claim_observed) (Some st) None) else None
      | CLog _ message attrs =>
          if bool_decide (message = "http request")%string
          then Some (MkProgress g.(claims) g.(claim_observed) g.(observed)
                       (Some (log_status attrs)))
          else Some g
      | _ => Some g
      end
  end.

(** What the theorems ask of code outside the repository: the service answers
    with a final status, random bytes are bytes, and net/http's and promhttp's own
    handlers write final statuses only and leave the middleware's headers. *)
Definition sane_reply (c : call) : reply c → Prop :=
  match c with
  | CCreateClaim _ _ => λ r, match r with Ok (Ok res) => final_status res.(Rewards.StatusCode)
                                        | _ => True end
  | CMetrics _ => λ r, Forall final_op r.1
  | CRand => Rewards.bytes16
  | _ => λ _, True
  end.

(** The request is still being served. *)
Definition serving (g : progress) : Prop := g.(observed) = None ∧ g.(logged) = None.

(** Which route the mux chooses, and how many claims the request leads to. *)
Definition reaches_claims (s : Server) (r : Request) : bool :=
  bool_decide (mux_match (routes s) r = Some (Some routeRewardClaims)).
Definition expected_claims (s : Server) (r : Request) : nat :=
  if reaches_claims s r then match request_command r with Some _ => 1 | None => 0 end else 0.

(** ** Request identifiers *)

Lemma runes_ascii (l : bytes) :
  Forall (λ a, code a < RuneSelf) l → runes (of_bytes l) = code <$> l.
Proof.
  intros H. unfold runes. rewrite to_of_bytes. induction H as [|a l Ha _ IH]; [done|].
  simpl. unfold decode_rune, decode_valid. destruct (Z.ltb_spec (code a) RuneSelf); [|lia].
  cbn -[RuneSelf]. f_equal. exact IH.
Qed.

Lemma hex_digit_class d :
  0 ≤ d < 16 → isAllowedRequestIDRune (code (hex_digit d)) && visible (hex_digit d) = true.
Proof.
  apply (by_enumeration
    (λ d, isAllowedRequestIDRune (code (hex_digit d)) && visible (hex_digit d)) 16).
  vm_compute. reflexivity.
Qed.

Lemma hex_string_bytes b :
  Forall (λ x, 0 ≤ x < 256) b →
  ∃ l, hex_EncodeToString b = of_bytes l ∧ length l = (2 * length b)%nat
       ∧ Forall (λ a, isAllowedRequestIDRune (code a) = true ∧ visible a = true) l.
Proof.
  induction 1 as [|x b Hx _ (l & Hl & Hn & Hf)]; [by exists []|].
  exists (hex_digit (Z.shiftr x 4) :: hex_digit (Z.land x 15) :: l). simpl in *.
  rewrite Hl. split; [done|]. split; [lia|].
  assert (∀ d, 0 ≤ d < 16 → isAllowedRequestIDRune (code (hex_digit d)) = true
                            ∧ visible (hex_digit d) = true) as Hd.
  { intros d Hd. apply andb_true_iff, hex_digit_class, Hd. }
  constructor; [|constructor; [|done]]; apply Hd.
  - rewrite Z.shiftr_div_pow2 by lia. change (2 ^ 4) with 16.
    Z.to_euclidean_division_equations. lia.
  - change 15 with (Z.ones 4). rewrite Z.land_ones by lia. apply Z.mod_pos_bound. lia.
Qed.

(** ** The headers of every response *)

(** An identifier the middleware accepts, and the two fixed headers. *)
Definition valid_requestID (id : string) : Prop := id ≠ ""%string ∧ sanitizeRequestID id = id.
Definition secured (h : headers) : Prop :=
  (∃ id, h !! "X-Request-Id"%string = Some [id] ∧ valid_requestID id)
  ∧ h !! "X-Content-Type-Options"%string = Some ["nosniff"%string]
  ∧ h !! "Referrer-Policy"%string = Some ["no-referrer"%string].

#[export] Instance secured_protected : ProtectedOnly secured.
Proof.
  split.
  - intros h h' Heq ((id & Hid & Hv) & H1 & H2). unfold secured.
    rewrite <-!Heq by set_solver. by repeat split; [exists id|..].
  - intros h ((id & Hid & Hv) & H1 & H2).
    split; [exists id; by rewrite lookup_insert_ne|].
    split; [by rewrite lookup_insert_eq|by rewrite lookup_insert_ne].
Qed.

Local Abbreviation recorder_ok := (HttpLogic.recorder_ok secured).

Section Serving.
Context (s : Server) (r : Request).

Local Abbreviation triple := (hwp (protocol s r) sane_reply).

(** The shared triples, for the headers of this server. *)
Local Abbreviation writeJSON_triple := (HttpWrites.writeJSON_triple secured).
Local Abbreviation writeRawJSON_triple := (HttpWrites.writeRawJSON_triple secured).
Local Abbreviation writeError_triple := (HttpWrites.writeError_triple secured).
Local Abbreviation methodNotAllowed_triple := (HttpWrites.methodNotAllowed_triple secured).
Local Abbreviation hops_triple := (HttpWrites.hops_triple secured).
Local Abbreviation recorder_secured := (HttpWrites.recorder_sent secured).

(** While the request is served: the recorder is right and nothing was recorded. *)
Definition served (n : nat) (g : progress) (rec : statusRecorder) : Prop :=
  recorder_ok rec ∧ serving g ∧ g.(claims) = n.

Lemma quiet_call {S} g (rec : S) c (Q : progress → S → result panic (reply c) → Prop) :
  serving g →
  match c with CCreateClaim _ _ | CObserveRequest _ _ _ _ | CObserveClaim _ _ => False
             | CLog _ m _ => m ≠ "http request"%string | _ => True end →
  (∀ x, sane_reply c x → Q g rec (Ok x)) → triple g rec (hcall c) Q.
Proof.
  intros [_ Hl] Hc HQ. apply (hwp_call _ _ _ _ _ _ g); [|done].
  unfold protocol. rewrite Hl. destruct c; try done. by rewrite bool_decide_eq_false_2.
Qed.

Lemma whitespace_Unmarshal body :
  isJSONWhitespaceOnly body = true → JsonDecode.Unmarshal body = JsonDecode.DInvalid.
Proof.
  intros H. unfold JsonDecode.Unmarshal.
  assert (skip_ws body = []) as ->; [|done].
  induction body as [|a body IH]; [done|]. simpl in *.
  apply andb_true_iff in H as [-> Hb]. by apply IH.
Qed.

(** The decoder answers the request itself, or gives its fields and leaves the
    response alone. *)
Lemma decode_triple g rec Q :
  recorder_ok rec →
  (∀ rec' out,
     match out with
     | None => recorder_ok rec'
               ∧ match read_body maxRewardClaimBodyBytes r with
                 | Ok body => ∀ req, JsonDecode.Unmarshal body ≠ JsonDecode.DRequest req
                 | Err _ => True
                 end
     | Some req => rec' = rec ∧ ∃ body, read_body maxRewardClaimBodyBytes r = Ok body
                                        ∧ JsonDecode.Unmarshal body = JsonDecode.DRequest req
     end → Q g rec' (Ok out)) →
  triple g rec (decodeCreateRewardClaimRequest r) Q.
Proof.
  intros Hrec HQ. unfold decodeCreateRewardClaimRequest, writeDecodeError.
  assert (∀ st c m, final_status st → read_body maxRewardClaimBodyBytes r = Err MaxBytesError
    ∨ (∃ e, read_body maxRewardClaimBodyBytes r = Err (ReadError e))
    ∨ (∃ body, read_body maxRewardClaimBodyBytes r = Ok body
               ∧ ∀ req, JsonDecode.Unmarshal body ≠ JsonDecode.DRequest req) →
    triple g rec (hbind (writeError st c m) (λ _, hret None)) Q) as Hreject.
  { intros st c m Hst Hwhy. apply hwp_bind, writeError_triple; [done..|].
    intros rec' Hrec'. apply HQ. split; [done|].
    destruct Hwhy as [-> |[[e ->]|(body & -> & Hne)]]; done. }
  destruct (read_body maxRewardClaimBodyBytes r) as [body|[|e]] eqn:Hbody.
  - destruct (isJSONWhitespaceOnly body) eqn:Hws.
    { apply Hreject; [done|]. right. right. exists body.
      by rewrite whitespace_Unmarshal. }
    destruct (JsonDecode.Unmarshal body) as [req| | |] eqn:Hu.
    + apply hwp_ret, HQ. split; [done|]. by exists body.
    + apply Hreject; [done|]. right. right. exists body. by rewrite Hu.
    + apply Hreject; [done|]. right. right. exists body. by rewrite Hu.
    + apply Hreject; [done|]. right. right. exists body. by rewrite Hu.
  - apply Hreject; [done|]. by left.
  - apply Hreject; [done|]. right. left. by exists e.
Qed.

(** The two ways a piece of the handler ends: the recorder is right, nothing was
    recorded, and the number of claims is the expected one. *)
Definition ends (n : nat) : progress → statusRecorder → result panic unit → Prop :=
  λ g rec _, served n g rec.

Lemma respond_triple g rec id obs res :
  g = MkProgress 1 false None None → recorder_ok rec →
  match res with Ok result => final_status result.(Rewards.StatusCode) | Err _ => True end →
  triple g rec (respondCreateClaim id obs res) (ends 1).
Proof.
  intros -> Hrec Hfinal. unfold respondCreateClaim.
  assert (∀ b, served 1 (MkProgress 1 b None None) rec) as Hserved by done.
  assert (∀ b err, triple (MkProgress 1 b None None) rec
            (hbind (hcall (reply := reply) CCtx) (λ ctx,
               if isRequestContextError ctx err then hret tt
               else hbind (logCreateClaimError id err) (λ _, writeCreateClaimError err))) (ends 1))
    as Herr.
  { intros b err. apply hwp_bind, quiet_call; [done|done|]. intros ctx _.
    destruct (isRequestContextError ctx err); [by apply hwp_ret|].
    assert (triple (MkProgress 1 b None None) rec (writeCreateClaimError err) (ends 1)) as Hwrite.
    { unfold writeCreateClaimError.
      repeat case_match; (apply writeError_triple; [done|done|]); by intros rec' ?. }
    apply hwp_bind. unfold logCreateClaimError.
    repeat case_match; first [by apply hwp_ret | apply quiet_call; [done|done|by intros ? _]]. }
  assert (∀ b result, final_status result.(Rewards.StatusCode) →
            triple (MkProgress 1 b None None) rec
              (hbind (if result.(Rewards.Replayed)
                      then set_header headerIdempotentReplayed "true" else hret tt) (λ _,
                 writeRawJSON result.(Rewards.StatusCode) result.(Rewards.ResponseBody))) (ends 1))
    as Hok.
  { intros b result Hst. apply hwp_bind. destruct (Rewards.Replayed result).
    - apply hwp_step. simpl. apply writeRawJSON_triple; [done|header_ok|].
      by intros rec' ?.
    - apply hwp_ret. apply writeRawJSON_triple; [done|done|]. by intros rec' ?. }
  destruct res as [result|err]; apply hwp_bind; (case_match;
    [eapply hwp_call; [reflexivity|intros ? _]|apply hwp_ret]).
  - by apply Hok.
  - by apply Hok.
  - apply Herr.
  - apply Herr.
Qed.

Lemma protocol_claim id cmd :
  request_command r = Some cmd →
  protocol s r start (CCreateClaim id cmd) = Some (MkProgress 1 false None None).
Proof. intros H. unfold protocol. by rewrite (bool_decide_eq_true_2 _ H). Qed.

Lemma rewardClaimsHandler_triple id obs rec :
  recorder_ok rec →
  triple start rec (rewardClaimsHandler obs id r)
    (ends (match request_command r with Some _ => 1 | None => 0 end)).
Proof.
  intros Hrec. unfold rewardClaimsHandler, request_command.
  assert (∀ n rec', recorder_ok rec' → n = 0%nat → served n start rec') as Hstart by (by intros ? ? ? ->).
  case_bool_decide as Hpost; cbn [negb andb].
  2: { apply methodNotAllowed_triple; [done|]. intros rec' ?. by apply Hstart. }
  destruct (readIdempotencyKey (Header r)) as [key|[|m]] eqn:Hkey.
  2: { apply writeError_triple; [done|done|]. intros rec' ?. apply Hstart; [done|by destruct (isJSONContentType _)]. }
  2: { apply writeError_triple; [done|done|]. intros rec' ?. apply Hstart; [done|by destruct (isJSONContentType _)]. }
  destruct (isJSONContentType _) eqn:Hct; cbn [negb andb].
  2: { apply writeError_triple; [done|done|]. intros rec' ?. by apply Hstart. }
  apply hwp_bind, decode_triple; [done|]. intros rec' [req|].
  - intros (-> & body & Hbody & Hu). rewrite Hbody, Hu.
    apply hwp_bind. eapply hwp_call.
    { apply protocol_claim.
      unfold request_command. by rewrite bool_decide_eq_true_2, Hct, Hkey, Hbody, Hu by done. }
    intros res Hsane. apply hwp_bind, hwp_lift. destruct res as [res|p]; [|done].
    apply respond_triple; [done|done|]. by destruct res.
  - intros [Hr' Hne]. apply hwp_ret. apply Hstart; [done|].
    destruct (read_body _ r) as [body|]; [|done].
    destruct (JsonDecode.Unmarshal body) as [req| | |]; [by destruct (Hne req)|done..].
Qed.

Lemma metrics_triple rec : recorder_ok rec → triple start rec (metrics r) (ends 0).
Proof.
  intros Hrec. apply hwp_bind, quiet_call; [done|done|]. intros [ops p] Hops. simpl in Hops.
  apply hwp_bind, hops_triple; [done|done|]. intros rec' Hrec'. by destruct p.
Qed.

Lemma mux_triple {M : ServeMux} id rec :
  Forall final_op (mux_answer r) → recorder_ok rec →
  triple start rec (mux s id r) (ends (expected_claims s r)).
Proof.
  intros Hmux Hrec. unfold mux, expected_claims, reaches_claims.
  assert (∀ rec', recorder_ok rec' → served 0 start rec') as Hstart by done.
  destruct (mux_match (routes s) r) as [[route|]|] eqn:Hm.
  - assert (∀ p, p ≠ routeRewardClaims → route = p →
              bool_decide (Some (Some route) = Some (Some routeRewardClaims)) = false) as Hnot.
    { intros p Hp ->. apply bool_decide_eq_false. intros [= ?]. done. }
    destruct (bool_decide_reflect (route = routeLivez)) as [H1|H1]; [rewrite (Hnot routeLivez) by done; apply (live_triple secured); [done|]; by intros rec' ?|].
    destruct (bool_decide_reflect (route = routeReadyz)) as [H2|H2]; [rewrite (Hnot routeReadyz) by done; apply (ready_triple secured); [by apply Forall_true|done|]; by intros rec' out ?|].
    destruct (bool_decide_reflect (route = routeMetrics)) as [H3|H3]; [rewrite (Hnot routeMetrics) by done; by apply metrics_triple|].
    rewrite bool_decide_eq_true_2; [by apply rewardClaimsHandler_triple|].
    unfold mux_match in Hm. repeat case_match; simplify_eq.
    match goal with H : find _ _ = _ |- _ => apply find_some in H as [Hin _] end.
    unfold routes in Hin. destruct (metricsHandler s); simpl in Hin; naive_solver.
  - apply writeError_triple; [done|done|]. intros rec' ?. by apply Hstart.
  - apply hops_triple; [done|done|]. intros rec' ?. by apply Hstart.
Qed.

(** On a writer that only holds the request's identifier. *)
Lemma secureHeaders_triple g id w h Q :
  w.(sent) = None → w.(hdr) !! "X-Request-Id"%string = Some [id] → valid_requestID id →
  (∀ rec', recorder_ok rec' → triple g rec' h Q) →
  triple g (MkRecorder w 200 false) (secureHeaders h) Q.
Proof.
  intros Hw Hid Hv Hh. apply hwp_bind, hwp_step. simpl. apply hwp_bind, hwp_step. simpl.
  apply Hh. unfold HttpLogic.recorder_ok. simpl. rewrite Hw. split; [|done]. unfold header_Set.
  change (CanonicalHeaderKey "X-Content-Type-Options") with "X-Content-Type-Options"%string.
  change (CanonicalHeaderKey "Referrer-Policy") with "Referrer-Policy"%string.
  split; [exists id; by rewrite !lookup_insert_ne by done|].
  split; [by rewrite lookup_insert_ne, lookup_insert_eq by done|by rewrite lookup_insert_eq].
Qed.

Local Abbreviation sent_secured := (sent_ok secured).

(** ** The deferred function *)

(** The end of a request: its final log line and its observation carry the status
    the client got, 0 when the connection is aborted, and 200 or 0 when nothing
    was written. *)
Definition completed (n : nat) (g : progress) (w : ResponseWriter) (out : result panic unit) : Prop :=
  ∃ st, g.(logged) = Some (strconv_Itoa st)
        ∧ g.(observed) = (if s.(requestObserver) then Some st else None)
        ∧ g.(claims) = n ∧ sent_secured w
        ∧ match out with
          | Ok _ => match w.(sent) with Some (st', _) => st = st' | None => st = 200 ∨ st = 0 end
          | Err p => p = ErrAbortHandler ∧ st = 0
          end.

Lemma routeName_fixed :
  routeName r ∈ ["unknown"%string; routeLivez; routeReadyz; routeMetrics; routeRewardClaims].
Proof. unfold routeName. case_bool_decide as H; set_solver. Qed.

(** Whether the recovered panic aborts the connection, and the recorder then. *)
Lemma recovered_triple g id rec recovered Q :
  serving g → recorder_ok rec →
  (∀ rec', recorder_ok rec' → Q g rec' (Ok false)) →
  (∀ rec', status rec' = 0 → sent_secured rec'.(rw) → Q g rec' (Ok true)) →
  triple g rec (handleRecoveredPanic id recovered) Q.
Proof.
  intros Hg Hrec HQ Habort. unfold handleRecoveredPanic.
  pose proof (recorder_secured rec Hrec).
  destruct recovered as [[|type]|]; [|..|by apply hwp_ret, HQ].
  - apply hwp_bind, hwp_step, hwp_ret. by apply Habort.
  - apply hwp_bind, quiet_call; [done|done|]. intros stack _.
    apply hwp_bind, quiet_call; [done|done|]. intros _ _.
    apply hwp_bind, hwp_step. simpl. destruct (wroteHeader rec).
    + apply hwp_bind, hwp_step, hwp_ret. by apply Habort.
    + apply hwp_bind, hwp_step. simpl. apply hwp_bind, writeError_triple; [done|header_ok_del|].
      intros rec' Hrec'. by apply hwp_ret, HQ.
Qed.

(** After the status is known: observe, log, and panic again when aborting. *)
Lemma record_triple n g id rec (abort : bool) st :
  serving g → g.(claims) = n → status rec = st → sent_secured rec.(rw) →
  match rec.(rw).(sent) with
  | Some (st', _) => if abort then st = 0 else st = st'
  | None => if abort then st = 0 else st = 200 ∨ st = 0
  end →
  triple g rec (record_request s.(requestObserver) id r abort)
    (λ g' rec' out, completed n g' rec'.(rw) out).
Proof.
  intros [Hobs Hlog] Hn Hst Hsec Hsent. unfold record_request.
  apply hwp_bind, quiet_call; [done|done|]. intros duration _.
  apply hwp_bind, hwp_step. simpl. rewrite Hst. apply hwp_bind.
  assert (∀ g, g.(logged) = None → g.(claims) = n →
            g.(observed) = (if s.(requestObserver) then Some st else None) →
            ∀ l a, log_status a = strconv_Itoa st →
            triple g rec (hbind (hcall (reply := reply) (CLog l "http request" a))
              (λ _, if abort then hpanic ErrAbortHandler else hret tt))
              (λ g' rec' out, completed n g' rec'.(rw) out)) as Hfinal.
  { intros g' Hl' Hn' Ho' l a Ha. apply hwp_bind. eapply hwp_call.
    { unfold protocol. by rewrite Hl'. }
    intros _ _. destruct abort; (exists st; simpl; rewrite Ha; split; [done|]; split; [done|];
      split; [done|]; split; [done|]); [|done]. split; [done|]. by destruct (sent (rw rec)) as [[]|]. }
  destruct (requestObserver s) eqn:Hreq.
  - eapply hwp_call.
    { unfold protocol. rewrite Hlog, Hobs, Hreq.
      rewrite (bool_decide_eq_true_2 (routeName r ∈ _)) by apply routeName_fixed. done. }
    intros _ _. by apply Hfinal.
  - apply hwp_ret. by apply Hfinal.
Qed.

Lemma finish_triple n g id rec recovered :
  served n g rec →
  triple g rec (finish_request s.(requestObserver) id r recovered)
    (λ g' rec' out, completed n g' rec'.(rw) out).
Proof.
  intros (Hrec & Hg & Hn). unfold finish_request.
  apply hwp_bind, recovered_triple; [done|done|..].
  - intros rec' Hrec'. apply hwp_bind, hwp_bind, hwp_step. simpl.
    pose proof (recorder_secured rec' Hrec'). destruct Hrec' as [_ Hrec'].
    destruct (wroteHeader rec') eqn:Hw.
    + apply hwp_ret, (record_triple n g id rec' false (status rec')); try done.
      destruct (sent (rw rec')) as [[st h]|]; naive_solver.
    + destruct (sent (rw rec')) as [[st h]|] eqn:Hsent; [naive_solver|].
      destruct Hrec' as [_ Hst]. apply hwp_bind, quiet_call; [done|done|].
      intros ctx _. destruct (ctx_Err ctx).
      * apply hwp_step, (record_triple n g id (set_status 0 rec') false 0); try done.
        simpl. rewrite Hsent. by right.
      * apply hwp_ret, (record_triple n g id rec' false 200); try done.
        rewrite Hsent. by left.
  - intros rec' Hst Hsec. apply hwp_bind, hwp_bind, hwp_step. simpl.
    assert (∀ rec'', rec''.(rw) = rec'.(rw) → status rec'' = 0 →
      triple g rec'' (record_request s.(requestObserver) id r true)
        (λ g' rec' out, completed n g' rec'.(rw) out)) as Hdone.
    { intros rec'' Hrw Hst'. apply (record_triple n g id rec'' true 0);
        [done|done|done|by rewrite Hrw|]. by destruct (sent (rw rec'')) as [[]|]. }
    destruct (wroteHeader rec'); [by apply hwp_ret, Hdone|].
    apply hwp_bind, quiet_call; [done|done|]. intros ctx _.
    destruct (ctx_Err ctx); [apply hwp_step|apply hwp_ret]; by apply Hdone.
Qed.

(** ** The whole server *)

Lemma requestLogger_triple n g id (next : H statusRecorder unit) w :
  w.(sent) = None →
  triple g (MkRecorder w 200 false) next (ends n) →
  triple g w (requestLogger s.(requestObserver) next id r) (completed n).
Proof.
  intros Hw Hnext. unfold requestLogger, hwp. apply wp_pbind.
  eapply wp_mono; [exact Hnext|]. intros g' [rec out] Hserved. simpl in Hserved.
  apply wp_pbind. eapply wp_mono; [by apply (finish_triple n)|].
  intros g'' [rec'' out''] Hc. exact Hc.
Qed.

Lemma newRequestID_valid b : Rewards.bytes16 b → valid_requestID (newRequestID b).
Proof.
  intros [Hlen Hb]. destruct (hex_string_bytes b Hb) as (l & Hl & Hn & Hf).
  unfold valid_requestID, newRequestID. rewrite Hl, Hlen in *.
  assert (of_bytes l ≠ ""%string) as Hne by (by destruct l).
  assert (Forall (λ a, visible a = true) l) as Hvis by (eapply Forall_impl; [exact Hf|naive_solver]).
  split; [done|]. unfold sanitizeRequestID.
  rewrite TrimSpace_visible by (by rewrite to_of_bytes).
  rewrite bool_decide_eq_false_2 by done. cbn [orb].
  assert ((maxRequestIDLen <? len (of_bytes l)) = false) as ->.
  { apply Z.ltb_ge. unfold len, maxRequestIDLen. rewrite length_of_bytes. lia. }
  rewrite runes_ascii.
  - assert (forallb isAllowedRequestIDRune (code <$> l) = true) as ->; [|done].
    apply forallb_forall. intros x [a [-> Ha]]%list_elem_of_In%list_elem_of_fmap_1.
    rewrite Forall_forall in Hf. by apply Hf.
  - eapply Forall_impl; [exact Hvis|]. unfold visible, in_range, RuneSelf. simpl.
    intros a Ha. boolean. lia.
Qed.

Lemma sanitized_valid v : sanitizeRequestID v ≠ ""%string → valid_requestID (sanitizeRequestID v).
Proof.
  unfold valid_requestID, sanitizeRequestID. intros H. split; [done|].
  destruct (bool_decide _ || _) eqn:H1; [done|]. destruct (forallb _ _) eqn:H2; [|done].
  by rewrite TrimSpace_idem, H1, H2.
Qed.

Lemma router_triple {M : ServeMux} :
  Forall final_op (mux_answer r) →
  triple start new_writer (newRouter s r) (completed (expected_claims s r)).
Proof.
  intros Hmux. unfold newRouter, withMiddleware, with_requestID.
  assert (∀ id, valid_requestID id → triple start new_writer
    (hbind (hstep (λ w, (w_Header (header_Set headerRequestID id) w, Ok tt))) (λ _,
      requestLogger s.(requestObserver) (secureHeaders (mux s id r)) id r))
    (completed (expected_claims s r))) as Hserve.
  { intros id Hid. apply hwp_bind, hwp_step. simpl. apply requestLogger_triple; [done|].
    apply (secureHeaders_triple _ id); [done|done|done|]. intros rec' ?. by apply mux_triple. }
  case_bool_decide as Hempty.
  - apply hwp_bind, quiet_call; [done|done|]. intros b Hb. by apply Hserve, newRequestID_valid.
  - by apply Hserve, sanitized_valid.
Qed.

End Serving.

End HttpFacts.
