(* ===== verification/HttpClaims.v ===== *)
(** * From the service's outcome to the response (internal/httpapi)

    Which requests reach the service, with which command, and the exact response
    for each outcome of the service, up to retries against the database. *)
From S2P Require Import Prelude.
From S2P Require Import GoErrors.
From S2P Require Import Prog.
From S2P Require Import GoStrings.
From S2P Require Import GoJson.
From S2P Require Import Rewards.
From S2P Require Import JsonDecode.
From S2P Require Import Http.
From S2P Require Import HttpCalls.
From S2P Require Import Health.
From S2P Require Import HttpApi.
From S2P Require Import HttpLogic.
From S2P Require Import HttpFacts.
From Stdlib Require Import Ascii.
Local Open Scope Z_scope.

Module HttpClaims.
Import Http HttpCalls HttpApi HttpLogic HttpFacts.

(** ** The response of a handler that answers once *)

(** Nothing has been written yet; a complete response has been. *)
Definition fresh (rec : statusRecorder) : Prop :=
  rec.(rw).(sent) = None ∧ rec.(rw).(body) = [] ∧ rec.(wroteHeader) = false.
Definition answered (st : Z) (h : headers) (b : bytes) (rec : statusRecorder) : Prop :=
  rec.(rw).(sent) = Some (st, h) ∧ rec.(rw).(body) = b ∧ rec.(wroteHeader) = true.

(** The statuses the API answers with: final, and with a body. *)
Definition answer_status (st : Z) : Prop := final_status st ∧ body_allowed st = true.

(** The claim outcomes handed to the observer, among the calls of a request. *)
Definition claim_observation (c : call) : option (Rewards.CreateClaimResult * option goerr) :=
  match c with CObserveClaim result err => Some (result, err) | _ => None end.
Local Abbreviation ghost := (list (Rewards.CreateClaimResult * option goerr)).
Definition observe_step := collect (E := call) claim_observation.

(** Status, code and message by the class of an error; only the message of an
    input error comes from the error itself. *)
Definition error_answer (e : goerr) : Z * string * string :=
  if errors_Is e rewards_ErrIdempotencyKeyReused then
    (409, errorCodeIdempotencyKeyReused,
     "Idempotency-Key was reused with a different request payload"%string)
  else match errors_As as_InvalidInput e with
       | Some message => (400, errorCodeInvalidRequest, message)
       | None =>
           if errors_Is e rewards_ErrUnavailable
           then (503, errorCodeUnavailable, "Service unavailable"%string)
           else (500, errorCodeInternal, "Internal server error"%string)
       end.

Section Answers.
Context (R : ∀ c : call, reply c → Prop).
Local Abbreviation triple := (hwp observe_step R).

Lemma free_call {S} g (w : S) c (Q : ghost → S → result panic (reply c) → Prop) :
  claim_observation c = None → (∀ x, R c x → Q g w (Ok x)) → triple g w (hcall c) Q.
Proof.
  intros Hc HQ. apply (hwp_call _ _ _ _ _ _ g); [|done]. unfold observe_step, collect. by rewrite Hc.
Qed.

Lemma write_fresh g st h b rec (Q : ghost → statusRecorder → result panic unit → Prop) :
  answer_status st → fresh rec → rec.(rw).(hdr) = h →
  (∀ rec', answered st h b rec' → Q g rec' (Ok tt)) →
  triple g rec (hbind (write_header st) (λ _, write b)) Q.
Proof.
  intros [[H1 H2] Hb] (Hs & Hbody & Hw) Hh HQ. apply hwp_bind, hwp_step.
  unfold rec_WriteHeader, w_WriteHeader. rewrite Hw, Hs.
  destruct (Z.ltb_spec st 100); [lia|]. destruct (Z.ltb_spec 999 st); [lia|].
  destruct (Z.leb_spec st 199); [lia|]. rewrite andb_false_r. cbn [orb andb fst snd].
  apply hwp_step. unfold rec_Write. cbn [wroteHeader fst snd].
  apply HQ. unfold answered, on_rw, w_Write. cbn. rewrite Hb. cbn. by rewrite Hh, Hbody.
Qed.

Definition json_headers (h : headers) : headers := header_Set "Content-Type" "application/json" h.

Lemma writeJSON_fresh g st v rec (Q : ghost → statusRecorder → result panic unit → Prop) :
  answer_status st → fresh rec →
  (∀ rec', answered st (json_headers rec.(rw).(hdr)) (marshal v ++ [chr 10]) rec' →
     Q g rec' (Ok tt)) →
  triple g rec (writeJSON st v) Q.
Proof. intros Hst Hf HQ. apply hwp_bind, hwp_step. by eapply write_fresh. Qed.

Lemma writeRawJSON_fresh g st b rec (Q : ghost → statusRecorder → result panic unit → Prop) :
  answer_status st → fresh rec →
  (∀ rec', answered st (json_headers rec.(rw).(hdr)) (to_bytes b) rec' → Q g rec' (Ok tt)) →
  triple g rec (writeRawJSON st b) Q.
Proof. intros Hst Hf HQ. apply hwp_bind, hwp_step. by eapply write_fresh. Qed.

(** Recording a request leaves the response alone. *)
Lemma record_free g obs id r rec (abort : bool) (Q : ghost → statusRecorder → result panic unit → Prop) :
  Q g rec (if abort then Err ErrAbortHandler else Ok tt : result panic unit) →
  triple g rec (record_request obs id r abort) Q.
Proof.
  intros HQ. apply hwp_bind, free_call; [done|]. intros d _. apply hwp_bind, hwp_step. apply hwp_bind.
  assert (∀ l m a, triple g rec (hbind (hcall (reply := reply) (CLog l m a))
            (λ _, if abort then hpanic ErrAbortHandler else hret tt)) Q) as Hlog.
  { intros l m a. apply hwp_bind, free_call; [done|]. intros _ _. by destruct abort. }
  destruct obs; [apply free_call; [done|]; intros _ _|apply hwp_ret]; by apply Hlog.
Qed.

Lemma context_free g rec (Q : ghost → statusRecorder → result panic unit → Prop) :
  (∀ rec', rec'.(rw) = rec.(rw) → Q g rec' (Ok tt)) → triple g rec context_status Q.
Proof.
  intros HQ. apply hwp_bind, hwp_step. cbn [fst snd].
  destruct (wroteHeader rec); [by apply hwp_ret, HQ|].
  apply hwp_bind, free_call; [done|]. intros c _.
  destruct (ctx_Err c); [apply hwp_step|apply hwp_ret]; by apply HQ.
Qed.

(** The end of a request, by what the handler did. *)
Lemma finish_returned g obs id r rec (Q : ghost → statusRecorder → result panic unit → Prop) :
  (∀ rec', rec'.(rw) = rec.(rw) → Q g rec' (Ok tt)) →
  triple g rec (finish_request obs id r None) Q.
Proof.
  intros HQ. apply hwp_bind, hwp_ret. apply hwp_bind, context_free. intros rec' Hrw.
  by apply record_free, HQ.
Qed.

Lemma finish_aborted g obs id r rec p (Q : ghost → statusRecorder → result panic unit → Prop) :
  p = ErrAbortHandler ∨ rec.(wroteHeader) = true →
  (∀ rec', rec'.(rw) = rec.(rw) → Q g rec' (Err ErrAbortHandler)) →
  triple g rec (finish_request obs id r (Some p)) Q.
Proof.
  intros Hp HQ.
  assert (∀ rec', rec'.(rw) = rec.(rw) → triple g rec' (hbind context_status
            (λ _, record_request obs id r true)) Q) as Hend.
  { intros rec' Hrw. apply hwp_bind, context_free. intros rec'' Hrw'.
    apply record_free, HQ. by rewrite Hrw'. }
  apply hwp_bind. destruct p as [|t]; [by apply hwp_bind, hwp_step, hwp_ret, Hend|].
  destruct Hp as [?|Hw]; [done|].
  apply hwp_bind, free_call; [done|]. intros st _. apply hwp_bind, free_call; [done|]. intros _ _.
  apply hwp_bind, hwp_step. cbn [fst snd]. rewrite Hw.
  by apply hwp_bind, hwp_step, hwp_ret, Hend.
Qed.

(** An unexpected panic before anything was written is answered with a 500. *)
Lemma finish_panicked g obs id r rec t (Q : ghost → statusRecorder → result panic unit → Prop) :
  fresh rec →
  (∀ rec', rec'.(rw).(sent)
             = Some (500, json_headers (header_Del "Content-Length" rec.(rw).(hdr))) →
           rec'.(rw).(body)
             = marshal (error_body errorCodeInternal "Internal server error") ++ [chr 10] →
     Q g rec' (Ok tt)) →
  triple g rec (finish_request obs id r (Some (PanicValue t))) Q.
Proof.
  intros Hf HQ. apply hwp_bind, hwp_bind, free_call; [done|]. intros st _.
  apply hwp_bind, free_call; [done|]. intros _ _. apply hwp_bind, hwp_step. cbn [fst snd].
  destruct Hf as (Hs & Hb & Hw). rewrite Hw. apply hwp_bind, hwp_step.
  apply hwp_bind, writeJSON_fresh; [done|by repeat split|].
  intros rec' Ha. apply hwp_ret. apply hwp_bind, context_free. intros rec'' Hrw.
  destruct Ha as (Hs' & Hb' & _). apply record_free, HQ; by rewrite Hrw.
Qed.

(** The observer, when there is one. *)
Lemma observe_call g (b : bool) claimed err rec (Q : ghost → statusRecorder → result panic unit → Prop) :
  Q (if b then (claimed, err) :: g else g) rec (Ok tt) →
  triple g rec (if b then hcall (reply := reply) (CObserveClaim claimed err) else hret tt) Q.
Proof.
  intros HQ. destruct b; [|by apply hwp_ret].
  by apply (hwp_call _ _ _ _ _ _ ((claimed, err) :: g)); [|intros []].
Qed.

Lemma log_free g id e rec (Q : ghost → statusRecorder → result panic unit → Prop) :
  Q g rec (Ok tt) → triple g rec (logCreateClaimError id e) Q.
Proof.
  intros HQ. unfold logCreateClaimError.
  destruct (errors_Is e rewards_ErrUnavailable); [by apply free_call; [done|]; intros []|].
  destruct (errors_Is e rewards_ErrInternal); [by apply free_call; [done|]; intros []|].
  destruct (_ || _); [done|by apply free_call; [done|]; intros []].
Qed.

Lemma error_written g e rec (Q : ghost → statusRecorder → result panic unit → Prop) :
  fresh rec →
  (∀ rec', (let '(st, code, message) := error_answer e in
            answered st (json_headers rec.(rw).(hdr))
              (marshal (error_body code message) ++ [chr 10]) rec') → Q g rec' (Ok tt)) →
  triple g rec (writeCreateClaimError e) Q.
Proof.
  intros Hf. unfold error_answer, writeCreateClaimError.
  destruct (errors_Is e rewards_ErrIdempotencyKeyReused); [intros HQ; by apply writeJSON_fresh|].
  destruct (errors_As as_InvalidInput e); [intros HQ; by apply writeJSON_fresh|].
  destruct (errors_Is e rewards_ErrUnavailable); [intros HQ; by apply writeJSON_fresh|].
  destruct (errors_Is e rewards_ErrInternal); intros HQ; by apply writeJSON_fresh.
Qed.

End Answers.

(** ** The outcomes of the service *)

Inductive answer := NoAnswer | Answer (st : Z) (b : bytes) (replayed : bool).

(** A client whose request ended gets no answer when the error is its own. *)
Definition service_answer (ctx : ctx_state) (res : result goerr Rewards.CreateClaimResult) : answer :=
  match res with
  | Ok r => Answer r.(Rewards.StatusCode) (to_bytes r.(Rewards.ResponseBody)) r.(Rewards.Replayed)
  | Err e =>
      if is_ctx_error ctx e then NoAnswer
      else let '(st, code, message) := error_answer e in
           Answer st (marshal (error_body code message) ++ [chr 10]) false
  end.

Definition answer_headers (replayed : bool) (h : headers) : headers :=
  json_headers (if replayed then header_Set headerIdempotentReplayed "true" h else h).

(** The environment in which the service has the outcome [res]. *)
Definition serves (ctx : ctx_state) (res : result goerr Rewards.CreateClaimResult) (c : call)
  : reply c → Prop :=
  match c with
  | CCreateClaim _ _ => λ x, x = Ok res
  | CCtx => λ x, x = ctx
  | _ => λ _, True
  end.

Definition answerable (res : result goerr Rewards.CreateClaimResult) : Prop :=
  match res with Ok r => answer_status r.(Rewards.StatusCode) | Err _ => True end.

Section Outcome.
Context (ctx : ctx_state) (res : result goerr Rewards.CreateClaimResult) (Hres : answerable res).
Local Abbreviation triple := (hwp observe_step (serves ctx res)).

Definition answers_with (rec : statusRecorder) (out : result panic unit) (rec0 : statusRecorder)
  : Prop :=
  out = Ok tt ∧
  match service_answer ctx res with
  | NoAnswer => rec = rec0
  | Answer st b replayed => answered st (answer_headers replayed rec0.(rw).(hdr)) b rec
  end.

(** What the observer is told: every outcome but an input error, once. *)
Definition observations (obs : bool) : ghost :=
  match res with
  | Ok result => if obs then [(result, None)] else []
  | Err e =>
      if obs && negb (bool_decide (is_Some (errors_As as_InvalidInput e)))
      then [(zero_result, Some e)] else []
  end.

Lemma respond_answers id obs rec :
  fresh rec →
  triple [] rec (respondCreateClaim id obs res)
    (λ g rec' out, answers_with rec' out rec ∧ g = observations obs).
Proof.
  intros Hf. unfold respondCreateClaim.
  assert (∀ e g, res = Err e → triple g rec
    (hbind (hcall (reply := reply) CCtx) (λ ctx, if isRequestContextError ctx e then hret tt
       else hbind (logCreateClaimError id e) (λ _, writeCreateClaimError e)))
    (λ g' rec' out, answers_with rec' out rec ∧ g' = g)) as Herr.
  { intros e g He. apply hwp_bind, free_call; [done|]. intros ? ->.
    unfold answers_with, service_answer, isRequestContextError. rewrite He.
    destruct (is_ctx_error ctx e); [by apply hwp_ret|]. apply hwp_bind, log_free.
    apply error_written; [done|]. intros rec' Ha. split; [|done]. split; [done|].
    by destruct (error_answer e) as [[??]?]. }
  unfold observations, answers_with, service_answer in *.
  destruct res as [result|e] eqn:Hr; apply hwp_bind, observe_call.
  - cbn [negb andb]. apply hwp_bind.
    destruct (Rewards.Replayed result) eqn:Hrep; [apply hwp_step|apply hwp_ret];
      (apply writeRawJSON_fresh; [exact Hres|exact Hf|]); by intros rec' Ha.
  - rewrite andb_comm. by apply Herr.
Qed.

Lemma handler_answers id obs r cmd rec :
  request_command r = Some cmd → fresh rec →
  triple [] rec (rewardClaimsHandler obs id r)
    (λ g rec' out, answers_with rec' out rec ∧ g = observations obs).
Proof.
  unfold request_command, rewardClaimsHandler. intros Hcmd Hf.
  destruct (bool_decide (Method r = "POST"%string)); [|done].
  destruct (isJSONContentType _); [|done]. cbn [andb negb] in *.
  destruct (readIdempotencyKey (Header r)) as [key|e]; [|done].
  destruct (read_body maxRewardClaimBodyBytes r) as [body|e] eqn:Hbody; [|done].
  destruct (JsonDecode.Unmarshal body) as [req| | |] eqn:Hu; [|done..].
  apply hwp_bind. unfold decodeCreateRewardClaimRequest. rewrite Hbody.
  destruct (isJSONWhitespaceOnly body) eqn:Hws.
  { by rewrite whitespace_Unmarshal in Hu. }
  rewrite Hu. apply hwp_ret. apply hwp_bind, free_call; [done|]. intros ? ->.
  apply hwp_bind, hwp_lift. by apply respond_answers.
Qed.

(** ** Through the middleware *)

(** What the client gets for an outcome of the service. *)
Definition delivered (w : ResponseWriter) : Prop :=
  match service_answer ctx res with
  | NoAnswer => w.(sent) = None ∧ w.(body) = []
  | Answer st b replayed =>
      ∃ h, w.(sent) = Some (st, h) ∧ w.(body) = b
           ∧ header_Get h "Content-Type" = "application/json"%string
           ∧ header_Values h headerIdempotentReplayed = (if replayed then ["true"%string] else [])
  end.

Definition middleware_headers (id : string) : headers :=
  header_Set "Referrer-Policy" "no-referrer"
    (header_Set "X-Content-Type-Options" "nosniff" (header_Set headerRequestID id ∅)).

Lemma middleware_answer_headers id replayed :
  let h := answer_headers replayed (middleware_headers id) in
  header_Get h "Content-Type" = "application/json"%string
  ∧ header_Values h headerIdempotentReplayed = (if replayed then ["true"%string] else []).
Proof.
  unfold answer_headers, json_headers, middleware_headers, header_Get, header_Values, header_Set.
  change (CanonicalHeaderKey "Content-Type") with "Content-Type"%string.
  change (CanonicalHeaderKey headerIdempotentReplayed) with "Idempotent-Replayed"%string.
  change (CanonicalHeaderKey "Referrer-Policy") with "Referrer-Policy"%string.
  change (CanonicalHeaderKey "X-Content-Type-Options") with "X-Content-Type-Options"%string.
  change (CanonicalHeaderKey headerRequestID) with "X-Request-Id"%string.
  destruct replayed; by simplify_map_eq.
Qed.

Lemma mux_claims {M : ServeMux} s id r :
  reaches_claims s r = true → mux s id r = rewardClaimsHandler s.(rewardClaimObserver) id r.
Proof. unfold reaches_claims, mux. by intros ->%bool_decide_eq_true. Qed.

Lemma router_answers {M : ServeMux} s r cmd :
  reaches_claims s r = true → request_command r = Some cmd →
  triple [] new_writer (newRouter s r)
    (λ g w out, out = Ok tt ∧ delivered w ∧ g = observations s.(rewardClaimObserver)).
Proof.
  intros Hroute Hcmd. unfold newRouter, withMiddleware, with_requestID.
  assert (∀ id, triple [] new_writer
    (hbind (hstep (λ w, (w_Header (header_Set headerRequestID id) w, Ok tt))) (λ _,
      requestLogger s.(requestObserver) (secureHeaders (mux s id r)) id r))
    (λ g w out, out = Ok tt ∧ delivered w ∧ g = observations s.(rewardClaimObserver))) as Hserve.
  { intros id. apply hwp_bind, hwp_step. rewrite mux_claims by done.
    unfold requestLogger, hwp. apply wp_pbind.
    assert (triple [] (MkRecorder (w_Header (header_Set headerRequestID id) new_writer) 200 false)
      (secureHeaders (rewardClaimsHandler s.(rewardClaimObserver) id r))
      (λ g rec out, answers_with rec out
         (MkRecorder (MkWriter (middleware_headers id) None []) 200 false)
         ∧ g = observations s.(rewardClaimObserver))) as Hhandler.
    { apply hwp_bind, hwp_step. apply hwp_bind, hwp_step. by apply (handler_answers id _ r cmd). }
    eapply wp_mono; [exact Hhandler|].
    intros g [rec out] [[Hout Hans] Hg]. cbn [fst snd] in *. subst out. apply wp_pbind.
    eapply wp_mono.
    { apply (finish_returned (serves ctx res) g s.(requestObserver) id r rec
        (λ g' rec' out, out = Ok tt ∧ rec'.(rw) = rec.(rw) ∧ g' = g)). by intros rec' Hrw. }
    intros g' [rec' out] (Hout & Hrw & ->). cbn [fst snd] in *. split; [done|]. split; [|done].
    cbn. rewrite Hrw. unfold delivered.
    destruct (service_answer ctx res) as [|st b replayed]; [by rewrite Hans|].
    destruct Hans as (Hs & Hb & _). eexists. split; [exact Hs|]. split; [exact Hb|].
    apply middleware_answer_headers. }
  case_bool_decide; [|apply Hserve].
  apply hwp_bind, free_call; [done|]. intros b _. apply Hserve.
Qed.

(** The whole run: what the client gets, and what the observer is told. *)
Lemma router_run {M : ServeMux} s r cmd o :
  reaches_claims s r = true → request_command r = Some cmd → respects (serves ctx res) o →
  ∃ w calls, run o [] (newRouter s r new_writer) = Some ((w, Ok tt), calls)
             ∧ delivered w ∧ omap claim_observation calls = observations s.(rewardClaimObserver).
Proof.
  intros Hroute Hcmd Hserve. pose proof (router_answers s r cmd Hroute Hcmd) as Hw.
  destruct (wp_run _ _ o _ _ [] [] Hserve Hw) as ([w out] & calls & g & Hr & Ht & Hout & Hd & Hg).
  simpl in Hout, Hd. subst out. rewrite app_nil_r in Hr. exists w, calls. split; [done|].
  split; [done|]. unfold observe_step in Ht. rewrite trace_collect in Ht. congruence.
Qed.

End Outcome.

End HttpClaims.
