(* ===== verification/Readiness.v ===== *)
(** * What the readiness endpoint says (internal/health)

    The answer of [ReadyHandler] from the results of its checks, and the sorted
    map of results it encodes. *)
From S2P Require Import Prelude.
From S2P Require Import GoErrors.
From S2P Require Import Prog.
From S2P Require Import GoStrings.
From S2P Require Import GoJson.
From S2P Require Import Http.
From S2P Require Import HttpCalls.
From S2P Require Import Health.
From S2P Require Import HttpLogic.
From S2P Require Import HttpClaims.
From Stdlib Require Import Ascii Sorted.
Local Open Scope Z_scope.

Module Readiness.
Import Http HttpCalls Health HttpLogic HttpClaims.

(** ** The map of results *)

Abbreviation entries := (list (string * string)).

Definition key_lt (a b : string * string) : Prop := String.compare a.1 b.1 = Lt.

Lemma compare_lt_trans a b c :
  String.compare a b = Lt → String.compare b c = Lt → String.compare a c = Lt.
Proof.
  revert b c. induction a as [|x a IH]; intros [|y b] [|z c]; simpl; try done.
  unfold Ascii.compare.
  destruct (N.compare_spec (N_of_ascii x) (N_of_ascii y)) as [Hxy|Hxy|?]; [| |done].
  - rewrite Hxy. destruct (N.compare (N_of_ascii y) (N_of_ascii z)); [apply IH|done|done].
  - intros _. destruct (N.compare_spec (N_of_ascii y) (N_of_ascii z)) as [<-|?|?]; [| |done];
      intros _; rewrite (proj2 (N.compare_lt_iff _ _)) by lia; done.
Qed.

Lemma compare_refl_eq a : String.compare a a = Eq.
Proof.
  pose proof (String.compare_antisym a a) as H. by destruct (String.compare a a).
Qed.

(** In a sorted list, [map_set] is an insertion by key. *)
Lemma map_set_entries k v (m : entries) :
  StronglySorted key_lt m →
  StronglySorted key_lt (map_set k v m)
  ∧ ∀ e, e ∈ map_set k v m ↔ e = (k, v) ∨ (e ∈ m ∧ e.1 ≠ k).
Proof.
  induction 1 as [|[k' v'] m Hm [IHs IH] Hf]; simpl.
  { split; [repeat constructor|]. set_solver. }
  destruct (String.compare k k') eqn:Hc.
  - apply String.compare_eq_iff in Hc as ->. split; [by constructor|].
    intros e. rewrite !elem_of_cons. rewrite Forall_forall in Hf.
    assert (e ∈ m → e.1 ≠ k') as Hne.
    { intros He Heq. specialize (Hf e He). unfold key_lt in Hf. simpl in Hf.
      by rewrite Heq, compare_refl_eq in Hf. }
    naive_solver.
  - split.
    { constructor; [by constructor|]. constructor; [done|].
      eapply Forall_impl; [exact Hf|]. intros e He. unfold key_lt in *. simpl in *.
      by eapply compare_lt_trans. }
    intros e. rewrite (elem_of_cons _ e (k, v)).
    assert (e ∈ (k', v') :: m → e.1 ≠ k) as Hne; [|naive_solver].
    intros [->|He]%elem_of_cons Heq; simpl in *; subst.
    + by rewrite compare_refl_eq in Hc.
    + rewrite Forall_forall in Hf. specialize (Hf e He). unfold key_lt in Hf. simpl in Hf.
      pose proof (compare_lt_trans _ _ _ Hc Hf) as Hcycle. by rewrite compare_refl_eq in Hcycle.
  - assert (k' ≠ k) as Hk by (intros ->; by rewrite compare_refl_eq in Hc).
    split.
    + constructor; [done|]. apply Forall_forall. intros e [->|[He _]]%IH.
      * unfold key_lt. simpl. rewrite String.compare_antisym, Hc. done.
      * rewrite Forall_forall in Hf. by apply Hf.
    + intros e. rewrite !elem_of_cons, IH. split; [|naive_solver].
      intros [->|[->|[He Hne]]]; [|by left|]; right; (split; [|done]); [by left|by right].
Qed.

(** ** The answer *)

(** What a check by this name returns. *)
Implicit Type verdict : string → option goerr.

Definition healthy verdict (c : Check) : bool :=
  c.(HasCheck) && bool_decide (verdict c.(Name) = None).
Definition check_status verdict (c : Check) : string :=
  if healthy verdict c then statusOK else "error".
Definition checks_return verdict (c : call) : reply c → Prop :=
  match c with CCheck name => λ x, x = Ok (verdict name) | _ => λ _, True end.

(** The loop as a fold. *)
Definition tally verdict (acc : Z * string * entries) (c : Check) : Z * string * entries :=
  let results := map_set c.(Name) (check_status verdict c) acc.2 in
  if healthy verdict c then (acc.1.1, acc.1.2, results) else (503, statusNotReady, results).

Lemma run_checks_tally verdict rec checks acc Q :
  Q [] rec (Ok (foldl (tally verdict) acc checks)) →
  hwp observe_step (checks_return verdict) [] rec (run_checks checks acc) Q.
Proof.
  revert acc. induction checks as [|c checks IH]; intros [[st status] results] HQ; simpl in *.
  { by apply hwp_ret. }
  unfold tally, check_status, healthy in HQ. destruct (HasCheck c); simpl in *; [|by apply IH].
  apply hwp_bind, free_call; [done|]. intros x ->. apply hwp_bind, hwp_lift.
  destruct (verdict (Name c)); simpl in *; apply IH; exact HQ.
Qed.

Lemma tally_entries verdict checks acc :
  StronglySorted key_lt acc.2 → NoDup (Name <$> checks) →
  (∀ e, e ∈ acc.2 → e.1 ∉ Name <$> checks) →
  let res := foldl (tally verdict) acc checks in
  res.1 = (if forallb (healthy verdict) checks then acc.1 else (503, statusNotReady))
  ∧ StronglySorted key_lt res.2
  ∧ ∀ e, e ∈ res.2 ↔ e ∈ acc.2 ∨ e ∈ (λ c, (Name c, check_status verdict c)) <$> checks.
Proof.
  revert acc. induction checks as [|c checks IH]; intros acc Hs Hnd Hfresh; cbv zeta.
  { simpl. split; [done|]. split; [done|]. set_solver. }
  rewrite fmap_cons in Hnd, Hfresh. apply NoDup_cons in Hnd as [Hc Hnd]. cbn [foldl].
  destruct (map_set_entries (Name c) (check_status verdict c) acc.2 Hs) as [Hs' He].
  assert ((tally verdict acc c).2 = map_set (Name c) (check_status verdict c) acc.2) as Hset.
  { unfold tally. by destruct (healthy verdict c). }
  destruct (IH (tally verdict acc c)) as (H1 & H2 & H3); [by rewrite Hset|done| |].
  { rewrite Hset. intros e [->|[Hin _]]%He; [done|]. specialize (Hfresh e Hin). set_solver. }
  split; [|split; [done|]].
  - rewrite H1. unfold tally. simpl. destruct (healthy verdict c); simpl; [|by destruct (forallb _ _)].
    by destruct acc.1.
  - intros e. rewrite H3, Hset, He, fmap_cons, elem_of_cons. split; [naive_solver|].
    intros [Hin|[->|Hin]]; [|naive_solver..]. left. right. split; [done|].
    specialize (Hfresh e Hin). intros Heq. apply Hfresh. rewrite Heq. by left.
Qed.

(** C36: a readiness request is answered 200 "ready" exactly when every configured
    check is set and succeeds, 503 "not_ready" otherwise; the body lists the
    checks, sorted by name, each as "ok" or "error" and nothing of the error
    itself. *)
Theorem readiness_sound verdict checks r rec o
    (Hmethod : r.(Method) = "GET"%string) (Hrec : fresh rec)
    (Hnames : NoDup (Name <$> checks)) (Henv : respects (checks_return verdict) o) :
  ∃ rec' calls results,
    run o [] (ReadyHandler checks r rec) = Some ((rec', Ok tt), calls)
    ∧ StronglySorted key_lt results
    ∧ (∀ e, e ∈ results ↔ ∃ c, c ∈ checks ∧ e = (Name c, check_status verdict c))
    ∧ if forallb (healthy verdict) checks
      then answered 200 (json_headers rec.(rw).(hdr))
             (marshal (readinessResponse statusReady results) ++ [chr 10]) rec'
      else answered 503 (json_headers rec.(rw).(hdr))
             (marshal (readinessResponse statusNotReady results) ++ [chr 10]) rec'.
Proof.
  destruct (tally_entries verdict checks (200, statusReady, [])) as (H1 & H2 & H3);
    [constructor|done|set_solver|]. cbv zeta in *.
  set (res := foldl _ _ _) in *. destruct res as [[st status] results] eqn:Hres. simpl in *.
  assert (hwp observe_step (checks_return verdict) [] rec (ReadyHandler checks r) (λ _ rec' out,
    out = Ok tt ∧ answered st (json_headers rec.(rw).(hdr))
                    (marshal (readinessResponse status results) ++ [chr 10]) rec')) as H.
  { unfold ReadyHandler. rewrite bool_decide_eq_true_2 by done. cbn [negb].
    apply hwp_bind, run_checks_tally. fold res. rewrite Hres.
    apply writeJSON_fresh; [|done|done]. by destruct (forallb _ _); simplify_eq. }
  destruct (wp_run _ _ o _ _ [] [] Henv H) as ([rec' out] & calls & g & Hr & _ & Hout & Ha).
  rewrite app_nil_r in Hr. simpl in *. subst out. exists rec', calls, results.
  split; [done|]. split; [done|]. split.
  - intros e. rewrite H3, list_elem_of_fmap. set_solver.
  - by destruct (forallb _ _); simplify_eq.
Qed.

(** A request to the worker's checks while its loop is not running. *)
Definition worker_checks : list Check := [MkCheck "postgres" true; MkCheck "worker" true].
Definition not_running (name : string) : option goerr :=
  if bool_decide (name = "worker")%string then Some (ENew "worker loop is not running") else None.
Definition ready_request : Request := MkRequest "GET" "/readyz" "/readyz" ∅ "" [] None.
Definition check_environment : environment := λ _ c,
  match c with
  | CCreateClaim _ _ => Err ErrAbortHandler
  | CCheck name => Ok (not_running name)
  | CMetrics _ => ([], None)
  | CCtx => CtxLive
  | CSince => 0
  | CRand => []
  | CStack => ""%string
  | CObserveRequest _ _ _ _ | CObserveClaim _ _ | CLog _ _ _ => tt
  end.

Lemma readiness_sound_witness :
  ∃ rec' calls results,
    run check_environment [] (ReadyHandler worker_checks ready_request (MkRecorder new_writer 200 false))
      = Some ((rec', Ok tt), calls)
    ∧ answered 503 (json_headers ∅)
        (marshal (readinessResponse statusNotReady results) ++ [chr 10]) rec'.
Proof.
  destruct (readiness_sound not_running worker_checks ready_request
              (MkRecorder new_writer 200 false) check_environment)
    as (rec' & calls & results & H1 & _ & _ & H2).
  - reflexivity.
  - repeat split.
  - simpl. repeat constructor; set_solver.
  - intros log []; exact I || reflexivity.
  - exists rec', calls, results. split; [exact H1|exact H2].
Defined.

End Readiness.
