(* ===== verification/HttpSafety.v ===== *)
(** * Guarantees of the HTTP API, end to end

    The theorems about the whole server: the protocol of every request, the
    requests clients can write, and claims from the HTTP request down to the
    committed rows. *)
From S2P Require Import Prelude.
From S2P Require Import GoErrors.
From S2P Require Import Prog.
From S2P Require Import GoStrings.
From S2P Require Import GoJson.
From S2P Require Import Schema.
From S2P Require Import Availability.
From S2P Require Import Rewards.
From S2P Require Import RewardsTx.
From S2P Require Import RewardsSql.
From S2P Require Import RewardsDemo.
From S2P Require Import RewardsInv.
From S2P Require Import RewardsLogic.
From S2P Require Import RewardsSeq.
From S2P Require Import JsonDecode.
From S2P Require Import Trim.
From S2P Require Import Http.
From S2P Require Import HttpCalls.
From S2P Require Import Health.
From S2P Require Import HttpApi.
From S2P Require Import HttpLogic.
From S2P Require Import HttpFacts.
From S2P Require Import HttpClaims.
From Stdlib Require Import Ascii.
Local Open Scope Z_scope.

Module HttpSafety.
Import Rewards RewardsDemo Http HttpCalls HttpApi HttpLogic HttpFacts HttpClaims.

(** ** Every request *)

Lemma router_run_protocol {M : ServeMux} s r o :
  respects sane_reply o → Forall final_op (mux_answer r) →
  ∃ w out calls g,
    run o [] (newRouter s r new_writer) = Some ((w, out), calls)
    ∧ trace (protocol s r) start calls = Some g
    ∧ completed s (expected_claims s r) g w out.
Proof.
  intros Henv Hmux. pose proof (router_triple s r Hmux) as H.
  destruct (wp_run _ _ o _ _ [] start Henv H) as ([w out] & calls & g & Hr & Ht & HQ).
  rewrite app_nil_r in Hr. by exists w, out, calls, g.
Qed.

(** C13: every request, whatever its content and whatever the service, the checks
    and the metrics handler do (panics included), is served to the end and
    follows the protocol: at most one claim, and only with the command the
    request carries (exactly one when a well-formed claim reaches its route);
    one observation and one log line, after everything else, with the status the
    client got, 0 when the connection is aborted. Whatever is sent carries a
    valid request identifier and the security headers. *)
Theorem request_protocol {M : ServeMux} s r o
    (Henv : respects sane_reply o) (Hmux : Forall final_op (mux_answer r)) :
  ∃ w out calls g,
    run o [] (newRouter s r new_writer) = Some ((w, out), calls)
    ∧ trace (protocol s r) start calls = Some g
    ∧ completed s (expected_claims s r) g w out.
Proof. by apply router_run_protocol. Qed.

(** C29: a panic of a handler never escapes: before anything was written the client
    gets a 500 with the generic body, whatever the panic; after that, or on
    [http.ErrAbortHandler], the connection is aborted with the response as it
    stands. *)
Theorem panic_contained obs next id r w o rec p log
    (Hrun : run o [] (next (MkRecorder w 200 false)) = Some ((rec, Err p), log))
    (Hrec : fresh rec ∨ rec.(wroteHeader) = true) :
  ∃ w' out calls,
    run o [] (requestLogger obs next id r w) = Some ((w', out), calls)
    ∧ if bool_decide (p = ErrAbortHandler) || rec.(wroteHeader)
      then out = Err ErrAbortHandler ∧ w' = rec.(rw)
      else out = Ok tt
           ∧ w'.(sent) = Some (500, json_headers (header_Del "Content-Length" rec.(rw).(hdr)))
           ∧ w'.(body) = marshal (error_body errorCodeInternal "Internal server error") ++ [chr 10].
Proof.
  assert (hwp observe_step any_reply [] rec (finish_request obs id r (Some p)) (λ _ rec' out,
    if bool_decide (p = ErrAbortHandler) || rec.(wroteHeader)
    then out = Err ErrAbortHandler ∧ rec'.(rw) = rec.(rw)
    else out = Ok tt
         ∧ rec'.(rw).(sent) = Some (500, json_headers (header_Del "Content-Length" rec.(rw).(hdr)))
         ∧ rec'.(rw).(body)
           = marshal (error_body errorCodeInternal "Internal server error") ++ [chr 10])) as H.
  { destruct (bool_decide (p = ErrAbortHandler) || rec.(wroteHeader)) eqn:Hcase.
    - apply finish_aborted; [|by intros rec' ?].
      apply orb_true_iff in Hcase as [?%bool_decide_eq_true|?]; auto.
    - apply orb_false_iff in Hcase as [Hp%bool_decide_eq_false Hw].
      destruct p as [|t]; [done|]. destruct Hrec as [Hf|Hw']; [|congruence].
      apply finish_panicked; [done|]. by intros rec' Hs Hb. }
  destruct (wp_run _ _ o _ _ log [] (any_environment o) H) as ([rec' out] & new & g & Hr & _ & HQ).
  exists rec'.(rw), out, (new ++ log). split; [|exact HQ].
  unfold requestLogger. rewrite run_pbind, Hrun, run_pbind. cbn [fst snd].
  rewrite Hr. done.
Qed.

(** ** What clients can ask for *)

(** A request as a client of the API writes it. *)
Definition client_request (key content_type : string) (req : JsonDecode.createRewardClaimRequest)
  : Request :=
  MkRequest "POST" routeRewardClaims routeRewardClaims
    (header_Set headerIdempotencyKey key (header_Set "Content-Type" content_type ∅))
    "" (JsonDecode.request_body req) None.

Lemma client_headers key content_type :
  let h := header_Set headerIdempotencyKey key (header_Set "Content-Type" content_type ∅) in
  header_Get h "Content-Type" = content_type ∧ header_Values h headerIdempotencyKey = [key].
Proof.
  unfold header_Get, header_Values, header_Set.
  change (CanonicalHeaderKey "Content-Type") with "Content-Type"%string.
  change (CanonicalHeaderKey headerIdempotencyKey) with "Idempotency-Key"%string.
  by simplify_map_eq.
Qed.

Lemma client_command key content_type req :
  JsonDecode.valid_request req → validateIdempotencyKey (strings_TrimSpace key) = Ok tt →
  isJSONContentType content_type = true →
  Z.of_nat (length (JsonDecode.request_body req)) ≤ maxRewardClaimBodyBytes →
  request_command (client_request key content_type req)
  = Some (Rewards.Command req.(JsonDecode.PlayerID) req.(JsonDecode.CampaignID)
            req.(JsonDecode.RewardID) (strings_TrimSpace key)).
Proof.
  intros Hutf8 Hkey Htype Hsize. destruct (client_headers key content_type) as [Hct Hvalues].
  unfold request_command, client_request. cbn [Method Header]. rewrite Hct, Htype.
  unfold readIdempotencyKey, read_body. rewrite Hvalues, Hkey. cbn [BodyBytes BodyError rbind].
  destruct (Z.ltb_spec maxRewardClaimBodyBytes (Z.of_nat (length (JsonDecode.request_body req))))
    as [?|_]; [lia|].
  rewrite bool_decide_eq_true_2 by done. cbn [andb]. by rewrite JsonDecode.Unmarshal_request_body.
Qed.

Lemma client_route s key content_type req :
  reaches_claims s (client_request key content_type req) = true.
Proof. unfold reaches_claims, routes. by destruct (metricsHandler s). Qed.

(** The commands handed to the service, among the calls of a request. *)
Definition claim_sent (c : call) : option Rewards.CreateClaimCommand :=
  match c with CCreateClaim _ cmd => Some cmd | _ => None end.
Definition sent_commands : list call → list Rewards.CreateClaimCommand := omap claim_sent.

Lemma protocol_commands s r cmd calls g :
  request_command r = Some cmd → trace (protocol s r) start calls = Some g →
  sent_commands calls = replicate g.(claims) cmd.
Proof.
  intros Hcmd. revert g. induction calls as [|c calls IH]; intros g Ht; simpl in Ht.
  { by simplify_eq. }
  destruct (trace (protocol s r) start calls) as [g0|]; [|done]. specialize (IH g0 eq_refl).
  unfold protocol in Ht. destruct (logged g0); [done|]. unfold sent_commands in *.
  destruct c; simpl in *; try (repeat case_match; by simplify_eq).
  case_match eqn:Hc; simplify_eq/=. boolean. rewrite IH.
  match goal with H : HttpFacts.claims g0 = 0%nat |- _ => rewrite H end. simpl. congruence.
Qed.

(** C28: a claim request written with [json.Marshal], with UTF-8 fields, a JSON
    content type, a body of at most 64 KiB and a key that without the white space
    around it has 1 to 255 bytes and no control characters, reaches the service:
    whatever the environment answers, the server hands it exactly one command, with
    the fields that were sent and the key without that white space. *)
Theorem client_request_understood {M : ServeMux} s o key content_type req
    (Henv : respects sane_reply o)
    (Hmux : Forall final_op (mux_answer (client_request key content_type req)))
    (Hutf8 : JsonDecode.valid_request req)
    (Hkey : validateIdempotencyKey (strings_TrimSpace key) = Ok tt)
    (Htype : isJSONContentType content_type = true)
    (Hsize : Z.of_nat (length (JsonDecode.request_body req)) ≤ maxRewardClaimBodyBytes) :
  ∃ w out calls,
    run o [] (newRouter s (client_request key content_type req) new_writer) = Some ((w, out), calls)
    ∧ sent_commands calls
      = [Rewards.Command req.(JsonDecode.PlayerID) req.(JsonDecode.CampaignID)
           req.(JsonDecode.RewardID) (strings_TrimSpace key)].
Proof.
  pose proof (client_command key content_type req Hutf8 Hkey Htype Hsize) as Hcmd.
  destruct (router_run_protocol s (client_request key content_type req) o Henv Hmux)
    as (w & out & calls & g & Hr & Ht & st & _ & _ & Hn & _).
  exists w, out, calls. split; [done|]. rewrite (protocol_commands _ _ _ _ _ Hcmd Ht), Hn.
  unfold expected_claims. by rewrite client_route, Hcmd.
Qed.

(** ** What the service can answer to a command of the API *)

Definition field_problems : list string :=
  [" is required"; " must not contain NUL characters"; " must be at most 128 characters"]%string.
Definition field_errors : list string :=
  flat_map (λ f, (λ m, (f ++ m)%string) <$> field_problems)
    ["player_id"; "campaign_id"; "reward_id"]%string.

Lemma validateClaimID_utf8 f v :
  utf8_ValidString v = true →
  Rewards.validateClaimID f v = Ok tt
  ∨ ∃ m, m ∈ field_problems ∧ Rewards.validateClaimID f v = Err (EInvalidInput (f ++ m)).
Proof.
  intros Hv. unfold Rewards.validateClaimID, field_problems. rewrite Hv. cbn [negb].
  destruct (bool_decide _); [right; eexists; split; [by left|done]|].
  destruct (contains_NUL v); [right; eexists; split; [by right; left|done]|].
  destruct (_ >? _); [right; eexists; split; [by right; right; left|done]|by left].
Qed.

Lemma key_accepted h key :
  readIdempotencyKey h = Ok key →
  strings_TrimSpace key = key ∧ Rewards.validateIdempotencyKey key = Ok tt.
Proof.
  unfold readIdempotencyKey. destruct (header_Values h headerIdempotencyKey) as [|v [|]]; [done| |done].
  intros ([] & Hv & [= <-])%rbind_ok. split; [apply TrimSpace_idem|].
  unfold validateIdempotencyKey, Rewards.validateIdempotencyKey in *.
  destruct (bool_decide _); [done|].
  change Rewards.maxIdempotencyKeyLength with maxIdempotencyKeyLength. rewrite Z.gtb_ltb.
  destruct (_ <? _); [done|]. by destruct (existsb _ _).
Qed.

Lemma field_error_in f m :
  f ∈ ["player_id"; "campaign_id"; "reward_id"]%string → m ∈ field_problems →
  (f ++ m)%string ∈ field_errors.
Proof.
  intros Hf Hm. unfold field_errors. apply list_elem_of_In, in_flat_map. exists f.
  split; [by apply list_elem_of_In|]. apply list_elem_of_In, list_elem_of_fmap. by exists m.
Qed.

(** The command of a request is accepted, or rejected for one of nine reasons:
    neither its key nor its encoding can be at fault. *)
Lemma command_prepared r cmd :
  request_command r = Some cmd →
  (∃ p, Rewards.prepareCreateClaim cmd = Ok p)
  ∨ ∃ m, m ∈ field_errors ∧ Rewards.prepareCreateClaim cmd = Err (EInvalidInput m).
Proof.
  unfold request_command. destruct (_ && _); [|done].
  destruct (readIdempotencyKey (Header r)) as [key|] eqn:Hkey; [|done].
  destruct (read_body _ r) as [body|]; [|done].
  destruct (JsonDecode.Unmarshal body) as [req| | |] eqn:Hu; [|done..]. intros [= <-].
  apply JsonDecode.Unmarshal_valid in Hu. unfold JsonDecode.valid_request, JsonDecode.request_fields in Hu.
  rewrite !Forall_cons in Hu. destruct Hu as (H1 & H2 & H3 & _).
  apply Trim.TrimSpace_valid in H1, H2, H3.
  destruct (key_accepted _ _ Hkey) as [Htrim Hval].
  unfold Rewards.prepareCreateClaim, Rewards.validateCreateClaimCommand, claim_command,
    Rewards.trim_command. cbn [Rewards.cmd_PlayerID Rewards.cmd_CampaignID Rewards.cmd_RewardID
    Rewards.cmd_IdempotencyKey]. rewrite Htrim, Hval.
  destruct (validateClaimID_utf8 "player_id" _ H1) as [->|(m & Hm & ->)];
    [cbn [rbind]|right; eexists; split; [apply (field_error_in "player_id"); [set_solver|exact Hm]|done]].
  destruct (validateClaimID_utf8 "campaign_id" _ H2) as [->|(m & Hm & ->)];
    [cbn [rbind]|right; eexists; split; [apply (field_error_in "campaign_id"); [set_solver|exact Hm]|done]].
  destruct (validateClaimID_utf8 "reward_id" _ H3) as [->|(m & Hm & ->)];
    [cbn [rbind]|right; eexists; split; [apply (field_error_in "reward_id"); [set_solver|exact Hm]|done]].
  left. by eexists.
Qed.

(** The error responses to a claim request, as status, code and message. *)
Definition service_errors : list (Z * string * string) :=
  [(409, errorCodeIdempotencyKeyReused,
    "Idempotency-Key was reused with a different request payload");
   (503, errorCodeUnavailable, "Service unavailable");
   (500, errorCodeInternal, "Internal server error")]%string.
Definition api_errors : list (Z * string * string) :=
  service_errors ++ ((λ m, (400, errorCodeInvalidRequest, m)) <$> field_errors).

(** ** From the request to the committed rows *)

Section claims.
Context `{Postgres}.

(** The errors of the transaction fall into the three classes. *)
Lemma tx_error_answer e :
  RewardsLogic.tx_error e → error_answer (EWrap "create reward claim" e) ∈ service_errors.
Proof.
  intros He. unfold service_errors.
  assert (∀ m, error_answer (EWrap "create reward claim" (EWrap m (ESentinel rewards_ErrInternal)))
               = (500, errorCodeInternal, "Internal server error"%string)) as Hint by done.
  destruct He as [[f ->]|[-> | ->]]; [|by left|rewrite Hint; set_solver].
  unfold RewardsTx.map_fail, RewardsTx.mapPostgresError.
  destruct (Availability.map_error_class "postgres reward claim operation returned no row"
    "postgres reward claim operation" rewards_ErrInternal rewards_ErrUnavailable
    rewards_errPostgresQueryTimeout (Some (RewardsTx.fail_ctx f))
    (RewardsTx.fail_err f))
    as [->|[->|[->|(c & s & [= <-] & Hs & _ & _ & ->)]]].
  - rewrite Hint. set_solver.
  - rewrite Hint. set_solver.
  - right. by left.
  - assert (error_answer (EWrap "create reward claim" (ESentinel s))
            = (500, errorCodeInternal, "Internal server error"%string)) as ->; [|set_solver].
    by destruct (RewardsTx.fail_ctx f); simplify_eq/=.
Qed.

(** A continuation that only maps the result. *)
Lemma run_map {A B} (f : A → B) (k : A → Prog.prog RewardsTx.resp B) chs c l m :
  (∀ a, k a = Ret (f a)) →
  RewardsSql.run chs c l (pbind m k) = (λ '(c, l, a), (c, l, f a)) <$> RewardsSql.run chs c l m.
Proof.
  intros Hk. revert chs c l. induction m as [a| |st k' IH]; intros chs c l;
    [simpl; by rewrite Hk|done|].
  destruct chs as [|ch chs]; [done|]. simpl.
  destruct (RewardsSql.exec ch c l st) as [[c' l'] x]. apply IH.
Qed.

Definition service_result (r : result goerr Rewards.CreateClaimResult)
  : result goerr Rewards.CreateClaimResult :=
  match r with Err e => Err (EWrap "create reward claim" e) | Ok res => Ok res end.

Lemma run_CreateClaim chs c l fuel cmd p :
  Rewards.prepareCreateClaim cmd = Ok p →
  RewardsSql.run chs c l (RewardsTx.CreateClaim fuel cmd)
  = (λ '(c, l, r), (c, l, service_result r)) <$> RewardsSql.run chs c l (RewardsTx.createClaim fuel p).
Proof.
  intros Hp. unfold RewardsTx.CreateClaim. rewrite Hp. apply run_map. by intros [].
Qed.

(** The response for the outcome of a transaction from the committed state [c]
    to [c1]. *)
Definition justified_response (ctx : ctx_state) (cmd : Rewards.CreateClaimCommand)
    (c c1 : Schema.db) (l1 : RewardsSql.local) (res : result goerr Rewards.CreateClaimResult)
    (w : ResponseWriter) : Prop :=
  match w.(sent) with
  | None => ∃ e, res = Err e ∧ is_ctx_error ctx e = true
  | Some (st, _) =>
      (∃ p cr, Rewards.prepareCreateClaim cmd = Ok p
         ∧ c1.(Schema.claims) !! cr.(Schema.c_id) = Some cr
         ∧ Schema.claim_triple cr = RewardsSql.triple_of p
         ∧ ((st = 201 ∧ w.(body) = to_bytes (RewardsInv.created_body cr))
            ∨ (st = 409 ∧ w.(body) = to_bytes RewardsInv.duplicate_body)))
      ∨ (∃ code message, (st, code, message) ∈ api_errors
         ∧ w.(body) = marshal (error_body code message) ++ [chr 10]
         ∧ (c1 = c ∨ l1.(RewardsSql.l_lost) = true))
  end.

Lemma delivered_error ctx cmd c c1 l1 e w :
  error_answer e ∈ api_errors → c1 = c ∨ l1.(RewardsSql.l_lost) = true →
  delivered ctx (Err e) w → justified_response ctx cmd c c1 l1 (Err e) w.
Proof.
  unfold delivered, service_answer, justified_response. intros He Hc.
  destruct (is_ctx_error ctx e) eqn:Hctx.
  - intros [-> _]. by exists e.
  - destruct (error_answer e) as [[st code] message].
    intros (h & -> & -> & _). right. by exists code, message.
Qed.

Lemma delivered_result ctx cmd p c c1 l1 k res w :
  Rewards.prepareCreateClaim cmd = Ok p → RewardsSeq.known c1 k → RewardsLogic.result_ok p res k →
  delivered ctx (Ok res) w → justified_response ctx cmd c c1 l1 (Ok res) w.
Proof.
  intros Hp [Hk _] [(cr & Hcr & Ht & Hres) _] (h & Hs & Hb & _).
  unfold justified_response. rewrite Hs. left. exists p, cr.
  split; [done|]. split; [by eapply lookup_weaken|]. split; [done|].
  rewrite Hb. by destruct Hres as [[-> ->]|[-> ->]]; [left|right].
Qed.

(** C12: from the HTTP request to the rows: for every claim request that reaches
    the service and every run of its transaction, failures included, the server
    answers; a 201 or a "reward_already_claimed" 409 is sent only when the
    committed state holds the claim of that player, campaign and reward (its body
    being the claim's); every other answer is one of the fixed error responses,
    so that nothing of an internal error reaches the client, and the committed
    state is then unchanged unless the acknowledgement of the commit was lost;
    no answer is sent only when the client's own context ended. *)
Theorem claim_end_to_end {M : ServeMux} s r cmd o ctx fuel chs c a c1 l1 res
    (Hroute : reaches_claims s r = true) (Hcmd : request_command r = Some cmd)
    (Hinv : RewardsInv.db_inv c a) (Hchs : Forall RewardsLogic.choice_ok chs)
    (Hrun : RewardsSql.run chs c RewardsSql.init_local (RewardsTx.CreateClaim fuel cmd)
            = Some (c1, l1, res))
    (Hserve : respects (serves ctx res) o) :
  RewardsInv.db_inv c1 a ∧
  ∃ w calls, run o [] (newRouter s r new_writer) = Some ((w, Ok tt), calls)
             ∧ justified_response ctx cmd c c1 l1 res w.
Proof.
  assert (answerable res → (∀ w, delivered ctx res w → justified_response ctx cmd c c1 l1 res w) →
    ∃ w calls, run o [] (newRouter s r new_writer) = Some ((w, Ok tt), calls)
               ∧ justified_response ctx cmd c c1 l1 res w) as Hserved.
  { intros Hans Hj.
    destruct (router_run ctx res Hans s r cmd o Hroute Hcmd Hserve) as (w & calls & Hr & Hd & _).
    exists w, calls. split; [done|]. by apply Hj. }
  destruct (command_prepared r cmd Hcmd) as [[p Hp]|(m & Hm & Hp)].
  - rewrite (run_CreateClaim _ _ _ _ _ p Hp) in Hrun.
    destruct (RewardsSql.run _ _ _ _) as [[[c' l'] r1]|] eqn:Hr; [|done].
    injection Hrun as -> -> <-.
    destruct (RewardsSeq.createClaim_run _ _ _ _ _ _ _ _ Hinv
                (Rewards.prepareCreateClaim_params _ _ Hp) Hchs Hr)
      as ((Hl & _ & Heq) & HI & Hd & k & Hk & Hpost).
    split; [done|]. destruct r1 as [res|e]; simpl in *.
    + destruct Hpost as (_ & _ & Hok & _). apply Hserved.
      * destruct Hok as [(cr & _ & _ & Hst) _]. by destruct Hst as [[-> _]|[-> _]].
      * intros w Hw. by apply (delivered_result _ _ p _ _ _ k).
    + destruct Hpost as [He Hlost]. apply Hserved; [done|]. intros w Hw.
      apply delivered_error; [|destruct (decide (l1.(RewardsSql.l_status) = RewardsSql.TxCommitted));
        [right; auto|by left]|done].
      apply elem_of_app. left. by apply tx_error_answer.
  - unfold RewardsTx.CreateClaim in Hrun. rewrite Hp in Hrun. simpl in Hrun. simplify_eq.
    split; [done|]. apply Hserved; [done|]. intros w Hw. apply delivered_error; [|by left|done].
    apply elem_of_app. right. apply list_elem_of_fmap. by exists m.
Qed.

(** C14: a client that repeats a claim request after a success, or after an error
    that hid a commit, gets the stored response without any change of the
    committed state: status 201 or 409, the header "Idempotent-Replayed: true",
    and after a success the same status and the same bytes as the first time. *)
Theorem http_retry {M : ServeMux} s r cmd ctx fuel chs c a c1 l1 r1 fuel2 now b1 b2
    (Hroute : reaches_claims s r = true) (Hcmd : request_command r = Some cmd)
    (Hinv : RewardsInv.db_inv c a) (Hchs : Forall RewardsLogic.choice_ok chs)
    (Hrun : RewardsSql.run chs c RewardsSql.init_local (RewardsTx.CreateClaim fuel cmd)
            = Some (c1, l1, r1))
    (Hfirst : (∃ res1, r1 = Ok res1) ∨ c1 ≠ c) :
  ∃ l2 r2,
    RewardsSql.run (RewardsSeq.quiet now b1 b2) c1 RewardsSql.init_local
      (RewardsTx.CreateClaim (S fuel2) cmd) = Some (c1, l2, r2)
    ∧ ∀ o, respects (serves ctx r2) o →
      ∃ w calls st h,
        run o [] (newRouter s r new_writer) = Some ((w, Ok tt), calls)
        ∧ w.(sent) = Some (st, h) ∧ (st = 201 ∨ st = 409)
        ∧ header_Values h headerIdempotentReplayed = ["true"%string]
        ∧ ∀ res1, r1 = Ok res1 →
            st = res1.(Rewards.StatusCode) ∧ w.(body) = to_bytes res1.(Rewards.ResponseBody).
Proof.
  destruct (command_prepared r cmd Hcmd) as [[p Hp]|(m & _ & Hp)].
  2: { unfold RewardsTx.CreateClaim in Hrun. rewrite Hp in Hrun. simpl in Hrun. simplify_eq.
       by destruct Hfirst as [[? ?]|?]. }
  rewrite (run_CreateClaim _ _ _ _ _ p Hp) in Hrun.
  destruct (RewardsSql.run chs _ _ _) as [[[c' l'] r0]|] eqn:Hr; [|done].
  injection Hrun as -> -> <-.
  destruct (RewardsSeq.retry_run cmd p fuel chs c a c1 l1 r0 fuel2 now b1 b2)
    as (l2 & res & Hrun2 & Hrep & Hst & Hsame); [done..| |].
  { destruct Hfirst as [[res1 Hres1]|?]; [left|by right]. by destruct r0; [eexists|]. }
  exists l2, (Ok res). rewrite (run_CreateClaim _ _ _ _ _ p Hp), Hrun2. split; [done|].
  intros o Hserve.
  assert (answerable (Ok res)) as Hans by (by destruct Hst as [Hst|Hst]; simpl; rewrite Hst).
  destruct (router_run ctx (Ok res) Hans s r cmd o Hroute Hcmd Hserve)
    as (w & calls & Hrun3 & (h & Hs & Hb & _ & Hh) & _). rewrite Hrep in Hh.
  exists w, calls, res.(Rewards.StatusCode), h. do 4 (split; [done|]).
  intros res1 Hres1. destruct r0 as [res0|]; [|done]. injection Hres1 as ->.
  by destruct (Hsame res1 eq_refl) as [<- <-].
Qed.

End claims.

(** ** A concrete server *)

Definition demo_environment (service : result panic (result goerr Rewards.CreateClaimResult))
  : environment := λ _ c,
  match c with
  | CCreateClaim _ _ => service
  | CCheck _ => Ok None
  | CMetrics _ => ([OSet "Content-Type" "text/plain"; OWrite (to_bytes "up 1")], None)
  | CCtx => CtxLive
  | CSince => 1500000
  | CRand => demo_bytes1
  | CStack => "goroutine 1"%string
  | CObserveRequest _ _ _ _ | CObserveClaim _ _ | CLog _ _ _ => tt
  end.

Definition demo_mux : ServeMux := {| mux_answer _ := [OSet "Location" "/"; OWriteHeader 307] |}.
Definition demo_server : Server := MkServer true true true [Health.MkCheck "postgres" true].

Definition demo_fields : JsonDecode.createRewardClaimRequest :=
  JsonDecode.Request "player-123" "winter-2026" "daily-login".
Definition demo_request : Request :=
  client_request " key-1 " "application/json; charset=utf-8" demo_fields.

Definition sent_command : Rewards.CreateClaimCommand :=
  Rewards.Command "player-123" "winter-2026" "daily-login" "key-1".

Lemma demo_command : request_command demo_request = Some sent_command.
Proof. vm_compute. reflexivity. Qed.
Lemma demo_route : reaches_claims demo_server demo_request = true.
Proof. vm_compute. reflexivity. Qed.

Lemma unprotected_by key :
  bool_decide (CanonicalHeaderKey key ∉ protected) = true → unprotected key.
Proof. apply bool_decide_eq_true_1. Qed.

Lemma demo_sane service :
  sane_reply (CCreateClaim "" sent_command) service →
  respects sane_reply (demo_environment service).
Proof.
  intros Hs log c. destruct c; try exact I; simpl.
  - exact Hs.
  - repeat constructor. apply unprotected_by. vm_compute. reflexivity.
  - by apply bytes16_seqZ.
Qed.

Lemma demo_mux_final r : Forall final_op (@mux_answer demo_mux r).
Proof.
  repeat constructor; [|by vm_compute..]. apply unprotected_by. vm_compute. reflexivity.
Qed.

(** The service panics: the client still gets an answer and the request is logged. *)
Definition panicking : environment := demo_environment (Err (PanicValue "runtime.Error")).

Lemma request_protocol_witness :
  ∃ w out calls g,
    run panicking [] (@newRouter demo_mux demo_server demo_request new_writer)
      = Some ((w, out), calls)
    ∧ trace (protocol demo_server demo_request) start calls = Some g
    ∧ completed demo_server 1 g w out.
Proof.
  assert (expected_claims demo_server demo_request = 1%nat) as <- by (vm_compute; reflexivity).
  apply (@request_protocol demo_mux demo_server demo_request panicking).
  - by apply demo_sane.
  - apply demo_mux_final.
Defined.

Example panicking_answer :
  ∃ calls, run panicking [] (@newRouter demo_mux demo_server demo_request new_writer)
           = Some ((MkWriter
               (header_Set "Content-Type" "application/json"
                  (middleware_headers (newRequestID demo_bytes1)))
               (Some (500, header_Set "Content-Type" "application/json"
                  (middleware_headers (newRequestID demo_bytes1))))
               (marshal (error_body errorCodeInternal "Internal server error") ++ [chr 10]),
             Ok tt), calls).
Proof. eexists. vm_compute. reflexivity. Qed.

Lemma panic_contained_witness :
  ∃ w' out calls,
    run panicking [] (requestLogger true (λ rec, Ret (rec, Err (PanicValue "string"))) "id"
                        demo_request new_writer) = Some ((w', out), calls)
    ∧ out = Ok tt ∧ w'.(sent) = Some (500, json_headers (header_Del "Content-Length" ∅))
    ∧ w'.(body) = marshal (error_body errorCodeInternal "Internal server error") ++ [chr 10].
Proof.
  apply (panic_contained true (λ rec, Ret (rec, Err (PanicValue "string"))) "id" demo_request
           new_writer panicking (MkRecorder new_writer 200 false) (PanicValue "string") []).
  - reflexivity.
  - left. repeat split.
Defined.

Lemma client_request_understood_witness :
  ∃ w out calls,
    run panicking [] (@newRouter demo_mux demo_server demo_request new_writer)
      = Some ((w, out), calls)
    ∧ sent_commands calls = [sent_command].
Proof.
  apply (@client_request_understood demo_mux demo_server panicking " key-1 "
           "application/json; charset=utf-8" demo_fields).
  - by apply demo_sane.
  - apply demo_mux_final.
  - by repeat constructor.
  - vm_compute. reflexivity.
  - vm_compute. reflexivity.
  - vm_compute. discriminate.
Defined.

(** The claim whose commit is not acknowledged: the client gets an error, the row
    is there. *)
Definition lost_result : result goerr Rewards.CreateClaimResult :=
  service_result RewardsSeq.demo_result.

Lemma lost_run :
  @RewardsSql.run demo_postgres _ RewardsSeq.demo_lost_commit Schema.empty_db RewardsSql.init_local
    (@RewardsTx.CreateClaim demo_postgres 1 sent_command)
  = Some (RewardsSeq.demo_db, RewardsSeq.demo_local, lost_result).
Proof.
  rewrite (@run_CreateClaim demo_postgres _ _ _ _ _ (params_of sample_command)) by
    (vm_compute; reflexivity).
  by rewrite RewardsSeq.demo_outcome_run.
Qed.

Lemma demo_serves res : respects (serves CtxLive res) (demo_environment (Ok res)).
Proof. by intros log []. Qed.

Lemma claim_end_to_end_witness :
  ∃ w calls,
    run (demo_environment (Ok lost_result)) [] (@newRouter demo_mux demo_server demo_request new_writer)
      = Some ((w, Ok tt), calls)
    ∧ justified_response CtxLive sent_command Schema.empty_db RewardsSeq.demo_db
        RewardsSeq.demo_local lost_result w.
Proof.
  apply (@claim_end_to_end demo_postgres demo_mux demo_server demo_request sent_command
           (demo_environment (Ok lost_result)) CtxLive 1 RewardsSeq.demo_lost_commit Schema.empty_db ∅).
  - exact demo_route.
  - exact demo_command.
  - apply RewardsInv.empty_inv.
  - exact RewardsSeq.demo_lost_commit_ok.
  - exact lost_run.
  - apply demo_serves.
Defined.

Lemma http_retry_witness :
  ∃ l2 r2,
    @RewardsSql.run demo_postgres _ RewardsSeq.demo_quiet RewardsSeq.demo_db RewardsSql.init_local
      (@RewardsTx.CreateClaim demo_postgres 1 sent_command) = Some (RewardsSeq.demo_db, l2, r2)
    ∧ ∃ w calls st h,
        run (demo_environment (Ok r2)) [] (@newRouter demo_mux demo_server demo_request new_writer)
          = Some ((w, Ok tt), calls)
        ∧ w.(sent) = Some (st, h) ∧ (st = 201 ∨ st = 409)
        ∧ header_Values h headerIdempotentReplayed = ["true"%string].
Proof.
  destruct (@http_retry demo_postgres demo_mux demo_server demo_request sent_command CtxLive 1
              RewardsSeq.demo_lost_commit Schema.empty_db ∅ RewardsSeq.demo_db RewardsSeq.demo_local
              lost_result 0 demo_now demo_bytes1 demo_bytes2) as (l2 & r2 & Hrun & Hans).
  - exact demo_route.
  - exact demo_command.
  - apply RewardsInv.empty_inv.
  - exact RewardsSeq.demo_lost_commit_ok.
  - exact lost_run.
  - right. intros Heq. apply (f_equal (λ c, size c.(Schema.claims))) in Heq.
    vm_compute in Heq. discriminate.
  - exists l2, r2. split; [exact Hrun|].
    destruct (Hans _ (demo_serves r2)) as (w & calls & st & h & H1 & H2 & H3 & H4 & _).
    exists w, calls, st, h. split_and!; assumption.
Defined.

End HttpSafety.
