(* ===== verification/AdminSafety.v ===== *)
(** * What the worker's admin server guarantees

    The protocol of every request to the admin server, and what its readiness
    answer says. *)
From S2P Require Import Prelude.
From S2P Require Import GoErrors.
From S2P Require Import Prog.
From S2P Require Import GoStrings.
From S2P Require Import GoJson.
From S2P Require Import Config.
From S2P Require Import Http.
From S2P Require Import HttpCalls.
From S2P Require Import Health.
From S2P Require Import AdminHttp.
From S2P Require Import HttpLogic.
From S2P Require Import HttpWrites.
From S2P Require Import Readiness.
Local Open Scope Z_scope.

Module AdminSafety.
Import Http HttpCalls AdminHttp HttpLogic HttpWrites.

(** ** The protocol of a request *)

(** What the request observer and the final log line were given. *)
Record progress := MkProgress { observed : option Z; logged : option (level * string) }.
Definition start : progress := MkProgress None None.

(** Only the configured checks and the metrics handler are called, before the one
    observation, under a fixed route label, and the one final log line; the admin
    server claims nothing. *)
Definition protocol (s : Server) (r : Request) (g : progress) (c : call) : option progress :=
  match g.(logged) with
  | Some _ => None
  | None =>
      match c with
      | CCheck name =>
          if bool_decide (g.(observed) = None) && bool_decide (name ∈ Health.Name <$> s.(checks))
          then Some g else None
      | CMetrics _ => if bool_decide (g.(observed) = None) && s.(metricsHandler) then Some g else None
      | CObserveRequest route method st _ =>
          if bool_decide (g.(observed) = None) && s.(observer)
             && bool_decide (route ∈ ["unknown"%string; routeLivez; routeReadyz; routeMetrics])
             && bool_decide (method = r.(Method))
          then Some (MkProgress (Some st) None) else None
      | CLog l message attrs =>
          if bool_decide (message = "worker admin request")%string
          then Some (MkProgress g.(observed) (Some (l, log_status attrs)))
          else Some g
      | CSince | CStack => Some g
      | _ => None
      end
  end.

Definition fixed_headers (h : headers) : Prop :=
  h !! "X-Content-Type-Options"%string = Some ["nosniff"%string]
  ∧ h !! "Referrer-Policy"%string = Some ["no-referrer"%string].

#[export] Instance fixed_headers_protected : ProtectedOnly fixed_headers.
Proof.
  split.
  - intros h h' Heq [H1 H2]. unfold fixed_headers. by rewrite <-!Heq by set_solver.
  - intros h [H1 H2]. unfold fixed_headers. by rewrite lookup_insert_eq, lookup_insert_ne.
Qed.

(** promhttp's handler writes final statuses only and leaves the middleware's
    headers. *)
Definition sane_reply (c : call) : reply c → Prop :=
  match c with CMetrics _ => λ r, Forall final_op r.1 | _ => λ _, True end.

(** The end of a request: the log line, at the level of the status, and the
    observation carry the status the client got, 0 when the connection is
    aborted; when nothing was written, the 200 net/http sends. *)
Definition completed (s : Server) (g : progress) (w : ResponseWriter) (out : result panic unit)
  : Prop :=
  ∃ st, g.(logged) = Some (if 400 <=? st then LevelWarn else LevelDebug, strconv_Itoa st)
        ∧ g.(observed) = (if s.(observer) then Some st else None)
        ∧ sent_ok fixed_headers w
        ∧ match out with
          | Ok _ => st = match w.(sent) with Some (st', _) => st' | None => 200 end
          | Err p => p = ErrAbortHandler ∧ st = 0
          end.

Section Admin.
Context (s : Server) (r : Request).

Local Abbreviation triple := (hwp (protocol s r) sane_reply).
Local Abbreviation good := (recorder_ok fixed_headers).
Local Abbreviation writeJSON_triple := (HttpWrites.writeJSON_triple fixed_headers).

Lemma mux_good {M : ServeMux} rec :
  Forall final_op (mux_answer r) → good rec →
  triple start rec (mux s r) (λ g rec' _, g = start ∧ good rec').
Proof.
  intros Hmux Hrec. unfold mux.
  destruct (mux_match (routes s) r) as [[route|]|] eqn:Hm.
  - case_bool_decide; [by apply (live_triple fixed_headers)|].
    case_bool_decide as Hready.
    { apply (ready_triple fixed_headers); [|done..]. apply Forall_forall. intros c Hc.
      unfold protocol. simpl. rewrite bool_decide_eq_true_2; [done|].
      apply list_elem_of_fmap. by exists c. }
    assert (metricsHandler s = true) as Hmetrics.
    { unfold mux_match in Hm. repeat case_match; simplify_eq.
      match goal with H : find _ _ = _ |- _ => apply find_some in H as [Hin _] end.
      unfold routes in Hin. destruct (metricsHandler s); simpl in Hin; naive_solver. }
    apply hwp_bind. eapply hwp_call; [unfold protocol; simpl; by rewrite Hmetrics|].
    intros [ops p] Hops. simpl in Hops. apply hwp_bind, (hops_triple fixed_headers); [done..|].
    intros rec' Hrec'. by destruct p.
  - by apply writeJSON_triple.
  - by apply (hops_triple fixed_headers).
Qed.

(** The recorder after the recovery, and whether the connection is aborted. *)
Lemma recover_good rec recovered (Q : progress → statusRecorder → result panic bool → Prop) :
  good rec →
  (∀ rec', good rec' → Q start rec' (Ok false)) →
  (∀ rec', status rec' = 0 → sent_ok fixed_headers rec'.(rw) → Q start rec' (Ok true)) →
  triple start rec (handleRecoveredPanic recovered) Q.
Proof.
  intros Hrec HQ Habort. unfold handleRecoveredPanic.
  pose proof (recorder_sent fixed_headers rec Hrec).
  destruct recovered as [[|type]|]; [|..|by apply hwp_ret, HQ].
  - apply hwp_bind, hwp_step, hwp_ret. by apply Habort.
  - apply hwp_bind. eapply hwp_call; [done|]. intros stack _.
    apply hwp_bind. eapply hwp_call; [done|]. intros _ _.
    apply hwp_bind, hwp_step. simpl. destruct (wroteHeader rec).
    + apply hwp_bind, hwp_step, hwp_ret. by apply Habort.
    + apply hwp_bind, hwp_step. simpl. apply hwp_bind, writeJSON_triple; [done|header_ok_del|].
      intros rec' Hrec'. by apply hwp_ret, HQ.
Qed.

Lemma admin_routeName_fixed :
  routeName r ∈ ["unknown"%string; routeLivez; routeReadyz; routeMetrics].
Proof. unfold routeName. case_bool_decide; set_solver. Qed.

Lemma finish_good rec recovered :
  good rec →
  triple start rec (finish_request s r recovered) (λ g rec' out, completed s g rec'.(rw) out).
Proof.
  intros Hrec. unfold finish_request.
  set (record abort := hbind (hcall (reply := reply) CSince) _).
  assert (∀ abort rec', sent_ok fixed_headers rec'.(rw) →
    (if abort : bool then status rec' = 0
     else status rec' = match rec'.(rw).(sent) with Some (st, _) => st | None => 200 end) →
    triple start rec' (record abort) (λ g rec' out, completed s g rec'.(rw) out)) as Hrecord.
  { intros abort rec' Hsent Hst. apply hwp_bind. eapply hwp_call; [done|]. intros d _.
    apply hwp_bind, hwp_step. simpl. apply hwp_bind.
    assert (∀ g, g = MkProgress (if observer s then Some (status rec') else None) None →
      ∀ l a, l = (if 400 <=? status rec' then LevelWarn else LevelDebug) →
      log_status a = strconv_Itoa (status rec') →
      triple g rec' (hbind (hcall (reply := reply) (CLog l "worker admin request" a))
        (λ _, if abort then hpanic ErrAbortHandler else hret tt))
        (λ g rec' out, completed s g rec'.(rw) out)) as Hlog.
    { intros g -> l a -> Ha. apply hwp_bind. eapply hwp_call; [done|]. intros _ _.
      destruct abort; (exists (status rec'); simpl; rewrite Ha; do 3 (split; [done|]); done). }
    destruct (observer s) eqn:Hobs.
    - eapply hwp_call.
      { unfold protocol. simpl. rewrite Hobs.
        rewrite (bool_decide_eq_true_2 (routeName r ∈ _)) by apply admin_routeName_fixed.
        by rewrite bool_decide_eq_true_2. }
      intros _ _. by apply Hlog.
    - apply hwp_ret. by apply Hlog. }
  apply hwp_bind, recover_good; [done| |by intros; apply Hrecord].
  intros rec' Hrec'. pose proof (recorder_sent fixed_headers rec' Hrec') as Hsent.
  apply Hrecord; [done|]. destruct Hrec' as [_ Hst].
  destruct (sent (rw rec')) as [[]|]; naive_solver.
Qed.

Lemma handler_good {M : ServeMux} cfg :
  Forall final_op (mux_answer r) →
  triple start new_writer (srv_Handler (NewServer cfg s) r) (completed s).
Proof.
  intros Hmux. cbn [srv_Handler NewServer]. unfold middleware, secureHeaders.
  apply hwp_bind, hwp_step. simpl. apply hwp_bind, hwp_step. simpl.
  unfold requestLogger, hwp. apply wp_pbind. eapply wp_mono.
  { apply mux_good; [done|]. split; [|done]. unfold fixed_headers, header_Set. simpl. by vm_compute. }
  intros g [rec out] [-> Hrec]. simpl in *. apply wp_pbind.
  eapply wp_mono; [by apply finish_good|]. by intros g' [rec' out'].
Qed.

End Admin.

(** C35: every request to the worker's admin server is served to the end, whatever
    the checks and the metrics handler do, panics included; it never claims
    anything, calls only the configured checks and handler, and ends with one
    observation, under a fixed route label, and one log line, at the level and
    with the status of what the client got (0 when the connection is aborted);
    what is sent carries the security headers. *)
Theorem admin_request_protocol {M : ServeMux} cfg s r o
    (Henv : respects sane_reply o) (Hmux : Forall final_op (mux_answer r)) :
  ∃ w out calls g,
    run o [] (srv_Handler (NewServer cfg s) r new_writer) = Some ((w, out), calls)
    ∧ trace (protocol s r) start calls = Some g
    ∧ completed s g w out.
Proof.
  pose proof (handler_good s r cfg Hmux) as H.
  destruct (wp_run _ _ o _ _ [] start Henv H) as ([w out] & calls & g & Hr & Ht & HQ).
  rewrite app_nil_r in Hr. by exists w, out, calls, g.
Qed.

(** A readiness request while the worker's loop is not running. *)
Definition demo_mux : ServeMux := {| mux_answer _ := [OWriteHeader 404] |}.
Definition demo_server : Server := MkServer true true Readiness.worker_checks.
Definition demo_config : Config.HTTPConfig :=
  Config.MkHTTP Config.defaultWorkerAdminAddr Config.defaultHTTPReadTimeout
    Config.defaultHTTPReadHeaderTimeout Config.defaultHTTPWriteTimeout
    Config.defaultHTTPIdleTimeout.

Lemma admin_request_protocol_witness :
  ∃ w out calls g,
    run Readiness.check_environment []
      (srv_Handler (@NewServer demo_mux demo_config demo_server) Readiness.ready_request new_writer)
      = Some ((w, out), calls)
    ∧ trace (protocol demo_server Readiness.ready_request) start calls = Some g
    ∧ completed demo_server g w out.
Proof.
  apply (@admin_request_protocol demo_mux demo_config demo_server Readiness.ready_request
           Readiness.check_environment).
  - intros log []; simpl; auto.
  - repeat constructor; vm_compute; discriminate.
Defined.

End AdminSafety.
