(* ===== verification/MetricsFacts.v ===== *)
(** * What the metrics guarantee

    Registration, the bound on the label values whatever is observed, and the
    agreement of the reward metrics with the responses of the API. *)
From S2P Require Import Prelude.
From S2P Require Import GoErrors.
From S2P Require Import Prog.
From S2P Require Import ProgLogic.
From S2P Require Import GoStrings.
From S2P Require Import GoJson.
From S2P Require Import Schema.
From S2P Require Import Availability.
From S2P Require Import Rewards.
From S2P Require Import RewardsTx.
From S2P Require Import RewardsSql.
From S2P Require Import RewardsDemo.
From S2P Require Import RewardsInv.
From S2P Require Import RewardsLogic.
From S2P Require Import RewardsErrors.
From S2P Require Import RewardsSeq.
From S2P Require Import Outbox.
From S2P Require Import Worker.
From S2P Require Import Http.
From S2P Require Import HttpCalls.
From S2P Require Import HttpApi.
From S2P Require Import HttpFacts.
From S2P Require Import HttpClaims.
From S2P Require Import HttpSafety.
From S2P Require Import Metrics.
From Stdlib Require Import Ascii.
Local Open Scope Z_scope.

Module MetricsFacts.
Import RewardsDemo ProgLogic Metrics.

(** ** Registration *)

(** client_golang, whose answers may depend on the calls so far, latest first. *)
Abbreviation registry := (environment (reply := reply)).

Definition metric_id (c : Collector) : string * string * string := (c.(Namespace), c.(Subsystem), c.(Name)).

(** A registry accepts a collector whose name it does not hold yet. *)
Definition accepts_fresh (o : registry) : Prop :=
  ∀ log, o log CRegisterGoCollector = None ∧ o log CRegisterProcessCollector = None
  ∧ ∀ c, (∀ c', CRegister c' ∈ log → metric_id c' ≠ metric_id c) → o log (CRegister c) = None.

Lemma register_all_fresh o log cs :
  accepts_fresh o → NoDup (metric_id <$> cs) → (∀ c c', c ∈ cs → CRegister c' ∈ log → metric_id c' ≠ metric_id c) →
  run o log (register_all cs) = Some (Ok tt, rev (CRegister <$> cs) ++ log).
Proof.
  intros Ho. revert log. induction cs as [|c cs IH]; intros log Hnd Hfresh; [done|]. simpl.
  rewrite fmap_cons in Hnd. apply NoDup_cons in Hnd as [Hc Hnd].
  destruct (Ho log) as (_ & _ & ->); [|intros c' Hc'; apply (Hfresh c c'); [by left|done]].
  rewrite IH, <-app_assoc; [done|done|]. intros c1 c2 H1 [[= ->]|H2]%elem_of_cons.
  - intros Heq. apply Hc. rewrite Heq. by apply list_elem_of_fmap_2.
  - apply (Hfresh c1 c2); [by right|done].
Qed.

(** The collectors of the two processes. *)
Definition http_collectors : list Collector := [http_metrics.(requests); http_metrics.(duration)].
Definition reward_collectors : list Collector :=
  [reward_metrics.(claims); reward_metrics.(idempotency)].
Definition all_collectors : list Collector :=
  http_collectors ++ reward_collectors ++ worker_collectors worker_metrics.

Lemma collectors_distinct : NoDup (metric_id <$> all_collectors).
Proof. refine (bool_decide_eq_true_1 _ _). vm_compute. reflexivity. Qed.

(** ** The label values *)

(** The values of a label of a collector. *)
Definition status_codes : list string := "unknown"%string :: (strconv_Itoa <$> seqZ 100 500).
Definition routes : list string :=
  ["/livez"; "/readyz"; "/metrics"; "/v1/reward-claims"; "unknown"]%string.
Definition label_domain (c : Collector) (label : string) : list string :=
  if bool_decide (label = "route") then routes
  else if bool_decide (label = "method") then ["GET"; "POST"; "other"]
  else if bool_decide (label = "status_code") then status_codes
  else if bool_decide (label = "event_type") then ["reward_claimed"; "unknown"]
  else if bool_decide (label = "failure_reason") then ["failed"; "timeout"; "canceled"; "unknown"]
  else if bool_decide (label = "operation") then
    ["claim"; "mark_published"; "schedule_retry"; "mark_dead_letter"; "unknown"]
  else (* outcome *)
    if bool_decide (c.(Subsystem) = "reward_claim") then
      ["created"; "already_claimed"; "replayed_created"; "replayed_already_claimed";
       "idempotency_key_reused"; "canceled"; "unavailable"; "internal_error"]
    else if bool_decide (c.(Subsystem) = "idempotency") then
      ["new"; "replayed"; "key_reused"; "canceled"; "failed"]
    else if bool_decide (c.(Name) = "claim_attempts_total") then ["claimed"; "empty"; "error"]
    else ["success"; "failed"; "timeout"; "canceled"]%string.

(** The time series a collector can have. *)
Fixpoint products (domains : list (list string)) : list (list string) :=
  match domains with
  | [] => [[]]
  | d :: ds => v ← d; (cons v) <$> products ds
  end.
Definition series (c : Collector) : list (list string) := products (label_domain c <$> c.(Labels)).

(** A call that observes a registered collector of the right kind, in one of its
    series, so that [WithLabelValues] does not panic. *)
Definition bounded_call (c : call) : Prop :=
  match c with
  | CInc v values =>
      v ∈ all_collectors ∧ v.(Kind) = CounterVec ∧ values ∈ series v
      ∧ length values = length v.(Labels) ∧ Forall (λ x, utf8_ValidString x = true) values
  | CObserve v values _ =>
      v ∈ all_collectors ∧ v.(Kind) = HistogramVec durationBuckets ∧ values ∈ series v
      ∧ length values = length v.(Labels) ∧ Forall (λ x, utf8_ValidString x = true) values
  | _ => False
  end.

Lemma elem_products values ds : values ∈ products ds ↔ Forall2 elem_of values ds.
Proof.
  revert values. induction ds as [|d ds IH]; intros values; simpl.
  { rewrite list_elem_of_singleton. split; [by intros ->|by inversion 1]. }
  rewrite list_elem_of_bind. split.
  - intros (v & Hv & Hin). apply list_elem_of_fmap in Hv as (vs & -> & Hvs).
    constructor; [done|by apply IH].
  - inversion 1 as [|v ? vs ? Hv Hvs]; subst. exists v. split; [|done].
    apply list_elem_of_fmap. exists vs. split; [done|by apply IH].
Qed.

(** All domains are valid UTF-8, checked once. *)
Definition all_domains : list string :=
  c ← all_collectors; l ← c.(Labels); label_domain c l.
Lemma domains_utf8 : Forall (λ x, utf8_ValidString x = true) all_domains.
Proof.
  apply Forall_forall. intros x Hx.
  assert (forallb utf8_ValidString all_domains = true) as H by (vm_compute; reflexivity).
  rewrite forallb_forall in H. by apply H, list_elem_of_In.
Qed.

(** Values in the domains of the labels make a bounded call. *)
Lemma in_series v values :
  v ∈ all_collectors → Forall2 (λ x l, x ∈ label_domain v l) values v.(Labels) →
  values ∈ series v ∧ length values = length v.(Labels)
  ∧ Forall (λ x, utf8_ValidString x = true) values.
Proof.
  intros Hv H. split; [|split].
  - apply elem_products. by apply Forall2_fmap_r.
  - by eapply Forall2_length.
  - apply Forall_forall. intros x Hx. pose proof domains_utf8 as Hd. rewrite Forall_forall in Hd.
    apply Hd. apply list_elem_of_lookup in Hx as [i Hi].
    destruct (Forall2_lookup_l _ _ _ _ _ H Hi) as (l & Hl & Hin).
    apply list_elem_of_bind. exists v. split; [|done].
    apply list_elem_of_bind. exists l. split; [done|]. by eapply list_elem_of_lookup_2.
Qed.

(** Whatever is observed by the two servers and the worker. *)
Inductive observation :=
| OHTTP (route method : string) (status duration : Z)
| OClaim (result : Rewards.CreateClaimResult) (err : option goerr)
| OWorker (o : Worker.observation).

Definition observe (o : observation) : list call :=
  match o with
  | OHTTP route method status d => HTTP_ObserveRequest (Some http_metrics) route method status d
  | OClaim result err => ObserveRewardClaim (Some reward_metrics) result err
  | OWorker o => worker_observer (Some worker_metrics) o
  end.

Lemma bounded_inc v values :
  v ∈ all_collectors → v.(Kind) = CounterVec →
  Forall2 (λ x l, x ∈ label_domain v l) values v.(Labels) → bounded_call (CInc v values).
Proof. intros Hv Hk Hvs. simpl. split; [done|]. split; [done|]. by apply in_series. Qed.

Lemma bounded_observe v values seconds :
  v ∈ all_collectors → v.(Kind) = HistogramVec durationBuckets →
  Forall2 (λ x l, x ∈ label_domain v l) values v.(Labels) → bounded_call (CObserve v values seconds).
Proof. intros Hv Hk Hvs. simpl. split; [done|]. split; [done|]. by apply in_series. Qed.

(** The normalisers map into the domains. *)
Ltac pick_domain :=
  match goal with
  | |- ?x ∈ label_domain ?v ?l =>
      let d := eval vm_compute in (label_domain v l) in change (label_domain v l) with d
  end.
Ltac normalised :=
  unfold normalizeRoute, normalizeMethod, normalizeEventType, normalizeClaimOutcome,
    normalizePublishOutcome, normalizeFailureReason, normalizeOperation, mapClaimSuccess,
    mapIdempotencySuccess, routes;
  repeat case_match; repeat case_bool_decide; set_solver.
Ltac bounded :=
  match goal with
  | |- bounded_call (CInc _ _) => apply bounded_inc
  | |- bounded_call (CObserve _ _ _) => apply bounded_observe
  end; [unfold all_collectors, http_collectors, reward_collectors, worker_collectors; set_solver
       |reflexivity
       |repeat first [apply List.Forall2_nil | apply List.Forall2_cons]].

(** Each call of a list. *)
Ltac each := repeat first [apply List.Forall_nil | apply List.Forall_cons].

Lemma status_code_domain st :
  (if (100 <=? st) && (st <=? 599) then strconv_Itoa st else "unknown"%string) ∈ status_codes.
Proof.
  unfold status_codes. destruct (Z.leb_spec 100 st); [|by left].
  destruct (Z.leb_spec st 599); [|by left]. right. apply list_elem_of_fmap_2, elem_of_seqZ. lia.
Qed.

Lemma http_bounded route method st d : Forall bounded_call (observe (OHTTP route method st d)).
Proof.
  simpl. each; bounded.
  1,2,4,5: pick_domain; normalised.
  apply status_code_domain.
Qed.

Lemma claim_bounded result err : Forall bounded_call (observe (OClaim result err)).
Proof.
  simpl. destruct err as [err|]; [repeat case_match|]; each; bounded;
    pick_domain; normalised.
Qed.

Lemma worker_bounded o : Forall bounded_call (observe (OWorker o)).
Proof. destruct o; each; bounded; pick_domain; normalised. Qed.

(** C38: whatever the servers and the worker observe, with any route, method,
    status, error, event type or outcome, every call to client_golang is an
    observation of a registered collector of the right kind whose label values are
    as many as its labels, valid UTF-8, and in a fixed finite set of time series,
    so that it cannot panic; all collectors together have at most 7595 series,
    whatever the traffic, and nothing but the observations' own classes reaches a
    label. *)
Theorem observations_bounded o :
  Forall bounded_call (observe o)
  ∧ foldr Z.add 0 ((λ c, Z.of_nat (length (series c))) <$> all_collectors) = 7595.
Proof.
  split; [destruct o; [apply http_bounded|apply claim_bounded|apply worker_bounded]|].
  vm_compute. reflexivity.
Qed.

(** ** The reward metrics and the responses *)

Section responses.
Context `{Postgres}.

(** What the service returns. *)
Definition service_outcome (res : result goerr Rewards.CreateClaimResult) : Prop :=
  match res with
  | Ok r => r.(Rewards.StatusCode) = 201
            ∨ r.(Rewards.StatusCode) = 409 ∧ r.(Rewards.ResponseBody) = RewardsInv.duplicate_body
  | Err err => (∃ m, err = EInvalidInput m)
               ∨ ∃ e, RewardsLogic.tx_error e ∧ err = EWrap "create reward claim" e
  end.

Lemma run_outcome cmd fuel chs c a c1 l1 res :
  RewardsInv.db_inv c a → Forall RewardsLogic.choice_ok chs →
  RewardsSql.run chs c RewardsSql.init_local (RewardsTx.CreateClaim fuel cmd) = Some (c1, l1, res) →
  service_outcome res.
Proof.
  intros Hinv Hchs Hrun. destruct (Rewards.prepareCreateClaim cmd) as [p|e] eqn:Hp.
  - rewrite (HttpSafety.run_CreateClaim _ _ _ _ _ p Hp) in Hrun.
    destruct (RewardsSql.run _ _ _ _) as [[[c' l'] r1]|] eqn:Hr; [|done].
    injection Hrun as -> -> <-.
    destruct (RewardsSeq.createClaim_run _ _ _ _ _ _ _ _ Hinv
                (Rewards.prepareCreateClaim_params _ _ Hp) Hchs Hr)
      as (_ & _ & _ & k & _ & Hpost).
    destruct r1 as [r|e]; simpl in *.
    + destruct Hpost as (_ & _ & [(cr & _ & _ & Hst) _] & _).
      by destruct Hst as [[? _]|?]; [left|right].
    + destruct Hpost as [He _]. right. by exists e.
  - unfold RewardsTx.CreateClaim in Hrun. rewrite Hp in Hrun. simpl in Hrun. simplify_eq.
    left. by apply (Rewards.prepareCreateClaim_error cmd).
Qed.

(** The calls to client_golang for the outcomes the handlers observe in a run. *)
Definition claim_metrics (calls : list HttpCalls.call) : list call :=
  '(result, err) ← omap HttpClaims.claim_observation calls; observe (OClaim result err).

(** The increments that go with what the client got: the status, whether the
    response is marked as a replay, and which of the two conflicts it names. *)
Definition reused_body : bytes :=
  marshal (HttpCalls.error_body HttpApi.errorCodeIdempotencyKeyReused
             "Idempotency-Key was reused with a different request payload") ++ [chr 10].
Definition counts (claim idem : string) : list call :=
  [CInc reward_metrics.(claims) [claim]; CInc reward_metrics.(idempotency) [idem]].
Definition told (w : Http.ResponseWriter) : list call :=
  match w.(Http.sent) with
  | None => counts "canceled" "canceled"
  | Some (st, h) =>
      let replayed :=
        bool_decide (Http.header_Values h HttpApi.headerIdempotentReplayed = ["true"%string]) in
      if st =? 201 then
        if replayed then counts "replayed_created" "replayed" else counts "created" "new"
      else if st =? 409 then
        if bool_decide (w.(Http.body) = reused_body)
        then counts "idempotency_key_reused" "key_reused"
        else if replayed then counts "replayed_already_claimed" "replayed"
        else counts "already_claimed" "new"
      else if st =? 503 then counts "unavailable" "failed"
      else if st =? 500 then counts "internal_error" "failed"
      else []
  end.

Lemma duplicate_not_reused : to_bytes RewardsInv.duplicate_body ≠ reused_body.
Proof. refine (bool_decide_eq_true_1 _ _). vm_compute. reflexivity. Qed.

(** The class of a transaction's error, by the sentinel it carries. *)
Lemma tx_error_class e :
  RewardsLogic.tx_error e →
  ∃ s, (s = rewards_ErrInternal ∨ s = rewards_ErrUnavailable ∨ s = rewards_ErrIdempotencyKeyReused
        ∨ s = context_Canceled ∨ s = context_DeadlineExceeded)
  ∧ (∀ t, errors_Is e t = bool_decide (s = t)) ∧ errors_As as_InvalidInput e = None.
Proof.
  assert (∀ s m, ∀ t, errors_Is (EWrap m (ESentinel s)) t = bool_decide (s = t)) as Hw by done.
  intros [[f ->]|[-> | ->]].
  - unfold RewardsTx.map_fail, RewardsTx.mapPostgresError.
    destruct (Availability.map_error_class "postgres reward claim operation returned no row"
      "postgres reward claim operation" rewards_ErrInternal rewards_ErrUnavailable
      rewards_errPostgresQueryTimeout (Some (RewardsTx.fail_ctx f)) (RewardsTx.fail_err f))
      as [->|[->|[->|(c & s & [= <-] & Hs & _ & _ & ->)]]].
    + exists rewards_ErrInternal. auto.
    + exists rewards_ErrInternal. auto.
    + exists rewards_ErrUnavailable. auto.
    + exists s. destruct (RewardsTx.fail_ctx f); simplify_eq/=; auto 10.
  - exists rewards_ErrIdempotencyKeyReused. auto.
  - exists rewards_ErrInternal. auto.
Qed.

Lemma told_success ctx r w :
  service_outcome (Ok r) → HttpClaims.delivered ctx (Ok r) w →
  observe (OClaim r None) ≡ₚ told w.
Proof.
  intros Hr (h & Hs & Hb & _ & Hh). unfold told. rewrite Hs, Hb, Hh. simpl.
  unfold mapClaimSuccess, mapIdempotencySuccess.
  destruct Hr as [-> |[-> ->]]; [by destruct (Rewards.Replayed r); apply perm_swap|].
  rewrite (bool_decide_eq_false_2 _ duplicate_not_reused).
  by destruct (Rewards.Replayed r); apply perm_swap.
Qed.

(** The increments of an error response. *)
Lemma told_answer e st code message h w :
  HttpClaims.error_answer e = (st, code, message) → w.(Http.sent) = Some (st, h) →
  w.(Http.body) = marshal (HttpCalls.error_body code message) ++ [chr 10] →
  errors_As as_InvalidInput e = None →
  told w = (if errors_Is e rewards_ErrIdempotencyKeyReused
            then counts "idempotency_key_reused" "key_reused"
            else if errors_Is e rewards_ErrUnavailable then counts "unavailable" "failed"
            else counts "internal_error" "failed").
Proof.
  intros Hans Hs Hb Has. unfold told. rewrite Hs. unfold HttpClaims.error_answer in Hans.
  destruct (errors_Is e rewards_ErrIdempotencyKeyReused).
  { injection Hans as <- <- <-. by rewrite (bool_decide_eq_true_2 (_ = reused_body) Hb). }
  rewrite Has in Hans. by destruct (errors_Is e rewards_ErrUnavailable); injection Hans as <- _ _.
Qed.

Lemma told_error ctx e w :
  RewardsLogic.tx_error e → RewardsErrors.own_error ctx e →
  HttpClaims.delivered ctx (Err (EWrap "create reward claim" e)) w →
  observe (OClaim HttpApi.zero_result (Some (EWrap "create reward claim" e))) = told w.
Proof.
  intros He Hown. destruct (tx_error_class e He) as (s & Hs & His & Has).
  change (∀ t, errors_Is (EWrap "create reward claim" e) t = bool_decide (s = t)) in His.
  change (errors_As as_InvalidInput (EWrap "create reward claim" e) = None) in Has.
  assert (∀ t, ctx_Err ctx = Some t → t = context_Canceled ∨ t = context_DeadlineExceeded) as Hctx
    by (destruct ctx; naive_solver).
  assert (s = context_Canceled ∨ s = context_DeadlineExceeded → ctx_Err ctx = Some s) as Hend.
  { intros Ht. apply (Hown s Ht). rewrite <-(errors_Is_wrap "create reward claim"), His.
    by apply bool_decide_eq_true. }
  set (err := EWrap "create reward claim" e) in *. clearbody err.
  unfold HttpClaims.delivered, HttpClaims.service_answer, is_ctx_error, observe, ObserveRewardClaim.
  destruct (ctx_Err ctx) as [t|] eqn:Ht; [specialize (Hctx t eq_refl)|];
    rewrite ?(His t), ?(His rewards_ErrIdempotencyKeyReused), ?(His context_Canceled),
      ?(His context_DeadlineExceeded), ?(His rewards_ErrUnavailable); [case_bool_decide as Hst|].
  { subst s. intros [Hn _]. unfold told. rewrite Hn. by destruct Hctx as [-> | ->]. }
  all: destruct (HttpClaims.error_answer err) as [[st code] message] eqn:Ha;
    intros (h & Hsent & Hb & _); rewrite (told_answer err st code message h w Ha Hsent Hb Has), !His;
    destruct Hs as [->|[->|[->|Hs]]]; try reflexivity; specialize (Hend Hs); congruence.
Qed.

(** C37: the reward metrics tell what the clients were told: for every claim request
    that reaches the service and every run of its transaction, failures and input
    errors included, the calls the handler makes of its observer increment exactly
    one claim outcome and one idempotency outcome, those of the response: created or
    already claimed, fresh or replayed; a reused key; unavailable; an internal error;
    "canceled" when nothing was sent because the client's request had ended; nothing
    for an invalid request, and nothing without an observer. The query contexts are
    those the store derives from the request's context. *)
Theorem metrics_match_response {M : Http.ServeMux} s r cmd o ctx fuel chs c a c1 l1 res
    (Hroute : HttpFacts.reaches_claims s r = true) (Hcmd : HttpFacts.request_command r = Some cmd)
    (Hinv : RewardsInv.db_inv c a) (Hchs : Forall RewardsLogic.choice_ok chs)
    (Hctx : Forall (RewardsErrors.query_of ctx) chs)
    (Hrun : RewardsSql.run chs c RewardsSql.init_local (RewardsTx.CreateClaim fuel cmd)
            = Some (c1, l1, res))
    (Hserve : respects (HttpClaims.serves ctx res) o) :
  ∃ w calls,
    run o [] (HttpApi.newRouter s r Http.new_writer) = Some ((w, Ok tt), calls)
    ∧ claim_metrics calls ≡ₚ (if s.(HttpApi.rewardClaimObserver) then told w else []).
Proof.
  pose proof (run_outcome _ _ _ _ _ _ _ _ Hinv Hchs Hrun) as Hres.
  pose proof (RewardsErrors.run_own _ _ _ _ _ _ _ _ Hctx Hrun) as Hown.
  assert (HttpClaims.answerable res) as Hans.
  { destruct res as [result|]; [|done]. simpl in *. by destruct Hres as [-> |[-> _]]. }
  destruct (HttpClaims.router_run ctx res Hans s r cmd o Hroute Hcmd Hserve)
    as (w & calls & Hr & Hd & Hobs).
  exists w, calls. split; [exact Hr|]. unfold claim_metrics. rewrite Hobs.
  unfold HttpClaims.observations. destruct res as [result|err].
  - destruct (HttpApi.rewardClaimObserver s); [|done]. by apply (told_success ctx).
  - destruct Hres as [[m ->]|(e & He & ->)].
    + rewrite bool_decide_eq_true_2, andb_false_r by done.
      destruct (HttpApi.rewardClaimObserver s); [|done].
      unfold HttpClaims.delivered, HttpClaims.service_answer, is_ctx_error in Hd.
      unfold told. destruct ctx; simpl in Hd; destruct Hd as (h & -> & _); done.
    + destruct (tx_error_class e He) as (_ & _ & _ & Has). cbn [errors_As as_InvalidInput].
      rewrite Has, bool_decide_eq_false_2, andb_true_r by (by intros [? ?]).
      destruct (HttpApi.rewardClaimObserver s); [|done].
      rewrite <-(told_error ctx e w He Hown Hd). apply reflexive_eq. cbn [mbind list_bind].
      apply app_nil_r.
Qed.

End responses.

(** The call whose commit is not acknowledged, of a live request. *)
Lemma demo_lost_commit_live : Forall (RewardsErrors.query_of CtxLive) RewardsSeq.demo_lost_commit.
Proof.
  unfold RewardsSeq.demo_lost_commit, RewardsSeq.fault_at. simpl.
  repeat (apply Forall_cons; split; [split; [done|intros f b Hf; simpl in Hf; simplify_eq; done]|]).
  constructor.
Qed.

Lemma metrics_match_response_witness :
  ∃ w calls,
    run (HttpSafety.demo_environment (Ok HttpSafety.lost_result)) []
        (@HttpApi.newRouter HttpSafety.demo_mux HttpSafety.demo_server HttpSafety.demo_request
           Http.new_writer)
      = Some ((w, Ok tt), calls)
    ∧ claim_metrics calls ≡ₚ told w.
Proof.
  apply (@metrics_match_response demo_postgres HttpSafety.demo_mux HttpSafety.demo_server
           HttpSafety.demo_request HttpSafety.sent_command
           (HttpSafety.demo_environment (Ok HttpSafety.lost_result)) CtxLive 1
           RewardsSeq.demo_lost_commit Schema.empty_db ∅ RewardsSeq.demo_db RewardsSeq.demo_local
           HttpSafety.lost_result).
  - exact HttpSafety.demo_route.
  - exact HttpSafety.demo_command.
  - apply RewardsInv.empty_inv.
  - exact RewardsSeq.demo_lost_commit_ok.
  - exact demo_lost_commit_live.
  - exact HttpSafety.lost_run.
  - apply HttpSafety.demo_serves.
Defined.

End MetricsFacts.
