(* ===== verification/Process.v ===== *)
(** * Processes: calls, logging and the database pool

    What cmd/api and cmd/worker share: the calls [main] makes to the operating
    system, net/http, pgx and client_golang, the logger each process builds, and
    internal/postgres/pool.go. *)
From S2P Require Import Prelude.
From S2P Require Import GoErrors.
From S2P Require Import Prog.
From S2P Require Import GoStrings.
From S2P Require Import Config.
From S2P Require Import Metrics.
Local Open Scope Z_scope.

Module Process.

(** ** Calls *)

(** The value of a log attribute. *)
Inductive value := VString (s : string) | VInt (n : Z) | VError (e : goerr).
Abbreviation attrs := (list (string * value)).

(** The goroutines [main] starts; what they send when they end. *)
Inductive component := Server | Worker.

Inductive call :=
| CCtx                                   (* ctx.Err() *)
| CCause                                 (* context.Cause(ctx).Error() *)
| CLog (l : Z) (message : string) (a : attrs)
| CParseConfig (url : string)            (* pgxpool.ParseConfig *)
| CNewPool                               (* pgxpool.NewWithConfig *)
| CPing (timeout : Z)                    (* pool.Ping, within the timeout *)
| CClosePool
| CMetric (m : Metrics.call)
| CRand (n : Z)                          (* rand.Read of n bytes *)
| CListen (addr : string)                (* net.Listen("tcp", addr) *)
| CCloseListener
| CHostname
| CGetpid
| CGo (c : component)
| CSelect                                (* the [select] of [run] *)
| CStoreReady (b : bool)                 (* workerReady.Store *)
| CCancelWorker
| CShutdown (timeout : Z)                (* server.Shutdown(ctx) *)
| CCloseServer
| CWaitServer                            (* the blocking receive of [stopHTTPServer] *)
| CReceive.                              (* the [select] of [stopComponents] *)

(** [CSelect] returns the component that ended, with the error its function
    returned, or nothing when the context ended; [CReceive] alike, for the
    context of the shutdown. *)
Definition reply (c : call) : Type :=
  match c with
  | CCtx => ctx_state
  | CCause => string
  | CParseConfig _ | CNewPool | CPing _ | CListen _ => result goerr unit
  | CMetric m => Metrics.reply m
  | CRand _ => list Z
  | CHostname => result goerr string
  | CGetpid => Z
  | CSelect | CReceive => option (component * option goerr)
  | CShutdown _ | CCloseServer | CWaitServer => option goerr
  | CLog _ _ _ | CClosePool | CCloseListener | CGo _ | CStoreReady _ | CCancelWorker => unit
  end.

Abbreviation pprog := (Prog.prog reply).

(** The calls of the metrics package are calls of the process. *)
Fixpoint lift {A} (p : Metrics.mprog A) : pprog A :=
  match p with
  | Ret a => Ret a
  | OutOfFuel => OutOfFuel
  | Do c k => Do (CMetric c) (λ r, lift (k r))
  end.

(** ** Logging *)

(** A [*slog.Logger] with a JSON handler: the minimal level and the attributes
    added by [With]. *)
Record Logger := MkLogger { log_level : Z; log_attrs : attrs }.

Definition With (a : attrs) (l : Logger) : Logger := MkLogger l.(log_level) (l.(log_attrs) ++ a).

Definition log (logger : Logger) (l : Z) (message : string) (a : attrs) : pprog unit :=
  if logger.(log_level) <=? l then perform (CLog l message (logger.(log_attrs) ++ a))
  else Ret tt.

(** The default logger of slog, at [LevelInfo]. *)
Definition slog_Error (message : string) (a : attrs) : pprog unit :=
  log (MkLogger Config.LevelInfo []) Config.LevelError message a.

(** [logger.Error(message, slog.Any("error", err)); return 1] *)
Definition fail_with (logger : Logger) (message : string) (err : goerr) : pprog Z :=
  eff! _ := log logger Config.LevelError message [("error", VError err)]%string in
  Ret 1.

(** The same, unless the error is the context's own: then [return 0]. *)
Definition fail_unless_ended (logger : Logger) (message : string) (err : goerr) : pprog Z :=
  eff! ctx := perform CCtx in
  if is_ctx_error ctx err then Ret 0 else fail_with logger message err.

(** ** internal/postgres/pool.go *)

Definition OpenPool (databaseURL : string) : pprog (result goerr unit) :=
  eff! poolConfig := perform (CParseConfig databaseURL) in
  match poolConfig with
  | Err _ => Ret (Err (ENew "parse database config: invalid database configuration"))
  | Ok _ =>
      eff! pool := perform CNewPool in
      match pool with
      | Err err => Ret (Err (EWrap "open database pool" err))
      | Ok _ => Ret (Ok tt)
      end
  end.

(** The pool is given by whether it is non-nil. *)
Definition Ping (pool : bool) (timeout : Z) : pprog (result goerr unit) :=
  if negb pool then Ret (Err (ENew "postgres pool is nil"))
  else
    eff! err := perform (CPing timeout) in
    match err with
    | Err err => Ret (Err (EWrap "ping postgres" err))
    | Ok _ => Ret (Ok tt)
    end.

(** ** Results of the servers *)

(** [if errors.Is(err, http.ErrServerClosed) { err = nil }] *)
Definition serve_result (err : option goerr) : option goerr :=
  if errors_Is_opt err http_ErrServerClosed then None else err.

(** [errors.Join] *)
Definition errors_Join (errs : list (option goerr)) : option goerr :=
  match omap Datatypes.id errs with [] => None | es => Some (EJoin es) end.

(** [if err != nil { err = fmt.Errorf(message, err) }] *)
Definition wrap_opt (message : string) (err : option goerr) : option goerr :=
  EWrap message <$> err.

End Process.
