(* ===== verification/ApiMain.v ===== *)
(** * The API process (cmd/api/main.go) *)
From S2P Require Import Prelude.
From S2P Require Import GoErrors.
From S2P Require Import Prog.
From S2P Require Import GoStrings.
From S2P Require Import Rewards.
From S2P Require Import Config.
From S2P Require Import Metrics.
From S2P Require Import Http.
From S2P Require Import HttpCalls.
From S2P Require Import Health.
From S2P Require Import HttpApi.
From S2P Require Import Process.
Local Open Scope Z_scope.

Module ApiMain.
Import Process.

(** The server is closed by force when it did not shut down in time. *)
Definition stopHTTPServer (shutdownTimeout : Z) : pprog (option goerr) :=
  eff! shutdownErr := perform (CShutdown shutdownTimeout) in
  eff! closeErr := (if shutdownErr is Some _ then perform CCloseServer else Ret None) in
  eff! served := perform CWaitServer in
  let serverErr := serve_result served in
  Ret (errors_Join [wrap_opt "graceful http server shutdown" shutdownErr;
                    wrap_opt "force close http server" closeErr;
                    wrap_opt "http server stopped" serverErr]).

(** After the goroutine was started, which sends the result of [Serve]. *)
Definition supervise (logger : Logger) (cfg : Config.APIConfig) : pprog Z :=
  eff! selected := perform CSelect in
  match selected with
  | Some (_, err) =>
      match serve_result err with
      | Some err => fail_with logger "http server failed" err
      | None => Ret 0
      end
  | None =>
      eff! cause := perform CCause in
      eff! _ := log logger Config.LevelInfo "shutdown requested"
                  [("shutdown_cause", VString cause)]%string in
      eff! err := stopHTTPServer cfg.(Config.api_ShutdownTimeout) in
      match err with
      | Some err => fail_with logger "http server shutdown failed" err
      | None =>
          eff! _ := log logger Config.LevelInfo "shutdown complete" [] in
          Ret 0
      end
  end.

(** From the listener on. *)
Definition serve (logger : Logger) (cfg : Config.APIConfig) (addr : string) : pprog Z :=
  eff! ctx := perform CCtx in
  match ctx_Err ctx with
  | Some _ => Ret 0
  | None =>
      eff! _ := log logger Config.LevelInfo "starting http server" [("addr", VString addr)]%string in
      eff! _ := perform (CGo Server) in
      supervise logger cfg
  end.

Definition observability : HttpApi.Server :=
  HttpApi.MkServer true true true [Health.MkCheck "postgres" true].

Definition listen (logger : Logger) (cfg : Config.APIConfig)
    (server : HttpCalls.http_Server) : pprog Z :=
  eff! ctx := perform CCtx in
  match ctx_Err ctx with
  | Some _ => Ret 0
  | None =>
      let addr := server.(HttpCalls.srv_Addr) in
      eff! listener := perform (CListen addr) in
      match listener with
      | Err err =>
          eff! _ := log logger Config.LevelError "listen on http address"
                      [("addr", VString addr); ("error", VError err)]%string in
          Ret 1
      | Ok _ =>
          eff! code := serve logger cfg addr in
          eff! _ := perform CCloseListener in      (* defer *)
          Ret code
      end
  end.

(** The JSON handler's level, and the attributes of every line. *)
Definition newLogger (cfg : Config.APIConfig) : Logger :=
  With [("service", VString cfg.(Config.api_ServiceName));
        ("env", VString cfg.(Config.api_AppEnv))]%string
    (MkLogger cfg.(Config.api_Log).(Config.Level) []).

(** With the pool open. *)
Definition run_with_pool {M : Http.ServeMux} (logger : Logger) (cfg : Config.APIConfig) : pprog Z :=
  let database := cfg.(Config.api_Database) in
  eff! ping := Ping true database.(Config.PingTimeout) in
  match ping with Err err => fail_unless_ended logger "ping postgres" err | Ok _ =>
  eff! registry := lift Metrics.NewRegistry in
  match registry with Err err => fail_with logger "create metrics registry" err | Ok _ =>
  eff! httpMetrics := lift (Metrics.NewHTTPMetrics true) in
  match httpMetrics with Err err => fail_with logger "register HTTP metrics" err | Ok _ =>
  eff! rewardMetrics := lift (Metrics.NewRewardMetrics true) in
  match rewardMetrics with Err err => fail_with logger "register reward metrics" err | Ok _ =>
  match Rewards.NewService true database.(Config.QueryTimeout) with
  | Err err => fail_with logger "create reward claim service" err
  | Ok _ =>
  match HttpApi.NewServer cfg.(Config.api_HTTP) true true observability with
  | Err err => fail_with logger "create HTTP server" err
  | Ok server => listen logger cfg server
  end end end end end end.

(** The exit code of the process. *)
Definition run {M : Http.ServeMux} (lookup : Config.lookupFunc) : pprog Z :=
  eff! ctx := perform CCtx in
  match ctx_Err ctx with
  | Some _ => Ret 0
  | None =>
      match Config.LoadAPI lookup with
      | Err err =>
          eff! _ := slog_Error "load config" [("error", VError err)]%string in
          Ret 1
      | Ok cfg =>
          let logger := With [("component", VString "api")]%string
            (newLogger cfg) in
          eff! pool := OpenPool cfg.(Config.api_Database).(Config.URL) in
          match pool with
          | Err err => fail_unless_ended logger "open postgres pool" err
          | Ok _ =>
              eff! code := run_with_pool logger cfg in
              eff! _ := perform CClosePool in      (* defer *)
              Ret code
          end
      end
  end.

End ApiMain.
