(* ===== verification/WorkerMain.v ===== *)
(** * The worker process (cmd/worker/main.go) *)
From S2P Require Import Prelude.
From S2P Require Import GoErrors.
From S2P Require Import Prog.
From S2P Require Import GoStrings.
From S2P Require Import Outbox.
From S2P Require Import Worker.
From S2P Require Import Config.
From S2P Require Import Metrics.
From S2P Require Import Http.
From S2P Require Import HttpCalls.
From S2P Require Import Health.
From S2P Require Import AdminHttp.
From S2P Require Import Process.
Local Open Scope Z_scope.

Module WorkerMain.
Import Process.

Definition workerInstanceIDBytes : Z := 16.

Definition newWorkerID : pprog string :=
  eff! instanceID := perform (CRand workerInstanceIDBytes) in
  Ret ("worker-" ++ hex_EncodeToString instanceID)%string.

Definition component_name (c : component) : string :=
  match c with Process.Worker => "worker" | Server => "admin_server" end.

(** What the goroutine of a component sends: the worker's error as it is, the
    server's unless it was closed. *)
Definition component_result (r : component * option goerr) : component * option goerr :=
  match r.1 with Server => (r.1, serve_result r.2) | Process.Worker => r end.

(** The loop of [stopComponents] over the components that have not ended. *)
Fixpoint receive_results (remaining : nat) (componentErr : option goerr)
  : pprog (result goerr (option goerr)) :=
  match remaining with
  | O => Ret (Ok componentErr)
  | S remaining =>
      eff! received := perform CReceive in
      match received with
      | Some r =>
          let '(c, err) := component_result r in
          receive_results remaining
            (match err with
             | Some err =>
                 errors_Join [componentErr; Some (EWrap (component_name c ++ " stopped") err)]
             | None => componentErr
             end)
      | None =>
          eff! _ := perform CCloseServer in
          Ret (Err (EWrap "shutdown timed out" (ESentinel context_DeadlineExceeded)))
      end
  end.

Definition stopComponents (shutdownTimeout : Z) (remaining : nat) : pprog (option goerr) :=
  eff! _ := perform (CStoreReady false) in
  eff! _ := perform CCancelWorker in
  eff! shutdownErr := perform (CShutdown shutdownTimeout) in
  eff! received := receive_results remaining None in
  match received with
  | Err err => Ret (Some err)
  | Ok componentErr =>
      Ret (errors_Join [wrap_opt "shutdown worker admin server" shutdownErr; componentErr])
  end.

(** After the goroutines were started. *)
Definition supervise (logger : Logger) (cfg : Config.WorkerConfig) : pprog Z :=
  eff! selected := perform CSelect in
  match selected with
  | None =>
      eff! cause := perform CCause in
      eff! _ := log logger Config.LevelInfo "shutdown requested"
                  [("shutdown_cause", VString cause)]%string in
      eff! err := stopComponents cfg.(Config.worker_ShutdownTimeout) 2 in
      match err with
      | Some err => fail_with logger "worker shutdown failed" err
      | None =>
          eff! _ := log logger Config.LevelInfo "shutdown complete" [] in
          Ret 0
      end
  | Some r =>
      let '(c, err) := component_result r in
      eff! _ := perform (CStoreReady false) in
      let componentErr :=
        default (ENew (component_name c ++ " stopped unexpectedly")) err in
      eff! _ := log logger Config.LevelError "worker component failed"
                  [("component_name", VString (component_name c)); ("error", VError componentErr)]%string in
      eff! err := stopComponents cfg.(Config.worker_ShutdownTimeout) 1 in
      eff! _ := (match err with
                 | Some err => log logger Config.LevelError "worker component cleanup failed"
                                 [("error", VError err)]%string
                 | None => Ret tt
                 end) in
      Ret 1
  end.

(** From the listener on. *)
Definition serve (logger : Logger) (cfg : Config.WorkerConfig) (workerID addr : string) : pprog Z :=
  eff! ctx := perform CCtx in
  match ctx_Err ctx with
  | Some _ => Ret 0
  | None =>
      eff! hostname := perform CHostname in
      let hostname := match hostname with Ok hostname => hostname | Err _ => "unknown"%string end in
      eff! pid := perform CGetpid in
      eff! _ := log logger Config.LevelInfo "starting outbox worker"
                  [("worker_id", VString workerID); ("hostname", VString hostname);
                   ("process_id", VInt pid)]%string in
      eff! _ := log logger Config.LevelInfo "starting worker admin server"
                  [("addr", VString addr)]%string in
      eff! _ := perform (CGo Process.Worker) in
      eff! _ := perform (CGo Server) in
      eff! code := supervise logger cfg in
      eff! _ := perform CCancelWorker in           (* defer *)
      Ret code
  end.

Definition admin_server : AdminHttp.Server :=
  AdminHttp.MkServer true true [Health.MkCheck "postgres" true; Health.MkCheck "worker" true].

(** The check of the worker's readiness. *)
Definition check_worker (workerReady : bool) : option goerr :=
  if workerReady then None else Some (ENew "worker loop is not running").

Definition listen (logger : Logger) (cfg : Config.WorkerConfig) (workerID : string)
    (adminServer : HttpCalls.http_Server) : pprog Z :=
  eff! ctx := perform CCtx in
  match ctx_Err ctx with
  | Some _ => Ret 0
  | None =>
      let addr := adminServer.(HttpCalls.srv_Addr) in
      eff! listener := perform (CListen addr) in
      match listener with
      | Err err =>
          eff! _ := log logger Config.LevelError "listen on worker admin address"
                      [("addr", VString addr); ("error", VError err)]%string in
          Ret 1
      | Ok _ =>
          eff! code := serve logger cfg workerID addr in
          eff! _ := perform CCloseListener in      (* defer *)
          Ret code
      end
  end.

Definition worker_config (workerID : string) (cfg : Config.OutboxConfig) : Worker.WorkerConfig :=
  Worker.MkConfig workerID cfg.(Config.PollInterval) cfg.(Config.LockTTL)
    cfg.(Config.PublishTimeout) cfg.(Config.MaxFailures) cfg.(Config.BaseBackoff)
    cfg.(Config.MaxBackoff).

(** The JSON handler's level, and the attributes of every line. *)
Definition newLogger (cfg : Config.WorkerConfig) : Logger :=
  With [("service", VString cfg.(Config.worker_ServiceName));
        ("env", VString cfg.(Config.worker_AppEnv))]%string
    (MkLogger cfg.(Config.worker_Log).(Config.Level) []).

(** With the pool open. *)
Definition run_with_pool {M : Http.ServeMux} (logger : Logger) (cfg : Config.WorkerConfig)
  : pprog Z :=
  let database := cfg.(Config.worker_Database) in
  eff! ping := Ping true database.(Config.PingTimeout) in
  match ping with Err err => fail_unless_ended logger "ping postgres" err | Ok _ =>
  eff! registry := lift Metrics.NewRegistry in
  match registry with Err err => fail_with logger "create metrics registry" err | Ok _ =>
  eff! httpMetrics := lift (Metrics.NewHTTPMetrics true) in
  match httpMetrics with Err err => fail_with logger "register HTTP metrics" err | Ok _ =>
  eff! workerMetrics := lift (Metrics.NewWorkerMetrics true) in
  match workerMetrics with Err err => fail_with logger "register worker metrics" err | Ok _ =>
  eff! workerID := newWorkerID in
  match Outbox.NewPostgresStore true database.(Config.QueryTimeout) with
  | Err err => fail_with logger "create outbox store" err
  | Ok _ =>
  match Worker.NewLoggingPublisher true with
  | Err err => fail_with logger "create outbox publisher" err
  | Ok _ =>
  match Worker.NewWorker true true true (worker_config workerID cfg.(Config.worker_Outbox)) with
  | Err err => fail_with logger "create outbox worker" err
  | Ok _ => listen logger cfg workerID (AdminHttp.NewServer cfg.(Config.worker_AdminHTTP) admin_server)
  end end end end end end end.

(** The exit code of the process. *)
Definition run {M : Http.ServeMux} (lookup : Config.lookupFunc) : pprog Z :=
  eff! ctx := perform CCtx in
  match ctx_Err ctx with
  | Some _ => Ret 0
  | None =>
      match Config.LoadWorker lookup with
      | Err err =>
          eff! _ := slog_Error "load config" [("error", VError err)]%string in
          Ret 1
      | Ok cfg =>
          let logger := With [("component", VString "worker")]%string
            (newLogger cfg) in
          eff! pool := OpenPool cfg.(Config.worker_Database).(Config.URL) in
          match pool with
          | Err err => fail_unless_ended logger "open postgres pool" err
          | Ok _ =>
              eff! code := run_with_pool logger cfg in
              eff! _ := perform CClosePool in      (* defer *)
              Ret code
          end
      end
  end.

End WorkerMain.
