(* ===== verification/ProcessLogic.v ===== *)
(** * The protocol of the processes

    What a process holds (the pool, the listener, the goroutines that have not
    ended), the order in which it may use and release it, and the triples for the
    pieces both mains share. *)
From S2P Require Import Prelude.
From S2P Require Import GoErrors.
From S2P Require Import Prog.
From S2P Require Import ProgLogic.
From S2P Require Import GoStrings.
From S2P Require Import Config.
From S2P Require Import Metrics.
From S2P Require Import Process.
Local Open Scope Z_scope.

Module ProcessLogic.
Import ProgLogic Process.

#[export] Instance component_eq_dec : EqDecision component.
Proof. solve_decision. Defined.

(** [listened]: the address the listener was opened on.  [failed]: an error was
    logged.  [ended]: the context of the process was seen ended, by [ctx.Err()] or
    by the [select]. *)
Record state := MkState {
  pool : bool;
  listening : bool;
  listened : option string;
  running : list component;
  started : bool;
  unready : bool;
  cancelled : bool;
  ended : bool;
  failed : bool;
  registered : list Metrics.Collector
}.
Definition start : state := MkState false false None [] false false false false false [].

Definition set_ended (g : state) : state :=
  MkState g.(pool) g.(listening) g.(listened) g.(running) g.(started) g.(unready) g.(cancelled)
    true g.(failed) g.(registered).
Definition set_failed (g : state) : state :=
  MkState g.(pool) g.(listening) g.(listened) g.(running) g.(started) g.(unready) g.(cancelled)
    g.(ended) true g.(registered).
Definition set_pool (b : bool) (g : state) : state :=
  MkState b g.(listening) g.(listened) g.(running) g.(started) g.(unready) g.(cancelled)
    g.(ended) g.(failed) g.(registered).
Definition set_listening (b : bool) (a : option string) (g : state) : state :=
  MkState g.(pool) b a g.(running) g.(started) g.(unready) g.(cancelled) g.(ended) g.(failed)
    g.(registered).
Definition set_running (cs : list component) (g : state) : state :=
  MkState g.(pool) g.(listening) g.(listened) cs true g.(unready) g.(cancelled) g.(ended)
    g.(failed) g.(registered).
Definition set_unready (g : state) : state :=
  MkState g.(pool) g.(listening) g.(listened) g.(running) g.(started) true g.(cancelled)
    g.(ended) g.(failed) g.(registered).
Definition set_cancelled (g : state) : state :=
  MkState g.(pool) g.(listening) g.(listened) g.(running) g.(started) g.(unready) true
    g.(ended) g.(failed) g.(registered).
Definition add_registered (c : Metrics.Collector) (g : state) : state :=
  MkState g.(pool) g.(listening) g.(listened) g.(running) g.(started) g.(unready) g.(cancelled)
    g.(ended) g.(failed) (c :: g.(registered)).

Definition guard {A} (b : bool) (a : A) : option A := if b then Some a else None.
Definition seen_ctx (r : ctx_state) (g : state) : state :=
  match ctx_Err r with Some _ => set_ended g | None => g end.
Definition ended_component (c : component) (g : state) : state :=
  set_running (filter (λ x, x ≠ c) g.(running)) g.

(** The pool is opened once and closed last; the listener is opened once, on it,
    and closed before it; the goroutines start once the listener is open, and their
    results are received while they run.  [worker] says whether the process has a
    worker, which starts first and once: the server is then shut down only when the
    worker is not ready and its context cancelled, and waited for with it. *)
Definition step (worker : bool) (g : state) (c : call) : reply c → option state :=
  match c with
  | CCtx => λ r, Some (seen_ctx r g)
  | CLog l _ _ => λ _, Some (if Config.LevelError <=? l then set_failed g else g)
  | CParseConfig _ => λ _, guard (negb g.(pool)) g
  | CNewPool => λ r, guard (negb g.(pool)) (match r with Ok _ => set_pool true g | Err _ => g end)
  | CPing _ => λ _, guard g.(pool) g
  | CMetric (Metrics.CRegister m) => λ r,
      guard (g.(pool) && negb g.(listening))
        (match r with None => add_registered m g | Some _ => g end)
  | CMetric _ => λ _, guard (g.(pool) && negb g.(listening)) g
  | CListen addr => λ r,
      guard (g.(pool) && negb g.(listening) && bool_decide (g.(listened) = None))
        (match r with Ok _ => set_listening true (Some addr) g | Err _ => g end)
  | CGo c => λ _, guard (g.(listening) && bool_decide (c ∉ g.(running))
                         && (negb g.(started) || bool_decide (c = Server)))
                    (set_running (c :: g.(running)) g)
  | CSelect => λ r,
      guard (bool_decide (g.(running) ≠ []))
        (match r with Some (c, _) => ended_component c g | None => set_ended g end)
  | CStoreReady b => λ _, guard (worker && negb b) (set_unready g)
  | CCancelWorker => λ _, guard worker (set_cancelled g)
  | CShutdown _ => λ _, guard (g.(listening) && g.(started)
                               && (negb worker || (g.(unready) && g.(cancelled)))) g
  | CCloseServer => λ _, guard (g.(listening) && g.(started)) g
  | CWaitServer => λ _, guard (negb worker && bool_decide (Server ∈ g.(running))) (ended_component Server g)
  | CReceive => λ r,
      guard (bool_decide (g.(running) ≠ []))
        (match r with Some (c, _) => ended_component c g | None => g end)
  | CCloseListener => λ _, guard g.(listening) (set_listening false g.(listened) g)
  | CClosePool => λ _, guard (g.(pool) && negb g.(listening)) (set_pool false g)
  | CCause | CRand _ | CHostname | CGetpid => λ _, Some g
  end.

(** Results come from components that run, each one once. *)
Definition possible (g : state) (c : call) : reply c → Prop :=
  match c with
  | CSelect | CReceive => λ r, match r with Some (c, _) => c ∈ g.(running) | None => True end
  | _ => λ _, True
  end.

(** A component that ends leaves the others. *)
Lemma filter_others (c : component) (l : list component) : c ∉ l → filter (λ x, x ≠ c) l = l.
Proof.
  induction l as [|a l IH]; [done|]. rewrite not_elem_of_cons. intros [Ha Hl].
  rewrite filter_cons_True by auto. by rewrite IH.
Qed.

Lemma length_filter_others (c : component) (l : list component) n :
  NoDup l → c ∈ l → length l = S n → length (filter (λ x, x ≠ c) l) = n.
Proof.
  revert n. induction l as [|a l IH]; intros n Hnd Hc Hlen; [by apply elem_of_nil in Hc|].
  apply NoDup_cons in Hnd as [Ha Hnd]. simpl in Hlen. destruct (decide (a = c)) as [->|Hac].
  - rewrite filter_cons_False by auto. rewrite filter_others by done. lia.
  - rewrite filter_cons_True by done. apply elem_of_cons in Hc as [->|Hc]; [done|].
    destruct n as [|n]; simpl in *; [destruct l; [by apply elem_of_nil in Hc|done]|].
    f_equal. apply IH; [done|done|lia].
Qed.

Section Triples.
Context (worker : bool) (R : state → ∀ c : call, reply c → Prop).
Local Abbreviation wph := (wph (step worker) R).

Implicit Types (g : state) (logger : Logger).

(** The loggers the configuration can build always report errors. *)
Definition reports (logger : Logger) : Prop := logger.(log_level) ≤ Config.LevelError.

Lemma log_info {A} g logger m a (k : unit → pprog A) Q :
  wph g (k tt) Q → wph g (pbind (log logger Config.LevelInfo m a) k) Q.
Proof.
  intros HQ. unfold log. destruct (_ <=? _); [|done]. intros [] _. by exists g.
Qed.

Lemma log_error {A} g logger m a (k : unit → pprog A) Q :
  reports logger → wph (set_failed g) (k tt) Q →
  wph g (pbind (log logger Config.LevelError m a) k) Q.
Proof.
  unfold reports, log. intros Hl HQ. rewrite (proj2 (Z.leb_le _ _) Hl).
  intros [] _. by exists (set_failed g).
Qed.

Lemma fail_with_triple g logger m err Q :
  reports logger → Q (set_failed g) 1 → wph g (fail_with logger m err) Q.
Proof. intros Hl HQ. by apply log_error. Qed.

Lemma fail_unless_ended_triple g logger m err Q :
  reports logger → Q (set_ended g) 0 →
  (∀ g', g' = g ∨ g' = set_ended g → Q (set_failed g') 1) →
  wph g (fail_unless_ended logger m err) Q.
Proof.
  intros Hl H0 H1. unfold fail_unless_ended. apply wph_call. intros ctx _.
  exists (seen_ctx ctx g). split; [done|]. unfold is_ctx_error, seen_ctx.
  destruct (ctx_Err ctx); [destruct (errors_Is _ _)|]; [done|apply fail_with_triple; auto..].
Qed.

(** Effects that leave what the process holds alone. *)
Lemma held_call {A} g c (k : reply c → pprog A) Q :
  (∀ r, step worker g c r = Some g) → (∀ r, R g c r → wph g (k r) Q) →
  wph g (pbind (perform c) k) Q.
Proof. intros Hs Hk. apply wph_call. intros r Hr. exists g. split; [apply Hs|by apply Hk]. Qed.

(** The context is checked: the process stops, or goes on. *)
Lemma check_ctx {A} g (stop : pprog A) (go : pprog A) Q :
  wph (set_ended g) stop Q → wph g go Q →
  wph g (pbind (perform CCtx) (λ ctx, match ctx_Err ctx with Some _ => stop | None => go end)) Q.
Proof.
  intros Hstop Hgo. apply wph_call. intros ctx _. exists (seen_ctx ctx g). split; [done|].
  unfold seen_ctx. by destruct (ctx_Err ctx).
Qed.

(** Registration only adds collectors. *)
Fixpoint answers_registry {A} (p : Metrics.mprog A) : Prop :=
  match p with
  | Ret _ => True
  | OutOfFuel => False
  | Do c k => ∀ r, answers_registry (k r)
  end.

(** What registration does not change. *)
Definition same_but_registered (g g' : state) : Prop :=
  ∃ ms, g' = MkState g.(pool) g.(listening) g.(listened) g.(running) g.(started) g.(unready)
               g.(cancelled) g.(ended) g.(failed) ms.

Lemma lift_triple {A B} g0 g (p : Metrics.mprog A) (k : A → pprog B) Q :
  answers_registry p → g.(pool) = true → g.(listening) = false → same_but_registered g0 g →
  (∀ a g', same_but_registered g0 g' → wph g' (k a) Q) → wph g (pbind (lift p) k) Q.
Proof.
  intros Hp Hpool Hlis Hsame Hk. revert g Hpool Hlis Hsame.
  induction p as [a| |c k' IH]; intros g Hpool Hlis Hsame; simpl in *; [by apply Hk|done|].
  intros r _.
  destruct c; try (exists g; rewrite Hpool, Hlis; split; [done|]; by apply IH).
  destruct r as [e|]; eexists; rewrite Hpool, Hlis; (split; [done|]); apply IH; try done.
  destruct Hsame as [ms ->]. by exists (c :: ms).
Qed.

End Triples.

Lemma register_all_answers cs : answers_registry (Metrics.register_all cs).
Proof. induction cs as [|c cs IH]; [done|]. simpl. by intros [e|]. Qed.

Lemma register_answers {A} cs (k : unit → Metrics.mprog (result goerr A)) :
  (∀ u, answers_registry (k u)) → answers_registry (ebind (Metrics.register true cs) k).
Proof.
  intros Hk. unfold Metrics.register. simpl. induction cs as [|c cs IH]; simpl; [apply Hk|].
  by intros [e|].
Qed.

Lemma NewRegistry_answers : answers_registry Metrics.NewRegistry.
Proof. intros [e|]; [done|]. by intros [e|]. Qed.

(** ** A process that is asked to shut down *)

(** The dependencies answer; the [select] sees the end of the context, and the
    components end when they are waited for. *)
Definition demo_process (worker : bool) : reactive (reply := reply) := λ h c,
  match c with
  | CCtx => CtxLive
  | CCause => "terminated signal received"%string
  | CParseConfig _ | CNewPool | CPing _ | CListen _ => Ok tt
  | CMetric m =>
      match m with
      | Metrics.CRegisterGoCollector | Metrics.CRegisterProcessCollector | Metrics.CRegister _ => None
      | Metrics.CInc _ _ | Metrics.CObserve _ _ _ => tt
      end
  | CRand n => replicate (Z.to_nat n) 0x2a
  | CHostname => Ok "worker-1"%string
  | CGetpid => 1
  | CSelect => None
  | CShutdown _ | CCloseServer => None
  | CWaitServer => Some (ESentinel http_ErrServerClosed)
  | CReceive =>
      match follow (step worker) start h with
      | Some g => match g.(running) with
                  | Server :: _ => Some (Server, Some (ESentinel http_ErrServerClosed))
                  | Process.Worker :: _ => Some (Process.Worker, None)
                  | [] => None
                  end
      | None => None
      end
  | CLog _ _ _ | CClosePool | CCloseListener | CGo _ | CStoreReady _ | CCancelWorker => tt
  end.

Lemma demo_possible worker : behaves (step worker) possible start (demo_process worker).
Proof.
  intros h g c Hf. destruct c; try done. simpl. rewrite Hf.
  destruct (running g) as [|[] cs]; [done|by left..].
Qed.

End ProcessLogic.
