(* ===== verification/ProcessSafety.v ===== *)
(** * How the two processes end

    Triples for the [run] functions of cmd/api and cmd/worker, under every answer
    of the environment: exit codes and resources. *)
From S2P Require Import Prelude.
From S2P Require Import GoErrors.
From S2P Require Import Prog.
From S2P Require Import ProgLogic.
From S2P Require Import GoStrings.
From S2P Require Import Rewards.
From S2P Require Import Outbox.
From S2P Require Import Worker.
From S2P Require Import WorkerSafety.
From S2P Require Import Config.
From S2P Require Import Metrics.
From S2P Require Import MetricsFacts.
From S2P Require Import Http.
From S2P Require Import HttpCalls.
From S2P Require Import HttpApi.
From S2P Require Import AdminHttp.
From S2P Require Import Process.
From S2P Require Import ApiMain.
From S2P Require Import WorkerMain.
From S2P Require Import ProcessLogic.
Local Open Scope Z_scope.

Module ProcessSafety.
Import ProgLogic Process ProcessLogic.

(** The exit code is 1 when an error was logged, 0 otherwise. *)
Definition exit_ok (g : state) (code : Z) : Prop :=
  (code = 0 ∧ g.(failed) = false) ∨ (code = 1 ∧ g.(failed) = true).

Lemma exit_failed g : exit_ok (set_failed g) 1.
Proof. by right. Qed.

Lemma ended_last c g : g.(running) = [c] → (ended_component c g).(running) = [].
Proof. intros H. simpl. rewrite H. by rewrite filter_cons_False by auto. Qed.

(** ** The API *)

Section Api.
Context `{M : Http.ServeMux} (R : state → ∀ c : call, reply c → Prop).
Context (HR : ∀ g c r, R g c r → possible g c r).
Local Abbreviation wph := (wph (step false) R).

Definition holds (p l : bool) (g : state) : Prop :=
  g.(pool) = p ∧ g.(listening) = l ∧ g.(running) = [].

Lemma api_stop g d Q :
  g.(listening) = true → g.(started) = true → g.(running) = [Server] →
  (∀ err, Q (ended_component Server g) err) → wph g (ApiMain.stopHTTPServer d) Q.
Proof.
  intros Hl Hs Hr HQ. unfold ApiMain.stopHTTPServer.
  apply held_call; [intros r; simpl; by rewrite Hl, Hs|]. intros shutdownErr _.
  assert (∀ closeErr, wph g (eff! served := perform CWaitServer in
            Ret (errors_Join [wrap_opt "graceful http server shutdown" shutdownErr;
                              wrap_opt "force close http server" closeErr;
                              wrap_opt "http server stopped" (serve_result served)])) Q) as Hwait.
  { intros closeErr. apply wph_call. intros served _. exists (ended_component Server g).
    split; [|apply HQ]. simpl. rewrite bool_decide_eq_true_2; [done|]. rewrite Hr. by left. }
  destruct shutdownErr as [e|]; [|apply Hwait].
  apply held_call; [intros r; simpl; by rewrite Hl, Hs|]. intros closeErr _. apply Hwait.
Qed.

Lemma api_supervise g logger cfg :
  reports logger → g.(pool) = true → g.(listening) = true → g.(started) = true →
  g.(running) = [Server] → g.(failed) = false →
  wph g (ApiMain.supervise logger cfg) (λ g' code, holds true true g' ∧ exit_ok g' code).
Proof.
  intros Hlog Hp Hl Hs Hr Hf. apply wph_call. intros selected Hsel%HR.
  destruct selected as [[c err]|]; (eexists; split; [simpl; by rewrite Hr|]).
  - simpl in Hsel. rewrite Hr in Hsel. apply list_elem_of_singleton in Hsel as ->.
    assert (holds true true (ended_component Server g)) as Hg.
    { split; [done|]. split; [done|by apply ended_last]. }
    destruct (serve_result err); [|by split; [|left]].
    apply fail_with_triple; [done|]. by split; [|apply exit_failed].
  - apply held_call; [done|]. intros cause _. apply log_info, wph_pbind, api_stop; [done..|].
    assert (holds true true (ended_component Server (set_ended g))) as Hg.
    { split; [done|]. split; [done|by apply ended_last]. }
    intros [e|]; [apply fail_with_triple; [done|by split; [|apply exit_failed]]|].
    apply log_info. by split; [|left].
Qed.

Lemma api_serve g logger cfg addr :
  reports logger → holds true true g → g.(failed) = false →
  wph g (ApiMain.serve logger cfg addr)
    (λ g' code, holds true true g' ∧ exit_ok g' code).
Proof.
  intros Hlog (Hp & Hl & Hr) Hf. unfold ApiMain.serve. apply check_ctx.
  { split; [done|by left]. }
  apply log_info, wph_call. intros [] _. exists (set_running [Server] g).
  split; [simpl; by rewrite Hl, Hr, orb_true_r|]. by apply api_supervise.
Qed.

Lemma api_listen g logger cfg server :
  reports logger → holds true false g → g.(failed) = false → g.(listened) = None →
  wph g (ApiMain.listen logger cfg server) (λ g' code, holds true false g' ∧ exit_ok g' code).
Proof.
  intros Hlog (Hp & Hl & Hr) Hf Hnone. unfold ApiMain.listen. apply check_ctx.
  { split; [done|by left]. }
  apply wph_call. intros [[]|e] _; (eexists; split; [simpl; by rewrite Hp, Hl, Hnone|]).
  - apply wph_pbind. eapply wph_mono; [by apply api_serve|].
    intros g' code [(Hp' & Hl' & Hr') Hexit]. apply wph_call. intros [] _.
    eexists. split; [simpl; by rewrite Hl'|]. by split.
  - apply log_error; [done|]. by split; [|apply exit_failed].
Qed.

Lemma api_with_pool g logger cfg :
  reports logger → holds true false g → g.(failed) = false → g.(listened) = None →
  wph g (ApiMain.run_with_pool logger cfg) (λ g' code, holds true false g' ∧ exit_ok g' code).
Proof.
  intros Hlog Hg Hf Hnone. unfold ApiMain.run_with_pool.
  assert (∀ g' m e, holds true false g' → wph g' (fail_with logger m e)
            (λ g' code, holds true false g' ∧ exit_ok g' code)) as Hfail.
  { intros g' m e Hg'. apply fail_with_triple; [done|]. by split; [|apply exit_failed]. }
  pose proof Hg as (Hp & Hl & Hr). unfold Ping. cbn [negb].
  apply wph_pbind, held_call; [intros r; simpl; by rewrite Hp|]. intros [[]|e] _.
  2: { apply fail_unless_ended_triple; [done|by split; [|left]|].
       intros g' [-> | ->]; by split; [|apply exit_failed]. }
  assert (same_but_registered g g) as Hsame by (exists g.(registered); by destruct g).
  assert (∀ g', same_but_registered g g' →
            holds true false g' ∧ (g'.(failed) = false ∧ g'.(listened) = None)
            ∧ g'.(pool) = true ∧ g'.(listening) = false) as Hkeep.
  { intros g' [ms ->]. simpl. by rewrite Hp, Hl. }
  eapply lift_triple; [apply NewRegistry_answers|done|done|exact Hsame|].
  intros [u|e] g1 H1; destruct (Hkeep g1 H1) as (Hg1 & [Hf1 Hn1] & Hp1 & Hl1); [|by apply Hfail].
  eapply lift_triple; [apply register_answers; done|done|done|exact H1|].
  intros [u1|e] g2 H2; destruct (Hkeep g2 H2) as (Hg2 & [Hf2 Hn2] & Hp2 & Hl2); [|by apply Hfail].
  eapply lift_triple; [apply register_answers; done|done|done|exact H2|].
  intros [u2|e] g3 H3; destruct (Hkeep g3 H3) as (Hg3 & [Hf3 Hn3] & Hp3 & Hl3); [|by apply Hfail].
  destruct (Rewards.NewService _ _); [|by apply Hfail].
  destruct (HttpApi.NewServer _ _ _ _); [|by apply Hfail]. by apply api_listen.
Qed.

Lemma api_run lookup :
  wph start (ApiMain.run lookup) (λ g code, holds false false g ∧ exit_ok g code).
Proof.
  unfold ApiMain.run. apply check_ctx; [by split; [|left]|].
  unfold Config.LoadAPI. destruct (Config.loadAPIWithLookup lookup) as [cfg|e] eqn:Hload.
  2: { apply log_error; [done|]. by split; [|apply exit_failed]. }
  apply Config.loadAPI_ok in Hload as [[_ _ _ _ Hlevel] _].
  apply Config.level_value_range in Hlevel; [|done].
  set (logger := With _ _). assert (reports logger) as Hlog by exact Hlevel.
  unfold OpenPool. apply wph_pbind, held_call; [done|]. intros [[]|e] _.
  2: { apply fail_unless_ended_triple; [done|by split; [|left]|].
       intros g' [-> | ->]; by split; [|apply exit_failed]. }
  apply wph_call. intros [[]|e] _; (eexists; split; [done|]).
  2: { apply fail_unless_ended_triple; [done|by split; [|left]|].
       intros g' [-> | ->]; by split; [|apply exit_failed]. }
  apply wph_pbind. eapply wph_mono; [by apply api_with_pool|].
  intros g' code [(Hp & Hl & Hr) Hexit]. apply wph_call. intros [] _.
  eexists. split; [simpl; by rewrite Hp, Hl|]. by split.
Qed.
End Api.

(** ** The worker *)

Section WorkerProcess.
Context `{M : Http.ServeMux} (R : state → ∀ c : call, reply c → Prop).
Context (HR : ∀ g c r, R g c r → possible g c r).
Local Abbreviation wph := (wph (step true) R).

(** What stopping the components changes: those that have ended. *)
Definition stopping (g0 g : state) : Prop :=
  ∃ cs, g = set_running cs g0 ∧ NoDup cs.

Lemma receive_triple g0 n g ce Q :
  g0.(listening) = true → stopping g0 g → length g.(running) = n →
  (∀ g' res, stopping g0 g' → ((∃ ce', res = Ok ce') → g'.(running) = []) → Q g' res) →
  wph g (WorkerMain.receive_results n ce) Q.
Proof.
  intros Hl. revert g ce. induction n as [|n IH]; intros g ce Hg Hn HQ; cbn [WorkerMain.receive_results].
  { apply HQ; [done|]. intros _. by apply length_zero_iff_nil. }
  destruct Hg as (cs & -> & Hnd). simpl in Hn. apply wph_call. intros r Hr%HR.
  assert (bool_decide (cs ≠ []) = true) as Hne by (apply bool_decide_eq_true; by intros ->).
  destruct r as [[c err]|]; (eexists; split; [simpl; by rewrite Hne|]).
  - destruct (WorkerMain.component_result (c, err)) as [c' err'].
    apply IH; [|by apply length_filter_others|done].
    exists (filter (λ x, x ≠ c) cs). split; [done|by apply NoDup_filter].
  - apply held_call; [intros []; simpl; by rewrite Hl|]. intros _ _.
    apply HQ; [by exists cs|]. by intros [? [=]].
Qed.

Lemma stop_triple g d n Q :
  g.(listening) = true → g.(started) = true → NoDup g.(running) → length g.(running) = n →
  (∀ g' err, stopping (set_cancelled (set_unready g)) g' → (err = None → g'.(running) = []) →
     Q g' err) →
  wph g (WorkerMain.stopComponents d n) Q.
Proof.
  intros Hl Hs Hnd Hn HQ. unfold WorkerMain.stopComponents.
  apply wph_call. intros [] _. exists (set_unready g). split; [done|].
  apply wph_call. intros [] _. exists (set_cancelled (set_unready g)). split; [done|].
  apply held_call; [intros r; simpl; by rewrite Hl, Hs|]. intros shutdownErr _.
  apply wph_pbind, (receive_triple (set_cancelled (set_unready g))); [done| |done|].
  { exists g.(running). split; [|done]. destruct g. simpl in *. by subst. }
  intros g' [ce|e] Hg' Hok; [|by apply HQ]. apply HQ; [done|]. intros _. apply Hok. by eexists.
Qed.

(** With both resources open and both components running. *)
Definition supervising (g : state) : Prop :=
  g.(pool) = true ∧ g.(listening) = true ∧ g.(started) = true ∧ g.(failed) = false
  ∧ g.(running) = [Server; Process.Worker].

(** How the supervision ends: cleanly, after a request, with both components
    ended; or with an error.  The worker's context is cancelled either way. *)
Definition supervised (g : state) (code : Z) : Prop :=
  g.(pool) = true ∧ g.(listening) = true ∧ g.(cancelled) = true
  ∧ ((code = 0 ∧ g.(failed) = false ∧ g.(ended) = true ∧ g.(running) = [])
     ∨ (code = 1 ∧ g.(failed) = true)).

Lemma supervise_triple g logger cfg :
  reports logger → supervising g → wph g (WorkerMain.supervise logger cfg) supervised.
Proof.
  intros Hlog (Hp & Hl & Hs & Hf & Hr). unfold WorkerMain.supervise.
  apply wph_call. intros selected Hsel%HR. destruct selected as [[c err]|].
  - set (g1 := ended_component c g). exists g1. split; [simpl; by rewrite Hr|].
    assert (NoDup g1.(running) ∧ length g1.(running) = 1%nat) as [Hnd Hlen].
    { simpl. rewrite Hr. by destruct c; vm_compute; repeat constructor; set_solver. }
    destruct (WorkerMain.component_result (c, err)) as [c' err'].
    apply wph_call. intros [] _. exists (set_unready g1). split; [done|].
    apply log_error; [done|]. apply wph_pbind, stop_triple; [done..|].
    intros g' res (cs & -> & _) _. destruct res as [e|]; [apply log_error; [done|]|].
    + split; [done|]. split; [done|]. split; [done|]. by right.
    + split; [done|]. split; [done|]. split; [done|]. by right.
  - exists (set_ended g). split; [simpl; by rewrite Hr|].
    apply held_call; [done|]. intros cause _. apply log_info, wph_pbind.
    apply stop_triple; [done|done| | |].
    { simpl. rewrite Hr. repeat constructor; set_solver. }
    { simpl. by rewrite Hr. }
    intros g' res (cs & -> & _) Hdone. destruct res as [e|].
    + apply fail_with_triple; [done|]. split; [done|]. split; [done|]. split; [done|]. by right.
    + apply log_info. split; [done|]. split; [done|]. split; [done|]. left. by rewrite Hdone.
Qed.

(** What a piece of the worker's main leaves: the listener as it was, the
    components cancelled if they were started. *)
Definition worker_ok (p l : bool) (g : state) (code : Z) : Prop :=
  g.(pool) = p ∧ g.(listening) = l ∧ (g.(started) = true → g.(cancelled) = true)
  ∧ ((code = 0 ∧ g.(failed) = false ∧ g.(ended) = true ∧ g.(running) = [])
     ∨ (code = 1 ∧ g.(failed) = true)).

Definition idle (p l : bool) (g : state) : Prop :=
  g.(pool) = p ∧ g.(listening) = l ∧ g.(started) = false ∧ g.(running) = []
  ∧ g.(failed) = false ∧ (l = false → g.(listened) = None).

Lemma idle_ended p l g : idle p l g → worker_ok p l (set_ended g) 0.
Proof. intros (Hp & Hl & Hs & Hr & Hf & _). unfold worker_ok. simpl. rewrite Hs. naive_solver. Qed.
Lemma idle_failed p l g : idle p l g → worker_ok p l (set_failed g) 1.
Proof. intros (Hp & Hl & Hs & Hr & Hf & _). unfold worker_ok. simpl. rewrite Hs. naive_solver. Qed.

Lemma worker_serve g logger cfg id addr :
  reports logger → idle true true g →
  wph g (WorkerMain.serve logger cfg id addr) (worker_ok true true).
Proof.
  intros Hlog Hidle. pose proof Hidle as (Hp & Hl & Hs & Hr & Hf & Hnone).
  unfold WorkerMain.serve. apply check_ctx; [by apply idle_ended|].
  apply held_call; [done|]. intros hostname _. apply held_call; [done|]. intros pid _.
  apply log_info, log_info.
  apply wph_call. intros [] _. exists (set_running [Process.Worker] g).
  split; [simpl; by rewrite Hl, Hr, Hs|].
  apply wph_call. intros [] _. exists (set_running [Server; Process.Worker] g).
  split; [simpl; by rewrite Hl|].
  apply wph_pbind. eapply wph_mono; [by apply supervise_triple|].
  intros g' code (Hp' & Hl' & Hc' & Hexit). apply wph_call. intros [] _.
  eexists. split; [done|]. by split.
Qed.

Lemma worker_listen g logger cfg id server :
  reports logger → idle true false g →
  wph g (WorkerMain.listen logger cfg id server) (worker_ok true false).
Proof.
  intros Hlog Hidle. pose proof Hidle as (Hp & Hl & Hs & Hr & Hf & Hnone).
  specialize (Hnone eq_refl). unfold WorkerMain.listen. apply check_ctx; [by apply idle_ended|].
  apply wph_call. intros [[]|e] _; (eexists; split; [simpl; by rewrite Hp, Hl, Hnone|]).
  - apply wph_pbind. eapply wph_mono; [by apply worker_serve|].
    intros g' code (Hp' & Hl' & Hc' & Hexit). apply wph_call. intros [] _.
    eexists. split; [simpl; by rewrite Hl'|]. by split.
  - apply log_error; [done|]. by apply idle_failed.
Qed.

Lemma worker_with_pool g logger cfg :
  reports logger → idle true false g →
  wph g (WorkerMain.run_with_pool logger cfg) (worker_ok true false).
Proof.
  intros Hlog Hidle. pose proof Hidle as (Hp & Hl & Hs & Hr & Hf & Hnone).
  specialize (Hnone eq_refl). unfold WorkerMain.run_with_pool.
  assert (∀ g' m e, idle true false g' →
            wph g' (fail_with logger m e) (worker_ok true false)) as Hfail.
  { intros g' m e Hg'. apply fail_with_triple; [done|]. by apply idle_failed. }
  unfold Ping. cbn [negb].
  apply wph_pbind, held_call; [intros r; simpl; by rewrite Hp|]. intros [[]|e] _.
  2: { apply fail_unless_ended_triple; [done|by apply idle_ended|].
       intros g' [-> | ->]; by apply idle_failed. }
  assert (same_but_registered g g) as Hsame by (exists g.(registered); by destruct g).
  assert (∀ g', same_but_registered g g' →
            idle true false g' ∧ g'.(pool) = true ∧ g'.(listening) = false) as Hkeep.
  { intros g' [ms ->]. unfold idle. simpl. by rewrite Hp, Hl. }
  eapply lift_triple; [apply NewRegistry_answers|done|done|exact Hsame|].
  intros [u|e] g1 H1; destruct (Hkeep g1 H1) as (Hg1 & Hp1 & Hl1); [|by apply Hfail].
  eapply lift_triple; [apply register_answers; done|done|done|exact H1|].
  intros [u1|e] g2 H2; destruct (Hkeep g2 H2) as (Hg2 & Hp2 & Hl2); [|by apply Hfail].
  eapply lift_triple; [apply register_answers; done|done|done|exact H2|].
  intros [u2|e] g3 H3; destruct (Hkeep g3 H3) as (Hg3 & Hp3 & Hl3); [|by apply Hfail].
  unfold WorkerMain.newWorkerID. apply wph_pbind, held_call; [done|]. intros b _. apply wph_ret.
  do 3 (case_match; [|by apply Hfail]). by apply worker_listen.
Qed.

Lemma worker_run lookup : wph start (WorkerMain.run lookup) (worker_ok false false).
Proof.
  unfold WorkerMain.run. apply check_ctx; [by apply idle_ended|].
  unfold Config.LoadWorker. destruct (Config.loadWorkerWithLookup lookup) as [cfg|e] eqn:Hload.
  2: { apply log_error; [done|]. by apply idle_failed. }
  apply Config.loadWorker_ok in Hload as [[[_ _ _ _ Hlevel] _ _] _].
  apply Config.level_value_range in Hlevel; [|done].
  set (logger := With _ _). assert (reports logger) as Hlog by exact Hlevel.
  unfold OpenPool. apply wph_pbind, held_call; [done|]. intros [[]|e] _.
  2: { apply fail_unless_ended_triple; [done|by apply idle_ended|].
       intros g' [-> | ->]; by apply idle_failed. }
  apply wph_call. intros [[]|e] _; (eexists; split; [done|]).
  2: { apply fail_unless_ended_triple; [done|by apply idle_ended|].
       intros g' [-> | ->]; by apply idle_failed. }
  apply wph_pbind. eapply wph_mono; [by apply worker_with_pool|].
  intros g' code (Hp & Hl & Hc & Hexit). apply wph_call. intros [] _.
  eexists. split; [simpl; by rewrite Hp, Hl|]. by split.
Qed.

End WorkerProcess.

End ProcessSafety.
