(* ===== verification/Startup.v ===== *)
(** * What the two processes guarantee

    Exit codes and resources under every answer of the environment; and, with a
    configuration the loader accepts and dependencies that answer, that both
    processes reach their servers: no constructor refuses what the loader let
    through, and the metrics register without conflict. *)
From S2P Require Import Prelude.
From S2P Require Import GoErrors.
From S2P Require Import Prog.
From S2P Require Import ProgLogic.
From S2P Require Import GoStrings.
From S2P Require Import Rewards.
From S2P Require Import Outbox.
From S2P Require Import Worker.
From S2P Require Import WorkerSafety.
From S2P Require Import Config.
From S2P Require Import Metrics.
From S2P Require Import MetricsFacts.
From S2P Require Import Http.
From S2P Require Import HttpCalls.
From S2P Require Import HttpApi.
From S2P Require Import AdminHttp.
From S2P Require Import Process.
From S2P Require Import ApiMain.
From S2P Require Import WorkerMain.
From S2P Require Import ProcessLogic.
From S2P Require Import ProcessSafety.
Local Open Scope Z_scope.

Module Startup.
Import ProgLogic Process ProcessLogic ProcessSafety.

(** The process is not asked to stop before it started, the database answers, the
    address is free, random bytes are given, and a registry accepts collectors
    with new names. *)
Definition healthy (g : state) (c : call) : reply c → Prop :=
  match c with
  | CCtx => λ r, g.(started) = false → ctx_Err r = None
  | CParseConfig _ | CNewPool | CPing _ | CListen _ => λ r, r = Ok tt
  | CMetric Metrics.CRegisterGoCollector | CMetric Metrics.CRegisterProcessCollector => λ r, r = None
  | CMetric (Metrics.CRegister m) => λ r,
      MetricsFacts.metric_id m ∉ MetricsFacts.metric_id <$> g.(registered) → r = None
  | CRand n => λ r, length r = Z.to_nat n
  | c => possible g c
  end.

Lemma healthy_possible g c r : healthy g c r → possible g c r.
Proof. by destruct c as [| | | | | | |[]| | | | | | | | | | | | |]. Qed.

(** The process has started, listening on this address. *)
Definition reached (addr : string) (g : state) : Prop :=
  g.(started) = true ∧ g.(listened) = Some addr.

Section Start.
Context (worker : bool).
Local Abbreviation wph := (wph (step worker) healthy).

Lemma reached_step addr g c r g' : reached addr g → step worker g c r = Some g' → reached addr g'.
Proof.
  intros [Hs Hl] H. destruct c; simpl in *; unfold guard, seen_ctx in *;
    repeat case_match; simplify_eq/=; try done.
  match goal with H : _ && _ = true |- _ => rewrite Hl in H end.
  rewrite !andb_true_iff, !bool_decide_eq_true in *. naive_solver.
Qed.

Lemma reached_end {A} addr g (p : pprog A) Q :
  reached addr g → wph g p Q → wph g p (λ g' _, reached addr g').
Proof.
  intros Hg Hp. eapply wph_mono; [by eapply (wph_invariant _ _ (reached addr)); [apply reached_step|..]|].
  by intros g' a [].
Qed.

Lemma live_ctx {A} g (stop go : pprog A) Q :
  g.(started) = false → wph g go Q →
  wph g (pbind (perform CCtx) (λ ctx, match ctx_Err ctx with Some _ => stop | None => go end)) Q.
Proof.
  intros Hs Hgo. apply wph_call. intros ctx Hctx. simpl in Hctx. specialize (Hctx Hs).
  exists g. unfold step, seen_ctx. by rewrite Hctx.
Qed.

Definition with_registered (ms : list Metrics.Collector) (g : state) : state :=
  MkState g.(pool) g.(listening) g.(listened) g.(running) g.(started) g.(unready) g.(cancelled)
    g.(ended) g.(failed) ms.

(** Collectors with new names are registered. *)
Lemma register_triple {A B} cs (m : A) g (k : result goerr A → pprog B) Q :
  g.(pool) = true → g.(listening) = false →
  NoDup (MetricsFacts.metric_id <$> rev cs ++ g.(registered)) →
  wph (with_registered (rev cs ++ g.(registered)) g) (k (Ok m)) Q →
  wph g (pbind (lift (ebind (Metrics.register true cs) (λ _, Ret (Ok m)))) k) Q.
Proof.
  unfold Metrics.register. cbn [negb]. intros Hp Hl. revert g Hp Hl.
  induction cs as [|c cs IH]; intros g Hp Hl Hnd HQ.
  { simpl in *. by destruct g. }
  simpl in Hnd, HQ. rewrite <-app_assoc in Hnd, HQ. simpl in Hnd, HQ.
  intros r Hr. exists (add_registered c g). simpl in Hr.
  assert (r = None) as ->.
  { apply Hr. rewrite fmap_app, fmap_cons in Hnd. apply NoDup_app in Hnd as (_ & _ & Hnd).
    by apply NoDup_cons in Hnd as [? _]. }
  split; [simpl; by rewrite Hp, Hl|]. by apply IH.
Qed.

Lemma new_registry {B} g (k : result goerr unit → pprog B) Q :
  g.(pool) = true → g.(listening) = false → wph g (k (Ok tt)) Q →
  wph g (pbind (lift Metrics.NewRegistry) k) Q.
Proof.
  intros Hp Hl Hk r Hr. simpl in Hr. subst r. exists g. split; [simpl; by rewrite Hp, Hl|].
  intros r Hr. simpl in Hr. subst r. exists g. split; [simpl; by rewrite Hp, Hl|]. done.
Qed.

Lemma open_pool {A} g url (k : result goerr unit → pprog A) Q :
  g.(pool) = false → wph (set_pool true g) (k (Ok tt)) Q → wph g (pbind (OpenPool url) k) Q.
Proof.
  intros Hp Hk r Hr. simpl in Hr. subst r. exists g. split; [simpl; by rewrite Hp|].
  intros r Hr. simpl in Hr. subst r. exists (set_pool true g). split; [simpl; by rewrite Hp|]. done.
Qed.

Lemma pings {A} g d (k : result goerr unit → pprog A) Q :
  g.(pool) = true → wph g (k (Ok tt)) Q → wph g (pbind (Ping true d) k) Q.
Proof.
  intros Hp Hk r Hr. simpl in Hr. subst r. exists g. split; [simpl; by rewrite Hp|]. done.
Qed.

End Start.

(** ** The API *)

Section Api.
Context `{M : Http.ServeMux}.
Local Abbreviation wph := (wph (step false) healthy).

Lemma api_reaches lookup cfg :
  Config.loadAPIWithLookup lookup = Ok cfg →
  wph start (ApiMain.run lookup) (λ g _, reached cfg.(Config.api_HTTP).(Config.Addr) g).
Proof.
  intros Hload. unfold ApiMain.run. apply live_ctx; [done|]. unfold Config.LoadAPI. rewrite Hload.
  apply Config.loadAPI_ok in Hload as [[_ _ Hdb _ Hlevel] _].
  apply Config.level_value_range in Hlevel; [|done]. apply Config.query_range in Hdb.
  set (logger := With _ _). assert (reports logger) as Hlog by exact Hlevel.
  apply open_pool; [done|]. apply wph_pbind. unfold ApiMain.run_with_pool.
  apply pings; [done|]. apply new_registry; [done|done|].
  apply register_triple; [done|done| |].
  { refine (bool_decide_eq_true_1 _ _). vm_compute. reflexivity. }
  apply register_triple; [done|done| |].
  { refine (bool_decide_eq_true_1 _ _). vm_compute. reflexivity. }
  unfold Rewards.NewService. cbn [negb Config.api_Database] in *.
  rewrite (proj2 (Z.leb_gt _ _)) by apply Hdb. cbn [HttpApi.NewServer negb].
  unfold ApiMain.listen. apply live_ctx; [done|]. apply wph_call. intros r ->.
  eexists. split; [done|]. apply wph_pbind. unfold ApiMain.serve. apply live_ctx; [done|].
  apply log_info, wph_call. intros [] _. eexists. split; [done|].
  match goal with |- ProgLogic.wph _ _ ?g _ _ => set (g1 := g) end.
  assert (reached cfg.(Config.api_HTTP).(Config.Addr) g1) as Hreached by done.
  eapply wph_mono.
  { eapply (wph_invariant _ _ (reached _) g1); [apply reached_step|exact Hreached|].
    apply (api_supervise healthy healthy_possible); done. }
  intros g2 code [[(Hp & Hl & Hr) _] Hg2].
  apply wph_call. intros [] _. eexists. split; [simpl; by rewrite Hl|].
  apply wph_call. intros [] _. eexists. split; [simpl; by rewrite Hp|]. exact Hg2.
Qed.
End Api.

(** ** The worker *)

Section WorkerProcess.
Context `{M : Http.ServeMux}.
Local Abbreviation wph := (wph (step true) healthy).

(** The identifier of a worker is accepted: 39 characters. *)
Lemma workerID_length b :
  length b = 16%nat → utf8_RuneCountInString ("worker-" ++ hex_EncodeToString b) ≤ 128.
Proof.
  intros Hb. pose proof (rune_count_le ("worker-" ++ hex_EncodeToString b)) as Hle.
  unfold len in Hle. rewrite string_length_app, hex_length, Hb in Hle. simpl in Hle. lia.
Qed.

Lemma worker_accepted lookup cfg b :
  Config.loadWorkerWithLookup lookup = Ok cfg → length b = 16%nat →
  ∃ w, Worker.NewWorker true true true
         (WorkerMain.worker_config ("worker-" ++ hex_EncodeToString b) cfg.(Config.worker_Outbox)) = Ok w.
Proof.
  intros Hload Hb. apply WorkerSafety.NewWorker_accepts.
  apply Config.loadWorker_ok in Hload as [[Hc _ Ho] [Hlease Hmax]].
  apply Config.outbox_ranges in Ho. apply Config.cv_database, Config.query_range in Hc. simpl in Hc.
  unfold WorkerSafety.config_accepted. simpl. split; [done|].
  split; [by apply workerID_length|]. lia.
Qed.

Lemma worker_reaches lookup cfg :
  Config.loadWorkerWithLookup lookup = Ok cfg →
  wph start (WorkerMain.run lookup) (λ g _, reached cfg.(Config.worker_AdminHTTP).(Config.Addr) g).
Proof.
  intros Hload. unfold WorkerMain.run. apply live_ctx; [done|]. unfold Config.LoadWorker. rewrite Hload.
  assert (∀ b, length b = 16%nat → ∃ w, Worker.NewWorker true true true
            (WorkerMain.worker_config ("worker-" ++ hex_EncodeToString b)
               cfg.(Config.worker_Outbox)) = Ok w) as Haccept.
  { intros b. by apply (worker_accepted lookup). }
  apply Config.loadWorker_ok in Hload as [[[_ _ Hdb _ Hlevel] _ _] _].
  apply Config.level_value_range in Hlevel; [|done]. apply Config.query_range in Hdb.
  set (logger := With _ _). assert (reports logger) as Hlog by exact Hlevel.
  apply open_pool; [done|]. apply wph_pbind. unfold WorkerMain.run_with_pool.
  apply pings; [done|]. apply new_registry; [done|done|].
  apply register_triple; [done|done| |].
  { refine (bool_decide_eq_true_1 _ _). vm_compute. reflexivity. }
  apply register_triple; [done|done| |].
  { refine (bool_decide_eq_true_1 _ _). vm_compute. reflexivity. }
  unfold WorkerMain.newWorkerID. apply wph_pbind, held_call; [done|]. intros b Hb.
  simpl in Hb. unfold WorkerMain.workerInstanceIDBytes in Hb. apply wph_ret.
  unfold Outbox.NewPostgresStore. cbn [negb Config.worker_Database] in *.
  rewrite (proj2 (Z.leb_gt _ _)) by apply Hdb. cbn [Worker.NewLoggingPublisher negb].
  destruct (Haccept b) as [w ->]; [lia|].
  unfold WorkerMain.listen. apply live_ctx; [done|]. apply wph_call. intros r ->.
  eexists. split; [done|]. apply wph_pbind. unfold WorkerMain.serve. apply live_ctx; [done|].
  apply held_call; [done|]. intros hostname _. apply held_call; [done|]. intros pid _.
  apply log_info, log_info. apply wph_call. intros [] _. eexists. split; [done|].
  apply wph_call. intros [] _. eexists. split; [done|]. apply wph_pbind.
  match goal with |- ProgLogic.wph _ _ ?g _ _ => set (g1 := g) end.
  assert (reached cfg.(Config.worker_AdminHTTP).(Config.Addr) g1) as Hreached by done.
  eapply wph_mono.
  { eapply (wph_invariant _ _ (reached _) g1); [apply reached_step|exact Hreached|].
    apply (supervise_triple healthy healthy_possible); done. }
  intros g2 code [(Hp & Hl & _) Hg2].
  apply wph_call. intros [] _. eexists. split; [done|].
  apply wph_call. intros [] _. eexists. split; [simpl; by rewrite Hl|].
  apply wph_call. intros [] _. eexists. split; [simpl; by rewrite Hp|]. exact Hg2.
Qed.
End WorkerProcess.

(** The run under any answers is also the run of the healthy case. *)
Lemma run_starts {Cfg} worker (p : pprog Z) o Q (load : result goerr Cfg) (addr : Cfg → string) :
  behaves (step worker) possible start o → wph (step worker) possible start p Q →
  (∀ cfg, load = Ok cfg → wph (step worker) healthy start p (λ g _, reached (addr cfg) g)) →
  ∃ code h g, hrun o [] p = Some (code, h) ∧ follow (step worker) start h = Some g ∧ Q g code
    ∧ ∀ cfg, load = Ok cfg → behaves (step worker) healthy start o → reached (addr cfg) g.
Proof.
  intros Ho HQ Hstart.
  destruct (wph_hrun _ _ o p Q start [] start Ho eq_refl HQ) as (code & h & g & Hr & Hf & HQg).
  exists code, h, g. split; [done|]. split; [done|]. split; [done|].
  intros cfg Hcfg Hhealthy.
  destruct (wph_hrun _ _ o p _ start [] start Hhealthy eq_refl (Hstart cfg Hcfg))
    as (code' & h' & g' & Hr' & Hf' & Hreached).
  by simplify_eq.
Qed.

(** C34: the API process ends whatever happens, with exit code 1 exactly when it
    logged an error and 0 otherwise; the pool and the listener it opened are
    closed, the listener first, and the server goroutine has ended; nothing is
    used before it is open or after it is closed.  With an accepted configuration
    and dependencies that answer, it has served on the configured address: the
    service and the server accept every configuration the loader accepts, and no
    two collectors of the process conflict. *)
Theorem api_process {M : Http.ServeMux} lookup o (Ho : behaves (step false) possible start o) :
  ∃ code h g,
    hrun o [] (ApiMain.run lookup) = Some (code, h) ∧ follow (step false) start h = Some g
    ∧ (g.(pool) = false ∧ g.(listening) = false ∧ g.(running) = []
       ∧ (code = 0 ∧ g.(failed) = false ∨ code = 1 ∧ g.(failed) = true))
    ∧ ∀ cfg, Config.loadAPIWithLookup lookup = Ok cfg → behaves (step false) healthy start o →
        g.(started) = true ∧ g.(listened) = Some cfg.(Config.api_HTTP).(Config.Addr).
Proof.
  destruct (run_starts false (ApiMain.run lookup) o _ (Config.loadAPIWithLookup lookup)
              (λ cfg, cfg.(Config.api_HTTP).(Config.Addr)) Ho
              (api_run possible (λ _ _ _ H, H) lookup) (api_reaches lookup))
    as (code & h & g & Hr & Hf & [(Hp & Hl & Hrun) Hexit] & Hstart).
  by exists code, h, g.
Qed.

(** C33: the worker process ends whatever happens: with exit code 0 only after its
    context ended and, when they were started, after both the worker and the admin
    server have ended; with 1 exactly when it logged an error, a component that
    stops by itself included.  The pool and the listener are closed, the listener
    first; the worker is made unready and cancelled before the server is shut
    down, and cancelled in every case.  With an accepted configuration and
    dependencies that answer, the worker and the admin server have started, on the
    configured address: the store, the publisher and the worker accept every
    configuration the loader accepts, with an identifier made of 16 random bytes. *)
Theorem worker_process {M : Http.ServeMux} lookup o (Ho : behaves (step true) possible start o) :
  ∃ code h g,
    hrun o [] (WorkerMain.run lookup) = Some (code, h) ∧ follow (step true) start h = Some g
    ∧ (g.(pool) = false ∧ g.(listening) = false ∧ (g.(started) = true → g.(cancelled) = true)
       ∧ (code = 0 ∧ g.(failed) = false ∧ g.(ended) = true ∧ g.(running) = []
          ∨ code = 1 ∧ g.(failed) = true))
    ∧ ∀ cfg, Config.loadWorkerWithLookup lookup = Ok cfg → behaves (step true) healthy start o →
        g.(started) = true ∧ g.(listened) = Some cfg.(Config.worker_AdminHTTP).(Config.Addr).
Proof.
  destruct (run_starts true (WorkerMain.run lookup) o _ (Config.loadWorkerWithLookup lookup)
              (λ cfg, cfg.(Config.worker_AdminHTTP).(Config.Addr)) Ho
              (worker_run possible (λ _ _ _ H, H) lookup) (worker_reaches lookup))
    as (code & h & g & Hr & Hf & HQ & Hstart).
  by exists code, h, g.
Qed.

(** ** A run that is asked to shut down *)

Lemma demo_healthy worker : behaves (step worker) healthy start (demo_process worker).
Proof.
  intros h g c Hf. pose proof (demo_possible worker h g c Hf) as Hp.
  destruct c as [| | | | | | |[]|n| | | | | | | | | | | |]; try done; simpl.
  apply length_replicate.
Qed.

Definition demo_lookup : Config.lookupFunc := Config.lookup_in [].
Definition demo_api_config : Config.APIConfig :=
  match Config.loadAPIWithLookup demo_lookup with
  | Ok cfg => cfg
  | Err _ => Config.MkAPI "" "" (Config.MkHTTP "" 0 0 0 0) (Config.MkDatabase "" 0 0)
               (Config.MkLog 0) 0
  end.
Definition demo_mux : Http.ServeMux := {| Http.mux_answer _ := [] |}.

Lemma api_process_witness :
  ∃ code h g,
    hrun (demo_process false) [] (@ApiMain.run demo_mux demo_lookup) = Some (code, h)
    ∧ follow (step false) start h = Some g
    ∧ g.(started) = true ∧ g.(listened) = Some "127.0.0.1:8080"%string.
Proof.
  destruct (@api_process demo_mux demo_lookup (demo_process false)) as (code & h & g & Hr & Hf & _ & Hs).
  - apply demo_possible.
  - exists code, h, g. split; [exact Hr|]. split; [exact Hf|].
    apply (Hs demo_api_config); [vm_compute; reflexivity|apply demo_healthy].
Defined.

Lemma worker_process_witness :
  ∃ code h g,
    hrun (demo_process true) [] (@WorkerMain.run demo_mux demo_lookup) = Some (code, h)
    ∧ follow (step true) start h = Some g
    ∧ g.(started) = true ∧ g.(listened) = Some "127.0.0.1:8081"%string.
Proof.
  destruct (@worker_process demo_mux demo_lookup (demo_process true)) as (code & h & g & Hr & Hf & _ & Hs).
  - apply demo_possible.
  - exists code, h, g. split; [exact Hr|]. split; [exact Hf|].
    apply (Hs Config.default_worker_config); [vm_compute; reflexivity|apply demo_healthy].
Defined.

(** Both end cleanly, with exit code 0. *)
Example demo_exits :
  fst <$> hrun (demo_process false) [] (@ApiMain.run demo_mux demo_lookup) = Some 0
  ∧ fst <$> hrun (demo_process true) [] (@WorkerMain.run demo_mux demo_lookup) = Some 0.
Proof. split; vm_compute; reflexivity. Qed.

End Startup.
