(* ===== verification/WorkerGoroutines.v ===== *)
(** * The worker process as goroutines (cmd/worker/main.go)

    [run] of cmd/worker starts two goroutines, one for the polling loop and one
    for the admin server, which share with it the readiness flag, a channel of
    results and the worker's context.  Their steps interleave with its own: the
    replies [WorkerMain.run] and [Worker.Run] get are here those of the shared
    state, not assumptions. *)
From S2P Require Import Prelude.
From S2P Require Import GoErrors.
From S2P Require Import Prog.
From S2P Require Import ProgLogic.
From S2P Require Import GoStrings.
From S2P Require Import Outbox.
From S2P Require Import Worker.
From S2P Require Import WorkerLogic.
From S2P Require Import Config.
From S2P Require Import Http.
From S2P Require Import Process.
From S2P Require Import WorkerMain.
From S2P Require Import ProcessLogic.
From S2P Require Import ProcessSafety.
Local Open Scope Z_scope.

Module WorkerGoroutines.
Import ProgLogic Process ProcessLogic ProcessSafety.

(** ** The shared state *)

(** A goroutine returns from its function, sends the result, and ends; the
    worker's clears the readiness flag in between ([WorkerSent]).  [looping]: it
    has called [onStarted]. *)
Inductive worker_goroutine :=
| WorkerNew
| WorkerRunning (p : Worker.wprog (result goerr unit)) (looping : bool)
| WorkerSent
| WorkerDone.

Inductive server_goroutine := ServerNew | ServerRunning | ServerDone.

(** [results] is the channel, oldest first; [signalled]: the context of the
    process has ended; [cancelled]: the worker's context has; [closed]: [Shutdown]
    or [Close] of the server was called. *)
Record shared := MkShared {
  workerReady : bool;
  results : list (component * option goerr);
  signalled : bool;
  cancelled : bool;
  closed : bool
}.

(** [make(chan componentResult, 2)] *)
Definition results_cap : nat := 2.

(** With the ghost states of the protocols of main and of the worker. *)
Record sys := Sys {
  main : pprog Z;
  main_ghost : ProcessLogic.state;
  worker : worker_goroutine;
  worker_ghost : WorkerLogic.ghost;
  server : server_goroutine;
  sh : shared
}.

Definition set_ready (b : bool) (s : shared) : shared :=
  MkShared b s.(results) s.(signalled) s.(cancelled) s.(closed).
Definition set_results (rs : list (component * option goerr)) (s : shared) : shared :=
  MkShared s.(workerReady) rs s.(signalled) s.(cancelled) s.(closed).
Definition send (r : component * option goerr) (s : shared) : shared :=
  set_results (s.(results) ++ [r]) s.
Definition set_signalled (s : shared) : shared :=
  MkShared s.(workerReady) s.(results) true s.(cancelled) s.(closed).
Definition cancelWorker (s : shared) : shared :=
  MkShared s.(workerReady) s.(results) s.(signalled) true s.(closed).
Definition set_closed (s : shared) : shared :=
  MkShared s.(workerReady) s.(results) s.(signalled) s.(cancelled) true.

(** The error of a context that can only be cancelled. *)
Definition ctx_reply (ended : bool) (r : ctx_state) : Prop :=
  ctx_Err r = if ended then Some context_Canceled else None.

(** ** The steps of main *)

(** The replies the shared state allows.  The [select] of [stopComponents] may
    always find its timeout elapsed; only cmd/api waits for its server alone. *)
Definition main_reply (s : shared) (c : call) : reply c → Prop :=
  match c with
  | CCtx => λ r, ctx_reply s.(signalled) r
  | CSelect => λ r,
      match r with
      | Some x => head s.(results) = Some x
      | None => s.(signalled) = true
      end
  | CReceive => λ r, match r with Some x => head s.(results) = Some x | None => True end
  | CWaitServer => λ _, False
  | _ => λ _, True
  end.

Definition main_shared (c : call) : reply c → shared → shared :=
  match c with
  | CStoreReady b => λ _, set_ready b
  | CCancelWorker => λ _, cancelWorker
  | CShutdown _ | CCloseServer => λ _, set_closed
  | CSelect | CReceive => λ r s, match r with Some _ => set_results (tail s.(results)) s | None => s end
  | _ => λ _ s, s
  end.

Section System.
Context `{M : Http.ServeMux} (lookup : Config.lookupFunc) (fuel : nat) (w : Worker.Worker).

(** [worker.Run(workerCtx, onStarted)] in a goroutine of its own. *)
Definition main_worker (c : call) (g : worker_goroutine) : worker_goroutine :=
  match c with
  | CGo Process.Worker => WorkerRunning (Worker.Run fuel w true) false
  | _ => g
  end.
Definition main_worker_ghost (c : call) (g : WorkerLogic.ghost) : WorkerLogic.ghost :=
  match c with CGo Process.Worker => WorkerLogic.start | _ => g end.
Definition main_server (c : call) (g : server_goroutine) : server_goroutine :=
  match c with CGo Server => ServerRunning | _ => g end.

Definition after_main (s : sys) (c : call) (r : reply c) (p : pprog Z) : sys :=
  Sys p (default s.(main_ghost) (ProcessLogic.step true s.(main_ghost) c r))
    (main_worker c s.(worker)) (main_worker_ghost c s.(worker_ghost))
    (main_server c s.(server)) (main_shared c r s.(sh)).

Inductive main_step (s : sys) : sys → Prop :=
| main_call c k r :
    s.(main) = Do c k → main_reply s.(sh) c r → main_step s (after_main s c r (k r)).

(** ** The steps of the goroutines and of the outside *)

Definition worker_reply (s : shared) (c : Worker.call) : Worker.reply c → Prop :=
  match c with
  | Worker.CCtx => λ r, ctx_reply s.(cancelled) r
  | Worker.CSelect => λ r,
      match r with Worker.CtxDone => s.(cancelled) = true | Worker.TimerFired => True end
  | _ => λ _, True
  end.

(** [onStarted] stores true in the readiness flag. *)
Definition worker_shared (c : Worker.call) (s : shared) : shared :=
  match c with Worker.COnStarted => set_ready true s | _ => s end.
Definition worker_looping (c : Worker.call) (looping : bool) : bool :=
  match c with Worker.COnStarted => true | _ => looping end.

Definition result_error (r : result goerr unit) : option goerr :=
  match r with Ok _ => None | Err e => Some e end.

Inductive other_step (s : sys) : sys → Prop :=
| worker_call c k looping r :
    s.(worker) = WorkerRunning (Do c k) looping → worker_reply s.(sh) c r →
    other_step s (Sys s.(main) s.(main_ghost)
                    (WorkerRunning (k r) (worker_looping c looping))
                    (WorkerLogic.after s.(worker_ghost) c r) s.(server)
                    (worker_shared c s.(sh)))
| worker_send r looping :
    s.(worker) = WorkerRunning (Ret r) looping →
    (length s.(sh).(results) < results_cap)%nat →
    other_step s (Sys s.(main) s.(main_ghost) WorkerSent s.(worker_ghost) s.(server)
                    (send (Process.Worker, result_error r) s.(sh)))
| worker_defer :
    s.(worker) = WorkerSent →
    other_step s (Sys s.(main) s.(main_ghost) WorkerDone s.(worker_ghost) s.(server)
                    (set_ready false s.(sh)))
| server_returns e :
    s.(server) = ServerRunning →
    (errors_Is e http_ErrServerClosed = true → s.(sh).(closed) = true) →
    (length s.(sh).(results) < results_cap)%nat →
    other_step s (Sys s.(main) s.(main_ghost) s.(worker) s.(worker_ghost) ServerDone
                    (send (Server, Some e) s.(sh)))
| signal :
    other_step s (Sys s.(main) s.(main_ghost) s.(worker) s.(worker_ghost) s.(server)
                    (set_signalled s.(sh))).

Definition sys_step (s s' : sys) : Prop := main_step s s' ∨ other_step s s'.

Definition init : sys :=
  Sys (WorkerMain.run lookup) ProcessLogic.start WorkerNew WorkerLogic.start ServerNew
    (MkShared false [] false false false).

Definition reachable (s : sys) : Prop := rtc sys_step init s.

End System.

End WorkerGoroutines.
