(* ===== verification/WorkerReady.v ===== *)
(** * What the goroutines of the worker process guarantee

    The invariant of their reachable states, by induction on the steps, with the
    weakest preconditions of both programs inside it. *)
From S2P Require Import Prelude.
From S2P Require Import GoErrors.
From S2P Require Import Prog.
From S2P Require Import ProgLogic.
From S2P Require Import GoStrings.
From S2P Require Import Outbox.
From S2P Require Import Backoff.
From S2P Require Import Worker.
From S2P Require Import WorkerLogic.
From S2P Require Import WorkerSafety.
From S2P Require Import Config.
From S2P Require Import Http.
From S2P Require Import Process.
From S2P Require Import WorkerMain.
From S2P Require Import ProcessLogic.
From S2P Require Import ProcessSafety.
From S2P Require Import Startup.
From S2P Require Import WorkerGoroutines.
Local Open Scope Z_scope.

Module WorkerReady.
Import ProgLogic Process ProcessLogic ProcessSafety WorkerGoroutines.

(** ** The invariant *)

(** The goroutine has not sent its result. *)
Definition alive (c : component) (w : worker_goroutine) (v : server_goroutine) : Prop :=
  match c with
  | Process.Worker => ∃ p looping, w = WorkerRunning p looping
  | Server => v = ServerRunning
  end.

(** What a goroutine may send: the worker returns without an error only when its
    context was cancelled, otherwise with its fatal error; the server always
    returns an error. *)
Definition result_ok (s : shared) (x : component * option goerr) : Prop :=
  match x with
  | (Process.Worker, None) => s.(cancelled) = true
  | (Process.Worker, Some e) => errors_Is e outbox_errWorkerFatal = true
  | (Server, None) => False
  | (Server, Some e) => errors_Is e http_ErrServerClosed = true → s.(closed) = true
  end.

(** The components main waits for are those that run and those whose result is in
    the channel, once. *)
Definition channel_ok (running : list component) (w : worker_goroutine) (v : server_goroutine)
    (s : shared) : Prop :=
  NoDup (s.(results).*1)
  ∧ (∀ c, c ∈ running ↔ alive c w v ∨ c ∈ s.(results).*1)
  ∧ (∀ c, c ∈ s.(results).*1 → ¬ alive c w v)
  ∧ Forall (result_ok s) s.(results).

(** The worker's program follows its protocol from what it has seen of its
    context. *)
Definition worker_safe (w : Worker.Worker) (g : worker_goroutine) (h : WorkerLogic.ghost)
    (cancelled : bool) : Prop :=
  match g with
  | WorkerRunning p _ =>
      WorkerLogic.wsafe w p h WorkerLogic.run_post
      ∧ (∀ e, h.(WorkerLogic.g_ctx) = Some e → cancelled = true ∧ e = context_Canceled)
      ∧ (h.(WorkerLogic.g_ended) = true → cancelled = true)
  | _ => True
  end.

(** The flag is set by the polling loop, and cleared before its goroutine ends. *)
Definition ready_ok (g : worker_goroutine) (ready : bool) : Prop :=
  ready = true → (∃ p, g = WorkerRunning p true) ∨ g = WorkerSent.

Record inv (w : Worker.Worker) (s : sys) : Prop := {
  inv_main : wph (ProcessLogic.step true) possible s.(main_ghost) s.(main) (worker_ok false false);
  inv_channel : channel_ok s.(main_ghost).(running) s.(worker) s.(server) s.(sh);
  inv_started : s.(worker) ≠ WorkerNew → s.(main_ghost).(started) = true;
  inv_worker : worker_safe w s.(worker) s.(worker_ghost) s.(sh).(cancelled);
  inv_ready : ready_ok s.(worker) s.(sh).(workerReady);
  inv_signal : s.(main_ghost).(ended) = true → s.(sh).(signalled) = true
}.

(** ** The channel *)


Lemma channel_send running w v w' v' s c e :
  channel_ok running w v s → alive c w v → ¬ alive c w' v' →
  (∀ c', c' ≠ c → alive c' w v ↔ alive c' w' v') → result_ok s (c, e) →
  channel_ok running w' v' (send (c, e) s).
Proof.
  intros (Hnd & Hrun & Hex & Hall) Hc Hc' Hsame Hok. unfold channel_ok, send, set_results; simpl.
  rewrite fmap_app. simpl. split_and!.
  - apply NoDup_app. split_and!; [done| |apply NoDup_singleton].
    intros c' Hin ->%list_elem_of_singleton. by destruct (Hex c).
  - intros c'. rewrite elem_of_app, list_elem_of_singleton, Hrun.
    destruct (decide (c' = c)) as [->|Hne]; [naive_solver|]. rewrite (Hsame c' Hne). naive_solver.
  - intros c' [Hin| ->%list_elem_of_singleton]%elem_of_app; [|done].
    assert (c' ≠ c) by (intros ->; by destruct (Hex c)). rewrite <-Hsame by done. by apply Hex.
  - apply Forall_app. split; [by eapply Forall_impl|by apply Forall_singleton].
Qed.

(** Main receives the oldest result. *)
Lemma channel_receive g w v s c e :
  channel_ok g.(running) w v s → head s.(results) = Some (c, e) →
  channel_ok (ended_component c g).(running) w v (set_results (tail s.(results)) s).
Proof.
  intros (Hnd & Hrun & Hex & Hall) Hhead. unfold channel_ok, set_results; simpl.
  destruct s.(results) as [|x rs]; [done|]. injection Hhead as ->. simpl in *.
  apply NoDup_cons in Hnd as [Hc Hnd]. apply Forall_cons in Hall as [_ Hall]. split_and!.
  - done.
  - intros c'. rewrite list_elem_of_filter, Hrun, elem_of_cons. split; [naive_solver|].
    intros H. split; [|naive_solver]. intros ->. destruct H as [H|H]; [|done].
    by apply (Hex c); [left|].
  - intros c' Hin. apply Hex. by right.
  - done.
Qed.

Lemma head_waited running w v s c e :
  channel_ok running w v s → head s.(results) = Some (c, e) → c ∈ running.
Proof.
  intros (_ & Hrun & _) Hhead. apply Hrun. right. destruct s.(results); [done|].
  injection Hhead as ->. by left.
Qed.

(** Main starts a goroutine it does not wait for. *)
Lemma channel_go running w v w' v' s c :
  channel_ok running w v s → c ∉ running → alive c w' v' →
  (∀ c', c' ≠ c → alive c' w v ↔ alive c' w' v') → channel_ok (c :: running) w' v' s.
Proof.
  intros (Hnd & Hrun & Hex & Hall) Hc Hc' Hsame. split_and!; [done| | |done].
  - intros c'. rewrite elem_of_cons, Hrun. destruct (decide (c' = c)) as [->|Hne]; [naive_solver|].
    rewrite (Hsame c' Hne). naive_solver.
  - intros c' Hin. assert (c' ≠ c) as Hne.
    { intros ->. apply Hc, Hrun. by right. }
    rewrite <-Hsame by done. by apply Hex.
Qed.

(** Steps of a goroutine that runs on, or has sent its result. *)
Lemma channel_alive running w v w' v' s :
  (∀ c, alive c w v ↔ alive c w' v') → channel_ok running w v s → channel_ok running w' v' s.
Proof. intros Hsame (Hnd & Hrun & Hex & Hall). split_and!; try done; naive_solver. Qed.

(** Effects that do not touch the channel. *)
Lemma channel_mono running w v s s' :
  channel_ok running w v s → s'.(results) = s.(results) →
  (s.(cancelled) = true → s'.(cancelled) = true) → (s.(closed) = true → s'.(closed) = true) →
  channel_ok running w v s'.
Proof.
  intros (Hnd & Hrun & Hex & Hall) Hr Hcan Hcl. unfold channel_ok. rewrite Hr. split_and!; try done.
  eapply Forall_impl; [exact Hall|]. intros [[] [e|]]; simpl; auto.
Qed.

(** ** The steps of main *)

Lemma main_reply_possible g w v s c (r : reply c) :
  channel_ok g.(running) w v s → main_reply s c r → possible g c r.
Proof.
  intros Hch Hr. destruct c; try done; simpl in *; destruct r as [[c e]|]; try done;
    by eapply head_waited.
Qed.

(** The cases of a call of the protocol that was allowed. *)
Ltac allowed H := unfold guard in H; repeat case_match; simplify_eq/=;
  rewrite ?andb_true_iff, ?orb_true_iff, ?negb_true_iff, ?bool_decide_eq_true in *; destruct_and?.

Section Steps.
Context (fuel : nat) (w : Worker.Worker).

Lemma main_channel g g' wg vg s c r :
  channel_ok g.(running) wg vg s → main_reply s c r → ProcessLogic.step true g c r = Some g' →
  channel_ok g'.(running) (main_worker fuel w c wg) (main_server c vg) (main_shared c r s).
Proof.
  intros Hch Hr Hs.
  assert (∀ s', s'.(results) = s.(results) → s'.(cancelled) = s.(cancelled) ∨ s'.(cancelled) = true →
            s'.(closed) = s.(closed) ∨ s'.(closed) = true →
            channel_ok g.(running) wg vg s') as Hsame.
  { intros s' H1 H2 H3. eapply channel_mono; [exact Hch|exact H1| |]; naive_solver congruence. }
  destruct c; simpl in *; try done.
  all: try match type of r with option (component * option goerr) =>
             destruct r as [[c e]|]; allowed Hs; [by eapply channel_receive|done] end.
  all: try destruct c; allowed Hs; unfold seen_ctx; repeat case_match; try (apply Hsame; naive_solver).
  all: eapply channel_go; [exact Hch|done| |].
  all: try (intros []; naive_solver). all: simpl; eauto.
Qed.

Lemma main_started g g' wg c r :
  (wg ≠ WorkerNew → g.(started) = true) → ProcessLogic.step true g c r = Some g' →
  main_worker fuel w c wg ≠ WorkerNew → g'.(started) = true.
Proof.
  intros Hw Hs. destruct c; simpl in *; allowed Hs; unfold seen_ctx; by repeat case_match.
Qed.

Lemma main_signal g g' s c r :
  (g.(ended) = true → s.(signalled) = true) → main_reply s c r →
  ProcessLogic.step true g c r = Some g' → g'.(ended) = true → (main_shared c r s).(signalled) = true.
Proof.
  intros Hg Hr Hs. destruct c; simpl in *; allowed Hs; unfold seen_ctx, ctx_reply in *;
    repeat case_match; simplify_eq/=; naive_solver.
Qed.

Lemma main_worker_inv g g' wg h s c r :
  (wg ≠ WorkerNew → g.(started) = true) → ProcessLogic.step true g c r = Some g' →
  worker_safe w wg h s.(cancelled) ∧ ready_ok wg s.(workerReady) →
  worker_safe w (main_worker fuel w c wg) (main_worker_ghost c h) (main_shared c r s).(cancelled)
  ∧ ready_ok (main_worker fuel w c wg) (main_shared c r s).(workerReady).
Proof.
  intros Hw Hs [Hsafe Hready]. destruct c; simpl in *; try done; try (by case_match).
  - destruct c; [done|]. assert (wg = WorkerNew) as ->.
    { destruct wg; [done|..]; rewrite Hw in Hs by done; simpl in Hs;
        rewrite andb_false_r in Hs; done. }
    split; [split; [exact (WorkerLogic.wsafe_Run w fuel true)|done]|].
    intros Hr. by destruct (Hready Hr) as [[p [=]]|[=]].
  - allowed Hs. by destruct b.
  - split; [|done]. destruct wg; naive_solver.
Qed.

Lemma main_step_inv s s' : main_step fuel w s s' → inv w s → inv w s'.
Proof.
  intros [c k r Hm Hr] [Hmain Hch Hst Hw Hrd Hsig]. rewrite Hm in Hmain. simpl in Hmain.
  destruct (Hmain r) as (g' & Hs & Hk); [by eapply main_reply_possible|].
  destruct (main_worker_inv _ g' _ (worker_ghost s) _ c r Hst Hs (conj Hw Hrd)) as [Hw' Hrd'].
  split; simpl; rewrite ?Hs; simpl; [done| | |done|done|].
  - by eapply main_channel.
  - by eapply main_started.
  - by eapply main_signal.
Qed.

(** ** The other steps *)

Lemma worker_reply_possible h s c (r : Worker.reply c) :
  (∀ e, h.(WorkerLogic.g_ctx) = Some e → s.(cancelled) = true ∧ e = context_Canceled) →
  worker_reply s c r → WorkerLogic.possible h c r.
Proof.
  intros Hctx Hr. destruct c; try done. simpl in *. unfold ctx_reply in Hr.
  destruct (WorkerLogic.g_ctx h) as [e|] eqn:He; [|done].
  destruct (Hctx e eq_refl) as [Hc ->]. by rewrite Hc in Hr.
Qed.

(** What the worker has seen of its context is the cancellation. *)
Lemma worker_sees h s c (r : Worker.reply c) :
  worker_reply s c r →
  (∀ e, h.(WorkerLogic.g_ctx) = Some e → s.(cancelled) = true ∧ e = context_Canceled)
  ∧ (h.(WorkerLogic.g_ended) = true → s.(cancelled) = true) →
  (∀ e, (WorkerLogic.after h c r).(WorkerLogic.g_ctx) = Some e →
     s.(cancelled) = true ∧ e = context_Canceled)
  ∧ ((WorkerLogic.after h c r).(WorkerLogic.g_ended) = true → s.(cancelled) = true).
Proof.
  intros Hr [H1 H2]. destruct c; simpl in *; unfold WorkerLogic.seen_ctx, ctx_reply in *; try done.
  - destruct s.(cancelled); rewrite Hr; simpl; naive_solver.
  - split; [done|]. by destruct r.
Qed.

Lemma other_step_inv s s' : other_step s s' → inv w s → inv w s'.
Proof.
  intros Hstep [Hmain Hch Hst Hw Hrd Hsig].
  destruct Hstep as [c k l r Hwk Hr|r l Hwk Hroom|Hwk|e Hv He Hroom|].
  - rewrite Hwk in *. destruct Hw as ([_ Hsafe] & Hctx & Hend).
    assert ((worker_shared c (sh s)).(cancelled) = (sh s).(cancelled)) as Hcan by (by destruct c).
    split; simpl; rewrite ?Hcan; try done.
    + eapply channel_alive, channel_mono; [|exact Hch|by destruct c..].
      intros []; simpl; naive_solver.
    + intros _. by apply Hst.
    + split; [|by apply worker_sees]. apply Hsafe. by eapply worker_reply_possible.
    + intros Hready. left. destruct c; simpl in *; try (destruct (Hrd Hready) as [[p [= _ ->]]|]; eauto; done).
      by eexists.
    + by destruct c.
  - rewrite Hwk in *. destruct Hw as (Hpost & Hctx & Hend). split; simpl; try done.
    + eapply channel_send; [exact Hch|simpl; eauto|by intros (? & ? & ?)|by intros []|].
      destruct r as [[]|e]; [by apply Hend|]. destruct Hpost as (e0 & op & _ & _ & ->). done.
    + intros _. by apply Hst.
    + intros _. by right.
  - rewrite Hwk in *. split; simpl; try done.
    + eapply channel_alive; [|exact Hch]. intros []; simpl; naive_solver.
    + intros _. by apply Hst.
  - split; simpl; try done.
    by eapply channel_send; [exact Hch|exact Hv|intros [=]|intros []|].
  - split; simpl; try done.
Qed.

Context `{M : Http.ServeMux} (lookup : Config.lookupFunc).

Lemma goroutines_init : inv w (init lookup).
Proof.
  split; simpl; try done; [by apply (worker_run possible)|].
  unfold channel_ok. simpl. split_and!; [constructor| | |done]; intros c; [|set_solver].
  split; [set_solver|]. intros [Hc|Hc]; [|set_solver]. by destruct c; [|destruct Hc as (? & ? & ?)].
Qed.

Lemma sys_step_inv s s' : sys_step fuel w s s' → inv w s → inv w s'.
Proof. intros [H|H]; [by eapply main_step_inv|by eapply other_step_inv]. Qed.

Lemma goroutines_inv s : reachable lookup fuel w s → inv w s.
Proof.
  unfold reachable. cut (∀ s0, rtc (sys_step fuel w) s0 s → inv w s0 → inv w s).
  { intros Hc Hr. eapply Hc; [exact Hr|apply goroutines_init]. }
  intros s0 Hr. induction Hr; eauto using sys_step_inv.
Qed.

End Steps.

(** ** Executing the system *)

Inductive action := AMain | AWorker | AServer (e : goerr) | ASignal.

Definition ctx_answer (ended : bool) : ctx_state :=
  if ended then CtxCanceled (ESentinel context_Canceled) else CtxLive.

(** The replies of a run whose dependencies answer and whose outbox is empty. *)
Definition main_answer (s : shared) (c : call) : reply c :=
  match c with
  | CCtx => ctx_answer s.(signalled)
  | CSelect | CReceive => head s.(results)
  | c => demo_process true [] c
  end.
Definition main_blocked (s : shared) (c : call) : bool :=
  match c with
  | CSelect => bool_decide (s.(results) = []) && negb s.(signalled)
  | CWaitServer => true
  | _ => false
  end.

Definition worker_answer (s : shared) (c : Worker.call) : Worker.reply c :=
  match c with
  | Worker.CCtx => ctx_answer s.(cancelled)
  | Worker.CSelect => if s.(cancelled) then Worker.CtxDone else Worker.TimerFired
  | Worker.CClaimNext _ _ => Ok None
  | Worker.CMarkPublished _ _ | Worker.CScheduleRetry _ _ _ _ | Worker.CMarkDeadLetter _ _ _ => Ok tt
  | Worker.CPublish _ _ => Worker.PublishReply None CtxLive 0
  | Worker.CReset _ | Worker.COnStarted | Worker.CObserve _ | Worker.CLog _ _ _ => tt
  end.

Definition act (fuel : nat) (w : Worker.Worker) (a : action) (s : sys) : option sys :=
  match a with
  | AMain =>
      match s.(main) with
      | Do c k =>
          let r := main_answer s.(sh) c in
          if main_blocked s.(sh) c then None else Some (after_main fuel w s c r (k r))
      | _ => None
      end
  | AWorker =>
      match s.(worker) with
      | WorkerRunning (Do c k) looping =>
          let r := worker_answer s.(sh) c in
          Some (Sys s.(main) s.(main_ghost) (WorkerRunning (k r) (worker_looping c looping))
                  (WorkerLogic.after s.(worker_ghost) c r) s.(server) (worker_shared c s.(sh)))
      | WorkerRunning (Ret r) looping =>
          if (length s.(sh).(results) <? results_cap)%nat then
            Some (Sys s.(main) s.(main_ghost) WorkerSent s.(worker_ghost) s.(server)
                    (send (Process.Worker, result_error r) s.(sh)))
          else None
      | WorkerSent =>
          Some (Sys s.(main) s.(main_ghost) WorkerDone s.(worker_ghost) s.(server)
                  (set_ready false s.(sh)))
      | _ => None
      end
  | AServer e =>
      match s.(server) with
      | ServerRunning =>
          if (negb (errors_Is e http_ErrServerClosed) || s.(sh).(closed))
             && (length s.(sh).(results) <? results_cap)%nat
          then Some (Sys s.(main) s.(main_ghost) s.(worker) s.(worker_ghost) ServerDone
                       (send (Server, Some e) s.(sh)))
          else None
      | _ => None
      end
  | ASignal =>
      Some (Sys s.(main) s.(main_ghost) s.(worker) s.(worker_ghost) s.(server)
              (set_signalled s.(sh)))
  end.

Fixpoint acts (fuel : nat) (w : Worker.Worker) (l : list action) (s : sys) : option sys :=
  match l with
  | [] => Some s
  | a :: l => s' ← act fuel w a s; acts fuel w l s'
  end.

Lemma ctx_answer_reply b : ctx_reply b (ctx_answer b).
Proof. by destruct b. Qed.

Lemma main_answer_reply s c : main_blocked s c = false → main_reply s c (main_answer s c).
Proof.
  destruct c; simpl; try done; [intros _; apply ctx_answer_reply|..];
    destruct (results s) as [|x l]; simpl; try done.
  destruct (signalled s); done.
Qed.

Lemma worker_answer_reply s c : worker_reply s c (worker_answer s c).
Proof. destruct c; simpl; try done; [apply ctx_answer_reply|]. by destruct (cancelled s) eqn:H. Qed.

Lemma act_step fuel w a s s' : act fuel w a s = Some s' → sys_step fuel w s s'.
Proof.
  destruct a as [| |e|]; simpl.
  - destruct (main s) as [| |c k] eqn:Hm; try done. case_match eqn:Hb; intros [= <-].
    left. by constructor; [|apply main_answer_reply].
  - destruct (worker s) as [|[r| |c k] l| |] eqn:Hw; try done.
    + case_match eqn:Hb; intros [= <-]. right. eapply worker_send; [done|by apply Nat.ltb_lt].
    + intros [= <-]. right. eapply worker_call; [done|apply worker_answer_reply].
    + intros [= <-]. right. by apply worker_defer.
  - destruct (server s) eqn:Hv; try done. case_match eqn:Hb; intros [= <-].
    apply andb_true_iff in Hb as [He Hl]. right. apply server_returns; [done| |by apply Nat.ltb_lt].
    intros Hc. by rewrite Hc in He.
  - intros [= <-]. right. constructor.
Qed.

Lemma acts_steps fuel w l s s' : acts fuel w l s = Some s' → rtc (sys_step fuel w) s s'.
Proof.
  revert s. induction l as [|a l IH]; intros s; simpl; [by intros [= <-]|].
  intros (s1 & H1%act_step & H2%IH)%bind_Some. by eapply rtc_l.
Qed.

(** ** Theorems *)


(** Whatever the others do in between, main can always take a step, until [P]. *)
Inductive eventually (fuel : nat) (w : Worker.Worker) (P : sys → Prop) (s : sys) : Prop :=
| eventually_now : P s → eventually fuel w P s
| eventually_later :
    (∀ s1, rtc other_step s s1 →
       (∃ s2, main_step fuel w s1 s2)
       ∧ ∀ s2, main_step fuel w s1 s2 → eventually fuel w P s2) →
    eventually fuel w P s.

(** The code [run] returned. *)
Definition exited (s : sys) : Prop := ∃ code, s.(main) = Ret code ∧ (code = 0 ∨ code = 1).

Lemma others_keep w s s1 :
  rtc other_step s s1 → inv w s → s.(sh).(signalled) = true →
  s1.(main) = s.(main) ∧ inv w s1 ∧ s1.(sh).(signalled) = true.
Proof.
  induction 1 as [s|s s2 s3 Hstep Hrest IH]; intros Hinv Hsig; [done|].
  assert (s2.(main) = s.(main) ∧ s2.(sh).(signalled) = true) as [Hm Hs].
  { destruct Hstep as [c| | | |]; try done. split; [done|]. by destruct c. }
  rewrite <-Hm. apply IH; [by eapply other_step_inv|done].
Qed.

Lemma main_shared_signalled c r s :
  s.(signalled) = true → (main_shared c r s).(signalled) = true.
Proof. destruct c; simpl; try done; by destruct r. Qed.

(** A call of the protocol is answered once the process was signalled. *)
Lemma main_answered g s c (k : reply c → pprog Z) Q :
  wph (ProcessLogic.step true) possible g (Do c k) Q → s.(signalled) = true →
  ∃ r, main_reply s c r.
Proof.
  intros Hwp Hs. exists (main_answer s c). apply main_answer_reply.
  destruct c; try done; simpl; [by rewrite Hs, andb_false_r|].
  destruct (Hwp None I) as (g' & [=] & _).
Qed.

(** What holds after every reply to the next call. *)
Definition answers (Φ : ∀ c, reply c → pprog Z → Prop) (s : shared) (p : pprog Z) : Prop :=
  match p with Do c k => ∀ r, main_reply s c r → Φ c r (k r) | _ => True end.

(** C40: Once the process was asked to stop, main returns with exit code 0 or 1
    after finitely many of its own steps, and none of these steps has to wait for
    the polling loop or the admin server: whatever they do in between, and whatever
    main is told, it can go on. *)
Theorem shutdown_ends `{M : Http.ServeMux} lookup fuel w s :
  reachable lookup fuel w s → s.(sh).(signalled) = true → eventually fuel w exited s.
Proof.
  intros Hinv%goroutines_inv Hsig. remember s.(main) as p eqn:Hp.
  revert s Hp Hinv Hsig. induction p as [code| |c k IH]; intros s Hp Hinv Hsig.
  - apply eventually_now. exists code. split; [done|]. destruct Hinv as [Hmain _ _ _ _ _].
    rewrite <-Hp in Hmain. destruct Hmain as (_ & _ & _ & [[-> _]|[-> _]]); auto.
  - destruct Hinv as [Hmain _ _ _ _ _]. by rewrite <-Hp in Hmain.
  - apply eventually_later. intros s1 Hs1. destruct (others_keep w s s1) as (Hm & Hinv1 & Hsig1); [done..|].
    rewrite <-Hp in Hm. split.
    + pose proof Hinv1 as [Hmain _ _ _ _ _]. rewrite Hm in Hmain.
      destruct (main_answered _ _ _ _ _ Hmain Hsig1) as [r Hr]. eexists. by constructor.
    + enough (answers (λ c r p, eventually fuel w exited (after_main fuel w s1 c r p))
                (sh s1) (Do c k)) as Hall.
      { intros s2 [c' k' r Hm' Hr]. rewrite <-Hm, Hm' in Hall. by apply Hall. }
      intros r Hr. apply (IH r); [done| |by apply main_shared_signalled].
      eapply main_step_inv; [by constructor|done].
Qed.

(** ** Runs *)

Definition demo_init : sys := @init Startup.demo_mux Startup.demo_lookup.
Definition demo_acts (l : list action) : option sys :=
  acts 5 WorkerSafety.demo_worker l demo_init.

(** Both goroutines are started, and the polling loop is entered. *)
Definition demo_up : list action := replicate 26 AMain ++ replicate 6 AWorker.




Lemma demo_acts_reachable l s :
  demo_acts l = Some s → @reachable Startup.demo_mux Startup.demo_lookup 5 WorkerSafety.demo_worker s.
Proof. apply acts_steps. Qed.


Lemma shutdown_ends_witness :
  match demo_acts (demo_up ++ [ASignal]) with
  | Some s => eventually 5 WorkerSafety.demo_worker exited s
  | None => False
  end.
Proof.
  assert (signalled ∘ sh <$> demo_acts (demo_up ++ [ASignal]) = Some true) as H
    by (vm_compute; reflexivity).
  destruct (demo_acts (demo_up ++ [ASignal])) as [s|] eqn:E; [|discriminate H].
  injection H as H.
  exact (@shutdown_ends Startup.demo_mux _ _ _ _ (demo_acts_reachable _ _ E) H).
Defined.

(** That main cleared the flag does not keep it cleared: a polling loop that found
    its context live before main cancelled it still reports that it started, so the
    flag is set until its goroutine ends. *)
Example flag_set_during_shutdown :
  (λ s, (s.(main_ghost).(unready), s.(sh).(cancelled), s.(sh).(workerReady)))
    <$> demo_acts (replicate 26 AMain ++ replicate 4 AWorker ++ [ASignal]
                   ++ replicate 5 AMain ++ [AWorker])
  = Some (true, true, true).
Proof. vm_compute. reflexivity. Qed.

End WorkerReady.
