(* ===== verification/WorkerTime.v ===== *)
(** * The lease budget of a worker

    internal/config promises that the lease outlasts the I/O of one event: the
    claim, the publication and the final transition, each within its timeout.
    Here time is the database clock of the worker system: in an execution whose
    calls respect the configured timeouts, no worker ever loses a lease. *)
From S2P Require Import Prelude.
From S2P Require Import GoErrors.
From S2P Require Import Prog.
From S2P Require Import GoStrings.
From S2P Require Import GoJson.
From S2P Require Import Schema.
From S2P Require Import Demo.
From S2P Require Import Rewards.
From S2P Require Import Outbox.
From S2P Require Import OutboxFacts.
From S2P Require Import Backoff.
From S2P Require Import Worker.
From S2P Require Import WorkerLogic.
From S2P Require Import WorkerSys.
From S2P Require Import WorkerSafety.
From S2P Require Import Config.
From S2P Require Import Process.
From S2P Require Import WorkerMain.
Local Open Scope Z_scope.

Module WorkerTime.
Import Schema Demo Outbox OutboxFacts Backoff Worker WorkerLogic WorkerSys.

(** ** Timestamps of the rows *)

(** No row is from the future, and a leased row was available when it was leased. *)
Definition row_timed (clock : Z) (o : outbox_row) : Prop :=
  o.(o_created_at) ≤ clock ∧ (o.(o_status) = processing → o.(o_available_at) ≤ clock).

Definition rows_timed (clock : Z) (m : table) : Prop :=
  ∀ id o, m !! id = Some o → row_timed clock o.

Lemma rows_timed_mono clock clock' m : clock ≤ clock' → rows_timed clock m → rows_timed clock' m.
Proof. intros Hle Hm id o Ho. destruct (Hm id o Ho) as [Hc Ha]. split; [lia|]. intros Hs. specialize (Ha Hs). lia. Qed.

Lemma rows_timed_insert clock m id o :
  rows_timed clock m → row_timed clock o → rows_timed clock (<[id := o]> m).
Proof. intros Hm Ho id' o' [[_ <-]|[_ Hin]]%lookup_insert_Some; [done|by eapply Hm]. Qed.

Lemma due_available clock m o :
  rows_timed clock m → m !! o.(o_id) = Some o → due clock o = true → o.(o_available_at) ≤ clock.
Proof.
  intros Hm Hin Hd. destruct (due_status _ _ Hd) as [E|[E _]].
  - unfold due in Hd. rewrite E in Hd. by boolean.
  - by apply (Hm _ _ Hin).
Qed.

Section timed.
Context `{Postgres, PgInterval}.

Lemma leased_timed clock m o worker ttl :
  rows_timed clock m → m !! o.(o_id) = Some o → due clock o = true →
  row_timed clock (leased o worker ttl clock).
Proof.
  intros Hm Hin Hd. pose proof (due_available _ _ _ Hm Hin Hd).
  by destruct (Hm _ _ Hin) as [Hc _].
Qed.

Lemma op_row_timed clock op o : row_timed clock o → row_timed clock (op_row op clock o).
Proof. intros [Hc _]. by destruct op. Qed.

Lemma wstep_timed maxF s s' :
  wstep maxF s s' → winv maxF s →
  rows_timed s.(ws_clock) s.(ws_table) → rows_timed s'.(ws_clock) s'.(ws_table).
Proof.
  intros Hstep Hinv Hrows. destruct Hstep as
    [| s t w c k g until ch m' r Ht Hnow Hex Hpos | |s clock Hle|s id at_ ai et pl now o Hnow| s id o Hin Hs];
    simpl in *; try done.
  - destruct Hinv as [Hok _ _ Hth _]. destruct (Hth _ _ Ht) as ([Hal _] & Hmax & _).
    destruct (wexec_table_step maxF _ _ _ _ _ _ _ Hok Hmax Hal Hex) as [_ Hts].
    rewrite Hnow in Hts. destruct Hts as [|o Hin Hd|o op e p Hin]; [done|..].
    + apply rows_timed_insert; [done|]. by eapply leased_timed.
    + apply rows_timed_insert; [done|]. by eapply op_row_timed, Hrows.
  - by eapply rows_timed_mono.
  - apply rows_timed_insert; [done|]. by split.
  - intros id' o' [_ Ho']%lookup_delete_Some. by eapply Hrows.
Qed.

Lemma wreachable_timed maxF s :
  0 < maxF → wreachable maxF s → rows_timed s.(ws_clock) s.(ws_table).
Proof.
  intros HmaxF Hs.
  cut (∀ s0, rtc (wstep maxF) s0 s → winv maxF s0 → rows_timed s0.(ws_clock) s0.(ws_table) →
         rows_timed s.(ws_clock) s.(ws_table)).
  { intros Hc. eapply Hc; [exact Hs|apply init_winv|]. intros id o Ho. by simplify_map_eq. }
  clear Hs. intros s0 Hr. induction Hr; eauto using wstep_inv, wstep_timed.
Qed.

(** ** The final transition of an event *)

Definition final_call (c : call) : option (final_op * string) :=
  match c with
  | CMarkPublished _ id => Some (OpPublished, id)
  | CScheduleRetry _ id delay outcome => Some (OpRetry delay outcome, id)
  | CMarkDeadLetter _ id outcome => Some (OpDeadLetter outcome, id)
  | _ => None
  end.

(** What it returned. *)
Definition final_result (c : call) : reply c → result goerr unit :=
  match c with
  | CMarkPublished _ _ | CScheduleRetry _ _ _ _ | CMarkDeadLetter _ _ _ => λ r, r
  | _ => λ _, Ok tt
  end.

Lemma final_allowed w g c op id :
  policy_ok w.(backoff) → allowed w g c → final_call c = Some (op, id) →
  op_valid op
  ∧ (∃ e p, g.(g_held) = Some (e, p) ∧ p ≠ Claimed ∧ id = e.(ID))
  ∧ ∀ ch m m' r, wexec ch m c = (m', r) →
      run_op op ch.(wc_store) m w.(workerID) id = (m', final_result c r).
Proof.
  intros Hpol Hal Hc. destruct c; try done; injection Hc as <- <-; simpl in *.
  - destruct Hal as (-> & e & Hh & ->). split; [done|]. split; [by eexists _, _|done].
  - destruct Hal as (-> & Hout & e & Hh & -> & _ & ->).
    split; [split; [|done]|split; [by eexists _, _|done]].
    pose proof (retryDelay_range _ (int64 (e.(FailedAttempts) + 1)) Hpol) as Hr.
    destruct Hpol. lia.
  - destruct Hal as (-> & Hout & e & Hh & -> & _). split; [done|]. split; [by eexists _, _|done].
Qed.

(** ** Executions within the budget *)

(** [make_interval] keeps a duration up to the resolution of a timestamp. *)
Definition interval_exact : Prop :=
  ∀ d, 0 < d ≤ 10 ^ 18 → Z.abs (1000 * make_interval d - d) < 1000.

(** The time, in nanoseconds, the I/O of the event a worker holds may have taken
    since the lease: the claim and the publication; then the final transition as
    well.  [q] is the query timeout. *)
Definition allowance (q : Z) (w : Worker) (p : phase) : Z :=
  match p with
  | Claimed => q + w.(publishTimeout)
  | Delivered | Refused => 2 * q + w.(publishTimeout)
  end.

(** When the lease of the held event was taken. *)
Definition leased_at (th : wthread) : Z :=
  th.(wt_until) - make_interval th.(wt_worker).(lockTTL).

(** The clock counts microseconds. *)
Definition in_time (q clock : Z) (th : wthread) : Prop :=
  match th.(wt_prog), th.(wt_ghost).(g_held) with
  | Do _ _, Some (_, p) =>
      1000 * (clock - leased_at th + 1) ≤ allowance q th.(wt_worker) p
  | _, _ => True
  end.

(** Every call of every worker is answered within its timeout, and nothing else
    takes time. *)
Definition timely_step (maxF q : Z) (s s' : wsys) : Prop :=
  wstep maxF s s' ∧ ∀ t th, s'.(ws_workers) !! t = Some th → in_time q s'.(ws_clock) th.

Definition timely_reachable (maxF q : Z) (s : wsys) : Prop :=
  rtc (timely_step maxF q) init_wsys s.

Lemma timely_wreachable maxF q s : timely_reachable maxF q s → wreachable maxF s.
Proof. apply rtc_subrel. by intros ? ? []. Qed.

Lemma timely_in_time maxF q s t th :
  timely_reachable maxF q s → s.(ws_workers) !! t = Some th → in_time q s.(ws_clock) th.
Proof.
  intros Hr Ht. apply rtc_inv_r in Hr as [<-|(s0 & _ & _ & Hin)]; [by simplify_map_eq|by eapply Hin].
Qed.

(** Within the budget the lease is live. *)
Lemma in_time_live q clock w c k g until e p :
  interval_exact → w.(publishTimeout) + 2 * q < w.(lockTTL) → 0 < w.(lockTTL) ≤ 10 ^ 18 → 0 ≤ q →
  g.(g_held) = Some (e, p) → in_time q clock (WThread w (Do c k) g until) → clock < until.
Proof.
  intros Hint Hbudget Httl Hq Hg Hin. unfold in_time, leased_at in Hin. simpl in Hin.
  rewrite Hg in Hin. pose proof (Hint _ Httl). destruct p; simpl in Hin; lia.
Qed.

(** ** The worker cmd/worker builds *)

(** The identifier [newWorkerID] makes of random bytes. *)
Definition worker_id (b : list Z) : string := ("worker-" ++ hex_EncodeToString b)%string.

Lemma text_ok_cons a s : 0 < code a < RuneSelf → text_ok (String a s) = text_ok s.
Proof.
  intros Ha. unfold text_ok, utf8_ValidString, contains_NUL.
  change (to_bytes (String a s)) with (a :: to_bytes s). cbn [valid_from existsb].
  rewrite decode_valid_ascii by lia. by rewrite (proj2 (Z.eqb_neq _ _)) by lia.
Qed.

Lemma text_ok_hex b s :
  Forall (λ x, 0 ≤ x < 256) b → text_ok s = true → text_ok (hex_EncodeToString b ++ s) = true.
Proof.
  intros Hb Hs. induction Hb as [|x b Hx Hb IH]; [done|]. rewrite Rewards.hex_Encode_cons.
  destruct (Rewards.hex_byte_digits x Hx) as (a1 & a2 & -> & H1 & H2).
  change (text_ok (String a1 (String a2 (hex_EncodeToString b ++ s))) = true).
  unfold is_lower_hex, in_range in *. rewrite !text_ok_cons; [done|..];
    apply orb_true_iff in H1, H2; unfold RuneSelf; rewrite !andb_true_iff, !Z.leb_le in *; lia.
Qed.

Lemma worker_id_text_ok b : Forall (λ x, 0 ≤ x < 256) b → text_ok (worker_id b) = true.
Proof.
  intros Hb. unfold worker_id.
  assert (∀ l s, forallb (λ a, (0 <? code a) && (code a <? RuneSelf)) l = true → text_ok s = true →
            text_ok (foldr String s l) = true) as Hl.
  { intros l s. induction l as [|a l IH]; simpl; [done|]. intros [Ha Hall]%andb_true_iff Hs.
    boolean. rewrite text_ok_cons by lia. auto. }
  apply (Hl (to_bytes "worker-")); [vm_compute; reflexivity|].
  rewrite <-(string_app_nil_r (hex_EncodeToString b)). by apply text_ok_hex.
Qed.

Lemma NewWorker_fields cfg w :
  NewWorker true true true cfg = Ok w →
  w.(workerID) = cfg.(cfg_WorkerID) ∧ w.(workerID) ≠ ""%string
  ∧ w.(publishTimeout) = cfg.(cfg_PublishTimeout) ∧ w.(lockTTL) = cfg.(cfg_LockTTL)
  ∧ 0 < w.(lockTTL) ∧ w.(maxFailures) = cfg.(cfg_MaxFailures)
  ∧ newBackoffPolicy cfg.(cfg_BaseBackoff) cfg.(cfg_MaxBackoff) = Ok w.(backoff).
Proof. unfold NewWorker. intros Hw. crush_in Hw. boolean. by split_and!. Qed.

(** What an accepted configuration gives its worker. *)
Lemma loaded_worker lookup cfg id w :
  Config.loadWorkerWithLookup lookup = Ok cfg →
  NewWorker true true true (WorkerMain.worker_config id cfg.(Config.worker_Outbox)) = Ok w →
  w.(workerID) = id ∧ w.(workerID) ≠ ""%string ∧ policy_ok w.(backoff)
  ∧ 0 < cfg.(Config.worker_Database).(Config.QueryTimeout) ∧ 0 < w.(lockTTL)
  ∧ w.(publishTimeout) + 2 * cfg.(Config.worker_Database).(Config.QueryTimeout) < w.(lockTTL).
Proof.
  intros [[Hcommon _ Hout] [Hbudget _]]%Config.loadWorker_ok
    (Hid & Hne & Hp & Hl & Hpos & _ & Hpol)%NewWorker_fields.
  destruct (Config.outbox_ranges _ _ Hout) as (_ & _ & _ & _ & _ & Hmax).
  pose proof (Config.query_range _ _ (Config.cv_database _ _ Hcommon)) as Hq. simpl in *.
  apply newBackoffPolicy_ok in Hpol as [_ Hpol]; [|lia]. rewrite Hp, Hl. split_and!; try done; lia.
Qed.

(** ** The theorem *)

(** C20: the lease budget is enough: take a worker that cmd/worker builds from a
    configuration it accepts, in any execution with other workers, crashes and
    failing calls in which the calls of a handled event respect their timeouts.
    Whenever the worker makes the final transition of an event, its lease on the
    event is live and the event is still leased to it; so the transition, when the
    call does not fail, succeeds and is what changes the row: never a lost lease. *)
Theorem lease_budget_suffices maxF s lookup cfg b w t c k g until ch m' r op id
    (Hint : interval_exact) (HmaxF : 0 < maxF < 2 ^ 31)
    (Hload : Config.loadWorkerWithLookup lookup = Ok cfg)
    (Hbytes : Forall (λ x, 0 ≤ x < 256) b)
    (Hnew : NewWorker true true true
              (WorkerMain.worker_config (worker_id b) cfg.(Config.worker_Outbox)) = Ok w)
    (Httl : w.(lockTTL) ≤ 10 ^ 18)
    (Hs : timely_reachable maxF cfg.(Config.worker_Database).(Config.QueryTimeout) s)
    (Ht : s.(ws_workers) !! t = Some (WThread w (Do c k) g until))
    (Hc : final_call c = Some (op, id))
    (Hnow : ch.(wc_store).(ch_now) = s.(ws_clock)) (Hex : wexec ch s.(ws_table) c = (m', r)) :
  s.(ws_clock) < until
  ∧ ∃ o, s.(ws_table) !! id = Some o ∧ owns w.(workerID) o ∧ o.(o_locked_until) = Some until
    ∧ (ch.(wc_store).(ch_fault) = None →
       final_result c r = Ok tt ∧ m' = <[id := op_row op s.(ws_clock) o]> s.(ws_table)).
Proof.
  destruct (loaded_worker _ _ _ _ Hload Hnew) as (Hid & Hne & Hpol & Hq & Hpos & Hbudget).
  pose proof (timely_wreachable _ _ _ Hs) as Hreach.
  destruct (wreachable_inv _ _ (proj1 HmaxF) Hreach) as [Hok Hrow _ Hth _].
  destruct (Hth _ _ Ht) as ([Hal _] & _ & Hheld). simpl in Hal, Hheld.
  destruct (final_allowed _ _ _ _ _ Hpol Hal Hc) as (Hv & (e & p & Hg & Hp & ->) & Hrun).
  rewrite Hg in Hheld. destruct Hheld as (Hcan & _ & _ & _ & _ & Hlive).
  assert (s.(ws_clock) < until) as Hlt.
  { eapply in_time_live; [exact Hint|exact Hbudget|lia|lia|exact Hg|].
    by apply (timely_in_time _ _ _ _ _ Hs Ht). }
  split; [done|]. destruct (Hlive Hlt) as (o & Ho & [Hst Hby] & Hu). exists o.
  split_and!; [done|by split|done|]. intros Hfault. apply Hrun in Hex.
  destruct (wreachable_timed _ _ (proj1 HmaxF) Hreach _ _ Ho) as [Hcreated _].
  destruct (Hrow _ _ Ho) as (_ & _ & Hfail). rewrite Hst in Hfail.
  rewrite (run_op_owned op _ _ _ _ e.(ID) o) in Hex; rewrite ?Hnow in *; try done; try lia.
  - injection Hex as <- <-. done.
  - by apply uuid_in_canonical.
  - intros E. by rewrite E in Hcan.
  - rewrite Hid. by apply worker_id_text_ok.
Qed.

End timed.

(** ** A run within the budget

    The worker of the default configuration, with the event of WorkerSafety. *)
Definition demo_bytes : list Z := replicate 16 0x2a.
Definition demo_worker : Worker :=
  match NewWorker true true true
          (WorkerMain.worker_config (worker_id demo_bytes)
             Config.default_worker_config.(Config.worker_Outbox)) with
  | Ok w => w
  | Err _ => MkWorker "" 0 0 0 0 (BackoffPolicy 0 0)
  end.
Definition demo_query : Z :=
  Config.default_worker_config.(Config.worker_Database).(Config.QueryTimeout).

Definition in_time_b `{PgInterval} (q clock : Z) (th : wthread) : bool :=
  match th.(wt_prog), th.(wt_ghost).(g_held) with
  | Do _ _, Some (_, p) =>
      1000 * (clock - leased_at th + 1) <=? allowance q th.(wt_worker) p
  | _, _ => true
  end.

(** [wcalls] of a worker that is alone, with the check after every call. *)
Fixpoint timely_calls `{Postgres, PgInterval} (q : Z) (chs : list wchoice) (s : wsys) : option wsys :=
  match chs with
  | [] => Some s
  | ch :: chs =>
      s' ← wcall 0%nat s ch;
      if bool_decide (map_Forall (λ _ th, in_time_b q s'.(ws_clock) th = true) s'.(ws_workers))
      then timely_calls q chs s' else None
  end.

Lemma timely_calls_steps `{Postgres, PgInterval} maxF q chs s s' :
  timely_calls q chs s = Some s' → rtc (timely_step maxF q) s s'.
Proof.
  revert s. induction chs as [|ch chs IH]; intros s; simpl; [by intros [= <-]|].
  intros (s1 & H1%(wcall_step maxF) & H2)%bind_Some. case_bool_decide as Hall; [|done].
  eapply rtc_l; [|by apply IH]. split; [done|]. intros t th Ht. specialize (Hall t th Ht).
  unfold in_time, in_time_b in *. destruct (wt_prog th); try done.
  destruct (g_held (wt_ghost th)) as [[e p]|]; [by boolean|done].
Qed.

Lemma demo_interval_exact : @interval_exact demo_interval.
Proof. intros d Hd. unfold make_interval, demo_interval. pose proof (Z.div_mod d 1000). pose proof (Z.mod_pos_bound d 1000). lia. Qed.

Definition demo_started : wsys :=
  WSys 100 WorkerSafety.demo_event_table
    (<[0%nat := WThread demo_worker (Run 3 demo_worker true) start 0]> ∅) ({[demo_id1]} ∪ ∅) ∅ [].

Lemma demo_started_timely : @timely_reachable demo_postgres demo_interval 5 demo_query demo_started.
Proof.
  eapply rtc_l; [split; [apply (@wstep_tick demo_postgres demo_interval 5 init_wsys 100); simpl; lia|]|].
  { intros t th Ht. simpl in Ht. simplify_map_eq. }
  eapply rtc_l; [split; [apply (@wstep_insert demo_postgres demo_interval 5 WorkerSafety.demo_ticked
    demo_id1 "reward_claim" demo_id1 "RewardClaimed" "{}" 100);
    [simpl; lia|vm_compute; reflexivity..]|]|].
  { intros t th Ht. simpl in Ht. simplify_map_eq. }
  apply rtc_once. split.
  - apply (@wstep_start demo_postgres demo_interval 5 WorkerSafety.demo_inserted 0%nat
      (WorkerMain.worker_config (worker_id demo_bytes)
         Config.default_worker_config.(Config.worker_Outbox)) demo_worker 3 true);
      [reflexivity|vm_compute; reflexivity..|].
    intros t' th Ht'. simpl in Ht'. simplify_map_eq.
  - intros t th Ht. simpl in Ht. apply lookup_insert_Some in Ht as [[<- <-]|[_ Ht]]; [|simplify_map_eq].
    exact I.
Qed.

(** The worker is about to mark the event published. *)
Definition demo_marking : option wsys :=
  @timely_calls demo_postgres demo_interval demo_query
    (replicate 12 (WorkerSafety.demo_wchoice TimerFired)) demo_started.

Definition next_final (s : wsys) : option (final_op * string) :=
  match s.(ws_workers) !! 0%nat with
  | Some th => match th.(wt_prog) with Do c _ => final_call c | _ => None end
  | None => None
  end.

Lemma next_final_thread s x :
  next_final s = Some x →
  ∃ w c k g until, s.(ws_workers) !! 0%nat = Some (WThread w (Do c k) g until)
                   ∧ final_call c = Some x.
Proof.
  unfold next_final. destruct (ws_workers s !! 0%nat) as [[w [| |c k] g until]|]; try done.
  simpl. intros Hc. by exists w, c, k, g, until.
Qed.

Definition demo_view (s : wsys) : option (option (final_op * string) * Z * option Worker) :=
  Some (next_final s, s.(ws_clock), wt_worker <$> s.(ws_workers) !! 0%nat).

Lemma lease_budget_suffices_witness :
  match demo_marking with
  | Some s => ∃ until o, s.(ws_clock) < until ∧ s.(ws_table) !! demo_id1 = Some o
      ∧ owns demo_worker.(workerID) o
  | None => False
  end.
Proof.
  assert ((demo_marking ≫= demo_view) = Some (Some (OpPublished, demo_id1), 100, Some demo_worker))
    as E by (vm_compute; reflexivity).
  destruct demo_marking as [s|] eqn:Hs; [|discriminate E]. simpl in E.
  injection E as Hf Hclock Hw. apply next_final_thread in Hf as (w & c & k & g & until & Ht & Hc).
  rewrite Ht in Hw. simpl in Hw. injection Hw as ->.
  destruct (@wexec demo_postgres demo_interval (WorkerSafety.demo_wchoice TimerFired)
              s.(ws_table) c) as [m' r] eqn:Hex.
  destruct (@lease_budget_suffices demo_postgres demo_interval 5 s
              (Config.lookup_in (Config.worker_env Config.default_worker_config))
              Config.default_worker_config demo_bytes demo_worker 0%nat c k g until
              (WorkerSafety.demo_wchoice TimerFired) m' r OpPublished demo_id1)
    as [Hlive (o & Ho & Hown & _)].
  - exact demo_interval_exact.
  - lia.
  - vm_compute. reflexivity.
  - apply Forall_replicate. lia.
  - vm_compute. reflexivity.
  - vm_compute. discriminate.
  - eapply (transitivity (R := rtc _)); [exact demo_started_timely|].
    exact (timely_calls_steps 5 _ _ _ _ Hs).
  - exact Ht.
  - exact Hc.
  - rewrite Hclock. reflexivity.
  - exact Hex.
  - exists until, o. split; [exact Hlive|]. split; [exact Ho|exact Hown].
Defined.

End WorkerTime.
