(* ===== verification/WorkerProgress.v ===== *)
(** * Progress of an outbox worker

    What a worker does when nothing fails: from any state other workers, crashes
    and failures may have left the outbox in, every event that is due is published
    within a number of turns bounded by the backlog, whatever the publisher says of
    the events before it. *)
From S2P Require Import Prelude.
From S2P Require Import GoErrors.
From S2P Require Import Prog.
From S2P Require Import GoStrings.
From S2P Require Import Schema.
From S2P Require Import Demo.
From S2P Require Import Outbox.
From S2P Require Import OutboxFacts.
From S2P Require Import Backoff.
From S2P Require Import Worker.
From S2P Require Import WorkerLogic.
From S2P Require Import WorkerSys.
From S2P Require Import WorkerSafety.
From S2P Require Import WorkerTime.
Local Open Scope Z_scope.

Module WorkerProgress.
Import Schema Demo Outbox OutboxFacts Backoff Worker WorkerLogic WorkerSys WorkerTime.

(** ** Running against the table

    [env i] decides the [i]-th call.  A program that is out of fuel is still
    running: the result is then [None]. *)
Section exec.
Context `{Postgres, PgInterval}.
Context (env : nat → wchoice).

Fixpoint exec {A} (i : nat) (m : table) (p : wprog A) : nat * table * trace * option A :=
  match p with
  | Ret a => (i, m, [], Some a)
  | OutOfFuel => (i, m, [], None)
  | Do c k =>
      let '(m', r) := wexec (env i) m c in
      let '(j, m'', tr, a) := exec (S i) m' (k r) in
      (j, m'', existT c r :: tr, a)
  end.

Lemma exec_pbind {A B} i m (p : wprog A) (k : A → wprog B) :
  exec i m (pbind p k) =
  let '(j, m', tr, a) := exec i m p in
  match a with
  | Some a => let '(j', m'', tr', b) := exec j m' (k a) in (j', m'', tr ++ tr', b)
  | None => (j, m', tr, None)
  end.
Proof.
  revert i m. induction p as [a| |c f IH]; intros i m; simpl.
  - by destruct (exec i m (k a)) as [[[? ?] ?] ?].
  - done.
  - destruct (wexec (env i) m c) as [m1 r]. rewrite IH.
    destruct (exec (S i) m1 (f r)) as [[[j m2] tr] [a|]]; [|done].
    by destruct (exec j m2 (k a)) as [[[? ?] ?] ?].
Qed.

(** Nothing fails, the worker is not stopped, and the clock does not run
    backwards; what the publisher answers is left open. *)
Record healthy (clock : Z) : Prop := {
  h_now i : clock ≤ (env i).(wc_store).(ch_now);
  h_mono i j : (i ≤ j)%nat → (env i).(wc_store).(ch_now) ≤ (env j).(wc_store).(ch_now);
  h_locked i : (env i).(wc_store).(ch_locked) = ∅;
  h_fault i : (env i).(wc_store).(ch_fault) = None;
  h_ctx i : (env i).(wc_ctx) = CtxLive;
  h_wakeup i : (env i).(wc_wakeup) = TimerFired
}.

End exec.

(** ** The backlog *)

(** Events that are leased, or that were available by [T]. *)
Definition in_backlog (T : Z) (o : outbox_row) : bool :=
  match o.(o_status) with
  | pending => o.(o_available_at) <=? T
  | processing => true
  | _ => false
  end.
Definition backlog (T : Z) (m : table) : table := filter (λ p, in_backlog T p.2 = true) m.

(** A handled event has been published, or its failure was recorded. *)
Definition advanced (o o' : outbox_row) : Prop :=
  o'.(o_status) = published ∨ o.(o_failed_attempts) < o'.(o_failed_attempts).

Lemma backlog_insert T m id o o' :
  m !! id = Some o → in_backlog T o = true → in_backlog T o' = false →
  size (backlog T m) = S (size (backlog T (<[id := o']> m))).
Proof.
  intros Hin Hb Hb'. unfold backlog. rewrite map_filter_insert_False by (simpl; by rewrite Hb').
  rewrite <-(insert_delete_id m id o Hin) at 1.
  rewrite map_filter_insert_True by done. rewrite map_size_insert_None; [done|].
  apply map_lookup_filter_None_2. left. by rewrite lookup_delete_eq.
Qed.

(** ** Calls that do not fail *)

(** A worker whose calls the database accepts. *)
Record able (maxF : Z) (w : Worker) : Prop := {
  ab_id : w.(workerID) ≠ ""%string;
  ab_text : text_ok w.(workerID) = true;
  ab_length : length_between 1 128 w.(workerID) = true;
  ab_ttl : 0 < w.(lockTTL);
  ab_max : w.(maxFailures) = maxF;
  ab_policy : policy_ok w.(backoff);
  ab_delay : 1000 ≤ w.(backoff).(base) ∧ w.(backoff).(max) ≤ 10 ^ 18
}.

(** A table as the reachable states of the worker system have it. *)
Record table_fit (maxF clock : Z) (m : table) : Prop := {
  tf_ok : table_ok m;
  tf_timed : rows_timed clock m;
  tf_uuid id o : m !! id = Some o → canonical_uuid id = true;
  tf_failed id o : m !! id = Some o → o.(o_status) = pending ∨ o.(o_status) = processing →
    o.(o_failed_attempts) < maxF
}.

Lemma reachable_fit `{Postgres, PgInterval} maxF s :
  0 < maxF → wreachable maxF s → table_fit maxF s.(ws_clock) s.(ws_table).
Proof.
  intros HmaxF Hs. pose proof (wreachable_inv _ _ HmaxF Hs) as [Hok Hrow _ _ _]. split.
  - done.
  - by eapply wreachable_timed.
  - intros id o Ho. by destruct (Hrow _ _ Ho).
  - intros id o Ho Hst. destruct (Hrow _ _ Ho) as (_ & _ & Hr). by destruct Hst as [E|E]; rewrite E in Hr.
Qed.

Lemma fit_mono maxF clock clock' m : clock ≤ clock' → table_fit maxF clock m → table_fit maxF clock' m.
Proof. intros Hle [Hok Ht Hu Hf]. split; try done. by eapply rows_timed_mono. Qed.

Lemma fit_insert maxF clock m id o o' :
  table_fit maxF clock m → m !! id = Some o → o'.(o_id) = id → outbox_check o' = true →
  row_timed clock o' →
  (o'.(o_status) = pending ∨ o'.(o_status) = processing → o'.(o_failed_attempts) < maxF) →
  table_fit maxF clock (<[id := o']> m).
Proof.
  intros [Hok Ht Hu Hf] Hin Hid Hc Hrow Hlt. split.
  - rewrite <-Hid. by apply table_ok_insert.
  - by apply rows_timed_insert.
  - intros id' o1 [[<- _]|[_ H]]%lookup_insert_Some; eauto.
  - intros id' o1 [[_ <-]|[_ H]]%lookup_insert_Some; eauto.
Qed.

Section calls.
Context `{Postgres, PgInterval}.

(** The claim takes the first due event. *)
Lemma ClaimNext_claims maxF ch m w :
  able maxF w → table_fit maxF ch.(ch_now) m → maxF < 2 ^ 31 → ch.(ch_fault) = None →
  ClaimNext ch m w.(workerID) w.(lockTTL)
  = match due_event ch.(ch_now) ch.(ch_locked) m with
    | Some o => (<[o.(o_id) := leased o w.(workerID) w.(lockTTL) ch.(ch_now)]> m,
                 Ok (Some (event_of o)))
    | None => (m, Ok None)
    end.
Proof.
  intros [Hid Htext Hlen Httl Hmax _ _] Hfit HmaxF Hfault. unfold ClaimNext.
  rewrite bool_decide_false, (proj2 (Z.leb_gt _ _)) by done.
  unfold autocommit, sql_claim. rewrite Htext, Hfault. cbn [negb].
  pose proof (due_event_spec ch.(ch_now) ch.(ch_locked) m (tf_ok _ _ _ Hfit)) as Hdue.
  destruct (due_event _ _ m) as [o|]; [|done]. destruct Hdue as (Hin & Hd & _).
  destruct (tf_timed _ _ _ Hfit _ _ Hin) as [Hcreated _], (tf_ok _ _ _ Hfit _ _ Hin) as [_ Hc].
  unfold update_row. rewrite leased_check by done.
  apply outbox_check_true in Hc as (_ & _ & _ & Hr & _).
  by rewrite (proj2 (Z.ltb_lt _ _)) by (simpl; lia).
Qed.

(** ** One turn of the polling loop *)

Definition turn (w : Worker) : wprog (option (result goerr unit)) :=
  eff! iteration := runOnce w in
  handle_iteration w iteration.

Context (env : nat → wchoice) (maxF clock : Z) (w : Worker).
Context (Hable : able maxF w) (Henv : healthy env clock) (HmaxF : 0 < maxF < 2 ^ 31).
Local Abbreviation now i := (env i).(wc_store).(ch_now).

(** What a worker may decide of an event with so many failures; [accepted]: the
    publisher did. *)
Definition decided (accepted : bool) (failed : Z) (op : final_op) : Prop :=
  match op with
  | OpPublished => accepted = true
  | OpRetry delay _ => accepted = false ∧ failed + 1 < maxF ∧ 1000 ≤ delay ≤ 10 ^ 18
  | OpDeadLetter _ => accepted = false ∧ failed + 1 = maxF
  end.

(** The event [o] was published and its row written at the times [t] and [t']. *)
Definition handled (m m' : table) (tr : trace) (o : outbox_row) (t t' : Z) : Prop :=
  ∃ op k, op_valid op
    ∧ existT (P := reply) (CPublish (event_of o) w.(publishTimeout)) (env k).(wc_publish) ∈ tr
    ∧ decided (bool_decide ((env k).(wc_publish).(pr_err) = None)) o.(o_failed_attempts) op
    ∧ m' = <[o.(o_id) := op_row op t' (leased o w.(workerID) w.(lockTTL) t)]> m.

Definition runs_to {A} (i : nat) (m : table) (p : wprog A) (j : nat) (m' : table) (tr : trace)
    (a : A) : Prop :=
  exec env i m p = (j, m', tr, Some a).

Lemma runs_ret {A} i m (a : A) : runs_to i m (Ret a) i m [] a.
Proof. done. Qed.

Lemma runs_call {A} i m c (k : reply c → wprog A) m1 r j m' tr a :
  wexec (env i) m c = (m1, r) → runs_to (S i) m1 (k r) j m' tr a →
  runs_to i m (pbind (perform c) k) j m' (existT c r :: tr) a.
Proof. unfold runs_to. simpl. intros -> Hk. by rewrite Hk. Qed.

Lemma runs_bind {A B} i m (p : wprog A) (k : A → wprog B) j1 m1 tr1 a j m' tr b :
  runs_to i m p j1 m1 tr1 a → runs_to j1 m1 (k a) j m' tr b →
  runs_to i m (pbind p k) j m' (tr1 ++ tr) b.
Proof. unfold runs_to. rewrite exec_pbind. intros -> Hk. by rewrite Hk. Qed.

(** The failures of a due event, on 64 bits. *)
Lemma due_failed m t o :
  table_fit maxF t m → due_event t ∅ m = Some o →
  m !! o.(o_id) = Some o ∧ o.(o_failed_attempts) < maxF
  ∧ int64 (o.(o_failed_attempts) + 1) = o.(o_failed_attempts) + 1.
Proof.
  intros Hfit Hdue. pose proof (due_event_spec t ∅ m (tf_ok _ _ _ Hfit)) as Hspec.
  rewrite Hdue in Hspec. destruct Hspec as (Hin & Hd & _).
  destruct (tf_ok _ _ _ Hfit _ _ Hin) as [_ Hc].
  apply outbox_check_true in Hc as (_ & _ & _ & Hrange & _).
  assert (o.(o_failed_attempts) < maxF) as Hlt.
  { apply (tf_failed _ _ _ Hfit _ _ Hin). destruct (due_status _ _ Hd) as [?|[? _]]; auto. }
  split_and!; [done|done|]. apply int64_id. unfold is_int64, int64_min, int64_max. lia.
Qed.

Lemma exec_final i m t o op :
  table_fit maxF t m → due_event t ∅ m = Some o → t ≤ now i → op_valid op →
  run_op op (env i).(wc_store) (<[o.(o_id) := leased o w.(workerID) w.(lockTTL) t]> m)
    w.(workerID) o.(o_id)
  = (<[o.(o_id) := op_row op (now i) (leased o w.(workerID) w.(lockTTL) t)]> m, Ok tt).
Proof.
  intros Hfit Hdue Ht Hv. pose proof (due_event_spec t ∅ m (tf_ok _ _ _ Hfit)) as Hspec.
  rewrite Hdue in Hspec. destruct Hspec as (Hin & Hd & _).
  destruct (due_failed _ _ _ Hfit Hdue) as (_ & Hlt & _).
  pose proof (tf_uuid _ _ _ Hfit _ _ Hin) as Hcan.
  destruct (tf_ok _ _ _ Hfit _ _ Hin) as [_ Hc], (tf_timed _ _ _ Hfit _ _ Hin) as [Hcreated _].
  destruct Hable. rewrite (run_op_owned op _ _ _ _ o.(o_id) (leased o w.(workerID) w.(lockTTL) t)).
  - by rewrite insert_insert_eq.
  - apply (table_ok_insert m (leased o w.(workerID) w.(lockTTL) t)); [apply Hfit|].
    by apply leased_check.
  - by rewrite lookup_insert_eq.
  - done.
  - done.
  - by apply uuid_in_canonical.
  - intros E. by rewrite E in Hcan.
  - done.
  - done.
  - done.
  - apply Henv.
  - simpl. lia.
  - simpl. lia.
Qed.

Lemma exec_processEvent i m t o :
  table_fit maxF t m → due_event t ∅ m = Some o → t ≤ now i →
  ∃ j m' tr i', runs_to i (<[o.(o_id) := leased o w.(workerID) w.(lockTTL) t]> m)
                  (processEvent w (event_of o)) j m' tr (Ok tt)
    ∧ (i ≤ i' ≤ j)%nat ∧ handled m m' tr o t (now i').
Proof.
  intros Hfit Hdue Ht. destruct (due_failed _ _ _ Hfit Hdue) as (_ & Hlt & Hi).
  assert (∀ j, (i ≤ j)%nat → t ≤ now j) as Hlater.
  { intros j Hj. pose proof (h_mono _ _ Henv _ _ Hj). lia. }
  destruct (pr_err (wc_publish (env (S i)))) as [err|] eqn:Herr.
  - set (outcome := classifyPublishOutcome (pr_ctx (wc_publish (env (S i)))) (Some err)).
    assert (failure_outcome outcome) as Hout by apply classify_failure.
    destruct (Z.leb_spec w.(maxFailures) (o.(o_failed_attempts) + 1)) as [Hdead|Hretry].
    + eexists _, _, _, (S (S (S (S i)))). split; [|split].
      * unfold processEvent. do 3 (eapply runs_call; [reflexivity|]). simpl. rewrite Herr.
        eapply runs_call; [reflexivity|]. simpl. rewrite (h_ctx _ _ Henv). simpl.
        rewrite Hi, (proj2 (Z.leb_le _ _) Hdead).
        eapply runs_call; [by apply (exec_final _ _ _ _ (OpDeadLetter outcome) Hfit Hdue); [apply Hlater; lia|]|].
        do 2 (eapply runs_call; [reflexivity|]). apply runs_ret.
      * lia.
      * exists (OpDeadLetter outcome), (S i). split; [done|]. split; [right; by left|].
        split; [|done]. simpl. rewrite Herr. destruct Hable. split; [done|lia].
    + set (delay := retryDelay w.(backoff) (o.(o_failed_attempts) + 1)).
      pose proof (retryDelay_range _ (o.(o_failed_attempts) + 1) (ab_policy _ _ Hable)) as Hdelay.
      pose proof (ab_delay _ _ Hable) as Hbounds.
      assert (op_valid (OpRetry delay outcome)) as Hv by (split; [unfold delay; lia|done]).
      eexists _, _, _, (S (S (S (S i)))). split; [|split].
      * unfold processEvent. do 3 (eapply runs_call; [reflexivity|]). simpl. rewrite Herr.
        eapply runs_call; [reflexivity|]. simpl. rewrite (h_ctx _ _ Henv). simpl.
        rewrite Hi, (proj2 (Z.leb_gt _ _) Hretry).
        eapply runs_call; [by apply (exec_final _ _ _ _ (OpRetry delay outcome) Hfit Hdue); [apply Hlater; lia|]|].
        do 2 (eapply runs_call; [reflexivity|]). apply runs_ret.
      * lia.
      * exists (OpRetry delay outcome), (S i). split; [done|]. split; [right; by left|].
        split; [|done]. simpl. rewrite Herr. destruct Hable. split_and!; [done|lia|..]; unfold delay; lia.
  - eexists _, _, _, (S (S (S i))). split; [|split].
    + unfold processEvent. eapply runs_call; [reflexivity|]. eapply runs_call; [reflexivity|].
      eapply runs_call; [reflexivity|]. simpl. rewrite Herr.
      eapply runs_call; [by apply (exec_final _ _ _ _ OpPublished Hfit Hdue); [apply Hlater; lia|]|].
      eapply runs_call; [reflexivity|]. eapply runs_call; [reflexivity|]. apply runs_ret.
    + lia.
    + exists OpPublished, (S i). split; [done|]. split; [right; by left|].
      split; [|done]. simpl. by rewrite Herr.
Qed.

(** A turn handles the first due event, or finds none. *)
Lemma exec_turn i m :
  table_fit maxF (now i) m →
  ∃ j m' tr, runs_to i m (turn w) j m' tr None ∧ (i ≤ j)%nat
    ∧ match due_event (now i) ∅ m with
      | None => m' = m
      | Some o => ∃ i', (i ≤ i' ≤ j)%nat ∧ handled m m' tr o (now i) (now i')
      end.
Proof.
  intros Hfit. pose proof (ClaimNext_claims maxF (env i).(wc_store) m w Hable Hfit
    (proj2 HmaxF) (h_fault _ _ Henv i)) as Hclaim. rewrite (h_locked _ _ Henv) in Hclaim.
  unfold turn, runOnce. destruct (due_event (now i) ∅ m) as [o|] eqn:Hdue.
  - pose proof (h_mono _ _ Henv i (S (S (S i))) ltac:(lia)) as Hle.
    destruct (exec_processEvent (S (S (S i))) m (now i) o Hfit Hdue Hle)
      as (j & m' & tr & i' & Hrun & Hi & op & r & Hv & Hin & Hdec & Hm').
    eexists (S j), m', _. split_and!; [|lia|].
    + eapply runs_bind.
      * eapply runs_call; [exact Hclaim|]. cbv beta iota. do 2 (eapply runs_call; [reflexivity|]).
        eapply runs_bind; [exact Hrun|]. apply runs_ret.
      * eapply runs_call; [reflexivity|]. apply runs_ret.
    + exists i'. split; [lia|]. exists op, r. split_and!; [done| |done|done].
      rewrite app_nil_r. rewrite elem_of_app. left. do 3 right. exact Hin.
  - eexists (S (S (S i))), m, _. split_and!; [|lia|done]. eapply runs_bind.
    + eapply runs_call; [exact Hclaim|]. cbv beta iota. eapply runs_call; [reflexivity|]. apply runs_ret.
    + eapply runs_call; [reflexivity|]. apply runs_ret.
Qed.

(** ** Turns and the backlog *)

Context (Hint : interval_exact).

Lemma decided_backlog b failed op o t T :
  decided b failed op → T ≤ t → in_backlog T (op_row op t o) = false.
Proof.
  intros Hd HT. destruct op as [|delay out|out]; simpl in *; [done| |done].
  destruct Hd as (_ & _ & Hdelay). pose proof (Hint delay ltac:(lia)).
  unfold in_backlog. simpl. apply Z.leb_gt. lia.
Qed.

Lemma decided_advanced b op o t t' :
  decided b o.(o_failed_attempts) op →
  advanced o (op_row op t' (leased o w.(workerID) w.(lockTTL) t)).
Proof. unfold advanced. destruct op; simpl; [by left|right; lia..]. Qed.

(** The table after an event was handled. *)
Lemma handled_fit m m' tr o t t' :
  table_fit maxF t m → due_event t ∅ m = Some o → t ≤ t' → handled m m' tr o t t' →
  table_fit maxF t' m'.
Proof.
  intros Hfit Hdue Ht (op & r & Hv & _ & Hd & ->).
  pose proof (due_event_spec t ∅ m (tf_ok _ _ _ Hfit)) as Hspec.
  rewrite Hdue in Hspec. destruct Hspec as (Hin & Hduo & _).
  destruct (due_failed _ _ _ Hfit Hdue) as (_ & Hlt & _).
  destruct (tf_ok _ _ _ Hfit _ _ Hin) as [_ Hc], (tf_timed _ _ _ Hfit _ _ Hin) as [Hcr _].
  eapply fit_insert; [by eapply fit_mono|exact Hin|by rewrite op_row_id| | |].
  - apply op_row_check; [apply leased_check; by try apply Hable|done|simpl; lia|simpl; lia|done].
  - apply op_row_timed. split; [simpl; lia|]. intros _. simpl.
    pose proof (due_available _ _ _ (tf_timed _ _ _ Hfit) Hin Hduo). lia.
  - destruct op; simpl in *; [lia..|]. by intros [|].
Qed.

(** ** One event among the others *)

Context (id : string) (o0 : outbox_row).
Context (Hdue0 : due clock o0 = true) (Havail : o0.(o_available_at) ≤ clock).

(** The publisher never refuses. *)
Definition accepting : Prop := ∀ i, (env i).(wc_publish).(pr_err) = None.

Definition settled (m : table) : Prop :=
  ∃ o, m !! id = Some o ∧ advanced o0 o ∧ (accepting → o.(o_status) = published).

Definition publication (tr : trace) : Prop :=
  ∃ r, existT (CPublish (event_of o0) w.(publishTimeout)) r ∈ tr.

Lemma due_mono t t' o : t ≤ t' → due t o = true → due t' o = true.
Proof.
  unfold due. intros Ht. destruct o.(o_status); try done; [|destruct o.(o_locked_until); [|done]];
    rewrite !Z.leb_le; lia.
Qed.

Lemma waiting_backlog m : m !! id = Some o0 → (0 < size (backlog clock m))%nat.
Proof.
  intros Hin. apply Nat.neq_0_lt_0, (map_size_ne_0_lookup_2 _ id). exists o0.
  apply map_lookup_filter_Some. split; [done|]. simpl. unfold in_backlog.
  destruct (due_status _ _ Hdue0) as [E|[E _]]; rewrite E; [by apply Z.leb_le|done].
Qed.

(** While the event waits, every turn handles it or an event of the backlog. *)
Lemma turn_waiting m m' tr t t' :
  table_fit maxF t m → clock ≤ t → t ≤ t' → m !! id = Some o0 →
  match due_event t ∅ m with
  | None => m' = m
  | Some o => handled m m' tr o t t'
  end →
  size (backlog clock m) = S (size (backlog clock m'))
  ∧ (m' !! id = Some o0 ∨ publication tr ∧ settled m').
Proof.
  intros Hfit Ht Ht' Hin Heff. pose proof (due_event_spec t ∅ m (tf_ok _ _ _ Hfit)) as Hspec.
  assert (due t o0 = true) as Hd0 by (by eapply due_mono).
  destruct (due_event t ∅ m) as [o|]; [|by destruct (not_elem_of_empty (C := gset string) id); eapply Hspec].
  destruct Hspec as (Ho & Hd & _ & Hleast), Heff as (op & k & Hv & Hpub & Hdec & ->). split.
  - apply (backlog_insert _ _ _ o); [done| |by eapply decided_backlog; [|lia]].
    unfold in_backlog. destruct (due_status _ _ Hd) as [E|[E _]]; rewrite E; [|done].
    destruct (Hleast id o0 Hin Hd0 (not_elem_of_empty _)) as [->|Hb]; [by apply Z.leb_le|].
    unfold before in Hb. rewrite orb_true_iff, andb_true_iff, Z.ltb_lt, Z.eqb_eq in Hb.
    apply Z.leb_le. lia.
  - destruct (decide (o.(o_id) = id)) as [Hid|Hne]; [|left; by rewrite lookup_insert_ne].
    right. assert (o = o0) as -> by congruence. split; [by exists (env k).(wc_publish)|].
    unfold settled. rewrite Hid, lookup_insert_eq. eexists. split; [done|].
    split; [by eapply decided_advanced|]. intros Hacc. rewrite bool_decide_true in Hdec by apply Hacc.
    destruct op; simpl in Hdec; [done|by destruct Hdec..].
Qed.

(** Once settled, it stays so. *)
Lemma turn_settled m m' tr t t' :
  table_fit maxF t m → settled m →
  match due_event t ∅ m with
  | None => m' = m
  | Some o => handled m m' tr o t t'
  end →
  settled m'.
Proof.
  intros Hfit (o1 & Hin & Hadv & Hacc) Heff.
  pose proof (due_event_spec t ∅ m (tf_ok _ _ _ Hfit)) as Hspec.
  destruct (due_event t ∅ m) as [o|]; [|subst m'; by exists o1].
  destruct Hspec as (Ho & Hd & _), Heff as (op & k & Hv & Hpub & Hdec & ->).
  destruct (decide (o.(o_id) = id)) as [Hid|Hne].
  - assert (o1 = o) as -> by congruence. unfold settled. rewrite Hid, lookup_insert_eq.
    eexists. split; [done|].
    assert (o.(o_status) ≠ published) as Hst by (destruct (due_status _ _ Hd) as [E|[E _]]; by rewrite E).
    destruct Hadv as [|Hadv]; [done|]. split; [|by intros Ha; destruct (Hst (Hacc Ha))].
    destruct (decided_advanced _ _ _ t t' Hdec) as [?|?]; [by left|right; lia].
  - exists o1. by rewrite lookup_insert_ne.
Qed.

(** ** The loop *)

Lemma exec_assoc {A B C} i m (p : wprog A) (q : A → wprog B) (k : B → wprog C) :
  exec env i m (pbind p (λ a, pbind (q a) k)) = exec env i m (pbind (pbind p q) k).
Proof.
  revert i m. induction p as [a| |c f IH]; intros i m; [done..|]. simpl.
  destruct (wexec (env i) m c). by rewrite IH.
Qed.

(** As many turns as the backlog has events settle the event. *)
Lemma exec_run_loop n i m :
  table_fit maxF (now i) m → clock ≤ now i →
  ∃ j m' tr, exec env i m (run_loop n w) = (j, m', tr, None)
    ∧ (settled m → settled m')
    ∧ (m !! id = Some o0 → (size (backlog clock m) ≤ n)%nat → publication tr ∧ settled m').
Proof.
  revert i m. induction n as [|n IH]; intros i m Hfit Hclock.
  { exists i, m, []. split_and!; [done|done|]. intros Hin. apply waiting_backlog in Hin. lia. }
  pose proof (h_mono _ _ Henv i (S i) ltac:(lia)) as Hnext.
  assert (table_fit maxF (now (S i)) m) as Hfit' by (by eapply fit_mono).
  destruct (exec_turn (S i) m Hfit') as (j & m1 & tr1 & Hrun & Hij & Heff).
  assert (table_fit maxF (now j) m1 ∧ now (S i) ≤ now j) as [Hfit1 Hj].
  { pose proof (h_mono _ _ Henv (S i) j Hij) as Hj. split; [|done].
    destruct (due_event (now (S i)) ∅ m) as [o|] eqn:Hd; [|subst m1; by eapply fit_mono].
    destruct Heff as (i' & [Hi1 Hi2] & Hh). eapply fit_mono; [by apply (h_mono _ _ Henv i' j)|].
    eapply handled_fit; [exact Hfit'|exact Hd|by apply (h_mono _ _ Henv)|exact Hh]. }
  destruct (IH j m1 Hfit1 ltac:(lia)) as (j' & m' & tr & Hexec & Hset & Hwait).
  assert (∃ t', now (S i) ≤ t' ∧ match due_event (now (S i)) ∅ m with
    | None => m1 = m | Some o => handled m m1 tr1 o (now (S i)) t' end) as (t' & Ht' & Heff').
  { destruct (due_event _ _ m) as [o|]; [|by exists (now (S i))].
    destruct Heff as (i' & [Hi1 _] & Hh). exists (now i'). split; [|done]. by apply (h_mono _ _ Henv). }
  exists j', m', (existT CSelect TimerFired :: tr1 ++ tr). split_and!.
  - cbn [run_loop pbind perform exec]. simpl wexec. rewrite (h_wakeup _ _ Henv).
    rewrite exec_assoc, exec_pbind. unfold runs_to in Hrun.
    match goal with |- context [exec env (S i) m ?p] => change p with (turn w) end.
    by rewrite Hrun, Hexec.
  - intros Hs. apply Hset. eapply turn_settled; [exact Hfit'|exact Hs|exact Heff'].
  - intros Hin Hsize.
    destruct (turn_waiting _ _ _ _ _ Hfit' ltac:(lia) Ht' Hin Heff') as [Hsz [Hin1|[Hpub Hs]]].
    + destruct (Hwait Hin1 ltac:(lia)) as [(r & Hpub) Hs]. split; [|done].
      exists r. right. apply elem_of_app. by right.
    + split; [|by apply Hset]. destruct Hpub as (r & Hpub). exists r. right. apply elem_of_app. by left.
Qed.

(** [Run] reaches its loop. *)
Lemma exec_Run n m b :
  table_fit maxF clock m →
  ∃ j m' tr, exec env 0 m (Run n w b) = (j, m', tr, None)
    ∧ (m !! id = Some o0 → (size (backlog clock m) ≤ n)%nat → publication tr ∧ settled m').
Proof.
  intros Hfit. set (i := if b then 5%nat else 4%nat).
  pose proof (h_now _ _ Henv i) as Hi.
  destruct (exec_run_loop n i m (fit_mono _ _ _ _ Hi Hfit) Hi) as (j & m' & tr & Hexec & _ & Hwait).
  assert (∃ pre, exec env 0 m (Run n w b) = (j, m', pre ++ tr, None)) as [pre Hrun].
  { unfold Run. cbn [pbind perform log exec wexec]. rewrite (h_ctx _ _ Henv).
    cbn [ctx_Err pbind perform log exec wexec]. rewrite (h_ctx _ _ Henv). cbn [ctx_Err].
    destruct b; unfold i in Hexec; cbn [pbind perform exec wexec]; rewrite !exec_pbind;
      match goal with |- context [exec env ?k m ?p] => change p with (run_loop n w) end;
      rewrite Hexec; first [by eexists [_; _; _; _; _] | by eexists [_; _; _; _]]. }
  exists j, m', (pre ++ tr). split; [done|]. intros Hin Hsize.
  destruct (Hwait Hin Hsize) as [(r & Hpub) Hs]. split; [|done].
  exists r. apply elem_of_app. by right.
Qed.

End calls.

(** ** The theorem *)

Lemma NewWorker_able cfg w maxF :
  NewWorker true true true cfg = Ok w → w.(maxFailures) = maxF → text_ok w.(workerID) = true →
  1000 ≤ cfg.(cfg_BaseBackoff) → cfg.(cfg_MaxBackoff) ≤ 10 ^ 18 → able maxF w.
Proof.
  intros Hnew Hmax Htext Hbase Hmaxb.
  destruct (NewWorker_fields _ _ Hnew) as (Hid & Hne & _ & _ & Httl & _ & Hpol).
  apply newBackoffPolicy_ok in Hpol as [Hp Hpol]; [|unfold int64_max; lia].
  split; try done.
  - unfold NewWorker, maxWorkerIDLength in Hnew. crush_in Hnew. boolean.
    unfold length_between. pose proof (WorkerSafety.rune_count_non_empty cfg.(cfg_WorkerID)).
    apply andb_true_iff. rewrite !Z.leb_le. naive_solver.
  - by rewrite Hp.
Qed.

(** C21: progress: take any state the worker system can be in, after any crashes,
    failures and expired leases, and a worker running from there with dependencies
    that answer.  Within as many turns of its loop as there are events leased or
    waiting, every event that is due has been published and its row written:
    published if the publisher accepted it, with one more failure if not, and all
    of them published if the publisher accepts what it is given.  Refused events do
    not hold up the others, and the worker keeps running. *)
Theorem due_events_handled `{Postgres, PgInterval} maxF s cfg w env fuel onStarted id o
    (Hint : interval_exact) (HmaxF : 0 < maxF < 2 ^ 31) (Hs : wreachable maxF s)
    (Hnew : NewWorker true true true cfg = Ok w) (Hmax : w.(maxFailures) = maxF)
    (Htext : text_ok w.(workerID) = true)
    (Hbase : 1000 ≤ cfg.(cfg_BaseBackoff)) (Hmaxb : cfg.(cfg_MaxBackoff) ≤ 10 ^ 18)
    (Henv : healthy env s.(ws_clock))
    (Ho : s.(ws_table) !! id = Some o) (Hd : due s.(ws_clock) o = true)
    (Hfuel : (size (backlog s.(ws_clock) s.(ws_table)) ≤ fuel)%nat) :
  let '(_, m, tr, result) := exec env 0 s.(ws_table) (Run fuel w onStarted) in
  result = None
  ∧ (∃ r, existT (CPublish (event_of o) w.(publishTimeout)) r ∈ tr)
  ∧ ∃ o', m !! id = Some o'
      ∧ (o'.(o_status) = published ∨ o.(o_failed_attempts) < o'.(o_failed_attempts))
      ∧ ((∀ i, (env i).(wc_publish).(pr_err) = None) → o'.(o_status) = published).
Proof.
  pose proof (NewWorker_able _ _ _ Hnew Hmax Htext Hbase Hmaxb) as Hable.
  pose proof (reachable_fit _ _ (proj1 HmaxF) Hs) as Hfit.
  assert (o.(o_available_at) ≤ s.(ws_clock)) as Havail.
  { destruct (tf_ok _ _ _ Hfit _ _ Ho) as [Hid _]. eapply due_available; [apply Hfit| |done].
    by rewrite Hid. }
  destruct (exec_Run env maxF s.(ws_clock) w Hable Henv HmaxF Hint id o Hd Havail fuel
              s.(ws_table) onStarted Hfit) as (j & m' & tr & -> & Hwait).
  destruct (Hwait Ho Hfuel) as [Hpub Hset]. done.
Qed.

Definition demo_env (i : nat) : wchoice := WorkerSafety.demo_wchoice TimerFired.

Lemma demo_env_healthy : healthy demo_env 100.
Proof. split; intros; simpl; (lia || done). Qed.

(** The worker that has just started, and the one event, which is due. *)
Lemma due_events_handled_witness :
  let '(_, m, _, _) := @exec demo_postgres demo_interval demo_env _ 0
                         WorkerSafety.demo_wsys0.(ws_table) (Run 1 WorkerSafety.demo_worker true) in
  ∃ o', m !! demo_id1 = Some o' ∧ o'.(o_status) = published.
Proof.
  pose proof (@due_events_handled demo_postgres demo_interval 5 WorkerSafety.demo_wsys0
    WorkerSafety.demo_config WorkerSafety.demo_worker demo_env 1 true demo_id1
    (demo_row demo_id1 100)) as Hhandled.
  destruct (@exec demo_postgres demo_interval demo_env _ 0
              WorkerSafety.demo_wsys0.(ws_table) (Run 1 WorkerSafety.demo_worker true))
    as [[[j m] tr] res].
  destruct Hhandled as (_ & _ & o' & Ho' & _ & Hacc).
  - exact demo_interval_exact.
  - lia.
  - exact WorkerSafety.demo_wsys0_reachable.
  - vm_compute. reflexivity.
  - vm_compute. reflexivity.
  - vm_compute. reflexivity.
  - vm_compute. discriminate.
  - vm_compute. discriminate.
  - exact demo_env_healthy.
  - vm_compute. reflexivity.
  - vm_compute. reflexivity.
  - vm_compute. lia.
  - exists o'. split; [exact Ho'|]. apply Hacc. reflexivity.
Defined.

End WorkerProgress.
