(* ===== verification/WorkerObserved.v ===== *)
(** * What a worker reports

    The observations a worker makes are those its calls call for, no more and no
    less: the metrics of internal/observability count what happened to the events. *)
From S2P Require Import Prelude.
From S2P Require Import GoErrors.
From S2P Require Import Prog.
From S2P Require Import GoStrings.
From S2P Require Import Demo.
From S2P Require Import Outbox.
From S2P Require Import OutboxFacts.
From S2P Require Import Worker.
From S2P Require Import WorkerLogic.
From S2P Require Import WorkerSys.
From S2P Require Import WorkerSafety.
From S2P Require Import Metrics.
Local Open Scope Z_scope.

Module WorkerObserved.
Import Outbox Worker WorkerLogic.

#[export] Instance ClaimOutcome_eq_dec : EqDecision ClaimOutcome.
Proof. solve_decision. Defined.
#[export] Instance observation_eq_dec : EqDecision observation.
Proof. solve_decision. Defined.

(** ** What is called for *)

(** The event the worker handles and the store call that failed last, with its
    error, until the worker has looked at its context. *)
Record account := Account {
  handling : option Event;
  failed : option (Operation * goerr)
}.

Definition opened : account := Account None None.

Definition event_type (a : account) : string :=
  match a.(handling) with Some e => e.(EventType) | None => "" end.

(** A failure that is not the end of the context is an error, or a lost lease. *)
Definition failure_observations (a : account) (op : Operation) (err : goerr) (ctx : ctx_state)
  : list observation :=
  match own_ctx_error ctx err with
  | Some _ => []
  | None =>
      match op with
      | OperationClaim => [ObserveClaim ClaimOutcomeError; ObserveOperationError OperationClaim]
      | _ => if errors_Is err outbox_ErrLeaseLost then [ObserveLeaseLoss (event_type a) op]
             else [ObserveOperationError op]
      end
  end.

(** The observations one call calls for. *)
Definition called_for (a : account) (c : call) : reply c → list observation :=
  match c with
  | CClaimNext _ _ => λ r,
      match r with
      | Ok (Some _) => [ObserveClaim ClaimOutcomeClaimed]
      | Ok None => [ObserveClaim ClaimOutcomeEmpty]
      | Err _ => []
      end
  | CPublish e _ => λ r,
      [ObservePublish e.(EventType) (classifyPublishOutcome r.(pr_ctx) r.(pr_err)) r.(pr_duration)]
  | CMarkPublished _ _ => λ r,
      match r with Ok _ => [ObservePublished (event_type a)] | Err _ => [] end
  | CScheduleRetry _ _ _ outcome => λ r,
      match r with Ok _ => [ObserveRetry (event_type a) outcome] | Err _ => [] end
  | CMarkDeadLetter _ _ outcome => λ r,
      match r with Ok _ => [ObserveDeadLetter (event_type a) outcome] | Err _ => [] end
  | CCtx => λ r,
      match a.(failed) with
      | Some (op, err) => failure_observations a op err r
      | None => []
      end
  | _ => λ _, []
  end.

Definition failure {A} (op : Operation) (r : result goerr A) : option (Operation * goerr) :=
  match r with Ok _ => None | Err err => Some (op, err) end.

Definition after_call (a : account) (c : call) : reply c → account :=
  match c with
  | CClaimNext _ _ => λ r,
      Account (match r with Ok e => e | Err _ => None end) (failure OperationClaim r)
  | CPublish e _ => λ _, Account (Some e) None
  | CMarkPublished _ _ => λ r, Account a.(handling) (failure OperationMarkPublished r)
  | CScheduleRetry _ _ _ _ => λ r, Account a.(handling) (failure OperationScheduleRetry r)
  | CMarkDeadLetter _ _ _ => λ r, Account a.(handling) (failure OperationMarkDeadLetter r)
  | CCtx => λ _, Account a.(handling) None
  | _ => λ _, a
  end.

Fixpoint expected (a : account) (tr : trace) : list observation :=
  match tr with
  | [] => []
  | existT c r :: tr => called_for a c r ++ expected (after_call a c r) tr
  end.

(** What the worker reported. *)
Fixpoint observations (tr : trace) : list observation :=
  match tr with
  | [] => []
  | existT (CObserve o) _ :: tr => o :: observations tr
  | _ :: tr => observations tr
  end.

(** ** The discipline of the worker

    [owed]: observations called for and not made yet; no other call is made while
    there are some, and none is made that is not owed. *)
Definition settle (owed : list observation) (a : account) (c : call) (r : reply c)
  : option (list observation) :=
  match c with
  | CObserve o =>
      match owed with
      | o' :: owed => if decide (o = o') then Some owed else None
      | [] => None
      end
  | _ => match owed with [] => Some (called_for a c r) | _ => None end
  end.

Fixpoint audit (owed : list observation) (a : account) (tr : trace)
  : option (list observation * account) :=
  match tr with
  | [] => Some (owed, a)
  | existT c r :: tr =>
      match settle owed a c r with
      | Some owed => audit owed (after_call a c r) tr
      | None => None
      end
  end.

Lemma audit_balance owed a tr owed' a' :
  audit owed a tr = Some (owed', a') → owed ++ expected a tr = observations tr ++ owed'.
Proof.
  revert owed a. induction tr as [|[c r] tr IH]; intros owed a; simpl.
  { intros [= -> ->]. by rewrite app_nil_r. }
  destruct (settle owed a c r) as [o1|] eqn:Hs; [|done]. intros H%IH.
  destruct c; simpl in Hs; try (destruct owed as [|o owed]; [|done]; injection Hs as <-; simpl in *;
    by rewrite <-?app_assoc in *).
  destruct owed as [|o' owed]; [done|]. case_decide; [|done]. simplify_eq/=. by rewrite H.
Qed.

(** ** The weakest precondition for it *)

Fixpoint awp {A} (p : wprog A) (owed : list observation) (a : account)
    (Φ : list observation → account → Prop) : Prop :=
  match p with
  | Ret _ => Φ owed a
  | OutOfFuel => True
  | Do c k => ∀ r, match settle owed a c r with
                   | Some owed => awp (k r) owed (after_call a c r) Φ
                   | None => False
                   end
  end.

Definition clear (owed : list observation) (a : account) : Prop := owed = [] ∧ a.(failed) = None.

Lemma awp_bind {A B} (p : wprog A) (k : A → wprog B) owed a Φ :
  awp p owed a (λ owed a, ∀ x, awp (k x) owed a Φ) → awp (pbind p k) owed a Φ.
Proof.
  revert owed a. induction p as [x| |c f IH]; intros owed a; simpl; [by auto|done|].
  intros Hp r. specialize (Hp r). destruct (settle owed a c r); [by apply IH|done].
Qed.

Lemma awp_weaken {A} (p : wprog A) owed a (Φ Ψ : list observation → account → Prop) :
  (∀ owed a, Φ owed a → Ψ owed a) → awp p owed a Φ → awp p owed a Ψ.
Proof.
  intros HΦ. revert owed a. induction p as [x| |c f IH]; intros owed a; simpl; [by auto|done|].
  intros Hp r. specialize (Hp r). destruct (settle owed a c r); [by apply IH|done].
Qed.

Lemma awp_runs {A} (p : wprog A) owed a tr x Φ :
  awp p owed a Φ → runs p tr x → ∃ owed' a', audit owed a tr = Some (owed', a') ∧ Φ owed' a'.
Proof.
  intros Hp Hr. revert owed a Hp. induction Hr as [y|c k r tr y Hr IH]; intros owed a; simpl; [eauto|].
  intros Hp. specialize (Hp r). destruct (settle owed a c r); [by apply IH|done].
Qed.

Lemma awp_partial {A} (p : wprog A) owed a tr Φ :
  awp p owed a Φ → partial p tr → is_Some (audit owed a tr).
Proof.
  intros Hp Hr. revert owed a Hp. induction Hr as [p|c k r tr Hr IH]; intros owed a; simpl; [eauto|].
  intros Hp. specialize (Hp r). destruct (settle owed a c r); [by apply IH|done].
Qed.

(** One call of a program that owes nothing, or makes the observation it owes. *)
Lemma awp_call {A} c (k : reply c → wprog A) a Φ :
  (∀ r, match c with
        | CObserve _ => False
        | _ => awp (k r) (called_for a c r) (after_call a c r) Φ
        end) →
  awp (pbind (perform c) k) [] a Φ.
Proof. intros Hk r. specialize (Hk r). by destruct c. Qed.

Lemma awp_observe {A} o (k : unit → wprog A) owed a Φ :
  awp (k tt) owed a Φ → awp (pbind (observe o) k) (o :: owed) a Φ.
Proof. intros Hk []. simpl. by rewrite decide_True. Qed.

Lemma awp_log {A} l s attrs (k : unit → wprog A) a Φ :
  awp (k tt) [] a Φ → awp (pbind (log l s attrs) k) [] a Φ.
Proof. by intros Hk []. Qed.

Lemma awp_transition_failed w e op message err a Φ :
  a.(handling) = Some e → op ≠ OperationClaim → (∀ a, clear [] a → Φ [] a) →
  awp (transition_failed w e op message err) [] (Account a.(handling) (Some (op, err))) Φ.
Proof.
  intros He Hop HΦ. unfold transition_failed, handleTransitionError. apply awp_bind, awp_call.
  intros ctx. simpl. unfold failure_observations, event_type. simpl. rewrite He.
  destruct (own_ctx_error ctx err); [intros x; by apply HΦ|].
  destruct op; [done|..]; (destruct (errors_Is err outbox_ErrLeaseLost); apply awp_observe;
    [intros []|]; intros x; by apply HΦ).
Qed.

Lemma awp_processEvent w e a :
  clear [] a → awp (processEvent w e) [] a clear.
Proof.
  intros [_ Ha]. unfold processEvent. apply awp_call. intros []. apply awp_call. intros r.
  apply awp_observe. destruct (pr_err r) as [err|].
  - apply awp_call. intros ctx. simpl. destruct (ctx_Err ctx); [done|].
    destruct (_ <=? _); apply awp_call; intros [[]|e0].
    + apply awp_observe. by intros [].
    + by apply (awp_transition_failed w e OperationMarkDeadLetter _ _ (Account (Some e) None)).
    + apply awp_observe. by intros [].
    + by apply (awp_transition_failed w e OperationScheduleRetry _ _ (Account (Some e) None)).
  - apply awp_call. intros [[]|e0].
    + apply awp_observe. by intros [].
    + by apply (awp_transition_failed w e OperationMarkPublished _ _ (Account (Some e) None)).
Qed.

Lemma awp_runOnce w a : clear [] a → awp (runOnce w) [] a clear.
Proof.
  intros [_ Ha]. unfold runOnce. apply awp_call. intros [[e|]|err].
  - apply awp_observe, awp_log, awp_bind.
    eapply awp_weaken; [|by apply (awp_processEvent w e (Account (Some e) None))].
    intros owed a' Hc [b|err]; [done|]. by destruct (errors_Is err _).
  - by apply awp_observe.
  - apply awp_call. intros ctx. simpl. unfold failure_observations.
    destruct (own_ctx_error ctx err); [done|]. by do 2 apply awp_observe.
Qed.

Lemma awp_handle_iteration w it a : clear [] a → awp (handle_iteration w it) [] a clear.
Proof.
  intros [_ Ha]. destruct it as [b|err]; apply awp_call; [by intros []|].
  intros ctx. simpl. rewrite Ha. destruct (own_ctx_error ctx err); [done|].
  destruct (errors_Is err _); [|by intros []]. intros []. by intros [].
Qed.

Lemma awp_run_loop fuel w a : clear [] a → awp (run_loop fuel w) [] a clear.
Proof.
  revert a. induction fuel as [|fuel IH]; intros a Ha; [done|]. apply awp_call.
  intros [|]; [done|]. apply awp_bind. eapply awp_weaken; [|by apply awp_runOnce].
  intros owed a1 [-> Ha1] it. apply awp_bind.
  eapply awp_weaken; [|by apply awp_handle_iteration].
  intros owed a2 [-> Ha2] [r|]; [done|]. by apply IH.
Qed.

Lemma awp_Run fuel w b : awp (Run fuel w b) [] opened clear.
Proof.
  unfold Run. apply awp_call. intros ctx. destruct (ctx_Err ctx); [done|].
  apply awp_log, awp_bind.
  eapply (awp_weaken _ _ _ clear).
  { intros owed a [-> Ha] r. by apply awp_log. }
  apply awp_call. intros []. apply awp_call. intros ctx'. destruct (ctx_Err ctx'); [done|].
  destruct b; [intros []|]; by apply awp_run_loop.
Qed.

(** At most two observations are outstanding. *)
Lemma audit_owed owed a tr owed' a' :
  (length owed ≤ 2)%nat → audit owed a tr = Some (owed', a') → (length owed' ≤ 2)%nat.
Proof.
  revert owed a. induction tr as [|[c r] tr IH]; intros owed a Hlen; simpl; [by intros [= <- <-]|].
  destruct (settle owed a c r) as [o1|] eqn:Hs; [|done]. apply IH.
  destruct c; simpl in Hs; destruct owed as [|o' owed]; try done;
    try (injection Hs as <-; unfold failure_observations; repeat (case_match; simpl; try lia); simpl; lia).
  case_decide; [|done]. simplify_eq/=. lia.
Qed.

(** ** The counters *)

(** The calls to client_golang of the observations. *)
Definition metrics_of (os : list observation) : list Metrics.call :=
  os ≫= Metrics.worker_observer (Some Metrics.worker_metrics).

(** How often the counter of this name is incremented. *)
Definition counter_total (name : string) (calls : list Metrics.call) : nat :=
  length (List.filter (λ c, match c with
    | Metrics.CInc m _ => bool_decide (m.(Metrics.Name) = name)
    | _ => false
    end) calls).

(** The calls of a trace with a property of their replies. *)
Definition calls_with (p : ∀ c, reply c → bool) (tr : trace) : nat :=
  length (List.filter (λ x : {c & reply c}, p (projT1 x) (projT2 x)) tr).

Definition is_ok {A} (r : result goerr A) : bool := match r with Ok _ => true | Err _ => false end.

Definition published_event (c : call) : reply c → bool :=
  match c with CMarkPublished _ _ => is_ok | _ => λ _, false end.
Definition scheduled_retry (c : call) : reply c → bool :=
  match c with CScheduleRetry _ _ _ _ => is_ok | _ => λ _, false end.
Definition dead_lettered (c : call) : reply c → bool :=
  match c with CMarkDeadLetter _ _ _ => is_ok | _ => λ _, false end.
Definition publish_attempt (c : call) : reply c → bool :=
  match c with CPublish _ _ => λ _, true | _ => λ _, false end.

(** The counter of this name counts the calls with this property. *)
Definition counts (name : string) (p : ∀ c, reply c → bool) : Prop :=
  ∀ a c r, counter_total name (metrics_of (called_for a c r)) = if p c r then 1%nat else 0%nat.

Lemma counter_total_app name cs cs' :
  counter_total name (cs ++ cs') = (counter_total name cs + counter_total name cs')%nat.
Proof. unfold counter_total. by rewrite List.filter_app, length_app. Qed.

Lemma counts_expected name p a tr :
  counts name p → counter_total name (metrics_of (expected a tr)) = calls_with p tr.
Proof.
  intros Hc. revert a. induction tr as [|[c r] tr IH]; intros a; [done|]. simpl.
  unfold metrics_of. rewrite bind_app, counter_total_app.
  change (counter_total name (metrics_of (called_for a c r))
          + counter_total name (metrics_of (expected (after_call a c r) tr)) = calls_with p (existT c r :: tr))%nat.
  rewrite Hc, IH. unfold calls_with. simpl. by destruct (p c r).
Qed.

Ltac counts_calls :=
  intros a [] r; try done; try (by destruct r as [[]|]);
  simpl; unfold failure_observations; repeat case_match; done.

Lemma counts_published : counts "events_published_total" published_event.
Proof. counts_calls. Qed.
Lemma counts_retries : counts "retries_scheduled_total" scheduled_retry.
Proof. counts_calls. Qed.
Lemma counts_dead_letters : counts "events_dead_lettered_total" dead_lettered.
Proof. counts_calls. Qed.
Lemma counts_attempts : counts "publish_attempts_total" publish_attempt.
Proof. counts_calls. Qed.

(** ** The theorem *)

(** C22: what a worker reports is what happened: in every run, whatever the store,
    the publisher and the context reply, the observations made are exactly those
    the calls call for, in order: one per claim by its outcome, one per publication
    with its class and duration, a published event, a retry or a dead letter for
    each transition that succeeded and for no other, a lost lease or an operation
    error for each that failed unless the context had ended.  So the counters of
    the process are exact: they count the publications tried, the events marked
    published, the retries and the dead letters.  In a run that goes on, at most the
    last two observations are still to come. *)
Theorem observations_exact fuel w b tr :
  (∀ r, runs (Run fuel w b) tr r →
     observations tr = expected opened tr
     ∧ (let total name := counter_total name (metrics_of (observations tr)) in
        total "publish_attempts_total"%string = calls_with publish_attempt tr
        ∧ total "events_published_total"%string = calls_with published_event tr
        ∧ total "retries_scheduled_total"%string = calls_with scheduled_retry tr
        ∧ total "events_dead_lettered_total"%string = calls_with dead_lettered tr))
  ∧ (partial (Run fuel w b) tr →
     ∃ owed, expected opened tr = observations tr ++ owed ∧ (length owed ≤ 2)%nat).
Proof.
  split.
  - intros r Hr. destruct (awp_runs _ _ _ _ _ _ (awp_Run fuel w b) Hr) as (owed & a & Ha & -> & _).
    apply audit_balance in Ha. rewrite app_nil_r in Ha. simpl in Ha. rewrite <-Ha.
    split; [done|]. split_and!; apply counts_expected;
      auto using counts_attempts, counts_published, counts_retries, counts_dead_letters.
  - intros Hp. destruct (awp_partial _ _ _ _ _ (awp_Run fuel w b) Hp) as [[owed a] Ha].
    exists owed. split; [by apply audit_balance in Ha|]. eapply audit_owed; [|exact Ha]. simpl. lia.
Qed.

Lemma observations_exact_witness :
  observations WorkerSafety.demo_trace = expected opened WorkerSafety.demo_trace
  ∧ counter_total "events_published_total" (metrics_of (observations WorkerSafety.demo_trace)) = 1%nat.
Proof.
  destruct (proj1 (observations_exact 3 WorkerSafety.demo_worker true WorkerSafety.demo_trace) (Ok tt)
              WorkerSafety.demo_trace_runs) as (Hexact & _ & Hpublished & _).
  split; [exact Hexact|]. rewrite Hpublished. vm_compute. reflexivity.
Defined.

End WorkerObserved.
