(* ===== verification/Service.v ===== *)
(** * The whole service

    The API and the worker processes over one database: reward-claim transactions,
    workers, the clock, crashes on both sides and retention, interleaved in any
    order.  Each step projects to steps of the claim system (RewardsSys) and of the
    worker system (WorkerSys), so what is proved of either holds of the service. *)
From S2P Require Import Prelude.
From S2P Require Import GoErrors.
From S2P Require Import Prog.
From S2P Require Import GoStrings.
From S2P Require Import Schema.
From S2P Require Import Rewards.
From S2P Require Import RewardsTx.
From S2P Require Import RewardsSql.
From S2P Require Import RewardsInv.
From S2P Require Import RewardsLogic.
From S2P Require Import RewardsSys.
From S2P Require Import Outbox.
From S2P Require Import OutboxFacts.
From S2P Require Import Worker.
From S2P Require Import WorkerLogic.
From S2P Require Import WorkerSys.
From S2P Require Import WorkerSafety.
Local Open Scope Z_scope.

Module Service.
Import Schema RewardsInv RewardsLogic RewardsSys WorkerSys.

(** ** State and steps *)

(** The outbox table is that of [sv_claims]; the last three are the history of the
    workers. *)
Record service := MkService {
  sv_clock : Z;
  sv_claims : sys;
  sv_workers : gmap nat wthread;
  sv_inserted : gset string;
  sv_delivered : gset string;
  sv_refused : list string
}.

Definition sv_table (v : service) : Outbox.table := v.(sv_claims).(s_db).(outbox).

(** The service as its workers see it. *)
Definition workers_of (v : service) : wsys :=
  WSys v.(sv_clock) (sv_table v) v.(sv_workers) v.(sv_inserted) v.(sv_delivered) v.(sv_refused).

Definition init_service : service := MkService 0 init_sys ∅ ∅ ∅ [].

(** The claim system took a step to [s]. *)
Definition after_claims (v : service) (s : sys) : service :=
  MkService v.(sv_clock) s v.(sv_workers) (dom s.(s_db).(outbox) ∪ v.(sv_inserted))
    v.(sv_delivered) v.(sv_refused).

(** Other workers. *)
Definition with_workers (ws : gmap nat wthread) (v : service) : service :=
  MkService v.(sv_clock) v.(sv_claims) ws v.(sv_inserted) v.(sv_delivered) v.(sv_refused).

Section service.
Context `{Postgres, PgInterval}.
Context (maxF : Z).

Inductive sstep : service → service → Prop :=
| ss_request v t cmd p fuel :
    let s := v.(sv_claims) in
    s.(s_threads) !! t = None → Rewards.prepareCreateClaim cmd = Ok p →
    sstep v (after_claims v
      (Sys s.(s_db) (<[t := Thread p RewardsSql.init_local (RewardsTx.createClaim fuel p)]> s.(s_threads))
         s.(s_archive) s.(s_log) s.(s_expired)))
| ss_statement v t p l st k ch c' l' r :
    let s := v.(sv_claims) in
    s.(s_threads) !! t = Some (Thread p l (Do st k)) → choice_ok ch →
    ch.(RewardsSql.ch_now) = v.(sv_clock) →
    RewardsSql.exec ch s.(s_db) l st = (c', l', r) → no_conflict s.(s_threads) t l' →
    sstep v (after_claims v
      (Sys c' (<[t := Thread p l' (k r)]> s.(s_threads))
         s.(s_archive) (idem_rows c' ++ s.(s_log)) s.(s_expired)))
| ss_request_crash v t :
    let s := v.(sv_claims) in
    sstep v (after_claims v
      (Sys s.(s_db) (delete t s.(s_threads)) s.(s_archive) s.(s_log) s.(s_expired)))
| ss_expire_key v h i :
    let s := v.(sv_claims) in
    s.(s_db).(idem) !! h = Some i → i.(i_response_status) ≠ None →
    sstep v (after_claims v
      (Sys (set_idem (delete h) s.(s_db)) s.(s_threads)
         s.(s_archive) s.(s_log) ({[h]} ∪ s.(s_expired))))
| ss_worker_start v t cfg w fuel b :
    v.(sv_workers) !! t = None → Worker.NewWorker true true true cfg = Ok w →
    w.(Worker.maxFailures) = maxF →
    (∀ t' th, v.(sv_workers) !! t' = Some th →
       th.(wt_worker).(Worker.workerID) ≠ w.(Worker.workerID)) →
    sstep v (with_workers
      (<[t := WThread w (Worker.Run fuel w b) WorkerLogic.start 0]> v.(sv_workers)) v)
| ss_worker_call v t w c k g until ch m' r :
    v.(sv_workers) !! t = Some (WThread w (Do c k) g until) →
    ch.(wc_store).(Outbox.ch_now) = v.(sv_clock) →
    wexec ch (sv_table v) c = (m', r) → WorkerLogic.possible g c r →
    sstep v (MkService v.(sv_clock) (WorkerSafety.with_outbox m' v.(sv_claims))
      (<[t := WThread w (k r) (WorkerLogic.after g c r) (lease_end v.(sv_clock) until c r)]>
         v.(sv_workers))
      v.(sv_inserted) (delivered_by c r ∪ v.(sv_delivered)) (refused_by c r ++ v.(sv_refused)))
| ss_worker_crash v t :
    sstep v (with_workers (delete t v.(sv_workers)) v)
| ss_tick v clock :
    v.(sv_clock) ≤ clock →
    sstep v (MkService clock v.(sv_claims) v.(sv_workers) v.(sv_inserted) v.(sv_delivered) v.(sv_refused))
| ss_archive_event v e o :
    let s := v.(sv_claims) in
    sv_table v !! e = Some o → o.(o_status) = published →
    sstep v (MkService v.(sv_clock)
      (Sys (set_outbox (delete e) s.(s_db)) s.(s_threads)
         (<[o.(o_aggregate_id) := o]> s.(s_archive)) s.(s_log) s.(s_expired))
      v.(sv_workers) v.(sv_inserted) v.(sv_delivered) v.(sv_refused)).

Definition service_reachable (v : service) : Prop := rtc sstep init_service v.

(** ** The rows a transaction inserts *)

(** An event as [insertRewardClaimedOutboxEvent] inserts it, under a canonical
    identifier and with the time its transaction started. *)
Definition new_row (clock : Z) (e : string) (o : outbox_row) : Prop :=
  canonical_uuid e = true ∧ outbox_check o = true
  ∧ ∃ at_ ai et pl now, now ≤ clock ∧ o = new_outbox_row e at_ ai et pl now.

Definition new_rows (clock : Z) (m : gmap string outbox_row) : Prop :=
  ∀ e o, m !! e = Some o → new_row clock e o.

Definition fresh_rows (clock : Z) (l : RewardsSql.local) : Prop :=
  l.(RewardsSql.l_now) ≤ clock ∧ new_rows clock l.(RewardsSql.l_writes).(outbox).

Lemma new_rows_empty clock : new_rows clock ∅.
Proof. intros e o Ho. simplify_map_eq. Qed.

Lemma fresh_rows_mono clock clock' l : clock ≤ clock' → fresh_rows clock l → fresh_rows clock' l.
Proof.
  intros Hle [Hn Hr]. split; [lia|]. intros e o Ho.
  destruct (Hr e o Ho) as (Hc & Hk & at_ & ai & et & pl & now & Hnow & Heq).
  split_and!; [done..|]. exists at_, ai, et, pl, now. split; [lia|done].
Qed.

Lemma in_tx_fresh {A} clock ch l (sem : result string (A * db)) l' r :
  fresh_rows clock l →
  (∀ a w, sem = Ok (a, w) → new_rows clock w.(outbox)) →
  RewardsSql.in_tx ch l sem = (l', r) → fresh_rows clock l'.
Proof.
  intros Hl Hsem. unfold RewardsSql.in_tx. intros Heq.
  assert (fresh_rows clock (RewardsSql.abort l)) as Habort
    by (split; [apply Hl|apply new_rows_empty]).
  destruct l.(RewardsSql.l_status); simplify_eq; try done.
  destruct ch.(RewardsSql.ch_fault) as [[f b]|]; [by simplify_eq|].
  destruct sem as [[a w]|s]; simplify_eq; [|done]. split; [apply Hl|]. simpl. by eapply Hsem.
Qed.

Lemma sql_insert_outbox_new clock vis w now id at_ ai et pl n w' :
  now ≤ clock → new_rows clock w.(outbox) →
  RewardsSql.sql_insert_outbox vis w now id at_ ai et pl = Ok (n, w') → new_rows clock w'.(outbox).
Proof.
  intros Hnow Hw. unfold RewardsSql.sql_insert_outbox. intros Heq.
  destruct (uuid_in id) as [e|] eqn:Hid; [|done].
  destruct (uuid_in ai) as [a|]; [|done]. destruct (jsonb_in pl) as [p|]; [|done].
  destruct (negb (text_ok at_ && text_ok et)); [done|].
  destruct (outbox_check _) eqn:Hc; simpl in Heq; [|done].
  destruct (RewardsSql.any_row _ _); [done|]. destruct (_ !! e); simplify_eq. simpl.
  intros e' o [[<- <-]|[_ Ho]]%lookup_insert_Some; [|by apply Hw].
  split_and!; [by eapply uuid_out_canonical|done|]. by eexists _, _, _, _, now.
Qed.

(** Only the insertion of an event writes to the outbox. *)
Lemma other_writes clock vis w now :
  new_rows clock w.(outbox) →
  (∀ p n w', RewardsSql.sql_reserve vis w now p = Ok (n, w') → new_rows clock w'.(outbox))
  ∧ (∀ id p n w', RewardsSql.sql_insert_claim vis w now id p = Ok (n, w') → new_rows clock w'.(outbox))
  ∧ (∀ p st body id n w', RewardsSql.sql_complete vis w p st body id = Ok (n, w') →
       new_rows clock w'.(outbox)).
Proof.
  intros Hw. split_and!; intros *; unfold RewardsSql.sql_reserve, RewardsSql.sql_insert_claim,
    RewardsSql.sql_complete; intros Heq; crush_in Heq; done.
Qed.

Lemma exec_fresh clock ch c l st c' l' r :
  fresh_rows clock l → ch.(RewardsSql.ch_now) = clock →
  RewardsSql.exec ch c l st = (c', l', r) → fresh_rows clock l'.
Proof.
  intros Hl Hnow Heq. pose proof Hl as [Hln Hw].
  destruct (other_writes clock (overlay l.(RewardsSql.l_writes) c) l.(RewardsSql.l_writes)
              l.(RewardsSql.l_now) Hw) as (Hres & Hclaim & Hcomp).
  assert (∀ A (sem : result string (option A * db)) l1 x,
    RewardsSql.scan_row ch (RewardsSql.in_tx ch l sem) = (l1, x) →
    (∀ a w, sem = Ok (a, w) → new_rows clock w.(outbox)) → fresh_rows clock l1) as Hscan.
  { intros A sem l1 x Hx Hsem. pose proof (scan_row_local ch (RewardsSql.in_tx ch l sem)) as E.
    rewrite Hx in E. simpl in E. subst l1. eapply in_tx_fresh; [done..|]. apply surjective_pairing. }
  assert (fresh_rows clock (RewardsSql.abort l)) as Habort by (split; [done|apply new_rows_empty]).
  destruct st; simpl in Heq.
  - by injection Heq as _ <- _.
  - destruct l.(RewardsSql.l_status), ch.(RewardsSql.ch_fault) as [[]|];
      injection Heq as _ <- _; try done. split; [simpl; lia|apply new_rows_empty].
  - unfold RewardsSql.exec_commit in Heq.
    destruct l.(RewardsSql.l_status), ch.(RewardsSql.ch_fault) as [[? []]|];
      injection Heq as _ <- _; done.
  - injection Heq as _ <- _. by destruct l.(RewardsSql.l_status).
  - destruct (RewardsSql.in_tx _ _ _) as [l1 x] eqn:Hx. injection Heq as _ <- _.
    eapply in_tx_fresh; [exact Hl| |exact Hx]. intros a w. apply Hres.
  - destruct (RewardsSql.scan_row _ _) as [l1 x] eqn:Hx. injection Heq as _ <- _.
    eapply Hscan; [exact Hx|]. by intros a w [= _ <-].
  - destruct (RewardsSql.scan_row _ _) as [l1 x] eqn:Hx. injection Heq as _ <- _.
    eapply Hscan; [exact Hx|]. intros a w. apply Hclaim.
  - destruct (RewardsSql.in_tx _ _ _) as [l1 x] eqn:Hx. injection Heq as _ <- _.
    eapply in_tx_fresh; [exact Hl| |exact Hx]. intros a w. by apply sql_insert_outbox_new.
  - destruct (RewardsSql.in_tx _ _ _) as [l1 x] eqn:Hx. injection Heq as _ <- _.
    eapply in_tx_fresh; [exact Hl| |exact Hx]. intros a w. apply Hcomp.
Qed.

(** ** Projections *)

Definition claims_projects (v v' : service) : Prop := rtc step v.(sv_claims) v'.(sv_claims).
Definition workers_project (v v' : service) : Prop := rtc (wstep maxF) (workers_of v) (workers_of v').

(** The events a transaction commits appear to the workers one after the other. *)
Lemma inserts_steps (m : gmap string outbox_row) clock tbl ws inserted delivered refused :
  new_rows clock m → m ##ₘ tbl →
  rtc (wstep maxF) (WSys clock tbl ws inserted delivered refused)
    (WSys clock (m ∪ tbl) ws (dom m ∪ inserted) delivered refused).
Proof.
  induction m as [|e o m Hne IH] using map_ind; intros Hnew Hdisj.
  { by rewrite (left_id_L ∅ (∪)), dom_empty_L, (left_id_L ∅ (∪)). }
  apply map_disjoint_insert_l in Hdisj as [Htbl Hdisj].
  destruct (Hnew e o (lookup_insert_eq _ _ _)) as (Hcan & Hc & at_ & ai & et & pl & now & Hnow & ->).
  eapply rtc_r.
  { apply IH; [|done]. intros e' o' Ho'. apply Hnew. rewrite lookup_insert_ne; congruence. }
  rewrite <-insert_union_l, dom_insert_L, <-(assoc_L (∪)).
  pose proof (wstep_insert maxF (WSys clock (m ∪ tbl) ws (dom m ∪ inserted) delivered refused)
    e at_ ai et pl now Hnow Hcan) as Hstep. simpl in Hstep.
  apply Hstep; [by apply lookup_union_None|done].
Qed.

Lemma same_claims_project v v' : workers_of v' = workers_of v → workers_project v v'.
Proof. unfold workers_project. by intros ->. Qed.

(** What the composition adds to the invariants of the two systems. *)
Record shared_ok (v : service) : Prop := {
  so_clock : 0 ≤ v.(sv_clock);
  so_fresh t th : v.(sv_claims).(s_threads) !! t = Some th → fresh_rows v.(sv_clock) th.(t_local);
  so_inserted : dom (sv_table v) ⊆ v.(sv_inserted)
}.

(** The claim system took a step that leaves the outbox alone. *)
Lemma quiet_step v s :
  shared_ok v → step v.(sv_claims) s → s.(s_db).(outbox) = sv_table v →
  (∀ t th, s.(s_threads) !! t = Some th → fresh_rows v.(sv_clock) th.(t_local)) →
  claims_projects v (after_claims v s) ∧ workers_project v (after_claims v s)
  ∧ shared_ok (after_claims v s).
Proof.
  intros [Hclock Hfresh Hins] Hstep Hout Hth. split_and!.
  - by apply rtc_once.
  - apply same_claims_project. unfold workers_of, after_claims, sv_table in *. simpl. rewrite Hout.
    f_equal. set_solver.
  - split; [done|done|]. unfold sv_table, after_claims. simpl. set_solver.
Qed.

Lemma statement_projects v t p l st k ch c' l' r :
  let s := v.(sv_claims) in
  sys_inv s → shared_ok v →
  s.(s_threads) !! t = Some (Thread p l (Do st k)) → choice_ok ch →
  ch.(RewardsSql.ch_now) = v.(sv_clock) →
  RewardsSql.exec ch s.(s_db) l st = (c', l', r) → no_conflict s.(s_threads) t l' →
  let v' := after_claims v
      (Sys c' (<[t := Thread p l' (k r)]> s.(s_threads))
         s.(s_archive) (idem_rows c' ++ s.(s_log)) s.(s_expired)) in
  claims_projects v v' ∧ workers_project v v' ∧ shared_ok v'.
Proof.
  intros s Hinv Hok Ht Hch Hnow Hex Hfree v'.
  pose proof Hinv as [HI Hth _ _]. destruct (Hth _ _ Ht) as (_ & _ & Hl). simpl in Hl.
  pose proof Hok as [Hclock Hfresh Hins]. pose proof (Hfresh _ _ Ht) as Hlf. simpl in Hlf.
  assert (∀ t2 th2, (<[t := Thread p l' (k r)]> s.(s_threads)) !! t2 = Some th2 →
    fresh_rows v.(sv_clock) th2.(t_local)) as Hfresh'.
  { intros t2 th2 [[_ <-]|[_ Ht2]]%lookup_insert_Some; [by eapply exec_fresh|by eapply Hfresh]. }
  assert (step s (sv_claims v')) as Hstep by (by eapply (step_stmt s)).
  assert (local_step s.(s_db) l c' l') as Hls
    by (eapply exec_local_step; [exact HI|apply Hl|exact Hex]).
  inversion Hls as [| | | |lost Hopen]; subst; try by apply quiet_step.
  pose proof (compat_outbox _ _ (lo_open _ _ Hl Hopen)) as Hnew.
  split_and!; [by apply rtc_once| |].
  - unfold workers_project, workers_of, v', after_claims, sv_table. simpl.
    rewrite dom_union_L. replace (dom (l.(RewardsSql.l_writes).(outbox)) ∪ dom (s.(s_db).(outbox)) ∪ v.(sv_inserted))
      with (dom (l.(RewardsSql.l_writes).(outbox)) ∪ v.(sv_inserted)) by (unfold sv_table in *; set_solver).
    apply inserts_steps; [apply Hlf|]. apply map_disjoint_spec. intros e o1 o2 Ho1 Ho2.
    assert (s.(s_db).(outbox) !! e = None) by eauto. congruence.
  - split; [done|done|]. unfold sv_table, v', after_claims. simpl. set_solver.
Qed.

(** Steps of the environment and of workers keep the threads of the API. *)
Lemma shared_ok_workers v clock s ws delivered refused :
  shared_ok v → v.(sv_clock) ≤ clock → s.(s_threads) = v.(sv_claims).(s_threads) →
  dom s.(s_db).(outbox) ⊆ dom (sv_table v) →
  shared_ok (MkService clock s ws v.(sv_inserted) delivered refused).
Proof.
  intros [Hclock Hfresh Hins] Hle Hth Hdom. split; simpl.
  - lia.
  - rewrite Hth. intros t th Ht. by eapply fresh_rows_mono, Hfresh.
  - by etrans.
Qed.

Lemma worker_call_projects v ch c m' r :
  OutboxFacts.table_ok (sv_table v) → wexec ch (sv_table v) c = (m', r) →
  rtc step v.(sv_claims) (WorkerSafety.with_outbox m' v.(sv_claims))
  ∧ dom m' ⊆ dom (sv_table v).
Proof.
  intros Hok Hex. destruct (WorkerSafety.wexec_same_event _ _ _ _ _ Hok Hex)
    as [->|(o & o' & Ho & Hsame & ->)].
  - split; [|done]. unfold sv_table. by destruct v as [? [[] ? ? ? ?] ? ? ? ?].
  - split; [|rewrite dom_insert_lookup_L; [done|eauto]].
    apply rtc_once. by eapply (step_update_event v.(sv_claims)).
Qed.

Lemma sstep_projects v v' :
  sstep v v' → sys_inv v.(sv_claims) → winv maxF (workers_of v) → shared_ok v →
  claims_projects v v' ∧ workers_project v v' ∧ shared_ok v'.
Proof.
  intros Hstep Hinv Hw Hok. destruct Hstep as
    [v t cmd p fuel s Ht Hp|v t p l st k ch c' l' r s Ht Hch Hnow Hex Hfree|v t s|v h i s Hi Hst
    |v t cfg w fuel b Ht Hnew Hmax Hdist|v t w c k g until ch m' r Ht Hnow Hex Hpos|v t|v clock Hle
    |v e o s Ho Hpub].
  - apply quiet_step; [done|by eapply step_start|done|]. simpl.
    intros t2 th [[_ <-]|[_ Ht2]]%lookup_insert_Some; [|by eapply so_fresh].
    split; [apply Hok|apply new_rows_empty].
  - by eapply statement_projects.
  - apply quiet_step; [done|apply step_crash|done|]. simpl.
    intros t2 th [_ Ht2]%lookup_delete_Some. by eapply so_fresh.
  - apply quiet_step; [done|by eapply step_expire_key|done|]. by apply so_fresh.
  - split_and!; [apply rtc_refl|apply rtc_once|by apply shared_ok_workers].
    by apply (wstep_start maxF (workers_of v) t cfg).
  - destruct (worker_call_projects v ch c m' r (wi_table _ _ Hw) Hex) as [Hclaims Hdom].
    split_and!; [done|apply rtc_once|by apply shared_ok_workers].
    by apply (wstep_call maxF (workers_of v) t w c k g until ch m' r).
  - split_and!; [apply rtc_refl|apply rtc_once|by apply shared_ok_workers].
    apply (wstep_crash maxF (workers_of v) t).
  - split_and!; [apply rtc_refl|apply rtc_once|by apply shared_ok_workers].
    by apply (wstep_tick maxF (workers_of v)).
  - split_and!; [apply rtc_once; by apply (step_archive_event s)|apply rtc_once|].
    + by apply (wstep_retention maxF (workers_of v) e o).
    + apply shared_ok_workers; [done|done|done|]. simpl. rewrite dom_delete_L. set_solver.
Qed.

Lemma init_shared_ok : shared_ok init_service.
Proof. split; [done|intros t th Ht; simpl in Ht; simplify_map_eq|simpl; set_solver]. Qed.

Lemma service_projects v :
  0 < maxF → service_reachable v →
  reachable v.(sv_claims) ∧ wreachable maxF (workers_of v) ∧ shared_ok v.
Proof.
  intros HmaxF. revert v. apply (rtc_ind_r (λ v, reachable v.(sv_claims)
    ∧ wreachable maxF (workers_of v) ∧ shared_ok v) init_service).
  { split_and!; [apply rtc_refl|apply rtc_refl|apply init_shared_ok]. }
  intros v v' _ Hstep (Hc & Hw & Hok).
  pose proof (reachable_inv _ Hc) as Hinv. pose proof (wreachable_inv _ _ HmaxF Hw) as Hwinv.
  destruct (sstep_projects v v' Hstep Hinv Hwinv Hok) as (Hc' & Hw' & Hok').
  split_and!; [|by eapply (transitivity (R := rtc (wstep maxF)))|done].
  by eapply (transitivity (R := rtc step)).
Qed.

End service.
End Service.
