(* ===== verification/ServiceSafety.v ===== *)
(** * What the whole service guarantees

    From a granted claim to its publication and back: the theorems about the
    reachable states of Service. *)
From S2P Require Import Prelude.
From S2P Require Import GoErrors.
From S2P Require Import Prog.
From S2P Require Import GoStrings.
From S2P Require Import Schema.
From S2P Require Import Rewards.
From S2P Require Import RewardsTx.
From S2P Require Import RewardsSql.
From S2P Require Import RewardsDemo.
From S2P Require Import Demo.
From S2P Require Import RewardsInv.
From S2P Require Import RewardsLogic.
From S2P Require Import RewardsSys.
From S2P Require Import RewardsSafety.
From S2P Require Import Outbox.
From S2P Require Import OutboxFacts.
From S2P Require Import Worker.
From S2P Require Import WorkerLogic.
From S2P Require Import WorkerSys.
From S2P Require Import WorkerSafety.
From S2P Require Import Config.
From S2P Require Import WorkerMain.
From S2P Require Import WorkerTime.
From S2P Require Import WorkerProgress.
From S2P Require Import Service.
Local Open Scope Z_scope.

Module ServiceSafety.
Import Schema Demo Rewards RewardsInv RewardsSys Outbox WorkerSys Service.

Section safety.
Context `{Postgres, PgInterval}.

(** ** Where events come from *)

(** The row of an event: in the outbox, where only its state columns change, or
    archived. *)
Definition event_row (s : sys) (o : outbox_row) : Prop :=
  ∃ o0, same_event o0 o
    ∧ (s.(s_db).(outbox) !! o0.(o_id) = Some o0 ∨ s.(s_archive) !! o0.(o_aggregate_id) = Some o0).

(** The event is that of a row. *)
Definition announced (s : sys) (e : Event) : Prop :=
  ∃ o, event_row s o ∧ o.(o_id) = e.(ID) ∧ o.(o_aggregate_type) = e.(AggregateType)
    ∧ o.(o_aggregate_id) = e.(AggregateID) ∧ o.(o_event_type) = e.(EventType)
    ∧ o.(o_payload) = e.(Payload).

Lemma same_event_refl o : same_event o o.
Proof. done. Qed.

Lemma row_event s e o : sys_inv s → s.(s_db).(outbox) !! e = Some o → event_row s o.
Proof.
  intros [HI _ _ _] Ho. exists o. split; [done|left].
  by destruct (inv_outbox _ _ HI _ _ Ho) as [-> _].
Qed.

Lemma row_announced s e o : sys_inv s → s.(s_db).(outbox) !! e = Some o → announced s (event_of o).
Proof. intros HI Ho. exists o. split; [by eapply row_event|done]. Qed.

(** Rows are never lost. *)
Lemma step_event_row s s' o : step s s' → sys_inv s → event_row s o → event_row s' o.
Proof.
  intros Hstep Hinv (o0 & Hsame & Hin). pose proof Hinv as [HI Hth _ _].
  destruct Hstep as [|s t p l st k ch c' l' r Ht Hch Hex Hfree| | |s e o1 o2 Ho1 Hsame'|s e o1 Ho1 Hpub];
    try by exists o0.
  - exists o0. split; [done|]. destruct Hin as [Hin|]; [left|by right].
    destruct (Hth _ _ Ht) as (_ & _ & Hl). simpl in *.
    assert (local_step s.(s_db) l c' l') as Hls
      by (eapply exec_local_step; [exact HI|apply Hl|exact Hex]).
    inversion Hls as [| | | |lost Hopen]; subst; try done. simpl.
    rewrite lookup_union_r; [done|]. apply eq_None_not_Some. intros Hw.
    rewrite (RewardsLogic.compat_outbox _ _ (lo_open _ _ Hl Hopen) _ Hw) in Hin. done.
  - destruct (inv_outbox _ _ HI _ _ Ho1) as [He _]. destruct (decide (o0.(o_id) = e)) as [E|Hne].
    + destruct Hin as [Hin|Hin].
      * assert (o0 = o1) as -> by congruence. exists o2. split.
        { destruct Hsame as (?&?&?&?&?), Hsame' as (?&?&?&?&?). split_and!; congruence. }
        left. simpl. destruct Hsame' as [Hid _]. rewrite Hid, E. apply lookup_insert_eq.
      * exists o0. split; [done|by right].
    + exists o0. split; [done|]. destruct Hin as [Hin|]; [left|by right]. simpl.
      by rewrite lookup_insert_ne.
  - destruct (inv_outbox _ _ HI _ _ Ho1) as (He & Har & _). exists o0. split; [done|]. simpl.
    destruct (decide (o0.(o_aggregate_id) = o1.(o_aggregate_id))) as [E|Hne].
    + destruct Hin as [Hin|Hin]; [|congruence]. right. rewrite E.
      assert (o0.(o_id) = e) by (by eapply inv_one_event).
      assert (o0 = o1) as -> by congruence. apply lookup_insert_eq.
    + destruct Hin as [Hin|Hin]; [left|right]; [|by rewrite lookup_insert_ne].
      rewrite lookup_delete_ne; [done|]. intros ->. congruence.
Qed.

Lemma steps_event_row s s' o : rtc step s s' → sys_inv s → event_row s o → event_row s' o.
Proof.
  induction 1 as [|s s1 s' Hstep _ IH]; intros Hinv Ho; [done|].
  apply IH; [by eapply step_inv|by eapply step_event_row].
Qed.

Lemma announced_mono s s' e : rtc step s s' → sys_inv s → announced s e → announced s' e.
Proof. intros Hs Hinv (o & Ho & Hrest). exists o. split; [by eapply steps_event_row|done]. Qed.

(** An event announces a stored claim: its payload is the JSON of that claim, as
    the database stores it. *)
Definition announces (cs : gmap string claim_row) (e : Event) (r : claim_row) : Prop :=
  cs !! e.(AggregateID) = Some r ∧ r.(c_id) = e.(AggregateID)
  ∧ e.(AggregateType) = outboxAggregateTypeRewardClaim
  ∧ e.(EventType) = outboxEventTypeRewardClaimed
  ∧ ∃ payload,
      marshalRewardClaimedEvent (newRewardClaimedEvent e.(ID) (RewardsSql.claim_of r)) = Some payload
      ∧ jsonb_in payload = Some e.(Payload).

Lemma event_row_for s o : sys_inv s → event_row s o →
  ∃ r, s.(s_db).(claims) !! o.(o_aggregate_id) = Some r ∧ event_for o r.
Proof.
  intros [HI _ _ _] (o0 & Hsame & Hin). pose proof Hsame as (_ & _ & Hagg & _). rewrite Hagg.
  destruct Hin as [Hin|Hin].
  - destruct (inv_outbox _ _ HI _ _ Hin) as (_ & _ & r & Hr & Hev). exists r.
    split; [done|]. by eapply same_event_for.
  - destruct (inv_archive _ _ HI _ _ Hin) as (r & Hr & Hev). exists r.
    split; [done|]. by eapply same_event_for.
Qed.

Lemma announced_announces s e : sys_inv s → announced s e → ∃ r, announces s.(s_db).(claims) e r.
Proof.
  intros Hinv (o & Ho & Hid & Hat & Hai & Het & Hpl).
  destruct (event_row_for s o Hinv Ho) as (r & Hr & Ht & Ha & He & payload & Hm & Hj).
  exists r. unfold announces. rewrite <-Hid, <-Hat, <-Hai, <-Het, <-Hpl.
  split_and!; [done..|]. by exists payload.
Qed.

(** A claim has one event. *)
Lemma event_row_unique s o o' :
  sys_inv s → event_row s o → event_row s o' → o.(o_aggregate_id) = o'.(o_aggregate_id) →
  same_event o o'.
Proof.
  intros [HI _ _ _] (o0 & Hs0 & Hin0) (o1 & Hs1 & Hin1) Hagg.
  pose proof Hs0 as (_ & _ & E0 & _). pose proof Hs1 as (_ & _ & E1 & _).
  assert (o0.(o_aggregate_id) = o1.(o_aggregate_id)) as E by congruence.
  assert (o0 = o1) as ->.
  { destruct Hin0 as [Hin0|Hin0], Hin1 as [Hin1|Hin1].
    - assert (o0.(o_id) = o1.(o_id)) by (by eapply inv_one_event). congruence.
    - destruct (inv_outbox _ _ HI _ _ Hin0) as (_ & Hn & _). congruence.
    - destruct (inv_outbox _ _ HI _ _ Hin1) as (_ & Hn & _). congruence.
    - congruence. }
  destruct Hs0 as (?&?&?&?&?), Hs1 as (?&?&?&?&?). split_and!; congruence.
Qed.

(** Every event a worker holds, every publication the publisher accepted and every
    archived event. *)
Record provenance (v : service) : Prop := {
  pv_held t th e p : v.(sv_workers) !! t = Some th →
    th.(wt_ghost).(WorkerLogic.g_held) = Some (e, p) → announced v.(sv_claims) e;
  pv_delivered id : id ∈ v.(sv_delivered) →
    ∃ e, e.(ID) = id ∧ announced v.(sv_claims) e;
  pv_archive id o : v.(sv_claims).(s_archive) !! id = Some o → o.(o_id) ∈ v.(sv_delivered)
}.

(** What a worker holds after a call. *)
Lemma held_announced w g ch s (call : Worker.call) m' r e p :
  sys_inv s → OutboxFacts.table_ok s.(s_db).(outbox) →
  (∀ e p, g.(WorkerLogic.g_held) = Some (e, p) → announced s e) →
  WorkerLogic.allowed w g call → wexec ch s.(s_db).(outbox) call = (m', r) →
  (WorkerLogic.after g call r).(WorkerLogic.g_held) = Some (e, p) → announced s e.
Proof.
  intros HI Hok Hheld Hal Hex Hg. destruct call; simpl in *; try done; try by eapply Hheld.
  - pose proof (OutboxFacts.ClaimNext_effect _ _ _ _ _ _ Hok Hex) as Heff.
    destruct r as [[e0|]|]; try done. injection Hg as <- _.
    inversion Heff as [r0 Hr0|o r0 Ho Hd _ _ Hr0]; subst; [by destruct (Hr0 e0)|].
    destruct Hr0 as [[= ->]|[_ Hr0]]; [by eapply row_announced|by destruct (Hr0 e0)].
  - injection Hg as <- _. destruct Hal as [Hg _]. by eapply Hheld.
  - unfold WorkerLogic.seen_ctx in Hg. destruct (ctx_Err r); by eapply Hheld.
Qed.

Lemma delivered_announced w g s (call : Worker.call) r id :
  (∀ e p, g.(WorkerLogic.g_held) = Some (e, p) → announced s e) →
  WorkerLogic.allowed w g call → id ∈ delivered_by call r → ∃ e, e.(ID) = id ∧ announced s e.
Proof.
  intros Hheld Hal Hid. destruct call; simpl in *; try set_solver.
  destruct Hal as [Hg _]. destruct (Worker.pr_err r); [set_solver|].
  apply elem_of_singleton in Hid as ->. eauto.
Qed.

Lemma provenance_quiet v s ws :
  provenance v → sys_inv v.(sv_claims) → rtc step v.(sv_claims) s →
  s.(s_archive) = v.(sv_claims).(s_archive) →
  (∀ t th, ws !! t = Some th → v.(sv_workers) !! t = Some th
     ∨ th.(wt_ghost).(WorkerLogic.g_held) = None) →
  ∀ clock inserted refused, provenance (MkService clock s ws inserted v.(sv_delivered) refused).
Proof.
  intros [Hheld Hdel Harch] Hinv Hsteps Har Hws clock inserted refused. split; simpl.
  - intros t th e p Ht Hg. destruct (Hws t th Ht) as [Ht'|Hn]; [|congruence].
    eapply announced_mono; [done|done|by eapply Hheld].
  - intros id Hid. destruct (Hdel id Hid) as (e & He & Ha). exists e. split; [done|].
    by eapply announced_mono.
  - rewrite Har. apply Harch.
Qed.

Context (maxF : Z).

Lemma call_provenance v t w c k g until ch m' r :
  sys_inv v.(sv_claims) → winv maxF (workers_of v) → provenance v →
  v.(sv_workers) !! t = Some (WThread w (Do c k) g until) →
  wexec ch (sv_table v) c = (m', r) →
  ∀ inserted refused, provenance
    (MkService v.(sv_clock) (WorkerSafety.with_outbox m' v.(sv_claims))
       (<[t := WThread w (k r) (WorkerLogic.after g c r) (lease_end v.(sv_clock) until c r)]>
          v.(sv_workers))
       inserted (delivered_by c r ∪ v.(sv_delivered)) refused).
Proof.
  intros Hinv Hw [Hheld Hdel Harch] Ht Hex inserted refused.
  destruct (wi_thread _ _ Hw _ _ Ht) as ([Hal _] & _). simpl in Hal.
  destruct (worker_call_projects v ch c m' r (wi_table _ _ Hw) Hex) as [Hsteps _].
  assert (∀ e p, g.(WorkerLogic.g_held) = Some (e, p) → announced v.(sv_claims) e) as Hg
    by (intros e p; by apply (Hheld _ _ _ _ Ht)).
  split; simpl.
  - intros t2 th e p [[<- <-]|[_ Ht2]]%lookup_insert_Some Hg2;
      (eapply announced_mono; [exact Hsteps|exact Hinv|]); [|by eapply Hheld].
    eapply held_announced; [exact Hinv|apply Hw|exact Hg|exact Hal|exact Hex|exact Hg2].
  - intros id Hid. assert (∃ e, e.(ID) = id ∧ announced v.(sv_claims) e) as (e & He & Ha).
    { apply elem_of_union in Hid as [Hid|Hid]; [by eapply delivered_announced|by apply Hdel]. }
    exists e. split; [done|]. by eapply announced_mono.
  - intros id o Ho. apply elem_of_union. right. by eapply Harch.
Qed.

Lemma sstep_provenance v v' :
  sstep maxF v v' → sys_inv v.(sv_claims) → winv maxF (workers_of v) → shared_ok v →
  provenance v → provenance v'.
Proof.
  intros Hstep Hinv Hw Hok Hpv.
  destruct (sstep_projects maxF v v' Hstep Hinv Hw Hok) as (Hclaims & _ & _).
  destruct Hstep as [| | | |v t cfg w fuel b Ht Hnew Hmax Hdist|v t w c k g until ch m' r Ht Hnow Hex Hpos
    |v t| |v e o s Ho Hpub]; try (by eapply provenance_quiet; eauto).
  - apply provenance_quiet; [done..|].
    intros t2 th [[_ <-]|[_ Ht2]]%lookup_insert_Some; [by right|by left].
  - by apply (call_provenance v t w c k g until ch m' r).
  - apply provenance_quiet; [done..|].
    intros t2 th [_ Ht2]%lookup_delete_Some. by left.
  - destruct Hpv as [Hheld Hdel Harch]. split; simpl.
    + intros t th e' p Ht Hg. eapply announced_mono; [exact Hclaims|done|by eapply Hheld].
    + intros id (e' & He & Ha)%Hdel. exists e'. split; [done|]. by eapply announced_mono.
    + intros id o' [[_ <-]|[_ Ho']]%lookup_insert_Some; [|by eapply Harch].
      destruct (inv_outbox _ _ (si_db _ Hinv) _ _ Ho) as [-> _].
      destruct (wi_row _ _ Hw _ _ Ho) as (_ & _ & Hrow). rewrite Hpub in Hrow. apply Hrow.
Qed.

(** Everything the service keeps. *)
Record service_inv (v : service) : Prop := {
  vi_claims : sys_inv v.(sv_claims);
  vi_workers : winv maxF (workers_of v);
  vi_reachable : wreachable maxF (workers_of v);
  vi_provenance : provenance v
}.

Lemma init_provenance : provenance init_service.
Proof. split; simpl; intros; by simplify_map_eq || set_solver. Qed.

Lemma service_reachable_inv v : 0 < maxF → service_reachable maxF v → service_inv v.
Proof.
  intros HmaxF Hr.
  assert (provenance v) as Hpv.
  { cut (service_reachable maxF v ∧ provenance v); [by intros []|]. revert v Hr.
    apply (rtc_ind_r (λ v, service_reachable maxF v ∧ provenance v) init_service).
    { split; [apply rtc_refl|apply init_provenance]. }
    intros v v' _ Hstep [Hv Hpv]. split; [by eapply rtc_r|].
    destruct (service_projects maxF v HmaxF Hv) as (Hc%reachable_inv & Hw & Hok).
    eapply sstep_provenance; [exact Hstep|done| |done|done]. by apply wreachable_inv. }
  destruct (service_projects maxF v HmaxF Hr) as (Hc & Hw & _).
  split; [by apply reachable_inv|by apply wreachable_inv|done|done].
Qed.

Lemma service_steps v v' :
  0 < maxF → service_reachable maxF v → rtc (sstep maxF) v v' →
  service_reachable maxF v' ∧ rtc step v.(sv_claims) v'.(sv_claims).
Proof.
  intros HmaxF Hv Hsteps. revert Hv. induction Hsteps as [v|v v1 v' Hstep _ IH]; intros Hv.
  { split; [done|apply rtc_refl]. }
  destruct (service_projects maxF v HmaxF Hv) as (Hc%reachable_inv & Hw & Hok).
  apply wreachable_inv in Hw; [|done].
  destruct (sstep_projects maxF v v1 Hstep Hc Hw Hok) as (Hclaims & _ & _).
  destruct IH as [Hv' Hclaims']; [by eapply rtc_r|]. split; [done|].
  by eapply (transitivity (R := rtc step)).
Qed.

(** ** Properties *)

(** C9: the service is the composition of its parts: with the API's transactions
    and the workers interleaved over one database, every reachable state is one the
    claim system alone can reach and one the worker system alone can reach.  What
    is proved of the claims under any worker, and of the workers under any inserts,
    therefore holds of the whole. *)
Theorem service_refines v (HmaxF : 0 < maxF) (Hv : service_reachable maxF v) :
  reachable v.(sv_claims) ∧ wreachable maxF (workers_of v).
Proof. destruct (service_projects maxF v HmaxF Hv) as (Hc & Hw & _). done. Qed.

(** The rows of the idempotency table have the length of a SHA-256 sum as key. *)
Lemma step_keys s s' :
  step s s' → sys_inv s → (∀ h i, s.(s_db).(idem) !! h = Some i → len h = 32) →
  ∀ h i, s'.(s_db).(idem) !! h = Some i → len h = 32.
Proof.
  intros Hstep [HI Hth _ _] Hkeys.
  destruct Hstep as [|s t p l st k ch c' l' r Ht Hch Hex Hfree| |s h i Hi Hst| |]; try done; simpl.
  - destruct (Hth _ _ Ht) as ([_ Hp] & Hs & Hl). simpl in *. specialize (Hs s.(s_db) ch).
    rewrite Hex in Hs. destruct Hs as [Hd _]; [split_and!; [eauto|done|apply Hl]|done|].
    assert (c' = s.(s_db) ∨ commit_shape p s.(s_db) c') as [->|Hc] by naive_solver; [done|].
    intros h i. destruct Hc as [(cr & o & now & pl & _ & _ & _ & _ & _ & _ & _ & _ & ->)
                               |(r0 & now & _ & _ & _ & ->)]; simpl;
      intros [[<- _]|[_ Hi]]%lookup_insert_Some; eauto.
  - intros h' i' [_ Hi']%lookup_delete_Some. eauto.
Qed.

Lemma reachable_keys s : reachable s → ∀ h i, s.(s_db).(idem) !! h = Some i → len h = 32.
Proof.
  intros Hr. cut (reachable s ∧ ∀ h i, s.(s_db).(idem) !! h = Some i → len h = 32); [by intros []|].
  revert s Hr. apply (rtc_ind_r (λ s, reachable s ∧ ∀ h i, s.(s_db).(idem) !! h = Some i → len h = 32)
    init_sys).
  { split; [apply rtc_refl|]. intros h i Hi. simpl in Hi. simplify_map_eq. }
  intros s s' _ Hstep [Hs Hk]. split; [by eapply rtc_r|].
  eapply step_keys; [exact Hstep|by apply reachable_inv|done].
Qed.

(** A worker is about to hand the event to the publisher. *)
Definition publishing (v : service) (e : Event) : Prop :=
  ∃ t w timeout k g until,
    v.(sv_workers) !! t = Some (WThread w (Do (Worker.CPublish e timeout) k) g until).

Lemma publishing_announced v e :
  service_inv v → publishing v e → announced v.(sv_claims) e.
Proof.
  intros [_ Hw _ Hpv] (t & w & timeout & k & g & until & Ht).
  destruct (wi_thread _ _ Hw _ _ Ht) as ([[Hg _] _] & _). simpl in Hg.
  by apply (pv_held _ Hpv _ _ _ _ Ht Hg).
Qed.

(** C8: only granted rewards are announced, and one claim always under one event:
    whatever a worker hands to the publisher, at any time, announces a committed
    claim, with the JSON of that claim as payload; and two publications for the same
    claim, however far apart and by whichever workers, carry the same identifier,
    type and payload, so a consumer that remembers identifiers handles each claim
    once. *)
Theorem publication_granted v v' e e' (HmaxF : 0 < maxF)
    (Hv : service_reachable maxF v) (Hsteps : rtc (sstep maxF) v v')
    (He : publishing v e) (He' : publishing v' e') :
  (∃ r, announces v.(sv_claims).(s_db).(claims) e r)
  ∧ (e'.(AggregateID) = e.(AggregateID) →
     e'.(ID) = e.(ID) ∧ e'.(EventType) = e.(EventType) ∧ e'.(Payload) = e.(Payload)).
Proof.
  destruct (service_steps v v' HmaxF Hv Hsteps) as [Hv' Hclaims].
  pose proof (service_reachable_inv v HmaxF Hv) as Hinv.
  pose proof (service_reachable_inv v' HmaxF Hv') as Hinv'.
  pose proof (publishing_announced v e Hinv He) as Ha.
  split; [apply announced_announces; [apply Hinv|done]|]. intros Hagg.
  apply (announced_mono _ _ _ Hclaims (vi_claims _ Hinv)) in Ha.
  destruct (publishing_announced v' e' Hinv' He') as (o' & Ho' & Hi' & _ & Ha' & He1' & Hp').
  destruct Ha as (o & Ho & Hi & _ & Ha & He1 & Hp).
  destruct (event_row_unique _ o o' (vi_claims _ Hinv') Ho Ho') as (E1 & _ & _ & E2 & E3);
    [congruence|]. split_and!; congruence.
Qed.

(** What a worker that cmd/worker builds does of the event [o], once it is due, when
    its calls do not fail: within as many turns as the backlog has events it hands
    it to the publisher, and marks it published if the publisher accepts events. *)
Definition will_publish (v : service) (o : outbox_row) : Prop :=
  ∀ cfg b w env fuel onStarted,
    Forall (λ x, 0 ≤ x < 256) b →
    Worker.NewWorker true true true (WorkerMain.worker_config (WorkerTime.worker_id b) cfg) = Ok w →
    w.(Worker.maxFailures) = maxF →
    1000 ≤ cfg.(Config.BaseBackoff) → cfg.(Config.MaxBackoff) ≤ 10 ^ 18 →
    WorkerProgress.healthy env v.(sv_clock) →
    (size (WorkerProgress.backlog v.(sv_clock) (sv_table v)) ≤ fuel)%nat →
    let '(_, m, tr, _) := WorkerProgress.exec env 0 (sv_table v) (Worker.Run fuel w onStarted) in
    (∃ r, existT (Worker.CPublish (event_of o) w.(Worker.publishTimeout)) r ∈ tr)
    ∧ ((∀ i, (env i).(wc_publish).(Worker.pr_err) = None) →
       ∃ o', m !! o.(o_id) = Some o' ∧ o'.(o_status) = published).

Lemma due_will_publish v o :
  WorkerTime.interval_exact → 0 < maxF < 2 ^ 31 → service_inv v →
  sv_table v !! o.(o_id) = Some o → due v.(sv_clock) o = true → will_publish v o.
Proof.
  intros Hint HmaxF Hinv Ho Hd cfg b w env fuel onStarted Hb Hnew Hmax Hbase Hmaxb Henv Hfuel.
  pose proof (WorkerTime.NewWorker_fields _ _ Hnew) as [Hid _]. simpl in Hid.
  assert (text_ok w.(Worker.workerID) = true) as Htext
    by (rewrite Hid; by apply WorkerTime.worker_id_text_ok).
  pose proof (WorkerProgress.NewWorker_able _ _ _ Hnew Hmax Htext Hbase Hmaxb) as Hable.
  pose proof (WorkerProgress.reachable_fit _ _ (proj1 HmaxF) (vi_reachable _ Hinv)) as Hfit.
  simpl in Hfit.
  assert (o.(o_available_at) ≤ v.(sv_clock)) as Havail
    by (eapply WorkerTime.due_available; [apply Hfit|done|done]).
  destruct (WorkerProgress.exec_Run env maxF v.(sv_clock) w Hable Henv HmaxF Hint o.(o_id) o Hd Havail
              fuel (sv_table v) onStarted Hfit) as (j & m' & tr & -> & Hwait).
  destruct (Hwait Ho Hfuel) as [Hpub (o' & Ho' & _ & Hacc)]. split; [done|]. intros Ha.
  exists o'. split; [done|by apply Hacc].
Qed.

(** C7: a granted reward reaches the publisher: once a client's call has returned a
    fresh 201, in every later state of the service the claim is stored with the
    response the client got, and its one event either was accepted by the publisher
    (its row is published or archived), or was given up after the full number of
    refused publications, or still waits; and as soon as a waiting event is due, any
    worker that cmd/worker builds and whose calls do not fail publishes it,
    whatever else has happened: crashes, lost leases, other workers, a backlog. *)
Theorem granted_reward_announced v0 v t th res (HmaxF : 0 < maxF < 2 ^ 31)
    (Hint : WorkerTime.interval_exact) (Hv0 : service_reachable maxF v0)
    (Hret : RewardsSafety.returned v0.(sv_claims) t th (Ok res))
    (Hfresh : res.(Replayed) = false) (Hcreated : res.(StatusCode) = 201)
    (Hsteps : rtc (sstep maxF) v0 v) :
  ∃ cr o, v.(sv_claims).(s_db).(claims) !! cr.(c_id) = Some cr
    ∧ claim_triple cr = RewardsSql.triple_of th.(t_params)
    ∧ res.(ResponseBody) = created_body cr ∧ event_for o cr
    ∧ ((v.(sv_claims).(s_archive) !! cr.(c_id) = Some o ∧ o.(o_id) ∈ v.(sv_delivered))
       ∨ (sv_table v !! o.(o_id) = Some o
          ∧ match o.(o_status) with
            | published => o.(o_id) ∈ v.(sv_delivered)
            | dead_letter => maxF ≤ times o.(o_id) v.(sv_refused)
            | pending | processing => due v.(sv_clock) o = true → will_publish v o
            end)).
Proof.
  destruct (service_projects maxF v0 (proj1 HmaxF) Hv0) as (Hc0 & _ & _).
  destruct (service_steps v0 v (proj1 HmaxF) Hv0 Hsteps) as [Hv Hclaims].
  pose proof (service_reachable_inv v (proj1 HmaxF) Hv) as Hinv.
  destruct (RewardsSafety.fresh_claim _ _ _ _ Hc0 Hret Hfresh Hcreated) as (cr & _ & Hcr & Htr & Hb).
  destruct (RewardsSafety.steps_claims _ _ Hclaims (reachable_inv _ Hc0)) as [Hle _].
  pose proof (lookup_weaken _ _ _ _ Hcr Hle) as Hcr'.
  destruct (inv_event _ _ (si_db _ (vi_claims _ Hinv)) _ _ Hcr') as (o & Hev & Hin).
  exists cr, o. split_and!; [done..|]. destruct Hin as [Hin|Hin]; [right|left].
  - split; [done|]. destruct (wi_row _ _ (vi_workers _ Hinv) _ _ Hin) as (_ & Htimes & Hst). simpl in *.
    destruct o.(o_status); [by apply due_will_publish|by apply due_will_publish|apply Hst|lia].
  - split; [done|]. by eapply (pv_archive _ (vi_provenance _ Hinv)).
Qed.

(** ** Reaching a state by running calls *)

(** A call of the API, while no other transaction is open. *)
Lemma run_service_steps t p chs m : ∀ v l c' l' r,
  v.(sv_claims).(s_threads) !! t = Some (Thread p l m) →
  (∀ t' th, t' ≠ t → v.(sv_claims).(s_threads) !! t' = Some th →
     th.(t_local).(RewardsSql.l_status) ≠ RewardsSql.TxOpen) →
  Forall (λ ch, RewardsLogic.choice_ok ch ∧ ch.(RewardsSql.ch_now) = v.(sv_clock)) chs →
  RewardsSql.run chs v.(sv_claims).(s_db) l m = Some (c', l', r) →
  ∃ log inserted, rtc (sstep maxF) v
    (MkService v.(sv_clock)
       (Sys c' (<[t := Thread p l' (Ret r)]> v.(sv_claims).(s_threads))
          v.(sv_claims).(s_archive) log v.(sv_claims).(s_expired))
       v.(sv_workers) inserted v.(sv_delivered) v.(sv_refused)).
Proof.
  revert chs. induction m as [x| |st k IH]; intros chs v l c' l' r Ht Hother Hchs Hrun; simpl in Hrun.
  - simplify_eq. exists v.(sv_claims).(s_log), v.(sv_inserted). rewrite insert_id by done.
    by destruct v as [? [] ? ? ? ?].
  - done.
  - destruct chs as [|ch chs]; [done|]. apply Forall_cons in Hchs as [[Hch Hnow] Hchs].
    destruct (RewardsSql.exec ch v.(sv_claims).(s_db) l st) as [[c1 l1] r1] eqn:Hex.
    pose proof (ss_statement maxF v t p l st k ch c1 l1 r1 Ht Hch Hnow Hex) as Hstep.
    destruct (IH r1 chs (after_claims v (Sys c1 (<[t := Thread p l1 (k r1)]> v.(sv_claims).(s_threads))
       v.(sv_claims).(s_archive) (RewardsLogic.idem_rows c1 ++ v.(sv_claims).(s_log))
       v.(sv_claims).(s_expired))) l1 c' l' r) as (log & inserted & Hrtc);
      [apply lookup_insert_eq| |done|done|].
    + intros t' th Hne. simpl. rewrite lookup_insert_ne by done. eauto.
    + exists log, inserted. simpl in Hrtc. rewrite insert_insert_eq in Hrtc.
      eapply rtc_l; [|exact Hrtc]. apply Hstep.
      intros t' th Hne Ht' Ho. by destruct (Hother _ _ Hne Ht').
Qed.

(** The service after its workers took steps to [ws]. *)
Definition after_workers (v : service) (ws : wsys) : service :=
  MkService ws.(ws_clock) (WorkerSafety.with_outbox ws.(ws_table) v.(sv_claims)) ws.(ws_workers)
    ws.(ws_inserted) ws.(ws_delivered) ws.(ws_refused).

Lemma wcalls_service_steps t chs v ws :
  wcalls t chs (workers_of v) = Some ws → rtc (sstep maxF) v (after_workers v ws).
Proof.
  revert v. induction chs as [|ch chs IH]; intros v; simpl.
  { intros [= <-]. by destruct v as [? [[] ? ? ? ?] ? ? ? ?]. }
  intros (ws1 & H1 & H2)%bind_Some. eapply rtc_l with (y := after_workers v ws1).
  - unfold wcall in H1. simpl in H1.
    destruct (v.(sv_workers) !! t) as [[w [a| |c k] g u]|] eqn:Ht; try done.
    destruct (wexec ch (sv_table v) c) as [m' r] eqn:Hex. destruct (_ && _) eqn:Hb; [|done].
    injection H1 as <-. boolean. eapply ss_worker_call; [done..|]. by apply possible_b_possible.
  - replace (after_workers v ws) with (after_workers (after_workers v ws1) ws) by done.
    apply IH. by destruct ws1.
Qed.

End safety.

(** ** A concrete execution

    The sample call of RewardsSafety is served, then a worker starts, publishes the
    event and marks it published. *)
Definition demo_returned (log : list idem_row) (inserted : gset string) : service :=
  MkService demo_now (Sys RewardsSafety.demo_db RewardsSafety.demo_threads1 ∅ log ∅)
    ∅ inserted ∅ [].

Definition demo_started (log : list idem_row) (inserted : gset string) : service :=
  with_workers (<[0%nat := WThread WorkerSafety.demo_worker
                   (Worker.Run 3 WorkerSafety.demo_worker true) WorkerLogic.start 0]> ∅)
    (demo_returned log inserted).

Definition demo_wchoice : wchoice :=
  WChoice (OutboxFacts.demo_choice demo_now) CtxLive (Worker.PublishReply None CtxLive 1000000)
    Worker.TimerFired.

(** The state after [n] calls of the worker. *)
Definition demo_service (n : nat) (log : list idem_row) (inserted : gset string) : service :=
  match @wcalls demo_postgres demo_interval 0%nat (replicate n demo_wchoice)
          (workers_of (demo_started log inserted)) with
  | Some ws => after_workers (demo_started log inserted) ws
  | None => demo_started log inserted
  end.

Lemma demo_service_steps n log inserted :
  rtc (@sstep demo_postgres demo_interval 5) (demo_returned log inserted) (demo_service n log inserted).
Proof.
  eapply rtc_l.
  { apply (@ss_worker_start demo_postgres demo_interval 5 (demo_returned log inserted) 0%nat
             WorkerSafety.demo_config WorkerSafety.demo_worker 3 true);
      [reflexivity|vm_compute; reflexivity..|].
    intros t' th Ht'. simpl in Ht'. simplify_map_eq. }
  change (with_workers _ _) with (demo_started log inserted). unfold demo_service.
  destruct (wcalls _ _ _) as [ws|] eqn:E; [|apply rtc_refl].
  by eapply (@wcalls_service_steps demo_postgres demo_interval).
Qed.

Lemma demo_returned_reachable :
  ∃ log inserted, @service_reachable demo_postgres demo_interval 5 (demo_returned log inserted).
Proof.
  set (v1 := MkService demo_now init_sys ∅ ∅ ∅ []).
  set (v2 := after_claims v1 (Sys empty_db
    (<[0%nat := Thread RewardsSafety.demo_params RewardsSql.init_local
         (@RewardsTx.createClaim demo_postgres 1 RewardsSafety.demo_params)]> ∅) ∅ [] ∅)).
  destruct (@run_service_steps demo_postgres demo_interval 5 0%nat RewardsSafety.demo_params
    (RewardsSafety.demo_choices RewardsDemo.demo_bytes1) _ v2 RewardsSql.init_local RewardsSafety.demo_db
    (t_local (RewardsSafety.demo_thread RewardsSafety.demo_first)) (Ok RewardsSafety.demo_created)
    eq_refl) as (log & inserted & Hrtc).
  - intros t' th Hne Ht'. simpl in Ht'. by rewrite lookup_insert_ne, lookup_empty in Ht'.
  - apply Forall_forall. intros ch Hch. split.
    + by apply (proj1 (Forall_forall _ _) RewardsSafety.demo_choices_ok).
    + unfold RewardsSafety.demo_choices in Hch. apply list_elem_of_fmap in Hch as (? & -> & _). done.
  - exact RewardsSafety.demo_first_run.
  - exists log, inserted. eapply rtc_l.
    { apply (@ss_tick demo_postgres demo_interval 5 init_service demo_now). vm_compute. discriminate. }
    eapply rtc_l; [apply (@ss_request demo_postgres demo_interval 5 v1 0%nat sample_command
      RewardsSafety.demo_params 1); [reflexivity|exact RewardsSafety.demo_prepared]|].
    exact Hrtc.
Qed.

Lemma demo_service_reachable n :
  ∃ log inserted, @service_reachable demo_postgres demo_interval 5 (demo_returned log inserted)
    ∧ @service_reachable demo_postgres demo_interval 5 (demo_service n log inserted).
Proof.
  destruct demo_returned_reachable as (log & inserted & Hv). exists log, inserted. split; [done|].
  eapply (transitivity (R := rtc (sstep 5))); [exact Hv|apply demo_service_steps].
Qed.

Lemma publishing_thread v t (P : Event → bool) :
  match v.(sv_workers) !! t with
  | Some (WThread _ (Do (Worker.CPublish e _) _) _ _) => P e
  | _ => false
  end = true → ∃ e, publishing v e ∧ P e = true.
Proof.
  destruct (_ !! t) as [[w [a| |[] k] g u]|] eqn:Ht; try done. intros HP.
  eexists. split; [|exact HP]. by eexists t, w, _, _, _, _.
Qed.

Lemma only_row (m : table) (P : outbox_row → bool) :
  match map_to_list m with [(_, o)] => P o | _ => false end = true →
  ∃ id o, m !! id = Some o ∧ P o = true.
Proof.
  destruct (map_to_list m) as [|[id o] [|]] eqn:El; try done. intros HP. exists id, o.
  split; [|done]. apply elem_of_map_to_list. rewrite El. by left.
Qed.

(** The worker before its publication. *)
Lemma demo_publishing log inserted :
  ∃ e, publishing (demo_service 10 log inserted) e
    ∧ bool_decide (e.(EventType) = outboxEventTypeRewardClaimed) = true.
Proof. apply (publishing_thread _ 0%nat). vm_compute. reflexivity. Qed.

Lemma demo_published log inserted :
  ∃ id o, sv_table (demo_service 16 log inserted) !! id = Some o
    ∧ bool_decide (o.(o_status) = published) = true.
Proof. apply only_row. vm_compute. reflexivity. Qed.

Lemma service_refines_witness :
  ∃ v, @reachable demo_postgres v.(sv_claims)
    ∧ @wreachable demo_postgres demo_interval 5 (workers_of v)
    ∧ (∃ id o, sv_table v !! id = Some o ∧ bool_decide (o.(o_status) = published) = true).
Proof.
  destruct (demo_service_reachable 16) as (log & inserted & _ & Hv).
  exists (demo_service 16 log inserted).
  destruct (@service_refines demo_postgres demo_interval 5 (demo_service 16 log inserted)
              ltac:(lia) Hv) as [Hc Hw].
  split; [exact Hc|]. split; [exact Hw|apply demo_published].
Defined.

Lemma publication_granted_witness :
  ∃ v e, publishing v e ∧ ∃ r, @announces demo_postgres v.(sv_claims).(s_db).(claims) e r.
Proof.
  destruct (demo_service_reachable 10) as (log & inserted & _ & Hv).
  destruct (demo_publishing log inserted) as (e & He & _).
  exists (demo_service 10 log inserted), e. split; [exact He|].
  apply (@publication_granted demo_postgres demo_interval 5 (demo_service 10 log inserted)
           (demo_service 10 log inserted) e e); [lia|exact Hv|apply rtc_refl|exact He|exact He].
Defined.

Lemma granted_reward_announced_witness :
  ∃ v cr o, v.(sv_claims).(s_db).(claims) !! cr.(c_id) = Some cr
    ∧ RewardsSafety.demo_created.(ResponseBody) = created_body cr
    ∧ @event_for demo_postgres o cr.
Proof.
  destruct (demo_service_reachable 16) as (log & inserted & Hv0 & _).
  destruct (@granted_reward_announced demo_postgres demo_interval 5 (demo_returned log inserted)
              (demo_service 16 log inserted) 0%nat (RewardsSafety.demo_thread RewardsSafety.demo_first)
              RewardsSafety.demo_created) as (cr & o & Hcr & _ & Hb & Hev & _).
  - lia.
  - exact WorkerTime.demo_interval_exact.
  - exact Hv0.
  - split; reflexivity.
  - reflexivity.
  - reflexivity.
  - apply demo_service_steps.
  - exists (demo_service 16 log inserted), cr, o. split; [exact Hcr|]. split; [exact Hb|exact Hev].
Defined.

End ServiceSafety.
